(* ===== verification/_CoqProject ===== *)
-Q . S2P
Prelude.v
SortedZ.v
StdMap.v
Hwloc.v
Parsing.v
Bitmap.v
Arena.v
Service.v
Runner.v
CpuSets.v
Engines.v
Topology.v
Partitions.v
Resources.v
System.v
Addresses.v
Manifold.v
Segment.v
Pipeline.v
Executor.v
RunnerJoin.v
RunnerLink.v
Channels.v
Edges.v
EdgesInv.v
EdgesSpec.v
EdgeRegistry.v
EdgeTypes.v
SegmentObjects.v
Dataflow.v
DataflowInv.v
DataflowSpec.v
BlockManager.v
Grpc.v
Streaming.v
StreamingInv.v
StreamingSpec.v
RpcWorker.v
Unary.v
Batching.v
Bidirectional.v
FiberClient.v
ClientV1.v
ClientV2.v
ClientExecutor.v
ClientV3.v
UnaryClient.v
Scheduler.v
TaskQueue.v
Barrier.v
ThreadPool.v
SystemPool.v
Buffers.v
Codable.v
Trace.v
Tracer.v
DataPlane.v
