(* ===== verification/Prelude.v ===== *)
(** * SRF: a verification development

    SRF is a C++ runtime for streaming pipelines.  An application declares a
    _pipeline_ of _segments_ joined by named _ports_; the runtime discovers the
    machine, divides its cpus, gpus and threads into partitions, builds each
    segment on a partition, runs the nodes of the segments as tasks on engines
    and moves data between segments through _manifolds_; between machines, objects
    are encoded and sent over a _data plane_, and services talk through the
    asynchronous _rpc_ tools.  This library models these parts as executable
    functions and step relations and proves the properties that each part owes to
    the others.  All paths below are those of the repository.

    ** How code is modelled

    - Outcomes: [res] (this file) tells a return from a C++ exception ([Throw]),
      a failed CHECK or LOG(FATAL) ([Abort]) and undefined behaviour
      ([Undefined]).  Stateful code is the monad [M S A := S → res A * S], in
      which an exception leaves the state as it was when thrown.  DCHECKs are
      those of a debug build.  Log output is omitted.
    - Integers are [Z] with the wrap-around written out ([u16], [u32], [u64]).
      [std::map] and [std::set] are key-ordered association lists ([StdMap],
      [SortedZ]) where their order is observed and [gmap] where it is not.
      Doubles (only in [Trace] and [Tracer]) are exact rationals.
    - Work that the code posts to the main task queue of a partition and awaits
      at once is run in place.  Code that several threads run at the same time is
      a transition function on a state of all of them: an event is a critical
      section, an atomic access, or the operation a thread performs after it has
      released its lock, and theorems quantify over all sequences of events.
    - Shared objects live in a store and are named by their index; use counts of
      [std::shared_ptr] are fields ([Edges], [Buffers], [Streaming]).
    - Third-party code is a class of operations with the laws its documentation
      states, with a concrete instance: [Hwloc] (bitmaps), [HwlocTopology]
      (machine), [MemoryResource] and [MemoryResourceLaws] (allocation),
      [ProtoMessage] and [ProtoLaws] (serialization).  [std::random_shuffle], the
      upstream memory resource and the runner a launcher ignites are parameters.
      gRPC is the automaton of [Grpc] and the one at the top of [FiberClient]; UCX
      is the environment of [DataPlane], which decides every outcome and order.
    - Recursion that is not structural has fuel, with a lemma that the fuel given
      is enough: [rr_next] needs 2 when a cpu is left ([round_robin_cyclic]),
      [find_ranges_loop] the length of its list ([find_ranges_loop_spec]),
      [dec_digits] the bit length of the number ([read_digits_dec]),
      [Edges.release] the sum of the use counts ([release_fuel_enough]) and
      [Edges.write_ref] the number of objects: running out of it is a cycle of
      edges, on which the code recurses without end.  Bounds on runs are measures:
      [DataflowSpec.weight], [DataPlane.weight] and those of [TaskQueue],
      [ThreadPool], [SystemPool] and [FiberClient].

    ** Files

    Foundations
    - [Prelude] (this file): outcomes and the state monad, integers, generic list
      lemmas, [returns] (partial) and [succeeds] (total) Hoare rules.
    - [SortedZ], [StdMap]: ordered sets and maps of the C++ library.
    - [Hwloc], [Parsing], [Bitmap]: the bitmap interface of hwloc;
      [src/internal/utils/parse_ints.cpp], [ranges.hpp], [parse_config.cpp];
      [src/public/core/bitmap.cpp] and
      [src/internal/utils/shared_resource_bit_map.cpp].

    The machine
    - [CpuSets]: [src/internal/system/engine_factory_cpu_sets.cpp] and the engine
      group options.
    - [Topology], [Partitions]: [src/internal/system/topology.cpp], [gpu_info.cpp],
      [partitions.cpp] with host and device partitions.
    - [Resources], [System]: [src/internal/resources] (host, device and system
      resources and the flat list of partitions, on [Partitions] and [Engines]);
      [src/internal/system/system.cpp] (threads and thread-local resources).
    - [Scheduler], [TaskQueue], [SystemPool]: the priority scheduler of fibers, the
      fiber task queues and the thread pool under [src/internal/system].
    - [Barrier]: [include/srf/core/thread_barrier.hpp].

    Running pipelines
    - [Service]: [src/internal/service.cpp], the life cycle that executor, manager,
      pipelines and segments share: the class [Service] is what a component
      provides, [ServiceLaws] what its hooks promise.
    - [Runner]: [src/public/runnable/runnable.cpp], [context.cpp], [runner.cpp].
    - [Engines]: [src/internal/runnable] (engines and engine factories),
      [src/internal/system/fiber_manager.cpp], the launch control of
      [include/srf/runnable] and [src/internal/resources/host_resources.cpp].
    - [Addresses]: [src/public/core/addresses.cpp],
      [src/internal/utils/collision_detector.cpp] and
      [src/internal/data_plane/tags.hpp].
    - [Manifold]: [include/srf/manifold].
    - [Segment]: [src/internal/segment], against the interface [RunnerI] of
      runners; an instance of [Service].
    - [Pipeline]: [src/internal/pipeline] ([pipeline.cpp], [instance.cpp],
      [controller.cpp]); an instance of [Service] that owns segments and
      manifolds.
    - [Executor]: [src/internal/pipeline/manager.cpp] and
      [src/internal/executor/executor.cpp]; two more instances, on top of the
      controller of [Pipeline].
    - [RunnerJoin], [RunnerLink]: what joining a runner returns, whatever the
      interleaving of its instances; and the implementation of [RunnerI] with the
      runners of [Runner], which gives the executor without hypotheses on runners.

    Data flow
    - [Channels]: [include/srf/channel] and [src/public/channel/channel.cpp].
    - [Edges], [EdgesInv], [EdgesSpec]: sink and source channels, edges and
      operators of [include/srf/node] with their reference counts; the invariant;
      what edges promise.  [EdgeRegistry]: [src/public/node/edge_registry.cpp].
      [EdgeTypes]: the types that [include/srf/node/edge_builder.hpp] connects.
    - [SegmentObjects]: the objects of a segment and the edges that a user makes
      between them ([include/srf/segment/object.hpp], [builder.hpp]), on the graph
      of [Edges].
    - [Dataflow], [DataflowInv], [DataflowSpec]: the runnable nodes of
      [include/srf/node] as a network that moves data; invariants; draining.

    Memory and encoding
    - [Arena]: the arena allocator under [include/srf/memory/resources].
    - [BlockManager]: [include/srf/memory/core].
    - [Buffers], [Codable]: buffers and blobs of [include/srf/memory]; encoded
      objects of [src/public/codable] on that memory.

    Network
    - [DataPlane]: client, server and receive loop of [src/internal/data_plane] and
      [src/internal/ucx/receive_manager.cpp], on [Codable] and [Addresses].
    - [Grpc], [Streaming], [StreamingInv], [StreamingSpec], [Unary], [Batching],
      [Bidirectional], [RpcWorker]: the server life cycles and the worker loop of
      [tools/nvrpc/include/nvrpc].
    - [FiberClient], [ClientV1], [ClientV2], [ClientV3], [ThreadPool]: the streaming
      clients and the thread pool there.
    - [ClientExecutor], [UnaryClient]: the executor of the clients, for any context
      that implements the class [BaseContext]; [SlotContext] is what the unary
      clients promise it.

    Benchmarking
    - [Trace], [Tracer]: [src/public/benchmarking] and the segment watcher.

    ** What is proved

    - The executor (C5, C6): registered pipelines run exactly the segments assigned,
      wired and joinable, however updates and the controller interleave; stop and
      join bring everything to Completed or rethrow a failure, without an abort.
    - Data flow (C1, C14 to C16, C19): networks of nodes never deadlock, end, lose
      and duplicate nothing and keep the order of a single writer; a kill can
      strand a writer.  Edges (C4, C12, C17): a channel is open exactly as long as
      an upstream edge is held; a write follows the routes of the operators; a
      second source of a muxer is dropped.  Types (C13, C18): the edges that the
      builder of a segment makes deliver to a sink of the type they were made for;
      which conversions of numbers are announced as narrowing.
    - Tasks (C7, C8, C39): no interleaving of the instances of a runner violates the
      order of its states, and what joining it returns does not depend on the
      interleaving; a prepared launcher starts one task per engine, once.
    - Fibers and threads (C11, C21, C24, C25, C32): every task queue has the
      thread-local resources of its cpu; the scheduler refines a stable priority
      queue; task queues and the thread pool run what they were given and then
      join; the barrier keeps its threads in step.
    - The machine (C9, C10, C40): the cpus are divided exactly among the engine
      pools; every gpu and every host without one is a partition, with its own
      resources; topologies survive serialization.
    - Memory (C2, C20, C33, C34): blocks of the arenas stay disjoint; the block
      manager refines a finite map; no use of buffers and blobs touches freed
      memory; encoded values are decoded as they were.
    - Network (C35, C36): every message of the data plane is accounted for and what
      is delivered is what was sent; sends return when UCX is done with them.
    - RPC (C3, C22, C23, C26 to C31): server and clients obey the rules of the gRPC
      call under every interleaving, responses keep their order, and calls finish;
      the v2 client refines the fiber client and keeps its promise; unary calls are
      answered, each once; the first client keeps the order of data, but not
      always its promise.
    - Benchmarking (C37, C38): aggregation is the sum over threads; times are
      bounded by the clock.

    Each file has further theorems, among them the behaviours that the comments or
    the intent of the code do not lead one to expect.

    ** Not modelled

    The control plane (its client and server resources are commented out as a
    whole, the rest is a prototype), the start of the data plane's services (a
    LOG(FATAL)) and the handles of UCX; the single-up client of the rpc
    tools (its state functions end without a return value), service registration
    and server set-up; memory adaptors, rmm device blobs and CUDA;
    metrics; throughput aggregation and the conversion to prometheus; string
    utilities on regular expressions; the Python bindings.  Most are thin layers
    over third-party libraries. *)
From Stdlib Require Export ZArith Lia.
From stdpp Require Export base tactics numbers strings gmap sorting option.
From stdpp Require Export list.

(** ** Outcomes of C++ code

    [Ret a] is a normal return, [Throw e] a C++ exception whose message is [e],
    [Abort why] a failed glog CHECK or LOG(FATAL) (the process aborts), and
    [Undefined why] a state in which the C++ standard gives the next operation
    no meaning (dereferencing an end iterator, popping an empty deque, ...). *)
Inductive res (A : Type) : Type :=
| Ret (a : A)
| Throw (e : string)
| Abort (why : string)
| Undefined (why : string).
Arguments Ret {A} a.
Arguments Throw {A} e.
Arguments Abort {A} why.
Arguments Undefined {A} why.

#[export] Instance res_ret : MRet res := λ A, Ret.
#[export] Instance res_bind : MBind res := λ A B f m,
  match m with
  | Ret a => f a
  | Throw e => Throw e
  | Abort w => Abort w
  | Undefined w => Undefined w
  end.

#[export] Instance res_eq_dec {A} `{EqDecision A} : EqDecision (res A).
Proof. solve_decision. Defined.

(** A glog CHECK: abort unless the condition holds. *)
Definition check (b : bool) (why : string) : res () :=
  if b then Ret () else Abort why.
(** The [if (cond) throw ...] guard. *)
Definition throw_if (b : bool) (e : string) : res () :=
  if b then Throw e else Ret ().

(** ** Stateful code: the state survives an exception *)
Definition M (S A : Type) : Type := S → res A * S.

#[export] Instance M_ret {S} : MRet (M S) := λ A a s, (Ret a, s).
#[export] Instance M_bind {S} : MBind (M S) := λ A B f m s,
  match m s with
  | (Ret a, s') => f a s'
  | (Throw e, s') => (Throw e, s')
  | (Abort w, s') => (Abort w, s')
  | (Undefined w, s') => (Undefined w, s')
  end.
Definition get {S} : M S S := λ s, (Ret s, s).
Definition put {S} (s' : S) : M S () := λ _, (Ret (), s').
Definition modify {S} (f : S → S) : M S () := λ s, (Ret (), f s).
Definition lift {S A} (r : res A) : M S A := λ s, (r, s).

(** ** Fixed-width integers *)
Definition u16 (z : Z) : Z := (z mod 2 ^ 16)%Z.
Definition u32 (z : Z) : Z := (z mod 2 ^ 32)%Z.
Definition u64 (z : Z) : Z := (z mod 2 ^ 64)%Z.
(** Conversion to a 32-bit [int]. *)
Definition i32 (z : Z) : Z := ((z + 2 ^ 31) mod 2 ^ 32 - 2 ^ 31)%Z.
Definition INT_MAX : Z := (2 ^ 31 - 1)%Z.
Definition INT_MIN : Z := (- 2 ^ 31)%Z.

Lemma u32_small z : (0 ≤ z < 2 ^ 32)%Z → u32 z = z.
Proof. intros. by apply Z.mod_small. Qed.
Lemma u64_small z : (0 ≤ z < 2 ^ 64)%Z → u64 z = z.
Proof. intros. by apply Z.mod_small. Qed.
Lemma i32_small z : (- 2 ^ 31 ≤ z < 2 ^ 31)%Z → i32 z = z.
Proof. intros. unfold i32. rewrite Z.mod_small; lia. Qed.
(** A [uint32_t] read back into an [int]: the value -1 survives the trip. *)
Lemma i32_u32 z : (- 2 ^ 31 ≤ z < 2 ^ 31)%Z → i32 (u32 z) = z.
Proof.
  intros Hz. unfold i32, u32. rewrite Zplus_mod_idemp_l. rewrite Z.mod_small; lia.
Qed.

(** ** Lists *)
Lemma foldl_ext {A B} (f g : B → A → B) (l : list A) (b : B) :
  (∀ b a, a ∈ l → f b a = g b a) → foldl f b l = foldl g b l.
Proof.
  revert b. induction l as [|a l IH]; intros b Hfg; simpl; [done|].
  rewrite Hfg by set_solver. apply IH. set_solver.
Qed.

Lemma sum_nonneg (l : list Z) : Forall (Z.le 0) l → (0 ≤ foldr Z.add 0 l)%Z.
Proof. induction 1; simpl; lia. Qed.

(** Counting the elements of a list that satisfy a test. *)
Fixpoint countb {A} (f : A → bool) (l : list A) : nat :=
  match l with [] => 0 | x :: l' => (if f x then 1 else 0) + countb f l' end.

Lemma countb_insert {A} (f : A → bool) l i (x y : A) :
  l !! i = Some x →
  (countb f (<[i := y]> l) + (if f x then 1 else 0) = countb f l + (if f y then 1 else 0))%nat.
Proof.
  revert i. induction l as [|z l IH]; intros [|i] Hl; simplify_eq/=; [lia|].
  specialize (IH i Hl). lia.
Qed.

Lemma countb_elem {A} (f : A → bool) l i x :
  l !! i = Some x → f x = true → (1 ≤ countb f l)%nat.
Proof.
  revert i. induction l as [|z l IH]; intros [|i] Hl Hx; simplify_eq/=; [rewrite Hx; lia|].
  specialize (IH i Hl Hx). lia.
Qed.

Lemma countb_zero {A} (f : A → bool) l : countb f l = 0 ↔ Forall (λ x, f x = false) l.
Proof.
  split.
  - induction l as [|x l IH]; simpl; [constructor|]. destruct (f x) eqn:E; [lia|]. constructor; auto.
  - induction 1 as [|x l Hx _ IH]; simpl; [done|]. by rewrite Hx, IH.
Qed.

Lemma countb_replicate {A} (f : A → bool) n x :
  countb f (replicate n x) = if f x then n else 0.
Proof. induction n as [|n IH]; simpl; [by destruct (f x)|]. rewrite IH. destruct (f x); lia. Qed.

Lemma Forall2_impl_l {A B} (P Q : A → B → Prop) l k :
  Forall2 P l k → (∀ x y, x ∈ l → P x y → Q x y) → Forall2 Q l k.
Proof. intros Hf. induction Hf; intros HPQ; constructor; [|apply IHHf; intros]; apply HPQ; set_solver. Qed.

Lemma filter_all {A} (P : A → Prop) `{!∀ x, Decision (P x)} l : Forall P l → filter P l = l.
Proof. induction 1 as [|x l Hx _ IH]; [done|]. by rewrite filter_cons_True, IH. Qed.

Lemma omap_insert_perm {A B} (f : A → option B) (l : list A) (i : nat) x y : l !! i = Some x →
  omap f (<[i := y]> l) ++ option_list (f x) ≡ₚ omap f l ++ option_list (f y).
Proof.
  revert i. induction l as [|z l IH]; intros [|i] Hi; simplify_eq/=.
  - destruct (f x), (f y); simpl; rewrite ?app_nil_r; [rewrite <-!Permutation_cons_append; apply Permutation_swap| | |done];
      [symmetry|]; apply Permutation_cons_append.
  - destruct (f z); simpl; [|by apply IH]. apply Permutation_skip. by apply IH.
Qed.
Lemma countb_app {A} (f : A → bool) l1 l2 : countb f (l1 ++ l2) = (countb f l1 + countb f l2)%nat.
Proof. induction l1 as [|x l1 IH]; simpl; [done|]. rewrite IH. lia. Qed.
Lemma countb_unique {A} (f : A → bool) l :
  NoDup l → (∀ x y, x ∈ l → y ∈ l → f x = true → f y = true → x = y) → (countb f l ≤ 1)%nat.
Proof.
  induction 1 as [|x l Hx Hnd IH]; intros Hu; simpl; [lia|].
  destruct (f x) eqn:E; [|apply IH; intros; apply Hu; set_solver].
  assert (countb f l = 0) as ->; [|lia]. apply countb_zero, Forall_forall. intros y Hy.
  destruct (f y) eqn:Ey; [|done]. destruct Hx. rewrite (Hu x y); set_solver.
Qed.

(** Sums over a list. *)
Lemma sum_insert {A} (f : A → nat) l i x y :
  l !! i = Some x → sum_list_with f (<[i := y]> l) + f x = sum_list_with f l + f y.
Proof. revert i. induction l as [|z l IH]; intros [|i] Hl; simplify_eq/=; [lia|]. specialize (IH i Hl). lia. Qed.
Lemma sum_elem {A} (f : A → nat) l i x : l !! i = Some x → f x ≤ sum_list_with f l.
Proof. revert i. induction l as [|z l IH]; intros [|i] Hl; simplify_eq/=; [lia|]. specialize (IH i Hl). lia. Qed.
Lemma concat_elem {A} (ls : list (list A)) x : x ∈ concat ls ↔ ∃ l, l ∈ ls ∧ x ∈ l.
Proof.
  rewrite list_elem_of_In, in_concat. split; intros (l & H1 & H2); exists l; [split; by apply list_elem_of_In|split; by apply list_elem_of_In].
Qed.
Lemma concat_NoDup {A} (ls : list (list A)) : (∀ l, l ∈ ls → NoDup l) →
  (∀ i j l1 l2 x, ls !! i = Some l1 → ls !! j = Some l2 → x ∈ l1 → x ∈ l2 → i = j) → NoDup (concat ls).
Proof.
  induction ls as [|l ls IH]; intros Hn Hd; simpl; [constructor|]. apply NoDup_app. split; [apply Hn; left|]. split.
  - intros x Hx (l' & Hl' & Hx')%concat_elem. apply list_elem_of_lookup in Hl' as [i Hi]. by pose proof (Hd 0%nat (S i) l l' x eq_refl Hi Hx Hx').
  - apply IH; [intros l' Hl'; apply Hn; by right|]. intros i j l1 l2 x H1 H2 H3 H4. pose proof (Hd (S i) (S j) l1 l2 x H1 H2 H3 H4). lia.
Qed.
Lemma sum_zero {A} (f : A → nat) l : (∀ x, x ∈ l → f x = 0) → sum_list_with f l = 0.
Proof. induction l as [|x l IH]; intros H; simpl; [done|]. rewrite (H x) by left. apply IH. intros y Hy. apply H. by right. Qed.
Lemma sum_le {A} (f g : A → nat) l : (∀ x, x ∈ l → f x ≤ g x) → sum_list_with f l ≤ sum_list_with g l.
Proof.
  induction l as [|x l IH]; intros Hfg; simpl; [lia|]. pose proof (Hfg x ltac:(set_solver)). specialize (IH ltac:(set_solver)). lia.
Qed.

(** ** Cyclic positions *)
Lemma mod_window_inj L k i j :
  (i < L)%nat → (j < L)%nat → ((k + i) mod L = (k + j) mod L)%nat → i = j.
Proof.
  intros Hi Hj Heq.
  pose proof (Nat.div_mod_eq (k + i) L) as H1. pose proof (Nat.div_mod_eq (k + j) L) as H2.
  rewrite Heq in H1. set (q1 := ((k + i) / L)%nat) in *. set (q2 := ((k + j) / L)%nat) in *.
  destruct (Nat.lt_trichotomy q1 q2) as [Hq|[Hq|Hq]]; nia.
Qed.


(** Among [q * L + r] consecutive positions of a cycle of length [L], each one
    comes up [q] or [q + 1] times. *)
Section cycle.
Context (L k idx : nat) (Hidx : (idx < L)%nat).
Definition hits (i : nat) : bool := bool_decide ((k + i) mod L = idx)%nat.

Lemma hits_part s r : (r ≤ L)%nat → (countb hits (seq s r) ≤ 1)%nat.
Proof.
  intros Hr. apply countb_unique; [apply NoDup_seq|]. intros x y Hx Hy.
  apply elem_of_seq in Hx. apply elem_of_seq in Hy. unfold hits.
  intros Hfx%bool_decide_eq_true Hfy%bool_decide_eq_true.
  cut (x - s = y - s)%nat; [lia|]. apply (mod_window_inj L (k + s)); [lia|lia|].
  replace (k + s + (x - s))%nat with (k + x)%nat by lia. replace (k + s + (y - s))%nat with (k + y)%nat by lia. congruence.
Qed.
Lemma hits_round s : countb hits (seq s L) = 1%nat.
Proof.
  apply Nat.le_antisymm; [by apply hits_part|].
  set (i := ((idx + (L - (k + s) mod L)) mod L)%nat).
  assert (i < L)%nat as Hi by (apply Nat.mod_upper_bound; lia).
  apply (countb_elem hits (seq s L) i (s + i)); [by apply lookup_seq|].
  apply bool_decide_eq_true. subst i. rewrite Nat.add_assoc, Nat.Div0.add_mod_idemp_r.
  rewrite <-Nat.Div0.add_mod_idemp_l. assert ((k + s) mod L < L)%nat by (apply Nat.mod_upper_bound; lia).
  replace ((k + s) mod L + (idx + (L - (k + s) mod L)))%nat with (idx + 1 * L)%nat by lia.
  rewrite Nat.Div0.mod_add. by apply Nat.mod_small.
Qed.
Lemma hits_total s q r : (r ≤ L)%nat → (q ≤ countb hits (seq s (q * L + r)) ≤ q + 1)%nat.
Proof.
  revert s. induction q as [|q IH]; intros s Hr; simpl; [pose proof (hits_part s r Hr); lia|].
  replace (L + q * L + r)%nat with (L + (q * L + r))%nat by lia. rewrite seq_app, countb_app, hits_round.
  specialize (IH (s + L)%nat Hr). lia.
Qed.
End cycle.

(** ** Reasoning about stateful code *)
(** Partial correctness: whenever [m] returns normally from a state in [P]. *)
Definition returns {S A} (P : S → Prop) (m : M S A) (Q : A → S → Prop) : Prop :=
  ∀ s a s', P s → m s = (Ret a, s') → Q a s'.

Section returns.
Context {St : Type}.
Implicit Types (P : St → Prop).

Lemma returns_bind {A B} P (m : M St A) (f : A → M St B) (Q : A → St → Prop) (T : B → St → Prop) :
  returns P m Q → (∀ a, returns (Q a) (f a) T) → returns P (m ≫= f) T.
Proof.
  intros Hm Hf s b s' HP. unfold mbind, M_bind. destruct (m s) as [[a|?|?|?] s1] eqn:E; try done.
  intros Hb. eapply Hf; [|exact Hb]. by eapply Hm.
Qed.
Lemma returns_weaken {A} P P' (m : M St A) (Q Q' : A → St → Prop) :
  returns P' m Q' → (∀ s, P s → P' s) → (∀ a s, Q' a s → Q a s) → returns P m Q.
Proof. intros Hm HP HQ s a s' Hs Hr. apply HQ. eapply Hm; [by apply HP|done]. Qed.
Lemma returns_lift {A} P (r : res A) : returns P (lift r) (λ a s, P s ∧ r = Ret a).
Proof. intros s a s' HP. unfold lift. by intros [= -> <-]. Qed.
Lemma returns_get P : returns P get (λ a s, P s ∧ a = s).
Proof. intros s a s' HP. unfold get. by intros [= <- <-]. Qed.
Lemma returns_modify P (f : St → St) : returns P (modify f) (λ _ s', ∃ s, P s ∧ s' = f s).
Proof. intros s a s' HP. unfold modify. intros [= _ <-]. eauto. Qed.
Lemma returns_put P s1 : returns P (put s1) (λ _ s', s' = s1).
Proof. intros s a s' HP. unfold put. by intros [= _ <-]. Qed.
Lemma returns_ret {A} P (a : A) : returns P (mret a) (λ b s, P s ∧ b = a).
Proof. intros s b s' HP. unfold mret, M_ret. by intros [= <- <-]. Qed.
Lemma returns_skip {A} P (a : A) : returns P (mret a) (λ _, P).
Proof. intros s b s' HP. unfold mret, M_ret. by intros [= _ <-]. Qed.
End returns.

(** Total correctness: [m] returns normally. *)
Definition succeeds {S A} (m : M S A) (s : S) (Q : A → S → Prop) : Prop :=
  ∃ a s', m s = (Ret a, s') ∧ Q a s'.

Section succeeds.
Context {St : Type}.

Lemma succeeds_bind {A B} (m : M St A) (f : A → M St B) s (Q : A → St → Prop) (T : B → St → Prop) :
  succeeds m s Q → (∀ a s', Q a s' → succeeds (f a) s' T) → succeeds (m ≫= f) s T.
Proof.
  intros (a & s1 & Hm & HQ) Hf. destruct (Hf a s1 HQ) as (b & s2 & Hb & HT).
  exists b, s2. split; [|done]. unfold mbind, M_bind. by rewrite Hm.
Qed.
Lemma succeeds_weaken {A} (m : M St A) s (Q Q' : A → St → Prop) :
  succeeds m s Q → (∀ a s', Q a s' → Q' a s') → succeeds m s Q'.
Proof. intros (a & s' & ? & ?) HQ. exists a, s'. auto. Qed.
Lemma succeeds_ret {A} (a : A) (s : St) (Q : A → St → Prop) : Q a s → succeeds (mret a) s Q.
Proof. intros HQ. by exists a, s. Qed.
Lemma succeeds_get (s : St) (Q : St → St → Prop) : Q s s → succeeds get s Q.
Proof. intros HQ. by exists s, s. Qed.
Lemma succeeds_put (s s1 : St) (Q : () → St → Prop) : Q () s1 → succeeds (put s1) s Q.
Proof. intros HQ. by exists (), s1. Qed.
Lemma succeeds_modify f (s : St) (Q : () → St → Prop) : Q () (f s) → succeeds (modify f) s Q.
Proof. intros HQ. by exists (), (f s). Qed.
Lemma succeeds_lift {A} (r : res A) a (s : St) (Q : A → St → Prop) : r = Ret a → Q a s → succeeds (lift r) s Q.
Proof. intros -> HQ. by exists a, s. Qed.
(** The same, as the first step of a sequence. *)
Lemma succeeds_get_bind {B} (f : St → M St B) s (T : B → St → Prop) : succeeds (f s) s T → succeeds (get ≫= f) s T.
Proof. intros Hf. exact Hf. Qed.
Lemma succeeds_lift_bind {A B} (r : res A) a (f : A → M St B) s (T : B → St → Prop) :
  r = Ret a → succeeds (f a) s T → succeeds (lift r ≫= f) s T.
Proof. intros -> Hf. exact Hf. Qed.
Lemma succeeds_put_bind {B} s1 (f : () → M St B) s (T : B → St → Prop) : succeeds (f ()) s1 T → succeeds (put s1 ≫= f) s T.
Proof. intros Hf. exact Hf. Qed.
(** [m] ends the process. *)
Definition aborts {A} (why : string) (m : M St A) (s : St) : Prop := ∃ s', m s = (Abort why, s').
Lemma aborts_bind {A B} why (m : M St A) (f : A → M St B) s : aborts why m s → aborts why (m ≫= f) s.
Proof. intros [s' Hm]. exists s'. unfold mbind, M_bind. by rewrite Hm. Qed.
Lemma aborts_later {A B} why (m : M St A) (f : A → M St B) s (Q : A → St → Prop) :
  succeeds m s Q → (∀ a s', Q a s' → aborts why (f a) s') → aborts why (m ≫= f) s.
Proof. intros (a & s1 & Hm & HQ) Hf. destruct (Hf a s1 HQ) as [s2 Hb]. exists s2. unfold mbind, M_bind. by rewrite Hm. Qed.
End succeeds.
