(* ===== verification/SortedZ.v ===== *)
(** * Strictly increasing lists of integers

    The mathematical value of a bitmap, of an address-ordered set and of a
    [std::set] or [std::map] key sequence: generic facts shared by the
    components. *)
From S2P Require Import Prelude.
Local Open Scope Z_scope.

Abbreviation zsorted := (StronglySorted Z.lt).

(** Insertion that keeps the list strictly increasing. *)
Fixpoint zinsert (x : Z) (l : list Z) : list Z :=
  match l with
  | [] => [x]
  | y :: l' =>
      match Z.compare x y with
      | Lt => x :: y :: l'
      | Eq => y :: l'
      | Gt => y :: zinsert x l'
      end
  end.

Definition zremove (x : Z) (l : list Z) : list Z := filter (x ≠.) l.

(** The sorted list of the values of an arbitrary list, without repetition. *)
Definition zsort (l : list Z) : list Z := foldr zinsert [] l.

Lemma elem_of_zinsert x y l : y ∈ zinsert x l ↔ y = x ∨ y ∈ l.
Proof.
  induction l as [|z l IH]; simpl; [set_solver|].
  destruct (Z.compare_spec x z); subst; set_solver.
Qed.

Lemma zsorted_cons x l : zsorted (x :: l) ↔ zsorted l ∧ ∀ y, y ∈ l → x < y.
Proof.
  split.
  - inversion 1; subst. by rewrite <- Forall_forall.
  - intros [??]. constructor; [done|]. by apply Forall_forall.
Qed.

Lemma zsorted_app l1 l2 :
  zsorted (l1 ++ l2) ↔ zsorted l1 ∧ zsorted l2 ∧ ∀ x y, x ∈ l1 → y ∈ l2 → x < y.
Proof.
  induction l1 as [|z l1 IH]; simpl.
  - split; [intros ?; split_and!; [constructor|done|set_solver]|naive_solver].
  - rewrite !zsorted_cons, IH. set_solver.
Qed.

Lemma zsorted_zinsert x l : zsorted l → zsorted (zinsert x l).
Proof.
  induction l as [|y l IH]; intros Hl; simpl; [repeat constructor|].
  pose proof (proj1 (zsorted_cons _ _) Hl) as [Hs Hlt].
  destruct (Z.compare_spec x y) as [->|?|?]; [done|..]; apply zsorted_cons.
  - split; [done|]. intros z [->|Hz]%elem_of_cons; [done|]. specialize (Hlt z Hz). lia.
  - split; [by apply IH|]. intros z [->|Hz]%elem_of_zinsert; [done|by apply Hlt].
Qed.

Lemma elem_of_zremove x y l : y ∈ zremove x l ↔ x ≠ y ∧ y ∈ l.
Proof. unfold zremove. by rewrite list_elem_of_filter. Qed.

Lemma zsorted_filter P `{∀ x, Decision (P x)} l : zsorted l → zsorted (filter P l).
Proof.
  induction l as [|x l IH]; intros Hl; [constructor|].
  apply zsorted_cons in Hl as [Hs Hlt]. rewrite filter_cons.
  case_decide; [|by apply IH]. apply zsorted_cons. split; [by apply IH|].
  intros y [_ Hy]%list_elem_of_filter. by apply Hlt.
Qed.

Lemma zsorted_zremove x l : zsorted l → zsorted (zremove x l).
Proof. apply zsorted_filter. Qed.

Lemma elem_of_zsort x l : x ∈ zsort l ↔ x ∈ l.
Proof. induction l as [|y l IH]; simpl; [done|]. rewrite elem_of_zinsert, IH. set_solver. Qed.

Lemma zsorted_zsort l : zsorted (zsort l).
Proof. induction l; simpl; [constructor|by apply zsorted_zinsert]. Qed.

(** Strictly increasing lists are determined by their elements. *)
Lemma zsorted_ext l1 l2 :
  zsorted l1 → zsorted l2 → (∀ x, x ∈ l1 ↔ x ∈ l2) → l1 = l2.
Proof.
  revert l2. induction l1 as [|x l1 IH]; intros [|y l2] H1 H2 Heq; [done|set_solver|set_solver|].
  apply zsorted_cons in H1 as [S1 L1]; apply zsorted_cons in H2 as [S2 L2].
  assert (x = y) as ->.
  { pose proof (proj1 (Heq x) ltac:(set_solver)) as [|Hx]%elem_of_cons; [done|].
    pose proof (proj2 (Heq y) ltac:(set_solver)) as [|Hy]%elem_of_cons; [done|].
    specialize (L1 _ Hy). specialize (L2 _ Hx). lia. }
  f_equal. apply IH; [done..|]. intros z. specialize (Heq z).
  rewrite !elem_of_cons in Heq.
  split; intros Hz; [destruct (proj1 Heq (or_intror Hz)) as [->|]|
                     destruct (proj2 Heq (or_intror Hz)) as [->|]]; try done;
    [specialize (L1 _ Hz)|specialize (L2 _ Hz)]; lia.
Qed.

Lemma zsort_sorted_id l : zsorted l → zsort l = l.
Proof.
  intros Hl. apply zsorted_ext; [apply zsorted_zsort|done|]. intros. apply elem_of_zsort.
Qed.

Lemma zsorted_NoDup l : zsorted l → NoDup l.
Proof.
  induction l as [|x l IH]; intros Hl; [constructor|].
  apply zsorted_cons in Hl as [Hs Hlt]. constructor; [|by apply IH].
  intros Hx. specialize (Hlt _ Hx). lia.
Qed.

Lemma zsorted_take n l : zsorted l → zsorted (take n l).
Proof. rewrite <- (take_drop n l) at 1. by intros [? _]%zsorted_app. Qed.

Lemma zsorted_drop n l : zsorted l → zsorted (drop n l).
Proof. rewrite <- (take_drop n l) at 1. by intros (_ & ? & _)%zsorted_app. Qed.

Create HintDb zsorted discriminated.
#[export] Hint Resolve zsorted_zinsert zsorted_zremove zsorted_zsort zsorted_filter
  zsorted_take zsorted_drop zsorted_NoDup SSorted_nil : zsorted.

(** A strictly increasing list has no more elements than its range has values. *)
Lemma zsorted_length_bound l lo hi :
  zsorted l → Forall (λ x, lo ≤ x < hi) l → lo ≤ hi → Z.of_nat (length l) ≤ hi - lo.
Proof.
  revert lo. induction l as [|x l IH]; intros lo Hs Hf Hlh; simpl; [lia|].
  apply zsorted_cons in Hs as [Hs Hlt]. apply Forall_cons in Hf as [Hx Hf].
  specialize (IH (x + 1) Hs). rewrite Forall_forall in Hf, IH.
  assert (Z.of_nat (length l) ≤ hi - (x + 1)); [|lia]. apply IH; [|lia].
  intros y Hy. specialize (Hlt y Hy). specialize (Hf y Hy). lia.
Qed.
