(* ===== verification/StdMap.v ===== *)
(** * [std::map] with string keys

    Several components iterate over a [std::map<std::string, T>], whose order
    is the lexicographic order of the keys.  The map is an association list in
    that order: [smap_set] is [m[k] = v] and [smap_find] is [m.find(k)]. *)
From S2P Require Import Prelude.
From Stdlib Require Import Strings.String.
Local Open Scope string_scope.

Definition smap (A : Type) : Type := list (string * A).

Fixpoint smap_set {A} (k : string) (v : A) (m : smap A) : smap A :=
  match m with
  | [] => [(k, v)]
  | (k', v') :: m' =>
      match String.compare k k' with
      | Eq => (k, v) :: m'
      | Lt => (k, v) :: m
      | Gt => (k', v') :: smap_set k v m'
      end
  end.

Fixpoint smap_find {A} (k : string) (m : smap A) : option A :=
  match m with
  | [] => None
  | (k', v') :: m' => if String.eqb k k' then Some v' else smap_find k m'
  end.

Fixpoint smap_erase {A} (k : string) (m : smap A) : smap A :=
  match m with
  | [] => []
  | (k', v') :: m' => if String.eqb k k' then m' else (k', v') :: smap_erase k m'
  end.

(** The keys ascend strictly. *)
Definition str_lt (s1 s2 : string) : Prop := String.compare s1 s2 = Lt.
Definition smap_ok {A} (m : smap A) : Prop := StronglySorted str_lt (fst <$> m).

Lemma str_lt_trans s1 s2 s3 : str_lt s1 s2 → str_lt s2 s3 → str_lt s1 s3.
Proof.
  unfold str_lt. revert s2 s3. induction s1 as [|c1 s1 IH]; intros [|c2 s2] [|c3 s3]; simpl; try done.
  destruct (Ascii.compare c1 c2) eqn:E12; [|intros _|done].
  - apply Ascii.compare_eq_iff in E12 as ->. destruct (Ascii.compare c2 c3); [apply IH|done|done].
  - destruct (Ascii.compare c2 c3) eqn:E23; [|intros _|done].
    + apply Ascii.compare_eq_iff in E23 as <-. by rewrite E12.
    + assert (Ascii.compare c1 c3 = Lt) as ->; [|done].
      unfold Ascii.compare in *. apply N.compare_lt_iff in E12. apply N.compare_lt_iff in E23.
      apply N.compare_lt_iff. by etrans.
Qed.

Lemma str_lt_irrefl s : ¬ str_lt s s.
Proof.
  unfold str_lt. induction s as [|c s IH]; simpl; [done|].
  assert (Ascii.compare c c = Eq) as -> by (unfold Ascii.compare; apply N.compare_refl). done.
Qed.

Lemma str_compare_gt s1 s2 : String.compare s1 s2 = Gt → str_lt s2 s1.
Proof. unfold str_lt. rewrite String.compare_antisym. by destruct (String.compare s2 s1). Qed.

Lemma smap_set_keys {A} k (v : A) m x : x ∈ (fst <$> smap_set k v m) ↔ x = k ∨ x ∈ (fst <$> m).
Proof.
  induction m as [|[k' v'] m IH]; simpl; [set_solver|].
  destruct (String.compare k k') eqn:E; simpl; [|set_solver|set_solver].
  apply String.compare_eq_iff in E as ->. set_solver.
Qed.

Lemma smap_ok_cons {A} k (v : A) m : smap_ok ((k, v) :: m) ↔ smap_ok m ∧ ∀ x, x ∈ (fst <$> m) → str_lt k x.
Proof.
  unfold smap_ok. simpl. split.
  - intros Hs. inversion Hs as [|? ? ? Hf]; subst. split; [done|]. by apply Forall_forall.
  - intros [? ?]. constructor; [done|]. by apply Forall_forall.
Qed.

Lemma smap_set_ok {A} k (v : A) m : smap_ok m → smap_ok (smap_set k v m).
Proof.
  induction m as [|[k' v'] m IH]; simpl; intros Hm; [repeat constructor|].
  apply smap_ok_cons in Hm as [Hm Hlt]. destruct (String.compare k k') eqn:E.
  - apply String.compare_eq_iff in E as ->. by apply smap_ok_cons.
  - apply smap_ok_cons. split; [by apply smap_ok_cons|]. intros x.
    rewrite fmap_cons, elem_of_cons. intros [->|Hx]; [done|]. eapply str_lt_trans; [done|auto].
  - apply smap_ok_cons. split; [auto|]. intros x [->|Hx]%smap_set_keys; [by apply str_compare_gt|auto].
Qed.

Lemma smap_ok_NoDup {A} (m : smap A) : smap_ok m → NoDup (fst <$> m).
Proof.
  induction m as [|[k v] m IH]; intros Hm; simpl; [constructor|]. apply smap_ok_cons in Hm as [Hm Hlt].
  constructor; [|auto]. intros Hin. by eapply str_lt_irrefl, Hlt.
Qed.

Lemma smap_find_set {A} k (v : A) m k' :
  smap_ok m → smap_find k' (smap_set k v m) = if String.eqb k' k then Some v else smap_find k' m.
Proof.
  induction m as [|[k0 v0] m IH]; intros Hm; simpl; [done|]. apply smap_ok_cons in Hm as [Hm Hlt].
  destruct (String.compare k k0) eqn:E; simpl.
  - apply String.compare_eq_iff in E as ->. by destruct (String.eqb k' k0).
  - done.
  - rewrite IH by done. destruct (String.eqb_spec k' k0) as [->|]; [|done].
    destruct (String.eqb_spec k0 k) as [->|]; [|done].
    apply str_compare_gt in E. by apply str_lt_irrefl in E.
Qed.

Lemma smap_find_elem {A} k (v : A) m : smap_ok m → smap_find k m = Some v ↔ (k, v) ∈ m.
Proof.
  induction m as [|[k0 v0] m IH]; intros Hm; simpl; [set_solver|].
  apply smap_ok_cons in Hm as [Hm Hlt]. rewrite elem_of_cons.
  destruct (String.eqb_spec k k0) as [->|Hne].
  - split; [intros [= ->]; by left|]. intros [[= ->]|Hin]; [done|].
    exfalso. eapply str_lt_irrefl, Hlt. apply list_elem_of_fmap. by exists (k0, v).
  - rewrite IH by done. split; [by right|]. intros [[= -> ->]|]; done.
Qed.

Lemma smap_find_key {A} k (m : smap A) : is_Some (smap_find k m) ↔ k ∈ m.*1.
Proof.
  induction m as [|[k0 v0] m IH]; simpl; [split; [by intros []|set_solver]|]. rewrite elem_of_cons.
  destruct (String.eqb_spec k k0) as [->|]; [split; eauto|]. rewrite IH. naive_solver.
Qed.

#[export] Hint Resolve smap_set_ok : smap.

Lemma smap_set_keys_eq {A} k (v : A) m : smap_ok m → k ∈ m.*1 → (smap_set k v m).*1 = m.*1.
Proof.
  induction m as [|[k0 v0] m IH]; intros Hm Hk; [set_solver|]. apply smap_ok_cons in Hm as [Hm Hlt]. cbn [smap_set].
  destruct (String.compare k k0) eqn:Hc.
  - by apply String.compare_eq_iff in Hc as ->.
  - apply elem_of_cons in Hk as [Hk|Hk]; [simpl in Hk; subst; by destruct (str_lt_irrefl k0)|]. destruct (str_lt_irrefl k). eapply str_lt_trans; [exact Hc|by apply Hlt].
  - cbn [fmap list_fmap fst]. f_equal. apply IH; [done|]. apply elem_of_cons in Hk as [Hk|Hk]; [|done].
    simpl in Hk. subst. apply str_compare_gt in Hc. by destruct (str_lt_irrefl k0).
Qed.
Lemma NoDup_fst_inj {A B} (l : list (A * B)) x y :
  NoDup (fst <$> l) → x ∈ l → y ∈ l → x.1 = y.1 → x = y.
Proof.
  intros Hnd [i Hi]%list_elem_of_lookup_1 [j Hj]%list_elem_of_lookup_1 Heq. rewrite NoDup_alt in Hnd.
  assert (i = j) as ->; [|congruence].
  apply (Hnd i j x.1); rewrite list_lookup_fmap; [by rewrite Hi|]. rewrite Hj, Heq. done.
Qed.

(** ** [std::map] with integer keys *)
Definition imap (A : Type) : Type := list (Z * A).

Fixpoint imap_set {A} (k : Z) (v : A) (m : imap A) : imap A :=
  match m with
  | [] => [(k, v)]
  | (k', v') :: m' =>
      match Z.compare k k' with
      | Eq => (k, v) :: m'
      | Lt => (k, v) :: m
      | Gt => (k', v') :: imap_set k v m'
      end
  end.
Definition imap_find {A} (k : Z) (m : imap A) : option A :=
  snd <$> (list_find (λ kv : Z * A, kv.1 = k) m ≫= λ x, Some x.2).
Definition imap_erase {A} (k : Z) (m : imap A) : imap A := filter (λ kv : Z * A, kv.1 ≠ k) (m : list (Z * A)).
Definition imap_ok {A} (m : imap A) : Prop := StronglySorted Z.lt (fst <$> m).

Lemma imap_ok_snoc {A} (m : imap A) k v :
  imap_ok (m ++ [(k, v)])%list → imap_set k v m = (m ++ [(k, v)])%list.
Proof.
  unfold imap_ok. induction m as [|[k' v'] m IH]; simpl; intros Hs; [done|].
  inversion Hs as [|? ? Hs' Hf]; subst. rewrite Forall_forall in Hf.
  specialize (Hf k ltac:(rewrite fmap_app; set_solver)).
  destruct (Z.compare_spec k k'); [lia..|]. by rewrite IH.
Qed.
Lemma imap_ok_NoDup {A} (m : imap A) : imap_ok m → NoDup (fst <$> m).
Proof.
  unfold imap_ok. induction (fst <$> m) as [|k l IH]; intros Hs; [constructor|].
  inversion Hs as [|? ? Hs' Hf]; subst. constructor; [|auto]. intros Hk.
  rewrite Forall_forall in Hf. specialize (Hf k Hk). lia.
Qed.
(** Inserting the entries of a map in order rebuilds it. *)
Lemma imap_rebuild {A} (m m0 : imap A) :
  imap_ok (m0 ++ m)%list → foldl (λ acc kv, imap_set kv.1 kv.2 acc) m0 m = (m0 ++ m)%list.
Proof.
  revert m0. induction m as [|[k v] m IH]; intros m0 Hok; simpl; [by rewrite app_nil_r|].
  assert (imap_ok (m0 ++ [(k, v)])%list) as Hok'.
  { unfold imap_ok in *. rewrite !fmap_app in *. simpl in *.
    rewrite cons_middle, app_assoc in Hok. by eapply StronglySorted_app_1_l. }
  rewrite imap_ok_snoc by done. rewrite IH; by rewrite <-app_assoc.
Qed.
Lemma imap_set_keys {A} k (v : A) m x : x ∈ (fst <$> imap_set k v m) → x = k ∨ x ∈ (fst <$> m).
Proof. induction m as [|[k0 v0] m IH]; simpl; [set_solver|]. destruct (Z.compare_spec k k0); simpl; set_solver. Qed.
Lemma imap_set_ok {A} k (v : A) m : imap_ok m → imap_ok (imap_set k v m).
Proof.
  unfold imap_ok. intros Hm. induction m as [|[k' v'] m IH]; simpl; [repeat constructor|].
  inversion Hm as [|? ? Hm' Hf]; subst. rewrite Forall_forall in Hf.
  destruct (Z.compare_spec k k'); simpl.
  - subst. by constructor; [|apply Forall_forall].
  - constructor; [done|]. apply Forall_cons. split; [done|]. apply Forall_forall. intros x Hx. specialize (Hf x Hx). lia.
  - constructor; [apply IH; auto|]. apply Forall_forall. intros x [->|Hx]%imap_set_keys; auto.
Qed.

Lemma imap_find_elem {A} (m : imap A) k v : NoDup (fst <$> m) → (k, v) ∈ m → imap_find k m = Some v.
Proof.
  unfold imap_find. induction m as [|[k' v'] m IH]; intros Hnd Hin; [set_solver|].
  apply NoDup_cons in Hnd as [Hni Hnd]. simpl. apply elem_of_cons in Hin as [[= <- <-]|Hin].
  - by rewrite decide_True.
  - rewrite decide_False.
    + specialize (IH Hnd Hin). by destruct (list_find _ m) as [[? ?]|].
    + intros ->. apply Hni. by apply (list_elem_of_fmap_2 fst) in Hin.
Qed.
Lemma imap_erase_last {A} (m : imap A) k v : NoDup (fst <$> (m ++ [(k, v)])%list) → imap_erase k (m ++ [(k, v)])%list = m.
Proof.
  intros Hnd. unfold imap_erase. rewrite fmap_app in Hnd. apply NoDup_app in Hnd as (_ & Hdis & _).
  rewrite filter_app, filter_cons_False, filter_nil, app_nil_r by (simpl; tauto).
  apply filter_all. apply Forall_forall. intros [k' v'] Hin Heq. simpl in Heq. subst.
  apply (list_elem_of_fmap_2 fst) in Hin. specialize (Hdis _ Hin). set_solver.
Qed.

Lemma imap_ok_cons {A} k (v : A) m : imap_ok ((k, v) :: m) ↔ imap_ok m ∧ ∀ x, x ∈ m.*1 → (k < x)%Z.
Proof.
  unfold imap_ok. simpl. split.
  - intros Hs. inversion Hs as [|? ? ? Hf]; subst. split; [done|]. by apply Forall_forall.
  - intros [? ?]. constructor; [done|]. by apply Forall_forall.
Qed.

Lemma imap_find_cons {A} k k' (v : A) m :
  imap_find k' ((k, v) :: m) = if decide (k = k') then Some v else imap_find k' m.
Proof.
  unfold imap_find. simpl. case_decide; [done|]. by destruct (list_find _ m) as [[? ?]|].
Qed.

Lemma imap_find_set {A} k (v : A) m k' :
  imap_ok m → imap_find k' (imap_set k v m) = if decide (k = k') then Some v else imap_find k' m.
Proof.
  induction m as [|[k0 v0] m IH]; intros Hm; [cbn [imap_set]; by rewrite imap_find_cons|].
  apply imap_ok_cons in Hm as [Hm Hlt]. cbn [imap_set].
  destruct (Z.compare_spec k k0) as [->|Hk|Hk]; rewrite ?imap_find_cons.
  - by case_decide.
  - done.
  - rewrite IH by done. repeat case_decide; try done. lia.
Qed.

Lemma imap_find_Some {A} k (v : A) m : imap_ok m → imap_find k m = Some v ↔ (k, v) ∈ m.
Proof.
  intros Hok. split; [|apply imap_find_elem; by apply imap_ok_NoDup].
  clear Hok. induction m as [|[k0 v0] m IH]; [done|]. rewrite imap_find_cons, elem_of_cons.
  case_decide as E; [subst; intros [= ->]; by left|]. right. auto.
Qed.
Lemma imap_find_key {A} k (m : imap A) : is_Some (imap_find k m) ↔ k ∈ m.*1.
Proof.
  induction m as [|[k0 v0] m IH]; [split; [by intros []|set_solver]|]. rewrite imap_find_cons, fmap_cons, elem_of_cons. simpl.
  case_decide as E; [subst; split; eauto|]. rewrite IH. naive_solver.
Qed.
Lemma imap_set_keys_eq {A} k (v : A) m : imap_ok m → k ∈ m.*1 → (imap_set k v m).*1 = m.*1.
Proof.
  induction m as [|[k0 v0] m IH]; intros Hm Hk; [set_solver|]. apply imap_ok_cons in Hm as [Hm Hlt]. cbn [imap_set].
  destruct (Z.compare_spec k k0) as [->|Hc|Hc]; [done| |].
  - apply elem_of_cons in Hk as [->|Hk]; [simpl in *; lia|]. specialize (Hlt k Hk). lia.
  - cbn [fmap list_fmap fst]. f_equal. apply IH; [done|]. apply elem_of_cons in Hk as [->|Hk]; [simpl in *; lia|done].
Qed.
Lemma imap_set_keys_iff {A} k (v : A) m x : imap_ok m → x ∈ (imap_set k v m).*1 ↔ x = k ∨ x ∈ m.*1.
Proof.
  intros Hm. rewrite <-!imap_find_key, imap_find_set by done. case_decide; naive_solver.
Qed.
(** Maps with the same entries are the same list. *)
Lemma imap_ext {A} (m1 m2 : imap A) : imap_ok m1 → imap_ok m2 → (∀ k, imap_find k m1 = imap_find k m2) → m1 = m2.
Proof.
  revert m2. induction m1 as [|[k1 v1] m1 IH]; intros [|[k2 v2] m2] H1 H2 Hf; [done| | |].
  - specialize (Hf k2). rewrite imap_find_cons, decide_True in Hf by done. done.
  - specialize (Hf k1). rewrite imap_find_cons, decide_True in Hf by done. done.
  - apply imap_ok_cons in H1 as [H1 Hlt1]. apply imap_ok_cons in H2 as [H2 Hlt2].
    assert (∀ m (k x : Z), (∀ x, x ∈ m.*1 → k < x) → x ≤ k → imap_find x m = @None A)%Z as Hnone.
    { intros m k x Hlt Hx. destruct (imap_find x m) eqn:E; [|done]. assert (x ∈ m.*1) as Hin by (apply imap_find_key; by rewrite E). specialize (Hlt x Hin). lia. }
    assert (k1 = k2) as <-.
    { destruct (Z.lt_trichotomy k1 k2) as [Hlt|[?|Hlt]]; [|done|].
      - specialize (Hf k1). rewrite !imap_find_cons, decide_True, decide_False, (Hnone m2 k2) in Hf by (done || lia). done.
      - specialize (Hf k2). rewrite !imap_find_cons, decide_False, decide_True, (Hnone m1 k1) in Hf by (done || lia). done. }
    pose proof (Hf k1) as Hv. rewrite !imap_find_cons, !decide_True in Hv by done. injection Hv as <-. f_equal. apply IH; [done|done|]. intros k. specialize (Hf k).
    rewrite !imap_find_cons in Hf. case_decide as E; [|done]. subst k. by rewrite (Hnone m1 k1), (Hnone m2 k1) by (done || lia).
Qed.
Lemma imap_set_comm {A} k1 k2 (v1 v2 : A) m : imap_ok m → k1 ≠ k2 → imap_set k1 v1 (imap_set k2 v2 m) = imap_set k2 v2 (imap_set k1 v1 m).
Proof.
  intros Hm Hne. apply imap_ext; [by repeat apply imap_set_ok..|]. intros k. rewrite !imap_find_set by (by repeat apply imap_set_ok). repeat case_decide; congruence.
Qed.
#[export] Hint Resolve imap_set_ok : smap.
