(* ===== verification/Hwloc.v ===== *)
(** * The hwloc bitmap interface

    [srf::Bitmap] is a thin owner of an [hwloc_bitmap_t]; hwloc itself is a
    third-party library.  [Hwloc] lists the calls the repository makes and
    [HwlocLaws] what the hwloc documentation says of them, stated on bitmaps
    that are finitely set with indexes that fit a C [int] (the only ones the
    repository builds).  [list_hwloc] is a concrete implementation that
    satisfies the laws, used to run the model. *)
From S2P Require Import Prelude SortedZ.
Local Open Scope Z_scope.

Class Hwloc (B : Type) : Type := {
  hwloc_bitmap_alloc : B;
  hwloc_bitmap_set : B → Z → B;
  hwloc_bitmap_clr : B → Z → B;
  hwloc_bitmap_only : B → Z → B;
  hwloc_bitmap_zero : B → B;
  hwloc_bitmap_and : B → B → B;
  hwloc_bitmap_or : B → B → B;
  hwloc_bitmap_isset : B → Z → bool;
  hwloc_bitmap_iszero : B → bool;
  hwloc_bitmap_isincluded : B → B → bool;
  hwloc_bitmap_next : B → Z → Z;
  hwloc_bitmap_weight : B → Z;
  hwloc_bitmap_foreach : B → list Z;
}.

(** Indexes representable by a non-negative C [int]. *)
Definition index_ok (i : Z) : Prop := 0 ≤ i < 2 ^ 31.

(** First element of a list above [prev], or -1. *)
Fixpoint first_above (prev : Z) (l : list Z) : Z :=
  match l with
  | [] => -1
  | x :: l => if bool_decide (prev < x) then x else first_above prev l
  end.

(** [l] enumerates the indexes set in [b], in increasing order. *)
Record is_bits `{Hwloc B} (b : B) (l : list Z) : Prop := {
  bits_sorted : StronglySorted Z.lt l;
  bits_ok : Forall index_ok l;
  bits_mem : ∀ i, 0 ≤ i → hwloc_bitmap_isset b i = bool_decide (i ∈ l);
}.

Class HwlocLaws (B : Type) `{Hwloc B} : Prop := {
  isset_alloc i : 0 ≤ i → hwloc_bitmap_isset hwloc_bitmap_alloc i = false;
  isset_set b i j : 0 ≤ i → 0 ≤ j →
    hwloc_bitmap_isset (hwloc_bitmap_set b i) j = (i =? j) || hwloc_bitmap_isset b j;
  isset_clr b i j : 0 ≤ i → 0 ≤ j →
    hwloc_bitmap_isset (hwloc_bitmap_clr b i) j = negb (i =? j) && hwloc_bitmap_isset b j;
  isset_only b i j : 0 ≤ i → 0 ≤ j →
    hwloc_bitmap_isset (hwloc_bitmap_only b i) j = (i =? j);
  isset_zero b i : 0 ≤ i → hwloc_bitmap_isset (hwloc_bitmap_zero b) i = false;
  isset_and b1 b2 i : 0 ≤ i →
    hwloc_bitmap_isset (hwloc_bitmap_and b1 b2) i =
      hwloc_bitmap_isset b1 i && hwloc_bitmap_isset b2 i;
  isset_or b1 b2 i : 0 ≤ i →
    hwloc_bitmap_isset (hwloc_bitmap_or b1 b2) i =
      hwloc_bitmap_isset b1 i || hwloc_bitmap_isset b2 i;
  iszero_spec b l : is_bits b l → hwloc_bitmap_iszero b = bool_decide (l = []);
  isincluded_spec b1 b2 l1 l2 : is_bits b1 l1 → is_bits b2 l2 →
    hwloc_bitmap_isincluded b1 b2 = bool_decide (Forall (.∈ l2) l1);
  next_spec b l prev : is_bits b l → -1 ≤ prev →
    hwloc_bitmap_next b prev = first_above prev l;
  weight_range b : -1 ≤ hwloc_bitmap_weight b;
  weight_spec b l : is_bits b l → hwloc_bitmap_weight b = Z.of_nat (length l);
  foreach_spec b l : is_bits b l → hwloc_bitmap_foreach b = l;
}.

(** ** Reasoning with the laws *)
Section bits.
Context `{HwlocLaws B}.
Implicit Types (b : B) (l : list Z).

Lemma is_bits_fun b l1 l2 : is_bits b l1 → is_bits b l2 → l1 = l2.
Proof.
  intros [S1 O1 M1] [S2 O2 M2]. apply zsorted_ext; [done..|].
  rewrite Forall_forall in O1, O2. unfold index_ok in *.
  intros x. split; intros Hx.
  - specialize (O1 x Hx). assert (Hb := M1 x ltac:(lia)). rewrite M2 in Hb by lia.
    rewrite (bool_decide_true (x ∈ l1)) in Hb by done. by apply bool_decide_eq_true in Hb.
  - specialize (O2 x Hx). assert (Hb := M1 x ltac:(lia)). rewrite M2 in Hb by lia.
    rewrite (bool_decide_true (x ∈ l2)) in Hb by done. symmetry in Hb.
    by apply bool_decide_eq_true in Hb.
Qed.

Lemma is_bits_intro b l :
  zsorted l → Forall index_ok l →
  (∀ i, 0 ≤ i → hwloc_bitmap_isset b i = true ↔ i ∈ l) → is_bits b l.
Proof.
  intros ? ? Hm. split; [done..|]. intros i Hi. specialize (Hm i Hi).
  case_bool_decide; [naive_solver|]. destruct (hwloc_bitmap_isset b i); naive_solver.
Qed.

Lemma is_bits_mem b l i : is_bits b l → 0 ≤ i → hwloc_bitmap_isset b i = true ↔ i ∈ l.
Proof. intros [_ _ M] Hi. rewrite (M i Hi). apply bool_decide_eq_true. Qed.

Lemma is_bits_bound b l x : is_bits b l → x ∈ l → index_ok x.
Proof. intros Hb. apply Forall_forall, (bits_ok _ _ Hb). Qed.

Lemma is_bits_alloc : is_bits hwloc_bitmap_alloc [].
Proof.
  apply is_bits_intro; [constructor|constructor|]. intros i Hi. rewrite isset_alloc by done. set_solver.
Qed.

Lemma is_bits_zero b : is_bits (hwloc_bitmap_zero b) [].
Proof.
  apply is_bits_intro; [constructor|constructor|]. intros i Hi. rewrite isset_zero by done. set_solver.
Qed.

Lemma is_bits_set b l i : index_ok i → is_bits b l → is_bits (hwloc_bitmap_set b i) (zinsert i l).
Proof.
  intros Hok Hb. apply is_bits_intro; [eauto using bits_sorted with zsorted|..].
  - apply Forall_forall. intros x [->|Hx]%elem_of_zinsert; [done|by eapply is_bits_bound].
  - intros j Hj. unfold index_ok in Hok. rewrite isset_set by lia.
    rewrite orb_true_iff, Z.eqb_eq, (is_bits_mem b l) by done.
    rewrite elem_of_zinsert. naive_solver.
Qed.

Lemma is_bits_clr b l i : 0 ≤ i → is_bits b l → is_bits (hwloc_bitmap_clr b i) (zremove i l).
Proof.
  intros Hi Hb. apply is_bits_intro; [eauto using bits_sorted with zsorted|..].
  - apply Forall_forall. intros x [_ Hx]%elem_of_zremove. by eapply is_bits_bound.
  - intros j Hj. rewrite isset_clr by lia.
    rewrite andb_true_iff, negb_true_iff, Z.eqb_neq, (is_bits_mem b l) by done.
    by rewrite elem_of_zremove.
Qed.

Lemma is_bits_only b i : index_ok i → is_bits (hwloc_bitmap_only b i) [i].
Proof.
  intros Hi. apply is_bits_intro; [apply zsorted_cons; split; [constructor|set_solver]|by apply Forall_singleton|].
  intros j Hj. unfold index_ok in Hi. rewrite isset_only by lia.
  rewrite Z.eqb_eq, list_elem_of_singleton. naive_solver.
Qed.

Lemma is_bits_and b1 b2 l1 l2 :
  is_bits b1 l1 → is_bits b2 l2 → is_bits (hwloc_bitmap_and b1 b2) (filter (.∈ l2) l1).
Proof.
  intros H1 H2. apply is_bits_intro; [eauto using bits_sorted with zsorted|..].
  - apply Forall_forall. intros x [_ Hx]%list_elem_of_filter. by eapply (is_bits_bound b1).
  - intros j Hj. rewrite isset_and, andb_true_iff, !is_bits_mem, list_elem_of_filter by done.
    naive_solver.
Qed.

Lemma is_bits_or b1 b2 l1 l2 :
  is_bits b1 l1 → is_bits b2 l2 → is_bits (hwloc_bitmap_or b1 b2) (zsort (l1 ++ l2)).
Proof.
  intros H1 H2. apply is_bits_intro; [auto with zsorted|..].
  - apply Forall_forall. intros x. rewrite elem_of_zsort, elem_of_app. intros [Hx|Hx];
      [by eapply (is_bits_bound b1)|by eapply (is_bits_bound b2)].
  - intros j Hj. rewrite isset_or, orb_true_iff, !is_bits_mem, elem_of_zsort, elem_of_app by done.
    naive_solver.
Qed.

End bits.

(** Enumeration with [hwloc_bitmap_next] walks the sorted list. *)
Lemma first_above_skip prev l1 l2 :
  Forall (λ x, x ≤ prev) l1 → first_above prev (l1 ++ l2) = first_above prev l2.
Proof.
  induction 1 as [|x l Hx _ IH]; simpl; [done|]. by rewrite bool_decide_false by lia.
Qed.

Lemma first_above_hd prev x l : prev < x → first_above prev (x :: l) = x.
Proof. intros. simpl. by rewrite bool_decide_true. Qed.

Lemma first_above_elem prev l :
  first_above prev l = -1 ∨ (first_above prev l ∈ l ∧ prev < first_above prev l).
Proof.
  induction l as [|x l IH]; simpl; [by left|]. case_bool_decide; set_solver.
Qed.

(** ** A concrete implementation *)
Definition norm_bits (b : list Z) : list Z := zsort (filter (λ x, 0 ≤ x) b).

#[export] Instance list_hwloc : Hwloc (list Z) := {
  hwloc_bitmap_alloc := [];
  hwloc_bitmap_set b i := zinsert i b;
  hwloc_bitmap_clr b i := zremove i b;
  hwloc_bitmap_only _ i := [i];
  hwloc_bitmap_zero _ := [];
  hwloc_bitmap_and b1 b2 := filter (.∈ b2) b1;
  hwloc_bitmap_or b1 b2 := zsort (b1 ++ b2);
  hwloc_bitmap_isset b i := bool_decide (i ∈ b);
  hwloc_bitmap_iszero b := bool_decide (norm_bits b = []);
  hwloc_bitmap_isincluded b1 b2 := bool_decide (Forall (.∈ norm_bits b2) (norm_bits b1));
  hwloc_bitmap_next b prev := first_above prev (norm_bits b);
  hwloc_bitmap_weight b := Z.of_nat (length (norm_bits b));
  hwloc_bitmap_foreach b := norm_bits b;
}.

Lemma norm_bits_spec (b l : list Z) : is_bits b l → norm_bits b = l.
Proof.
  intros Hb. apply zsorted_ext; [apply zsorted_zsort|by eapply bits_sorted|].
  intros x. unfold norm_bits. rewrite elem_of_zsort, list_elem_of_filter.
  split; intros Hx.
  - apply (is_bits_mem b); [done|lia|]. simpl. apply bool_decide_true. tauto.
  - pose proof (is_bits_bound _ _ _ Hb Hx) as Hi. unfold index_ok in Hi. split; [lia|].
    apply (is_bits_mem b) in Hx; [|done|lia]. by apply bool_decide_eq_true in Hx.
Qed.

#[export] Instance list_hwloc_laws : HwlocLaws (list Z).
Proof.
  split; simpl.
  - done.
  - intros b i j _ _. apply eq_bool_prop_intro.
    rewrite bool_decide_spec, orb_True, bool_decide_spec, elem_of_zinsert, Is_true_true, Z.eqb_eq.
    naive_solver.
  - intros b i j _ _. apply eq_bool_prop_intro.
    rewrite bool_decide_spec, andb_True, negb_True, bool_decide_spec, elem_of_zremove,
      Is_true_true, Z.eqb_eq. done.
  - intros b i j _ _. apply eq_bool_prop_intro.
    rewrite bool_decide_spec, list_elem_of_singleton, Is_true_true, Z.eqb_eq. done.
  - done.
  - intros b1 b2 i _. apply eq_bool_prop_intro.
    rewrite andb_True, !bool_decide_spec, list_elem_of_filter. naive_solver.
  - intros b1 b2 i _. apply eq_bool_prop_intro.
    rewrite orb_True, !bool_decide_spec, elem_of_zsort, elem_of_app. naive_solver.
  - intros b l ->%norm_bits_spec. done.
  - intros b1 b2 l1 l2 ->%norm_bits_spec ->%norm_bits_spec. done.
  - intros b l prev ->%norm_bits_spec _. done.
  - intros b. lia.
  - intros b l ->%norm_bits_spec. done.
  - intros b l ->%norm_bits_spec. done.
Qed.

(** A strictly increasing list of valid indexes is its own enumeration. *)
Lemma is_bits_list (l : list Z) : zsorted l → Forall index_ok l → is_bits l l.
Proof. intros ??. by apply is_bits_intro; [..|intros; apply bool_decide_eq_true]. Qed.
