(* ===== verification/Parsing.v ===== *)
(** * Text formats: integer lists, ranges and segment configurations

    Models [src/internal/utils/parse_ints.cpp], [ranges.hpp] and
    [parse_config.cpp].  A [std::string] is a [string]; [std::getline] and
    [operator>>(int&)] on a string stream are written out. *)
From Stdlib Require Import Ascii.
From S2P Require Import Prelude SortedZ.
Local Open Scope string_scope.
Local Open Scope Z_scope.

(** ** The parts of the standard library these functions use *)
Section stdlib.
(** [while (getline(ss, temp, delim)) tokens.push_back(temp)]: [acc] holds the
    characters extracted since the last delimiter; end of file with nothing
    extracted fails the stream and produces no token. *)
Fixpoint getline_loop (delim : ascii) (acc : string) (s : string) : list string :=
  match s with
  | EmptyString => if bool_decide (acc = "") then [] else [acc]
  | String c s' =>
      if bool_decide (c = delim) then acc :: getline_loop delim "" s'
      else getline_loop delim (acc ++ String c "") s'
  end.

Definition is_space (c : ascii) : bool :=
  let n := N_of_ascii c in ((n =? 32) || ((9 <=? n) && (n <=? 13)))%N.
Definition digit_of (c : ascii) : option Z :=
  let n := Z.of_N (N_of_ascii c) in
  if (48 <=? n) && (n <=? 57) then Some (n - 48) else None.

Fixpoint skip_ws (s : string) : string :=
  match s with
  | String c s' => if is_space c then skip_ws s' else s
  | EmptyString => s
  end.

(** Longest digit prefix, as a value; [None] when there is no digit. *)
Fixpoint read_digits (acc : Z) (seen : bool) (s : string) : option Z :=
  match s with
  | String c s' =>
      match digit_of c with
      | Some d => read_digits (10 * acc + d) true s'
      | None => if seen then Some acc else None
      end
  | EmptyString => if seen then Some acc else None
  end.

(** Optional sign, then digits. *)
Definition read_signed (s : string) : option Z :=
  match s with
  | String "-" s' => Z.opp <$> read_digits 0 false s'
  | String "+" s' => read_digits 0 false s'
  | _ => read_digits 0 false s
  end.

Definition in_int (z : Z) : bool := (INT_MIN <=? z) && (z <=? INT_MAX).

(** [ss >> x] for an [int x]: fails on no digits and on overflow. *)
Definition extract_int (s : string) : option Z :=
  x ← read_signed (skip_ws s); if in_int x then Some x else None.

(** [std::atoi]: 0 when no conversion can be done, undefined on overflow. *)
Definition atoi (s : string) : res Z :=
  match read_signed (skip_ws s) with
  | None => Ret 0
  | Some x => if in_int x then Ret x else Undefined "atoi overflow"
  end.

(** [std::to_string] of an unsigned value. *)
Definition digit_char (d : Z) : ascii := ascii_of_N (Z.to_N (48 + d)).
Fixpoint dec_digits (fuel : nat) (n : Z) (s : string) : string :=
  match fuel with
  | O => s
  | S fuel =>
      if n <? 10 then String (digit_char n) s
      else dec_digits fuel (n / 10) (String (digit_char (n mod 10)) s)
  end.
Definition to_string (n : Z) : string := dec_digits (S (Z.to_nat (Z.log2 n))) n "".
End stdlib.

(** ** parse_ints.cpp *)
Definition split_string_to_array (str : string) (splitter : ascii) : list string :=
  getline_loop splitter "" str.

Definition convert_string2_int (str : string) : res Z :=
  match extract_int str with
  | Some x => Ret x
  | None => Abort "Error converting to integer"
  end.

(** [for (int i = start; i <= stop; i++) result.push_back(i)]; when [stop] is
    INT_MAX the increment overflows. *)
Definition push_range (start stop : Z) : res (list Z) :=
  if (start <=? stop) && (stop =? INT_MAX) then Undefined "signed overflow"
  else Ret (seqZ start (stop - start + 1)).

Definition parse_token (token : string) : res (list Z) :=
  match split_string_to_array token "-" with
  | [a] => x ← convert_string2_int a; Ret [x]
  | [a; b] =>
      start ← convert_string2_int a;
      stop ← convert_string2_int b;
      push_range start stop
  | _ => Abort "Error parsing token"
  end.

Fixpoint parse_tokens (tokens : list string) (result : list Z) : res (list Z) :=
  match tokens with
  | [] => Ret result
  | token :: tokens =>
      r ← parse_token token;
      parse_tokens tokens (result ++ r)%list
  end.

Definition parse_ints (data : string) : res (list Z) :=
  parse_tokens (split_string_to_array data ",") [].

(** ** ranges.hpp, at [T = std::uint32_t] *)

(** The inner [for]: [it] is the remaining suffix of the sorted copy. *)
Fixpoint range_run (low i high : Z) (it : list Z) : Z * list Z :=
  match it with
  | x :: it' => if u32 (low + i) =? x then range_run low (u32 (i + 1)) x it' else (high, it)
  | [] => (high, it)
  end.

Fixpoint find_ranges_loop (fuel : nat) (it : list Z) : option (list (Z * Z)) :=
  match it with
  | [] => Some []
  | x :: _ =>
      match fuel with
      | O => None
      | S fuel =>
          let '(high, rest) := range_run x 0 x it in
          rs ← find_ranges_loop fuel rest; Some ((x, high) :: rs)
      end
  end.

Definition find_ranges (values : list Z) : option (list (Z * Z)) :=
  let copy := merge_sort Z.le values in find_ranges_loop (length copy) copy.

Definition print_range (r : string) (p : Z * Z) : string :=
  let sep := if bool_decide (r = "") then "" else "," in
  if p.1 =? p.2 then r ++ sep ++ to_string p.1
  else r ++ sep ++ to_string p.1 ++ "-" ++ to_string p.2.

Definition print_ranges (ranges : list (Z * Z)) : string := foldl print_range "" ranges.

(** ** parse_config.cpp *)

(** One element of [ConfigurationMap]: segments, concurrency and groups. *)
Definition config_entry : Type := gset string * Z * list Z.

Definition split_string_on (str : string) (delim : ascii) : list string :=
  getline_loop delim "" str.

(** [CHECK_GE(i, 0); groups.push_back(i)] for each parsed integer. *)
Fixpoint push_groups (ints : list Z) (groups : list Z) : res (list Z) :=
  match ints with
  | [] => Ret groups
  | i :: ints => check (0 <=? i) "i >= 0" ;; push_groups ints (groups ++ [i])%list
  end.

(** The switch on [tokens.size()], with its fall-through cases. *)
Definition parse_entry (entry : string) : res config_entry :=
  match split_string_on entry ":" with
  | [t0] => Ret (list_to_set (split_string_on t0 ","), 1, [])
  | [t0; t1] =>
      concurrency ← atoi t1;
      Ret (list_to_set (split_string_on t0 ","), concurrency, [])
  | [t0; t1; t2] =>
      groups ← (if bool_decide (t2 = "*") then Ret []
                else ints ← parse_ints t2; push_groups ints []);
      concurrency ← atoi t1;
      Ret (list_to_set (split_string_on t0 ","), concurrency, groups)
  | _ => Throw "misformed user configuration string"
  end.

Fixpoint parse_entries (entries : list string) (config : list config_entry) : res (list config_entry) :=
  match entries with
  | [] => Ret config
  | entry :: entries =>
      e ← parse_entry entry;
      parse_entries entries (config ++ [e])%list
  end.

Definition parse_config (config_str : string) : res (list config_entry) :=
  parse_entries (split_string_on config_str ";") [].

(** ** Strings *)
Lemma str_app_cons c (s1 s2 : string) : String c s1 ++ s2 = String c (s1 ++ s2).
Proof. done. Qed.
Lemma str_app_nil_l (s : string) : "" ++ s = s.
Proof. done. Qed.
Lemma str_app_assoc (s1 s2 s3 : string) : (s1 ++ s2) ++ s3 = s1 ++ (s2 ++ s3).
Proof. induction s1 as [|c s1 IH]; [done|]. by rewrite !str_app_cons, IH. Qed.
Lemma str_app_nil_r (s : string) : s ++ "" = s.
Proof. induction s as [|c s IH]; [done|]. by rewrite str_app_cons, IH. Qed.

(** Every character of the string satisfies the test. *)
Fixpoint str_all (p : ascii → bool) (s : string) : bool :=
  match s with
  | EmptyString => true
  | String c s' => p c && str_all p s'
  end.

Definition is_digit (c : ascii) : bool := match digit_of c with Some _ => true | None => false end.

Lemma getline_loop_app delim acc tok rest :
  str_all (λ c, negb (bool_decide (c = delim))) tok = true →
  getline_loop delim acc (tok ++ rest) = getline_loop delim (acc ++ tok) rest.
Proof.
  revert acc. induction tok as [|c tok IH]; intros acc; [by rewrite str_app_nil_r|].
  rewrite str_app_cons. simpl. intros [Hc Htok]%andb_true_iff. rewrite negb_true_iff, bool_decide_eq_false in Hc.
  rewrite bool_decide_false by done. rewrite IH by done. by rewrite str_app_assoc.
Qed.

Lemma str_all_impl (p q : ascii → bool) s :
  (∀ c, p c = true → q c = true) → str_all p s = true → str_all q s = true.
Proof.
  intros Hpq. induction s as [|c s IH]; simpl; [done|].
  intros [??]%andb_true_iff. rewrite Hpq by done. by apply IH.
Qed.

Lemma str_all_app p s1 s2 : str_all p (s1 ++ s2) = str_all p s1 && str_all p s2.
Proof. induction s1 as [|c s1 IH]; [done|]. rewrite str_app_cons. simpl. by rewrite IH, andb_assoc. Qed.

(** ** Decimal numerals *)
Lemma digit_of_char d : 0 ≤ d < 10 → digit_of (digit_char d) = Some d.
Proof.
  intros Hd. assert (d ∈ seqZ 0 10) as Hin by (apply elem_of_seqZ; lia). clear Hd.
  change (seqZ 0 10) with [0;1;2;3;4;5;6;7;8;9] in Hin.
  repeat (apply elem_of_cons in Hin as [->|Hin]; [reflexivity|]). set_solver.
Qed.

Lemma is_digit_char d : 0 ≤ d < 10 → is_digit (digit_char d) = true.
Proof. intros Hd. unfold is_digit. by rewrite digit_of_char. Qed.

Lemma read_digits_dec fuel n s b :
  0 ≤ n < 10 ^ Z.of_nat fuel → (0 < fuel)%nat →
  read_digits 0 b (dec_digits fuel n s) = read_digits n true s.
Proof.
  revert n s. induction fuel as [|fuel IH]; intros n s Hn Hf; [lia|]. simpl.
  destruct (Z.ltb_spec n 10) as [Hlt|Hge]; simpl.
  - by rewrite digit_of_char by lia.
  - destruct fuel as [|fuel']; [lia|].
    rewrite IH; [|rewrite Nat2Z.inj_succ, Z.pow_succ_r in Hn by lia;
      split; [apply Z.div_pos; lia|apply Z.div_lt_upper_bound; lia]|lia].
    simpl. rewrite digit_of_char by (apply Z.mod_pos_bound; lia).
    f_equal. pose proof (Z.div_mod n 10). lia.
Qed.

Lemma dec_digits_all fuel n s :
  0 ≤ n → str_all is_digit s = true → str_all is_digit (dec_digits fuel n s) = true.
Proof.
  revert n s. induction fuel as [|fuel IH]; intros n s Hn Hs; simpl; [done|].
  destruct (Z.ltb_spec n 10); simpl.
  - by rewrite is_digit_char by lia.
  - apply IH; [apply Z.div_pos; lia|]. simpl.
    by rewrite is_digit_char by (apply Z.mod_pos_bound; lia).
Qed.

Lemma dec_digits_nonempty fuel n s : dec_digits (S fuel) n s ≠ "".
Proof.
  revert n s. induction fuel as [|fuel IH]; intros n s; simpl; [by destruct (n <? 10)|].
  destruct (n <? 10); [done|apply IH].
Qed.

Lemma to_string_digits n : 0 ≤ n → str_all is_digit (to_string n) = true.
Proof. intros. by apply dec_digits_all. Qed.

Lemma to_string_nonempty n : to_string n ≠ "".
Proof. apply dec_digits_nonempty. Qed.

Lemma log10_fuel n : 0 ≤ n → n < 10 ^ Z.of_nat (S (Z.to_nat (Z.log2 n))).
Proof.
  intros Hn. rewrite Nat2Z.inj_succ, Z2Nat.id by apply Z.log2_nonneg.
  destruct (Z.eq_dec n 0) as [->|]; [reflexivity|].
  pose proof (Z.log2_spec n) as [_ ?]; [lia|].
  eapply Z.lt_le_trans; [done|]. apply Z.pow_le_mono_l. lia.
Qed.

Lemma read_to_string n : 0 ≤ n → read_digits 0 false (to_string n) = Some n.
Proof.
  intros Hn. unfold to_string. rewrite read_digits_dec; [done| |lia].
  split; [done|by apply log10_fuel].
Qed.

Lemma digit_not_other c c' : is_digit c = true → is_digit c' = false → c ≠ c'.
Proof. congruence. Qed.

Lemma digit_not_space c : is_digit c = true → is_space c = false.
Proof. destruct c as [[][][][][][][][]]; vm_compute; congruence. Qed.

Lemma extract_to_string n : 0 ≤ n ≤ INT_MAX → extract_int (to_string n) = Some n.
Proof.
  intros Hn. unfold extract_int.
  pose proof (to_string_digits n ltac:(lia)) as Hd. pose proof (to_string_nonempty n) as Hne.
  pose proof (read_to_string n ltac:(lia)) as Hr.
  destruct (to_string n) as [|c s] eqn:E; [done|]. simpl in Hd. apply andb_true_iff in Hd as [Hc _].
  simpl. rewrite digit_not_space by done. unfold read_signed.
  assert (in_int n = true) as Hin by (unfold in_int, INT_MIN, INT_MAX in *; lia).
  destruct (decide (c = "-"%char)) as [->|]; [done|]. destruct (decide (c = "+"%char)) as [->|]; [done|].
  assert (∀ A (x y z : A), match c with "-"%char => x | "+"%char => y | _ => z end = z) as Hm.
  { intros. destruct c as [[][][][][][][][]]; congruence. }
  rewrite Hm, Hr. simpl. by rewrite Hin.
Qed.

(** ** Ranges of a strictly increasing sequence *)
Definition expand (p : Z * Z) : list Z := seqZ p.1 (p.2 - p.1 + 1).

Lemma merge_sort_zsorted l : zsorted l → merge_sort Z.le l = l.
Proof.
  intros Hl. apply (StronglySorted_unique Z.le); [| |by apply merge_sort_Permutation].
  - apply StronglySorted_merge_sort; apply _.
  - induction Hl as [|x l Hl IH Hx]; constructor; [done|].
    eapply Forall_impl; [done|]. simpl. lia.
Qed.

Lemma expand_snoc a b l : a ≤ b + 1 → (expand (a, b) ++ (b + 1) :: l = expand (a, b + 1) ++ l)%list.
Proof.
  intros. unfold expand; simpl. replace (b + 1 - a + 1) with ((b - a + 1) + 1) by lia.
  rewrite (seqZ_app a (b - a + 1) 1), <- app_assoc by lia. f_equal. rewrite seqZ_cons by lia. simpl. f_equal. lia.
Qed.

(** The inner loop extends the range while the values stay consecutive. *)
Lemma range_run_spec it low i high h rest :
  range_run low i high it = (h, rest) →
  Forall (λ x, x < 2 ^ 32 - 1) it → 0 ≤ low → 0 < i → low + i < 2 ^ 32 → high = low + i - 1 →
  (expand (low, high) ++ it = expand (low, h) ++ rest)%list ∧ high ≤ h ∧
  (length rest ≤ length it)%nat ∧ (h = high ∨ h < 2 ^ 32 - 1).
Proof.
  revert i high. induction it as [|x it IH]; intros i high Hr Hf Hl Hi Hb Hh; simpl in Hr.
  - simplify_eq. split_and!; [done|lia|done|by left].
  - apply Forall_cons in Hf as [Hx Hf]. rewrite u32_small in Hr by lia.
    destruct (Z.eqb_spec (low + i) x) as [He|]; [|simplify_eq; split_and!; [done|lia|done|by left]].
    rewrite u32_small in Hr by lia.
    destruct (IH (i + 1) x Hr Hf) as (He' & ? & ? & ?); [lia..|].
    split_and!; [|lia|simpl; lia|lia].
    rewrite <- He'. replace x with (high + 1) by lia. apply expand_snoc. lia.
Qed.

Lemma find_ranges_loop_spec fuel l :
  (length l ≤ fuel)%nat → Forall (λ x, 0 ≤ x < 2 ^ 32 - 1) l →
  ∃ rs, find_ranges_loop fuel l = Some rs ∧ concat (expand <$> rs) = l ∧
        Forall (λ p, p.1 ≤ p.2) rs.
Proof.
  revert l. induction fuel as [|fuel IH]; intros [|x l] Hl Hf; simpl in *; [by eexists..|lia| |].
  { by exists []. }
  apply Forall_cons in Hf as [Hx Hf]. rewrite Z.add_0_r, u32_small, Z.eqb_refl by lia.
  destruct (range_run x (u32 (0 + 1)) x l) as [h rest] eqn:E.
  eapply range_run_spec in E as (He & Hh & Hlen & _); [|..].
  2: { eapply Forall_impl; [done|]. simpl. lia. }
  2-5: rewrite ?u32_small by lia; lia.
  destruct (IH rest) as (rs & -> & Hc & Hok); [lia| |].
  { apply (f_equal (drop (length (expand (x, h))))) in He. rewrite drop_app_length in He.
    rewrite <- He. apply Forall_drop. apply Forall_app. split; [|done].
    unfold expand; simpl. apply Forall_forall. intros y Hy%elem_of_seqZ. lia. }
  simpl. eexists; split_and!; [done|..].
  - change (expand (x, h) ++ concat (expand <$> rs) = x :: l)%list.
    rewrite Hc, <- He. unfold expand; simpl. by replace (x - x + 1) with 1 by lia.
  - by constructor.
Qed.

Lemma find_ranges_spec l :
  zsorted l → Forall (λ x, 0 ≤ x < 2 ^ 32 - 1) l →
  ∃ rs, find_ranges l = Some rs ∧ concat (expand <$> rs) = l ∧ Forall (λ p, p.1 ≤ p.2) rs.
Proof.
  intros Hs Hf. unfold find_ranges. rewrite merge_sort_zsorted by done. by apply find_ranges_loop_spec.
Qed.

(** ** Printing and parsing ranges *)
Definition range_str (p : Z * Z) : string :=
  if p.1 =? p.2 then to_string p.1 else to_string p.1 ++ "-" ++ to_string p.2.

Fixpoint tail_str (rs : list (Z * Z)) : string :=
  match rs with
  | [] => ""
  | p :: rs => "," ++ range_str p ++ tail_str rs
  end.

Lemma str_app_nonempty_l s1 s2 : s1 ≠ "" → s1 ++ s2 ≠ "".
Proof. by destruct s1. Qed.

Lemma range_str_nonempty p : range_str p ≠ "".
Proof.
  unfold range_str. destruct (p.1 =? p.2); [apply to_string_nonempty|].
  apply str_app_nonempty_l, to_string_nonempty.
Qed.

Lemma foldl_print_range r rs : r ≠ "" → foldl print_range r rs = r ++ tail_str rs.
Proof.
  revert r. induction rs as [|p rs IH]; intros r Hr; simpl; [by rewrite str_app_nil_r|].
  assert (print_range r p = r ++ "," ++ range_str p) as Hp.
  { unfold print_range, range_str. rewrite bool_decide_false by done. by destruct (p.1 =? p.2). }
  rewrite Hp, IH, !str_app_assoc; [done|]. by apply str_app_nonempty_l.
Qed.

Lemma print_ranges_cons p rs : print_ranges (p :: rs) = range_str p ++ tail_str rs.
Proof.
  unfold print_ranges; simpl. assert (print_range "" p = range_str p) as ->.
  { unfold print_range, range_str. rewrite bool_decide_true by done. by destruct (p.1 =? p.2). }
  apply foldl_print_range, range_str_nonempty.
Qed.

Definition other_than (d : ascii) (c : ascii) : bool := negb (bool_decide (c = d)).

Lemma digits_other_than d s :
  is_digit d = false → str_all is_digit s = true → str_all (other_than d) s = true.
Proof.
  intros Hd. apply str_all_impl. intros c Hc. unfold other_than.
  rewrite bool_decide_false; [done|]. congruence.
Qed.

Lemma range_str_no_comma p : 0 ≤ p.1 → 0 ≤ p.2 → str_all (other_than ",") (range_str p) = true.
Proof.
  intros H1 H2. unfold range_str.
  assert (∀ n, 0 ≤ n → str_all (other_than ",") (to_string n) = true) as Hn.
  { intros n Hn. by apply digits_other_than, to_string_digits. }
  destruct (p.1 =? p.2); [by apply Hn|]. by rewrite !str_all_app, !Hn.
Qed.

Lemma getline_tail acc rs :
  acc ≠ "" → Forall (λ p, 0 ≤ p.1 ∧ 0 ≤ p.2) rs →
  getline_loop "," acc (tail_str rs) = acc :: (range_str <$> rs).
Proof.
  revert acc. induction rs as [|p rs IH]; intros acc Hacc Hok; simpl.
  - by rewrite bool_decide_false.
  - apply Forall_cons in Hok as [[??] Hok]. rewrite ?str_app_cons, ?str_app_nil_l. simpl.
    rewrite getline_loop_app by (by apply range_str_no_comma).
    rewrite str_app_nil_l, IH; [done| |done]. apply range_str_nonempty.
Qed.

Lemma split_print_ranges rs :
  Forall (λ p, 0 ≤ p.1 ∧ 0 ≤ p.2) rs →
  split_string_to_array (print_ranges rs) "," = range_str <$> rs.
Proof.
  unfold split_string_to_array. destruct rs as [|p rs]; intros Hok; [done|].
  apply Forall_cons in Hok as [[??] Hok].
  rewrite print_ranges_cons, getline_loop_app by (by apply range_str_no_comma).
  rewrite str_app_nil_l. apply getline_tail; [apply range_str_nonempty|done].
Qed.

Lemma parse_token_range p :
  0 ≤ p.1 ≤ p.2 → p.2 < INT_MAX → parse_token (range_str p) = Ret (expand p).
Proof.
  intros Hp Hmax. unfold parse_token, range_str, split_string_to_array, convert_string2_int.
  destruct (Z.eqb_spec p.1 p.2) as [He|Hne].
  - rewrite <- (str_app_nil_r (to_string _)), getline_loop_app
      by (apply digits_other_than, to_string_digits; [done|lia]).
    simpl. rewrite bool_decide_false by (rewrite str_app_nil_l; apply to_string_nonempty).
    rewrite str_app_nil_l, extract_to_string by lia. simpl. unfold expand.
    rewrite <- He. by replace (p.1 - p.1 + 1) with 1 by lia.
  - rewrite getline_loop_app by (apply digits_other_than, to_string_digits; [done|lia]).
    rewrite ?str_app_cons, ?str_app_nil_l. simpl.
    rewrite <- (str_app_nil_r (to_string p.2)), getline_loop_app
      by (apply digits_other_than, to_string_digits; [done|lia]).
    simpl. rewrite bool_decide_false by (rewrite str_app_nil_l; apply to_string_nonempty).
    rewrite str_app_nil_l, !extract_to_string by lia. simpl. unfold push_range.
    rewrite (proj2 (Z.eqb_neq p.2 INT_MAX)) by lia. by rewrite andb_false_r.
Qed.

Lemma parse_tokens_ranges rs acc :
  Forall (λ p, 0 ≤ p.1 ≤ p.2 ∧ p.2 < INT_MAX) rs →
  parse_tokens (range_str <$> rs) acc = Ret (acc ++ concat (expand <$> rs))%list.
Proof.
  revert acc. induction rs as [|p rs IH]; intros acc Hok; simpl; [by rewrite app_nil_r|].
  apply Forall_cons in Hok as [[??] Hok].
  rewrite parse_token_range by done. simpl. rewrite IH by done. by rewrite <- app_assoc.
Qed.

Lemma expand_hull rs l p :
  concat (expand <$> rs) = l → Forall (λ p, p.1 ≤ p.2) rs → p ∈ rs → p.1 ∈ l ∧ p.2 ∈ l.
Proof.
  intros <- Hok Hp. rewrite Forall_forall in Hok. specialize (Hok p Hp).
  assert (∀ x, x ∈ expand p → x ∈ concat (expand <$> rs)) as Hin.
  { intros x Hx. apply list_elem_of_In, in_concat. exists (expand p).
    rewrite <- !list_elem_of_In. split; [|done]. by apply list_elem_of_fmap_2. }
  split; apply Hin; unfold expand; apply elem_of_seqZ; lia.
Qed.

(** The text of the ranges of a strictly increasing sequence parses back. *)
Lemma print_parse_ranges (l : list Z) :
  zsorted l → Forall (λ x, 0 ≤ x < INT_MAX) l →
  ∃ rs, find_ranges l = Some rs ∧ parse_ints (print_ranges rs) = Ret l.
Proof.
  intros Hs Hf. destruct (find_ranges_spec l Hs) as (rs & Hfind & Hc & Hle).
  { eapply Forall_impl; [done|]. unfold INT_MAX. simpl. lia. }
  assert (Forall (λ p, 0 ≤ p.1 ≤ p.2 ∧ p.2 < INT_MAX) rs) as Hok.
  { apply Forall_forall. intros p Hp. destruct (expand_hull rs l p Hc Hle Hp) as [H1 H2].
    rewrite Forall_forall in Hf. rewrite Forall_forall in Hle. specialize (Hle p Hp).
    pose proof (Hf _ H1). pose proof (Hf _ H2). simpl in *. lia. }
  exists rs. split; [done|]. unfold parse_ints.
  rewrite split_print_ranges by (eapply Forall_impl; [exact Hok|simpl; lia]).
  rewrite parse_tokens_ranges by done. by rewrite Hc.
Qed.
