(* ===== verification/Bitmap.v ===== *)
(** * Bitmaps, round-robin cpu sets and shared-resource maps

    Models [src/public/core/bitmap.cpp], [include/srf/core/bitmap.hpp] and
    [src/internal/utils/shared_resource_bit_map.cpp] over the [Hwloc]
    interface.  A [Bitmap] is its non-null [m_bitmap] handle; copies are
    [hwloc_bitmap_dup]s, so a value.  Moved-from bitmaps (null handles) and
    allocation failures inside hwloc are not modelled. *)
From S2P Require Import Prelude SortedZ Hwloc Parsing.
Local Open Scope Z_scope.

Section bitmap.
Context `{Hwloc B}.

(** ** class Bitmap *)
Definition Bitmap_new : B := hwloc_bitmap_alloc.
Definition on (b : B) (id : Z) : B := hwloc_bitmap_set b id.
Definition off (b : B) (id : Z) : B := hwloc_bitmap_clr b id.
Definition only (b : B) (id : Z) : B := hwloc_bitmap_only b id.
Definition zero (b : B) : B := hwloc_bitmap_zero b.

(** [Bitmap(int cpu_id)]: the argument is converted to [std::uint32_t]. *)
Definition Bitmap_of_int (cpu_id : Z) : B := on Bitmap_new (u32 cpu_id).

(** [Bitmap(const std::string& cpu_str)]. *)
Definition Bitmap_of_string (cpu_str : string) : res B :=
  cpus ← parse_ints cpu_str;
  Ret (foldl (λ b cpu, on b (u32 cpu)) Bitmap_new cpus).

(** [next] converts hwloc's [int] result, -1 included, to [std::uint32_t]. *)
Definition next (b : B) (prev : Z) : Z := u32 (hwloc_bitmap_next b prev).
Definition first (b : B) : Z := next b (-1).

Definition weight (b : B) : res Z :=
  let rc := hwloc_bitmap_weight b in
  check (negb (rc =? -1)) "rc != -1" ;; Ret rc.

Definition is_set (b : B) (cpu_id : Z) : res bool :=
  check (0 <=? cpu_id) "cpu_id >= 0" ;; Ret (hwloc_bitmap_isset b cpu_id).

Definition empty (b : B) : bool := hwloc_bitmap_iszero b.
Definition set_intersect (b other : B) : B := hwloc_bitmap_and b other.
Definition set_union (b other : B) : B := hwloc_bitmap_or b other.
Definition contains (b sub_bitmap : B) : bool := hwloc_bitmap_isincluded sub_bitmap b.
Definition vec (b : B) : list Z := hwloc_bitmap_foreach b.

(** [for (int i = 0, prev = -1; i < count; i++) { prev = next(prev); lambda(i, prev); }];
    [i] is non-negative, so its conversion to [std::uint32_t] is the identity. *)
Fixpoint for_each_bit_loop {S} (n : nat) (b : B) (i prev : Z)
    (lambda : Z → Z → S → S) (s : S) : S :=
  match n with
  | O => s
  | S n =>
      let prev := i32 (next b prev) in
      for_each_bit_loop n b (i + 1) prev lambda (lambda i (u32 prev) s)
  end.
Definition for_each_bit {S} (b : B) (lambda : Z → Z → S → S) (s : S) : res S :=
  count ← weight b;
  Ret (for_each_bit_loop (Z.to_nat count) b 0 (-1) lambda s).

Definition append (b bitmap : B) : res B :=
  for_each_bit bitmap (λ _ bit self, on self bit) b.

Definition str (b : B) : option string := print_ranges <$> find_ranges (vec b).

(** The loop of [pop]; [prev] is a [long], the argument of [next] an [int]. *)
Fixpoint pop_loop (n : nat) (self rv : B) (prev : Z) : B * B :=
  match n with
  | O => (rv, self)
  | S n =>
      let prev := next self (i32 prev) in
      pop_loop n (off self (u32 prev)) (on rv (u32 prev)) prev
  end.
(** Returns the popped bitmap and the remaining one. *)
Definition pop (self : B) (nbits : Z) : res (B * B) :=
  w ← weight self;
  check (nbits <=? w) "pop requesting more bits than set in bitmap" ;;
  Ret (pop_loop (Z.to_nat nbits) self Bitmap_new (-1)).

Fixpoint split_loop (n : nat) (i div rem : Z) (copy : B) (v : list B) : res (list B) :=
  match n with
  | O => Ret v
  | S n =>
      let count := div + (if i <? rem then 1 else 0) in
      if negb (count =? 0)
      then '(popped, copy) ← pop copy count;
           split_loop n (i + 1) div rem copy (v ++ [popped])
      else split_loop n (i + 1) div rem copy (v ++ [Bitmap_new])
  end.
Definition split (b : B) (nways : Z) : res (list B) :=
  check (0 <? nways) "nways > 0" ;;
  w ← weight b;
  split_loop (Z.to_nat nways) 0 (Z.quot w nways) (Z.rem w nways) b [].

(** ** class RoundRobinCpuSet *)
Record RoundRobinCpuSet := { m_bits : B; m_prev : Z; m_index : Z }.
Definition RoundRobinCpuSet_new (bits : B) : RoundRobinCpuSet :=
  {| m_bits := bits; m_prev := -1; m_index := -1 |}.

(** [next] calls itself after a wrap-around: [fuel] bounds the recursion. *)
Fixpoint rr_next (fuel : nat) (r : RoundRobinCpuSet) : option (Z * Z * RoundRobinCpuSet) :=
  match fuel with
  | O => None
  | S fuel =>
      let id := hwloc_bitmap_next (m_bits r) (m_prev r) in
      let index := m_index r + 1 in
      if id =? -1
      then rr_next fuel {| m_bits := m_bits r; m_prev := id; m_index := -1 |}
      else Some (index, id, {| m_bits := m_bits r; m_prev := id; m_index := index |})
  end.
Definition next_index (fuel : nat) (r : RoundRobinCpuSet) : option (Z * RoundRobinCpuSet) :=
  '(i, _, r') ← rr_next fuel r; Some (i, r').
Definition next_id (fuel : nat) (r : RoundRobinCpuSet) : option (Z * RoundRobinCpuSet) :=
  '(_, id, r') ← rr_next fuel r; Some (id, r').
Definition next_binding (fuel : nat) (r : RoundRobinCpuSet) : option (B * RoundRobinCpuSet) :=
  '(id, r') ← next_id fuel r; Some (only Bitmap_new (u32 id), r').
Definition reset (r : RoundRobinCpuSet) : RoundRobinCpuSet :=
  {| m_bits := m_bits r; m_prev := -1; m_index := -1 |}.
Definition cpu_set (r : RoundRobinCpuSet) : B := m_bits r.

(** ** class SharedResourceBitMap: [std::map<std::uint32_t, Bitmap> m_map] *)
Definition SharedResourceBitMap : Type := gmap Z B.
(** [m_map[bit_index].on(object_id)]: operator[] creates an empty bitmap. *)
Definition srb_on (object_id bit_index : Z) (m : gmap Z B) : gmap Z B :=
  <[bit_index := on (default Bitmap_new (m !! bit_index)) object_id]> m.
Definition srb_insert (m : SharedResourceBitMap) (bitmap : B) (object_id : Z) : res SharedResourceBitMap :=
  for_each_bit bitmap (λ _ bit_index, srb_on object_id bit_index) m.
Definition for_objects {S} (m : SharedResourceBitMap) (bit_index : Z) (lambda : Z → S → S) (s : S) : res S :=
  match (m : gmap Z B) !! bit_index with
  | Some bitmap => for_each_bit bitmap (λ _ bit, lambda bit) s
  | None => Ret s
  end.
Definition object_count (m : SharedResourceBitMap) (bit_index : Z) : res Z :=
  for_objects m bit_index (λ _ count, count + 1) 0.
Definition srb_bitmap (m : SharedResourceBitMap) (bit_index : Z) : B :=
  match (m : gmap Z B) !! bit_index with Some b => b | None => Bitmap_new end.
End bitmap.
Arguments RoundRobinCpuSet : clear implicits.
Arguments SharedResourceBitMap : clear implicits.

(** ** Extensional equality of bitmaps *)
Definition bm_equiv `{Hwloc B} (b1 b2 : B) : Prop :=
  ∀ i, 0 ≤ i → hwloc_bitmap_isset b1 i = hwloc_bitmap_isset b2 i.

#[export] Instance bm_equiv_equivalence `{Hwloc B} : Equivalence (bm_equiv (B := B)).
Proof.
  split.
  - intros b i Hi. done.
  - intros b1 b2 Hb i Hi. symmetry. by apply Hb.
  - intros b1 b2 b3 H1 H2 i Hi. etrans; [by apply H1|by apply H2].
Qed.

#[export] Instance is_bits_proper `{Hwloc B} : Proper (bm_equiv ==> eq ==> iff) (is_bits (B := B)).
Proof.
  intros b1 b2 Hb l ? <-.
  split; intros [S O M]; split; [done|done|..|done|done|]; intros i Hi;
    [rewrite <- (Hb i Hi)|rewrite (Hb i Hi)]; by apply M.
Qed.

Section theorems.
Context `{HwlocLaws B}.
Implicit Types (b : B) (l : list Z).

#[export] Instance set_intersect_proper :
  Proper (bm_equiv ==> bm_equiv ==> bm_equiv) (set_intersect (B := B)).
Proof. intros b1 b2 Hb c1 c2 Hc i Hi. unfold set_intersect. rewrite !isset_and by done. by rewrite Hb, Hc. Qed.
#[export] Instance set_union_proper :
  Proper (bm_equiv ==> bm_equiv ==> bm_equiv) (set_union (B := B)).
Proof. intros b1 b2 Hb c1 c2 Hc i Hi. unfold set_union. rewrite !isset_or by done. by rewrite Hb, Hc. Qed.

Lemma is_bits_equiv b1 b2 l : is_bits b1 l → is_bits b2 l → bm_equiv b1 b2.
Proof. intros H1 H2 i Hi. by rewrite (bits_mem _ _ H1 i Hi), (bits_mem _ _ H2 i Hi). Qed.

Lemma weight_bits b l : is_bits b l → weight b = Ret (Z.of_nat (length l)).
Proof.
  intros Hb. unfold weight. rewrite (weight_spec _ _ Hb).
  destruct (Z.eqb_spec (Z.of_nat (length l)) (-1)); [lia|done].
Qed.

(** One enumeration step, in the middle of the sorted sequence. *)
Lemma next_walk b l1 x l2 prev :
  is_bits b (l1 ++ x :: l2) → Forall (λ y, y ≤ prev) l1 → -1 ≤ prev < x →
  next b prev = x ∧ index_ok x.
Proof.
  intros Hb Hl1 Hp. assert (index_ok x) as Hx by (eapply is_bits_bound; [done|set_solver]).
  split; [|done]. unfold next. rewrite (next_spec _ _ _ Hb) by lia.
  rewrite first_above_skip, first_above_hd by (done || lia).
  unfold index_ok in Hx. apply u32_small. lia.
Qed.

Lemma for_each_bit_loop_spec {S} b l1 l2 i prev (f : Z → Z → S → S) s :
  is_bits b (l1 ++ l2) → Forall (λ y, y ≤ prev) l1 → (∀ x, x ∈ l2 → prev < x) → -1 ≤ prev →
  for_each_bit_loop (length l2) b i prev f s =
    foldl (λ s p, f p.1 p.2 s) s (zip (seqZ i (Z.of_nat (length l2))) l2).
Proof.
  revert l1 i prev s. induction l2 as [|x l2 IH]; intros l1 i prev s Hb H1 H2 Hp; simpl; [done|].
  destruct (next_walk b l1 x l2 prev) as [-> Hx]; [done|done|split; [done|apply H2; set_solver]|].
  unfold index_ok in Hx.
  pose proof (bits_sorted _ _ Hb) as Hs. apply zsorted_app in Hs as (_ & Hs2 & Hlt).
  apply zsorted_cons in Hs2 as [_ Hx2].
  rewrite i32_small, u32_small by lia. rewrite seqZ_cons by lia. simpl.
  replace (Z.pred _) with (Z.of_nat (length l2)) by lia.
  replace (Z.succ i) with (i + 1) by lia.
  apply (IH (l1 ++ [x])); [by rewrite <- app_assoc| |done|lia].
  apply Forall_app. split; [|by apply Forall_singleton].
  apply Forall_forall. intros y Hy. specialize (Hlt y x Hy ltac:(set_solver)). lia.
Qed.

(** [for_each_bit] calls the lambda once per set index, in increasing index
    order, with the enumeration position as first argument. *)
Lemma for_each_bit_spec {S} b l (lambda : Z → Z → S → S) (s : S) :
  is_bits b l →
  for_each_bit b lambda s =
    Ret (foldl (λ s p, lambda p.1 p.2 s) s (zip (seqZ 0 (Z.of_nat (length l))) l)).
Proof.
  intros Hb. unfold for_each_bit. rewrite (weight_bits _ _ Hb). simpl. rewrite Nat2Z.id.
  by rewrite (for_each_bit_loop_spec b [] l); [|..|intros x Hx%(is_bits_bound _ _ _ Hb);
    unfold index_ok in Hx; lia|].
Qed.

(** Folding over the bits only. *)
Lemma foldl_zip_snd {S} (f : Z → S → S) (ks l : list Z) s :
  length ks = length l →
  foldl (λ s p, f p.2 s) s (zip ks l) = foldl (λ s x, f x s) s l.
Proof.
  revert ks s. induction l as [|x l IH]; intros [|i ks] s Hlen; simplify_eq/=; [done|]. by apply IH.
Qed.

Lemma for_each_bit_fold {S} b l (f : Z → S → S) s :
  is_bits b l → for_each_bit b (λ _, f) s = Ret (foldl (λ s x, f x s) s l).
Proof.
  intros Hb. rewrite (for_each_bit_spec _ _ _ _ Hb). f_equal.
  apply (foldl_zip_snd f). rewrite length_seqZ. lia.
Qed.

Lemma foldl_on_bits b l l' :
  is_bits b l → Forall index_ok l' → is_bits (foldl (λ b x, on b x) b l') (foldl (λ l x, zinsert x l) l l').
Proof.
  revert b l. induction l' as [|x l' IH]; intros b l Hb Hok; simpl; [done|].
  apply Forall_cons in Hok as [??]. apply IH; [|done]. by apply is_bits_set.
Qed.

Lemma elem_of_foldl_zinsert x l l' : x ∈ foldl (λ l x, zinsert x l) l l' ↔ x ∈ l ∨ x ∈ l'.
Proof.
  revert l. induction l' as [|y l' IH]; intros l; simpl; [set_solver|].
  rewrite IH, elem_of_zinsert. set_solver.
Qed.

Lemma foldl_zinsert_sorted l : zsorted l → foldl (λ l x, zinsert x l) [] l = l.
Proof.
  intros Hl. apply zsorted_ext; [|done|intros; rewrite elem_of_foldl_zinsert; set_solver].
  cut (∀ l', zsorted l' → zsorted (foldl (λ l x, zinsert x l) l' l)); [intros Hc; apply Hc; constructor|].
  clear Hl. induction l as [|x l IH]; intros l' Hl'; simpl; [done|]. apply IH. by apply zsorted_zinsert.
Qed.

(** [Bitmap::append] returns the in-place union of the two bitmaps. *)
Theorem append_union b1 b2 l1 l2 :
  is_bits b1 l1 → is_bits b2 l2 →
  ∃ b, append b1 b2 = Ret b ∧ bm_equiv b (set_union b1 b2).
Proof.
  intros H1 H2. unfold append. rewrite (for_each_bit_fold _ _ (λ bit self, on self bit) _ H2).
  eexists; split; [done|]. pose proof (foldl_on_bits _ _ l2 H1 (bits_ok _ _ H2)) as Hb.
  intros i Hi. apply eq_bool_prop_intro. rewrite !Is_true_true.
  rewrite (is_bits_mem _ _ i Hb Hi), (is_bits_mem _ _ i (is_bits_or _ _ _ _ H1 H2) Hi).
  by rewrite elem_of_foldl_zinsert, elem_of_zsort, elem_of_app.
Qed.

Lemma str_bits b l :
  is_bits b l → Forall (λ x, x < INT_MAX) l →
  ∃ s b', str b = Some s ∧ Bitmap_of_string s = Ret b' ∧ is_bits b' l.
Proof.
  intros Hb Hmax. pose proof (bits_ok _ _ Hb) as Hok. pose proof (bits_sorted _ _ Hb) as Hs.
  destruct (print_parse_ranges l Hs) as (rs & Hfind & Hparse).
  { rewrite Forall_forall in Hok. rewrite Forall_forall in Hmax. apply Forall_forall.
    intros x Hx. specialize (Hok x Hx). specialize (Hmax x Hx). unfold index_ok in Hok. lia. }
  unfold str, vec. rewrite (foreach_spec _ _ Hb), Hfind. eexists _, _. split; [done|].
  unfold Bitmap_of_string. rewrite Hparse. split; [done|].
  rewrite <- (foldl_zinsert_sorted l Hs) at 2.
  rewrite (foldl_ext _ (λ b x, on b x)); [apply foldl_on_bits; [apply is_bits_alloc|done]|].
  intros a x Hx. rewrite u32_small; [done|].
  apply (is_bits_bound _ _ _ Hb) in Hx. unfold index_ok in Hx. lia.
Qed.

(** [Bitmap(b.str())] is [b] again: the textual form of a bitmap with
    indexes below INT_MAX loses nothing. *)
Theorem str_roundtrip b l :
  is_bits b l → Forall (λ x, x < INT_MAX) l →
  ∃ s b', str b = Some s ∧ Bitmap_of_string s = Ret b' ∧ bm_equiv b' b.
Proof.
  intros Hb Hmax. destruct (str_bits b l Hb Hmax) as (s & b' & ? & ? & Hb').
  exists s, b'. split_and!; [done..|]. by eapply is_bits_equiv.
Qed.

(** ** pop and split *)
Lemma zremove_hd x l : zsorted (x :: l) → zremove x (x :: l) = l.
Proof.
  intros Hs. apply zsorted_ext; [by apply zsorted_zremove|by apply zsorted_cons in Hs as [? _]|].
  apply zsorted_cons in Hs as [_ Hlt]. intros y. rewrite elem_of_zremove, elem_of_cons.
  split; [naive_solver|]. intros Hy. specialize (Hlt y Hy). split; [lia|by right].
Qed.

Lemma zinsert_snoc x l : (∀ y, y ∈ l → y < x) → zinsert x l = l ++ [x].
Proof.
  induction l as [|y l IH]; intros Hlt; simpl; [done|].
  pose proof (Hlt y ltac:(set_solver)). destruct (Z.compare_spec x y); [lia..|].
  rewrite IH; [done|set_solver].
Qed.

Lemma pop_loop_spec n self rv l1 l2 prev :
  is_bits self l2 → is_bits rv l1 → (n ≤ length l2)%nat → -1 ≤ i32 prev →
  (∀ x, x ∈ l1 → x ≤ i32 prev) → (∀ x, x ∈ l2 → i32 prev < x) →
  ∃ rv' self', pop_loop n self rv prev = (rv', self') ∧
    is_bits rv' (l1 ++ take n l2) ∧ is_bits self' (drop n l2).
Proof.
  revert self rv l1 l2 prev. induction n as [|n IH]; intros self rv l1 l2 prev Hs Hr Hn Hp H1 H2.
  { eexists _, _. rewrite app_nil_r. done. }
  destruct l2 as [|x l2]; simpl in *; [lia|].
  destruct (next_walk self [] x l2 (i32 prev)) as [-> Hx]; [done|done|split; [done|apply H2; set_solver]|].
  pose proof Hx as Hx'. unfold index_ok in Hx'.
  pose proof (bits_sorted _ _ Hs) as Hsort. pose proof (proj1 (zsorted_cons _ _) Hsort) as [_ Hlt].
  rewrite u32_small by lia.
  destruct (IH (off self x) (on rv x) (l1 ++ [x]) l2 x) as (rv' & self' & -> & Hrv & Hself);
    rewrite ?i32_small by lia; [..|lia| | |].
  - apply (is_bits_clr _ _ x) in Hs; [|lia]. by rewrite zremove_hd in Hs.
  - apply (is_bits_set _ _ x) in Hr; [|done]. rewrite zinsert_snoc in Hr; [done|].
    intros y Hy. specialize (H1 y Hy). specialize (H2 x ltac:(set_solver)). lia.
  - lia.
  - intros y. rewrite elem_of_app, list_elem_of_singleton. intros [Hy| ->]; [|lia].
    specialize (H1 y Hy). specialize (H2 x ltac:(set_solver)). lia.
  - done.
  - eexists _, _. split_and!; [done| |done]. by rewrite <- app_assoc in Hrv.
Qed.

Lemma pop_bits b l n :
  is_bits b l → (n ≤ length l)%nat →
  ∃ rv b', pop b (Z.of_nat n) = Ret (rv, b') ∧ is_bits rv (take n l) ∧ is_bits b' (drop n l).
Proof.
  intros Hb Hn. unfold pop. rewrite (weight_bits _ _ Hb). simpl.
  rewrite (proj2 (Z.leb_le (Z.of_nat n) (Z.of_nat (length l)))) by lia. simpl. rewrite Nat2Z.id.
  destruct (pop_loop_spec n b Bitmap_new [] l (-1)) as (rv & b' & -> & Hrv & Hb');
    [done|apply is_bits_alloc|done|done|set_solver| |by eexists _, _].
  intros x Hx%(is_bits_bound _ _ _ Hb). unfold index_ok in Hx. rewrite i32_small; lia.
Qed.

(** [Bitmap::pop(n)] transfers exactly the [n] lowest set indexes to the
    returned bitmap and leaves the others; asking for more bits than are set
    aborts. *)
Theorem pop_spec b l n :
  is_bits b l → 0 ≤ n →
  if bool_decide (n ≤ Z.of_nat (length l))
  then ∃ rv b', pop b n = Ret (rv, b') ∧
         is_bits rv (take (Z.to_nat n) l) ∧ is_bits b' (drop (Z.to_nat n) l)
  else ∃ why, pop b n = Abort why.
Proof.
  intros Hb Hn. case_bool_decide as Hle.
  - pose proof (pop_bits b l (Z.to_nat n) Hb) as Hpop. rewrite Z2Nat.id in Hpop by done.
    apply Hpop. lia.
  - unfold pop. rewrite (weight_bits _ _ Hb). simpl.
    rewrite (proj2 (Z.leb_gt n (Z.of_nat (length l)))) by lia. by eexists.
Qed.

(** The sizes of the pieces [split] cuts: the first [rem] get one more bit. *)
Definition split_sizes (n : nat) (i div rem : Z) : list Z :=
  (λ k, div + (if k <? rem then 1 else 0)) <$> seqZ i (Z.of_nat n).

Lemma split_sizes_cons n i div rem :
  split_sizes (S n) i div rem = div + (if i <? rem then 1 else 0) :: split_sizes n (i + 1) div rem.
Proof.
  unfold split_sizes. rewrite seqZ_cons by lia. rewrite fmap_cons. do 3 f_equal; lia.
Qed.

Lemma sum_list_with_split n i div rem :
  0 ≤ i → 0 ≤ rem ≤ i + Z.of_nat n → 0 ≤ div →
  foldr Z.add 0 (split_sizes n i div rem) = Z.of_nat n * div + Z.max 0 (rem - i).
Proof.
  revert i. induction n as [|n IH]; intros i Hi Hr Hd; [unfold split_sizes; simpl; lia|].
  rewrite split_sizes_cons. cbn [foldr]. rewrite IH by lia. destruct (Z.ltb_spec i rem); lia.
Qed.

Lemma split_loop_spec n i div rem copy l v :
  is_bits copy l → 0 ≤ div → 0 ≤ rem →
  foldr Z.add 0 (split_sizes n i div rem) = Z.of_nat (length l) →
  ∃ bs ls, split_loop n i div rem copy v = Ret (v ++ bs) ∧ Forall2 is_bits bs ls ∧
    concat ls = l ∧ Forall2 (λ c k, Z.of_nat (length c) = k) ls (split_sizes n i div rem).
Proof.
  revert i copy l v. induction n as [|n IH]; intros i copy l v Hc Hd Hr Hsum.
  { exists [], []. destruct l; [|done]. rewrite app_nil_r. by repeat constructor. }
  rewrite split_sizes_cons in Hsum |- *. cbn [split_loop foldr] in Hsum |- *.
  set (count := div + (if i <? rem then 1 else 0)) in *.
  assert (0 ≤ count) as Hcount by (subst count; destruct (i <? rem); lia).
  assert (0 ≤ foldr Z.add 0 (split_sizes n (i + 1) div rem)) as Hrest.
  { apply sum_nonneg, Forall_fmap, Forall_true. intros k. simpl. destruct (k <? rem); lia. }
  destruct (Z.eqb_spec count 0) as [E|E]; simpl.
  - destruct (IH (i + 1) copy l (v ++ [Bitmap_new]) Hc Hd Hr) as (bs & ls & -> & Hbs & Hl & Hk);
      [lia|].
    exists (Bitmap_new :: bs), ([] :: ls). rewrite <- app_assoc.
    split_and!; [done|constructor; [apply is_bits_alloc|done]|done|].
    constructor; [simpl; lia|done].
  - destruct (pop_bits copy l (Z.to_nat count) Hc) as (rv & c' & Hpop & Hrv & Hc'); [lia|].
    rewrite Z2Nat.id in Hpop by done. rewrite Hpop. simpl.
    destruct (IH (i + 1) c' (drop (Z.to_nat count) l) (v ++ [rv]) Hc' Hd Hr) as (bs & ls & -> & Hbs & Hl & Hk).
    { rewrite length_drop. lia. }
    exists (rv :: bs), (take (Z.to_nat count) l :: ls). rewrite <- app_assoc.
    split_and!; [done|by constructor| |].
    + simpl. rewrite Hl. apply take_drop.
    + constructor; [rewrite length_take; lia|done].
Qed.

(** [Bitmap::split(nways)] cuts the bitmap into [nways] bitmaps whose
    indexes, concatenated, are exactly those of the source; piece [i] has
    [weight / nways] indexes, plus one when [i < weight % nways]. *)
Theorem split_spec b l nways :
  is_bits b l → 0 < nways →
  let w := Z.of_nat (length l) in
  ∃ bs ls, split b nways = Ret bs ∧ Forall2 is_bits bs ls ∧ concat ls = l ∧
    Forall2 (λ c k, Z.of_nat (length c) = k) ls
      ((λ i, w / nways + (if i <? w mod nways then 1 else 0)) <$> seqZ 0 nways).
Proof.
  intros Hb Hn w. unfold split. rewrite (proj2 (Z.ltb_lt 0 nways)) by done. simpl.
  rewrite (weight_bits _ _ Hb). simpl. rewrite Z.quot_div_nonneg, Z.rem_mod_nonneg by lia.
  pose proof (Z.mod_pos_bound (Z.of_nat (length l)) nways Hn) as Hmod.
  pose proof (Z.div_pos (Z.of_nat (length l)) nways ltac:(lia) Hn) as Hdiv.
  destruct (split_loop_spec (Z.to_nat nways) 0 (w / nways) (w mod nways) b l []) as (bs & ls & Hsp & Hbs & Hl & Hk);
    [done|done|subst w; lia| |].
  - rewrite sum_list_with_split; rewrite ?Z2Nat.id by lia; [|subst w; lia..].
    pose proof (Z.div_mod w nways ltac:(lia)). subst w. lia.
  - exists bs, ls. unfold split_sizes in Hk. rewrite Z2Nat.id in Hk by lia. done.
Qed.

(** ** Round robin *)

(** [rr_at l r k]: the provider over the indexes [l] has just returned
    position [k - 1] ([k = 0]: nothing returned since construction or reset). *)
Definition rr_at (l : list Z) (r : RoundRobinCpuSet B) (k : nat) : Prop :=
  is_bits (m_bits r) l ∧ m_index r = Z.of_nat k - 1 ∧
  match k with O => m_prev r = -1 | S j => l !! j = Some (m_prev r) end.

Lemma hwloc_next_at b l k prev :
  is_bits b l → match k with O => prev = -1 | S j => l !! j = Some prev end →
  hwloc_bitmap_next b prev = default (-1) (l !! k).
Proof.
  intros Hb Hk. pose proof (bits_sorted _ _ Hb) as Hs.
  assert (-1 ≤ prev) as Hp.
  { destruct k as [|j]; [lia|]. apply list_elem_of_lookup_2 in Hk.
    apply (is_bits_bound _ _ _ Hb) in Hk. unfold index_ok in Hk. lia. }
  rewrite (next_spec _ _ _ Hb Hp). rewrite <- (take_drop k l) at 1.
  rewrite <- (take_drop k l) in Hs. apply zsorted_app in Hs as (Hs1 & Hs2 & Hlt).
  rewrite first_above_skip.
  - rewrite <- (Nat.add_0_r k) at 2. rewrite <- lookup_drop.
    destruct (drop k l) as [|x rest] eqn:E; [done|]. simpl.
    rewrite bool_decide_true; [done|]. destruct k as [|j].
    + subst prev. rewrite drop_0 in E. subst l.
      pose proof (is_bits_bound _ _ x Hb ltac:(set_solver)) as Hx. unfold index_ok in Hx. lia.
    + apply Hlt; [|set_solver]. apply list_elem_of_lookup. exists j. rewrite lookup_take.
      by rewrite decide_True by lia.
  - destruct k as [|j]; [by rewrite take_0|].
    rewrite (take_S_r _ _ _ Hk) in Hs1 |- *. apply zsorted_app in Hs1 as (_ & _ & Hlt1).
    apply Forall_app. split; [|by apply Forall_singleton].
    apply Forall_forall. intros y Hy. specialize (Hlt1 y prev Hy ltac:(set_solver)). lia.
Qed.

Lemma rr_next_at l r k :
  rr_at l r k → (k ≤ length l)%nat → l ≠ [] →
  let j := (k mod length l)%nat in
  ∃ id r', l !! j = Some id ∧ rr_at l r' (S j) ∧
    ∀ fuel, (2 ≤ fuel)%nat → rr_next fuel r = Some (Z.of_nat j, id, r').
Proof.
  intros (Hb & Hi & Hp) Hk Hne j. assert (0 < length l)%nat by (destruct l; [done|simpl; lia]).
  assert (∀ r0 n, rr_at l r0 n → (n < length l)%nat → ∃ id r', l !! n = Some id ∧ rr_at l r' (S n) ∧
    ∀ fuel, (1 ≤ fuel)%nat → rr_next fuel r0 = Some (Z.of_nat n, id, r')) as Hstep.
  { intros r0 n (Hb0 & Hi0 & Hp0) Hn. destruct (lookup_lt_is_Some_2 l n Hn) as [id Hid].
    exists id, {| m_bits := m_bits r0; m_prev := id; m_index := m_index r0 + 1 |}.
    split_and!; [done|split_and!; simpl; [done|lia|done]|].
    intros [|fuel] Hf; [lia|]. simpl. rewrite (hwloc_next_at _ _ _ _ Hb0 Hp0), Hid. simpl.
    apply list_elem_of_lookup_2 in Hid. apply (is_bits_bound _ _ _ Hb) in Hid. unfold index_ok in Hid.
    rewrite (proj2 (Z.eqb_neq id (-1))) by lia. by replace (m_index r0 + 1) with (Z.of_nat n) by lia. }
  destruct (decide (k = length l)) as [->|].
  - subst j. rewrite Nat.Div0.mod_same.
    destruct (Hstep {| m_bits := m_bits r; m_prev := -1; m_index := -1 |} 0%nat) as (id & r' & ? & ? & Hf);
      [split_and!; [done|done|done]|done|].
    exists id, r'. split_and!; [done..|]. intros [|fuel] Hfuel; [lia|]. simpl.
    rewrite (hwloc_next_at _ _ _ _ Hb Hp), lookup_ge_None_2 by lia. simpl. apply Hf. lia.
  - subst j. rewrite Nat.mod_small by lia.
    destruct (Hstep r k) as (id & r' & ? & ? & Hf); [done|lia|].
    exists id, r'. split_and!; [done..|]. intros. apply Hf. lia.
Qed.

(** [n] consecutive calls, each given fuel 2. *)
Fixpoint rr_take (n : nat) (r : RoundRobinCpuSet B) : option (list (Z * Z)) :=
  match n with
  | O => Some []
  | S n => '(i, id, r') ← rr_next 2 r; rest ← rr_take n r'; Some ((i, id) :: rest)
  end.

Lemma rr_take_at n l r k :
  rr_at l r k → (k ≤ length l)%nat → l ≠ [] →
  ∃ out, rr_take n r = Some out ∧ length out = n ∧
    ∀ j, (j < n)%nat → ∃ id, l !! ((k + j) mod length l)%nat = Some id ∧
      out !! j = Some (Z.of_nat ((k + j) mod length l), id).
Proof.
  revert r k. induction n as [|n IH]; intros r k Hr Hk Hne.
  { exists []. split_and!; [done..|]. lia. }
  assert (0 < length l)%nat as Hpos by (destruct l; [done|simpl; lia]).
  destruct (rr_next_at l r k Hr Hk Hne) as (id & r' & Hid & Hr' & Hf).
  pose proof (Nat.mod_upper_bound k (length l) ltac:(lia)) as Hlt.
  destruct (IH r' (S (k mod length l))) as (out & Hout & Hlen & Hall); [done|lia|done|].
  cbn [rr_take]. rewrite Hf by lia. cbn [mbind option_bind]. rewrite Hout.
  eexists. split_and!; [done|simpl; lia|]. intros [|j] Hj.
  - rewrite Nat.add_0_r. by exists id.
  - destruct (Hall j) as (id' & Hl & Ho); [lia|]. exists id'. simpl.
    replace ((S (k mod length l) + j) mod length l)%nat with ((k + S j) mod length l)%nat in Hl, Ho; [done|].
    replace (S (k mod length l) + j)%nat with (k mod length l + S j)%nat by lia.
    by rewrite Nat.Div0.add_mod_idemp_l.
Qed.

(** Over a non-empty cpu set every call of [RoundRobinCpuSet::next]
    returns (its recursion is at most one level deep), and the [j]-th call
    after construction returns position [j mod n] with the cpu id at that
    position: the set is served cyclically and in order. *)
Theorem round_robin_cyclic b l n :
  is_bits b l → l ≠ [] →
  ∃ out, rr_take n (RoundRobinCpuSet_new b) = Some out ∧ length out = n ∧
    ∀ j, (j < n)%nat → ∃ id, l !! (j mod length l)%nat = Some id ∧
      out !! j = Some (Z.of_nat (j mod length l), id).
Proof. intros Hb Hne. apply (rr_take_at n l _ 0); [done|lia|done]. Qed.

(** Over an empty cpu set [RoundRobinCpuSet::next] never returns: no
    recursion depth is enough. *)
Theorem round_robin_empty_diverges b fuel :
  is_bits b [] → rr_next fuel (RoundRobinCpuSet_new b) = None.
Proof.
  intros Hb. cut (∀ k, rr_next fuel {| m_bits := b; m_prev := -1; m_index := k |} = None);
    [intros Hk; apply Hk|].
  induction fuel as [|fuel IH]; intros k; simpl; [done|].
  rewrite (next_spec _ _ _ Hb) by lia. simpl. apply IH.
Qed.

(** ** Shared-resource map *)
Definition srb_bits (m : gmap Z B) (f : Z → list Z) : Prop :=
  ∀ i, 0 ≤ i → is_bits (srb_bitmap m i) (f i).

Lemma srb_on_bits m f obj bit :
  srb_bits m f → index_ok obj → 0 ≤ bit →
  srb_bits (srb_on obj bit m) (λ i, if bool_decide (i = bit) then zinsert obj (f i) else f i).
Proof.
  intros Hm Ho Hbit i Hi. unfold srb_bitmap, srb_on. case_bool_decide as E.
  - subst. rewrite lookup_insert_eq. apply is_bits_set; [done|]. specialize (Hm bit Hi).
    unfold srb_bitmap in Hm. by destruct (m !! bit).
  - rewrite lookup_insert_ne by done. apply (Hm i Hi).
Qed.

Lemma srb_foldl_bits m f obj l :
  srb_bits m f → index_ok obj → zsorted l → Forall index_ok l →
  srb_bits (foldl (λ m x, srb_on obj x m) m l)
    (λ i, if bool_decide (i ∈ l) then zinsert obj (f i) else f i).
Proof.
  revert m f. induction l as [|x l IH]; intros m f Hm Ho Hs Hok; simpl.
  { intros i Hi. by apply Hm. }
  apply zsorted_cons in Hs as [Hs Hlt]. apply Forall_cons in Hok as [Hx Hok].
  intros i Hi. eapply (IH _ _ (srb_on_bits _ _ obj x Hm Ho ltac:(unfold index_ok in Hx; lia)) Ho Hs Hok) in Hi.
  match type of Hi with is_bits _ ?x1 =>
    match goal with |- is_bits _ ?x2 => replace x2 with x1; [exact Hi|] end end. cbv beta.
  destruct (decide (i = x)) as [->|].
  - rewrite (bool_decide_true (x ∈ x :: l)), (bool_decide_true (x = x)) by set_solver.
    rewrite bool_decide_false; [done|]. intros Hin. specialize (Hlt x Hin). lia.
  - rewrite (bool_decide_false (i = x)) by done. by rewrite (bool_decide_ext (i ∈ x :: l) (i ∈ l)) by set_solver.
Qed.

(** [SharedResourceBitMap::insert] adds the object to the bitmap of every
    bit set in its argument and changes no other bit's objects;
    [object_count] is then the number of objects of the bit. *)
Theorem srb_insert_spec (m : gmap Z B) (f : Z → list Z) b l obj :
  srb_bits m f → is_bits b l → index_ok obj →
  ∃ m', srb_insert m b obj = Ret m' ∧
    srb_bits m' (λ i, if bool_decide (i ∈ l) then zinsert obj (f i) else f i) ∧
    ∀ i, 0 ≤ i → object_count m' i =
      Ret (Z.of_nat (length (if bool_decide (i ∈ l) then zinsert obj (f i) else f i))).
Proof.
  intros Hm Hb Ho. unfold srb_insert. rewrite (for_each_bit_fold _ _ (srb_on obj) m Hb).
  eexists. split; [done|].
  pose proof (srb_foldl_bits m f obj l Hm Ho (bits_sorted _ _ Hb) (bits_ok _ _ Hb)) as Hm'.
  split; [done|]. intros i Hi. specialize (Hm' i Hi). simpl in Hm'.
  unfold object_count, for_objects. unfold srb_bitmap in Hm'.
  assert (∀ l' : list Z, foldl (λ count _, count + 1) 0 l' = Z.of_nat (length l')) as Hcount.
  { intros l'. cut (∀ c, foldl (λ count (_ : Z), count + 1) c l' = c + Z.of_nat (length l'));
      [intros Hc; by rewrite Hc|]. induction l' as [|x l' IH]; intros c; simpl; [lia|]. rewrite IH. lia. }
  destruct (foldl _ m l !! i) as [b'|].
  - rewrite (for_each_bit_fold _ _ (λ _ count, count + 1) 0 Hm'). by rewrite Hcount.
  - apply (is_bits_fun _ [] _ is_bits_alloc) in Hm'. by rewrite <- Hm'.
Qed.
End theorems.

(** ** Witnesses, on the list implementation *)
Ltac solve_bits := apply is_bits_list; [repeat constructor|apply (bool_decide_unpack _); vm_compute; exact I].

#[export] Instance index_ok_dec i : Decision (index_ok i).
Proof. unfold index_ok. apply _. Defined.

Lemma append_union_witness :
  ∃ b, append [1; 4] [2; 4; 7] = Ret b ∧ bm_equiv b (set_union [1; 4] [2; 4; 7]).
Proof. apply (append_union [1; 4] [2; 4; 7] [1; 4] [2; 4; 7]); solve_bits. Defined.

Lemma str_roundtrip_witness :
  ∃ s b', str [0; 1; 2; 5; 8; 9] = Some s ∧ Bitmap_of_string s = Ret b' ∧ bm_equiv b' [0; 1; 2; 5; 8; 9].
Proof.
  apply (str_roundtrip [0; 1; 2; 5; 8; 9] [0; 1; 2; 5; 8; 9]); [solve_bits|].
  apply (bool_decide_unpack _); vm_compute; exact I.
Defined.

Lemma pop_spec_witness :
  ∃ rv b', pop [1; 3; 5; 9] 3 = Ret (rv, b') ∧ is_bits rv [1; 3; 5] ∧ is_bits b' [9].
Proof. apply (pop_spec [1; 3; 5; 9] [1; 3; 5; 9] 3); [solve_bits|lia]. Defined.

Lemma split_spec_witness :
  ∃ bs ls, split [0; 1; 2; 3; 4] 3 = Ret bs ∧ Forall2 is_bits bs ls ∧ concat ls = [0; 1; 2; 3; 4] ∧
    Forall2 (λ c k, Z.of_nat (length c) = k) ls [2; 2; 1].
Proof. apply (split_spec [0; 1; 2; 3; 4] [0; 1; 2; 3; 4] 3); [solve_bits|lia]. Defined.

Lemma round_robin_cyclic_witness :
  ∃ out, rr_take 5 (RoundRobinCpuSet_new [2; 4; 6]) = Some out ∧ length out = 5%nat ∧
    ∀ j, (j < 5)%nat → ∃ id, [2; 4; 6] !! (j mod 3)%nat = Some id ∧
      out !! j = Some (Z.of_nat (j mod 3), id).
Proof. apply (round_robin_cyclic [2; 4; 6] [2; 4; 6] 5); [solve_bits|done]. Defined.

Lemma round_robin_empty_diverges_witness : rr_next 100 (RoundRobinCpuSet_new []) = None.
Proof. apply (round_robin_empty_diverges [] 100); solve_bits. Defined.

Lemma srb_insert_spec_witness :
  ∃ m', srb_insert (∅ : gmap Z (list Z)) [0; 3] 7 = Ret m' ∧
    srb_bits m' (λ i, if bool_decide (i ∈ [0; 3]) then zinsert 7 [] else []) ∧
    ∀ i, 0 ≤ i → object_count m' i =
      Ret (Z.of_nat (length (if bool_decide (i ∈ [0; 3]) then zinsert 7 [] else []))).
Proof.
  apply (srb_insert_spec ∅ (λ _, []) [0; 3] [0; 3] 7); [|solve_bits|by compute; split].
  intros i Hi. apply (is_bits_alloc (B := list Z)).
Defined.
