(* ===== verification/Arena.v ===== *)
(** * The arena memory resource

    Models [include/srf/memory/resources/detail/arena.hpp] (blocks, first fit,
    coalescing, the global arena, per-thread arenas) and
    [include/srf/memory/resources/arena_resource.hpp].  A pointer is a [Z] with
    0 for null, a [std::size_t] a [Z] with its 64-bit wrap-around; a
    [std::set<block>] is its element sequence in iteration (address) order. *)
From S2P Require Import Prelude.
Local Open Scope Z_scope.

(** ** class block *)
Record block := mk_block { pointer_ : Z; size_ : Z }.

#[export] Instance block_eq_dec : EqDecision block.
Proof. solve_decision. Defined.

Definition minimum_superblock_size : Z := Z.shiftl 1 18.
Definition null_block : block := mk_block 0 0.

Definition is_valid (b : block) : bool := negb (pointer_ b =? 0).
Definition is_superblock (b : block) : bool := minimum_superblock_size <=? size_ b.
Definition is_contiguous_before (b blk : block) : bool := u64 (pointer_ b + size_ b) =? pointer_ blk.
Definition fits (b : block) (size : Z) : bool := size <=? size_ b.
Definition split (b : block) (size : Z) : block * block :=
  if size <? size_ b
  then (mk_block (pointer_ b) size, mk_block (u64 (pointer_ b + size)) (u64 (size_ b - size)))
  else (b, null_block).
Definition merge (b blk : block) : block := mk_block (pointer_ b) (u64 (size_ b + size_ blk)).
Definition block_lt (b blk : block) : bool := pointer_ b <? pointer_ blk.
Definition block_size_compare (lhs rhs : block) : bool := size_ lhs <? size_ rhs.

(** ** std::set<block>, ordered by [block_lt] *)

(** [lower_bound]: the elements before the iterator and from it on. *)
Fixpoint lower_bound (l : list block) (blk : block) : list block * list block :=
  match l with
  | [] => ([], [])
  | b :: l' =>
      if block_lt b blk then let '(before, after) := lower_bound l' blk in (b :: before, after)
      else ([], l)
  end.
(** [insert] / [emplace]: nothing happens when an equivalent key is present. *)
Definition set_insert (l : list block) (blk : block) : list block :=
  match lower_bound l blk with
  | (before, []) => before ++ [blk]
  | (before, b :: after) =>
      if block_lt blk b then before ++ blk :: b :: after else l
  end.
(** [erase(key)]. *)
Definition set_erase (l : list block) (blk : block) : list block :=
  match lower_bound l blk with
  | (before, b :: after) => if block_lt blk b then l else before ++ after
  | (before, []) => l
  end.

Definition total_block_size (blocks : list block) : Z :=
  foldl (λ lhs rhs, u64 (lhs + size_ rhs)) 0 blocks.

(** [find_if] with [fits]: elements before the match, the match, those after. *)
Fixpoint find_fit (l : list block) (size : Z) : option (list block * block * list block) :=
  match l with
  | [] => None
  | b :: l' =>
      if fits b size then Some ([], b, l')
      else '(before, m, after) ← find_fit l' size; Some (b :: before, m, after)
  end.

(** Returns the block (null when none fits) and the updated set. *)
Definition first_fit (free_blocks : list block) (size : Z) : block * list block :=
  match find_fit free_blocks size with
  | None => (null_block, free_blocks)
  | Some (before, blk, after) =>
      let free_blocks := before ++ after in
      if size <? size_ blk
      then let '(fst, snd) := split blk size in (fst, set_insert free_blocks snd)
      else (blk, free_blocks)
  end.

(** [end_read]: the bytes found where [coalesce_block] dereferences the
    past-the-end iterator, which it does whenever the set is empty. *)
Definition coalesce_block (end_read : block) (free_blocks : list block) (blk : block) : res (block * list block) :=
  if negb (is_valid blk) then Ret (blk, free_blocks)
  else
    let '(before, after) := lower_bound free_blocks blk in
    let previous := match last before, after with
                    | Some p, _ => p
                    | None, n :: _ => n
                    | None, [] => end_read
                    end in
    let merge_prev := is_contiguous_before previous blk in
    let merge_next := match after with n :: _ => is_contiguous_before blk n | [] => false end in
    (* the set without [*previous] *)
    let erase_previous := match last before, after with
                          | Some _, _ => Ret (removelast before, after)
                          | None, _ :: after' => Ret (before, after')
                          | None, [] => Undefined "erase(end())"
                          end in
    match merge_prev, after, merge_next with
    | true, n :: after', true =>
        let merged := merge (merge previous blk) n in
        match last before with
        | Some _ => Ret (merged, set_insert (removelast before ++ after') merged)
        | None => Undefined "iterator erased twice"
        end
    | true, _, _ =>
        let merged := merge previous blk in
        '(before, after) ← erase_previous;
        Ret (merged, set_insert (before ++ after) merged)
    | false, n :: after', true =>
        let merged := merge blk n in
        Ret (merged, set_insert (before ++ after') merged)
    | false, _, _ => Ret (blk, set_insert free_blocks blk)
    end.

(** ** class global_arena *)

(** The sets blocks are coalesced into. *)
Inductive free_set := GlobalSet | ThreadSet.

Section arena.
(** The bytes read past the end of an empty free set when a block is coalesced
    into it: nothing is assumed of them. *)
Variable end_read : free_set → block → block.
(** The upstream resource (third-party): given the blocks it has outstanding
    for this arena, an allocation returns a pointer or throws. *)
Variable upstream_allocate : list block → Z → res Z.
(** [rmm::detail::align_up] / [align_down] at CUDA_ALLOCATION_ALIGNMENT. *)
Variables align_up align_down : Z → Z.

Record global_arena := mk_global {
  maximum_size_ : Z;
  current_size_ : Z;
  free_blocks_ : list block;
  upstream_blocks_ : list block;
}.

Definition default_size : Z := 2 ^ 64 - 1.
Definition reserved_size : Z := Z.shiftl 1 26.

Definition global_expand_arena (g : global_arena) (size : Z) : res (block * global_arena) :=
  if 0 <? size then
    p ← upstream_allocate (upstream_blocks_ g) size;
    let blk := mk_block p size in
    Ret (blk, mk_global (maximum_size_ g) (u64 (current_size_ g + size)) (free_blocks_ g)
                (upstream_blocks_ g ++ [blk]))
  else Ret (null_block, g).

(** The constructor; [mem_info] is the result of [cudaMemGetInfo], the pair
    (free, total). *)
Definition global_arena_new (upstream_is_null : bool) (initial_size maximum_size : Z)
    (mem_info : Z * Z) : res global_arena :=
  throw_if upstream_is_null "Unexpected null upstream pointer." ;;
  throw_if (negb ((initial_size =? default_size) || (initial_size =? align_up initial_size)))
    "Error, Initial arena size required to be a multiple of 256 bytes" ;;
  throw_if (negb ((maximum_size =? default_size) || (maximum_size =? align_up maximum_size)))
    "Error, Maximum arena size required to be a multiple of 256 bytes" ;;
  let '(free, total) := mem_info in
  let initial := if initial_size =? default_size then align_up (Z.min free (total / 2)) else initial_size in
  let maximum := if maximum_size =? default_size then u64 (align_down free - reserved_size) else maximum_size in
  throw_if (negb (initial <=? maximum)) "Initial arena size exceeds the maximum pool size!" ;;
  '(blk, g) ← global_expand_arena (mk_global maximum 0 [] []) initial;
  Ret (mk_global (maximum_size_ g) (current_size_ g) (set_insert (free_blocks_ g) blk) (upstream_blocks_ g)).

Definition size_to_grow (g : global_arena) (size : Z) : Z :=
  if maximum_size_ g <? u64 (current_size_ g + size) then 0
  else u64 (maximum_size_ g - current_size_ g).

Definition with_free (g : global_arena) (free : list block) : global_arena :=
  mk_global (maximum_size_ g) (current_size_ g) free (upstream_blocks_ g).

Definition global_get_block (g : global_arena) (size : Z) : res (block * global_arena) :=
  let '(blk, free) := first_fit (free_blocks_ g) size in
  if is_valid blk then Ret (blk, with_free g free)
  else
    '(upstream_block, g) ← global_expand_arena (with_free g free) (size_to_grow g size);
    '(_, free) ← coalesce_block (end_read GlobalSet upstream_block) (free_blocks_ g) upstream_block;
    let '(blk, free) := first_fit free size in
    Ret (blk, with_free g free).

Definition global_allocate (g : global_arena) (bytes : Z) : res (block * global_arena) :=
  global_get_block g bytes.

Definition global_deallocate (g : global_arena) (blk : block) : res global_arena :=
  '(_, free) ← coalesce_block (end_read GlobalSet blk) (free_blocks_ g) blk;
  Ret (with_free g free).

(** The overload taking the free blocks of a dying arena. *)
Fixpoint global_deallocate_set (g : global_arena) (free_blocks : list block) : res global_arena :=
  match free_blocks with
  | [] => Ret g
  | blk :: free_blocks => g ← global_deallocate g blk; global_deallocate_set g free_blocks
  end.

(** The blocks the destructor returns to the upstream resource. *)
Definition global_destroy (g : global_arena) : list (Z * Z) :=
  (λ blk, (pointer_ blk, size_ blk)) <$> upstream_blocks_ g.

(** ** class arena: its free set, and the shared global arena *)
Definition max_free_blocks : Z := 16.

Definition arena_expand_arena (g : global_arena) (size : Z) : res (block * global_arena) :=
  global_allocate g (Z.max size minimum_superblock_size).

Definition arena_grow_and_get (g : global_arena) (free : list block) (size : Z) :
    res (block * global_arena * list block) :=
  '(superblock, g) ← arena_expand_arena g size;
  if is_valid superblock then
    '(_, free) ← coalesce_block (end_read ThreadSet superblock) free superblock;
    let '(blk, free) := first_fit free size in
    Ret (blk, g, free)
  else Ret (superblock, g, free).

Definition arena_get_block (g : global_arena) (free : list block) (size : Z) :
    res (block * global_arena * list block) :=
  if size <? minimum_superblock_size then
    let '(blk, free) := first_fit free size in
    if is_valid blk then Ret (blk, g, free) else arena_grow_and_get g free size
  else arena_grow_and_get g free size.

Definition arena_allocate (g : global_arena) (free : list block) (bytes : Z) :
    res (Z * global_arena * list block) :=
  '(blk, g, free) ← arena_get_block g free bytes;
  Ret (pointer_ blk, g, free).

Definition shrink_arena (g : global_arena) (free : list block) (blk : block) :
    res (global_arena * list block) :=
  if is_superblock blk || (max_free_blocks <? Z.of_nat (length free)) then
    g ← global_deallocate g blk;
    Ret (g, set_erase free blk)
  else Ret (g, free).

Definition arena_deallocate (g : global_arena) (free : list block) (ptr bytes : Z) :
    res (global_arena * list block) :=
  '(merged, free) ← coalesce_block (end_read ThreadSet (mk_block ptr bytes)) free (mk_block ptr bytes);
  shrink_arena g free merged.

(** The free set afterwards is empty. *)
Definition arena_clean (g : global_arena) (free : list block) : res (global_arena * list block) :=
  g ← global_deallocate_set g free;
  Ret (g, []).

(** ** class arena_resource *)
Record arena_resource := mk_resource {
  global_arena_ : global_arena;
  thread_arenas_ : gmap Z (list block);   (* by thread id *)
}.

(** [get_thread_arena]: an absent thread gets a fresh, empty arena. *)
Definition get_thread_arena (r : arena_resource) (tid : Z) : list block :=
  default [] (thread_arenas_ r !! tid).
Definition put_thread_arena (r : arena_resource) (tid : Z) (g : global_arena) (free : list block) : arena_resource :=
  mk_resource g (<[tid := free]> (thread_arenas_ r)).

Fixpoint defragment_loop (tids : list Z) (r : arena_resource) : res arena_resource :=
  match tids with
  | [] => Ret r
  | tid :: tids =>
      '(g, free) ← arena_clean (global_arena_ r) (get_thread_arena r tid);
      defragment_loop tids (put_thread_arena r tid g free)
  end.
(** Cleans every thread arena, in thread-id order. *)
Definition defragment (r : arena_resource) : res arena_resource :=
  defragment_loop (merge_sort Z.le (map_to_list (thread_arenas_ r)).*1) r.

Definition do_allocate (r : arena_resource) (tid bytes : Z) : res (Z * arena_resource) :=
  if bytes <=? 0 then Ret (0, r)
  else
    let bytes := align_up bytes in
    '(pointer, g, free) ← arena_allocate (global_arena_ r) (get_thread_arena r tid) bytes;
    let r := put_thread_arena r tid g free in
    if pointer =? 0 then
      r ← defragment r;
      '(pointer, g, free) ← arena_allocate (global_arena_ r) (get_thread_arena r tid) bytes;
      check (negb (pointer =? 0)) "Maximum pool size exceeded" ;;
      Ret (pointer, put_thread_arena r tid g free)
    else Ret (pointer, r).

Definition do_deallocate (r : arena_resource) (tid ptr bytes : Z) : res arena_resource :=
  if (ptr =? 0) || (bytes <=? 0) then Ret r
  else
    '(g, free) ← arena_deallocate (global_arena_ r) (get_thread_arena r tid) ptr (align_up bytes);
    Ret (put_thread_arena r tid g free).

(** [~arena_cleaner], run when a thread that used the resource exits; the
    arena itself stays in [thread_arenas_]. *)
Definition thread_exit (r : arena_resource) (tid : Z) : res arena_resource :=
  match thread_arenas_ r !! tid with
  | None => Ret r
  | Some free =>
      '(g, free) ← arena_clean (global_arena_ r) free;
      Ret (put_thread_arena r tid g free)
  end.
End arena.

(** ** Coverage: how many blocks of a list contain an address *)
Definition cov1 (b : block) (a : Z) : Z :=
  if bool_decide (pointer_ b ≤ a < pointer_ b + size_ b) then 1 else 0.
Definition cov (l : list block) (a : Z) : Z := foldr (λ b n, cov1 b a + n) 0 l.

(** A block that stands for real memory. *)
Definition block_ok (b : block) : Prop :=
  0 < pointer_ b ∧ 0 < size_ b ∧ pointer_ b + size_ b ≤ 2 ^ 64.

(** The blocks of a free set: in address order, disjoint, never adjacent. *)
Definition before_gap (b1 b2 : block) : Prop := pointer_ b1 + size_ b1 < pointer_ b2.
Definition wf_blocks (l : list block) : Prop :=
  StronglySorted before_gap l ∧ Forall block_ok l.

Lemma cov_app l1 l2 a : cov (l1 ++ l2) a = cov l1 a + cov l2 a.
Proof. induction l1 as [|b l1 IH]; simpl; [done|]. lia. Qed.
Lemma cov_cons b l a : cov (b :: l) a = cov1 b a + cov l a.
Proof. done. Qed.
Lemma cov1_nonneg b a : 0 ≤ cov1 b a.
Proof. unfold cov1. case_bool_decide; lia. Qed.
Lemma cov_nonneg l a : 0 ≤ cov l a.
Proof. induction l as [|b l IH]; simpl; [done|]. pose proof (cov1_nonneg b a). lia. Qed.
Lemma cov1_in b a : pointer_ b ≤ a < pointer_ b + size_ b → cov1 b a = 1.
Proof. intros. unfold cov1. by rewrite bool_decide_true. Qed.
Lemma cov_perm l1 l2 a : l1 ≡ₚ l2 → cov l1 a = cov l2 a.
Proof. induction 1; simpl; lia. Qed.

Create HintDb cov.
#[export] Hint Rewrite cov_app cov_cons : cov.
Ltac cov_simpl := autorewrite with cov in *; cbn [cov foldr] in *.

(** Two blocks that cover no address twice do not overlap. *)
Lemma cov1_disjoint b1 b2 :
  0 < size_ b1 → 0 < size_ b2 → (∀ a, cov1 b1 a + cov1 b2 a ≤ 1) →
  pointer_ b1 + size_ b1 ≤ pointer_ b2 ∨ pointer_ b2 + size_ b2 ≤ pointer_ b1.
Proof.
  intros H1 H2 Hc. destruct (decide (pointer_ b1 + size_ b1 ≤ pointer_ b2)); [by left|].
  destruct (decide (pointer_ b2 + size_ b2 ≤ pointer_ b1)); [by right|].
  specialize (Hc (Z.max (pointer_ b1) (pointer_ b2))).
  rewrite !cov1_in in Hc by lia. lia.
Qed.

Lemma cov_elem b l a : b ∈ l → cov1 b a ≤ cov l a.
Proof.
  induction l as [|b' l IH]; [set_solver|]. simpl. pose proof (cov1_nonneg b' a). pose proof (cov_nonneg l a).
  intros [->|Hb]%elem_of_cons; [lia|]. specialize (IH Hb). lia.
Qed.

Lemma cov_two l i j b1 b2 a :
  l !! i = Some b1 → l !! j = Some b2 → i ≠ j → cov1 b1 a + cov1 b2 a ≤ cov l a.
Proof.
  revert i j. induction l as [|b l IH]; intros i j H1 H2 Hij; [done|]. simpl.
  pose proof (cov1_nonneg b a). destruct i as [|i], j as [|j]; simplify_eq/=.
  - apply list_elem_of_lookup_2 in H2. pose proof (cov_elem b2 l a H2). lia.
  - apply list_elem_of_lookup_2 in H1. pose proof (cov_elem b1 l a H1). lia.
  - pose proof (IH i j H1 H2 ltac:(congruence)). lia.
Qed.

Lemma cov_pos_elem l a : 0 < cov l a → ∃ u, u ∈ l ∧ pointer_ u ≤ a < pointer_ u + size_ u.
Proof.
  induction l as [|b l IH]; simpl; [lia|]. intros Hpos.
  unfold cov1 in Hpos. case_bool_decide; [exists b; set_solver|].
  destruct IH as (u & Hu & ?); [lia|]. exists u. set_solver.
Qed.

Lemma wf_app l1 l2 :
  wf_blocks (l1 ++ l2) ↔ wf_blocks l1 ∧ wf_blocks l2 ∧ ∀ x y, x ∈ l1 → y ∈ l2 → before_gap x y.
Proof.
  unfold wf_blocks. rewrite Forall_app. induction l1 as [|b l1 IH]; simpl.
  { split; [intros [? [??]]; split_and!; [constructor|constructor|done|done|set_solver]|naive_solver]. }
  rewrite !Forall_cons. split.
  - intros (Hs & [Hb H1] & H2). inversion Hs as [|?? Hs' Hf]; subst.
    apply Forall_app in Hf as [Hf1 Hf2]. destruct IH as [(? & ? & Hlt) _]; [done|].
    split_and!; [by constructor; naive_solver|done|done|naive_solver|naive_solver|].
    intros x y [->|Hx]%elem_of_cons Hy; [|by apply Hlt]. rewrite Forall_forall in Hf2. by apply Hf2.
  - intros ([Hs [Hb H1]] & [Hs2 H2] & Hlt). inversion Hs as [|?? Hs' Hf]; subst.
    split_and!; [|done|done|done]. constructor.
    + apply IH. split_and!; [done|done|done|done|]. intros. apply Hlt; set_solver.
    + apply Forall_app. split; [done|]. apply Forall_forall. intros y Hy. apply Hlt; set_solver.
Qed.

Lemma wf_singleton b : wf_blocks [b] ↔ block_ok b.
Proof.
  unfold wf_blocks. rewrite Forall_singleton. split; [naive_solver|].
  intros Hb. split; [|done]. constructor; constructor.
Qed.

Lemma wf_nil : wf_blocks [].
Proof. split; constructor. Qed.

Lemma wf_cons b l : wf_blocks (b :: l) ↔ block_ok b ∧ wf_blocks l ∧ ∀ y, y ∈ l → before_gap b y.
Proof. rewrite (wf_app [b] l), wf_singleton. set_solver. Qed.

Lemma wf_elem l b : wf_blocks l → b ∈ l → block_ok b.
Proof. intros [_ Hf]. by apply Forall_forall. Qed.

(** ** The set operations on well-formed sets *)
Lemma lower_bound_app l blk before after :
  lower_bound l blk = (before, after) →
  l = before ++ after ∧ Forall (λ b, pointer_ b < pointer_ blk) before ∧
  (∀ b, head after = Some b → pointer_ blk ≤ pointer_ b).
Proof.
  revert before after. induction l as [|b l IH]; simpl; intros before after Hl; [by simplify_eq/=|].
  unfold block_lt in Hl. destruct (Z.ltb_spec (pointer_ b) (pointer_ blk)).
  - destruct (lower_bound l blk) as [be af] eqn:E. injection Hl as <- <-.
    destruct (IH be af) as (-> & ? & ?); [done|]. split_and!; [done|by constructor|done].
  - simplify_eq/=. split_and!; [done|constructor|]. intros b' [= <-]. done.
Qed.

Lemma lower_bound_mid l1 l2 blk :
  Forall (λ b, pointer_ b < pointer_ blk) l1 → (∀ b, head l2 = Some b → pointer_ blk ≤ pointer_ b) →
  lower_bound (l1 ++ l2) blk = (l1, l2).
Proof.
  intros H1 H2. induction H1 as [|b l1 Hb H1 IH]; simpl.
  - destruct l2 as [|b l2]; [done|]. simpl. unfold block_lt.
    by rewrite (proj2 (Z.ltb_ge _ _)) by (by apply H2).
  - unfold block_lt. rewrite (proj2 (Z.ltb_lt _ _)) by done. by rewrite IH.
Qed.

Lemma set_insert_mid l1 l2 b :
  Forall (λ x, pointer_ x < pointer_ b) l1 → (∀ y, head l2 = Some y → pointer_ b < pointer_ y) →
  set_insert (l1 ++ l2) b = l1 ++ b :: l2.
Proof.
  intros H1 H2. unfold set_insert. rewrite lower_bound_mid; [|done|intros y Hy; specialize (H2 y Hy); lia].
  destruct l2 as [|y l2]; [done|]. unfold block_lt.
  by rewrite (proj2 (Z.ltb_lt _ _)) by (by apply H2).
Qed.

Lemma set_erase_mid l1 b l2 :
  wf_blocks (l1 ++ b :: l2) → set_erase (l1 ++ b :: l2) b = l1 ++ l2.
Proof.
  intros Hwf. unfold set_erase. rewrite lower_bound_mid.
  - unfold block_lt. by rewrite Z.ltb_irrefl.
  - apply wf_app in Hwf as (H1 & _ & Hlt). apply Forall_forall. intros x Hx.
    specialize (Hlt x b Hx ltac:(set_solver)). pose proof (wf_elem _ _ H1 Hx) as Hok.
    unfold before_gap, block_ok in *. lia.
  - intros y [= ->]. lia.
Qed.

(** ** first_fit and coalesce_block *)
Lemma find_fit_spec l size :
  match find_fit l size with
  | Some (before, b, after) => l = before ++ b :: after ∧ size ≤ size_ b
  | None => Forall (λ b, size_ b < size) l
  end.
Proof.
  induction l as [|b l IH]; simpl; [constructor|]. unfold fits.
  destruct (Z.leb_spec size (size_ b)); [done|].
  destruct (find_fit l size) as [[[before m] after]|]; simpl; [|by constructor].
  destruct IH as [-> ?]. done.
Qed.

Lemma head_wf_lt (b : block) l :
  (∀ y, y ∈ l → before_gap b y) → 0 ≤ size_ b → ∀ y, head l = Some y → pointer_ b < pointer_ y.
Proof.
  intros Hlt Hs y Hy. destruct l; simplify_eq/=. specialize (Hlt y ltac:(set_solver)).
  unfold before_gap in Hlt. lia.
Qed.

Lemma first_fit_spec l size r l' :
  wf_blocks l → 0 ≤ size < 2 ^ 64 → first_fit l size = (r, l') →
  (r = null_block ∧ l' = l ∧ Forall (λ b, size_ b < size) l) ∨
  (0 < pointer_ r ∧ size_ r = size ∧ pointer_ r + size ≤ 2 ^ 64 ∧ wf_blocks l' ∧
   ∀ a, cov l a = cov l' a + cov1 r a).
Proof.
  intros Hwf Hsize. unfold first_fit. pose proof (find_fit_spec l size) as Hf.
  destruct (find_fit l size) as [[[before b] after]|]; [|intros; simplify_eq; by left].
  destruct Hf as [-> Hle]. pose proof Hwf as Hwf0.
  apply wf_app in Hwf as (H1 & H2 & H12). apply wf_cons in H2 as (Hb & H2 & Hba).
  destruct Hb as (Hp & Hs & Hend).
  destruct (Z.ltb_spec size (size_ b)) as [Hlt|Hge].
  - unfold split. rewrite (proj2 (Z.ltb_lt _ _)) by done. rewrite !u64_small by lia.
    set (snd := mk_block (pointer_ b + size) (size_ b - size)).
    assert (∀ x, x ∈ before → before_gap x snd) as Hbs.
    { intros x Hx. specialize (H12 x b Hx ltac:(set_solver)). unfold before_gap in *. simpl. lia. }
    assert (∀ y, y ∈ after → before_gap snd y) as Hsa.
    { intros y Hy. specialize (Hba y Hy). unfold before_gap in *. simpl. lia. }
    rewrite set_insert_mid; [|apply Forall_forall; intros x Hx; specialize (Hbs x Hx);
      pose proof (wf_elem _ _ H1 Hx) as Hok; unfold before_gap, block_ok in *; lia|apply head_wf_lt; simpl; [done|lia]].
    intros [= <- <-]. right. simpl. split_and!; [lia|done|lia| |].
    + apply wf_app. split_and!; [done|apply wf_cons; split_and!; [|done|done]|].
      * unfold block_ok; simpl; lia.
      * intros x y Hx [->|Hy]%elem_of_cons; [by apply Hbs|]. apply H12; set_solver.
    + intros a. rewrite !cov_app, !cov_cons. unfold cov1; simpl. repeat case_bool_decide; lia.
  - intros [= <- <-]. right. split_and!; [lia|lia|lia| |].
    + apply wf_app. split_and!; [done|done|]. intros. apply H12; set_solver.
    + intros a. rewrite !cov_app, !cov_cons. lia.
Qed.

Lemma contiguous_spec b blk :
  block_ok b → block_ok blk →
  is_contiguous_before b blk = true ↔ pointer_ b + size_ b = pointer_ blk.
Proof.
  intros (Hp & Hs & Hend) (Hp' & Hs' & Hend'). unfold is_contiguous_before. rewrite Z.eqb_eq.
  destruct (decide (pointer_ b + size_ b = 2 ^ 64)) as [E|].
  - rewrite E. unfold u64. rewrite Z.mod_same by lia. lia.
  - by rewrite u64_small by lia.
Qed.

Lemma merge_spec b1 b2 :
  block_ok b1 → block_ok b2 → pointer_ b1 + size_ b1 = pointer_ b2 →
  merge b1 b2 = mk_block (pointer_ b1) (size_ b1 + size_ b2) ∧ block_ok (merge b1 b2) ∧
  ∀ a, cov1 (merge b1 b2) a = cov1 b1 a + cov1 b2 a.
Proof.
  intros (Hp & Hs & Hend) (Hp' & Hs' & Hend') He. unfold merge. rewrite u64_small by lia.
  split_and!; [done|unfold block_ok; simpl; lia|]. intros a. unfold cov1; simpl.
  repeat case_bool_decide; lia.
Qed.

(** Inserting a block into the gap between two parts of a well-formed set. *)
Lemma wf_insert_mid l1 l2 b :
  wf_blocks (l1 ++ l2) → block_ok b →
  (∀ x, x ∈ l1 → before_gap x b) → (∀ y, y ∈ l2 → before_gap b y) →
  set_insert (l1 ++ l2) b = l1 ++ b :: l2 ∧ wf_blocks (l1 ++ b :: l2).
Proof.
  intros Hwf Hb Hx Hy. apply wf_app in Hwf as (H1 & H2 & H12). split.
  - apply set_insert_mid; [|apply head_wf_lt; [done|unfold block_ok in Hb; lia]].
    apply Forall_forall. intros x Hin. specialize (Hx x Hin).
    pose proof (wf_elem _ _ H1 Hin) as Hok. unfold before_gap, block_ok in *. lia.
  - apply wf_app. split_and!; [done|by apply wf_cons|].
    intros x y Hin [->|Hy']%elem_of_cons; [by apply Hx|by apply H12].
Qed.

(** A block disjoint from a well-formed set lies in one of its gaps. *)
Lemma gap_bounds before after blk :
  wf_blocks (before ++ after) → block_ok blk → (∀ a, cov (before ++ after) a + cov1 blk a ≤ 1) →
  Forall (λ b, pointer_ b < pointer_ blk) before →
  (∀ b, head after = Some b → pointer_ blk ≤ pointer_ b) →
  (∀ x, x ∈ before → pointer_ x + size_ x ≤ pointer_ blk) ∧
  (∀ y, y ∈ after → pointer_ blk + size_ blk ≤ pointer_ y).
Proof.
  intros Hwf Hblk Hc H1 H2. pose proof Hblk as (Hp & Hs & Hend).
  assert (∀ x, x ∈ before ++ after → pointer_ x + size_ x ≤ pointer_ blk ∨
                                      pointer_ blk + size_ blk ≤ pointer_ x) as Hd.
  { intros x Hx. pose proof (wf_elem _ _ Hwf Hx) as (? & ? & ?). apply cov1_disjoint; [done|done|].
    intros a. specialize (Hc a). pose proof (cov_elem x _ a Hx). lia. }
  split.
  - intros x Hx. rewrite Forall_forall in H1. specialize (H1 x Hx).
    destruct (Hd x ltac:(set_solver)); lia.
  - intros y Hy. apply wf_app in Hwf as (_ & Hwf2 & _).
    destruct after as [|n after]; [set_solver|]. specialize (H2 n eq_refl).
    pose proof (wf_elem _ _ Hwf2 Hy) as (? & ? & ?).
    assert (pointer_ n ≤ pointer_ y) as Hn.
    { apply wf_cons in Hwf2 as (Hn & _ & Hgap). apply elem_of_cons in Hy as [->|Hy]; [lia|].
      specialize (Hgap y Hy). unfold before_gap, block_ok in *. lia. }
    destruct (Hd y ltac:(set_solver)); lia.
Qed.

(** The upper neighbour is either merged or separated by a gap. *)
Lemma next_neighbour after blk :
  wf_blocks after → block_ok blk → (∀ y, y ∈ after → pointer_ blk + size_ blk ≤ pointer_ y) →
  (∃ n after', after = n :: after' ∧ is_contiguous_before blk n = true ∧ block_ok n ∧
     pointer_ blk + size_ blk = pointer_ n ∧ wf_blocks after' ∧ ∀ y, y ∈ after' → before_gap n y) ∨
  (match after with n :: _ => is_contiguous_before blk n | [] => false end = false ∧
   ∀ y, y ∈ after → before_gap blk y).
Proof.
  intros Hwf Hblk Ha. destruct after as [|n after]; [right; set_solver|].
  apply wf_cons in Hwf as (Hn & Hwf & Hgap). pose proof (Ha n ltac:(set_solver)) as Hle.
  destruct (is_contiguous_before blk n) eqn:E.
  - left. apply contiguous_spec in E as E'; [|done..]. by eexists _, _.
  - right. split; [done|]. assert (pointer_ blk + size_ blk ≠ pointer_ n).
    { intros E'. apply contiguous_spec in E'; [congruence|done..]. }
    intros y [->|Hy]%elem_of_cons; unfold before_gap, block_ok in *; [lia|].
    specialize (Hgap y Hy). lia.
Qed.

(** The lower neighbour likewise; [previous] is what the code dereferences. *)
Definition previous_of (end_read : block) (before after : list block) : block :=
  match last before, after with
  | Some p, _ => p
  | None, n :: _ => n
  | None, [] => end_read
  end.

Lemma previous_neighbour end_read before after blk :
  wf_blocks (before ++ after) → block_ok blk →
  (∀ x, x ∈ before → pointer_ x + size_ x ≤ pointer_ blk) →
  (∀ y, y ∈ after → pointer_ blk + size_ blk ≤ pointer_ y) →
  (before ++ after = [] → is_contiguous_before end_read blk = false) →
  (∃ init p, before = init ++ [p] ∧ is_contiguous_before p blk = true ∧ block_ok p ∧
     pointer_ p + size_ p = pointer_ blk ∧ wf_blocks (init ++ after) ∧ ∀ x, x ∈ init → before_gap x p) ∨
  (is_contiguous_before (previous_of end_read before after) blk = false ∧
   ∀ x, x ∈ before → before_gap x blk).
Proof.
  intros Hwf Hblk Hb Ha Hend. unfold previous_of.
  destruct before as [|p before _] using rev_ind.
  - right. simpl. split; [|set_solver]. destruct after as [|n after]; [by apply Hend|].
    pose proof (wf_elem _ n Hwf ltac:(set_solver)) as Hn. specialize (Ha n ltac:(set_solver)).
    destruct (is_contiguous_before n blk) eqn:E; [|done].
    apply contiguous_spec in E; [|done..]. unfold block_ok in *. lia.
  - rewrite last_snoc. rewrite <- app_assoc in Hwf. apply wf_app in Hwf as (H1 & H2 & H12).
    apply wf_cons in H2 as (Hp & H2 & Hpa).
    assert (∀ x, x ∈ before → before_gap x p) as Hbp by (intros; apply H12; set_solver).
    pose proof (Hb p ltac:(set_solver)) as Hle. destruct (is_contiguous_before p blk) eqn:E.
    + left. apply contiguous_spec in E as E'; [|done..]. exists before, p. split_and!; try done.
      apply wf_app. split_and!; [done|done|]. intros. apply H12; set_solver.
    + right. split; [done|]. assert (pointer_ p + size_ p ≠ pointer_ blk).
      { intros E'. apply contiguous_spec in E'; [congruence|done..]. }
      intros x. rewrite elem_of_app, list_elem_of_singleton. unfold before_gap, block_ok in *.
      intros [Hx| ->]; [|lia]. specialize (Hbp x Hx). lia.
Qed.

(** What coalescing [blk] into the set [l] has to achieve. *)
Definition coalesced (l : list block) (blk merged : block) (l' : list block) : Prop :=
  wf_blocks l' ∧ (∀ a, cov l' a = cov l a + cov1 blk a) ∧ merged ∈ l' ∧ size_ blk ≤ size_ merged.

Lemma absorb l l1 l2 blk m :
  wf_blocks (l1 ++ l2) → block_ok m →
  (∀ x, x ∈ l1 → before_gap x m) → (∀ y, y ∈ l2 → before_gap m y) →
  (∀ a, cov l1 a + cov l2 a + cov1 m a = cov l a + cov1 blk a) → size_ blk ≤ size_ m →
  coalesced l blk m (set_insert (l1 ++ l2) m).
Proof.
  intros Hwf Hm Hx Hy Hcov Hsize. destruct (wf_insert_mid l1 l2 m) as [-> Hwf']; [done..|].
  split_and!; [done| |set_solver|done]. intros a. rewrite cov_app, cov_cons. rewrite <- Hcov. lia.
Qed.

Lemma coalesce_harmless end_read l blk :
  wf_blocks l → block_ok blk → (∀ a, cov l a + cov1 blk a ≤ 1) →
  (l = [] → is_contiguous_before end_read blk = false) →
  ∃ merged l', coalesce_block end_read l blk = Ret (merged, l') ∧ coalesced l blk merged l'.
Proof.
  intros Hwf Hblk Hc Hend. unfold coalesce_block, is_valid.
  rewrite (proj2 (Z.eqb_neq (pointer_ blk) 0)) by (unfold block_ok in Hblk; lia). simpl.
  destruct (lower_bound l blk) as [before after] eqn:Elb.
  apply lower_bound_app in Elb as (-> & H1 & H2). fold (previous_of end_read before after).
  destruct (gap_bounds before after blk) as [Hb Ha]; [done..|].
  pose proof Hwf as Hwf0. apply wf_app in Hwf0 as (Hw1 & Hw2 & H12).
  destruct (next_neighbour after blk Hw2 Hblk Ha)
    as [(n & after' & -> & En & Hn & Hnp & Hw2' & Hgn)|(En & Hgn)];
  destruct (previous_neighbour end_read before _ blk Hwf Hblk Hb Ha Hend)
    as [(init & p & -> & Ep & Hp & Hpp & Hwi & Hgp)|(Ep & Hgp)].
  - unfold previous_of. rewrite last_snoc, removelast_last, Ep, En. eexists _, _; split; [done|].
    destruct (merge_spec p blk) as (Em & Hm & Hmc); [done..|].
    destruct (merge_spec (merge p blk) n) as (Em2 & Hm2 & Hmc2); [done|done|rewrite Em; simpl; lia|].
    apply absorb; rewrite ?Em2, ?Em; unfold before_gap, block_ok in *; simpl; [..|lia].
    + apply wf_app in Hwi as (? & [? _]%wf_cons & ?). apply wf_app. split_and!; set_solver.
    + lia.
    + done.
    + intros y Hy. specialize (Hgn y Hy). lia.
    + intros a. specialize (Hmc2 a). rewrite Em2, Em in Hmc2. simpl in Hmc2. rewrite Em in Hmc. simpl in Hmc.
      rewrite Hmc2, Hmc, !cov_app. simpl. lia.
  - rewrite Ep, En. eexists _, _; split; [done|].
    destruct (merge_spec blk n) as (Em & Hm & Hmc); [done..|].
    apply absorb; rewrite ?Em; unfold before_gap, block_ok in *; simpl; [..|lia].
    + apply wf_app. split_and!; [done|done|set_solver].
    + lia.
    + done.
    + intros y Hy. specialize (Hgn y Hy). lia.
    + intros a. rewrite Em in Hmc. rewrite Hmc, !cov_app. simpl. lia.
  - unfold previous_of. rewrite last_snoc, removelast_last, Ep, En.
    destruct (merge_spec p blk) as (Em & Hm & Hmc); [done..|].
    exists (merge p blk), (set_insert (init ++ after) (merge p blk)). split; [by destruct after|].
    apply absorb; [done|done|..]; rewrite ?Em; unfold before_gap, block_ok in *; simpl; [done| | |lia].
    + intros y Hy. specialize (Hgn y Hy). lia.
    + intros a. rewrite Em in Hmc. rewrite Hmc, !cov_app. simpl. lia.
  - rewrite Ep, En. exists blk, (set_insert (before ++ after) blk). split; [by destruct after|].
    apply absorb; [done..| |lia]. intros a. rewrite cov_app. lia.
Qed.

(** Whatever the read past the end of an empty set yields: the block is
    coalesced, or that read looked like a block ending where [blk] starts and
    the past-the-end iterator is erased. *)
Lemma coalesce_spec end_read l blk :
  wf_blocks l → block_ok blk → (∀ a, cov l a + cov1 blk a ≤ 1) →
  match coalesce_block end_read l blk with
  | Ret (merged, l') => coalesced l blk merged l'
  | Undefined e => e = "erase(end())"%string ∧ is_contiguous_before end_read blk = true
  | _ => False
  end.
Proof.
  intros Hwf Hblk Hc. destruct (is_contiguous_before end_read blk) eqn:E.
  2: { destruct (coalesce_harmless end_read l blk) as (m & l' & -> & ?); [done..|]. done. }
  destruct l as [|b l].
  - unfold coalesce_block, is_valid. rewrite (proj2 (Z.eqb_neq (pointer_ blk) 0)) by (unfold block_ok in Hblk; lia).
    simpl. by rewrite E.
  - destruct (coalesce_harmless end_read (b :: l) blk) as (m & l' & -> & ?); done.
Qed.

(** ** Outcomes of operations *)

(** Some read past the end yields a block that ends where the coalesced one
    starts. *)
Definition bad_read (end_read : free_set → block → block) : Prop :=
  ∃ set blk, block_ok blk ∧ is_contiguous_before (end_read set blk) blk = true.

(** The operation returns with [P], throws only where [throws], and its only
    undefined behaviour is erasing the past-the-end iterator after such a read. *)
Definition outcome {A} (end_read : free_set → block → block) (throws : Prop) (P : A → Prop) (r : res A) : Prop :=
  match r with
  | Ret x => P x
  | Throw _ => throws
  | Abort _ => False
  | Undefined e => e = "erase(end())"%string ∧ bad_read end_read
  end.

Lemma outcome_bind {A B} end_read throws (P : A → Prop) (Q : B → Prop) r (f : A → res B) :
  outcome end_read throws P r → (∀ x, P x → outcome end_read throws Q (f x)) → outcome end_read throws Q (r ≫= f).
Proof. destruct r as [x|e|e|e]; simpl; naive_solver. Qed.
Lemma outcome_impl {A} end_read (throws throws' : Prop) (P Q : A → Prop) r :
  outcome end_read throws P r → (throws → throws') → (∀ x, P x → Q x) → outcome end_read throws' Q r.
Proof. destruct r as [x|e|e|e]; simpl; naive_solver. Qed.

Lemma coalesce_outcome end_read set l blk throws :
  wf_blocks l → block_ok blk → (∀ a, cov l a + cov1 blk a ≤ 1) →
  outcome end_read throws (λ '(merged, l'), coalesced l blk merged l') (coalesce_block (end_read set blk) l blk).
Proof.
  intros Hwf Hblk Hc. pose proof (coalesce_spec (end_read set blk) l blk Hwf Hblk Hc) as H.
  destruct (coalesce_block _ _ _) as [[m l']| | |]; simpl; try done.
  destruct H as [-> H]. split; [done|]. by exists set, blk.
Qed.

(** ** The allocator invariant *)

(** [ginv g ext]: the free blocks of the global arena and the memory held
    elsewhere ([ext] counts it per address) together cover exactly what the
    upstream resource provided, each address once. *)
Record ginv (g : global_arena) (ext : Z → Z) : Prop := {
  ginv_free : wf_blocks (free_blocks_ g);
  ginv_up : ∀ a, cov (upstream_blocks_ g) a ≤ 1;
  ginv_ext : ∀ a, 0 ≤ ext a;
  ginv_cov : ∀ a, cov (free_blocks_ g) a + ext a = cov (upstream_blocks_ g) a;
  ginv_size : 0 ≤ current_size_ g ≤ maximum_size_ g;
  ginv_max : maximum_size_ g < 2 ^ 64;
}.

Lemma ginv_eq g ext ext' : ginv g ext → (∀ a, ext a = ext' a) → ginv g ext'.
Proof.
  intros [? ? He Hc ? ?] Heq. split; [done|done| | |done|done]; intros a; rewrite <- Heq; [apply He|apply Hc].
Qed.

Lemma ginv_with_free g free ext ext' :
  ginv g ext → wf_blocks free → (∀ a, 0 ≤ ext' a) →
  (∀ a, cov free a + ext' a = cov (free_blocks_ g) a + ext a) → ginv (with_free g free) ext'.
Proof. intros [? ? He Hc ? ?] Hwf Hn Heq. split; simpl; try done. intros a. by rewrite Heq. Qed.

Definition block_owned (b : block) (size : Z) : Prop := block_ok b ∧ size_ b = size.

Section spec.
Context (end_read : free_set → block → block) (upstream_allocate : list block → Z → res Z).
(** The upstream resource returns memory that none of its outstanding blocks
    covers, or throws. *)
Hypothesis upstream_fresh : ∀ out size, 0 < size → (∀ a, cov out a ≤ 1) →
  match upstream_allocate out size with
  | Ret p => block_ok (mk_block p size) ∧ ∀ a, cov out a + cov1 (mk_block p size) a ≤ 1
  | Throw _ => True
  | _ => False
  end.

Lemma global_deallocate_spec g blk ext throws :
  block_ok blk → (∀ a, 0 ≤ ext a) → ginv g (λ a, ext a + cov1 blk a) →
  outcome end_read throws (λ g', ginv g' ext) (global_deallocate end_read g blk).
Proof.
  intros Hblk Hext Hg. unfold global_deallocate.
  eapply outcome_bind; [apply (coalesce_outcome end_read GlobalSet)|].
  - by apply ginv_free in Hg.
  - done.
  - intros a. pose proof (ginv_cov _ _ Hg a) as Hca. cbv beta in Hca. pose proof (ginv_up _ _ Hg a). specialize (Hext a). lia.
  - intros [m l'] (Hwf & Hcov & _). eapply ginv_with_free; [done..|]. intros a. rewrite Hcov. lia.
Qed.

Lemma first_fit_ginv g ext size blk free :
  ginv g ext → 0 < size < 2 ^ 64 → first_fit (free_blocks_ g) size = (blk, free) →
  (blk = null_block ∧ free = free_blocks_ g ∧ Forall (λ b, size_ b < size) free) ∨
  (block_owned blk size ∧ is_valid blk = true ∧ ginv (with_free g free) (λ a, ext a + cov1 blk a)).
Proof.
  intros Hg Hs Hf. apply first_fit_spec in Hf as [(-> & -> & ?)|(Hp & Hsz & Hend & Hwf & Hcov)];
    [by left| |by eapply ginv_free|lia]. right. split_and!.
  - unfold block_owned, block_ok. lia.
  - unfold is_valid. by rewrite (proj2 (Z.eqb_neq _ _)) by lia.
  - eapply ginv_with_free; [done|done| |].
    + intros a. pose proof (ginv_ext _ _ Hg a). pose proof (cov1_nonneg blk a). lia.
    + intros a. rewrite Hcov. lia.
Qed.

(** Growing: the new upstream block becomes part of the free set. *)
Lemma grow_spec g ext size :
  ginv g ext → 0 ≤ size ≤ maximum_size_ g - current_size_ g →
  outcome end_read True (λ '(blk, g'),
    outcome end_read True (λ '(_, free), ginv (with_free g' free) ext ∧ (0 < size → ∃ b, b ∈ free ∧ size ≤ size_ b))
      (coalesce_block (end_read GlobalSet blk) (free_blocks_ g') blk))
    (global_expand_arena upstream_allocate g size).
Proof.
  intros Hg Hs. unfold global_expand_arena. destruct (Z.ltb_spec 0 size) as [Hpos|].
  2: { simpl. split_and!; [by destruct g|lia]. }
  pose proof (upstream_fresh (upstream_blocks_ g) size Hpos (ginv_up _ _ Hg)) as Hup.
  destruct (upstream_allocate (upstream_blocks_ g) size) as [p|e| |]; try done. simpl.
  destruct Hup as [Hok Hdisj].
  eapply outcome_impl; [apply (coalesce_outcome end_read GlobalSet _ _ True)|done|].
  - by eapply ginv_free.
  - done.
  - intros a. pose proof (ginv_cov _ _ Hg a). pose proof (ginv_ext _ _ Hg a). specialize (Hdisj a). lia.
  - intros [m l'] (Hwf & Hcov & Hin & Hsz). split; [|intros _; by exists m].
    pose proof (ginv_size _ _ Hg). pose proof (ginv_max _ _ Hg).
    split; simpl; [done| |by eapply ginv_ext| | |done].
    + intros a. rewrite cov_app. simpl. specialize (Hdisj a). lia.
    + intros a. rewrite Hcov, cov_app. simpl. pose proof (ginv_cov _ _ Hg a). lia.
    + rewrite u64_small by lia. lia.
Qed.

Lemma size_to_grow_bounds g ext size :
  ginv g ext → 0 < size < 2 ^ 64 →
  0 ≤ size_to_grow g size ≤ maximum_size_ g - current_size_ g ∧
  (current_size_ g + size ≤ maximum_size_ g → size ≤ size_to_grow g size).
Proof.
  intros Hg Hs. pose proof (ginv_size _ _ Hg). pose proof (ginv_max _ _ Hg). unfold size_to_grow.
  destruct (Z.ltb_spec (maximum_size_ g) (u64 (current_size_ g + size))) as [Hlt|Hge].
  - split; [lia|]. intros Hle. rewrite u64_small in Hlt by lia. lia.
  - rewrite u64_small by lia. lia.
Qed.

Lemma global_get_block_spec g ext size :
  ginv g ext → 0 < size < 2 ^ 64 →
  outcome end_read True (λ '(blk, g'),
      (blk = null_block ∧ ginv g' ext ∧ maximum_size_ g < current_size_ g + size) ∨
      (block_owned blk size ∧ is_valid blk = true ∧ ginv g' (λ a, ext a + cov1 blk a)))
    (global_get_block end_read upstream_allocate g size).
Proof.
  intros Hg Hs. unfold global_get_block. destruct (first_fit (free_blocks_ g) size) as [blk free] eqn:E.
  destruct (first_fit_ginv _ _ _ _ _ Hg Hs E) as [(-> & -> & Hall)|(Hb & Hv & Hg')];
    [|rewrite Hv; right; exact (conj Hb (conj Hv Hg'))].
  cbn [is_valid null_block pointer_ Z.eqb negb].
  destruct (size_to_grow_bounds _ _ _ Hg Hs) as [Hb1 Hb2].
  replace (with_free g (free_blocks_ g)) with g by (by destruct g).
  eapply outcome_bind; [exact (grow_spec g ext (size_to_grow g size) Hg Hb1)|]. intros [ub g1] Hgrow.
  eapply outcome_bind; [exact Hgrow|]. intros [m free1] (Hg1 & Hbig).
  destruct (first_fit free1 size) as [blk free2] eqn:E2.
  destruct (first_fit_ginv _ _ _ _ _ Hg1 Hs E2) as [(-> & -> & Hall2)|(Hb & Hv & Hg')]; [|by right].
  left. split_and!; [done|done|]. apply Z.nle_gt. intros Hle. specialize (Hb2 Hle).
  destruct Hbig as (b & Hin & Hsz); [lia|]. rewrite Forall_forall in Hall2. specialize (Hall2 b Hin). simpl in Hall2. lia.
Qed.

(** ** Per-thread arenas *)
Definition got_block (ext : Z → Z) (size : Z) '((blk, g, free) : block * global_arena * list block) : Prop :=
  wf_blocks free ∧
  ((blk = null_block ∧ ginv g (λ a, cov free a + ext a)) ∨
   (block_owned blk size ∧ ginv g (λ a, cov free a + (ext a + cov1 blk a)))).

Lemma arena_grow_and_get_spec g free ext size :
  ginv g (λ a, cov free a + ext a) → wf_blocks free → (∀ a, 0 ≤ ext a) → 0 < size < 2 ^ 64 →
  outcome end_read True (got_block ext size) (arena_grow_and_get end_read upstream_allocate g free size).
Proof.
  intros Hg Hwf Hext Hs. unfold arena_grow_and_get, arena_expand_arena, global_allocate.
  assert (0 < Z.max size minimum_superblock_size < 2 ^ 64) as Hsb
    by (change minimum_superblock_size with 262144; lia).
  eapply outcome_bind; [exact (global_get_block_spec g _ _ Hg Hsb)|]. intros [sb g1] Hget.
  destruct Hget as [(-> & Hg1 & _)|([Hok Hsz] & -> & Hg1)]; [simpl; split; [done|by left]|].
  eapply outcome_bind; [apply (coalesce_outcome end_read ThreadSet); [done|done|]|].
  { intros a. pose proof (ginv_cov _ _ Hg1 a) as Hc. pose proof (ginv_up _ _ Hg1 a).
    pose proof (cov_nonneg (free_blocks_ g1) a). specialize (Hext a). cbv beta in Hc. lia. }
  intros [m free1] (Hwf1 & Hcov & _). destruct (first_fit free1 size) as [blk free2] eqn:E.
  apply first_fit_spec in E as [(-> & -> & _)|(Hp & Hbs & Hend & Hwf2 & Hc2)]; [..|done|lia].
  - split; [done|]. left. split; [done|]. eapply ginv_eq; [exact Hg1|]. intros a. cbv beta. rewrite Hcov. lia.
  - split; [done|]. right. split; [unfold block_owned, block_ok; lia|].
    eapply ginv_eq; [exact Hg1|]. intros a. specialize (Hc2 a). specialize (Hcov a). cbv beta. lia.
Qed.

Lemma arena_get_block_spec g free ext size :
  ginv g (λ a, cov free a + ext a) → wf_blocks free → (∀ a, 0 ≤ ext a) → 0 < size < 2 ^ 64 →
  outcome end_read True (got_block ext size) (arena_get_block end_read upstream_allocate g free size).
Proof.
  intros Hg Hwf Hext Hs. unfold arena_get_block.
  destruct (size <? minimum_superblock_size); [|by apply arena_grow_and_get_spec].
  destruct (first_fit free size) as [blk free1] eqn:E.
  apply first_fit_spec in E as [(-> & -> & _)|(Hp & Hbs & Hend & Hwf1 & Hc)]; [..|done|lia].
  - by apply arena_grow_and_get_spec.
  - unfold is_valid. rewrite (proj2 (Z.eqb_neq _ _)) by lia. simpl. split; [done|]. right.
    split; [unfold block_owned, block_ok; lia|]. eapply ginv_eq; [done|]. intros a. cbv beta. rewrite Hc. lia.
Qed.

Lemma arena_deallocate_spec g free ext ptr bytes throws :
  ginv g (λ a, cov free a + (ext a + cov1 (mk_block ptr bytes) a)) → wf_blocks free →
  (∀ a, 0 ≤ ext a) → block_ok (mk_block ptr bytes) →
  outcome end_read throws (λ '(g', free'), wf_blocks free' ∧ ginv g' (λ a, cov free' a + ext a))
    (arena_deallocate end_read g free ptr bytes).
Proof.
  clear upstream_fresh upstream_allocate. intros Hg Hwf Hext Hok. unfold arena_deallocate.
  eapply outcome_bind; [apply (coalesce_outcome end_read ThreadSet); [done|done|]|].
  { intros a. pose proof (ginv_cov _ _ Hg a) as Hc. pose proof (ginv_up _ _ Hg a).
    pose proof (cov_nonneg (free_blocks_ g) a). specialize (Hext a). cbv beta in Hc. lia. }
  intros [m free1] (Hwf1 & Hcov & Hin & _). unfold shrink_arena. destruct (is_superblock m || _).
  2: { split_and!; [done|]. eapply ginv_eq; [done|]. intros a. cbv beta. rewrite Hcov. lia. }
  apply list_elem_of_split in Hin as (l1 & l2 & ->). rewrite set_erase_mid by done.
  apply wf_app in Hwf1 as (H1 & H2 & H12). apply wf_cons in H2 as (Hm & H2 & Hm2).
  eapply outcome_bind; [apply (global_deallocate_spec g m (λ a, cov (l1 ++ l2) a + ext a)); [done|..]|].
  - intros a. pose proof (cov_nonneg (l1 ++ l2) a). specialize (Hext a). lia.
  - eapply ginv_eq; [done|]. intros a. specialize (Hcov a). cov_simpl. cbv beta. lia.
  - intros g' Hg'. split; [|done]. apply wf_app. split_and!; [done|done|].
    intros. apply H12; set_solver.
Qed.

Lemma arena_clean_spec g free ext throws :
  ginv g (λ a, cov free a + ext a) → Forall block_ok free → (∀ a, 0 ≤ ext a) →
  outcome end_read throws (λ '(g', free'), free' = [] ∧ ginv g' ext) (arena_clean end_read g free).
Proof.
  intros Hg Hok Hext. unfold arena_clean.
  eapply (outcome_bind _ _ (λ g', ginv g' ext)); [|by intros g' ?].
  revert g Hg. induction Hok as [|b free Hb Hok IH]; intros g Hg; cbn [global_deallocate_set]; [done|].
  eapply outcome_bind; [apply (global_deallocate_spec g b (λ a, cov free a + ext a)); [done|..]|].
  - intros a. pose proof (cov_nonneg free a). specialize (Hext a). lia.
  - eapply ginv_eq; [done|]. intros a. simpl. lia.
  - intros g' Hg'. by apply IH.
Qed.
End spec.

(** ** The resource: what every thread's arena holds *)
Definition cov_map (m : gmap Z (list block)) (a : Z) : Z :=
  map_fold (λ _ l n, cov l a + n) 0 m.

Lemma cov_map_insert m tid l a :
  cov_map (<[tid := l]> m) a = cov l a + cov_map (delete tid m) a.
Proof.
  unfold cov_map. rewrite <- insert_delete_eq. rewrite map_fold_insert_L; [done|intros; lia|apply lookup_delete_eq].
Qed.

Lemma cov_map_lookup m tid a :
  cov_map m a = cov (default [] (m !! tid)) a + cov_map (delete tid m) a.
Proof.
  destruct (m !! tid) as [l|] eqn:E; simpl.
  - rewrite <- (cov_map_insert m tid l). by rewrite insert_id.
  - by rewrite delete_id.
Qed.

Lemma cov_map_nonneg m a : 0 ≤ cov_map m a.
Proof.
  unfold cov_map. apply (map_fold_weak_ind (λ n _, 0 ≤ n)); [done|].
  intros i l m' n _ Hn. pose proof (cov_nonneg l a). lia.
Qed.

(** [live] lists the blocks handed out and not yet returned. *)
Record rinv (r : arena_resource) (live : list block) : Prop := {
  rinv_global : ginv (global_arena_ r) (λ a, cov_map (thread_arenas_ r) a + cov live a);
  rinv_arenas : ∀ tid, wf_blocks (get_thread_arena r tid);
  rinv_live : Forall block_ok live;
}.

Section resource.
Context (upstream_allocate : list block → Z → res Z) (align_up align_down : Z → Z).
Hypothesis upstream_fresh : ∀ out size, 0 < size → (∀ a, cov out a ≤ 1) →
  match upstream_allocate out size with
  | Ret p => block_ok (mk_block p size) ∧ ∀ a, cov out a + cov1 (mk_block p size) a ≤ 1
  | Throw _ => True
  | _ => False
  end.
(** Rounding up does not overflow for requests below the last alignment unit. *)
Hypothesis align_up_ok : ∀ b, 0 < b ≤ 2 ^ 64 - 256 → b ≤ align_up b < 2 ^ 64.

(** The rest of the memory, seen from one thread's arena. *)
Definition others (r : arena_resource) (tid : Z) (live : list block) (a : Z) : Z :=
  cov_map (delete tid (thread_arenas_ r)) a + cov live a.

Lemma others_nonneg r tid live a : 0 ≤ others r tid live a.
Proof.
  unfold others. pose proof (cov_map_nonneg (delete tid (thread_arenas_ r)) a).
  pose proof (cov_nonneg live a). lia.
Qed.

Lemma rinv_focus r live tid :
  rinv r live → ginv (global_arena_ r) (λ a, cov (get_thread_arena r tid) a + others r tid live a).
Proof.
  intros Hr. eapply ginv_eq; [by apply rinv_global|]. intros a. cbv beta.
  rewrite (cov_map_lookup (thread_arenas_ r) tid). unfold others, get_thread_arena. lia.
Qed.

Lemma rinv_put r live live' tid g free ext :
  rinv r live → wf_blocks free → Forall block_ok live' →
  ginv g (λ a, cov free a + ext a) → (∀ a, ext a = others r tid live' a) →
  rinv (put_thread_arena r tid g free) live'.
Proof.
  intros Hr Hwf Hlive Hg Hext. split; simpl; [|..|done].
  - eapply ginv_eq; [done|]. intros a. cbv beta. rewrite cov_map_insert, Hext. unfold others. lia.
  - intros tid'. unfold get_thread_arena, put_thread_arena; simpl.
    destruct (decide (tid = tid')) as [->|]; [by rewrite lookup_insert_eq|].
    rewrite lookup_insert_ne by done. apply (rinv_arenas _ _ Hr).
Qed.

Section operations.
Context (end_read : free_set → block → block).

Lemma allocate_spec r live tid bytes :
  rinv r live → 0 < bytes < 2 ^ 64 →
  outcome end_read True (λ '(p, g, free),
      (p = 0 ∧ rinv (put_thread_arena r tid g free) live) ∨
      (p ≠ 0 ∧ rinv (put_thread_arena r tid g free) (mk_block p bytes :: live)))
    (arena_allocate end_read upstream_allocate (global_arena_ r) (get_thread_arena r tid) bytes).
Proof.
  intros Hr Hb. unfold arena_allocate.
  eapply outcome_bind; [exact (arena_get_block_spec end_read upstream_allocate upstream_fresh
    (global_arena_ r) (get_thread_arena r tid) (others r tid live) bytes
    (rinv_focus _ _ tid Hr) (rinv_arenas _ _ Hr tid) (others_nonneg r tid live) Hb)|].
  intros [[blk g] free] (Hwf & [(-> & Hg)|([Hok <-] & Hg)]).
  - left. split; [done|]. eapply rinv_put; [done|done|by eapply rinv_live|done|done].
  - right. pose proof Hok as (Hp & _). split; [lia|]. eapply rinv_put; [exact Hr|done| |exact Hg|].
    + constructor; [by destruct blk|by eapply rinv_live].
    + intros a. unfold others. rewrite cov_cons. destruct blk. simpl. lia.
Qed.

Lemma clean_spec r live tid throws :
  rinv r live →
  outcome end_read throws (λ '(g, free), rinv (put_thread_arena r tid g free) live)
    (arena_clean end_read (global_arena_ r) (get_thread_arena r tid)).
Proof.
  intros Hr. eapply outcome_impl; [apply (arena_clean_spec end_read _ _ (others r tid live) throws)|done|].
  - by apply rinv_focus.
  - apply (rinv_arenas _ _ Hr tid).
  - apply others_nonneg.
  - intros [g free] [-> Hg]. eapply rinv_put; [done|apply wf_nil|by eapply rinv_live| |done].
    eapply ginv_eq; [done|]. intros a. done.
Qed.

Lemma defragment_spec r live throws :
  rinv r live → outcome end_read throws (λ r', rinv r' live) (defragment end_read r).
Proof.
  unfold defragment. generalize (merge_sort Z.le (map_to_list (thread_arenas_ r)).*1) as tids.
  intros tids. revert r. induction tids as [|tid tids IH]; intros r Hr; cbn [defragment_loop]; [done|].
  eapply outcome_bind; [by apply clean_spec|]. intros [g free] Hr'. by apply IH.
Qed.

Definition alloc_outcome (P : Z * arena_resource → Prop) (res : res (Z * arena_resource)) : Prop :=
  match res with
  | Abort e => e = "Maximum pool size exceeded"%string
  | _ => outcome end_read True P res
  end.

Lemma do_allocate_spec r live tid bytes :
  rinv r live → 0 < bytes ≤ 2 ^ 64 - 256 →
  alloc_outcome (λ '(p, r'), p ≠ 0 ∧ rinv r' (mk_block p (align_up bytes) :: live))
    (do_allocate end_read upstream_allocate align_up r tid bytes).
Proof.
  intros Hr Hb. pose proof (align_up_ok bytes Hb) as Hal. unfold do_allocate.
  rewrite (proj2 (Z.leb_gt bytes 0)) by lia.
  pose proof (allocate_spec r live tid (align_up bytes) Hr ltac:(lia)) as Ha.
  destruct (arena_allocate _ _ _ _ _) as [[[p g] free]|e| |]; try done. simpl.
  destruct Ha as [(-> & Hr1)|(Hp & Hr1)]; [simpl|by rewrite (proj2 (Z.eqb_neq p 0)) by done].
  pose proof (defragment_spec _ _ True Hr1) as Hd. destruct (defragment _ _) as [r2|e| |]; try done. simpl.
  pose proof (allocate_spec r2 live tid (align_up bytes) Hd ltac:(lia)) as Ha2.
  destruct (arena_allocate _ _ _ _ _) as [[[p2 g2] free2]|e| |]; try done. simpl.
  destruct Ha2 as [(-> & Hr3)|(Hp2 & Hr3)]; [done|]. by rewrite (proj2 (Z.eqb_neq p2 0)) by done.
Qed.

Lemma do_deallocate_spec r live live' tid p bytes :
  rinv r live → live ≡ₚ mk_block p (align_up bytes) :: live' → 0 < bytes →
  outcome end_read False (λ r', rinv r' live') (do_deallocate end_read align_up r tid p bytes).
Proof.
  intros Hr Hperm Hb. pose proof (rinv_live _ _ Hr) as Hlive. rewrite Hperm in Hlive.
  apply Forall_cons in Hlive as [Hok Hlive].
  unfold do_deallocate. rewrite (proj2 (Z.eqb_neq p 0)) by (unfold block_ok in Hok; simpl in Hok; lia).
  rewrite (proj2 (Z.leb_gt bytes 0)) by lia. cbn [orb].
  eapply outcome_bind; [apply (arena_deallocate_spec end_read (global_arena_ r) (get_thread_arena r tid)
    (others r tid live') p (align_up bytes))|].
  - eapply ginv_eq; [by apply (rinv_focus r live tid)|]. intros a. unfold others. cbv beta.
    rewrite (cov_perm _ _ a Hperm), cov_cons. lia.
  - apply (rinv_arenas _ _ Hr).
  - apply others_nonneg.
  - done.
  - intros [g free] [Hwf Hg]. by eapply rinv_put.
Qed.

Lemma thread_exit_spec r live tid :
  rinv r live → outcome end_read False (λ r', rinv r' live) (thread_exit end_read r tid).
Proof.
  intros Hr. unfold thread_exit. destruct (thread_arenas_ r !! tid) as [free|] eqn:E; [|done].
  pose proof (clean_spec r live tid False Hr) as Hc. unfold get_thread_arena in Hc. rewrite E in Hc.
  eapply outcome_bind; [exact Hc|]. by intros [g free'] ?.
Qed.
End operations.

(** ** Histories of the resource *)

(** One operation of one thread that returns; what it reads past the end of
    an empty set, where it does, is different each time. *)
Inductive astep : arena_resource * list block → arena_resource * list block → Prop :=
| step_allocate end_read r live tid bytes p r' :
    0 < bytes ≤ 2 ^ 64 - 256 →
    do_allocate end_read upstream_allocate align_up r tid bytes = Ret (p, r') →
    astep (r, live) (r', mk_block p (align_up bytes) :: live)
| step_deallocate end_read r live live' tid p bytes r' :
    0 < bytes → live ≡ₚ mk_block p (align_up bytes) :: live' →
    do_deallocate end_read align_up r tid p bytes = Ret r' →
    astep (r, live) (r', live')
| step_thread_exit end_read r live tid r' :
    thread_exit end_read r tid = Ret r' → astep (r, live) (r', live).

Lemma astep_rinv s s' : astep s s' → rinv s.1 s.2 → rinv s'.1 s'.2.
Proof.
  destruct 1 as [er r live tid bytes p r' Hb Ha|er r live live' tid p bytes r' Hb Hp Hd|er r live tid r' He];
    simpl; intros Hr.
  - pose proof (do_allocate_spec er r live tid bytes Hr Hb) as Hs. rewrite Ha in Hs. by destruct Hs.
  - pose proof (do_deallocate_spec er r live live' tid p bytes Hr Hp Hb) as Hs. by rewrite Hd in Hs.
  - pose proof (thread_exit_spec er r live tid Hr) as Hs. by rewrite He in Hs.
Qed.

(** The sizes the constructor is called with, and the free and total device
    memory the default sizes are computed from. *)
Definition sizes_ok (initial_size maximum_size : Z) (mem_info : Z * Z) : Prop :=
  0 < initial_size ∧ maximum_size < 2 ^ 64 ∧ 0 < mem_info.1 ≤ 2 ^ 64 - 256 ∧ 2 ≤ mem_info.2.

Lemma new_arena_ginv initial maximum p :
  0 < initial ≤ maximum → maximum < 2 ^ 64 → block_ok (mk_block p initial) →
  ginv (mk_global maximum (u64 (0 + initial)) [mk_block p initial] [mk_block p initial]) (λ _, 0).
Proof.
  intros Hi Hm Hok. split; simpl; [by apply wf_singleton| |done|intros a; lia| |done].
  - intros a. unfold cov1. case_bool_decide; lia.
  - rewrite u64_small by lia. lia.
Qed.

(** A freshly constructed global arena, with explicit or default sizes. *)
Lemma global_arena_new_spec initial_size maximum_size mem_info g :
  sizes_ok initial_size maximum_size mem_info →
  global_arena_new upstream_allocate align_up align_down false initial_size maximum_size mem_info = Ret g →
  ginv g (λ _, 0).
Proof.
  intros (Hi & Hm & Hf & Ht). unfold global_arena_new. destruct mem_info as [free total]. simpl in Hf, Ht.
  cbn [throw_if]. destruct (negb (_ || (initial_size =? align_up initial_size))); [done|].
  destruct (negb (_ || (maximum_size =? align_up maximum_size))); [done|]. cbn [mbind res_bind throw_if].
  set (initial := if initial_size =? default_size then _ else _).
  set (maximum := if maximum_size =? default_size then _ else _).
  assert (0 < initial) as Hi'.
  { unfold initial. case_match; [|done]. assert (1 ≤ total / 2) by (apply Z.div_le_lower_bound; lia).
    pose proof (align_up_ok (Z.min free (total / 2)) ltac:(lia)). lia. }
  assert (maximum < 2 ^ 64) as Hm' by (unfold maximum; case_match; [unfold u64; apply Z.mod_pos_bound; lia|done]).
  destruct (Z.leb_spec initial maximum); [|done]. simpl.
  unfold global_expand_arena. rewrite (proj2 (Z.ltb_lt 0 initial)) by done. simpl.
  pose proof (upstream_fresh [] initial Hi' ltac:(intros; simpl; lia)) as Hup.
  destruct (upstream_allocate [] initial) as [p|e| |]; try done. simpl. intros [= <-].
  apply new_arena_ginv; [lia|done|apply Hup].
Qed.

(** The states a program reaches from a freshly constructed resource. *)
Definition reachable (s : arena_resource * list block) : Prop :=
  ∃ initial_size maximum_size mem_info g,
    sizes_ok initial_size maximum_size mem_info ∧
    global_arena_new upstream_allocate align_up align_down false initial_size maximum_size mem_info = Ret g ∧
    rtc astep (mk_resource g ∅, []) s.

Lemma reachable_rinv r live : reachable (r, live) → rinv r live.
Proof.
  intros (i & m & mi & g & Hs & Hg & Hsteps).
  change ((λ s, rinv s.1 s.2) (r, live)). revert Hsteps.
  apply (rtc_ind_r (λ s, rinv s.1 s.2)); [|intros s1 s2 _ Hstep ?; by eapply astep_rinv].
  split; simpl; [|intros tid; unfold get_thread_arena; simpl; rewrite lookup_empty; apply wf_nil|constructor].
  eapply ginv_eq; [by eapply global_arena_new_spec|]. done.
Qed.

Lemma reachable_step s s' : reachable s → astep s s' → reachable s'.
Proof. intros (i & m & mi & g & ? & ? & ?) ?. exists i, m, mi, g. split_and!; [done..|]. by eapply rtc_r. Qed.

(** Two outstanding blocks do not overlap, and each lies in upstream memory. *)
Lemma rinv_disjoint r live :
  rinv r live →
  (∀ i j b1 b2, live !! i = Some b1 → live !! j = Some b2 → i ≠ j →
     pointer_ b1 + size_ b1 ≤ pointer_ b2 ∨ pointer_ b2 + size_ b2 ≤ pointer_ b1) ∧
  (∀ b a, b ∈ live → pointer_ b ≤ a < pointer_ b + size_ b →
     ∃ u, u ∈ upstream_blocks_ (global_arena_ r) ∧ pointer_ u ≤ a < pointer_ u + size_ u).
Proof.
  intros [Hg _ Hlive].
  assert (Hbound : ∀ a, cov live a ≤ cov (upstream_blocks_ (global_arena_ r)) a).
  { intros a. pose proof (ginv_cov _ _ Hg a) as Hc. cbv beta in Hc.
    pose proof (cov_nonneg (free_blocks_ (global_arena_ r)) a).
    pose proof (cov_map_nonneg (thread_arenas_ r) a). lia. }
  rewrite Forall_forall in Hlive. split.
  - intros i j b1 b2 H1 H2 Hij.
    pose proof (Hlive _ (list_elem_of_lookup_2 _ _ _ H1)) as (? & ? & ?).
    pose proof (Hlive _ (list_elem_of_lookup_2 _ _ _ H2)) as (? & ? & ?).
    apply cov1_disjoint; [done|done|]. intros a. etrans; [by apply (cov_two live i j)|].
    etrans; [apply Hbound|]. apply (ginv_up _ _ Hg).
  - intros b a Hin Ha. apply cov_pos_elem. pose proof (cov_elem b live a Hin). rewrite cov1_in in * by done.
    specialize (Hbound a). lia.
Qed.

(** C2: in every state reachable by any sequence of allocations,
    deallocations and thread exits from any threads, from a resource
    constructed with explicit positive or with default sizes, two outstanding
    blocks never overlap and every byte of an outstanding block lies in memory
    the upstream resource provided; an allocation of up to 2^64 - 256 bytes
    returns a pointer that is not null, throws what the upstream resource
    throws, or ends in the fatal "Maximum pool size exceeded"; returning an
    outstanding block and ending a thread succeed.  [coalesce_block]
    dereferences the past-the-end iterator of every empty free set it meets;
    the theorem holds whatever bytes each of these reads finds, except that an
    operation has undefined behaviour beyond the read itself (it erases the
    past-the-end iterator) when they look like a block that ends where the
    coalesced one starts. *)
Theorem arena_blocks_disjoint r live :
  reachable (r, live) →
  ((∀ i j b1 b2, live !! i = Some b1 → live !! j = Some b2 → i ≠ j →
      pointer_ b1 + size_ b1 ≤ pointer_ b2 ∨ pointer_ b2 + size_ b2 ≤ pointer_ b1) ∧
   (∀ b a, b ∈ live → pointer_ b ≤ a < pointer_ b + size_ b →
      ∃ u, u ∈ upstream_blocks_ (global_arena_ r) ∧ pointer_ u ≤ a < pointer_ u + size_ u)) ∧
  ∀ end_read tid,
    (∀ bytes, 0 < bytes ≤ 2 ^ 64 - 256 →
       match do_allocate end_read upstream_allocate align_up r tid bytes with
       | Ret (p, r') => p ≠ 0 ∧ reachable (r', mk_block p (align_up bytes) :: live)
       | Throw _ => True
       | Abort e => e = "Maximum pool size exceeded"%string
       | Undefined e => e = "erase(end())"%string ∧ bad_read end_read
       end) ∧
    (∀ p bytes live', 0 < bytes → live ≡ₚ mk_block p (align_up bytes) :: live' →
       outcome end_read False (λ r', reachable (r', live')) (do_deallocate end_read align_up r tid p bytes)) ∧
    outcome end_read False (λ r', reachable (r', live)) (thread_exit end_read r tid).
Proof.
  intros Hreach. pose proof (reachable_rinv _ _ Hreach) as Hr. split; [by apply rinv_disjoint|].
  intros end_read tid. split_and!.
  - intros bytes Hb. pose proof (do_allocate_spec end_read r live tid bytes Hr Hb) as Hs.
    destruct (do_allocate _ _ _ _ _ _) as [[p r']|e|e|e] eqn:E; simpl in *; try done.
    destruct Hs as [Hp _]. split; [done|]. eapply reachable_step; [done|]. by eapply step_allocate.
  - intros p bytes live' Hb Hperm. pose proof (do_deallocate_spec end_read r live live' tid p bytes Hr Hperm Hb) as Hs.
    destruct (do_deallocate _ _ _ _ _ _) as [r'|e|e|e] eqn:E; simpl in *; try done.
    eapply reachable_step; [done|]. by eapply step_deallocate.
  - pose proof (thread_exit_spec end_read r live tid Hr) as Hs.
    destruct (thread_exit _ _ _) as [r'|e|e|e] eqn:E; simpl in *; try done.
    eapply reachable_step; [done|]. by eapply step_thread_exit.
Qed.
End resource.

(** Coalescing a block into an empty free set dereferences the past-the-end
    iterator: what the code does next is decided by the bytes found there, and
    if they look like a block ending where the new one starts, it erases the
    end iterator.  Every thread arena is empty when it first grows. *)
Theorem coalesce_empty_reads_end end_read blk :
  is_valid blk = true →
  coalesce_block end_read [] blk =
    if is_contiguous_before end_read blk then Undefined "erase(end())" else Ret (blk, [blk]).
Proof.
  intros Hv. unfold coalesce_block. rewrite Hv. simpl. by destruct (is_contiguous_before end_read blk).
Qed.

(** ** Instances of the parameters, and witnesses *)
Definition bump_end (out : list block) : Z := foldr (λ b m, Z.max m (pointer_ b + size_ b)) 256 out.
Definition bump_allocate (out : list block) (size : Z) : res Z :=
  if bump_end out + size <=? 2 ^ 64 then Ret (bump_end out) else Throw "std::bad_alloc".
Definition align_256 (b : Z) : Z := (b + 255) / 256 * 256.

Lemma bump_end_bound out : 256 ≤ bump_end out ∧ ∀ a, bump_end out ≤ a → cov out a = 0.
Proof.
  induction out as [|b out [IH1 IH2]]; simpl; [done|]. split; [lia|]. intros a Ha.
  rewrite IH2 by lia. unfold cov1. rewrite bool_decide_false by lia. done.
Qed.

Lemma bump_fresh out size : 0 < size → (∀ a, cov out a ≤ 1) →
  match bump_allocate out size with
  | Ret p => block_ok (mk_block p size) ∧ ∀ a, cov out a + cov1 (mk_block p size) a ≤ 1
  | Throw _ => True
  | _ => False
  end.
Proof.
  intros Hs Hc. unfold bump_allocate. destruct (bump_end_bound out) as [Hb Hz].
  destruct (Z.leb_spec (bump_end out + size) (2 ^ 64)); [|done]. split; [unfold block_ok; simpl; lia|].
  intros a. unfold cov1; simpl. case_bool_decide; [rewrite Hz by lia; lia|specialize (Hc a); lia].
Qed.

(** What follows an empty set in memory: zeros. *)
Definition null_read (_ : free_set) (_ : block) : block := null_block.

Lemma align_256_ok b : 0 < b ≤ 2 ^ 64 - 256 → b ≤ align_256 b < 2 ^ 64.
Proof.
  intros Hb. unfold align_256. pose proof (Z.div_mod (b + 255) 256 ltac:(lia)).
  pose proof (Z.mod_pos_bound (b + 255) 256 ltac:(lia)).
  assert ((b + 255) / 256 < 2 ^ 56) by (apply Z.div_lt_upper_bound; lia). lia.
Qed.

(** A history: one thread allocates 1000 and 2000 bytes. *)
Definition example_global : global_arena :=
  mk_global (2 ^ 24) (2 ^ 20) [mk_block 256 (2 ^ 20)] [mk_block 256 (2 ^ 20)].
Definition example_state : res (arena_resource * list block) :=
  '(p, r) ← do_allocate null_read bump_allocate align_256 (mk_resource example_global ∅) 1 1000;
  '(q, r) ← do_allocate null_read bump_allocate align_256 r 1 2000;
  Ret (r, [mk_block q (align_256 2000); mk_block p (align_256 1000)]).

Lemma example_reachable :
  ∃ r, example_state = Ret (r, [mk_block 1280 2048; mk_block 256 1024]) ∧
       reachable bump_allocate align_256 align_256 (r, [mk_block 1280 2048; mk_block 256 1024]).
Proof.
  eexists. split; [vm_compute; reflexivity|].
  exists (2 ^ 20), (2 ^ 24), (2 ^ 34, 2 ^ 34), example_global. split_and!; [by unfold sizes_ok; simpl; lia|vm_compute; reflexivity|].
  eapply rtc_l; [eapply (step_allocate _ _ null_read _ _ 1 1000); [lia|vm_compute; reflexivity]|].
  eapply rtc_l; [eapply (step_allocate _ _ null_read _ _ 1 2000); [lia|vm_compute; reflexivity]|].
  apply rtc_refl.
Qed.

Lemma arena_blocks_disjoint_witness :
  ∃ r, (256 + 1024 ≤ 1280 ∨ 1280 + 2048 ≤ 256) ∧
    ∃ r', do_deallocate null_read align_256 r 3 256 1000 = Ret r' ∧
      reachable bump_allocate align_256 align_256 (r', [mk_block 1280 2048]).
Proof.
  destruct example_reachable as (r & Er & Hr). exists r.
  destruct (arena_blocks_disjoint bump_allocate align_256 align_256 bump_fresh align_256_ok r _ Hr)
    as [[Hd _] Hops].
  destruct (Hops null_read 3) as (_ & Hde & _).
  split; [exact (Hd 1%nat 0%nat (mk_block 256 1024) (mk_block 1280 2048) eq_refl eq_refl ltac:(lia))|].
  specialize (Hde 256 1000 [mk_block 1280 2048] ltac:(lia) ltac:(apply Permutation_swap)).
  vm_compute in Er. injection Er as <-.
  eexists. split; [vm_compute; reflexivity|]. exact Hde.
Defined.

Lemma coalesce_empty_reads_end_witness :
  coalesce_block (mk_block 512 256) [] (mk_block 768 256) = Undefined "erase(end())".
Proof. rewrite (coalesce_empty_reads_end (mk_block 512 256) (mk_block 768 256)); reflexivity. Defined.
