(* ===== verification/Service.v ===== *)
(** * The service life cycle

    Models [src/internal/service.hpp] and [src/internal/service.cpp].  The
    virtual [do_service_*] hooks are the operations of the class [Service];
    pipelines, segments and managers are its instances.  Every public method is
    a computation over the state of the object ([M T]), in which an exception
    thrown by a hook leaves the state as the hook left it. *)
From S2P Require Import Prelude.

Inductive ServiceState := Initialized | Running | Awaiting | Stopping | Killing | Completed.

#[export] Instance ServiceState_eq_dec : EqDecision ServiceState.
Proof. solve_decision. Defined.

(** The declaration order of the enumerators, which [<] compares. *)
Definition ss_rank (s : ServiceState) : nat :=
  match s with
  | Initialized => 0 | Running => 1 | Awaiting => 2 | Stopping => 3 | Killing => 4 | Completed => 5
  end.
Definition ss_lt (s1 s2 : ServiceState) : bool := ss_rank s1 <? ss_rank s2.
Definition ss_le (s1 s2 : ServiceState) : bool := ss_rank s1 <=? ss_rank s2.

(** An object deriving from [Service]: where its [m_state] is, and its hooks. *)
Class Service (T : Type) : Type := {
  m_state : T → ServiceState;
  set_m_state : ServiceState → T → T;
  do_service_start : M T ();
  do_service_await_live : M T ();
  do_service_stop : M T ();
  do_service_kill : M T ();
  do_service_await_join : M T ();
}.

Section service.
Context {T : Type} `{Service T}.

Definition forward_state (new_state : ServiceState) : M T bool :=
  s ← get;
  lift (check (ss_le (m_state s) new_state) "ServiceState is only allowed to advance") ;;
  if ss_lt (m_state s) new_state
  then put (set_m_state new_state s) ;; mret true
  else mret false.

Definition service_start : M T () :=
  b ← forward_state Running;
  if (b : bool) then do_service_start else mret ().

Definition service_await_live : M T () := do_service_await_live.

Definition service_stop : M T () :=
  s ← get;
  if ss_lt (m_state s) Stopping
  then put (set_m_state Stopping s) ;; do_service_stop
  else mret ().

Definition service_kill : M T () :=
  s ← get;
  if ss_lt (m_state s) Killing
  then put (set_m_state Killing s) ;; do_service_kill
  else mret ().

Definition service_await_join : M T () :=
  s ← get;
  if ss_lt (m_state s) Completed
  then put (set_m_state Awaiting s) ;;
       do_service_await_join ;;
       forward_state Completed ;;
       mret ()
  else mret ().

(** [state] is read once; the later tests use that copy. *)
Definition call_in_destructor : M T () :=
  s ← get;
  let state := m_state s in
  if ss_lt Initialized state then
    (if bool_decide (state = Running) then service_kill else mret ()) ;;
    (if bool_decide (state ≠ Completed) then service_await_join else mret ())
  else mret ().

(** [~Service]. *)
Definition service_destroy : M T () :=
  s ← get;
  lift (check (bool_decide (m_state s = Initialized ∨ m_state s = Completed))
          "state == Initialized || state == Completed").
End service.

(** ** What the clients of a service rely on *)
Class ServiceLaws (T : Type) `{Service T} : Prop := {
  m_state_set st s : m_state (set_m_state st s) = st;
  set_m_state_same s : set_m_state (m_state s) s = s;
  do_start_state s : ss_le (m_state s) (m_state (do_service_start s).2) = true;   (* a segment may fail while it starts *)
  do_stop_state s : m_state (do_service_stop s).2 = m_state s;
  do_kill_state s : m_state (do_service_kill s).2 = m_state s;
  do_join_state s : m_state (do_service_await_join s).2 = m_state s;
}.

Section theorems.
Context {T : Type} `{ServiceLaws T}.

Lemma m_bind_ret {A B} (m : M T A) (f : A → M T B) s a s' :
  m s = (Ret a, s') → (m ≫= f) s = f a s'.
Proof. intros Hm. unfold mbind, M_bind. by rewrite Hm. Qed.

Lemma forward_state_up st s :
  ss_lt (m_state s) st = true → forward_state st s = (Ret true, set_m_state st s).
Proof.
  intros Hlt. unfold forward_state, mbind, M_bind, get, lift, put, mret, M_ret, check. simpl.
  assert (ss_le (m_state s) st = true) as ->.
  { unfold ss_lt, ss_le in *. apply Nat.leb_le. apply Nat.ltb_lt in Hlt. lia. }
  by rewrite Hlt.
Qed.

Lemma forward_state_abort st s :
  ss_lt st (m_state s) = true → ∃ why, forward_state st s = (Abort why, s).
Proof.
  intros Hlt. unfold forward_state, mbind, M_bind, get, lift, put, mret, M_ret, check. simpl.
  assert (ss_le (m_state s) st = false) as ->; [|by eexists].
  unfold ss_lt, ss_le in *. apply Nat.leb_gt. by apply Nat.ltb_lt in Hlt.
Qed.

Lemma service_stop_run s :
  ss_lt (m_state s) Stopping = true → service_stop s = do_service_stop (set_m_state Stopping s).
Proof. intros Hlt. unfold service_stop, mbind, M_bind, get, put. simpl. by rewrite Hlt. Qed.
Lemma service_stop_skip s : ss_lt (m_state s) Stopping = false → service_stop s = (Ret (), s).
Proof. intros Hlt. unfold service_stop, mbind, M_bind, get. simpl. by rewrite Hlt. Qed.

Lemma service_kill_run s :
  ss_lt (m_state s) Killing = true → service_kill s = do_service_kill (set_m_state Killing s).
Proof. intros Hlt. unfold service_kill, mbind, M_bind, get, put. simpl. by rewrite Hlt. Qed.

(** [service_start] on a service that was already stopped, killed, joined
    or is being joined aborts the process; on a running one it does nothing;
    on a fresh one it runs the start hook in state Running. *)
Theorem service_start_cases s :
  match m_state s with
  | Initialized => service_start s = do_service_start (set_m_state Running s)
  | Running => service_start s = (Ret (), s)
  | _ => ∃ why, service_start s = (Abort why, s)
  end.
Proof.
  unfold service_start. destruct (m_state s) eqn:E;
    try (destruct (forward_state_abort Running s) as [why Ha]; [by rewrite E|]; exists why;
         unfold mbind, M_bind; by rewrite Ha).
  - erewrite m_bind_ret; [|by apply forward_state_up; rewrite E]. done.
  - unfold forward_state, mbind, M_bind, get, lift, check. simpl. by rewrite E.
Qed.

Lemma service_await_join_ok s :
  m_state s ≠ Completed → (do_service_await_join (set_m_state Awaiting s)).1 = Ret () →
  ∃ s', service_await_join s = (Ret (), s') ∧ m_state s' = Completed.
Proof.
  intros Hne Hj. unfold service_await_join, mbind at 1, M_bind at 1, get.
  assert (ss_lt (m_state s) Completed = true) as -> by (by destruct (m_state s)).
  destruct (do_service_await_join (set_m_state Awaiting s)) as [r s1] eqn:E. simpl in Hj. subst r.
  pose proof (do_join_state (set_m_state Awaiting s)) as Hs1. rewrite E, m_state_set in Hs1. simpl in Hs1.
  unfold mbind, M_bind, put. simpl. rewrite E.
  rewrite forward_state_up by (by rewrite Hs1). eexists. split; [done|]. apply m_state_set.
Qed.

(** When its hooks return, [call_in_destructor] brings a service from any
    state to Initialized or Completed, so the CHECK of the destructor passes. *)
Theorem call_in_destructor_safe s :
  (∀ s', (do_service_kill s').1 = Ret ()) → (∀ s', (do_service_await_join s').1 = Ret ()) →
  ∃ s', call_in_destructor s = (Ret (), s') ∧ service_destroy s' = (Ret (), s').
Proof.
  intros Hk Hj.
  assert (∀ s', m_state s' = Initialized ∨ m_state s' = Completed → service_destroy s' = (Ret (), s')) as Hd.
  { intros s' Hs'. unfold service_destroy, mbind, M_bind, get, lift, check. simpl.
    by rewrite bool_decide_true. }
  assert (∀ s0, m_state s0 ≠ Completed → ∃ s', service_await_join s0 = (Ret (), s') ∧ service_destroy s' = (Ret (), s')) as Hjoin.
  { intros s0 Hs0. destruct (service_await_join_ok s0 Hs0) as (s' & ? & ?); [done|]. eauto. }
  unfold call_in_destructor, mbind at 1, M_bind at 1, get.
  destruct (m_state s) eqn:E; simpl.
  2: { destruct (service_kill s) as [r s1] eqn:Ek. rewrite service_kill_run in Ek by (by rewrite E).
    specialize (Hk (set_m_state Killing s)). rewrite Ek in Hk. simpl in Hk. subst r.
    pose proof (do_kill_state (set_m_state Killing s)) as Hs1. rewrite Ek, m_state_set in Hs1. simpl in Hs1.
    unfold mbind, M_bind. rewrite service_kill_run by (by rewrite E). rewrite Ek. apply Hjoin. by rewrite Hs1. }
  all: try (exists s; split; [done|]; apply Hd; tauto).
  all: apply Hjoin; by rewrite E.
Qed.
End theorems.

(** ** Concurrent callers

    Every public method enters the mutex of the service once, decides there
    whether its hook runs, and runs the hook outside the lock; only
    [service_await_join] takes the lock again, to reach Completed.  A thread is
    therefore a program counter over these steps. *)
Inductive call := CStart | CStop | CKill | CJoin.
#[export] Instance call_eq_dec : EqDecision call.
Proof. solve_decision. Defined.

(** The critical section of each method: whether the hook runs, and the new state. *)
Definition critical (c : call) (st : ServiceState) : res (bool * ServiceState) :=
  match c with
  | CStart => if ss_lt Running st then Abort "ServiceState is only allowed to advance"
              else Ret (ss_lt st Running, Running)
  | CStop => Ret (ss_lt st Stopping, if ss_lt st Stopping then Stopping else st)
  | CKill => Ret (ss_lt st Killing, if ss_lt st Killing then Killing else st)
  | CJoin => Ret (ss_lt st Completed, if ss_lt st Completed then Awaiting else st)
  end.

Definition service_call {T} `{Service T} (c : call) : M T () :=
  match c with
  | CStart => service_start | CStop => service_stop
  | CKill => service_kill | CJoin => service_await_join
  end.
Definition hook {T} `{Service T} (c : call) : M T () :=
  match c with
  | CStart => do_service_start | CStop => do_service_stop
  | CKill => do_service_kill | CJoin => do_service_await_join
  end.
Definition epilogue {T} `{Service T} (c : call) : M T () :=
  match c with CJoin => forward_state Completed ;; mret () | _ => mret () end.

Inductive pc := Called (c : call) | InHook (c : call) | Joined | Returned | Died.
Record config := Config { c_state : ServiceState; c_threads : list pc; c_hooks : list call }.

Inductive sstep : config → config → Prop :=
| step_call σ c : sstep σ (Config (c_state σ) (c_threads σ ++ [Called c]) (c_hooks σ))
| step_enter σ i c st' :
    c_threads σ !! i = Some (Called c) → critical c (c_state σ) = Ret (true, st') →
    sstep σ (Config st' (<[i := InHook c]> (c_threads σ)) (c :: c_hooks σ))
| step_skip σ i c st' :
    c_threads σ !! i = Some (Called c) → critical c (c_state σ) = Ret (false, st') →
    sstep σ (Config st' (<[i := Returned]> (c_threads σ)) (c_hooks σ))
| step_die σ i c w :
    c_threads σ !! i = Some (Called c) → critical c (c_state σ) = Abort w →
    sstep σ (Config (c_state σ) (<[i := Died]> (c_threads σ)) (c_hooks σ))
| step_hook σ i c :
    c_threads σ !! i = Some (InHook c) →
    sstep σ (Config (c_state σ) (<[i := if decide (c = CJoin) then Joined else Returned]> (c_threads σ)) (c_hooks σ))
| step_complete σ i :
    c_threads σ !! i = Some Joined →
    sstep σ (Config Completed (<[i := Returned]> (c_threads σ)) (c_hooks σ)).

Definition initial : config := Config Initialized [] [].

(** The state that the critical section of a hook establishes. *)
Definition target (c : call) : ServiceState :=
  match c with CStart => Running | CStop => Stopping | CKill => Killing | CJoin => Awaiting end.

Lemma bind_ret_unit {T} (m : M T ()) s : (m ;; mret ()) s = m s.
Proof. unfold mbind, M_bind. by destruct (m s) as [[[]|?|?|?] s']. Qed.

Section interleaving.
Context {T : Type} `{ServiceLaws T}.

(** The steps above are the methods: critical section, hook, epilogue. *)
Lemma service_call_steps c (s : T) :
  service_call c s =
  match critical c (m_state s) with
  | Ret (b, st) => if b then (hook c ;; epilogue c) (set_m_state st s) else (Ret (), set_m_state st s)
  | Throw e => (Throw e, s) | Abort w => (Abort w, s) | Undefined w => (Undefined w, s)
  end.
Proof.
  pose proof (set_m_state_same s) as Hs.
  destruct c; simpl; unfold epilogue; rewrite ?bind_ret_unit.
  - unfold service_start, forward_state, check, lift, get, put, mbind, M_bind, mret, M_ret.
    destruct (m_state s); simpl in *; rewrite ?Hs; try done. by destruct (do_service_start _) as [[[]|?|?|?] ?].
  - unfold service_stop, get, put, mbind, M_bind, mret, M_ret.
    destruct (m_state s); simpl in *; rewrite ?Hs; try done; by destruct (do_service_stop _) as [[[]|?|?|?] ?].
  - unfold service_kill, get, put, mbind, M_bind, mret, M_ret.
    destruct (m_state s); simpl in *; rewrite ?Hs; try done; by destruct (do_service_kill _) as [[[]|?|?|?] ?].
  - unfold service_await_join, get, put, mbind at 1, M_bind at 1, mret, M_ret.
    destruct (m_state s); simpl in *; rewrite ?Hs; done.
Qed.
End interleaving.

(** What every interleaving maintains: a service without hooks is fresh, and
    unless a join has entered since, the state is at least the target of every
    hook that has run. *)
Definition hooks_inv (σ : config) : Prop :=
  (c_state σ = Initialized → c_hooks σ = []) ∧
  (∀ c l1 l2, c_hooks σ = l1 ++ c :: l2 → CJoin ∉ l1 → ss_le (target c) (c_state σ) = true) ∧
  (∀ i, c_threads σ !! i = Some Joined → c_hooks σ ≠ []) ∧
  (∀ i c, c_threads σ !! i = Some (InHook c) → c_hooks σ ≠ []) ∧
  (∀ c l1 l2 l3, c_hooks σ = l1 ++ c :: l2 ++ c :: l3 → c ≠ CJoin → CJoin ∈ l2 ∧ c ≠ CStart).

Lemma critical_true c st st' :
  critical c st = Ret (true, st') → st' = target c ∧ ss_lt st (if decide (c = CJoin) then Completed else st') = true.
Proof. destruct c, st; simpl; intros; simplify_eq; done. Qed.
Lemma critical_false c st st' : critical c st = Ret (false, st') → st' = st.
Proof. destruct c, st; simpl; intros; simplify_eq; done. Qed.

Lemma lookup_insert_other {A} (l : list A) i j (x y : A) :
  <[i := x]> l !! j = Some y → x ≠ y → l !! j = Some y.
Proof. intros [(-> & ? & ?)|(? & ?)]%list_lookup_insert_Some; done. Qed.

Lemma hooks_inv_initial : hooks_inv initial.
Proof. unfold hooks_inv. split_and!; simpl; try done; by intros ? []. Qed.

Lemma hooks_inv_enter σ c st' th :
  hooks_inv σ → critical c (c_state σ) = Ret (true, st') → hooks_inv (Config st' th (c :: c_hooks σ)).
Proof.
  intros (Hi & Hh & _ & _ & Ho) [-> Hlt]%critical_true. unfold hooks_inv; simpl.
  split_and!; [by destruct c| |done|done|].
  - intros c' [|x l1] l2 [= <- Heq] Hnj; [by destruct c|].
    rewrite decide_False in Hlt by set_solver.
    specialize (Hh c' l1 l2 Heq ltac:(set_solver)).
    unfold ss_le, ss_lt in *. apply Nat.leb_le. apply Nat.leb_le in Hh. apply Nat.ltb_lt in Hlt. lia.
  - intros c' [|x l1] l2 l3 [= <- Heq] Hnj; [|by eapply Ho]. rewrite decide_False in Hlt by done. split.
    + destruct (decide (CJoin ∈ l2)) as [|Hn]; [done|]. specialize (Hh c l2 l3 Heq Hn).
      unfold ss_le, ss_lt in *. apply Nat.leb_le in Hh. apply Nat.ltb_lt in Hlt. lia.
    + intros ->. destruct (c_state σ) eqn:E; try done. rewrite Hi in Heq by done. by destruct l2.
Qed.

Lemma hooks_inv_step σ σ' : hooks_inv σ → sstep σ σ' → hooks_inv σ'.
Proof.
  intros Hinv Hstep. pose proof Hinv as (Hi & Hh & Hj & Hk & Ho).
  destruct Hstep as [σ c|σ i c st' Hi' Hc|σ i c st' Hi' Hc|σ i c w Hi' Hc|σ i c Hi'|σ i Hi'];
    [|by apply hooks_inv_enter|..]; unfold hooks_inv; simpl.
  - split_and!; auto; intros *; rewrite lookup_app_Some; intros [?|[_ Hl]]; eauto;
      apply list_elem_of_lookup_2 in Hl; set_solver.
  - apply critical_false in Hc as ->. split_and!; auto.
    + intros j Hl. eapply Hj, lookup_insert_other; [exact Hl|done].
    + intros j c' Hl. eapply Hk, lookup_insert_other; [exact Hl|done].
  - split_and!; auto.
    + intros j Hl. eapply Hj, lookup_insert_other; [exact Hl|done].
    + intros j c' Hl. eapply Hk, lookup_insert_other; [exact Hl|done].
  - assert (c_hooks σ ≠ []) by eauto. split_and!; auto.
  - assert (c_hooks σ ≠ []) by eauto. split_and!; auto; try done. by intros [].
Qed.

Lemma hooks_inv_reachable σ : rtc sstep initial σ → hooks_inv σ.
Proof.
  apply (rtc_ind_r hooks_inv initial); [apply hooks_inv_initial|]. eauto using hooks_inv_step.
Qed.

(** In every interleaving of callers the start hook runs at most once, and
    a stop or kill hook runs again only if a join entered after its last run. *)
Theorem hooks_run_once σ c l1 l2 l3 :
  rtc sstep initial σ → c_hooks σ = l1 ++ c :: l2 ++ c :: l3 → c ≠ CJoin →
  CJoin ∈ l2 ∧ c ≠ CStart.
Proof. intros (_ & _ & _ & _ & Ho)%hooks_inv_reachable. apply Ho. Qed.

(** Stop, join, stop again while the join waits: the join has moved the state
    back from Stopping to Awaiting. *)
Definition stop_twice : config :=
  Config Stopping [InHook CStop; InHook CJoin; InHook CStop] [CStop; CJoin; CStop].
Lemma stop_twice_reachable : rtc sstep initial stop_twice.
Proof.
  eapply rtc_l; [apply (step_call initial CStop)|].
  eapply rtc_l; [by eapply (step_enter _ 0%nat CStop)|].
  eapply rtc_l; [apply (step_call _ CJoin)|].
  eapply rtc_l; [by eapply (step_enter _ 1%nat CJoin)|].
  eapply rtc_l; [apply (step_call _ CStop)|].
  eapply rtc_l; [by eapply (step_enter _ 2%nat CStop)|]. apply rtc_refl.
Qed.

Lemma hooks_run_once_witness : rtc sstep initial stop_twice ∧ CJoin ∈ [CJoin] ∧ CStop ≠ CStart.
Proof.
  split; [exact stop_twice_reachable|].
  apply (hooks_run_once stop_twice CStop [] [CJoin] []); [exact stop_twice_reachable|reflexivity|discriminate].
Defined.

(** [service_await_join] moves a stopping or killed service back to
    Awaiting before its hook runs, so the stop hook can run twice, although the
    state is documented to advance only. *)
Theorem service_state_regresses :
  critical CJoin Killing = Ret (true, Awaiting) ∧
  ∃ σ, rtc sstep initial σ ∧ c_hooks σ = [CStop; CJoin; CStop].
Proof. split; [done|]. exists stop_twice. split; [apply stop_twice_reachable|done]. Qed.

(** ** A service with hooks that return, to run the definitions on *)
Module Probe.
Record t := Mk { st : ServiceState; log : list call }.
Definition note (c : call) : M t () := modify (λ s, Mk (st s) (c :: log s)).
#[global] Instance probe_service : Service t := {
  m_state := st;
  set_m_state x s := Mk x (log s);
  do_service_start := note CStart;
  do_service_await_live := mret ();
  do_service_stop := note CStop;
  do_service_kill := note CKill;
  do_service_await_join := note CJoin;
}.
#[global] Instance probe_laws : ServiceLaws t.
Proof. split; try done; [by intros []|]. by intros [[] ?]. Qed.
End Probe.

Lemma call_in_destructor_safe_witness :
  ∃ s', call_in_destructor (Probe.Mk Running []) = (Ret (), s') ∧ service_destroy s' = (Ret (), s').
Proof. apply (call_in_destructor_safe (Probe.Mk Running [])); reflexivity. Defined.

Lemma service_start_cases_witness :
  service_start (Probe.Mk Initialized []) = (Ret (), Probe.Mk Running [CStart]).
Proof. exact (service_start_cases (Probe.Mk Initialized [])). Defined.
