(* ===== verification/Runner.v ===== *)
(** * Runnables, contexts and runners

    Models [src/public/runnable/runnable.cpp], [context.cpp] and [runner.cpp]
    (with their headers under [include/srf/runnable]).  The instances of a
    runnable run concurrently: each is a task whose program counter walks
    through the lambda of [Runner::enqueue], one atomic access per step, and
    the scheduler and the body of [Runnable::main] choose the interleaving. *)
From S2P Require Import Prelude.

(** ** Runnable *)
Inductive RunnableState := Init | Owned | Run | Stop | Kill.
Definition runnable_rank (s : RunnableState) : nat :=
  match s with Init => 0 | Owned => 1 | Run => 2 | Stop => 3 | Kill => 4 end.

(** [Runnable::update_state]: forward only.  The second component says whether
    the [on_state_update] hook is called. *)
Definition runnable_update_state (m_state new_state : RunnableState) : RunnableState * bool :=
  if runnable_rank m_state <? runnable_rank new_state then (new_state, true) else (m_state, false).

(** ** Runner *)
Inductive RunnerState := Unqueued | Queued | Running | Error | Completed.
#[export] Instance RunnerState_eq_dec : EqDecision RunnerState.
Proof. solve_decision. Defined.
Definition runner_rank (s : RunnerState) : nat :=
  match s with Unqueued => 0 | Queued => 1 | Running => 2 | Error => 3 | Completed => 4 end.

(** [Runner::Instance]: the promise behind [m_live_future] and the result that
    the engine puts behind [m_join_future] ([None] while the task runs). *)
Record Instance := mkInstance {
  m_uid : nat;
  m_state : RunnerState;
  m_live : bool;
  m_join : option (option string);
}.

Record Context := mkContext { rank : nat; m_size : nat; m_exception_ptr : option string }.

Record Runner := mkRunner {
  m_instances : list Instance;
  m_contexts : list Context;
  m_runnable : RunnableState;
  m_status : bool;
  m_remaining_instances : nat;
  m_can_run : bool;
  m_completion_callback : bool;          (* a callback is set *)
  state_changes : list (nat * RunnerState * RunnerState);  (* on_instance_state_change calls *)
  completions : list bool;               (* completion callback calls, newest first *)
}.

Definition set_instances (l : list Instance) (r : Runner) : Runner :=
  mkRunner l (m_contexts r) (m_runnable r) (m_status r) (m_remaining_instances r)
    (m_can_run r) (m_completion_callback r) (state_changes r) (completions r).
Definition set_contexts (l : list Context) (r : Runner) : Runner :=
  mkRunner (m_instances r) l (m_runnable r) (m_status r) (m_remaining_instances r)
    (m_can_run r) (m_completion_callback r) (state_changes r) (completions r).
Definition set_runnable (s : RunnableState) (r : Runner) : Runner :=
  mkRunner (m_instances r) (m_contexts r) s (m_status r) (m_remaining_instances r)
    (m_can_run r) (m_completion_callback r) (state_changes r) (completions r).
Definition set_status (b : bool) (r : Runner) : Runner :=
  mkRunner (m_instances r) (m_contexts r) (m_runnable r) b (m_remaining_instances r)
    (m_can_run r) (m_completion_callback r) (state_changes r) (completions r).
Definition set_remaining (n : nat) (r : Runner) : Runner :=
  mkRunner (m_instances r) (m_contexts r) (m_runnable r) (m_status r) n
    (m_can_run r) (m_completion_callback r) (state_changes r) (completions r).
Definition set_can_run (b : bool) (r : Runner) : Runner :=
  mkRunner (m_instances r) (m_contexts r) (m_runnable r) (m_status r) (m_remaining_instances r)
    b (m_completion_callback r) (state_changes r) (completions r).
Definition log_change (x : nat * RunnerState * RunnerState) (r : Runner) : Runner :=
  mkRunner (m_instances r) (m_contexts r) (m_runnable r) (m_status r) (m_remaining_instances r)
    (m_can_run r) (m_completion_callback r) (x :: state_changes r) (completions r).
Definition log_completion (b : bool) (r : Runner) : Runner :=
  mkRunner (m_instances r) (m_contexts r) (m_runnable r) (m_status r) (m_remaining_instances r)
    (m_can_run r) (m_completion_callback r) (state_changes r) (b :: completions r).

(** The constructor takes ownership of the runnable. *)
Definition Runner_new (runnable : RunnableState) : Runner :=
  mkRunner [] [] (runnable_update_state runnable Owned).1 true 0 true false [] [].

Definition on_completion_callback (r : Runner) : res Runner :=
  if m_completion_callback r then Abort "m_completion_callback == nullptr"
  else Ret (mkRunner (m_instances r) (m_contexts r) (m_runnable r) (m_status r) (m_remaining_instances r)
              (m_can_run r) true (state_changes r) (completions r)).

Definition stop (r : Runner) : Runner := set_runnable (runnable_update_state (m_runnable r) Stop).1 r.
Definition kill (r : Runner) : Runner := set_runnable (runnable_update_state (m_runnable r) Kill).1 r.

(** [Runner::update_state]. *)
Definition update_state (launcher_id : nat) (new_state : RunnerState) (r : Runner) : res Runner :=
  match m_instances r !! launcher_id with
  | None => Abort "launcher_id < m_instances.size()"
  | Some i =>
      if runner_rank (m_state i) <? runner_rank new_state
      then Ret (log_change (launcher_id, m_state i, new_state)
                 (set_instances (<[launcher_id := mkInstance (m_uid i) new_state (m_live i) (m_join i)]> (m_instances r)) r))
      else Abort "Runner::State failed to advance in the proper order"
  end.

(** ** Context *)
Definition status (c : Context) : bool := bool_decide (m_exception_ptr c = None).
(** What the task's future holds after [Context::finish]. *)
Definition finish (c : Context) : option string := m_exception_ptr c.

(** [Context::set_exception] for context [i]: only the first one is kept, and it
    kills the runner. *)
Definition set_exception (i : nat) (e : string) (r : Runner) : Runner :=
  match m_contexts r !! i with
  | Some (mkContext rk sz None) => kill (set_contexts (<[i := mkContext rk sz (Some e)]> (m_contexts r)) r)
  | _ => r
  end.

(** [lock], [unlock] and [barrier] do nothing when the instance is alone. *)
Definition synchronises (c : Context) : bool := 1 <? m_size c.

(** [SpecializedRunner::make_contexts]: ranks [0 .. size-1]. *)
Definition make_contexts (size : nat) : list Context :=
  (λ i, mkContext i size None) <$> seq 0 size.

(** ** Enqueue *)
Fixpoint enqueue_loop (is_ : list nat) (contexts : list Context) (r : Runner) : res Runner :=
  match is_ with
  | [] => Ret r
  | i :: rest =>
      match contexts !! i with
      | None => Undefined "contexts[i] out of range"
      | Some c =>
          let r := set_instances (<[i := mkInstance (rank c) Unqueued false None]> (m_instances r)) r in
          update_state (rank c) Queued r ≫= enqueue_loop rest contexts
      end
  end.

Definition enqueue (launchers : nat) (contexts : list Context) (r : Runner) : res Runner :=
  check (bool_decide (launchers = length contexts)) "launcher->size() == contexts.size()" ;;
  throw_if (negb (m_can_run r)) "Runner::run() is disabled" ;;
  check (bool_decide (length (m_instances r) = 0)) "m_instances.size() == 0" ;;
  let r := set_contexts contexts (set_instances (replicate (length contexts) (mkInstance 0 Unqueued false None)) r) in
  r ← enqueue_loop (seq 0 (length contexts)) contexts r;
  let r := if runnable_rank (m_runnable r) <? runnable_rank Run
           then set_runnable (runnable_update_state (m_runnable r) Run).1 r else r in
  check (bool_decide (length (m_instances r) = launchers)) "m_instances.size() == launcher->launchers().size()" ;;
  Ret (set_remaining launchers r).

(** ** The task of one instance *)
Inductive main_event :=
| MainReturns
| MainThrows (e : string)         (* an exception escapes Runnable::main *)
| MainSetException (e : string).  (* main calls Context::set_exception and goes on *)

Inductive task_pc :=
| TInit                 (* context->init *)
| TRunning              (* update_state(rank, Running) *)
| TLive                 (* m_live_promise.set_value() *)
| TMain                 (* m_runnable->main( *context ) *)
| TStatus               (* if (!context->status()) update_state(rank, Error) *)
| TCompleted            (* update_state(rank, Completed) *)
| TLoad                 (* load m_status and evaluate m_status && status() *)
| TStore (b : bool)     (* store the conjunction *)
| TDecrement            (* --m_remaining_instances *)
| TCallback             (* it was zero: m_completion_callback(m_status) *)
| TFinish               (* context->finish() *)
| TDone                 (* the future is ready *)
| TThrown.              (* the future is ready with what main threw *)
#[export] Instance task_pc_eq_dec : EqDecision task_pc.
Proof. solve_decision. Defined.

Record cfg := Cfg { runner : Runner; pcs : list task_pc }.

Definition set_join (i : nat) (x : option string) (r : Runner) : Runner :=
  match m_instances r !! i with
  | Some a => set_instances (<[i := mkInstance (m_uid a) (m_state a) (m_live a) (Some x)]> (m_instances r)) r
  | None => r
  end.
Definition set_live (i : nat) (r : Runner) : Runner :=
  match m_instances r !! i with
  | Some a => set_instances (<[i := mkInstance (m_uid a) (m_state a) true (m_join a)]> (m_instances r)) r
  | None => r
  end.

(** The next atomic step of the task with context [c] at position [i]. *)
Definition task_action (i : nat) (c : Context) (ev : main_event) (pc : task_pc) (r : Runner) : res (Runner * task_pc) :=
  match pc with
  | TInit => Ret (r, TRunning)
  | TRunning => r' ← update_state (rank c) Running r; Ret (r', TLive)
  | TLive => Ret (set_live i r, TMain)
  | TMain =>
      match ev with
      | MainReturns => Ret (r, TStatus)
      | MainThrows e => Ret (set_join i (Some e) r, TThrown)
      | MainSetException e => Ret (set_exception i e r, TMain)
      end
  | TStatus =>
      if status c then Ret (r, TCompleted)
      else r' ← update_state (rank c) Error r; Ret (r', TCompleted)
  | TCompleted => r' ← update_state (rank c) Completed r; Ret (r', TLoad)
  | TLoad => Ret (r, TStore (m_status r && status c))
  | TStore b => Ret (set_status b r, TDecrement)
  | TDecrement =>
      let n := Nat.pred (m_remaining_instances r) in
      Ret (set_remaining n r, if decide (n = 0%nat) then TCallback else TFinish)
  | TCallback => Ret (if m_completion_callback r then log_completion (m_status r) r else r, TFinish)
  | TFinish => Ret (set_join i (finish c) r, TDone)
  | TDone | TThrown => Ret (r, pc)
  end.

Definition task (i : nat) (ev : main_event) (σ : cfg) : res cfg :=
  match pcs σ !! i, m_contexts (runner σ) !! i with
  | Some pc, Some c =>
      '(r, pc') ← task_action i c ev pc (runner σ); Ret (Cfg r (<[i := pc']> (pcs σ)))
  | _, _ => Ret σ
  end.

Definition launch (n : nat) (r : Runner) : res cfg :=
  r' ← enqueue n (make_contexts n) r; Ret (Cfg r' (replicate n TInit)).

(** The steps of the system: a task advances, or somebody stops or kills it. *)
Inductive rstep : cfg → cfg → Prop :=
| step_task σ σ' i ev : task i ev σ = Ret σ' → rstep σ σ'
| step_stop σ : rstep σ (Cfg (stop (runner σ)) (pcs σ))
| step_kill σ : rstep σ (Cfg (kill (runner σ)) (pcs σ)).

Fixpoint run (schedule : list (nat * main_event)) (σ : cfg) : res cfg :=
  match schedule with
  | [] => Ret σ
  | (i, ev) :: rest => task i ev σ ≫= run rest
  end.

(** ** Joining *)
Fixpoint first_exception (l : list Instance) (first : option string) : option (option string) :=
  match l with
  | [] => Some first
  | a :: l' =>
      match m_join a with
      | None => None                                 (* blocks on the future *)
      | Some x => first_exception l' (match first with None => x | Some _ => first end)
      end
  end.

(** [Runner::await_join]: [None] while it blocks. *)
Definition await_join (r : Runner) : option (res () * Runner) :=
  match first_exception (m_instances r) None with
  | None => None
  | Some first =>
      let r' := set_instances [] r in
      Some (match first with Some e => Throw e | None => Ret () end, r')
  end.

Definition await_live (r : Runner) : bool := forallb m_live (m_instances r).

(** [~Runner]: the loop over [m_instances] calls [await_join], which clears the
    vector under it; an exception leaving the destructor terminates. *)
Definition Runner_destroy (r : Runner) : option (res () * Runner) :=
  let is_running := negb (bool_decide (m_instances r = [])) in
  let r := set_can_run false r in
  if is_running then
    let r := set_runnable (runnable_update_state (m_runnable r) Kill).1 r in
    match await_join r with
    | None => None
    | Some (Throw e, r') => Some (Abort "std::terminate: exception leaves ~Runner", r')
    | Some (Ret _, r') => Some (Undefined "range-for over the vector that await_join cleared", r')
    | Some x => Some x
    end
  else Some (Ret (), r).

(** ** What every interleaving maintains *)
Definition expected (pc : task_pc) (s : RunnerState) : Prop :=
  match pc with
  | TInit | TRunning => s = Queued
  | TLive | TMain | TStatus => s = Running
  | TCompleted => s = Running ∨ s = Error
  | TThrown => True
  | _ => s = Completed
  end.

Definition shape (n : nat) (σ : cfg) : Prop :=
  length (pcs σ) = n ∧ length (m_instances (runner σ)) = n ∧ length (m_contexts (runner σ)) = n ∧
  (∀ i c, m_contexts (runner σ) !! i = Some c → rank c = i) ∧
  (∀ i pc a, pcs σ !! i = Some pc → m_instances (runner σ) !! i = Some a → expected pc (m_state a)).

(** The task still has to count itself down. *)
Definition pending (pc : task_pc) : bool :=
  match pc with TCallback | TFinish | TDone => false | _ => true end.
Definition calling (pc : task_pc) : bool := bool_decide (pc = TCallback).

Definition counted (n : nat) (σ : cfg) : Prop :=
  m_remaining_instances (runner σ) = countb pending (pcs σ) ∧
  (m_completion_callback (runner σ) = true →
   countb calling (pcs σ) + length (completions (runner σ)) =
   if decide (0 < n ∧ countb pending (pcs σ) = 0) then 1 else 0)%nat.

Definition failed (r : Runner) : Prop := ∃ c, c ∈ m_contexts r ∧ status c = false.

Definition blamed (σ : cfg) : Prop :=
  (m_status (runner σ) = false → failed (runner σ)) ∧
  (∀ i, pcs σ !! i = Some (TStore false) → failed (runner σ)) ∧
  (false ∈ completions (runner σ) → failed (runner σ)).

Definition rinv (n : nat) (σ : cfg) : Prop := shape n σ ∧ counted n σ ∧ blamed σ.

Lemma update_state_ok i st r a :
  m_instances r !! i = Some a → runner_rank (m_state a) < runner_rank st →
  update_state i st r =
    Ret (log_change (i, m_state a, st)
          (set_instances (<[i := mkInstance (m_uid a) st (m_live a) (m_join a)]> (m_instances r)) r)).
Proof. intros Ha Hlt. unfold update_state. rewrite Ha. by apply Nat.ltb_lt in Hlt as ->. Qed.

Lemma expected_insert n (l : list Instance) (ps : list task_pc) i pc' a' :
  length l = n → length ps = n →
  (∀ j pc a, ps !! j = Some pc → l !! j = Some a → expected pc (m_state a)) →
  expected pc' (m_state a') →
  ∀ j pc a, <[i := pc']> ps !! j = Some pc → <[i := a']> l !! j = Some a → expected pc (m_state a).
Proof.
  intros Hl Hp Hall He j pc a.
  rewrite !list_lookup_insert_Some. intros [(-> & -> & ?)|(? & ?)] [(? & -> & ?)|(? & ?)]; naive_solver.
Qed.

Lemma task_enabled n σ i ev pc c :
  shape n σ → pcs σ !! i = Some pc → m_contexts (runner σ) !! i = Some c →
  ∃ r pc', task_action i c ev pc (runner σ) = Ret (r, pc').
Proof.
  intros (Hp & Hi & Hc & Hr & He) Hpc Hctx. pose proof (Hr _ _ Hctx) as Hrank.
  destruct (lookup_lt_is_Some_2 (m_instances (runner σ)) i) as [a Ha].
  { rewrite Hi, <- Hp. by eapply lookup_lt_Some. }
  pose proof (He _ _ _ Hpc Ha) as Hexp. rewrite <-Hrank in Ha.
  destruct pc; simpl in *; try by repeat eexists.
  - rewrite (update_state_ok _ _ _ a) by (done || rewrite Hexp; simpl; lia). by repeat eexists.
  - destruct ev; by repeat eexists.
  - destruct (status c); [by repeat eexists|].
    rewrite (update_state_ok _ _ _ a) by (done || rewrite Hexp; simpl; lia). by repeat eexists.
  - rewrite (update_state_ok _ _ _ a) by (done || destruct Hexp as [-> | ->]; simpl; lia). by repeat eexists.
Qed.

Lemma update_state_frame i st r r2 :
  update_state i st r = Ret r2 →
  m_contexts r2 = m_contexts r ∧ m_completion_callback r2 = m_completion_callback r ∧
  m_status r2 = m_status r ∧ m_remaining_instances r2 = m_remaining_instances r ∧
  completions r2 = completions r.
Proof.
  unfold update_state. destruct (_ !! _); [|done]. case_match; [|done]. intros; by simplify_eq.
Qed.

Lemma set_live_frame i r :
  m_contexts (set_live i r) = m_contexts r ∧ m_completion_callback (set_live i r) = m_completion_callback r ∧
  m_status (set_live i r) = m_status r ∧ m_remaining_instances (set_live i r) = m_remaining_instances r ∧
  completions (set_live i r) = completions r.
Proof. unfold set_live. by destruct (_ !! _). Qed.
Lemma set_join_frame i x r :
  m_contexts (set_join i x r) = m_contexts r ∧ m_completion_callback (set_join i x r) = m_completion_callback r ∧
  m_status (set_join i x r) = m_status r ∧ m_remaining_instances (set_join i x r) = m_remaining_instances r ∧
  completions (set_join i x r) = completions r.
Proof. unfold set_join. by destruct (_ !! _). Qed.
Lemma set_exception_frame i e r :
  m_instances (set_exception i e r) = m_instances r ∧
  m_completion_callback (set_exception i e r) = m_completion_callback r ∧
  m_status (set_exception i e r) = m_status r ∧
  m_remaining_instances (set_exception i e r) = m_remaining_instances r ∧
  completions (set_exception i e r) = completions r.
Proof. unfold set_exception, kill. by destruct (_ !! _) as [[? ? []]|]. Qed.

Section action.
Context (i : nat) (c : Context) (ev : main_event) (pc pc' : task_pc) (r r' : Runner) (a : Instance).
Context (Hact : task_action i c ev pc r = Ret (r', pc')) (Hrank : rank c = i).
Context (Hctx : m_contexts r !! i = Some c) (Ha : m_instances r !! i = Some a) (Hexp : expected pc (m_state a)).

Lemma action_instances :
  ∃ a', m_instances r' = <[i := a']> (m_instances r) ∧ expected pc' (m_state a').
Proof.
  assert (<[i := a]> (m_instances r) = m_instances r) as Hid by (by apply list_insert_id).
  destruct pc; simpl in *; rewrite ?Hrank in Hact; simplify_eq;
    try (rewrite (update_state_ok _ _ _ a) in Hact
      by (done || (rewrite Hexp; simpl; lia) || (destruct Hexp as [-> | ->]; simpl; lia)); simplify_eq/=; by eexists);
    try (by exists a).
  - unfold set_live. rewrite Ha. by eexists.
  - destruct ev; simplify_eq; [by exists a| |].
    + unfold set_join. rewrite Ha. by eexists.
    + exists a. split; [|done]. rewrite Hid. unfold set_exception, kill. by destruct (m_contexts r !! _) as [[? ? []]|].
  - destruct (status c); simplify_eq; [exists a; naive_solver|].
    rewrite (update_state_ok _ _ _ a) in Hact by (done || (rewrite Hexp; simpl; lia)). simplify_eq/=.
    eexists. split; [done|]. by right.
  - exists a. split; [done|]. by case_decide.
  - exists a. by destruct (m_completion_callback r).
  - unfold set_join. rewrite Ha. by eexists.
Qed.

Lemma action_contexts :
  ∃ c', m_contexts r' = <[i := c']> (m_contexts r) ∧ rank c' = rank c ∧ (status c = false → status c' = false).
Proof using Hact Hrank Hctx. clear Hexp Ha a.
  assert (<[i := c]> (m_contexts r) = m_contexts r) as Hid by (by apply list_insert_id).
  destruct pc; simpl in *; simplify_eq;
    try (destruct (update_state _ _ _) as [r2|?|?|?] eqn:Eu; simplify_eq/=;
         apply update_state_frame in Eu as (? & _); exists c; by rewrite Hid); try (by exists c).
  - exists c. rewrite Hid. by destruct (set_live_frame (rank c) r) as (-> & _).
  - destruct ev as [|e|e]; simplify_eq; [by exists c| |].
    + exists c. rewrite Hid. by destruct (set_join_frame (rank c) (Some e) r) as (-> & _).
    + unfold set_exception, kill. rewrite Hctx. destruct c as [rk sz [ex|]]; simpl in *;
        [by exists (mkContext rk sz (Some ex))|by eexists].
  - destruct (status c) eqn:Es; simplify_eq; [by exists c|].
    destruct (update_state _ _ _) as [r2|?|?|?] eqn:Eu; simplify_eq/=.
    apply update_state_frame in Eu as (? & _). exists c. by rewrite Hid.
  - exists c. by destruct (m_completion_callback r).
  - exists c. rewrite Hid. by destruct (set_join_frame (rank c) (finish c) r) as (-> & _).
Qed.

(** The counters move only on the last three steps. *)
Lemma action_counters :
  m_completion_callback r' = m_completion_callback r ∧
  match pc with
  | TStore b => m_status r' = b | _ => m_status r' = m_status r
  end ∧
  match pc with
  | TDecrement =>
      m_remaining_instances r' = Nat.pred (m_remaining_instances r) ∧ completions r' = completions r ∧
      pc' = (if decide (Nat.pred (m_remaining_instances r) = 0%nat) then TCallback else TFinish)
  | TCallback =>
      m_remaining_instances r' = m_remaining_instances r ∧ pc' = TFinish ∧
      completions r' = if m_completion_callback r then m_status r :: completions r else completions r
  | _ =>
      m_remaining_instances r' = m_remaining_instances r ∧ completions r' = completions r ∧
      pending pc' = pending pc ∧ calling pc' = calling pc ∧
      (pc' = TStore false → pc = TLoad ∧ (m_status r = false ∨ status c = false))
  end.
Proof using Hact. clear Hexp Ha Hctx Hrank a.
  destruct pc; simpl in *; simplify_eq;
    try (destruct (update_state _ _ _) as [r2|?|?|?] eqn:Eu; simplify_eq/=;
         apply update_state_frame in Eu; naive_solver); try done.
  - pose proof (set_live_frame i r); naive_solver.
  - destruct ev as [|e|e]; simplify_eq; [done| |].
    + pose proof (set_join_frame i (Some e) r); naive_solver.
    + pose proof (set_exception_frame i e r); naive_solver.
  - destruct (status c) eqn:Es; simplify_eq; [done|].
    destruct (update_state _ _ _) as [r2|?|?|?] eqn:Eu; simplify_eq/=.
    apply update_state_frame in Eu. naive_solver.
  - split_and!; try done. intros Hb. split; [done|]. injection Hb as Hb. by apply andb_false_iff in Hb.
  - destruct (m_completion_callback r) eqn:Ecb; simpl; by rewrite ?Ecb.
  - pose proof (set_join_frame i (finish c) r); naive_solver.
Qed.
End action.

Lemma shape_step n σ i ev σ' : shape n σ → task i ev σ = Ret σ' → shape n σ'.
Proof.
  intros Hs Ht. pose proof Hs as (Hp & Hi & Hc & Hr & He). unfold task in Ht.
  destruct (pcs σ !! i) as [pc|] eqn:Epc; [|by simplify_eq].
  destruct (m_contexts (runner σ) !! i) as [c|] eqn:Ec; [|by simplify_eq].
  destruct (task_action _ _ _ _ _) as [[r' pc']|?|?|?] eqn:Ea; simplify_eq/=.
  destruct (lookup_lt_is_Some_2 (m_instances (runner σ)) i) as [a Ha].
  { rewrite Hi, <- Hc. by eapply lookup_lt_Some. }
  pose proof (He _ _ _ Epc Ha) as Hexp. pose proof (Hr _ _ Ec) as Hrank.
  destruct (action_instances i c ev pc pc' (runner σ) r' a) as (a' & HI & He'); try done.
  destruct (action_contexts i c ev pc pc' (runner σ) r' ) as (c' & HC & Hrk & _); try done.
  unfold shape. simpl. rewrite HI, HC, !length_insert. split_and!; try done.
  - intros j cj Hj. apply list_lookup_insert_Some in Hj as [(<- & <- & _)|[_ Hj]]; [congruence|auto].
  - eapply expected_insert; eauto.
Qed.

Lemma counted_step n σ i ev σ' : shape n σ → counted n σ → task i ev σ = Ret σ' → counted n σ'.
Proof.
  intros Hs [Hrem Hcb] Ht. pose proof Hs as (Hp & _). unfold task in Ht.
  destruct (pcs σ !! i) as [pc|] eqn:Epc; [|by simplify_eq].
  destruct (m_contexts (runner σ) !! i) as [c|] eqn:Ec; [|by simplify_eq].
  destruct (task_action _ _ _ _ _) as [[r' pc']|?|?|?] eqn:Ea; simplify_eq/=.
  pose proof (countb_insert pending (pcs σ) i pc pc' Epc) as Hpe.
  pose proof (countb_insert calling (pcs σ) i pc pc' Epc) as Hca.
  pose proof (countb_elem pending (pcs σ) i pc Epc) as Hpe1.
  assert (0 < length (pcs σ)) as Hn by (apply lookup_lt_Some in Epc; lia).
  destruct (action_counters i c ev pc pc' (runner σ) r' Ea) as (Hcb' & _ & Hcase).
  unfold counted. simpl. rewrite Hcb'.
  destruct pc; simpl in *; destruct Hcase as (Hr & Hco & Hcase);
    try (destruct Hcase as (Hpe' & Hca' & _); rewrite Hpe' in Hpe; rewrite Hca' in Hca; simpl in *;
         rewrite Hr, Hco; split; [lia|]; intros Hcbt; specialize (Hcb Hcbt); repeat case_decide; lia).
  - rewrite Hr, Hco. subst pc'. specialize (Hpe1 eq_refl). rewrite Hrem in *.
    split; [case_decide; simpl in *; lia|]. intros Hcbt; specialize (Hcb Hcbt).
    repeat case_decide; simpl in *; lia.
  - subst pc'. simpl in *. rewrite Hr, Hcase. split; [lia|]. intros Hcbt; specialize (Hcb Hcbt). rewrite Hcbt.
    simpl. repeat case_decide; lia.
Qed.

Lemma failed_step i c ev pc pc' r r' :
  task_action i c ev pc r = Ret (r', pc') → m_contexts r !! i = Some c → rank c = i → failed r → failed r'.
Proof.
  intros Ha Hc Hr (cf & Hcf & Hst).
  destruct (action_contexts i c ev pc pc' r r') as (c' & HC & _ & Hm); try done.
  apply list_elem_of_lookup_1 in Hcf as [j Hj].
  destruct (decide (i = j)) as [<-|Hne].
  - exists c'. assert (c = cf) as -> by congruence. split; [|auto]. rewrite HC.
    apply list_elem_of_lookup_2 with i. apply list_lookup_insert_eq. by eapply lookup_lt_Some.
  - exists cf. split; [|done]. rewrite HC. apply list_elem_of_lookup_2 with j. by rewrite list_lookup_insert_ne.
Qed.

Lemma blamed_step n σ i ev σ' : shape n σ → blamed σ → task i ev σ = Ret σ' → blamed σ'.
Proof.
  intros (_ & _ & _ & Hrk & _) (Hb1 & Hb2 & Hb3) Ht. unfold task in Ht.
  destruct (pcs σ !! i) as [pc|] eqn:Epc; [|by simplify_eq].
  destruct (m_contexts (runner σ) !! i) as [c|] eqn:Ec; [|by simplify_eq].
  destruct (task_action _ _ _ _ _) as [[r' pc']|?|?|?] eqn:Ea; simplify_eq/=.
  pose proof (failed_step _ _ _ _ _ _ _ Ea Ec (Hrk _ _ Ec)) as Hf.
  destruct (action_counters i c ev pc pc' (runner σ) r' Ea) as (_ & Hst & Hcase).
  assert (status c = false → failed (runner σ)) as Hc by (exists c; split; [by eapply list_elem_of_lookup_2|done]).
  assert (pc' = TStore false → failed (runner σ)) as Hs.
  { intros ->. destruct pc; try (destruct Hcase as (_ & _ & _ & _ & [] ); [done|]; naive_solver);
      destruct Hcase as (_ & ? & ?); repeat case_decide; done. }
  unfold blamed; simpl. split_and!.
  - intros Hm. apply Hf. destruct pc; try (apply Hb1; congruence). apply (Hb2 i). congruence.
  - intros j [(_ & ? & _)|[_ ?]]%list_lookup_insert_Some; eauto.
  - intros Hin. apply Hf. destruct pc; destruct Hcase as (_ & Hco & Hcase); try (rewrite Hco in Hin; auto; fail).
    rewrite Hcase in Hin. destruct (m_completion_callback _); set_solver.
Qed.

(** ** Enqueueing succeeds and queues every instance *)
Lemma enqueue_loop_ok contexts m k r :
  (∀ i c, contexts !! i = Some c → rank c = i) → k + m = length contexts →
  length (m_instances r) = length contexts →
  ∃ r', enqueue_loop (seq k m) contexts r = Ret r' ∧ length (m_instances r') = length contexts ∧
    (∀ j, (k ≤ j < length contexts)%nat → m_instances r' !! j = Some (mkInstance j Queued false None)) ∧
    (∀ j, (j < k)%nat → m_instances r' !! j = m_instances r !! j) ∧
    m_contexts r' = m_contexts r ∧ m_completion_callback r' = m_completion_callback r ∧
    m_status r' = m_status r ∧ completions r' = completions r ∧ m_runnable r' = m_runnable r.
Proof.
  intros Hrk. revert k r. induction m as [|m IH]; intros k r Hkm Hl; simpl.
  - exists r. split_and!; try done. lia.
  - destruct (lookup_lt_is_Some_2 contexts k) as [c Hc]; [lia|]. rewrite Hc, (Hrk _ _ Hc).
    rewrite (update_state_ok _ _ _ (mkInstance k Unqueued false None)); [|apply list_lookup_insert_eq; lia|simpl; lia].
    destruct (IH (S k) (log_change (k, Unqueued, Queued) (set_instances (<[k:=mkInstance k Queued false None]> (m_instances r)) r)))
      as (r' & Hr' & Hlen & Hq & Hlow & Hfr); [lia|simpl; rewrite length_insert; lia|].
    exists r'. simpl. rewrite list_insert_insert_eq. split_and!; try tauto.
    + intros j Hj. destruct (decide (j = k)) as [->|]; [|apply Hq; lia].
      rewrite Hlow by lia. simpl. apply list_lookup_insert_eq. lia.
    + intros j Hj. rewrite Hlow by lia. simpl. apply list_lookup_insert_ne. lia.
Qed.

Lemma make_contexts_lookup n i c : make_contexts n !! i = Some c ↔ c = mkContext i n None ∧ (i < n)%nat.
Proof.
  unfold make_contexts. rewrite list_lookup_fmap, fmap_Some. split.
  - intros (j & Hj & ->). apply lookup_seq in Hj as [-> ?]. done.
  - intros [-> Hi]. exists i. split; [|done]. by apply lookup_seq.
Qed.
Lemma make_contexts_length n : length (make_contexts n) = n.
Proof. unfold make_contexts. by rewrite length_fmap, length_seq. Qed.

(** A runner that can be enqueued: nothing runs and nothing was reported. *)
Definition idle (r : Runner) : Prop :=
  m_instances r = [] ∧ m_can_run r = true ∧ m_status r = true ∧ completions r = [].

Lemma launch_ok n r : idle r → ∃ σ, launch n r = Ret σ ∧ rinv n σ ∧
  m_completion_callback (runner σ) = m_completion_callback r.
Proof.
  intros (Hi & Hcr & Hst & Hco). unfold launch, enqueue. rewrite make_contexts_length, Hcr, Hi.
  rewrite !bool_decide_true by done. simpl.
  destruct (enqueue_loop_ok (make_contexts n) n 0
    (set_contexts (make_contexts n) (set_instances (replicate n (mkInstance 0 Unqueued false None)) r)))
    as (r' & -> & Hlen & Hq & _ & Hc & Hcb & Hs & Hcomp & _).
  { intros i c [-> _]%make_contexts_lookup. done. } { by rewrite make_contexts_length. }
  { simpl. by rewrite length_replicate, make_contexts_length. }
  rewrite make_contexts_length in *. simpl in *.
  match goal with |- context [ set_remaining n ?x ] => set (r2 := x) end.
  assert (m_instances r2 = m_instances r' ∧ m_contexts r2 = m_contexts r' ∧ m_completion_callback r2 = m_completion_callback r'
    ∧ m_status r2 = m_status r' ∧ completions r2 = completions r') as (HI & HC & HCB & HS & HCO)
    by (subst r2; by destruct (_ <? _)).
  rewrite HI, bool_decide_true by done. simpl. eexists. split; [done|]. simpl. split; [|congruence].
  unfold rinv, shape, counted, blamed. split_and!; simpl; rewrite ?HI, ?HC, ?HCB, ?HS, ?HCO, ?Hcomp, ?Hco, ?Hs, ?Hst, ?Hc, ?length_replicate, ?make_contexts_length; try done.
  - intros i c [-> _]%make_contexts_lookup. done.
  - intros i pc a [-> Hlt]%lookup_replicate Ha. rewrite Hq in Ha by lia. by simplify_eq.
  - by rewrite countb_replicate.
  - intros _. rewrite !countb_replicate. simpl. case_decide; simpl; lia.
  - by intros ? [? _]%lookup_replicate.
  - set_solver.
Qed.

Lemma rinv_step n σ σ' : rinv n σ → rstep σ σ' → rinv n σ'.
Proof.
  intros (Hs & Hc & Hb) Hstep. destruct Hstep as [σ1 σ2 i ev Ht|σ1|σ1]; [|exact (conj Hs (conj Hc Hb))..].
  split_and!; eauto using shape_step, counted_step, blamed_step.
Qed.

Lemma callback_kept σ σ' : rstep σ σ' → m_completion_callback (runner σ') = m_completion_callback (runner σ).
Proof.
  intros [σ1 σ2 i ev Ht|σ1|σ1]; [|done|done]. unfold task in Ht.
  destruct (pcs σ1 !! i) as [pc|] eqn:Epc; [|by simplify_eq].
  destruct (m_contexts (runner σ1) !! i) as [c|] eqn:Ec; [|by simplify_eq].
  destruct (task_action _ _ _ _ _) as [[r' pc']|?|?|?] eqn:Ea; simplify_eq/=.
  by destruct (action_counters _ _ _ _ _ _ _ Ea) as [? _].
Qed.

Lemma rinv_reachable n r σ0 σ :
  idle r → launch n r = Ret σ0 → rtc rstep σ0 σ →
  rinv n σ ∧ m_completion_callback (runner σ) = m_completion_callback r.
Proof.
  intros Hidle Hl. destruct (launch_ok n r Hidle) as (σ1 & Hl' & Hinv & Hcb). rewrite Hl in Hl'. injection Hl' as <-.
  apply (rtc_ind_r (λ σ, rinv n σ ∧ m_completion_callback (runner σ) = m_completion_callback r) σ0); [by split|].
  intros σ1 σ2 _ Hstep [Hi Hc]. split; [by eapply rinv_step|]. by rewrite (callback_kept _ _ Hstep).
Qed.

Lemma run_steps sch σ σ' : run sch σ = Ret σ' → rtc rstep σ σ'.
Proof.
  revert σ. induction sch as [|[i ev] sch IH]; simpl; intros σ Hr; [by simplify_eq|].
  destruct (task i ev σ) as [σ1|?|?|?] eqn:Et; simplify_eq/=.
  eapply rtc_l; [by eapply step_task|auto].
Qed.

(** C7: in every interleaving of the instances of a runner with stops and kills,
    no CHECK of [Runner::update_state] fails: whichever task is scheduled next,
    its step succeeds. *)
Theorem runner_never_aborts n r σ0 σ i ev :
  idle r → launch n r = Ret σ0 → rtc rstep σ0 σ → ∃ σ', task i ev σ = Ret σ'.
Proof.
  intros Hidle Hl Hr. destruct (rinv_reachable _ _ _ _ Hidle Hl Hr) as [(Hs & _) _].
  unfold task. destruct (pcs σ !! i) as [pc|] eqn:Epc; [|eauto].
  destruct (m_contexts (runner σ) !! i) as [c|] eqn:Ec; [|eauto].
  destruct (task_enabled n σ i ev pc c Hs Epc Ec) as (r' & pc' & ->). simpl. eauto.
Qed.

(** The completion callback runs at most once, only after every instance has
    counted itself down; once every instance's task has returned (and [main] threw
    in none) it has run exactly once; and it reports failure only if the context
    of some instance holds an exception. *)
Theorem completion_callback_once n r σ0 σ :
  idle r → m_completion_callback r = true → (0 < n)%nat → launch n r = Ret σ0 → rtc rstep σ0 σ →
  (length (completions (runner σ)) ≤ 1)%nat ∧
  (completions (runner σ) ≠ [] → Forall (λ pc, pending pc = false) (pcs σ)) ∧
  (Forall (λ pc, pc = TDone) (pcs σ) → ∃ ok, completions (runner σ) = [ok]) ∧
  (completions (runner σ) = [false] → failed (runner σ)).
Proof.
  intros Hidle Hcbr Hn Hl Hr. destruct (rinv_reachable _ _ _ _ Hidle Hl Hr) as [(Hs & [_ Hc] & (_ & _ & Hb)) Hcb].
  specialize (Hc ltac:(congruence)). split_and!.
  - case_decide; lia.
  - intros Hne. destruct (completions (runner σ)) as [|b l]; [done|]. case_decide; simpl in *; [|lia].
    apply countb_zero. tauto.
  - intros Hd. assert (countb pending (pcs σ) = 0) as Hp0
      by (apply countb_zero; eapply Forall_impl; [exact Hd|]; by intros ? ->).
    assert (countb calling (pcs σ) = 0) as Hc0
      by (apply countb_zero; eapply Forall_impl; [exact Hd|]; by intros ? ->).
    rewrite decide_True in Hc by (split; [lia|done]).
    destruct (completions (runner σ)) as [|b [|b' l]]; simpl in *; [lia|eauto|lia].
  - intros Heq. apply Hb. rewrite Heq. apply list_elem_of_here.
Qed.

(** The schedule of one instance whose [main] returns, and of one whose [main]
    records an exception. *)
Definition steps_ok (i k : nat) : list (nat * main_event) := replicate k (i, MainReturns).
Definition started (cb : bool) : Runner := mkRunner [] [] Owned true 0 true cb [] [].
Definition lost_update : list (nat * main_event) :=
  replicate 3 (0%nat, MainReturns) ++ [(0%nat, MainSetException "boom")] ++ replicate 3 (0%nat, MainReturns)
  ++ steps_ok 1 7                       (* instance 1 has loaded m_status = true *)
  ++ steps_ok 0 4                       (* instance 0 stores false and counts down *)
  ++ steps_ok 1 4.                      (* instance 1 stores true and reports *)

Lemma started_idle cb : idle (started cb).
Proof. done. Qed.

Lemma runner_never_aborts_witness :
  ∃ σ0, launch 2 (started true) = Ret σ0 ∧ ∃ σ', task 1 MainReturns σ0 = Ret σ'.
Proof.
  eexists. split; [vm_compute; reflexivity|].
  eapply (runner_never_aborts 2 (started true)); [apply started_idle|vm_compute; reflexivity|apply rtc_refl].
Defined.

Lemma completion_callback_once_witness :
  ∃ σ0 σ, launch 1 (started true) = Ret σ0 ∧ run (steps_ok 0 12) σ0 = Ret σ ∧
    ∃ ok, completions (runner σ) = [ok].
Proof.
  do 2 eexists. split; [vm_compute; reflexivity|]. split; [vm_compute; reflexivity|].
  eapply (completion_callback_once 1 (started true));
    [apply started_idle|reflexivity|lia|vm_compute; reflexivity
    |eapply (run_steps (steps_ok 0 12)); vm_compute; reflexivity|repeat constructor].
Defined.

(** [m_status = m_status && context->status()] is a load followed by a store:
    with two instances there is an interleaving in which one of them fails and the
    completion callback still reports success, against its documentation. *)
Theorem completion_status_lost_update :
  ∃ σ0 σ, launch 2 (started true) = Ret σ0 ∧ run lost_update σ0 = Ret σ ∧
    Forall (λ pc, pc = TDone) (pcs σ) ∧ failed (runner σ) ∧ completions (runner σ) = [true].
Proof.
  do 2 eexists. split; [vm_compute; reflexivity|]. split; [vm_compute; reflexivity|].
  split; [repeat constructor|]. split; [|reflexivity].
  eexists. split; [apply list_elem_of_here|reflexivity].
Qed.

(** When an exception escapes [main] itself, the instance never counts itself
    down, so the completion callback is never called, although the documentation
    promises a call with [false] for uncaught exceptions. *)
Theorem uncaught_exception_no_callback n r σ0 σ :
  idle r → m_completion_callback r = true → launch n r = Ret σ0 → rtc rstep σ0 σ →
  TThrown ∈ pcs σ → completions (runner σ) = [].
Proof.
  intros Hidle Hcbr Hl Hr Hin. destruct (rinv_reachable _ _ _ _ Hidle Hl Hr) as [(Hs & [_ Hc] & _) Hcb].
  specialize (Hc ltac:(congruence)). apply list_elem_of_lookup_1 in Hin as [i Hi].
  pose proof (countb_elem pending (pcs σ) i TThrown Hi eq_refl).
  rewrite decide_False in Hc by lia. destruct (completions (runner σ)); [done|simpl in *; lia].
Qed.

Lemma uncaught_exception_no_callback_witness :
  ∃ σ0 σ, launch 1 (started true) = Ret σ0 ∧
    run [(0%nat, MainReturns); (0%nat, MainReturns); (0%nat, MainReturns); (0%nat, MainThrows "boom")] σ0 = Ret σ ∧
    completions (runner σ) = [].
Proof.
  do 2 eexists. split; [vm_compute; reflexivity|]. split; [vm_compute; reflexivity|].
  eapply (uncaught_exception_no_callback 1 (started true));
    [apply started_idle|reflexivity|vm_compute; reflexivity
    |eapply (run_steps [(0%nat, MainReturns); (0%nat, MainReturns); (0%nat, MainReturns); (0%nat, MainThrows "boom")]); vm_compute; reflexivity
    |apply list_elem_of_here].
Defined.

(** ** Joining waits for every instance and rethrows the first failure *)
Definition join_of (pc : task_pc) (c : Context) (j : option (option string)) : Prop :=
  match pc with
  | TDone => j = Some (m_exception_ptr c)
  | TThrown => ∃ e, j = Some (Some e)
  | _ => j = None
  end.

Definition joined (σ : cfg) : Prop :=
  ∀ i pc a c, pcs σ !! i = Some pc → m_instances (runner σ) !! i = Some a →
    m_contexts (runner σ) !! i = Some c → join_of pc c (m_join a).

(** Each step changes at most the instance and the context of its own task. *)
Lemma action_join i c ev pc pc' r r' a :
  task_action i c ev pc r = Ret (r', pc') → rank c = i → m_contexts r !! i = Some c →
  m_instances r !! i = Some a → join_of pc c (m_join a) →
  ∃ a' c', m_instances r' = <[i := a']> (m_instances r) ∧ m_contexts r' = <[i := c']> (m_contexts r) ∧
    join_of pc' c' (m_join a').
Proof.
  intros Hact Hrank Hctx Ha Hj.
  assert (<[i := a]> (m_instances r) = m_instances r) as Hid by (by apply list_insert_id).
  assert (<[i := c]> (m_contexts r) = m_contexts r) as Hidc by (by apply list_insert_id).
  assert (∀ st r2, update_state (rank c) st r = Ret r2 → ∃ a', m_instances r2 = <[i := a']> (m_instances r) ∧
    m_contexts r2 = <[i := c]> (m_contexts r) ∧ m_join a' = m_join a) as Hu.
  { intros st r2. unfold update_state. rewrite Hrank, Ha, Hidc. case_match; [|done]. intros; simplify_eq. by eexists. }
  destruct pc; simpl in *; simplify_eq; try (by exists a, c);
    try (destruct (update_state _ _ _) as [r2|?|?|?] eqn:Eu; simplify_eq/=;
         apply Hu in Eu as (a' & ? & ? & Hj'); exists a', c; rewrite Hj'; by split_and!).
  - unfold set_live. rewrite Ha. eexists _, c. by rewrite Hidc.
  - destruct ev as [|e|e]; simplify_eq; [by exists a, c| |].
    + unfold set_join. rewrite Ha. eexists _, c. rewrite Hidc. simpl. eauto.
    + exists a. destruct (set_exception_frame (rank c) e r) as (-> & _). unfold set_exception, kill. rewrite Hctx, Hid.
      destruct c as [rk sz [ex|]]; simpl in *; [by exists (mkContext rk sz (Some ex))|by eexists].
  - destruct (status c); simplify_eq; [by exists a, c|].
    destruct (update_state _ _ _) as [r2|?|?|?] eqn:Eu; simplify_eq/=.
    apply Hu in Eu as (a' & ? & ? & Hj'). exists a', c. rewrite Hj'. by split_and!.
  - exists a, c. rewrite Hid, Hidc. by case_decide.
  - exists a, c. rewrite Hid, Hidc. by destruct (m_completion_callback r).
  - unfold set_join. rewrite Ha. eexists _, c. by rewrite Hidc.
Qed.

Lemma joined_step n σ i ev σ' : shape n σ → joined σ → task i ev σ = Ret σ' → joined σ'.
Proof.
  intros (Hp & Hi & Hc & Hr & He) Hj Ht. unfold task in Ht.
  destruct (pcs σ !! i) as [pc|] eqn:Epc; [|by simplify_eq].
  destruct (m_contexts (runner σ) !! i) as [c|] eqn:Ec; [|by simplify_eq].
  destruct (task_action _ _ _ _ _) as [[r' pc']|?|?|?] eqn:Ea; simplify_eq/=.
  destruct (lookup_lt_is_Some_2 (m_instances (runner σ)) i) as [a Ha].
  { rewrite Hi, <- Hc. by eapply lookup_lt_Some. }
  destruct (action_join i c ev pc pc' (runner σ) r' a) as (a' & c' & HI & HC & Hj'); eauto.
  intros j pcj aj cj. simpl. rewrite HI, HC, !list_lookup_insert_Some.
  intros [(-> & -> & ?)|(? & ?)] [(? & -> & ?)|(? & ?)] [(? & -> & ?)|(? & ?)]; try done; eauto.
Qed.

Lemma joined_launch n r σ : idle r → launch n r = Ret σ → joined σ.
Proof.
  intros (Hi & Hcr & Hst & Hco). unfold launch, enqueue. rewrite make_contexts_length, Hcr, Hi.
  rewrite !bool_decide_true by done. simpl.
  destruct (enqueue_loop_ok (make_contexts n) n 0
    (set_contexts (make_contexts n) (set_instances (replicate n (mkInstance 0 Unqueued false None)) r)))
    as (r' & -> & Hlen & Hq & _).
  { intros i c [-> _]%make_contexts_lookup. done. } { by rewrite make_contexts_length. }
  { simpl. by rewrite length_replicate, make_contexts_length. }
  rewrite make_contexts_length in *. simpl in *.
  match goal with |- context [ set_remaining n ?x ] => set (r2 := x) end.
  assert (m_instances r2 = m_instances r') as HI by (subst r2; by destruct (_ <? _)).
  rewrite HI, bool_decide_true by done. simpl. intros [= <-] i pc a c [-> Hlt]%lookup_replicate Ha _.
  simpl in *. rewrite HI, Hq in Ha by lia. by simplify_eq.
Qed.

Lemma joined_reachable n r σ0 σ :
  idle r → launch n r = Ret σ0 → rtc rstep σ0 σ → shape n σ ∧ joined σ.
Proof.
  intros Hidle Hl Hr.
  cut (rinv n σ ∧ joined σ); [by intros [[? _] ?]|]. revert σ Hr.
  apply (rtc_ind_r (λ σ, rinv n σ ∧ joined σ) σ0).
  - split; [|by eapply joined_launch]. by apply (rinv_reachable n r σ0 σ0 Hidle Hl (rtc_refl _ _)).
  - intros σ1 σ2 _ Hstep [Hi Hj]. split; [by eapply rinv_step|]. destruct Hi as [Hs _].
    destruct Hstep; [by eapply joined_step|exact Hj..].
Qed.

Lemma first_exception_some (l : list Instance) (xs : list (option string)) first :
  Forall2 (λ a x, m_join a = Some x) l xs →
  first_exception l first = Some (match first with Some e => Some e | None => list_find (λ x, is_Some x) xs ≫= snd end).
Proof.
  intros Hall. revert first. induction Hall as [|a x l xs Ha _ IH]; intros first; simpl; [by destruct first|].
  rewrite Ha, IH. destruct first; [done|]. destruct x as [e|]; simpl.
  - done.
  - by destruct (list_find _ xs) as [[? ?]|].
Qed.

(** Once every task has returned, [await_join] returns and clears the
    instances; it throws the exception held by the context of lowest rank that
    has one, and returns normally when none has. *)
Theorem await_join_first_failure n r σ0 σ :
  idle r → launch n r = Ret σ0 → rtc rstep σ0 σ → Forall (λ pc, pc = TDone) (pcs σ) →
  await_join (runner σ) =
    Some (match list_find (λ x, is_Some x) (m_exception_ptr <$> m_contexts (runner σ)) ≫= snd with
          | Some e => Throw e | None => Ret () end, set_instances [] (runner σ)).
Proof.
  intros Hidle Hl Hr Hd. destruct (joined_reachable n r σ0 σ Hidle Hl Hr) as [(Hp & Hi & Hc & _) Hj].
  unfold await_join. rewrite (first_exception_some _ (m_exception_ptr <$> m_contexts (runner σ))); [done|].
  apply Forall2_lookup. intros i. rewrite list_lookup_fmap.
  destruct (m_instances (runner σ) !! i) as [a|] eqn:Ea.
  - assert (i < n)%nat by (rewrite <-Hi; by eapply lookup_lt_Some).
    destruct (lookup_lt_is_Some_2 (m_contexts (runner σ)) i) as [c Ec]; [lia|].
    destruct (lookup_lt_is_Some_2 (pcs σ) i) as [pc Epc]; [lia|].
    rewrite Ec. constructor. specialize (Hj _ _ _ _ Epc Ea Ec).
    rewrite Forall_lookup in Hd. by rewrite (Hd _ _ Epc) in Hj.
  - apply lookup_ge_None in Ea. rewrite (proj2 (lookup_ge_None (m_contexts _) i)) by lia. constructor.
Qed.

Lemma await_join_first_failure_witness :
  ∃ σ0 σ, launch 2 (started true) = Ret σ0 ∧ run lost_update σ0 = Ret σ ∧
    await_join (runner σ) = Some (Throw "boom", set_instances [] (runner σ)).
Proof.
  do 2 eexists. split; [vm_compute; reflexivity|]. split; [vm_compute; reflexivity|].
  eapply (await_join_first_failure 2 (started true));
    [apply started_idle|vm_compute; reflexivity
    |eapply (run_steps lost_update); vm_compute; reflexivity|repeat constructor].
Defined.

(** Destroying a runner with unjoined instances never returns normally: the
    range-for over [m_instances] continues on a vector that [await_join] cleared,
    or the exception that [await_join] rethrows leaves the destructor. *)
Theorem Runner_destroy_running r res_ r' :
  m_instances r ≠ [] → Runner_destroy r = Some (res_, r') → res_ ≠ Ret ().
Proof.
  intros Hne. unfold Runner_destroy. rewrite bool_decide_false by done. simpl.
  destruct (await_join _) as [[[[]|?|?|?] r2]|]; intros; by simplify_eq.
Qed.

Lemma Runner_destroy_running_witness :
  ∃ r', Runner_destroy (set_instances [mkInstance 0 Completed true (Some None)] (started true)) =
      Some (Undefined "range-for over the vector that await_join cleared", r') ∧
    (Undefined "range-for over the vector that await_join cleared" : res ()) ≠ Ret ().
Proof.
  eexists. split; [reflexivity|].
  eapply (Runner_destroy_running (set_instances [mkInstance 0 Completed true (Some None)] (started true)));
    [discriminate|reflexivity].
Defined.
