(* ===== verification/CpuSets.v ===== *)
(** * Logical cpus of the engine factories

    Models [src/internal/system/engine_factory_cpu_sets.cpp] and the options it
    reads ([include/srf/options/engine_groups.hpp],
    [src/public/options/engine_groups.cpp]): how the logical cpus of a host
    partition are divided between the default pool, the pools that allow no
    overlap and the set that the remaining pools share. *)
From Stdlib Require Import Strings.String.
From S2P Require Import Prelude SortedZ StdMap Hwloc Bitmap.
Local Open Scope string_scope.
Local Open Scope Z_scope.

Inductive EngineType := Fiber | Thread | Process.
#[export] Instance EngineType_eq_dec : EqDecision EngineType.
Proof. solve_decision. Defined.

Record EngineFactoryOptions := mkEngineFactoryOptions {
  cpu_count : Z;              (* std::size_t *)
  engine_type : EngineType;
  reusable : bool;
  allow_overlap : bool;
}.

(** ** class EngineGroups *)
Record EngineGroups := mkEngineGroups {
  m_dedicated_main_thread : bool;
  m_dedicated_network_thread : bool;
  m_default_engine_type : EngineType;
  m_engine_resource_groups : smap EngineFactoryOptions;
}.
Definition EngineGroups_new : EngineGroups := mkEngineGroups false false Fiber [].
Definition default_engine_factory_name : string := "default".

(** The test for the reserved names has an empty body. *)
Definition set_engine_factory_options (group_name : string) (options : EngineFactoryOptions) (g : EngineGroups) : EngineGroups :=
  mkEngineGroups (m_dedicated_main_thread g) (m_dedicated_network_thread g) (m_default_engine_type g)
    (smap_set group_name options (m_engine_resource_groups g)).
Definition engine_group_options (name : string) (g : EngineGroups) : res EngineFactoryOptions :=
  match smap_find name (m_engine_resource_groups g) with
  | Some o => Ret o
  | None => Throw "Unknown EngineGroup name"
  end.
Definition set_dedicated_main_thread (b : bool) (g : EngineGroups) : EngineGroups :=
  mkEngineGroups b (m_dedicated_network_thread g) (m_default_engine_type g) (m_engine_resource_groups g).
Definition set_dedicated_network_thread (b : bool) (g : EngineGroups) : EngineGroups :=
  mkEngineGroups (m_dedicated_main_thread g) b (m_default_engine_type g) (m_engine_resource_groups g).
Definition set_default_engine_type (t : EngineType) (g : EngineGroups) : EngineGroups :=
  mkEngineGroups (m_dedicated_main_thread g) (m_dedicated_network_thread g) t (m_engine_resource_groups g).

Record Options := mkOptions { architect_url : string; engine_factories : EngineGroups }.

(** ** generate_engine_factory_cpu_sets *)
(** The mutable copy of the groups, with the entries the runtime adds. *)
Definition engine_groups_map (options : Options) : smap EngineFactoryOptions :=
  let g := engine_factories options in
  let m := m_engine_resource_groups g in
  let m := if m_dedicated_main_thread g
           then smap_set "main" (mkEngineFactoryOptions 1 Fiber true false) m else m in
  if String.eqb (architect_url options) "" then m
  else smap_set "srf_network" (mkEngineFactoryOptions 1 Fiber true (negb (m_dedicated_network_thread g))) m.

(** [engine_cpu_count], [shared_cpu_count] and [shared_cpus_has_fibers]. *)
Record counts := mkCounts { engine_cpu_count : EngineType → Z; shared_cpu_count : Z; has_fibers : bool }.
Definition count_group (c : counts) (kv : string * EngineFactoryOptions) : counts :=
  let o := kv.2 in
  if allow_overlap o
  then mkCounts (engine_cpu_count c) (Z.max (shared_cpu_count c) (cpu_count o))
         (has_fibers c || bool_decide (engine_type o = Fiber))
  else mkCounts (λ t, if decide (t = engine_type o) then u64 (engine_cpu_count c t + cpu_count o) else engine_cpu_count c t)
         (shared_cpu_count c) (has_fibers c).
Definition count_groups (groups : smap EngineFactoryOptions) : counts :=
  foldl count_group (mkCounts (λ _, 0) 0 false) groups.
Definition min_cpu_count (c : counts) : Z :=
  foldl (λ m t, u64 (m + engine_cpu_count c t)) (shared_cpu_count c) [Fiber; Thread; Process].

Section cpu_sets.
Context `{Hwloc B}.

Record EngineFactoryCpuSets := mkCpuSets {
  fiber_cpu_sets : gmap string B;
  thread_cpu_sets : gmap string B;
  reusable_groups : gmap string bool;
  shared_cpus_set : B;
  shared_cpus_has_fibers : bool;
}.

Definition is_resuable (c : EngineFactoryCpuSets) (name : string) : res bool :=
  match reusable_groups c !! name with
  | Some b => Ret b
  | None => Abort "unable to find name in reusable map"
  end.

Definition with_fiber (name : string) (s : B) (c : EngineFactoryCpuSets) : EngineFactoryCpuSets :=
  mkCpuSets (<[name := s]> (fiber_cpu_sets c)) (thread_cpu_sets c) (reusable_groups c) (shared_cpus_set c) (shared_cpus_has_fibers c).
Definition with_thread (name : string) (s : B) (c : EngineFactoryCpuSets) : EngineFactoryCpuSets :=
  mkCpuSets (fiber_cpu_sets c) (<[name := s]> (thread_cpu_sets c)) (reusable_groups c) (shared_cpus_set c) (shared_cpus_has_fibers c).
Definition with_reusable (name : string) (b : bool) (c : EngineFactoryCpuSets) : EngineFactoryCpuSets :=
  mkCpuSets (fiber_cpu_sets c) (thread_cpu_sets c) (<[name := b]> (reusable_groups c)) (shared_cpus_set c) (shared_cpus_has_fibers c).
Definition with_shared (s : B) (c : EngineFactoryCpuSets) : EngineFactoryCpuSets :=
  mkCpuSets (fiber_cpu_sets c) (thread_cpu_sets c) (reusable_groups c) s (shared_cpus_has_fibers c).

(** The [if Fiber ... else if Thread ...] of both loops: a Process group gets no set. *)
Definition put_set (t : EngineType) (name : string) (s : B) (c : EngineFactoryCpuSets) : EngineFactoryCpuSets :=
  match t with Fiber => with_fiber name s c | Thread => with_thread name s c | Process => c end.

Fixpoint non_overlapping_loop (groups : smap EngineFactoryOptions) (remaining : B) (c : EngineFactoryCpuSets) :
  res (B * EngineFactoryCpuSets) :=
  match groups with
  | [] => Ret (remaining, c)
  | (name, o) :: rest =>
      let c := with_reusable name (reusable o) c in
      if negb (allow_overlap o)
      then '(this_set, remaining) ← pop remaining (cpu_count o);
           non_overlapping_loop rest remaining (put_set (engine_type o) name this_set c)
      else non_overlapping_loop rest remaining c
  end.

(** [do { idx = remaining.next(idx); } while (idx == -1)]: after a failed [next]
    the search restarts at the first bit, so two rounds decide it. *)
Definition next_wrapping (remaining : B) (idx : Z) : res Z :=
  let i1 := i32 (next remaining idx) in
  if negb (i1 =? -1) then Ret i1
  else let i2 := i32 (next remaining i1) in
       if negb (i2 =? -1) then Ret i2 else Undefined "no shared cpu: the loop never ends".

Fixpoint pick_cpus (n : nat) (remaining : B) (idx : Z) (this_set : B) : res (Z * B) :=
  match n with
  | O => Ret (idx, this_set)
  | S n => idx ← next_wrapping remaining idx; pick_cpus n remaining idx (on this_set (u32 idx))
  end.

Fixpoint overlapping_loop (groups : smap EngineFactoryOptions) (remaining : B) (idx : Z) (c : EngineFactoryCpuSets) :
  res EngineFactoryCpuSets :=
  match groups with
  | [] => Ret c
  | (name, o) :: rest =>
      if allow_overlap o
      then '(idx, this_set) ← pick_cpus (Z.to_nat (cpu_count o)) remaining idx Bitmap_new;
           overlapping_loop rest remaining idx (put_set (engine_type o) name this_set c)
      else overlapping_loop rest remaining idx c
  end.

(** The default pool, and [main] on its first cpu unless it has its own. *)
Definition install_default (g : EngineGroups) (default_pool : B) (config : EngineFactoryCpuSets) : res EngineFactoryCpuSets :=
  config ← match m_default_engine_type g with
           | Fiber => Ret (with_fiber default_engine_factory_name default_pool config)
           | Thread => Ret (with_thread default_engine_factory_name default_pool config)
           | Process => Abort "invalid default engine type"
           end;
  let config := if m_dedicated_main_thread g then config
                else with_fiber "main" (on Bitmap_new (first default_pool)) config in
  Ret (with_reusable "main" true (with_reusable default_engine_factory_name true config)).

Definition generate_engine_factory_cpu_sets (options : Options) (cpu_set : B) : res EngineFactoryCpuSets :=
  n ← weight cpu_set;
  check (0 <? n) "cpu_count > 0" ;;
  let groups := engine_groups_map options in
  let c := count_groups groups in
  let m := min_cpu_count c in
  throw_if (n <? u64 (m + 1)) "insufficient number of logical cpus assigned to the current process" ;;
  '(default_pool, remaining) ← pop cpu_set (u64 (n - m));
  config ← install_default (engine_factories options) default_pool (mkCpuSets ∅ ∅ ∅ Bitmap_new (has_fibers c));
  '(remaining, config) ← non_overlapping_loop groups remaining config;
  overlapping_loop groups remaining (-1) (with_shared remaining config).

(** The set recorded for a group. *)
Definition group_set (c : EngineFactoryCpuSets) (name : string) (t : EngineType) : option B :=
  match t with Fiber => fiber_cpu_sets c !! name | Thread => thread_cpu_sets c !! name | Process => None end.
End cpu_sets.
Arguments EngineFactoryCpuSets : clear implicits.

(** ** What the groups ask for *)
Definition group := (string * EngineFactoryOptions)%type.
Definition is_dedicated (g : group) : bool := negb (allow_overlap g.2).
Definition is_shared (g : group) : bool := allow_overlap g.2.
Definition dedicated_cpus (gs : list group) : Z :=
  foldr Z.add 0 ((λ g, if is_dedicated g then cpu_count g.2 else 0) <$> gs).
Definition shared_cpus (gs : list group) : Z :=
  foldr Z.max 0 ((λ g, if is_dedicated g then 0 else cpu_count g.2) <$> gs).

Lemma dedicated_cons g gs :
  dedicated_cpus (g :: gs) = (if is_dedicated g then cpu_count g.2 else 0) + dedicated_cpus gs.
Proof. done. Qed.
Lemma shared_cons g gs :
  shared_cpus (g :: gs) = Z.max (if is_dedicated g then 0 else cpu_count g.2) (shared_cpus gs).
Proof. done. Qed.

Lemma dedicated_nonneg gs : Forall (λ g : group, 0 ≤ cpu_count g.2) gs → 0 ≤ dedicated_cpus gs.
Proof.
  induction 1 as [|g gs Hg _ IH]; [done|]. rewrite dedicated_cons. destruct (is_dedicated g); lia.
Qed.
Lemma shared_nonneg gs : 0 ≤ shared_cpus gs.
Proof. induction gs as [|g gs IH]; [done|]. rewrite shared_cons. lia. Qed.

Lemma count_group_dedicated c name o :
  allow_overlap o = false → (∀ t, 0 ≤ engine_cpu_count c t) → 0 ≤ cpu_count o →
  engine_cpu_count c Fiber + engine_cpu_count c Thread + engine_cpu_count c Process + cpu_count o < 2 ^ 64 →
  let c' := count_group c (name, o) in
  (∀ t, 0 ≤ engine_cpu_count c' t) ∧ shared_cpu_count c' = shared_cpu_count c ∧
  engine_cpu_count c' Fiber + engine_cpu_count c' Thread + engine_cpu_count c' Process =
    engine_cpu_count c Fiber + engine_cpu_count c Thread + engine_cpu_count c Process + cpu_count o.
Proof.
  intros Eo Hc Ho Hb. pose proof (Hc Fiber). pose proof (Hc Thread). pose proof (Hc Process).
  assert (∀ t, u64 (engine_cpu_count c t + cpu_count o) = engine_cpu_count c t + cpu_count o) as Hu.
  { intros t. apply u64_small. split; [specialize (Hc t); lia|]. destruct t; lia. }
  unfold count_group. simpl. rewrite Eo. simpl. split_and!; [|done|].
  - intros t. specialize (Hc t). case_decide; rewrite ?Hu; lia.
  - destruct (engine_type o); simpl; rewrite Hu; lia.
Qed.

Lemma count_groups_fold gs c :
  Forall (λ g : group, 0 ≤ cpu_count g.2) gs → (∀ t, 0 ≤ engine_cpu_count c t) → 0 ≤ shared_cpu_count c →
  engine_cpu_count c Fiber + engine_cpu_count c Thread + engine_cpu_count c Process + dedicated_cpus gs < 2 ^ 64 →
  let c' := foldl count_group c gs in
  (∀ t, 0 ≤ engine_cpu_count c' t) ∧
  engine_cpu_count c' Fiber + engine_cpu_count c' Thread + engine_cpu_count c' Process =
    engine_cpu_count c Fiber + engine_cpu_count c Thread + engine_cpu_count c Process + dedicated_cpus gs ∧
  shared_cpu_count c' = Z.max (shared_cpu_count c) (shared_cpus gs).
Proof.
  intros Hgs. revert c. induction Hgs as [|[name o] gs Hg Hgs IH]; intros c Hc Hs Hb.
  { unfold dedicated_cpus, shared_cpus. simpl. split_and!; [done|lia|lia]. }
  pose proof (dedicated_nonneg gs Hgs) as Hd. rewrite dedicated_cons in *. rewrite shared_cons.
  unfold is_dedicated in *. simpl in *. destruct (allow_overlap o) eqn:Eo; simpl in *.
  - destruct (IH (count_group c (name, o))) as (Hn & Hsum & Hmax); unfold count_group in *; simpl in *; rewrite ?Eo in *; simpl in *;
      [done|lia|lia|]. split_and!; [done|lia|lia].
  - destruct (count_group_dedicated c name o) as (Hn & Hsh & Hsum); [done..|lia|].
    destruct (IH (count_group c (name, o))) as (Hn' & Hsum' & Hmax); [done|lia|lia|].
    split_and!; [done|lia|lia].
Qed.

Lemma min_cpu_count_groups gs :
  Forall (λ g : group, 0 ≤ cpu_count g.2) gs → dedicated_cpus gs + shared_cpus gs < 2 ^ 64 →
  min_cpu_count (count_groups gs) = dedicated_cpus gs + shared_cpus gs.
Proof.
  intros Hgs Hb. pose proof (dedicated_nonneg gs Hgs). pose proof (shared_nonneg gs).
  destruct (count_groups_fold gs (mkCounts (λ _, 0) 0 false) Hgs) as (Hn & Hsum & Hm); [done|done|simpl; lia|].
  pose proof (Hn Fiber). pose proof (Hn Thread). pose proof (Hn Process).
  unfold min_cpu_count, count_groups. simpl in *.
  rewrite (u64_small (_ + engine_cpu_count _ Fiber)) by lia.
  rewrite (u64_small (_ + engine_cpu_count _ Thread)) by lia. rewrite u64_small; lia.
Qed.

Section proofs.
Context `{HwlocLaws B}.
Implicit Types (c : EngineFactoryCpuSets B) (gs : list group).

(** Group [g] was given exactly the cpus [p]. *)
Definition given c (g : group) (p : list Z) : Prop :=
  Z.of_nat (length p) = cpu_count g.2 ∧
  (engine_type g.2 ≠ Process → ∃ b, group_set c g.1 (engine_type g.2) = Some b ∧ is_bits b p).

Lemma group_set_put t name s c name' t' :
  group_set (put_set t name s c) name' t' =
    if decide (name = name' ∧ t = t' ∧ t ≠ Process) then Some s else group_set c name' t'.
Proof.
  destruct t, t'; simpl; try (by rewrite decide_False by naive_solver);
    (case_decide as E; [destruct E as (-> & _); by rewrite lookup_insert_eq|]);
    rewrite lookup_insert_ne by naive_solver; done.
Qed.
Lemma put_set_frame t name s c name' t' :
  ~ (name = name' ∧ t = t') → group_set (put_set t name s c) name' t' = group_set c name' t'.
Proof. intros Hne. rewrite group_set_put, decide_False by naive_solver. done. Qed.
Lemma group_set_reusable name b c name' t' : group_set (with_reusable name b c) name' t' = group_set c name' t'.
Proof. by destruct t'. Qed.
Lemma put_set_here t name s c : t ≠ Process → group_set (put_set t name s c) name t = Some s.
Proof. intros Ht. by rewrite group_set_put, decide_True. Qed.
Lemma put_set_shared t name s c : shared_cpus_set (put_set t name s c) = shared_cpus_set c.
Proof. by destruct t. Qed.

Lemma non_overlapping_spec gs rem c l :
  NoDup (fst <$> gs) → Forall (λ g : group, 0 ≤ cpu_count g.2) gs →
  is_bits rem l → dedicated_cpus gs ≤ Z.of_nat (length l) →
  ∃ rem' c' pieces, non_overlapping_loop gs rem c = Ret (rem', c') ∧
    is_bits rem' (drop (Z.to_nat (dedicated_cpus gs)) l) ∧
    concat pieces = take (Z.to_nat (dedicated_cpus gs)) l ∧
    Forall2 (given c') (List.filter is_dedicated gs) pieces ∧
    (∀ name t, (∀ g, g ∈ gs → g.1 = name → engine_type g.2 = t → is_dedicated g = false) →
       group_set c' name t = group_set c name t).
Proof.
  revert rem c l. induction gs as [|[name o] gs IH]; intros rem c l Hnd Hcpu Hb Hle; simpl.
  { exists rem, c, []. split_and!; done. }
  apply NoDup_cons in Hnd as [Hni Hnd]. apply Forall_cons in Hcpu as [Ho Hcpu]. simpl in Ho.
  pose proof (dedicated_nonneg gs Hcpu) as Hd. rewrite dedicated_cons in *. unfold is_dedicated in Hle at 1 |- *. simpl in *.
  destruct (allow_overlap o) eqn:Eo; simpl in *.
  - destruct (IH rem (with_reusable name (reusable o) c) l) as (rem' & c' & ps & -> & Hr & Hp & Hg & Hf); [done..|lia|].
    exists rem', c', ps. rewrite Z.add_0_l. split_and!; [done..|]. intros nm t Hnm.
    rewrite Hf, group_set_reusable by (intros; apply Hnm; set_solver). done.
  - destruct (pop_bits rem l (Z.to_nat (cpu_count o)) Hb) as (s & rem1 & Hpop & Hs & Hr1); [lia|].
    rewrite Z2Nat.id in Hpop by done. rewrite Hpop. simpl.
    destruct (IH rem1 (put_set (engine_type o) name s (with_reusable name (reusable o) c)) (drop (Z.to_nat (cpu_count o)) l))
      as (rem' & c' & ps & -> & Hr & Hp & Hg & Hf); [done..|rewrite length_drop; lia|].
    exists rem', c', (take (Z.to_nat (cpu_count o)) l :: ps).
    rewrite Z2Nat.inj_add by done. rewrite drop_drop in Hr. split_and!; [done|done| | |].
    + simpl. rewrite Hp. by rewrite take_take_drop.
    + constructor; [|done]. split; [simpl; rewrite length_take; lia|]. simpl. intros Hnp.
      exists s. split; [|done]. rewrite Hf; [by apply put_set_here|].
      intros g Hg' Heq _. destruct Hni. rewrite <-Heq. by apply list_elem_of_fmap_2.
    + intros nm t Hnm. rewrite Hf by (intros; apply Hnm; set_solver).
      rewrite put_set_frame, group_set_reusable; [done|]. intros [-> Ht].
      specialize (Hnm (nm, o) ltac:(set_solver) eq_refl Ht). unfold is_dedicated in Hnm. simpl in Hnm. by rewrite Eo in Hnm.
Qed.

(** ** The round robin over the shared set *)
(** [idx] is where position [k] of the walk starts: before the first cpu, or at cpu [k-1]. *)
Definition rr_start (l : list Z) (idx : Z) (k : nat) : Prop :=
  match k with O => idx = -1 | S j => l !! j = Some idx end.

Lemma next_at b l k idx :
  is_bits b l → rr_start l idx k → i32 (next b idx) = default (-1) (l !! k).
Proof.
  intros Hb Hk. unfold next. rewrite (hwloc_next_at b l k idx Hb Hk).
  destruct (l !! k) as [x|] eqn:E; simpl; [|by rewrite i32_u32].
  assert (index_ok x) as Hx by (eapply is_bits_bound; [done|by eapply list_elem_of_lookup_2]).
  unfold index_ok in Hx. apply i32_u32. lia.
Qed.

Lemma lookup_not_neg b l k x : is_bits b l → l !! k = Some x → x ≠ -1 ∧ index_ok x.
Proof.
  intros Hb Hx. assert (index_ok x) as Hi by (eapply is_bits_bound; [done|by eapply list_elem_of_lookup_2]).
  unfold index_ok in *. lia.
Qed.

Lemma next_wrapping_at b l k idx :
  is_bits b l → rr_start l idx k → (k ≤ length l)%nat → l ≠ [] →
  ∃ x, l !! (k mod length l)%nat = Some x ∧ next_wrapping b idx = Ret x ∧ rr_start l x (S (k mod length l)).
Proof.
  intros Hb Hk Hle Hne. assert (0 < length l)%nat by (destruct l; [done|simpl; lia]).
  unfold next_wrapping. rewrite (next_at b l k idx Hb Hk).
  destruct (l !! k) as [x|] eqn:E; simpl.
  - assert (k < length l)%nat by (by eapply lookup_lt_Some). rewrite Nat.mod_small by done.
    exists x. destruct (lookup_not_neg b l k x Hb E) as [Hx _]. apply Z.eqb_neq in Hx. rewrite Hx. done.
  - apply lookup_ge_None in E. assert (k = length l) as -> by lia. rewrite Nat.Div0.mod_same.
    rewrite (next_at b l 0 (-1) Hb eq_refl). destruct (lookup_lt_is_Some_2 l 0) as [x Hx]; [lia|].
    rewrite Hx. simpl. exists x. destruct (lookup_not_neg b l 0 x Hb Hx) as [Hn _]. apply Z.eqb_neq in Hn. by rewrite Hn.
Qed.

Lemma pick_cpus_spec n b l k idx this acc :
  is_bits b l → rr_start l idx k → (k ≤ length l)%nat → l ≠ [] → is_bits this acc →
  ∃ xs idx' this', pick_cpus n b idx this = Ret (idx', this') ∧
    length xs = n ∧ (∀ j, (j < n)%nat → xs !! j = l !! ((k + j) mod length l)%nat) ∧
    is_bits this' (foldl (λ a x, zinsert x a) acc xs) ∧
    ∃ k', rr_start l idx' k' ∧ (k' ≤ length l)%nat.
Proof.
  intros Hb. revert k idx this acc. induction n as [|n IH]; intros k idx this acc Hk Hle Hne Ht; simpl.
  { exists [], idx, this. split_and!; try done; [lia|by exists k]. }
  assert (0 < length l)%nat by (destruct l; [done|simpl; lia]).
  destruct (next_wrapping_at b l k idx Hb Hk Hle Hne) as (x & Hx & -> & Hst). simpl.
  destruct (lookup_not_neg b l _ x Hb Hx) as [_ Hok].
  assert (u32 x = x) as -> by (unfold index_ok in Hok; apply u32_small; lia).
  assert (k mod length l < length l)%nat by (apply Nat.mod_upper_bound; lia).
  destruct (IH (S (k mod length l)) x (on this x) (zinsert x acc)) as (xs & idx' & this' & -> & Hlen & Hxs & Hb' & Hk');
    [done|lia|done|by apply is_bits_set|].
  exists (x :: xs), idx', this'. split_and!; try done; [simpl; lia|].
  intros [|j] Hj; [by rewrite Nat.add_0_r|]. simpl. rewrite Hxs by lia. f_equal.
  replace (S (k mod length l) + j)%nat with (k mod length l + S j)%nat by lia. by rewrite Nat.Div0.add_mod_idemp_l.
Qed.

Lemma window_NoDup (l xs : list Z) k :
  NoDup l → (length xs ≤ length l)%nat →
  (∀ j, (j < length xs)%nat → xs !! j = l !! ((k + j) mod length l)%nat) → NoDup xs.
Proof.
  intros Hl Hle Hxs. apply NoDup_alt. intros i j x Hi Hj.
  assert (i < length xs)%nat by (by eapply lookup_lt_Some). assert (j < length xs)%nat by (by eapply lookup_lt_Some).
  rewrite Hxs in Hi, Hj by done. rewrite NoDup_alt in Hl. apply (mod_window_inj (length l) k); [lia|lia|].
  by eapply Hl.
Qed.

Lemma zinsert_length x l : x ∉ l → length (zinsert x l) = S (length l).
Proof.
  induction l as [|y l IH]; intros Hx; simpl; [done|]. destruct (Z.compare_spec x y); [set_solver|done|].
  simpl. rewrite IH by set_solver. done.
Qed.
Lemma foldl_zinsert_length xs acc :
  NoDup xs → (∀ x, x ∈ xs → x ∉ acc) → length (foldl (λ a x, zinsert x a) acc xs) = (length acc + length xs)%nat.
Proof.
  intros Hnd. revert acc. induction Hnd as [|x xs Hx Hnd IH]; intros acc Hacc; simpl; [lia|].
  rewrite IH, zinsert_length by set_solver || (intros y Hy; rewrite elem_of_zinsert; set_solver). lia.
Qed.

(** A pool of [n] shared cpus gets [n] distinct cpus of the shared set. *)
Lemma pick_cpus_distinct n b l k idx :
  is_bits b l → rr_start l idx k → (k ≤ length l)%nat → l ≠ [] → (n ≤ length l)%nat →
  ∃ p idx' this, pick_cpus n b idx Bitmap_new = Ret (idx', this) ∧ is_bits this p ∧
    length p = n ∧ p ⊆ l ∧ ∃ k', rr_start l idx' k' ∧ (k' ≤ length l)%nat.
Proof.
  intros Hb Hk Hle Hne Hn.
  destruct (pick_cpus_spec n b l k idx Bitmap_new [] Hb Hk Hle Hne is_bits_alloc)
    as (xs & idx' & this & Hp & Hlen & Hxs & Hbits & Hk').
  exists (foldl (λ a x, zinsert x a) [] xs), idx', this. split_and!; try done.
  - rewrite foldl_zinsert_length; [done| |set_solver].
    eapply (window_NoDup l xs k); [eapply zsorted_NoDup, bits_sorted; done|lia|]. by rewrite Hlen.
  - intros x. rewrite elem_of_foldl_zinsert. intros [Hx|Hx]; [set_solver|].
    apply list_elem_of_lookup_1 in Hx as [j Hj]. assert (j < length xs)%nat by (by eapply lookup_lt_Some).
    rewrite Hxs in Hj by lia. by eapply list_elem_of_lookup_2.
Qed.

Lemma overlapping_spec gs rem c l k idx :
  NoDup (fst <$> gs) → Forall (λ g : group, 0 ≤ cpu_count g.2) gs →
  is_bits rem l → shared_cpus gs ≤ Z.of_nat (length l) → rr_start l idx k → (k ≤ length l)%nat →
  ∃ c', overlapping_loop gs rem idx c = Ret c' ∧ shared_cpus_set c' = shared_cpus_set c ∧
    (∀ g, g ∈ gs → is_shared g = true → ∃ p, given c' g p ∧ p ⊆ l) ∧
    (∀ name t, (∀ g, g ∈ gs → g.1 = name → engine_type g.2 = t → is_shared g = false) →
       group_set c' name t = group_set c name t).
Proof.
  revert c k idx. induction gs as [|[name o] gs IH]; intros c k idx Hnd Hcpu Hb Hle Hk Hkl; simpl.
  { exists c. split_and!; try done. set_solver. }
  apply NoDup_cons in Hnd as [Hni Hnd]. apply Forall_cons in Hcpu as [Ho Hcpu]. simpl in Ho.
  rewrite shared_cons in Hle. unfold is_dedicated in Hle. simpl in Hle.
  destruct (allow_overlap o) eqn:Eo; simpl in *.
  - assert (∃ p idx' this, pick_cpus (Z.to_nat (cpu_count o)) rem idx Bitmap_new = Ret (idx', this) ∧ is_bits this p ∧
      Z.of_nat (length p) = cpu_count o ∧ p ⊆ l ∧ ∃ k', rr_start l idx' k' ∧ (k' ≤ length l)%nat)
      as (p & idx' & this & -> & Hthis & Hlen & Hsub & k' & Hk' & Hkl').
    { destruct (decide (cpu_count o = 0)) as [Hz|Hnz].
      - rewrite Hz. exists [], idx, Bitmap_new. split_and!; try done; [apply is_bits_alloc|set_solver|by exists k].
      - destruct (pick_cpus_distinct (Z.to_nat (cpu_count o)) rem l k idx) as (p & i' & this & ? & ? & ? & ? & ?);
          [done|done|done|by intros ->; simpl in *; lia|lia|]. exists p, i', this. split_and!; try done. lia. }
    simpl. destruct (IH (put_set (engine_type o) name this c) k' idx') as (c' & -> & Hsh & Hgiv & Hf); [done..|lia|done|done|].
    exists c'. rewrite Hsh, put_set_shared. split_and!; try done.
    + intros g [->|Hg]%elem_of_cons Hsg; [|by auto]. exists p. split; [|done]. split; [done|]. simpl. intros Hnp.
      exists this. split; [|done]. rewrite Hf; [by apply put_set_here|].
      intros g' Hg' Heq _. destruct Hni. rewrite <-Heq. by apply list_elem_of_fmap_2.
    + intros nm t Hnm. rewrite Hf by (intros; apply Hnm; set_solver). apply put_set_frame. intros [-> Ht].
      specialize (Hnm (nm, o) ltac:(set_solver) eq_refl Ht). unfold is_shared in Hnm. simpl in Hnm. congruence.
  - destruct (IH c k idx) as (c' & -> & Hsh & Hgiv & Hf); [done..|lia|done|done|].
    exists c'. split_and!; try done.
    + intros g [->|Hg]%elem_of_cons Hsg; [|by auto]. unfold is_shared in Hsg. simpl in Hsg. congruence.
    + intros nm t Hnm. apply Hf. intros; apply Hnm; set_solver.
Qed.

(** The options are well formed: a [std::map] of groups whose sizes are
    [std::size_t], and the cpus they ask for can be counted in one. *)
Definition options_ok (options : Options) : Prop :=
  let gs := engine_groups_map options in
  smap_ok (m_engine_resource_groups (engine_factories options)) ∧
  Forall (λ g : group, 0 ≤ cpu_count g.2) (m_engine_resource_groups (engine_factories options)) ∧
  dedicated_cpus gs + shared_cpus gs + 1 < 2 ^ 64.

Lemma smap_set_Forall {A} (P : string * A → Prop) k v m :
  P (k, v) → Forall P m → Forall P (smap_set k v m).
Proof.
  intros Hk Hm. induction Hm as [|[k' v'] m Hp Hm IH]; simpl; [by constructor|].
  destruct (String.compare k k'); repeat constructor; done.
Qed.

Lemma engine_groups_map_ok options :
  options_ok options →
  NoDup (fst <$> engine_groups_map options) ∧
  Forall (λ g : group, 0 ≤ cpu_count g.2) (engine_groups_map options).
Proof.
  intros (Hok & Hcpu & _).
  assert (smap_ok (engine_groups_map options)) as Hmap.
  { unfold engine_groups_map. destruct (m_dedicated_main_thread _), (String.eqb _ _); auto with smap. }
  split; [by apply smap_ok_NoDup|].
  unfold engine_groups_map. destruct (m_dedicated_main_thread _), (String.eqb _ _); auto;
    repeat (apply smap_set_Forall; [simpl; lia|]); done.
Qed.

Lemma dedicated_main_group options :
  m_dedicated_main_thread (engine_factories options) = true →
  ("main", mkEngineFactoryOptions 1 Fiber true false) ∈ engine_groups_map options.
Proof.
  intros E. unfold engine_groups_map. rewrite E.
  assert (∀ m : smap EngineFactoryOptions, ("main", mkEngineFactoryOptions 1 Fiber true false) ∈
            smap_set "main" (mkEngineFactoryOptions 1 Fiber true false) m) as Hset.
  { induction m as [|[k v] m IH]; [cbn [smap_set]; set_solver|]. cbn [smap_set].
    destruct (String.compare "main" k) eqn:Ec; [apply String.compare_eq_iff in Ec as <-|..]; set_solver. }
  destruct (String.eqb _ _); [apply Hset|].
  match goal with |- _ ∈ smap_set _ _ ?m => pose proof (Hset (m_engine_resource_groups (engine_factories options))) as Hm; fold m in Hm; revert Hm; generalize m end.
  intros m Hm. induction m as [|[k v] m IH]; [set_solver|]. cbn [smap_set].
  destruct (String.compare "srf_network" k) eqn:Ec; [|set_solver..].
  apply String.compare_eq_iff in Ec as <-. apply elem_of_cons in Hm as [[=]|Hm]. set_solver.
Qed.

Lemma weight_positive b l : is_bits b l → l ≠ [] →
  ∃ n, weight b = Ret n ∧ n = Z.of_nat (length l) ∧ (0 <? n) = true.
Proof.
  intros Hb Hl. exists (Z.of_nat (length l)). split_and!; [by apply weight_bits|done|].
  apply Z.ltb_lt. destruct l; [done|simpl; lia].
Qed.

Lemma lowest_bits (b : B) x l : is_bits b (x :: l) → first b = x.
Proof.
  intros Hb. unfold first, next. rewrite (hwloc_next_at b (x :: l) 0 (-1) Hb eq_refl). simpl.
  assert (index_ok x) as Hx by (eapply is_bits_bound; [done|set_solver]). unfold index_ok in Hx. apply u32_small. lia.
Qed.

Lemma install_default_spec g dp x d c :
  m_default_engine_type g ≠ Process → is_bits dp (x :: d) →
  ∃ c', install_default g dp c = Ret c' ∧
    group_set c' default_engine_factory_name (m_default_engine_type g) = Some dp ∧
    (m_dedicated_main_thread g = false → ∃ m, group_set c' "main" Fiber = Some m ∧ is_bits m [x]).
Proof.
  intros Ht Hdp. unfold install_default. rewrite (lowest_bits dp x d Hdp).
  assert (is_bits (on (Bitmap_new : B) x) [x]) as Hx.
  { apply (is_bits_set _ [] x); [|apply is_bits_alloc]. eapply is_bits_bound; [done|set_solver]. }
  destruct (m_default_engine_type g); [..|done]; simpl; (eexists; split; [done|]);
    destruct (m_dedicated_main_thread g); simpl; rewrite ?lookup_insert_ne by done; (split; [apply lookup_insert_eq|]);
    try done; intros _; eexists; (split; [apply lookup_insert_eq|done]).
Qed.

Lemma bits_count_bound b l : is_bits b l → Z.of_nat (length l) ≤ 2 ^ 31.
Proof.
  intros Hb. rewrite <-(Z.sub_0_r (2 ^ 31)).
  eapply zsorted_length_bound; [by eapply bits_sorted|apply (bits_ok _ _ Hb)|lia].
Qed.

(** The overlapping loop leaves the dedicated pools alone. *)
Lemma given_kept gs c c' ps :
  NoDup (fst <$> gs) →
  (∀ name t, (∀ g, g ∈ gs → g.1 = name → engine_type g.2 = t → is_shared g = false) →
       group_set c' name t = group_set c name t) →
  Forall2 (given c) (List.filter is_dedicated gs) ps → Forall2 (given c') (List.filter is_dedicated gs) ps.
Proof.
  intros Hnd Hf Hall. eapply Forall2_impl_l; [exact Hall|]. intros g p Hg [Hlen Hset]. split; [done|].
  intros Hnp. rewrite Hf; [by apply Hset|]. intros g' Hg' Heq _.
  apply list_elem_of_In, filter_In in Hg as [Hg%list_elem_of_In Hded].
  assert (g' = g) as -> by (by eapply NoDup_fst_inj).
  unfold is_shared, is_dedicated in *. by destruct (allow_overlap g.2).
Qed.

(** No group has this name and type: nothing replaces the set the runtime
    records under them. *)
Definition unclaimed (gs : list group) (name : string) (t : EngineType) : Prop :=
  ∀ g, g ∈ gs → g.1 = name → engine_type g.2 = t → False.

Lemma unclaimed_Forall gs name t : Forall (λ g : group, g.1 ≠ name) gs → unclaimed gs name t.
Proof. rewrite Forall_forall. intros Hall g Hg Hn _. by apply (Hall g). Qed.

(** C9: for any options whose group sizes can be added up without overflow,
    whatever the groups are called: when the process has too few logical cpus
    the call throws, when the default engine type is Process it ends in a
    fatal error, and otherwise it succeeds and the cpus are divided exactly:
    a default part (never empty), one piece of the requested size for every
    group without overlap, and the shared set; every group that allows overlap
    gets as many distinct cpus of the shared set as it asked for.  The default
    part is what the "default" pool gets, and "main" gets its first cpu unless
    it has a thread of its own, provided no group of the same engine type
    takes the name "default" (or "main"); a group that does so replaces the
    pool, and the cpus of the default part are then in no pool of that name. *)
Theorem cpu_sets_partition options (cpu_set : B) l :
  options_ok options → is_bits cpu_set l → l ≠ [] →
  let gs := engine_groups_map options in
  let default_type := m_default_engine_type (engine_factories options) in
  if bool_decide (Z.of_nat (length l) < dedicated_cpus gs + shared_cpus gs + 1)
  then ∃ why, generate_engine_factory_cpu_sets options cpu_set = Throw why
  else if bool_decide (default_type = Process)
  then ∃ why, generate_engine_factory_cpu_sets options cpu_set = Abort why
  else ∃ config x d ps sh,
    generate_engine_factory_cpu_sets options cpu_set = Ret config ∧
    ((x :: d) ++ concat ps ++ sh)%list = l ∧
    (unclaimed gs default_engine_factory_name default_type →
       ∃ b, group_set config default_engine_factory_name default_type = Some b ∧ is_bits b (x :: d)) ∧
    (unclaimed gs "main" Fiber → ∃ m, group_set config "main" Fiber = Some m ∧ is_bits m [x]) ∧
    Forall2 (given config) (List.filter is_dedicated gs) ps ∧
    is_bits (shared_cpus_set config) sh ∧ Z.of_nat (length sh) = shared_cpus gs ∧
    ∀ g, g ∈ gs → is_shared g = true → ∃ p, given config g p ∧ p ⊆ sh.
Proof.
  intros Hopt Hb Hl gs dt. destruct (engine_groups_map_ok options Hopt) as (Hnd & Hcpu).
  destruct Hopt as (_ & _ & Hbound). fold gs in Hnd, Hcpu, Hbound.
  pose proof (dedicated_nonneg gs Hcpu) as Hd0. pose proof (shared_nonneg gs) as Hs0.
  destruct (weight_positive cpu_set l Hb Hl) as (n & Hw & Hn & Hpos).
  unfold generate_engine_factory_cpu_sets. rewrite Hw. simpl. rewrite Hpos. simpl. fold gs.
  rewrite min_cpu_count_groups, (u64_small (_ + 1)) by (done || lia).
  case_bool_decide as Hfew.
  { apply Z.ltb_lt in Hfew. rewrite <-Hn in Hfew. rewrite Hfew. by eexists. }
  rewrite (proj2 (Z.ltb_ge _ _)) by lia. simpl.
  set (D := (length l - Z.to_nat (dedicated_cpus gs + shared_cpus gs))%nat).
  destruct (pop_bits cpu_set l D Hb) as (dp & rem & Hpop & Hdp & Hrem); [lia|].
  assert (n ≤ 2 ^ 31) as Hn31.
  { rewrite Hn. by eapply bits_count_bound. }
  assert (u64 (n - (dedicated_cpus gs + shared_cpus gs)) = Z.of_nat D) as -> by (rewrite u64_small; lia).
  rewrite Hpop. simpl. case_bool_decide as Htype.
  { unfold install_default. fold dt. rewrite Htype. by eexists. }
  destruct (take D l) as [|x d] eqn:Etake.
  { apply (f_equal length) in Etake. rewrite length_take in Etake. simpl in Etake. lia. }
  edestruct (install_default_spec (engine_factories options) dp x d) as (c1 & -> & Hc1 & Hm1); [done..|]. simpl.
  destruct (non_overlapping_spec gs rem c1 (drop D l)) as (rem' & c2 & ps & -> & Hr & Hps & Hgiv & Hf); [done..|rewrite length_drop; lia|].
  simpl. rewrite drop_drop in Hr.
  set (sh := drop (D + Z.to_nat (dedicated_cpus gs)) l) in *.
  assert (Z.of_nat (length sh) = shared_cpus gs) as Hsh by (subst sh; rewrite length_drop; lia).
  destruct (overlapping_spec gs rem' (with_shared rem' c2) sh 0 (-1)) as (c3 & -> & Hs3 & Hgiv3 & Hf3); [done..|lia|done|lia|].
  assert (∀ name t, group_set (with_shared rem' c2) name t = group_set c2 name t) as Hws by (by intros ? []).
  assert (∀ name t, unclaimed gs name t → group_set c3 name t = group_set c1 name t) as Hframe.
  { intros name t Hun. rewrite Hf3, Hws, Hf by (intros g Hg ??; by destruct (Hun g)). done. }
  exists c3, x, d, ps, sh. split_and!; try done.
  - subst sh. rewrite app_comm_cons, <-Etake, Hps. rewrite <-drop_drop, take_drop, take_drop. done.
  - intros Hun. rewrite Hframe by done. by exists dp.
  - intros Hun. pose proof (Hframe _ _ Hun) as Em. simpl in Em. rewrite Em. apply Hm1.
    destruct (m_dedicated_main_thread (engine_factories options)) eqn:E; [|done].
    by destruct (Hun _ (dedicated_main_group options E)).
  - eapply given_kept; [done| |exact Hgiv]. intros name t Hnm. rewrite Hf3 by done. apply Hws.
  - by rewrite Hs3.
Qed.
End proofs.

(** ** Running it *)
Definition example_options : Options :=
  mkOptions "" (set_engine_factory_options "dedicated" (mkEngineFactoryOptions 2 Fiber true false)
    (set_engine_factory_options "pool" (mkEngineFactoryOptions 3 Thread true true)
      (set_engine_factory_options "io" (mkEngineFactoryOptions 2 Fiber true true) EngineGroups_new))).

Lemma cpu_sets_partition_witness :
  let cpus := [0; 1; 2; 3; 8; 9; 10; 11] in
  let gs := engine_groups_map example_options in
  ∃ config x d ps sh,
    generate_engine_factory_cpu_sets example_options (cpus : list Z) = Ret config ∧
    ((x :: d) ++ concat ps ++ sh)%list = cpus ∧
    (∃ b, group_set config default_engine_factory_name Fiber = Some b ∧ is_bits b (x :: d)) ∧
    (∃ m, group_set config "main" Fiber = Some m ∧ is_bits m [x]) ∧
    Forall2 (given config) (List.filter is_dedicated gs) ps ∧ Z.of_nat (length sh) = 3.
Proof.
  destruct (cpu_sets_partition example_options [0; 1; 2; 3; 8; 9; 10; 11] [0; 1; 2; 3; 8; 9; 10; 11])
    as (config & x & d & ps & sh & Hret & Hl & Hdef & Hmain & Hgiv & _ & Hsh & _).
  - split_and!; [apply smap_set_ok, smap_set_ok, smap_set_ok; constructor|repeat constructor; simpl; lia|vm_compute; done].
  - solve_bits.
  - done.
  - exists config, x, d, ps, sh. split_and!; [exact Hret|exact Hl| | |exact Hgiv|exact Hsh].
    + apply Hdef, unclaimed_Forall. repeat constructor; discriminate.
    + apply Hmain, unclaimed_Forall. repeat constructor; discriminate.
Defined.

(** A group may take the reserved name of the default pool (the test for it
    in [set_engine_factory_options] has an empty body): it then replaces the
    default pool, and the cpus reserved for the default pool are in no pool. *)
Theorem default_group_overwritten :
  let options := mkOptions "" (set_engine_factory_options default_engine_factory_name
                                 (mkEngineFactoryOptions 1 Fiber true false) EngineGroups_new) in
  ∃ config, generate_engine_factory_cpu_sets options [0; 1; 2; 3] = Ret config ∧
    fiber_cpu_sets config !! default_engine_factory_name = Some [3] ∧
    thread_cpu_sets config = ∅ ∧ shared_cpus_set config = [].
Proof. eexists. split; [vm_compute; reflexivity|]. split_and!; reflexivity. Qed.
