(* ===== verification/Engines.v ===== *)
(** * Engines, engine factories and launch control

    Models [src/internal/system/fiber_manager.cpp] and [fiber_pool.cpp] (one task
    queue per logical cpu), [src/internal/runnable] (engines and the four engine
    factories), [include/srf/runnable/launch_control.hpp] with
    [src/public/runnable/launcher.cpp], and the construction of the launch control
    in [src/internal/resources/host_resources.cpp].

    A task queue is identified with its cpu.  Engines do not run anything here:
    what a launched task does is the business of [Runner]. *)
From Stdlib Require Import Strings.String.
From S2P Require Import Prelude SortedZ StdMap Hwloc Bitmap CpuSets Runner.
Local Open Scope string_scope.
Local Open Scope Z_scope.

Record LaunchOptions := mkLaunchOptions { pe_count : nat; engines_per_pe : nat; engine_factory_name : string }.
Definition LaunchOptions_new : LaunchOptions := mkLaunchOptions 1 1 default_engine_factory_name.

(** ** Engines: single use *)
Record Engine := mkEngine { engine_cpu : Z; engine_kind : EngineType; m_launched : bool }.
Definition launch_task (e : Engine) : res Engine :=
  check (negb (m_launched e)) "detected attempted reuse of a runnable::Engine" ;;
  Ret (mkEngine (engine_cpu e) (engine_kind e) true).

(** ** FiberPool *)
Definition FiberPool : Type := list Z.
Definition thread_count (pool : FiberPool) : nat := length pool.
Definition task_queue_shared (pool : FiberPool) (index : nat) : res Z :=
  match (pool : list Z) !! index with Some q => Ret q | None => Abort "index < m_queues.size()" end.

Definition engines_on (k : EngineType) (n : nat) (cpu : Z) : list Engine := replicate n (mkEngine cpu k false).
(** [FiberEngines::initialize_launchers]. *)
Definition FiberEngines_new (o : LaunchOptions) (task_queues : list Z) : res (list Engine) :=
  check (bool_decide (pe_count o = length task_queues)) "mismatched fiber pool task queue size with respect to pe_count" ;;
  Ret (concat (engines_on Fiber (engines_per_pe o) <$> task_queues)).

(** The queues of consecutive indexes. *)
Fixpoint queues_from (pool : FiberPool) (offset n : nat) : res (list Z) :=
  match n with
  | O => Ret []
  | S n => q ← task_queue_shared pool offset; rest ← queues_from pool (S offset) n; Ret (q :: rest)
  end.
(** [ReusableFiberEngineFactory::next], called [n] times. *)
Definition next_offset (pool : FiberPool) (m_offset : nat) : nat :=
  if decide (S m_offset = thread_count pool) then O else S m_offset.
Fixpoint queues_cyclic (pool : FiberPool) (m_offset n : nat) : res (list Z * nat) :=
  match n with
  | O => Ret ([], m_offset)
  | S n =>
      q ← task_queue_shared pool m_offset;
      '(rest, o) ← queues_cyclic pool (next_offset pool m_offset) n;
      Ret (q :: rest, o)
  end.

Section engines.
Context `{Hwloc B}.

(** ** FiberManager *)
Record FiberManager := mkFiberManager { fm_cpu_set : B; fm_queues : gset Z }.
Definition FiberManager_new (cpu_set : B) : res FiberManager :=
  qs ← for_each_bit cpu_set (λ _ cpu_id qs, {[ u32 (i32 cpu_id) ]} ∪ qs) (∅ : gset Z);
  Ret (mkFiberManager cpu_set qs).
Fixpoint queues_at (qs : gset Z) (cpus : list Z) : res (list Z) :=
  match cpus with
  | [] => Ret []
  | cpu :: rest =>
      throw_if (bool_decide (u32 cpu ∉ qs)) "std::out_of_range" ;;
      l ← queues_at qs rest;
      Ret (u32 cpu :: l)
  end.
Definition make_pool (cpu_set : B) (fm : FiberManager) : res FiberPool :=
  throw_if (negb (contains (fm_cpu_set fm) cpu_set)) "cpu_set must be a subset of the initial topology to create a fiber pool" ;;
  queues_at (fm_queues fm) (vec cpu_set).
Definition task_queue (cpu_id : Z) (fm : FiberManager) : res Z :=
  check (bool_decide (cpu_id ∈ fm_queues fm)) "unable to find cpu_id in set of task queue" ;; Ret cpu_id.

(** [ThreadEngines::initialize_launchers]. *)
Definition ThreadEngines_new (o : LaunchOptions) (cpu_set : B) : res (list Engine) :=
  w ← weight cpu_set;
  check (Z.of_nat (pe_count o) =? w) "mismatch in the number of cores in the cpu set with respect to the requested pe_count" ;;
  check (1 <=? engines_per_pe o)%nat "engines_per_pe >= 1" ;;
  for_each_bit cpu_set (λ _ cpu_id es, (es ++ engines_on Thread (engines_per_pe o) cpu_id)%list) [].

(** ** Engine factories *)
Inductive EngineFactory :=
| ReusableFiberEngineFactory (m_pool : FiberPool) (m_offset : nat)
| SingleUseFiberEngineFactory (m_pool : FiberPool) (m_offset : nat)
| ReusableThreadEngineFactory (m_cpu_set : B) (m_prev_cpu_idx : Z)
| SingleUseThreadEngineFactory (m_cpu_set : B) (m_prev_cpu_idx : Z).

Definition backend (f : EngineFactory) : EngineType :=
  match f with
  | ReusableFiberEngineFactory _ _ | SingleUseFiberEngineFactory _ _ => Fiber
  | ReusableThreadEngineFactory _ _ | SingleUseThreadEngineFactory _ _ => Thread
  end.

(** The [get_next_n_cpus] loops; the single use one throws when the ids are
    exhausted, and then [m_prev_cpu_idx] is -1. *)
Fixpoint reusable_cpus (m_cpu_set : B) (n : nat) (prev : Z) (cpu_set : B) : B * Z :=
  match n with
  | O => (cpu_set, prev)
  | S n =>
      let prev := i32 (next m_cpu_set prev) in
      let prev := if prev =? -1 then i32 (next m_cpu_set prev) else prev in
      reusable_cpus m_cpu_set n prev (on cpu_set (u32 prev))
  end.
Fixpoint single_use_cpus (m_cpu_set : B) (n : nat) (prev : Z) (cpu_set : B) : res B * Z :=
  match n with
  | O => (Ret cpu_set, prev)
  | S n =>
      let prev := i32 (next m_cpu_set prev) in
      if prev =? -1 then (Throw "SingleUse logical cpu ids exhausted", prev)
      else single_use_cpus m_cpu_set n prev (on cpu_set (u32 prev))
  end.

Definition build_engines (o : LaunchOptions) : M EngineFactory (list Engine) :=
  f ← get;
  match f with
  | ReusableFiberEngineFactory pool m_offset =>
      lift (check (pe_count o <=? thread_count pool)%nat "count <= m_pool->thread_count()") ;;
      '(qs, m_offset) ← lift (queues_cyclic pool m_offset (pe_count o));
      put (ReusableFiberEngineFactory pool m_offset) ;;
      lift (FiberEngines_new o qs)
  | SingleUseFiberEngineFactory pool m_offset =>
      lift (throw_if (thread_count pool <? m_offset + pe_count o)%nat "more dedicated threads/cores than available") ;;
      qs ← lift (queues_from pool m_offset (pe_count o));
      lift (FiberEngines_new o qs)
  | ReusableThreadEngineFactory m_cpu_set prev =>
      let '(cpus, prev) := reusable_cpus m_cpu_set (pe_count o) prev Bitmap_new in
      put (ReusableThreadEngineFactory m_cpu_set prev) ;;
      lift (ThreadEngines_new o cpus)
  | SingleUseThreadEngineFactory m_cpu_set prev =>
      let '(r, prev) := single_use_cpus m_cpu_set (pe_count o) prev Bitmap_new in
      put (SingleUseThreadEngineFactory m_cpu_set prev) ;;
      cpus ← lift r;
      lift (ThreadEngines_new o cpus)
  end.

Definition make_engine_factory (fm : FiberManager) (engine_type : EngineType) (cpu_set : B) (reusable : bool) : res EngineFactory :=
  match engine_type with
  | Fiber =>
      pool ← make_pool cpu_set fm;
      Ret (if reusable then ReusableFiberEngineFactory pool 0 else SingleUseFiberEngineFactory pool 0)
  | Thread =>
      check (negb (empty cpu_set)) "!m_cpu_set.empty()" ;;
      Ret (if reusable then ReusableThreadEngineFactory cpu_set (-1) else SingleUseThreadEngineFactory cpu_set (-1))
  | Process => Abort "unsupported engine type"
  end.

(** ** LaunchControl *)
Record LaunchControl := mkLaunchControl { resource_groups : smap EngineFactory }.
Definition LaunchControl_new (config : smap EngineFactory) : res LaunchControl :=
  check (bool_decide (is_Some (smap_find default_engine_factory_name config))) "unable to find launch group named" ;;
  Ret (mkLaunchControl config).

(** The loops of the [HostResources] constructor over the cpu sets by name. *)
Fixpoint add_factories (fm : FiberManager) (k : EngineType) (sets : EngineFactoryCpuSets B) (l : smap B)
    (config : smap EngineFactory) : res (smap EngineFactory) :=
  match l with
  | [] => Ret config
  | (name, cpu_set) :: rest =>
      reusable ← is_resuable sets name;
      f ← make_engine_factory fm k cpu_set reusable;
      add_factories fm k sets rest (smap_set name f config)
  end.
(** A [std::map<std::string, CpuSet>] in the order of its iteration. *)
Definition in_order (m : gmap string B) : smap B := map_fold smap_set [] m.
Definition HostResources_new (fm : FiberManager) (sets : EngineFactoryCpuSets B) : res (Z * LaunchControl) :=
  main_set ← match fiber_cpu_sets sets !! "main" with Some s => Ret s | None => Abort "unable to lookup cpuset for main" end;
  w ← weight main_set;
  check (w =? 1) "search->second.weight() == 1" ;;
  main ← task_queue (first main_set) fm;
  config ← add_factories fm Fiber sets (in_order (fiber_cpu_sets sets)) [];
  config ← add_factories fm Thread sets (in_order (thread_cpu_sets sets)) config;
  lc ← LaunchControl_new config;
  Ret (main, lc).

(** What a Runnable demands of its backend. *)
Inductive runnable_kind := FiberRunnable | ThreadRunnable | AnyRunnable.
Record Launcher := mkLauncher { l_runner : option Runner; l_contexts : list Context; l_engines : list Engine }.

Definition get_engine_factory (name : string) (lc : LaunchControl) : res EngineFactory :=
  match smap_find name (resource_groups lc) with Some f => Ret f | None => Abort "unable to find launch group named" end.
Definition prepare_launcher (o : LaunchOptions) (k : runnable_kind) (runnable : RunnableState) : M LaunchControl Launcher :=
  lc ← get;
  f ← lift (get_engine_factory (engine_factory_name o) lc);
  let '(r, f') := build_engines o f in
  put (mkLaunchControl (smap_set (engine_factory_name o) f' (resource_groups lc))) ;;
  engines ← lift r;
  lift (match k with
        | FiberRunnable => check (bool_decide (backend f' = Fiber)) "Requested FiberRunnable to be run on a ThreadEngine"
        | ThreadRunnable => check (bool_decide (backend f' = Thread)) "Requested ThreadRunnable to be run on a FiberEngine"
        | AnyRunnable => Ret ()
        end) ;;
  mret (mkLauncher (Some (Runner_new runnable)) (make_contexts (length engines)) engines).

Fixpoint launch_all (es : list Engine) : res (list Engine) :=
  match es with [] => Ret [] | e :: rest => e ← launch_task e; rest ← launch_all rest; Ret (e :: rest) end.
(** [Launcher::ignition], with the [launch_task] that [Runner::enqueue] calls on
    each engine. *)
Definition ignition (l : Launcher) : res (Runner * Launcher) :=
  match l_runner l with
  | None => Abort "m_runner"
  | Some r =>
      check (0 <? length (l_contexts l))%nat "m_contexts.size()" ;;
      r ← enqueue (length (l_engines l)) (l_contexts l) r;
      es ← launch_all (l_engines l);
      Ret (r, mkLauncher None [] es)
  end.
(** [Launcher::apply] for the callback registration of the segments. *)
Definition apply_callback (l : Launcher) : res Launcher :=
  match l_runner l with
  | None => Abort "m_runner"
  | Some r => r ← on_completion_callback r; Ret (mkLauncher (Some r) (l_contexts l) (l_engines l))
  end.
End engines.
Arguments EngineFactory : clear implicits.
Arguments LaunchControl : clear implicits.
Arguments FiberManager : clear implicits.

(** ** What the factories serve *)
(** The [n] cpus of the list [l] from position [k] on, cyclically. *)
Definition cyclic (l : list Z) (k n : nat) : list Z := (λ j, l !!! ((k + j) mod length l)%nat) <$> seq 0 n.

Lemma cyclic_S l k n : cyclic l k (S n) = (l !!! (k mod length l)%nat) :: cyclic l (S k) n.
Proof.
  unfold cyclic. cbn [seq fmap list_fmap]. rewrite Nat.add_0_r. f_equal. rewrite <-fmap_S_seq, <-list_fmap_compose.
  apply list_fmap_ext. intros i x _. unfold compose. do 2 f_equal. lia.
Qed.
Lemma cyclic_mod l k k' n : (k mod length l = k' mod length l)%nat → cyclic l k n = cyclic l k' n.
Proof.
  intros Hk. unfold cyclic. apply list_fmap_ext. intros i x _. simpl. f_equal.
  by rewrite <-(Nat.Div0.add_mod_idemp_l k), <-(Nat.Div0.add_mod_idemp_l k'), Hk.
Qed.
Lemma cyclic_elem l k n x : l ≠ [] → x ∈ cyclic l k n → x ∈ l.
Proof.
  intros Hl. unfold cyclic. intros (j & -> & _)%list_elem_of_fmap. apply list_elem_of_lookup_total_2.
  apply Nat.mod_upper_bound. by destruct l.
Qed.
Lemma cyclic_NoDup l k n : NoDup l → (n ≤ length l)%nat → NoDup (cyclic l k n).
Proof.
  intros Hnd Hn. unfold cyclic. apply NoDup_fmap_2_strong; [|apply NoDup_seq].
  intros i j Hi%elem_of_seq Hj%elem_of_seq Heq. apply (mod_window_inj (length l) k); [lia|lia|].
  assert (∀ a, (a mod length l < length l)%nat) as Hlt by (intros a; apply Nat.mod_upper_bound; lia).
  rewrite NoDup_alt in Hnd. apply (Hnd _ _ (l !!! ((k + i) mod length l)%nat)); [apply list_lookup_lookup_total_lt, Hlt|].
  rewrite Heq. apply list_lookup_lookup_total_lt, Hlt.
Qed.

Lemma queues_from_spec (pool : list Z) k n : (k + n ≤ length pool)%nat → queues_from pool k n = Ret (take n (drop k pool)).
Proof.
  revert k. induction n as [|n IH]; intros k Hn; cbn [queues_from]; [by rewrite take_0|].
  destruct (lookup_lt_is_Some_2 pool k) as [q Hq]; [lia|]. unfold task_queue_shared. rewrite Hq. cbn.
  rewrite IH by lia. cbn. by rewrite (drop_S _ _ _ Hq).
Qed.

Lemma queues_cyclic_spec (pool : list Z) k n :
  (k < length pool)%nat → queues_cyclic pool k n = Ret (cyclic pool k n, ((k + n) mod length pool)%nat).
Proof.
  revert k. induction n as [|n IH]; intros k Hk; cbn [queues_cyclic].
  { by rewrite Nat.add_0_r, Nat.mod_small. }
  rewrite cyclic_S. unfold task_queue_shared. destruct (lookup_lt_is_Some_2 pool k Hk) as [q Hq]. rewrite Hq. cbn.
  assert (next_offset pool k = S k mod length pool)%nat as Hnext.
  { unfold next_offset, thread_count. case_decide as E; [by rewrite E, Nat.Div0.mod_same|]. rewrite Nat.mod_small; lia. }
  rewrite IH by (rewrite Hnext; apply Nat.mod_upper_bound; lia). cbn. rewrite Hnext.
  rewrite (cyclic_mod pool (S k mod length pool) (S k)) by apply Nat.Div0.mod_mod.
  rewrite Nat.Div0.add_mod_idemp_l, Nat.add_succ_comm, (Nat.mod_small k) by done.
  by rewrite (list_lookup_total_correct _ _ _ Hq).
Qed.

Lemma engines_cpus k n l : engine_cpu <$> concat (engines_on k n <$> l) = concat (replicate n <$> l).
Proof. induction l as [|x l IH]; [done|]. rewrite !fmap_cons. cbn [concat]. rewrite fmap_app, IH. f_equal. apply fmap_replicate. Qed.
Lemma engines_fresh k n l : Forall (λ e, m_launched e = false ∧ engine_kind e = k) (concat (engines_on k n <$> l)).
Proof.
  induction l as [|x l IH]; [constructor|]. rewrite fmap_cons. cbn [concat]. apply Forall_app. split; [|done].
  apply Forall_forall. intros e [-> _]%elem_of_replicate. done.
Qed.
Lemma concat_replicate_perm n (l l' : list Z) : l ≡ₚ l' → concat (replicate n <$> l) ≡ₚ concat (replicate n <$> l').
Proof. intros Hp. by rewrite Hp. Qed.

Section proofs.
Context `{HwlocLaws B}.

(** Position [k] of the cpus [l] of a bitmap. *)
Definition at_position (l : list Z) (k : nat) (prev : Z) : Prop :=
  (k ≤ length l)%nat ∧ rr_start l prev k.

Lemma single_use_cpus_spec b l k n prev cpus acc :
  is_bits b l → at_position l k prev → is_bits cpus acc →
  if decide (k + n ≤ length l)%nat
  then ∃ cpus' prev', single_use_cpus b n prev cpus = (Ret cpus', prev') ∧ at_position l (k + n) prev' ∧
         is_bits cpus' (foldl (λ l x, zinsert x l) acc (take n (drop k l)))
  else ∃ e, single_use_cpus b n prev cpus = (Throw e, -1).
Proof.
  intros Hb. revert k prev cpus acc. induction n as [|n IH]; intros k prev cpus acc Hp Hc; cbn [single_use_cpus].
  { rewrite decide_True by (destruct Hp; lia). rewrite take_0, Nat.add_0_r. eauto. }
  rewrite (next_at _ _ _ _ Hb (proj2 Hp)). destruct (l !! k) as [x|] eqn:Hx; simpl.
  - pose proof (is_bits_bound _ _ x Hb (list_elem_of_lookup_2 _ _ _ Hx)) as Hok.
    assert (x =? -1 = false) as -> by (unfold index_ok in Hok; lia).
    rewrite (u32_small x) by (unfold index_ok in Hok; lia).
    specialize (IH (S k) x (on cpus x) (zinsert x acc)). rewrite <-Nat.add_succ_comm.
    rewrite (drop_S _ _ _ Hx). cbn [take foldl]. apply IH.
    + split; [apply lookup_lt_Some in Hx; lia|done].
    + by apply is_bits_set.
  - apply lookup_ge_None in Hx. rewrite decide_False by lia. eauto.
Qed.

Lemma reusable_cpus_spec b l k n prev cpus acc :
  is_bits b l → l ≠ [] → at_position l k prev → is_bits cpus acc →
  ∃ cpus' prev' k', reusable_cpus b n prev cpus = (cpus', prev') ∧ at_position l k' prev' ∧
    (k' mod length l = (k + n) mod length l)%nat ∧
    is_bits cpus' (foldl (λ l x, zinsert x l) acc (cyclic l k n)).
Proof.
  intros Hb Hl. assert (0 < length l)%nat as Hpos by (destruct l; [done|simpl; lia]).
  revert k prev cpus acc. induction n as [|n IH]; intros k prev cpus acc Hp Hc; cbn [reusable_cpus].
  { exists cpus, prev, k. by rewrite Nat.add_0_r. }
  set (j := (k mod length l)%nat). assert (j < length l)%nat as Hj by (apply Nat.mod_upper_bound; lia).
  pose proof (list_lookup_lookup_total_lt l j Hj) as Hx. set (x := l !!! j) in *.
  pose proof (is_bits_bound _ _ x Hb (list_elem_of_lookup_2 _ _ _ Hx)) as Hok. unfold index_ok in Hok.
  assert ((if i32 (next b prev) =? -1 then i32 (next b (i32 (next b prev))) else i32 (next b prev)) = x) as ->.
  { destruct Hp as [Hk Hp]. rewrite (next_at _ _ _ _ Hb Hp). destruct (decide (k = length l)) as [->|Hne].
    - rewrite (lookup_ge_None_2 l) by done. simpl. rewrite (next_at b l 0) by done.
      subst j. rewrite Nat.Div0.mod_same in Hx. by rewrite Hx.
    - subst j. rewrite Nat.mod_small in Hx by lia. rewrite Hx. simpl. destruct (Z.eqb_spec x (-1)); [lia|done]. }
  rewrite (u32_small x) by lia.
  destruct (IH (S j) x (on cpus x) (zinsert x acc)) as (cpus' & prev' & k' & Hr & Hp' & Hk' & Hc').
  - split; [lia|done].
  - by apply is_bits_set.
  - exists cpus', prev', k'. split_and!; [done|done| |].
    + rewrite Hk'. subst j. replace (S (k mod length l) + n)%nat with (k mod length l + S n)%nat by lia.
      by rewrite Nat.Div0.add_mod_idemp_l.
    + rewrite cyclic_S. cbn [foldl]. fold j x. rewrite (cyclic_mod l (S k) (S j)); [done|].
      subst j. rewrite <-(Nat.add_1_r k), <-(Nat.add_1_r (k mod _)). by rewrite Nat.Div0.add_mod_idemp_l.
Qed.

Lemma foldl_engines k n (l : list Z) es :
  foldl (λ es x, (es ++ engines_on k n x)%list) es l = (es ++ concat (engines_on k n <$> l))%list.
Proof.
  revert es. induction l as [|x l IH]; intros es; [by rewrite app_nil_r|]. cbn [foldl]. rewrite IH, fmap_cons. cbn [concat].
  by rewrite app_assoc.
Qed.

Lemma ThreadEngines_spec o b l :
  is_bits b l → (1 ≤ engines_per_pe o)%nat →
  if decide (pe_count o = length l)
  then ThreadEngines_new o b = Ret (concat (engines_on Thread (engines_per_pe o) <$> l))
  else ∃ w, ThreadEngines_new o b = Abort w.
Proof.
  intros Hb He. unfold ThreadEngines_new. assert ((1 <=? engines_per_pe o)%nat = true) as -> by (by apply Nat.leb_le).
  rewrite (weight_bits _ _ Hb). cbn.
  case_decide as E.
  - rewrite (proj2 (Z.eqb_eq _ _)) by lia. cbn.
    rewrite (for_each_bit_fold b l (λ cpu_id es, (es ++ engines_on Thread (engines_per_pe o) cpu_id)%list) [] Hb).
    by rewrite foldl_engines.
  - rewrite (proj2 (Z.eqb_neq _ _)) by lia. cbn. eauto.
Qed.

(** The factory hands out the cpus [l], from position [k] on. *)
Definition serves (f : EngineFactory B) (l : list Z) (k : nat) : Prop :=
  match f with
  | ReusableFiberEngineFactory pool off => pool = l ∧ off = k ∧ (k < length l)%nat
  | SingleUseFiberEngineFactory pool off => pool = l ∧ off = k
  | ReusableThreadEngineFactory b prev => is_bits b l ∧ l ≠ [] ∧ at_position l k prev
  | SingleUseThreadEngineFactory b prev => is_bits b l ∧ at_position l k prev
  end.
Definition is_reusable (f : EngineFactory B) : bool :=
  match f with ReusableFiberEngineFactory _ _ | ReusableThreadEngineFactory _ _ => true | _ => false end.
Definition picks (f : EngineFactory B) (l : list Z) (k n : nat) : list Z :=
  if is_reusable f then cyclic l k n else take n (drop k l).
Definition room (f : EngineFactory B) (l : list Z) (k n : nat) : nat := if is_reusable f then n else (k + n)%nat.
(** The position after [n] cpus were handed out. *)
Definition advanced (f : EngineFactory B) (l : list Z) (k n k' : nat) : Prop :=
  match f with
  | SingleUseFiberEngineFactory _ _ => k' = k
  | SingleUseThreadEngineFactory _ _ => k' = (k + n)%nat
  | _ => (k' mod length l = (k + n) mod length l)%nat
  end.

(** Thread engines on the cpus of a bitmap that collected [xs]. *)
Lemma ThreadEngines_picks o b xs :
  is_bits b (foldl (λ l x, zinsert x l) [] xs) → (1 ≤ engines_per_pe o)%nat → NoDup xs → length xs = pe_count o →
  ∃ es, ThreadEngines_new o b = Ret es ∧ engine_cpu <$> es ≡ₚ concat (replicate (engines_per_pe o) <$> xs) ∧
    Forall (λ e, m_launched e = false ∧ engine_kind e = Thread) es.
Proof.
  intros Hb He Hnd Hlen. set (s := foldl _ _ _) in *.
  assert (s ≡ₚ xs) as Hp.
  { apply NoDup_Permutation; [by apply zsorted_NoDup, (bits_sorted _ _ Hb)|done|]. intros x. subst s.
    rewrite elem_of_foldl_zinsert. set_solver. }
  pose proof (ThreadEngines_spec o b s Hb He) as Ht. rewrite decide_True in Ht by (by rewrite Hp).
  eexists. split; [exact Ht|]. split; [|apply engines_fresh]. rewrite engines_cpus. by apply concat_replicate_perm.
Qed.

Definition fails {A St} (m : res A * St) : Prop := (∃ e, m.1 = Throw e) ∨ ∃ w, m.1 = Abort w.

(** The engines [es] put [n] tasks on each of the cpus [xs]. *)
Definition engines_for (es : list Engine) (k : EngineType) (n : nat) (xs : list Z) : Prop :=
  engine_cpu <$> es ≡ₚ concat (replicate n <$> xs) ∧ Forall (λ e, m_launched e = false ∧ engine_kind e = k) es.
(** [build_engines o f] succeeds with engines on [xs] and leaves the factory at a position in [K]. *)
Definition builds (o : LaunchOptions) (f : EngineFactory B) (l xs : list Z) (K : nat → Prop) : Prop :=
  ∃ es f' k', build_engines o f = (Ret es, f') ∧ engines_for es (backend f) (engines_per_pe o) xs ∧
    serves f' l k' ∧ backend f' = backend f ∧ is_reusable f' = is_reusable f ∧ K k'.

Lemma build_fiber o l k :
  (1 ≤ engines_per_pe o)%nat → (k < length l)%nat →
  let f := ReusableFiberEngineFactory l k in
  if decide (pe_count o ≤ length l)%nat then builds o f l (cyclic l k (pe_count o)) (advanced f l k (pe_count o))
  else fails (build_engines o f).
Proof.
  intros He Hk f. unfold f, builds, build_engines, mbind, M_bind, get, lift, put, thread_count.
  case_decide as E.
  - rewrite (proj2 (Nat.leb_le _ _)) by done. simpl. rewrite queues_cyclic_spec by done.
    unfold FiberEngines_new. rewrite bool_decide_true by (unfold cyclic; by rewrite length_fmap, length_seq).
    do 3 eexists. split; [reflexivity|]. split; [split; [by rewrite engines_cpus|apply engines_fresh]|].
    split; [split_and!; [done|done|apply Nat.mod_upper_bound; lia]|]. split_and!; [done|done|]. simpl. apply Nat.Div0.mod_mod.
  - rewrite (proj2 (Nat.leb_gt _ _)) by lia. right. by eexists.
Qed.

Lemma build_single_fiber o l k :
  (1 ≤ engines_per_pe o)%nat →
  let f := SingleUseFiberEngineFactory l k in
  if decide (k + pe_count o ≤ length l)%nat then builds o f l (take (pe_count o) (drop k l)) (eq k)
  else fails (build_engines o f).
Proof.
  intros He f. unfold f, builds, build_engines, mbind, M_bind, get, lift, put, thread_count, throw_if.
  case_decide as E.
  - rewrite (proj2 (Nat.ltb_ge _ _)) by done. simpl. rewrite queues_from_spec by done.
    unfold FiberEngines_new. rewrite bool_decide_true by (rewrite length_take, length_drop; lia).
    do 3 eexists. split; [reflexivity|]. split; [split; [by rewrite engines_cpus|apply engines_fresh]|]. done.
  - rewrite (proj2 (Nat.ltb_lt _ _)) by lia. left. by eexists.
Qed.

Lemma build_thread o b l k prev :
  (1 ≤ engines_per_pe o)%nat → is_bits b l → l ≠ [] → at_position l k prev →
  let f := ReusableThreadEngineFactory b prev in
  if decide (pe_count o ≤ length l)%nat then builds o f l (cyclic l k (pe_count o)) (advanced f l k (pe_count o))
  else fails (build_engines o f).
Proof.
  intros He Hb Hl Hp f. unfold f, builds, build_engines, mbind, M_bind, get, lift, put.
  destruct (reusable_cpus_spec b l k (pe_count o) prev Bitmap_new [] Hb Hl Hp is_bits_alloc)
    as (cpus & prev' & k' & -> & Hp' & Hk' & Hc).
  case_decide as E.
  - destruct (ThreadEngines_picks o cpus _ Hc He) as (es & Hes & Hperm & Hfr);
      [by apply cyclic_NoDup; [apply zsorted_NoDup, (bits_sorted _ _ Hb)|]|unfold cyclic; by rewrite length_fmap, length_seq|].
    exists es, (ReusableThreadEngineFactory b prev'), k'. rewrite Hes. split_and!; done.
  - pose proof (ThreadEngines_spec o cpus _ Hc He) as Ht. rewrite decide_False in Ht.
    { destruct Ht as [w ->]. right. by eexists. }
    intros Hlen. apply E. rewrite Hlen. apply submseteq_length, NoDup_submseteq; [apply zsorted_NoDup, (bits_sorted _ _ Hc)|].
    intros x Hx%elem_of_foldl_zinsert. destruct Hx as [Hx|Hx]; [set_solver|]. by eapply cyclic_elem.
Qed.

Lemma build_single_thread o b l k prev :
  (1 ≤ engines_per_pe o)%nat → is_bits b l → at_position l k prev →
  let f := SingleUseThreadEngineFactory b prev in
  if decide (k + pe_count o ≤ length l)%nat then builds o f l (take (pe_count o) (drop k l)) (eq (k + pe_count o)%nat)
  else ∃ e, build_engines o f = (Throw e, SingleUseThreadEngineFactory b (-1)).
Proof.
  intros He Hb Hp f. unfold f, builds, build_engines, mbind, M_bind, get, lift, put.
  pose proof (single_use_cpus_spec b l k (pe_count o) prev Bitmap_new [] Hb Hp is_bits_alloc) as Hs. case_decide as E.
  - destruct Hs as (cpus & prev' & -> & Hp' & Hc).
    destruct (ThreadEngines_picks o cpus _ Hc He) as (es & Hes & Hperm & Hfr).
    + apply zsorted_NoDup, zsorted_take, zsorted_drop, (bits_sorted _ _ Hb).
    + rewrite length_take, length_drop. lia.
    + exists es, (SingleUseThreadEngineFactory b prev'), (k + pe_count o)%nat. rewrite Hes. split_and!; done.
  - destruct Hs as [e ->]. by eexists.
Qed.

Lemma build_engines_at o f l k :
  serves f l k → (1 ≤ engines_per_pe o)%nat →
  if decide (room f l k (pe_count o) ≤ length l)%nat
  then builds o f l (picks f l k (pe_count o)) (advanced f l k (pe_count o))
  else fails (build_engines o f).
Proof.
  intros Hs He. destruct f as [pool off|pool off|b prev|b prev]; unfold room, picks; simpl in *.
  - destruct Hs as (-> & -> & Hk). by apply build_fiber.
  - destruct Hs as (-> & ->). pose proof (build_single_fiber o l k He) as Hb. simpl in Hb. case_decide; [|done].
    destruct Hb as (es & f' & k' & ? & ? & ? & ? & ? & <-). by exists es, f', k.
  - destruct Hs as (Hb & Hl & Hp). by apply build_thread.
  - destruct Hs as (Hb & Hp). pose proof (build_single_thread o b l k prev He Hb Hp) as Hbt. simpl in Hbt. case_decide.
    + destruct Hbt as (es & f' & k' & ? & ? & ? & ? & ? & <-). by exists es, f', (k + pe_count o)%nat.
    + destruct Hbt as [e ->]. left. by eexists.
Qed.

(** [build_engines] succeeds exactly when the factory has room for [pe_count]
    more cpus.  It then returns [engines_per_pe] unused engines of the factory's
    kind on each of the next [pe_count] cpus of its set - taken cyclically by the
    reusable factories, in order by the single use ones - and a reusable or a
    thread factory goes on after them. *)
Theorem build_engines_spec o f l k :
  serves f l k → (1 ≤ engines_per_pe o)%nat →
  if decide (room f l k (pe_count o) ≤ length l)%nat
  then builds o f l (picks f l k (pe_count o)) (advanced f l k (pe_count o))
  else fails (build_engines o f).
Proof. apply build_engines_at. Qed.

(** The single use fiber factory never advances its offset: every request is
    served with the same cpus, so tasks meant to have a cpu of their own share
    one, and its "more dedicated threads/cores than available" error is never
    the result of earlier requests. *)
Theorem single_use_fiber_shared o l k es f' :
  (1 ≤ engines_per_pe o)%nat → build_engines o (SingleUseFiberEngineFactory l k) = (Ret es, f') →
  f' = SingleUseFiberEngineFactory (B := B) l k ∧
  ∃ es', build_engines o f' = (Ret es', f') ∧ engine_cpu <$> es' = engine_cpu <$> es.
Proof.
  intros He Hb. pose proof (build_single_fiber o l k He) as Hs. simpl in Hs. case_decide as E.
  - assert (f' = SingleUseFiberEngineFactory l k) as ->; [|by eauto].
    revert Hb. unfold build_engines, mbind, M_bind, get, lift, throw_if, thread_count.
    rewrite (proj2 (Nat.ltb_ge _ _)) by done. simpl. rewrite queues_from_spec by done. by intros [= _ <-].
  - rewrite Hb in Hs. destruct Hs as [[? ?]|[? ?]]; done.
Qed.

(** A single use thread factory that has run out throws, but the exception
    leaves its position before the first cpu: the next request that fits is
    served from the start with cpus that are in use already. *)
Theorem single_use_thread_restarts o o' b l k prev :
  is_bits b l → at_position l k prev → (1 ≤ engines_per_pe o)%nat → (1 ≤ engines_per_pe o')%nat →
  (length l < k + pe_count o)%nat → (pe_count o' ≤ length l)%nat →
  ∃ e f', build_engines o (SingleUseThreadEngineFactory b prev) = (Throw e, f') ∧
    builds o' f' l (take (pe_count o') l) (eq (pe_count o')).
Proof.
  intros Hb Hp He He' Hlt Hle.
  pose proof (build_single_thread o b l k prev He Hb Hp) as Ho. simpl in Ho. rewrite decide_False in Ho by lia.
  destruct Ho as [e Ho]. exists e, (SingleUseThreadEngineFactory b (-1)). split; [done|].
  pose proof (build_single_thread o' b l 0 (-1) He' Hb) as Ho'. simpl in Ho'. rewrite decide_True, drop_0 in Ho' by done.
  apply Ho'. by split; [lia|].
Qed.

(** ** Launching *)
Lemma launch_all_ok es :
  Forall (λ e, m_launched e = false) es → ∃ es', launch_all es = Ret es' ∧ engine_cpu <$> es' = engine_cpu <$> es ∧
    Forall (λ e, m_launched e = true) es'.
Proof.
  induction 1 as [|e es He _ (es' & IH & Hc & Hl)]; simpl; [by exists []|]. unfold launch_task. rewrite He. simpl. rewrite IH. simpl.
  eexists. split_and!; [done|simpl; by f_equal|by constructor].
Qed.
Lemma enqueue_new n runnable :
  ∃ r, enqueue n (make_contexts n) (Runner_new runnable) = Ret r ∧ length (m_instances r) = n.
Proof.
  destruct (launch_ok n (Runner_new runnable)) as (σ & Hl & [(_ & Hi & _) _] & _); [done|]. revert Hl. unfold launch.
  destruct (enqueue _ _ _) as [r|?|?|?]; simpl; try done. intros [= <-]. eauto.
Qed.

Lemma length_concat_replicate n (l : list Z) : length (concat (replicate n <$> l)) = (length l * n)%nat.
Proof. induction l as [|x l IH]; [done|]. rewrite fmap_cons. cbn [concat length]. rewrite length_app, length_replicate, IH. lia. Qed.
Lemma picks_length f l k n : (room f l k n ≤ length l)%nat → length (picks f l k n) = n.
Proof.
  unfold room, picks. destruct (is_reusable f); intros Hr; [unfold cyclic; by rewrite length_fmap, length_seq|].
  rewrite length_take, length_drop. lia.
Qed.

Definition suits (kd : runnable_kind) (t : EngineType) : Prop :=
  match kd with FiberRunnable => t = Fiber | ThreadRunnable => t = Thread | AnyRunnable => True end.

(** C39: when the engine factory that a node asks for has room and suits it, a
    launcher is prepared, and igniting it starts one task per engine -
    [pe_count * engines_per_pe] of them, on the cpus the factory picked, each
    engine used once - and returns the runner with that many instances; a second
    ignition aborts. *)
Theorem launch_control_ok o kd runnable lc f l k :
  smap_find (engine_factory_name o) (resource_groups lc) = Some f → serves f l k → suits kd (backend f) →
  (1 ≤ engines_per_pe o)%nat → (1 ≤ pe_count o)%nat → (room f l k (pe_count o) ≤ length l)%nat →
  ∃ la lc' r la', prepare_launcher o kd runnable lc = (Ret la, lc') ∧ ignition la = Ret (r, la') ∧
    length (m_instances r) = (pe_count o * engines_per_pe o)%nat ∧ Forall (λ e, m_launched e = true) (l_engines la') ∧
    engine_cpu <$> l_engines la' ≡ₚ concat (replicate (engines_per_pe o) <$> picks f l k (pe_count o)) ∧
    ∃ w, ignition la' = Abort w.
Proof.
  intros Hf Hs Hk He Hpe Hroom. pose proof (build_engines_at o f l k Hs He) as Hb. rewrite decide_True in Hb by done.
  destruct Hb as (es & f' & k' & Hb & [Hcpus Hfresh] & _ & Hbe & _ & _).
  assert (length es = pe_count o * engines_per_pe o)%nat as Hlen.
  { rewrite <-(length_fmap engine_cpu), (Permutation_length Hcpus). rewrite length_concat_replicate. f_equal. by apply picks_length. }
  assert (∃ lc', prepare_launcher o kd runnable lc = (Ret (mkLauncher (Some (Runner_new runnable)) (make_contexts (length es)) es), lc'))
    as [lc' Hprep].
  { unfold prepare_launcher, get_engine_factory, mbind, M_bind, get, lift. rewrite Hf. cbv beta iota. rewrite Hb. unfold put. simpl. rewrite Hbe.
    destruct kd; simpl in Hk; try (rewrite Hk; simpl); by eexists. }
  destruct (enqueue_new (length es) runnable) as (r & Hr & Hlr).
  destruct (launch_all_ok es) as (es' & Hes & Hc & Hl); [by eapply Forall_impl; [exact Hfresh|]; naive_solver|].
  eexists _, lc', r, (mkLauncher None [] es'). split_and!; [exact Hprep| |exact (eq_trans Hlr Hlen)|exact Hl|cbn [l_engines]; by rewrite Hc|by eexists].
  unfold ignition. cbn [l_runner l_contexts l_engines]. rewrite make_contexts_length.
  rewrite (proj2 (Nat.ltb_lt 0 (length es))) by nia. cbn [check mbind res_bind]. rewrite Hr. cbn. by rewrite Hes.
Qed.
End proofs.

(** ** Running it *)
Definition two_by_two : LaunchOptions := mkLaunchOptions 2 2 "pool".
Definition demo_threads : EngineFactory (list Z) := ReusableThreadEngineFactory [0; 2; 5] 2.
Lemma demo_threads_serves : serves demo_threads [0; 2; 5] 2.
Proof. split; [solve_bits|]. split; [done|]. split; [simpl; lia|reflexivity]. Qed.

Lemma build_engines_spec_witness :
  builds two_by_two demo_threads [0; 2; 5] [5; 0] (advanced demo_threads [0; 2; 5] 2 2).
Proof. refine (build_engines_spec two_by_two demo_threads [0; 2; 5] 2 demo_threads_serves _). simpl. lia. Defined.

Lemma single_use_fiber_shared_witness :
  ∃ es, build_engines two_by_two (SingleUseFiberEngineFactory [7; 8; 9] 1) = (Ret es, SingleUseFiberEngineFactory (B := list Z) [7; 8; 9] 1) ∧
  (SingleUseFiberEngineFactory (B := list Z) [7; 8; 9] 1 = SingleUseFiberEngineFactory [7; 8; 9] 1 ∧
   ∃ es', build_engines two_by_two (SingleUseFiberEngineFactory [7; 8; 9] 1) =
     (Ret es', SingleUseFiberEngineFactory (B := list Z) [7; 8; 9] 1) ∧ engine_cpu <$> es' = engine_cpu <$> es).
Proof.
  eexists. split; [reflexivity|]. refine (single_use_fiber_shared (B := list Z) two_by_two [7; 8; 9] 1 _ _ _ _); [simpl; lia|reflexivity].
Defined.

Lemma single_use_thread_restarts_witness :
  ∃ e f', build_engines two_by_two (SingleUseThreadEngineFactory [1; 3; 4] 3) = (Throw e, f') ∧
    builds two_by_two f' [1; 3; 4] [1; 3] (eq 2%nat).
Proof.
  refine (single_use_thread_restarts two_by_two two_by_two [1; 3; 4] [1; 3; 4] 2 3 _ _ _ _ _ _);
    [solve_bits|split; [simpl; lia|reflexivity]|simpl; lia..].
Defined.

Lemma launch_control_ok_witness :
  let lc := mkLaunchControl [("pool", demo_threads)] in
  ∃ la lc' r la', prepare_launcher two_by_two AnyRunnable Init lc = (Ret la, lc') ∧ ignition la = Ret (r, la') ∧
    length (m_instances r) = 4%nat ∧ Forall (λ e, m_launched e = true) (l_engines la') ∧
    engine_cpu <$> l_engines la' ≡ₚ [5; 5; 0; 0] ∧ ∃ w, ignition la' = Abort w.
Proof.
  refine (launch_control_ok two_by_two AnyRunnable Init (mkLaunchControl [("pool", demo_threads)]) demo_threads [0; 2; 5] 2
    _ demo_threads_serves _ _ _ _); [reflexivity|exact I|simpl; lia|simpl; lia|unfold room; simpl; lia].
Defined.

(** From the cpus of a partition to its launch control, with a dedicated main
    thread and one single use pool of two threads. *)
Example host_resources_run :
  let options := mkOptions "" (set_engine_factory_options "pool" (mkEngineFactoryOptions 2 Thread false false)
                                 (set_dedicated_main_thread true EngineGroups_new)) in
  (sets ← generate_engine_factory_cpu_sets options [0; 1; 2; 3; 4];
   fm ← FiberManager_new [0; 1; 2; 3; 4];
   HostResources_new fm sets) =
  Ret (2, mkLaunchControl [("default", ReusableFiberEngineFactory [0; 1] 0); ("main", ReusableFiberEngineFactory [2] 0);
                           ("pool", SingleUseThreadEngineFactory [3; 4] (-1))]).
Proof. vm_compute. reflexivity. Qed.
