(* ===== verification/Topology.v ===== *)
(** * Topology

    Models [src/internal/system/topology.cpp] and [gpu_info.cpp], with the
    options of [src/public/options/topology.cpp].  The hwloc topology handle is
    a third-party object: the class [HwlocTopology] lists the calls made on it.
    [None] is hwloc's -1, on which every caller aborts. *)
From Stdlib Require Import Strings.String.
From S2P Require Import Prelude SortedZ StdMap Hwloc Parsing Bitmap.
Local Open Scope string_scope.
Local Open Scope Z_scope.

Inductive hwloc_obj_type := HWLOC_OBJ_MACHINE | HWLOC_OBJ_NUMANODE | HWLOC_OBJ_CORE | HWLOC_OBJ_PU | HWLOC_OBJ_OTHER.
Record hwloc_obj (B : Type) := mkObj { obj_cpuset : B; obj_nodeset : B; total_memory : Z }.
Arguments mkObj {B}.
Arguments obj_cpuset {B}.
Arguments obj_nodeset {B}.
Arguments total_memory {B}.

Class HwlocTopology (T B : Type) : Type := {
  hwloc_topology_dup : T → option T;
  hwloc_topology_restrict : T → B → bool → option T;   (* the flag is REMOVE_CPULESS *)
  hwloc_topology_refresh : T → option T;
  hwloc_get_type_depth : T → hwloc_obj_type → Z;
  hwloc_get_type_or_below_depth : T → hwloc_obj_type → Z;
  hwloc_objs_by_depth : T → Z → option (list (hwloc_obj B));  (* None: invalid depth *)
  hwloc_cores_inside : T → B → option (list B);               (* cpusets of the cores *)
  hwloc_cpuset_to_nodeset : T → B → option B;
  hwloc_topology_export_xmlbuffer : T → option string;
  hwloc_topology_of_xml : string → option T;                  (* init, set_xmlbuffer, load *)
}.

(** CHECK_HWLOC. *)
Definition check_hwloc {A} (rc : option A) : res A :=
  match rc with Some a => Ret a | None => Abort "hwloc call returned -1" end.

(** ** GpuInfo and its message *)
Record GpuInfo (B : Type) := mkGpuInfo {
  m_cpu_set : B;
  m_name : string;
  m_uuid : string;
  m_pcie_bus_id : string;
  m_cpustr : string;
  m_memory_capacity : Z;
  m_cuda_device_id : Z;
}.
Arguments mkGpuInfo {B}.
Arguments m_cpu_set {B}.
Arguments m_name {B}.
Arguments m_uuid {B}.
Arguments m_pcie_bus_id {B}.
Arguments m_cpustr {B}.
Arguments m_memory_capacity {B}.
Arguments m_cuda_device_id {B}.

Record protos_GpuInfo := mkProtoGpu {
  p_cpu_set : string; p_name : string; p_uuid : string; p_pcie_bus_id : string;
  p_memory_capacity : Z; p_cuda_device_id : Z;
}.
Record protos_Topology := mkProtoTopology {
  hwloc_xml_string : string; p_topo_cpu_set : string; p_gpu_info : list protos_GpuInfo;
}.

Definition gpu_serialize {B} (g : GpuInfo B) : protos_GpuInfo :=
  mkProtoGpu (m_cpustr g) (m_name g) (m_uuid g) (m_pcie_bus_id g) (m_memory_capacity g) (m_cuda_device_id g).
Definition gpu_deserialize `{Hwloc B} (msg : protos_GpuInfo) : res (GpuInfo B) :=
  cpu_set ← Bitmap_of_string (p_cpu_set msg);
  Ret (mkGpuInfo cpu_set (p_name msg) (p_uuid msg) (p_pcie_bus_id msg) (p_cpu_set msg)
         (p_memory_capacity msg) (p_cuda_device_id msg)).

(** ** TopologyOptions *)
Record TopologyOptions (B : Type) := mkTopologyOptions {
  m_use_process_cpuset : bool;
  m_restrict_numa_domains : bool;
  m_restrict_gpus : bool;
  m_ignore_dgx_display : bool;
  m_user_cpuset : B;
}.
Arguments mkTopologyOptions {B}.
Arguments m_use_process_cpuset {B}.
Arguments m_restrict_numa_domains {B}.
Arguments m_restrict_gpus {B}.
Arguments m_ignore_dgx_display {B}.
Arguments m_user_cpuset {B}.
Definition TopologyOptions_new `{Hwloc B} : TopologyOptions B := mkTopologyOptions true true false true Bitmap_new.

Record Topology (T B : Type) := mkTopology {
  m_topology : T;
  m_topo_cpuset : B;
  m_depth_core : Z;
  m_depth_cpu : Z;
  m_depth_numa : Z;
  m_numa_cpusets : list B;
  m_gpu_info : imap (GpuInfo B);
}.
Arguments mkTopology {T B}.
Arguments m_topology {T B}.
Arguments m_topo_cpuset {T B}.
Arguments m_depth_core {T B}.
Arguments m_depth_cpu {T B}.
Arguments m_depth_numa {T B}.
Arguments m_numa_cpusets {T B}.
Arguments m_gpu_info {T B}.

(** [s.find(pat) != std::string::npos]. *)
Fixpoint contains_substr (pat s : string) : bool :=
  String.prefix pat s || match s with EmptyString => false | String _ s' => contains_substr pat s' end.

(** What NVML and CUDA report about one accessible device. *)
Record nvml_device (B : Type) := mkDevice {
  d_name : string; d_uuid : string; d_pcie_bus_id : string; d_memory : Z;
  d_cpuset : option B;            (* hwloc_nvml_get_device_cpuset, None on error *)
  d_cuda_id : option Z;           (* cudaDeviceGetByPCIBusId, None on error *)
}.
Arguments mkDevice {B}.
Arguments d_name {B}.
Arguments d_uuid {B}.
Arguments d_pcie_bus_id {B}.
Arguments d_memory {B}.
Arguments d_cpuset {B}.
Arguments d_cuda_id {B}.

Section topology.
Context `{Hwloc B} `{HwlocTopology T B}.
Implicit Types (t : Topology T B).

(** ** Objects *)
Definition object_at_depth (topo : T) (depth : Z) (id : nat) : res (hwloc_obj B) :=
  match hwloc_objs_by_depth topo depth with
  | None => Abort "invalid depth"
  | Some objs => match objs !! id with Some o => Ret o | None => Abort "invalid id" end
  end.
Definition cpuset_for_object (topo : T) (depth : Z) (id : nat) : res B :=
  o ← object_at_depth topo depth id; Ret (obj_cpuset o).
Definition numaset_for_object t (depth : Z) (id : nat) : res B :=
  o ← object_at_depth (m_topology t) depth id; Ret (obj_nodeset o).

Definition depth_for_object t (obj : hwloc_obj_type) : res Z :=
  rc ← match obj with
       | HWLOC_OBJ_MACHINE | HWLOC_OBJ_NUMANODE | HWLOC_OBJ_PU => Ret (hwloc_get_type_depth (m_topology t) obj)
       | HWLOC_OBJ_CORE => Ret (hwloc_get_type_or_below_depth (m_topology t) HWLOC_OBJ_CORE)
       | HWLOC_OBJ_OTHER => Abort "obj not support by this method"
       end;
  check (negb (rc =? -1)) "rc != -1" ;; Ret rc.

(** hwloc answers 0 for an invalid depth. *)
Definition nbobjs_by_depth (topo : T) (depth : Z) : Z :=
  match hwloc_objs_by_depth topo depth with Some objs => Z.of_nat (length objs) | None => 0 end.
Definition object_count_at_depth t (depth : Z) : Z := u32 (nbobjs_by_depth (m_topology t) depth).
Definition core_count t : Z := object_count_at_depth t (m_depth_core t).
Definition topo_cpu_count t : Z := object_count_at_depth t (m_depth_cpu t).
Definition numa_count t : Z := object_count_at_depth t (m_depth_numa t).
Definition gpu_count t : Z := u32 (Z.of_nat (length (m_gpu_info t))).
Definition numa_cpuset t (id : nat) : res B :=
  match m_numa_cpusets t !! id with Some b => Ret b | None => Abort "id < m_numa_cpusets.size()" end.
Definition numaset_for_cpuset t (cpu_set : B) : res B := check_hwloc (hwloc_cpuset_to_nodeset (m_topology t) cpu_set).
Definition topo_contains t (cpu_set : B) : bool := hwloc_bitmap_isincluded cpu_set (m_topo_cpuset t).

(** ** Construction *)
Definition Topology_new (topology : T) (cpu_set : B) (gpu_info : imap (GpuInfo B)) : res (Topology T B) :=
  w ← weight cpu_set;
  check (0 <? w) "m_topo_cpuset.weight() > 0" ;;
  let d_core := hwloc_get_type_or_below_depth topology HWLOC_OBJ_CORE in
  let d_cpu := hwloc_get_type_depth topology HWLOC_OBJ_PU in
  let d_numa := hwloc_get_type_depth topology HWLOC_OBJ_NUMANODE in
  let nodes := default [] (hwloc_objs_by_depth topology d_numa) in
  Ret (mkTopology topology cpu_set d_core d_cpu d_numa (obj_cpuset <$> nodes) gpu_info).

(** The loop that drops gpus. *)
Definition keep_gpu (options : TopologyOptions B) (topo_cpu_set : B) (info : GpuInfo B) : bool :=
  let overlap := set_intersect (m_cpu_set info) topo_cpu_set in
  negb (m_restrict_gpus options && empty overlap)
  && negb (m_ignore_dgx_display options && contains_substr "DGX Display" (m_name info)).
Definition filter_gpus (options : TopologyOptions B) (topo_cpu_set : B) (gpus : imap (GpuInfo B)) : imap (GpuInfo B) :=
  foldl (λ gpu_info kv, if keep_gpu options topo_cpu_set kv.2 then imap_set kv.1 kv.2 gpu_info else gpu_info) [] gpus.

(** The user's cpus, when given, restrict the topology's. *)
Definition restrict_to_user (options : TopologyOptions B) (topo_cpu_set : B) : res B :=
  if empty (m_user_cpuset options) then Ret topo_cpu_set
  else
    let intersection := set_intersect topo_cpu_set (m_user_cpuset options) in
    throw_if (empty intersection) "intersection between user_cpuset and topo_cpuset is null" ;;
    weight (m_user_cpuset options) ;;
    weight intersection ;;
    Ret intersection.

Definition Topology_create (options : TopologyOptions B) (system_topology : T) (topo_cpu_set : B)
  (gpus : imap (GpuInfo B)) : res (Topology T B) :=
  topology ← check_hwloc (hwloc_topology_dup system_topology);
  topo_cpu_set ← restrict_to_user options topo_cpu_set;
  topology ← check_hwloc (hwloc_topology_restrict topology topo_cpu_set (m_restrict_numa_domains options));
  topology ← check_hwloc (hwloc_topology_refresh topology);
  Topology_new topology topo_cpu_set (filter_gpus options topo_cpu_set gpus).

(** [Topology::Create(options)], from what hwloc, NVML and CUDA detect. *)
Fixpoint detect_gpus (devices : list (nvml_device B)) (gpu_info : imap (GpuInfo B)) : res (imap (GpuInfo B)) :=
  match devices with
  | [] => Ret gpu_info
  | d :: rest =>
      match d_cpuset d with
      | None => Abort "rc == 0"
      | Some cpus =>
          match str cpus, d_cuda_id d with
          | None, _ => Undefined "find_ranges"
          | Some _, None => detect_gpus rest gpu_info
          | Some cpustr, Some id =>
              detect_gpus rest (imap_set id (mkGpuInfo cpus (d_name d) (d_uuid d) (d_pcie_bus_id d) cpustr (d_memory d) id) gpu_info)
          end
      end
  end.
Definition Topology_create_system (options : TopologyOptions B) (system_topology : option T)
  (process_cpuset : option B) (devices : list (nvml_device B)) : res (Topology T B) :=
  sys ← check_hwloc system_topology;
  cpu_set ← if m_use_process_cpuset options then check_hwloc process_cpuset
            else cpuset_for_object sys 0 0;
  gpus ← detect_gpus devices [];
  Topology_create options sys cpu_set gpus.

(** ** Serialization *)
Definition serialize t : res protos_Topology :=
  xml ← check_hwloc (hwloc_topology_export_xmlbuffer (m_topology t));
  match str (m_topo_cpuset t) with
  | None => Undefined "find_ranges"
  | Some s => Ret (mkProtoTopology xml s (gpu_serialize <$> (m_gpu_info t).*2))
  end.

Fixpoint deserialize_gpus (msgs : list protos_GpuInfo) (gpu_info : imap (GpuInfo B)) : res (imap (GpuInfo B)) :=
  match msgs with
  | [] => Ret gpu_info
  | msg :: rest => info ← gpu_deserialize msg; deserialize_gpus rest (imap_set (m_cuda_device_id info) info gpu_info)
  end.
Definition Deserialize (msg : protos_Topology) : res (T * imap (GpuInfo B)) :=
  topology ← check_hwloc (hwloc_topology_of_xml (hwloc_xml_string msg));
  gpus ← deserialize_gpus (p_gpu_info msg) [];
  Ret (topology, gpus).
Definition Topology_create_msg (msg : protos_Topology) : res (Topology T B) :=
  '(topology, gpus) ← Deserialize msg;
  cpu_set ← Bitmap_of_string (p_topo_cpu_set msg);
  Topology_new topology cpu_set gpus.
Definition Topology_create_options_msg (options : TopologyOptions B) (msg : protos_Topology) : res (Topology T B) :=
  '(system_topology, gpus) ← Deserialize msg;
  cpu_set ← cpuset_for_object system_topology 0 0;
  Topology_create options system_topology cpu_set gpus.
End topology.

(** ** What is relied on *)
(** On a loaded topology the calls succeed, and importing the exported XML gives
    the topology back.  The handle stands here for the objects of the topology and their
    sets: that a topology loaded from XML is not "this system", so that it is of no use
    for binding, is not part of it. *)
Class HwlocTopologyLaws (T B : Type) `{HwlocTopology T B} : Prop := {
  dup_ok t : hwloc_topology_dup t = Some t;
  restrict_ok t b f : ∃ t', hwloc_topology_restrict t b f = Some t';
  refresh_ok t : ∃ t', hwloc_topology_refresh t = Some t';
  xml_roundtrip t : ∃ xml, hwloc_topology_export_xmlbuffer t = Some xml ∧ hwloc_topology_of_xml xml = Some t;
}.

(** Topologies that agree on everything but the representation of bitmaps. *)
Definition gpu_equiv `{Hwloc B} (g1 g2 : GpuInfo B) : Prop :=
  bm_equiv (m_cpu_set g1) (m_cpu_set g2) ∧ m_name g1 = m_name g2 ∧ m_uuid g1 = m_uuid g2 ∧
  m_pcie_bus_id g1 = m_pcie_bus_id g2 ∧ m_cpustr g1 = m_cpustr g2 ∧
  m_memory_capacity g1 = m_memory_capacity g2 ∧ m_cuda_device_id g1 = m_cuda_device_id g2.
Record topology_equiv `{Hwloc B} {T} (t1 t2 : Topology T B) : Prop := {
  eq_handle : m_topology t1 = m_topology t2;
  eq_cpuset : bm_equiv (m_topo_cpuset t1) (m_topo_cpuset t2);
  eq_depths : m_depth_core t1 = m_depth_core t2 ∧ m_depth_cpu t1 = m_depth_cpu t2 ∧ m_depth_numa t1 = m_depth_numa t2;
  eq_numa : m_numa_cpusets t1 = m_numa_cpusets t2;
  eq_gpus : Forall2 (λ kv1 kv2, kv1.1 = kv2.1 ∧ gpu_equiv kv1.2 kv2.2) (m_gpu_info t1) (m_gpu_info t2);
}.

(** A gpu as [Create] records it: printable cpus, with their text in [m_cpustr]. *)
Definition gpu_ok `{Hwloc B} (kv : Z * GpuInfo B) : Prop :=
  kv.1 = m_cuda_device_id kv.2 ∧
  ∃ l, is_bits (m_cpu_set kv.2) l ∧ Forall (λ x, x < INT_MAX) l ∧ str (m_cpu_set kv.2) = Some (m_cpustr kv.2).

Section proofs.
Context `{HwlocLaws B} `{HwlocTopologyLaws T B}.

Lemma empty_bits (b : B) l : is_bits b l → empty b = bool_decide (l = []).
Proof. apply iszero_spec. Qed.

Lemma filter_gpus_spec options (cpus : B) (gpus : list (Z * GpuInfo B)) :
  imap_ok gpus →
  filter_gpus options cpus gpus = filter (λ kv : Z * GpuInfo B, keep_gpu options cpus kv.2 = true) gpus.
Proof.
  unfold filter_gpus.
  cut (∀ (acc gs : list (Z * GpuInfo B)), imap_ok (acc ++ gs)%list →
    foldl (λ gpu_info kv, if keep_gpu options cpus kv.2 then imap_set kv.1 kv.2 gpu_info else gpu_info) acc gs =
    (acc ++ filter (λ kv : Z * GpuInfo B, keep_gpu options cpus kv.2 = true) gs)%list); [intros Hc Hok; by apply (Hc [])|].
  intros acc gs. revert acc. induction gs as [|[k g] gs IH]; intros acc Hok; [by rewrite app_nil_r|].
  cbn [foldl]. assert (imap_ok (acc ++ [(k, g)])%list) as Hok1.
  { unfold imap_ok in *. rewrite !fmap_app in *. simpl in *.
    rewrite cons_middle, app_assoc in Hok. by eapply StronglySorted_app_1_l. }
  rewrite filter_cons. cbn [snd]. destruct (keep_gpu options cpus g); simpl.
  - rewrite imap_ok_snoc by done. rewrite IH; by rewrite <-app_assoc.
  - apply IH. unfold imap_ok in *. rewrite fmap_app in *. simpl in *.
    apply zsorted_app in Hok as (? & Hgs & Hlt). apply zsorted_cons in Hgs as [? _].
    apply zsorted_app. split_and!; [done..|]. intros; apply Hlt; set_solver.
Qed.

(** The cpus a topology is restricted to. *)
Definition allowed_cpus (l u : list Z) : list Z := if decide (u = []) then l else filter (.∈ u) l.

Lemma Topology_new_ok (topo : T) (b : B) l gpus :
  is_bits b l → l ≠ [] → ∃ t, Topology_new topo b gpus = Ret t ∧ m_topology t = topo ∧ m_topo_cpuset t = b ∧ m_gpu_info t = gpus.
Proof.
  intros Hb Hl. unfold Topology_new. rewrite (weight_bits b l Hb). simpl.
  rewrite (proj2 (Z.ltb_lt _ _)) by (destruct l; [done|simpl; lia]). by eexists.
Qed.

(** [Topology::Create] restricts the topology to the cpus shared with the
    user's set, throws exactly when none is left, and keeps exactly the gpus
    that pass the requested filters, under their cuda ids. *)
Theorem topology_create_spec options (sys : T) (cpus : B) (gpus : list (Z * GpuInfo B)) l u :
  is_bits cpus l → is_bits (m_user_cpuset options) u → l ≠ [] → imap_ok gpus →
  if decide (allowed_cpus l u = [])
  then ∃ e, Topology_create options sys cpus gpus = Throw e
  else ∃ t, Topology_create options sys cpus gpus = Ret t ∧ is_bits (m_topo_cpuset t) (allowed_cpus l u) ∧
         m_gpu_info t = filter (λ kv : Z * GpuInfo B, keep_gpu options (m_topo_cpuset t) kv.2 = true) gpus.
Proof.
  intros Hl Hu Hne Hok. unfold Topology_create. rewrite dup_ok. simpl.
  assert (∃ b, restrict_to_user options cpus = (if decide (allowed_cpus l u = []) then Throw "intersection between user_cpuset and topo_cpuset is null" else Ret b)
    ∧ is_bits b (allowed_cpus l u)) as (b & -> & Hb).
  { unfold restrict_to_user, allowed_cpus. rewrite (empty_bits _ u Hu). case_bool_decide as Eu.
    - rewrite decide_True by done. exists cpus. by rewrite decide_False.
    - rewrite decide_False by done.
      assert (is_bits (set_intersect cpus (m_user_cpuset options)) (filter (.∈ u) l)) as Hi by (by apply is_bits_and).
      exists (set_intersect cpus (m_user_cpuset options)). split; [|done]. rewrite (empty_bits _ _ Hi).
      rewrite (weight_bits _ _ Hu), (weight_bits _ _ Hi). case_bool_decide; by case_decide. }
  destruct (decide (allowed_cpus l u = [])) as [|Hn]; simpl; [by eexists|].
  destruct (restrict_ok sys b (m_restrict_numa_domains options)) as [t1 ->]. simpl.
  destruct (refresh_ok t1) as [t2 ->]. simpl.
  destruct (Topology_new_ok t2 b _ (filter_gpus options b gpus) Hb Hn) as (t & -> & _ & Hcpu & Hg).
  exists t. rewrite Hcpu, Hg, filter_gpus_spec by done. done.
Qed.

Lemma deserialize_gpus_spec gpus (acc : list (Z * GpuInfo B)) :
  Forall gpu_ok gpus → imap_ok (acc ++ gpus)%list →
  ∃ gpus', deserialize_gpus (gpu_serialize <$> gpus.*2) acc = Ret (acc ++ gpus')%list ∧
    Forall2 (λ kv1 kv2, kv1.1 = kv2.1 ∧ gpu_equiv kv1.2 kv2.2) gpus gpus'.
Proof.
  intros Hok. revert acc. induction Hok as [|[k g] gpus Hg Hok IH]; intros acc Hs.
  { exists []. rewrite app_nil_r. by split. }
  destruct Hg as (Hk & l & Hb & Hmax & Hstr). simpl in *. subst k.
  destruct (str_bits _ _ Hb Hmax) as (s & b' & Hs' & Hp & Hb'). rewrite Hstr in Hs'. injection Hs' as <-.
  unfold gpu_deserialize. simpl. rewrite Hp. simpl.
  set (g' := mkGpuInfo b' _ _ _ _ _ _).
  assert (imap_ok (acc ++ [(m_cuda_device_id g, g')])%list) as Hok1.
  { unfold imap_ok in *. rewrite !fmap_app in *. simpl in *. rewrite cons_middle, app_assoc in Hs.
    by eapply StronglySorted_app_1_l. }
  rewrite imap_ok_snoc by done.
  destruct (IH (acc ++ [(m_cuda_device_id g, g')])%list) as (gpus' & Heq & Hall).
  { unfold imap_ok in *. rewrite !fmap_app in *. simpl in *. by rewrite <-app_assoc. }
  exists ((m_cuda_device_id g, g') :: gpus'). split; [etrans; [exact Heq|by rewrite <-app_assoc]|]. constructor; [|done].
  split; [done|]. split_and!; try done. by eapply is_bits_equiv.
Qed.

(** C40: a topology survives serialization: creating one from the message of
    another gives the same topology (same handle, cpus, NUMA sets and gpus). *)
Theorem topology_roundtrip (topo : T) (b : B) l (gpus : list (Z * GpuInfo B)) t :
  is_bits b l → Forall (λ x, x < INT_MAX) l → Forall gpu_ok gpus → imap_ok gpus →
  Topology_new topo b gpus = Ret t →
  ∃ msg t', serialize t = Ret msg ∧ Topology_create_msg msg = Ret t' ∧ topology_equiv t t'.
Proof.
  intros Hb Hmax Hg Hok Hnew. unfold Topology_new in Hnew. rewrite (weight_bits b l Hb) in Hnew. simpl in Hnew.
  destruct (0 <? Z.of_nat (length l)) eqn:Ew; simplify_eq/=.
  destruct (str_bits _ _ Hb Hmax) as (s & b' & Hs & Hp & Hb').
  destruct (xml_roundtrip topo) as (xml & Hx & Hi).
  unfold serialize. simpl. rewrite Hx, Hs. simpl. eexists.
  destruct (deserialize_gpus_spec gpus [] Hg Hok) as (gpus' & Hd & Hall).
  unfold Topology_create_msg, Deserialize. eexists. split; [done|]. simpl. rewrite Hi. simpl. rewrite Hd. simpl. rewrite Hp. simpl.
  unfold Topology_new. rewrite (weight_bits b' l Hb'). simpl. rewrite Ew. simpl. split; [done|].
  split; simpl; try done. by eapply is_bits_equiv.
Qed.
End proofs.

(** ** A topology to run the definitions on

    A handle is its XML text; every handle describes one machine with one NUMA
    node and the cores and cpus 0 to 7. *)
Module Flat.
Definition cpus : list Z := [0; 1; 2; 3; 4; 5; 6; 7].
#[global] Instance flat_topology : HwlocTopology string (list Z) := {
  hwloc_topology_dup t := Some t;
  hwloc_topology_restrict t b _ := Some t;
  hwloc_topology_refresh t := Some t;
  hwloc_get_type_depth t o := match o with HWLOC_OBJ_NUMANODE => -3 | HWLOC_OBJ_MACHINE => 0 | _ => 1 end;
  hwloc_get_type_or_below_depth t _ := 1;
  hwloc_objs_by_depth t d :=
    if d =? 0 then Some [mkObj cpus [0] 1024]
    else if d =? -3 then Some [mkObj cpus [0] 1024]
    else if d =? 1 then Some ((λ x, mkObj [x] [0] 0) <$> cpus) else None;
  hwloc_cores_inside t b := Some ((λ x, [x]) <$> filter (.∈ b) cpus);
  hwloc_cpuset_to_nodeset t b := Some [0];
  hwloc_topology_export_xmlbuffer t := Some t;
  hwloc_topology_of_xml s := Some s;
}.
#[global] Instance flat_laws : HwlocTopologyLaws string (list Z).
Proof. split; eauto. Qed.
End Flat.

Definition example_gpus : list (Z * GpuInfo (list Z)) :=
  [(0, mkGpuInfo [0; 1; 2; 3] "A100" "uuid-0" "00:07" "0-3" 1000 0);
   (1, mkGpuInfo [4; 5; 6; 7] "DGX Display" "uuid-1" "00:0f" "4-7" 1000 1)].

Lemma topology_create_spec_witness :
  let options := mkTopologyOptions true true false true [2; 3; 40] in
  ∃ t, Topology_create options "machine" Flat.cpus example_gpus = Ret t ∧ is_bits (m_topo_cpuset t) [2; 3] ∧
    m_gpu_info t = filter (λ kv : Z * GpuInfo (list Z), keep_gpu options (m_topo_cpuset t) kv.2 = true) example_gpus.
Proof.
  apply (topology_create_spec (mkTopologyOptions true true false true [2; 3; 40]) "machine" Flat.cpus example_gpus
    Flat.cpus [2; 3; 40]); [solve_bits|solve_bits|discriminate|repeat constructor].
Defined.

Lemma topology_roundtrip_witness :
  ∃ t msg t', Topology_new "machine" Flat.cpus example_gpus = Ret t ∧
    serialize t = Ret msg ∧ Topology_create_msg msg = Ret t' ∧ topology_equiv t t'.
Proof.
  eexists. destruct (topology_roundtrip "machine" Flat.cpus Flat.cpus example_gpus
    (mkTopology "machine" Flat.cpus 1 1 (-3) [Flat.cpus] example_gpus)) as (msg & t' & Hs & Hc & He).
  - solve_bits.
  - apply (bool_decide_unpack _); vm_compute; exact I.
  - apply Forall_cons; split; [|apply Forall_cons; split; [|constructor]]; (split; [reflexivity|]); eexists;
      (split; [solve_bits|split; [apply (bool_decide_unpack _); vm_compute; exact I|vm_compute; reflexivity]]).
  - repeat constructor.
  - reflexivity.
  - exists msg, t'. split; [reflexivity|]. split; [exact Hs|]. split; [exact Hc|exact He].
Defined.
