(* ===== verification/Partitions.v ===== *)
(** * Host and device partitions

    Models [src/internal/system/partitions.cpp] with [host_partition.cpp],
    [device_partition.cpp] and the placement options: how the machine is split
    into host partitions, how gpus are assigned to them, and how each host
    partition gets its engine factory cpu sets. *)
From Stdlib Require Import Strings.String.
From S2P Require Import Prelude SortedZ StdMap Hwloc Parsing Bitmap CpuSets Topology.
Local Open Scope string_scope.
Local Open Scope Z_scope.

Inductive PlacementStrategy := PerMachine | PerNumaNode.
Inductive PlacementResources := Dedicated | Shared.
#[export] Instance PlacementStrategy_eq_dec : EqDecision PlacementStrategy.
Proof. solve_decision. Defined.
#[export] Instance PlacementResources_eq_dec : EqDecision PlacementResources.
Proof. solve_decision. Defined.

Record PlacementOptions := mkPlacement { cpu_strategy : PlacementStrategy; resources_strategy : PlacementResources }.
Definition PlacementOptions_new : PlacementOptions := mkPlacement PerMachine Dedicated.

(** [div_even(n, np, me, nr, sr)]: the size and the start of piece [me]. *)
Definition div_even (n np me : Z) : Z * Z :=
  let nr := Z.quot n np in
  let ne := Z.rem n np in
  if me <? ne then (nr, (nr + 1) * me)
  else (nr, (nr + 1) * ne + nr * (me - ne)).

Section partitions.
Context `{Hwloc B} `{HwlocTopology T B}.

Record HostPartition := mkHost {
  hp_cpu_set : B;
  hp_numa_set : B;
  hp_total_memory : Z;
  hp_device_partitions : list nat;
  hp_engine_factory_cpu_sets : option (EngineFactoryCpuSets B);
}.
Definition HostPartition_new (cpu_set numa_set : B) (total_memory : Z) : HostPartition :=
  mkHost cpu_set numa_set total_memory [] None.
Definition add_device_partition_id (id : nat) (h : HostPartition) : HostPartition :=
  mkHost (hp_cpu_set h) (hp_numa_set h) (hp_total_memory h) (hp_device_partitions h ++ [id])%list (hp_engine_factory_cpu_sets h).
Definition set_engine_factory_cpu_sets (options : Options) (h : HostPartition) : res HostPartition :=
  c ← generate_engine_factory_cpu_sets options (hp_cpu_set h);
  Ret (mkHost (hp_cpu_set h) (hp_numa_set h) (hp_total_memory h) (hp_device_partitions h) (Some c)).

Record DevicePartition := mkDevicePartition { dp_gpu : GpuInfo B; dp_host_partition_id : nat }.

Record Partitions := mkPartitions {
  m_host_partitions : list HostPartition;
  m_device_partitions : list DevicePartition;
  m_cpu_strategy : PlacementStrategy;
  m_device_to_host_strategy : PlacementResources;
}.

(** ** The strategies that can be honoured *)
Fixpoint gpus_per_numa_node (topo : T) (gpus : imap (GpuInfo B)) (m : SharedResourceBitMap B) : res (SharedResourceBitMap B) :=
  match gpus with
  | [] => Ret m
  | (gpu_id, info) :: rest =>
      node_set ← check_hwloc (hwloc_cpuset_to_nodeset topo (m_cpu_set info));
      w ← weight node_set;
      m ← (if negb (w =? 0)
           then check (w =? 1) "node_set.weight() == 1" ;; srb_insert m node_set gpu_id
           else Ret m);
      gpus_per_numa_node topo rest m
  end.

Fixpoint all_weights (div : Z) (l : list (Z * B)) : res bool :=
  match l with
  | [] => Ret true
  | (_, gpu_bitmap) :: rest => w ← weight gpu_bitmap; b ← all_weights div rest; Ret ((w =? div) && b)
  end.

Definition symmetric (t : Topology T B) (m : SharedResourceBitMap B) : res bool :=
  let n := Z.of_nat (size m) in
  b ← all_weights (Z.quot (gpu_count t) n) (map_to_list m);
  Ret ((numa_count t =? n) && (Z.rem (gpu_count t) n =? 0) && b).

Definition choose_cpu_strategy (t : Topology T B) (placement : PlacementOptions) : res PlacementStrategy :=
  m ← gpus_per_numa_node (m_topology t) (m_gpu_info t) ∅;
  if bool_decide (cpu_strategy placement = PerNumaNode) && negb (bool_decide (size m = 0%nat))
  then b ← symmetric t m; Ret (if (b : bool) then PerNumaNode else PerMachine)
  else Ret (cpu_strategy placement).

Definition choose_device_strategy (t : Topology T B) (placement : PlacementOptions) : PlacementResources :=
  if (topo_cpu_count t <? gpu_count t) && bool_decide (resources_strategy placement = Dedicated)
  then Shared else resources_strategy placement.

(** ** Assigning the gpus *)
(** The lambda's loop: [top_score] keeps its initial value -1. *)
Fixpoint best_match_loop (cpu_set : B) (gpus : imap (GpuInfo B)) (top_idx top_score : Z) : res Z :=
  match gpus with
  | [] => Ret top_idx
  | (gpu_id, info) :: rest =>
      w ← weight (set_intersect cpu_set (m_cpu_set info));
      best_match_loop cpu_set rest (if top_score <? w then gpu_id else top_idx) top_score
  end.
Definition device_best_match (remaining_gpus : imap (GpuInfo B)) (cpu_set : B) : res (Z * imap (GpuInfo B)) :=
  top_idx ← best_match_loop cpu_set remaining_gpus (-1) (-1);
  Ret (top_idx, imap_erase top_idx remaining_gpus).

Record pstate := mkState { ps_hosts : list HostPartition; ps_devices : list DevicePartition; ps_remaining : imap (GpuInfo B) }.

(** The body of the loop over [s_id] from [CHECK_GT] on. *)
Definition assign_device (t : Topology T B) (s : pstate) : res pstate :=
  check (negb (bool_decide (length (ps_hosts s) = 0%nat))) "m_host_partitions.size() > 0" ;;
  let host_partition_id := Nat.pred (length (ps_hosts s)) in
  match ps_remaining s, ps_hosts s !! host_partition_id with
  | [], _ => Ret s
  | _, None => Undefined "m_host_partitions out of range"
  | _, Some h =>
      '(cuda_id, remaining) ← device_best_match (ps_remaining s) (hp_cpu_set h);
      match imap_find cuda_id (m_gpu_info t) with
      | None => Throw "std::out_of_range"
      | Some info =>
          let device_partition_id := length (ps_devices s) in
          Ret (mkState (<[host_partition_id := add_device_partition_id device_partition_id h]> (ps_hosts s))
                 (ps_devices s ++ [mkDevicePartition info host_partition_id])%list remaining)
      end
  end.

Fixpoint assign_shared (t : Topology T B) (count : nat) (s : pstate) : res pstate :=
  match count with O => Ret s | S n => assign_device t s ≫= assign_shared t n end.

(** With dedicated resources every [s_id] pushes its own host partition first. *)
Fixpoint assign_dedicated (t : Topology T B) (memory : Z) (cpu_sets : list B) (s : pstate) : res pstate :=
  match cpu_sets with
  | [] => Ret s
  | cpus :: rest =>
      numa ← numaset_for_cpuset t cpus;
      s ← assign_device t (mkState (ps_hosts s ++ [HostPartition_new cpus numa memory])%list (ps_devices s) (ps_remaining s));
      assign_dedicated t memory rest s
  end.

(** The cpus of cores [sc .. sc+nc-1]. *)
Fixpoint append_cores (cores : list B) (ics : list Z) (cpu_set : B) : res B :=
  match ics with
  | [] => Ret cpu_set
  | ic :: rest =>
      match cores !! Z.to_nat ic with
      | None => Undefined "core_obj is nullptr"
      | Some core => b ← append cpu_set core; append_cores cores rest b
      end
  end.
Fixpoint split_cores (cores : list B) (count : Z) (is_ : list Z) : res (list B) :=
  match is_ with
  | [] => Ret []
  | i :: rest =>
      let '(nc, sc) := div_even (Z.of_nat (length cores)) count i in
      b ← append_cores cores (seqZ sc nc) Bitmap_new;
      bs ← split_cores cores count rest;
      Ret (b :: bs)
  end.

Definition partition_object (t : Topology T B) (strategy : PlacementResources) (depth gpus_per_partition : Z) (p_id : nat) (s : pstate) : res pstate :=
  obj ← object_at_depth (m_topology t) depth p_id;
  let count := Z.max gpus_per_partition 1 in
  weight (obj_cpuset obj) ;;
  if bool_decide (strategy = Dedicated) then
    cores ← check_hwloc (hwloc_cores_inside (m_topology t) (obj_cpuset obj));
    check (count <=? Z.of_nat (length cores)) "count <= core_count" ;;
    cpu_sets ← split_cores cores count (seqZ 0 count);
    assign_dedicated t (total_memory obj / count) cpu_sets s
  else
    cpus ← cpuset_for_object (m_topology t) depth p_id;
    numa ← numaset_for_object t depth p_id;
    assign_shared t (Z.to_nat count)
      (mkState (ps_hosts s ++ [HostPartition_new cpus numa (total_memory obj)])%list (ps_devices s) (ps_remaining s)).

Fixpoint partition_loop (t : Topology T B) (strategy : PlacementResources) (depth gpus_per_partition : Z) (p_ids : list nat) (s : pstate) : res pstate :=
  match p_ids with
  | [] => Ret s
  | p :: rest => partition_object t strategy depth gpus_per_partition p s ≫= partition_loop t strategy depth gpus_per_partition rest
  end.

Fixpoint install_cpu_sets (options : Options) (hosts : list HostPartition) : res (list HostPartition) :=
  match hosts with
  | [] => Ret []
  | h :: rest => h' ← set_engine_factory_cpu_sets options h; rest' ← install_cpu_sets options rest; Ret (h' :: rest')
  end.

Definition Partitions_new (t : Topology T B) (placement : PlacementOptions) (options : Options) : res Partitions :=
  cpu_strategy ← choose_cpu_strategy t placement;
  let device_strategy := choose_device_strategy t placement in
  partition_depth ← depth_for_object t (if bool_decide (cpu_strategy = PerNumaNode) then HWLOC_OBJ_NUMANODE else HWLOC_OBJ_MACHINE);
  let partition_size := object_count_at_depth t partition_depth in
  (if partition_size =? 0 then Undefined "division by zero" else Ret ()) ;;
  let gpus_per_partition := Z.quot (gpu_count t) partition_size in
  check (Z.rem (gpu_count t) partition_size =? 0) "topology.gpu_count() % partition_size == 0" ;;
  s ← partition_loop t device_strategy partition_depth gpus_per_partition (seq 0 (Z.to_nat partition_size))
        (mkState [] [] (m_gpu_info t));
  check (gpu_count t =? Z.of_nat (length (ps_devices s))) "topology.gpu_count() == m_device_partitions.size()" ;;
  check (bool_decide (length (ps_remaining s) = 0%nat)) "remaining_gpus.size() == 0" ;;
  hosts ← install_cpu_sets options (ps_hosts s);
  Ret (mkPartitions hosts (ps_devices s) cpu_strategy device_strategy).

Fixpoint find_host (cpu_set : B) (hosts : list HostPartition) : res HostPartition :=
  match hosts with
  | [] => Abort "unable to determine host_partition which contains cpu_set"
  | h :: rest => if contains (hp_cpu_set h) cpu_set then Ret h else find_host cpu_set rest
  end.
Definition host_partition_containing (p : Partitions) (cpu_set : B) : res HostPartition :=
  w ← weight cpu_set;
  check (0 <? w) "cpu_set.weight() > 0" ;;
  find_host cpu_set (m_host_partitions p).
End partitions.
Arguments HostPartition : clear implicits.
Arguments DevicePartition : clear implicits.
Arguments Partitions : clear implicits.
Arguments pstate : clear implicits.

(** ** Splitting the cores *)
Lemma div_even_eq n np me :
  0 ≤ n → 0 < np → 0 ≤ me →
  div_even n np me = (n / np, if me <? n mod np then (n / np + 1) * me else (n / np + 1) * (n mod np) + n / np * (me - n mod np)).
Proof.
  intros Hn Hp Hm. unfold div_even. rewrite Z.quot_div_nonneg, Z.rem_mod_nonneg by lia. by destruct (me <? n mod np).
Qed.

Lemma div_even_next n np me :
  0 ≤ n → 0 < np → 0 ≤ me →
  (div_even n np (me + 1)).2 = (div_even n np me).2 + n / np + (if me <? n mod np then 1 else 0).
Proof.
  intros Hn Hp Hm. rewrite !div_even_eq by lia. simpl.
  destruct (Z.ltb_spec me (n mod np)), (Z.ltb_spec (me + 1) (n mod np)); lia.
Qed.

(** The pieces ascend, and between two of them lie only the dropped cores. *)
Lemma div_even_mono n np me k :
  0 ≤ n → 0 < np → 0 ≤ me → (div_even n np me).2 + Z.of_nat k * (n / np) ≤ (div_even n np (me + Z.of_nat k)).2.
Proof.
  intros Hn Hp Hm. assert (0 ≤ n / np) by (apply Z.div_pos; lia).
  induction k as [|k IH]; [replace (me + Z.of_nat 0) with me by lia; lia|].
  replace (me + Z.of_nat (S k)) with (me + Z.of_nat k + 1) by lia. rewrite div_even_next by lia.
  destruct (_ <? _); lia.
Qed.

Lemma div_even_end n np : 0 ≤ n → 0 < np → (div_even n np np).2 = n.
Proof.
  intros Hn Hp. rewrite div_even_eq by lia. simpl. pose proof (Z.mod_pos_bound n np Hp).
  rewrite (proj2 (Z.ltb_ge _ _)) by lia. pose proof (Z.div_mod n np). lia.
Qed.

(** The pieces that [div_even] gives to the [np] partitions have equal size,
    lie inside the [n] cores and are pairwise disjoint. *)
Theorem div_even_disjoint n np me me' :
  0 ≤ n → 0 ≤ me < me' → me' < np →
  let '(nr, sr) := div_even n np me in
  let '(nr', sr') := div_even n np me' in
  nr = n / np ∧ nr' = n / np ∧ 0 ≤ sr ∧ sr + nr ≤ sr' ∧ sr' + nr' ≤ n.
Proof.
  intros Hn Hm Hm'. assert (0 ≤ n / np) by (apply Z.div_pos; lia).
  pose proof (div_even_mono n np 0 (Z.to_nat me)) as H1. pose proof (div_even_mono n np me (Z.to_nat (me' - me))) as H2.
  pose proof (div_even_mono n np me' (Z.to_nat (np - me'))) as H3. pose proof (div_even_end n np) as Hend.
  rewrite !Z2Nat.id in * by lia. replace (me + (me' - me)) with me' in H2 by lia. replace (me' + (np - me')) with np in H3 by lia.
  assert ((div_even n np 0).2 = 0) as H0.
  { rewrite div_even_eq by lia. simpl. pose proof (Z.mod_pos_bound n np). destruct (Z.ltb_spec 0 (n mod np)); [lia|].
    assert (n mod np = 0) as -> by lia. lia. }
  rewrite Z.add_0_l in H1. rewrite H0 in H1.
  assert (∀ x, 0 ≤ x → (div_even n np x).1 = n / np) as Hsz by (intros; by rewrite div_even_eq by lia).
  pose proof (Hsz me). pose proof (Hsz me').
  destruct (div_even n np me) as [nr sr], (div_even n np me') as [nr' sr']. simpl in *. nia.
Qed.

(** When the cores do not divide evenly, the core after each of the first
    [n mod np] pieces is in no piece: those cores are given to no partition. *)
Theorem div_even_drops_cores n np me me' :
  0 ≤ n → 0 < np → 0 ≤ me < n mod np → 0 ≤ me' < np →
  let core := (div_even n np me).2 + n / np in
  core < n ∧ ¬ ((div_even n np me').2 ≤ core < (div_even n np me').2 + (div_even n np me').1).
Proof.
  intros Hn Hp Hm Hm' core. assert (0 ≤ n / np) by (apply Z.div_pos; lia). pose proof (Z.mod_pos_bound n np Hp).
  pose proof (div_even_next n np me Hn Hp) as Hnext. rewrite (proj2 (Z.ltb_lt _ _)) in Hnext by lia.
  assert (∀ x, 0 ≤ x → (div_even n np x).1 = n / np) as Hsz by (intros; by rewrite div_even_eq by lia).
  split.
  - pose proof (div_even_mono n np (me + 1) (Z.to_nat (np - (me + 1))) Hn Hp) as H3. pose proof (div_even_end n np Hn Hp) as Hend.
    rewrite Z2Nat.id in H3 by lia. replace (me + 1 + (np - (me + 1))) with np in H3 by lia. subst core. nia.
  - rewrite Hsz by lia. intros [Hlo Hhi]. destruct (Z.lt_trichotomy me' me) as [Hlt|[->|Hgt]].
    + pose proof (div_even_mono n np me' (Z.to_nat (me - me')) Hn Hp) as H3.
      rewrite Z2Nat.id in H3 by lia. replace (me' + (me - me')) with me in H3 by lia. subst core. nia.
    + subst core. lia.
    + pose proof (div_even_mono n np (me + 1) (Z.to_nat (me' - (me + 1))) Hn Hp) as H3.
      rewrite Z2Nat.id in H3 by lia. replace (me + 1 + (me' - (me + 1))) with me' in H3 by lia. subst core. nia.
Qed.

Lemma div_even_disjoint_witness : let '(nr, sr) := div_even 8 3 0 in let '(nr', sr') := div_even 8 3 2 in
  nr = 2 ∧ nr' = 2 ∧ 0 ≤ sr ∧ sr + nr ≤ sr' ∧ sr' + nr' ≤ 8.
Proof. apply (div_even_disjoint 8 3 0 2); lia. Defined.
Lemma div_even_drops_cores_witness : 2 < 5 ∧ ¬ ((div_even 5 2 1).2 ≤ 2 < (div_even 5 2 1).2 + (div_even 5 2 1).1).
Proof. apply (div_even_drops_cores 5 2 0 1); [lia|lia|change (5 mod 2) with 1; lia|lia]. Defined.

(** ** Assigning the gpus *)
Section proofs.
Context `{HwlocLaws B} `{HwlocTopology T B}.
Implicit Types (gpus : list (Z * GpuInfo B)) (s : pstate B) (t : Topology T B).

Lemma weight_above (b : B) w : weight b = Ret w → -1 < w.
Proof.
  unfold weight. pose proof (weight_range b). destruct (Z.eqb_spec (hwloc_bitmap_weight b) (-1)); [done|].
  intros [= <-]. lia.
Qed.

(** The score is never recorded, so the last gpu of the map always wins. *)
Lemma best_match_last cpus gpus k g i idx :
  best_match_loop cpus (gpus ++ [(k, g)])%list i (-1) = Ret idx → idx = k.
Proof.
  revert i. induction gpus as [|[k' g'] gpus IH]; intros i; simpl.
  - destruct (weight _) as [w|?|?|?] eqn:Ew; simpl; try done. apply weight_above in Ew.
    rewrite (proj2 (Z.ltb_lt _ _)) by done. by intros [= <-].
  - destruct (weight _) as [w|?|?|?]; simpl; try done. apply IH.
Qed.

(** [device_best_match] returns the gpu with the highest id and removes it,
    whatever the cpu set: the best score is never updated, although the comment
    says that the highest overlap wins and ties go to the lowest id. *)
Theorem device_best_match_highest_id cpus gpus k g idx rest :
  NoDup (fst <$> (gpus ++ [(k, g)])%list) →
  device_best_match (gpus ++ [(k, g)])%list cpus = Ret (idx, rest) → idx = k ∧ rest = gpus.
Proof.
  intros Hnd. unfold device_best_match. destruct (best_match_loop _ _ _ _) as [i|?|?|?] eqn:E; simpl; try done.
  apply best_match_last in E as ->. intros [= <- <-]. by rewrite imap_erase_last.
Qed.

(** The devices that a host partition should list. *)
Fixpoint devices_from (i : nat) (h : nat) (ds : list (DevicePartition B)) : list nat :=
  match ds with
  | [] => []
  | d :: ds => (if decide (dp_host_partition_id d = h) then [i] else []) ++ devices_from (S i) h ds
  end%list.
Definition devices_of (h : nat) (ds : list (DevicePartition B)) : list nat := devices_from 0 h ds.

Lemma devices_of_snoc h ds d :
  devices_of h (ds ++ [d])%list = (devices_of h ds ++ (if decide (dp_host_partition_id d = h) then [length ds] else []))%list.
Proof.
  unfold devices_of. cut (∀ i, devices_from i h (ds ++ [d])%list =
    (devices_from i h ds ++ (if decide (dp_host_partition_id d = h) then [(i + length ds)%nat] else []))%list); [intros Hc; by rewrite Hc|].
  induction ds as [|d' ds IH]; intros i; simpl.
  - rewrite Nat.add_0_r. by case_decide.
  - rewrite IH, <-app_assoc. repeat f_equal. by replace (S i + length ds)%nat with (i + S (length ds))%nat by lia.
Qed.
Lemma devices_of_none h ds : Forall (λ d, dp_host_partition_id d < h)%nat ds → devices_of h ds = [].
Proof.
  unfold devices_of. generalize 0%nat. induction ds as [|d ds IH]; intros i Hf; simpl; [done|].
  apply Forall_cons in Hf as [? ?]. rewrite decide_False by lia. simpl. by apply IH.
Qed.

(** What the loops maintain: the gpus leave [remaining_gpus] from the highest id
    down, in the order of the device partitions; and both directions of the
    host/device relation agree. *)
Definition assigned t s : Prop :=
  (∃ taken : list (Z * GpuInfo B), (ps_remaining s ++ taken)%list = m_gpu_info t ∧ dp_gpu <$> ps_devices s = reverse taken.*2) ∧
  Forall (λ d, dp_host_partition_id d < length (ps_hosts s))%nat (ps_devices s) ∧
  (∀ h hp, ps_hosts s !! h = Some hp → hp_device_partitions hp = devices_of h (ps_devices s)).

Lemma assigned_push t s cpus numa mem :
  assigned t s → assigned t (mkState (ps_hosts s ++ [HostPartition_new cpus numa mem])%list (ps_devices s) (ps_remaining s)).
Proof.
  intros (Htk & Hlt & Hdev). split_and!; [done| |]; simpl.
  - eapply Forall_impl; [exact Hlt|]. intros d Hd. simpl in *. rewrite length_app. simpl. lia.
  - intros h hp. rewrite lookup_app_Some. intros [?|[Hge Hh]]; [by apply Hdev|].
    apply list_lookup_singleton_Some in Hh as [Hh <-]. simpl. symmetry. apply devices_of_none.
    eapply Forall_impl; [exact Hlt|]. intros d Hd. simpl in *. lia.
Qed.

Lemma assigned_device t s s' : imap_ok (m_gpu_info t) → assigned t s → assign_device t s = Ret s' → assigned t s'.
Proof.
  intros Hok ((taken & Htk & Hgpu) & Hlt & Hdev). unfold assign_device.
  destruct (check _ _) as [[]| | |]; try done. simpl.
  destruct (ps_remaining s) as [|x0 l0] eqn:Er; [intros [= <-]; split_and!; try done; exists taken; by rewrite Er|].
  destruct (ps_hosts s !! _) as [h|] eqn:Eh; [|done].
  destruct (exists_last (l := x0 :: l0)) as (l & [k g] & Hl); [done|]. rewrite Hl in *. clear x0 l0 Hl.
  assert (NoDup (fst <$> m_gpu_info t)) as Hnd by (by apply imap_ok_NoDup).
  assert (NoDup (fst <$> (l ++ [(k, g)])%list)) as Hnd'.
  { rewrite <-Htk, fmap_app in Hnd. by apply NoDup_app in Hnd as [? _]. }
  unfold device_best_match. destruct (best_match_loop _ _ _ _) as [i|?|?|?] eqn:Eb; simpl; try done.
  apply best_match_last in Eb as ->. rewrite imap_erase_last by done.
  rewrite (imap_find_elem (m_gpu_info t) k g) by (done || rewrite <-Htk; set_solver).
  intros [= <-]. split_and!; simpl.
  - exists ((k, g) :: taken). rewrite <-app_assoc in Htk. split; [done|].
    rewrite fmap_app, Hgpu. simpl. by rewrite reverse_cons.
  - rewrite length_insert. apply Forall_app. split; [done|]. apply Forall_singleton. simpl.
    apply lookup_lt_Some in Eh. lia.
  - intros j hp. rewrite devices_of_snoc. simpl. rewrite list_lookup_insert_Some.
    intros [(<- & <- & _)|[Hne Hj]].
    + rewrite decide_True by done. simpl. by rewrite (Hdev _ _ Eh).
    + rewrite decide_False, app_nil_r by done. by apply Hdev.
Qed.

Lemma assigned_shared t n s s' : imap_ok (m_gpu_info t) → assigned t s → assign_shared t n s = Ret s' → assigned t s'.
Proof.
  intros Hok. revert s. induction n as [|n IH]; simpl; intros s Ha; [by intros [= <-]|].
  destruct (assign_device t s) as [s1|?|?|?] eqn:E; simpl; try done. apply IH. by eapply assigned_device.
Qed.
Lemma assigned_dedicated t mem sets s s' :
  imap_ok (m_gpu_info t) → assigned t s → assign_dedicated t mem sets s = Ret s' → assigned t s'.
Proof.
  intros Hok. revert s. induction sets as [|b sets IH]; simpl; intros s Ha; [by intros [= <-]|].
  destruct (numaset_for_cpuset t b) as [numa|?|?|?]; simpl; try done.
  destruct (assign_device t _) as [s1|?|?|?] eqn:E; simpl; try done. apply IH.
  eapply assigned_device; [done| |exact E]. by apply assigned_push.
Qed.

Lemma assigned_loop t strategy depth per ps s s' :
  imap_ok (m_gpu_info t) → assigned t s → partition_loop t strategy depth per ps s = Ret s' → assigned t s'.
Proof.
  intros Hok. revert s. induction ps as [|p ps IH]; simpl; intros s Ha; [by intros [= <-]|].
  destruct (partition_object t strategy depth per p s) as [s1|?|?|?] eqn:E; simpl; try done. apply IH.
  unfold partition_object in E. destruct (object_at_depth _ _ _) as [o|?|?|?] eqn:Eo; simpl in E; try done.
  destruct (weight _); simpl in E; try done. case_bool_decide.
  - destruct (hwloc_cores_inside _ _) as [cores|]; simpl in E; [|done]. destruct (check _ _); simpl in E; try done.
    destruct (split_cores _ _ _) as [sets|?|?|?]; simpl in E; try done. by eapply assigned_dedicated.
  - unfold cpuset_for_object, numaset_for_object in E. rewrite Eo in E. simpl in E.
    eapply assigned_shared; [done| |exact E]. by apply assigned_push.
Qed.

Lemma install_cpu_sets_lookup options hosts hosts' h hp' :
  install_cpu_sets options hosts = Ret hosts' → hosts' !! h = Some hp' →
  ∃ hp : HostPartition B, hosts !! h = Some hp ∧ hp_device_partitions hp' = hp_device_partitions hp ∧
    hp_cpu_set hp' = hp_cpu_set hp ∧
    ∃ c, generate_engine_factory_cpu_sets options (hp_cpu_set hp) = Ret c ∧ hp_engine_factory_cpu_sets hp' = Some c.
Proof.
  revert hosts' h. induction hosts as [|hp hosts IH]; simpl; intros hosts' h; [by intros [= <-]|].
  unfold set_engine_factory_cpu_sets.
  destruct (generate_engine_factory_cpu_sets _ _) as [c|?|?|?] eqn:Ec; simpl; try done.
  destruct (install_cpu_sets options hosts) as [rest|?|?|?]; simpl; try done. intros [= <-].
  destruct h as [|h]; simpl; [intros [= <-]; exists hp; split_and!; try done; by exists c|]. by apply IH.
Qed.
Lemma install_cpu_sets_length options (hosts hosts' : list (HostPartition B)) :
  install_cpu_sets options hosts = Ret hosts' → length hosts' = length hosts.
Proof.
  revert hosts'. induction hosts as [|hp hosts IH]; simpl; intros hosts'; [by intros [= <-]|].
  destruct (set_engine_factory_cpu_sets options hp); simpl; try done.
  destruct (install_cpu_sets options hosts) as [rest|?|?|?]; simpl; try done. intros [= <-]. simpl. f_equal. by apply IH.
Qed.

(** When the partitions are formed, every gpu of the topology is in exactly
    one device partition (in descending order of cuda id), every device
    partition names an existing host partition, the host partitions list exactly
    the devices that name them, and each has engine factory cpu sets computed
    from its own cpus. *)
Theorem partitions_devices t placement options p :
  imap_ok (m_gpu_info t) → Partitions_new t placement options = Ret p →
  dp_gpu <$> m_device_partitions p = reverse (snd <$> m_gpu_info t) ∧
  Forall (λ d, dp_host_partition_id d < length (m_host_partitions p))%nat (m_device_partitions p) ∧
  ∀ h hp, m_host_partitions p !! h = Some hp →
    hp_device_partitions hp = devices_of h (m_device_partitions p) ∧
    ∃ c, generate_engine_factory_cpu_sets options (hp_cpu_set hp) = Ret c ∧ hp_engine_factory_cpu_sets hp = Some c.
Proof.
  intros Hok. unfold Partitions_new.
  destruct (choose_cpu_strategy t placement) as [st|?|?|?]; simpl; try done.
  destruct (depth_for_object _ _) as [d|?|?|?]; simpl; try done.
  destruct (object_count_at_depth t d =? 0); simpl; try done. destruct (Z.rem (gpu_count t) _ =? 0); simpl; try done.
  destruct (partition_loop _ _ _ _ _ _) as [s|?|?|?] eqn:El; simpl; try done.
  destruct (gpu_count t =? _); simpl; try done.
  case_bool_decide as Hr; simpl; try done.
  destruct (install_cpu_sets _ _) as [hosts|?|?|?] eqn:Ei; simpl; try done. intros [= <-]. simpl.
  apply assigned_loop in El as ((taken & Htk & Hg) & Hlt & Hdev); [|done|].
  - apply nil_length_inv in Hr. rewrite Hr in Htk. simpl in Htk. subst taken. split_and!; [done| |].
    + by rewrite (install_cpu_sets_length _ _ _ Ei).
    + intros h hp Hh. destruct (install_cpu_sets_lookup _ _ _ _ _ Ei Hh) as (hp0 & Hhp0 & -> & -> & Hc). split; [by apply Hdev|done].
  - split_and!; simpl; [|done|done]. exists []. by rewrite app_nil_r.
Qed.
End proofs.

(** ** Running it *)
Definition example_topology : Topology string (list Z) :=
  mkTopology "machine" Flat.cpus 1 1 (-3) [Flat.cpus] example_gpus.
Definition plain_options : Options := mkOptions "" EngineGroups_new.

Lemma device_best_match_highest_id_witness :
  ∃ rest, device_best_match example_gpus [0; 1; 2; 3] = Ret (1, rest) ∧ 1 = 1 ∧ rest = take 1 example_gpus.
Proof.
  eexists. split; [vm_compute; reflexivity|].
  eapply (device_best_match_highest_id [0; 1; 2; 3] (take 1 example_gpus) 1
            (mkGpuInfo [4; 5; 6; 7] "DGX Display" "uuid-1" "00:0f" "4-7" 1000 1));
    [apply (bool_decide_unpack _); vm_compute; exact I|vm_compute; reflexivity].
Defined.

Lemma partitions_devices_witness :
  ∃ p, Partitions_new example_topology PlacementOptions_new plain_options = Ret p ∧
    dp_gpu <$> m_device_partitions p = reverse (snd <$> example_gpus) ∧
    Forall (λ d, dp_host_partition_id d < length (m_host_partitions p))%nat (m_device_partitions p) ∧
    ∀ h hp, m_host_partitions p !! h = Some hp →
      hp_device_partitions hp = devices_of h (m_device_partitions p) ∧
      ∃ c, generate_engine_factory_cpu_sets plain_options (hp_cpu_set hp) = Ret c ∧ hp_engine_factory_cpu_sets hp = Some c.
Proof.
  eexists. split; [vm_compute; reflexivity|].
  apply (partitions_devices example_topology PlacementOptions_new plain_options);
    [repeat constructor|vm_compute; reflexivity].
Defined.
