(* ===== verification/Resources.v ===== *)
(** * Resources

    Models [src/internal/resources]: [SystemResources] makes the resources of every host
    partition, and of every device partition of a host; [ResourcePartitions] flattens them
    into the list of partitions that pipelines are assigned to, one per device in the order
    of the cuda ids, then one per host without devices.

    A shared pointer to host or device resources is their position in the vector that
    owns them. *)
From Stdlib Require Import Strings.String.
From S2P Require Import Prelude SortedZ StdMap Hwloc Bitmap CpuSets Engines Topology Partitions.
Local Open Scope string_scope.

Section resources.
Context `{Hwloc B}.

Record HostResources := mkHostResources { hr_partition : HostPartition B; hr_main : Z; hr_launch_control : LaunchControl B }.
Record DeviceResources := mkDeviceResources { dr_partition : DevicePartition B; dr_host : nat }.
Record SystemResources := mkSystemResources { m_host_resources : list HostResources; m_device_resources : list DeviceResources }.
Definition cuda_device_id (d : DeviceResources) : Z := m_cuda_device_id (dp_gpu (dr_partition d)).

(** A partition whose cpu sets were never set has none for [main]. *)
Definition make_host_resources (fm : FiberManager B) (partition : HostPartition B) : res HostResources :=
  match hp_engine_factory_cpu_sets partition with
  | None => Abort "unable to lookup cpuset for main"
  | Some sets => '(main, lc) ← HostResources_new fm sets; Ret (mkHostResources partition main lc)
  end.
(** The devices of one host, [device_partitions().at(id)] throwing on a bad id. *)
Fixpoint make_device_resources (device_partitions : list (DevicePartition B)) (host : nat) (ids : list nat) : res (list DeviceResources) :=
  match ids with
  | [] => Ret []
  | id :: ids =>
      match device_partitions !! id with
      | None => Throw "std::out_of_range"
      | Some d => ds ← make_device_resources device_partitions host ids; Ret (mkDeviceResources d host :: ds)
      end
  end.
Fixpoint add_resources (fm : FiberManager B) (device_partitions : list (DevicePartition B)) (hosts : list (HostPartition B)) (r : SystemResources)
    : res SystemResources :=
  match hosts with
  | [] => Ret r
  | partition :: hosts =>
      h ← make_host_resources fm partition;
      ds ← make_device_resources device_partitions (length (m_host_resources r)) (hp_device_partitions partition);
      add_resources fm device_partitions hosts (mkSystemResources (m_host_resources r ++ [h])%list (m_device_resources r ++ ds)%list)
  end.
Definition SystemResources_new (fm : FiberManager B) (p : Partitions B) : res SystemResources :=
  add_resources fm (m_device_partitions p) (m_host_partitions p) (mkSystemResources [] []).

(** ** The flat list of partitions *)
Record PartitionResources := mkPartition { partition_id : nat; pr_host : nat; pr_device : option nat }.
(** [host()] and [device()]. *)
Definition host (r : SystemResources) (p : PartitionResources) : res HostResources :=
  let at_host (h : nat) := match m_host_resources r !! h with Some x => Ret x | None => Abort "m_host_resources" end in
  match pr_device p with
  | Some d => match m_device_resources r !! d with Some x => at_host (dr_host x) | None => Undefined "device resources" end
  | None => at_host (pr_host p)
  end.
Definition device (r : SystemResources) (p : PartitionResources) : res DeviceResources :=
  match pr_device p with
  | Some d => match m_device_resources r !! d with Some x => Ret x | None => Undefined "device resources" end
  | None => Throw "no device associated with this partition"
  end.

Fixpoint cuda_to_dr (i : nat) (ds : list DeviceResources) (m : imap nat) : imap nat :=
  match ds with [] => m | d :: ds => cuda_to_dr (S i) ds (imap_set (cuda_device_id d) i m) end.
Fixpoint device_partitions_of (r : SystemResources) (ids : imap nat) (acc : list PartitionResources) : res (list PartitionResources) :=
  match ids with
  | [] => Ret acc
  | (_, resource_id) :: ids =>
      match m_device_resources r !! resource_id with
      | None => Throw "std::out_of_range"
      | Some dr => device_partitions_of r ids (acc ++ [mkPartition (length acc) (dr_host dr) (Some resource_id)])%list
      end
  end.
Fixpoint host_only_partitions (i : nat) (hosts : list HostResources) (acc : list PartitionResources) : list PartitionResources :=
  match hosts with
  | [] => acc
  | h :: hosts =>
      host_only_partitions (S i) hosts
        (match hp_device_partitions (hr_partition h) with [] => acc ++ [mkPartition (length acc) i None] | _ => acc end)%list
  end.
Definition ResourcePartitions_new (r : SystemResources) : res (list PartitionResources) :=
  ps ← device_partitions_of r (cuda_to_dr 0 (m_device_resources r) []) [];
  check (bool_decide (length ps = length (m_device_resources r))) "m_resources.size() == device_resources().size()" ;;
  Ret (host_only_partitions 0 (m_host_resources r) ps).

(** ** Proofs *)
Lemma make_device_resources_spec devs h ids ds : make_device_resources devs h ids = Ret ds →
  length ds = length ids ∧ ∀ (i : nat) d, ds !! i = Some d → dr_host d = h ∧ ∃ id, ids !! i = Some id ∧ devs !! id = Some (dr_partition d).
Proof.
  revert ds. induction ids as [|id ids IH]; intros ds; simpl; [by intros [= <-]|]. destruct (devs !! id) as [d|] eqn:Ed; [|done].
  destruct (make_device_resources devs h ids) as [ds'| | |] eqn:E; simpl; try done. intros [= <-]. destruct (IH ds' eq_refl) as [Hl Hi].
  split; [simpl; lia|]. intros [|i] d'; simpl; [intros [= <-]; eauto|apply Hi].
Qed.
(** The devices in the order in which the hosts list them. *)
Definition listed (hosts : list (HostPartition B)) : list nat := concat (hp_device_partitions <$> hosts).
Lemma add_resources_spec fm devs hosts r r' : add_resources fm devs hosts r = Ret r' →
  ∃ hs ds, m_host_resources r' = (m_host_resources r ++ hs)%list ∧ m_device_resources r' = (m_device_resources r ++ ds)%list ∧
    hr_partition <$> hs = hosts ∧ length ds = length (listed hosts) ∧
    ∀ (i : nat) d, ds !! i = Some d → ∃ id h, listed hosts !! i = Some id ∧ devs !! id = Some (dr_partition d) ∧
      dr_host d = (length (m_host_resources r) + h)%nat ∧ ∃ hp, hosts !! h = Some hp ∧ id ∈ hp_device_partitions hp.
Proof.
  revert r r'. induction hosts as [|hp hosts IH]; intros r r'; simpl; [intros [= <-]; exists [], []; rewrite !app_nil_r; by split_and!|].
  unfold make_host_resources. destruct (hp_engine_factory_cpu_sets hp) as [sets|]; simpl; [|done].
  destruct (HostResources_new fm sets) as [[main lc]| | |]; simpl; try done.
  destruct (make_device_resources _ _ _) as [ds1| | |] eqn:Ed; simpl; try done. intros Hr.
  destruct (make_device_resources_spec _ _ _ _ Ed) as [Hl1 Hi1]. destruct (IH _ _ Hr) as (hs & ds & Hh & Hd & Hp & Hl & Hi). simpl in Hh, Hd.
  exists (mkHostResources hp main lc :: hs), (ds1 ++ ds)%list. rewrite Hh, Hd, <-!app_assoc. split; [done|]. split; [done|]. split; [cbn; f_equal; exact Hp|].
  split; [unfold listed; simpl; rewrite !length_app, Hl1, Hl; done|]. intros i d [Hid|[Hge Hid]]%lookup_app_Some.
  - destruct (Hi1 i d Hid) as (Hho & id & Hid1 & Hdv). exists id, 0%nat. unfold listed. simpl. rewrite lookup_app_l by (apply lookup_lt_Some in Hid1; lia).
    split; [done|]. split; [done|]. split; [lia|]. exists hp. split; [done|]. apply list_elem_of_lookup. by exists i.
  - destruct (Hi _ _ Hid) as (id & h & Hid1 & Hdv & Hho & hp' & Hhp & Hin). exists id, (S h). unfold listed. simpl.
    rewrite lookup_app_r by lia. rewrite <-Hl1. split; [exact Hid1|]. split; [done|]. split; [|by exists hp']. rewrite Hho. simpl. rewrite length_app. simpl. lia.
Qed.
(** *** The devices of the hosts *)
(** The host partitions list exactly the devices that name them. *)
Definition agree (p : Partitions B) : Prop :=
  Forall (λ d, dp_host_partition_id d < length (m_host_partitions p))%nat (m_device_partitions p) ∧
  ∀ h hp, m_host_partitions p !! h = Some hp → hp_device_partitions hp = devices_of h (m_device_partitions p).
Lemma devices_from_elem i h (ds : list (DevicePartition B)) x :
  x ∈ devices_from i h ds ↔ ∃ j d, ds !! j = Some d ∧ dp_host_partition_id d = h ∧ x = (i + j)%nat.
Proof.
  revert i. induction ds as [|d ds IH]; intros i; simpl; [split; [by intros ?%elem_of_nil|intros (j & d & Hj & _); by rewrite lookup_nil in Hj]|].
  rewrite elem_of_app, IH. split.
  - intros [Hx|(j & d' & Hj & Hd & ->)].
    + case_decide; [|by apply elem_of_nil in Hx]. apply list_elem_of_singleton in Hx as ->. exists 0%nat, d. split_and!; [done|done|lia].
    + exists (S j), d'. split_and!; [done|done|lia].
  - intros ([|j] & d' & Hj & Hd & ->); simplify_eq/=; [left; rewrite decide_True by done; apply list_elem_of_singleton; lia|].
    right. exists j, d'. split_and!; [done|done|lia].
Qed.
Lemma devices_from_NoDup i h (ds : list (DevicePartition B)) : NoDup (devices_from i h ds).
Proof.
  revert i. induction ds as [|d ds IH]; intros i; simpl; [constructor|]. case_decide; simpl; [|apply IH]. constructor; [|apply IH].
  intros (j & d' & _ & _ & ?)%devices_from_elem. lia.
Qed.
Lemma listed_perm p : agree p → listed (m_host_partitions p) ≡ₚ seq 0 (length (m_device_partitions p)).
Proof.
  intros [Hlt Hdev]. apply NoDup_Permutation; [|apply NoDup_seq|].
  - unfold listed. apply concat_NoDup.
    + intros l Hl. apply list_elem_of_lookup in Hl as [h Hh]. rewrite list_lookup_fmap in Hh. apply fmap_Some in Hh as (hp & Hhp & ->).
      rewrite (Hdev h hp Hhp). apply devices_from_NoDup.
    + intros i j l1 l2 x Hi Hj Hx1 Hx2. rewrite list_lookup_fmap in Hi, Hj. apply fmap_Some in Hi as (h1 & Hh1 & ->). apply fmap_Some in Hj as (h2 & Hh2 & ->).
      rewrite (Hdev _ _ Hh1) in Hx1. rewrite (Hdev _ _ Hh2) in Hx2. apply devices_from_elem in Hx1 as (x1 & d1 & Hd1 & E1 & ->). apply devices_from_elem in Hx2 as (x2 & d2 & Hd2 & E2 & Hx).
      assert (x1 = x2) as -> by lia. by simplify_eq.
  - intros x. rewrite elem_of_seq. unfold listed. split.
    + intros Hx. apply concat_elem in Hx as (l & Hl & Hx). apply list_elem_of_lookup in Hl as [h Hh]. rewrite list_lookup_fmap in Hh. apply fmap_Some in Hh as (hp & Hhp & ->).
      rewrite (Hdev _ _ Hhp) in Hx. apply devices_from_elem in Hx as (j & d & Hj & _ & ->). apply lookup_lt_Some in Hj. lia.
    + intros [_ Hx]. destruct (lookup_lt_is_Some_2 (m_device_partitions p) x) as [d Hd]; [lia|]. pose proof (Forall_lookup_1 _ _ _ _ Hlt Hd) as Hh. simpl in Hh.
      apply lookup_lt_is_Some_2 in Hh as [hp Hhp]. apply concat_elem. exists (hp_device_partitions hp). split.
      * apply list_elem_of_fmap. exists hp. split; [done|]. apply list_elem_of_lookup. by eexists.
      * rewrite (Hdev _ _ Hhp). apply devices_from_elem. by exists x, d.
Qed.
(** *** The flat list *)
Lemma imap_set_fresh {A} k (v : A) m : k ∉ m.*1 → imap_set k v m ≡ₚ (k, v) :: m.
Proof.
  induction m as [|[k' v'] m IH]; simpl; [done|]. intros Hk. rewrite not_elem_of_cons in Hk. destruct Hk as [Hne Hk].
  destruct (k ?= k')%Z eqn:E; [apply Z.compare_eq_iff in E; done|done|]. rewrite (IH Hk). apply perm_swap.
Qed.
Lemma cuda_to_dr_ok i ds m : imap_ok m → imap_ok (cuda_to_dr i ds m) ∧ (∀ k, k ∈ (cuda_to_dr i ds m).*1 → k ∈ m.*1 ∨ k ∈ cuda_device_id <$> ds).
Proof.
  revert i m. induction ds as [|d ds IH]; intros i m Hm; simpl; [by auto|]. destruct (IH (S i) _ (imap_set_ok (cuda_device_id d) i m Hm)) as [H1 H2].
  split; [done|]. intros k [Hk|Hk]%H2; [|right; by right]. apply imap_set_keys in Hk as [->|]; [right; by left|by left].
Qed.
Lemma cuda_to_dr_perm i ds m : NoDup (m.*1 ++ (cuda_device_id <$> ds)) →
  cuda_to_dr i ds m ≡ₚ m ++ zip (cuda_device_id <$> ds) (seq i (length ds)).
Proof.
  revert i m. induction ds as [|d ds IH]; intros i m Hn; simpl; [by rewrite app_nil_r|]. simpl in Hn.
  apply NoDup_app in Hn as (N1 & N2 & N3). apply NoDup_cons in N3 as [N3 N4].
  assert (cuda_device_id d ∉ m.*1) as Hf by (intros Hd; apply (N2 _ Hd); by left).
  assert (imap_set (cuda_device_id d) i m ≡ₚ (cuda_device_id d, i) :: m) as Hp by (by apply imap_set_fresh).
  rewrite IH.
  - rewrite Hp. apply Permutation_middle.
  - rewrite Hp. simpl. constructor; [|apply NoDup_app; split; [done|]; split; [|done]].
    + rewrite elem_of_app. by intros [|].
    + intros x Hx Hx'. apply (N2 x Hx). by right.
Qed.
Lemma device_partitions_of_spec r ids acc ps : device_partitions_of r ids acc = Ret ps →
  ∃ l, ps = (acc ++ l)%list ∧ length l = length ids ∧
  ∀ (j : nat) q, l !! j = Some q → ∃ k id dr, ids !! j = Some (k, id) ∧ m_device_resources r !! id = Some dr ∧
    q = mkPartition (length acc + j) (dr_host dr) (Some id).
Proof.
  revert acc. induction ids as [|[k id] ids IH]; intros acc; simpl; [intros [= <-]; exists []; by rewrite app_nil_r|].
  destruct (m_device_resources r !! id) as [dr|] eqn:Ed; [|done]. intros (l & -> & Hl & Hi)%IH.
  eexists (_ :: l). rewrite <-app_assoc. split; [done|]. split; [simpl; lia|]. intros [|j] q; simpl.
  - intros [= <-]. exists k, id, dr. by rewrite Nat.add_0_r.
  - intros Hq. destruct (Hi j q Hq) as (k' & id' & dr' & H1 & H2 & ->). exists k', id', dr'. rewrite length_app. simpl.
    split_and!; [done|done|]. by replace (length acc + 1 + j)%nat with (length acc + S j)%nat by lia.
Qed.
Lemma device_partitions_of_Ret r ids acc : (∀ k id, (k, id) ∈ ids → is_Some (m_device_resources r !! id)) → ∃ ps, device_partitions_of r ids acc = Ret ps.
Proof.
  revert acc. induction ids as [|[k id] ids IH]; intros acc Hs; simpl; [eauto|]. destruct (Hs k id) as [dr ->]; [by left|].
  apply IH. intros k' id' Hin. apply (Hs k' id'). by right.
Qed.
Definition without_devices (h : HostResources) : bool := match hp_device_partitions (hr_partition h) with [] => true | _ => false end.
Lemma host_only_spec i hosts acc :
  ∃ l, host_only_partitions i hosts acc = (acc ++ l)%list ∧ StronglySorted lt (pr_host <$> l) ∧
  (∀ (j : nat) q, l !! j = Some q → partition_id q = (length acc + j)%nat ∧ pr_device q = None) ∧
  (∀ x, x ∈ pr_host <$> l ↔ ∃ j h, hosts !! j = Some h ∧ without_devices h = true ∧ x = (i + j)%nat).
Proof.
  revert i acc. induction hosts as [|h hosts IH]; intros i acc; simpl.
  { exists []. rewrite app_nil_r. split_and!; [done|constructor|by intros j q Hq; rewrite lookup_nil in Hq|].
    intros x. split; [by intros ?%elem_of_nil|intros (j & h & Hj & _); by rewrite lookup_nil in Hj]. }
  assert (∀ (P : nat → HostResources → Prop), (∃ j h', (h :: hosts) !! j = Some h' ∧ P j h') ↔ P 0%nat h ∨ ∃ j h', hosts !! j = Some h' ∧ P (S j) h') as Hsplit.
  { intros P. split; [intros ([|j] & h' & Hj & HP); simplify_eq/=; [by left|right; eauto]|intros [HP|(j & h' & Hj & HP)]; [by exists 0%nat, h|by exists (S j), h']]. }
  destruct (hp_device_partitions (hr_partition h)) as [|x0 xs] eqn:Eh.
  - destruct (IH (S i) (acc ++ [mkPartition (length acc) i None])%list) as (l & -> & Hs & Hi & Hx). eexists (_ :: l). rewrite <-app_assoc. split; [done|].
    rewrite length_app in Hi. simpl in Hi. split_and!.
    + cbn. constructor; [done|]. apply Forall_forall. intros x (j & h' & _ & _ & ->)%Hx. lia.
    + intros [|j] q; simpl; [intros [= <-]; simpl; split; [lia|done]|]. intros Hq. destruct (Hi j q Hq) as [-> ->]. split; [lia|done].
    + intros x. cbn. rewrite elem_of_cons, Hx. rewrite (Hsplit (λ j h', without_devices h' = true ∧ x = (i + j)%nat)).
      unfold without_devices at 2. rewrite Eh. split.
      * intros [->|(j & h' & Hj & Hw & ->)]; [left; split; [done|lia]|right; exists j, h'; split_and!; [done|done|lia]].
      * intros [[_ ->]|(j & h' & Hj & Hw & ->)]; [left; lia|right; exists j, h'; split_and!; [done|done|lia]].
  - destruct (IH (S i) acc) as (l & -> & Hs & Hi & Hx). exists l. split_and!; [done|done|done|]. intros x. rewrite Hx.
    rewrite (Hsplit (λ j h', without_devices h' = true ∧ x = (i + j)%nat)). unfold without_devices at 2. rewrite Eh. split.
    + intros (j & h' & Hj & Hw & ->). right. exists j, h'. split_and!; [done|done|lia].
    + intros [[? _]|(j & h' & Hj & Hw & ->)]; [done|]. exists j, h'. split_and!; [done|done|lia].
Qed.
Lemma omap_ext_in {A C} (f g : A → option C) (l : list A) : (∀ x, x ∈ l → f x = g x) → omap f l = omap g l.
Proof.
  induction l as [|x l IH]; intros H'; [done|]. pose proof (IH (λ y Hy, H' y (list_elem_of_further y x l Hy))) as E.
  cbn in *. rewrite (H' x) by left. destruct (g x); [by f_equal|done].
Qed.
Lemma omap_lookup_seq {A} (l : list A) : omap (λ i : nat, l !! i) (seq 0 (length l)) = l.
Proof.
  induction l as [|x l IH] using rev_ind; [done|]. rewrite length_app, seq_app, omap_app. simpl. rewrite lookup_app_r, Nat.sub_diag by lia. f_equal.
  rewrite <-IH at 2. apply omap_ext_in. intros i Hi%elem_of_seq. by rewrite lookup_app_l by lia.
Qed.
(** The device of a partition, if it has one. *)
Definition device_of (r : SystemResources) (q : PartitionResources) : option (DevicePartition B) :=
  match device r q with Ret d => Some (dr_partition d) | _ => None end.

(** What [SystemResources] makes of partitions that agree. *)
Lemma system_resources_ok fm p r : agree p → SystemResources_new fm p = Ret r →
  hr_partition <$> m_host_resources r = m_host_partitions p ∧
  (dr_partition <$> m_device_resources r) ≡ₚ m_device_partitions p ∧
  (∀ (i : nat) d, m_device_resources r !! i = Some d → dr_host d = dp_host_partition_id (dr_partition d) ∧ (dr_host d < length (m_host_resources r))%nat).
Proof.
  intros Ha Hr. unfold SystemResources_new in Hr. destruct (add_resources_spec _ _ _ _ _ Hr) as (hs & ds & Hh & Hd & Hp & Hl & Hi). simpl in Hh, Hd.
  rewrite Hh, Hd. split; [done|]. split.
  - assert (omap (λ i, m_device_partitions p !! i) (listed (m_host_partitions p)) = dr_partition <$> ds) as <-;
      [|by rewrite (listed_perm p Ha), omap_lookup_seq].
    revert Hl Hi. generalize (listed (m_host_partitions p)).
    clear. induction ds as [|d ds IH]; intros l Hl Hi; [by destruct l|]. destruct l as [|id l]; [done|].
    destruct (Hi 0%nat d eq_refl) as (id' & h & Hid & Hdv & _). simplify_eq/=. rewrite Hdv. f_equal. apply IH; [lia|]. intros i d' Hi'. exact (Hi (S i) d' Hi').
  - intros i d Hid. destruct (Hi i d Hid) as (id & h & _ & Hdv & Hho & hp & Hhp & Hin). simpl in Hho. destruct Ha as [_ Hag].
    rewrite (Hag h hp Hhp) in Hin. apply devices_from_elem in Hin as (j & d' & Hj & Hjd & ->). simpl in Hdv. simplify_eq.
    split; [congruence|]. rewrite <-Hp in Hhp. apply lookup_lt_Some in Hhp. rewrite length_fmap in Hhp. lia.
Qed.
(** The device partitions in the order of the cuda ids. *)
Lemma devices_flattened r ps : NoDup (cuda_device_id <$> m_device_resources r) →
  device_partitions_of r (cuda_to_dr 0 (m_device_resources r) []) [] = Ret ps →
  length ps = length (m_device_resources r) ∧ partition_id <$> ps = seq 0 (length ps) ∧
  ∃ ds, (dr_partition <$> ds) ≡ₚ (dr_partition <$> m_device_resources r) ∧ StronglySorted Z.lt (cuda_device_id <$> ds) ∧
    Forall2 (λ q d, device r q = Ret d ∧ pr_host q = dr_host d ∧ ∃ i, m_device_resources r !! i = Some d) ps ds.
Proof.
  intros Hn Hps. set (m := m_device_resources r) in *. pose proof (cuda_to_dr_perm 0 m [] Hn) as Hp. simpl in Hp.
  destruct (cuda_to_dr_ok 0 m [] ltac:(constructor)) as [Hok _]. set (ids := cuda_to_dr 0 m []) in *.
  destruct (device_partitions_of_spec _ _ _ _ Hps) as (l & -> & Hl & Hi). simpl in Hi |- *.
  assert (length l = length m) as Hlen by (rewrite Hl, Hp, length_zip_with, length_fmap, length_seq; lia). split; [done|].
  assert (∀ k id, (k, id) ∈ ids → ∃ d, m !! id = Some d ∧ cuda_device_id d = k) as Hin.
  { intros k id Hk. rewrite Hp in Hk. apply list_elem_of_lookup in Hk as [j Hj]. apply lookup_zip_with_Some in Hj as (k' & id' & ? & H1 & H2). simplify_eq.
    apply lookup_seq in H2 as [-> _]. rewrite list_lookup_fmap in H1. apply fmap_Some in H1 as (d & Hd & ->). by exists d. }
  split; [apply list_eq; intros j; rewrite list_lookup_fmap; destruct (l !! j) as [q|] eqn:Eq|].
  - destruct (Hi j q Eq) as (k & id & dr & _ & _ & ->). simpl. symmetry. apply lookup_seq. split; [lia|]. by apply lookup_lt_Some in Eq.
  - simpl. symmetry. apply lookup_ge_None. rewrite length_seq. by apply lookup_ge_None in Eq.
  - exists (omap (λ id, m !! id) ids.*2). split; [|split].
    + apply fmap_Permutation. assert (ids.*2 ≡ₚ seq 0 (length m)) as ->; [|by rewrite omap_lookup_seq].
      rewrite Hp. rewrite snd_zip; [done|]. by rewrite length_fmap, length_seq.
    + assert (cuda_device_id <$> omap (λ id, m !! id) ids.*2 = ids.*1) as ->; [|done].
      clear -Hin. induction ids as [|[k id] ids IH]; [done|]. cbn. destruct (Hin k id) as (d & Hd & <-); [by left|]. rewrite Hd. cbn. f_equal. apply IH.
      intros k' id' Hk. apply Hin. by right.
    + assert (∀ (j : nat) q, l !! j = Some q → ∃ k id dr, ids !! j = Some (k, id) ∧ m !! id = Some dr ∧ pr_host q = dr_host dr ∧ pr_device q = Some id) as Hi'
        by (intros j q Hq; destruct (Hi j q Hq) as (k & id & dr & ? & ? & ->); by exists k, id, dr).
      clear -Hi' Hl. revert l Hi' Hl. induction ids as [|[k id] ids IH]; intros l Hi Hl; [by destruct l; [constructor|]|].
      destruct l as [|q l]; [done|]. destruct (Hi 0%nat q eq_refl) as (k' & id' & dr & H1 & H2 & Hq & Hqd). simplify_eq/=. rewrite H2. constructor.
      * unfold device. rewrite Hqd. change (m !! id') with (m_device_resources r !! id') in H2. rewrite H2. split_and!; [done|done|by exists id'].
      * apply IH; [|lia]. intros j q' Hq'. exact (Hi (S j) q' Hq').
Qed.
Lemma cuda_to_dr_elem i ds m k id : imap_ok m → (k, id) ∈ cuda_to_dr i ds m → (k, id) ∈ m ∨ (i ≤ id < i + length ds)%nat.
Proof.
  revert i m. induction ds as [|d ds IH]; intros i m Hm; simpl; [by left|]. intros [Hin|?]%IH; [|right; lia|by apply imap_set_ok].
  assert (imap_find k (imap_set (cuda_device_id d) i m) = Some id) as Hf by (apply imap_find_Some; [by apply imap_set_ok|done]).
  rewrite imap_find_set in Hf by done. case_decide; [simplify_eq; right; lia|left; by apply imap_find_Some].
Qed.
Lemma cuda_to_dr_live r k id : (k, id) ∈ cuda_to_dr 0 (m_device_resources r) [] → is_Some (m_device_resources r !! id).
Proof. intros [?%elem_of_nil|?]%cuda_to_dr_elem; [done|apply lookup_lt_is_Some_2; lia|constructor]. Qed.
(** As many partitions as devices: no two devices have the same cuda id. *)
Lemma cuda_to_dr_distinct r ps : device_partitions_of r (cuda_to_dr 0 (m_device_resources r) []) [] = Ret ps →
  length ps = length (m_device_resources r) → NoDup (cuda_device_id <$> m_device_resources r).
Proof.
  intros (l & -> & Hl & _)%device_partitions_of_spec Hlen. simpl in Hlen. destruct (cuda_to_dr_ok 0 (m_device_resources r) [] ltac:(constructor)) as [Hok Hin].
  apply imap_ok_NoDup in Hok. apply NoDup_ListNoDup. apply (NoDup_incl_NoDup (l := (cuda_to_dr 0 (m_device_resources r) []).*1)); [by apply NoDup_ListNoDup|rewrite !length_fmap; lia|].
  intros k Hk%list_elem_of_In. apply Hin in Hk as [?%elem_of_nil|]; [done|by apply list_elem_of_In].
Qed.
Lemma numbered (l1 l2 : list PartitionResources) : partition_id <$> l1 = seq 0 (length l1) →
  (∀ (j : nat) q, l2 !! j = Some q → partition_id q = (length l1 + j)%nat ∧ pr_device q = None) → partition_id <$> (l1 ++ l2)%list = seq 0 (length (l1 ++ l2)%list).
Proof.
  intros H1 H2. rewrite fmap_app, length_app, seq_app, H1. f_equal. apply list_eq. intros j. rewrite list_lookup_fmap. destruct (l2 !! j) as [q|] eqn:E; simpl.
  - destruct (H2 j q E) as [-> _]. symmetry. apply lookup_seq. split; [lia|]. by apply lookup_lt_Some in E.
  - symmetry. apply lookup_ge_None. rewrite length_seq. by apply lookup_ge_None in E.
Qed.

(** C10: the flat list of partitions is what pipelines can rely on.  From host and device
    partitions that agree, and system resources made of them, it is formed exactly when the
    cuda ids of the devices differ (two devices with one id abort the program).  The
    partitions are numbered from 0; first comes one partition per device, every device
    once and in the order of the cuda ids, whose host is the host of that device; then one
    partition per host without a device, in the order of the hosts, which has no device.
    Every host is the host of some partition. *)
Theorem resource_partitions_ok fm p r : agree p → SystemResources_new fm p = Ret r →
  if decide (NoDup ((λ d, m_cuda_device_id (dp_gpu d)) <$> m_device_partitions p)) then
    ∃ l1 l2 ds, ResourcePartitions_new r = Ret (l1 ++ l2)%list ∧ partition_id <$> (l1 ++ l2)%list = seq 0 (length (l1 ++ l2)%list) ∧
      (dr_partition <$> ds) ≡ₚ m_device_partitions p ∧ StronglySorted Z.lt (cuda_device_id <$> ds) ∧
      Forall2 (λ q d, device r q = Ret d ∧ ∃ h, host r q = Ret h ∧ m_host_partitions p !! dp_host_partition_id (dr_partition d) = Some (hr_partition h)) l1 ds ∧
      Forall (λ q, (∃ e, device r q = Throw e) ∧ ∃ h, host r q = Ret h ∧ hp_device_partitions (hr_partition h) = []) l2 ∧ StronglySorted lt (pr_host <$> l2) ∧
      (∀ hp, hp ∈ m_host_partitions p → ∃ q h, q ∈ (l1 ++ l2)%list ∧ host r q = Ret h ∧ hr_partition h = hp)
  else ∃ w, ResourcePartitions_new r = Abort w.
Proof.
  intros Ha Hr. destruct (system_resources_ok fm p r Ha Hr) as (Hh & Hd & Hho). unfold ResourcePartitions_new.
  assert ((λ d, m_cuda_device_id (dp_gpu d)) <$> (dr_partition <$> m_device_resources r) = cuda_device_id <$> m_device_resources r) as Hc by (rewrite <-list_fmap_compose; done).
  destruct (device_partitions_of_Ret r (cuda_to_dr 0 (m_device_resources r) []) []) as [ps Hps]; [by apply cuda_to_dr_live|]. rewrite Hps. simpl.
  assert (NoDup ((λ d, m_cuda_device_id (dp_gpu d)) <$> m_device_partitions p) ↔ NoDup (cuda_device_id <$> m_device_resources r)) as Hiff by (by rewrite <-Hd, Hc).
  destruct (decide _) as [Hn|Hn]; rewrite Hiff in Hn.
  - destruct (devices_flattened r ps Hn Hps) as (Hl & Hid & ds & H1 & H2 & H3). rewrite bool_decide_true by done. simpl.
    destruct (host_only_spec 0 (m_host_resources r) ps) as (l2 & -> & Hs & Hi2 & Hx2). exists ps, l2, ds. split; [done|]. split; [by apply numbered|].
    assert ((dr_partition <$> ds) ≡ₚ m_device_partitions p) as H1' by (by rewrite H1).
    assert (∀ q d, device r q = Ret d → (∃ i, m_device_resources r !! i = Some d) →
      ∃ h, host r q = Ret h ∧ m_host_partitions p !! dp_host_partition_id (dr_partition d) = Some (hr_partition h)) as Hdh.
    { intros q d Hq [i Hdi]. destruct (Hho i d Hdi) as [Eh Hlt]. apply lookup_lt_is_Some_2 in Hlt as [h Hhh]. exists h. split; [|by rewrite <-Eh, <-Hh, list_lookup_fmap, Hhh].
      unfold device in Hq. unfold host. destruct (pr_device q) as [j|]; [|done]. destruct (m_device_resources r !! j); simplify_eq. by rewrite Hhh. }
    assert (∀ q, q ∈ l2 → pr_device q = None ∧ ∃ h, m_host_resources r !! pr_host q = Some h ∧ without_devices h = true) as Hq2.
    { intros q Hq. split; [apply list_elem_of_lookup in Hq as [j Hj]; by apply (Hi2 j q)|].
      apply (list_elem_of_fmap_2 pr_host), Hx2 in Hq as (j & h & Hj & Hw & ->). by exists h. }
    split; [done|]. split; [done|]. split; [|split; [|split; [done|]]].
    + eapply Forall2_impl; [exact H3|]. simpl. intros q d (Hq & _ & Hdi). split; [done|]. by apply Hdh.
    + apply Forall_forall. intros q Hq. destruct (Hq2 q Hq) as (E & h & Hhh & Hw). unfold device, host. rewrite E, Hhh. split; [eauto|]. exists h. split; [done|].
      unfold without_devices in Hw. by destruct (hp_device_partitions _).
    + intros hp Hhp. rewrite <-Hh in Hhp. apply list_elem_of_fmap in Hhp as (h & -> & Hin). apply list_elem_of_lookup in Hin as [j Hj].
      destruct (without_devices h) eqn:Ew.
      * assert (j ∈ pr_host <$> l2) as Hjl by (apply Hx2; by exists j, h). apply list_elem_of_fmap in Hjl as (q & -> & Hq). destruct (Hq2 q Hq) as (E & _).
        exists q, h. split; [set_solver|]. unfold host. by rewrite E, Hj.
      * assert (∃ id, id ∈ hp_device_partitions (hr_partition h)) as [id Hidd] by (unfold without_devices in Ew; destruct (hp_device_partitions _) as [|x ?]; [done|exists x; by left]).
        destruct Ha as [Hlt Hag]. rewrite (Hag j (hr_partition h)) in Hidd by (by rewrite <-Hh, list_lookup_fmap, Hj). apply devices_from_elem in Hidd as (k & dp & Hk & Hjh & _).
        assert (dp ∈ dr_partition <$> ds) as Hdp by (rewrite H1'; apply list_elem_of_lookup; by exists k). apply list_elem_of_fmap in Hdp as (d & -> & Hdin).
        apply list_elem_of_lookup in Hdin as [n Hn']. destruct (Forall2_lookup_r _ _ _ _ _ H3 Hn') as (q & Hq & Hqd & _ & Hqi). destruct (Hdh q d Hqd Hqi) as (h' & Hh' & Hp').
        exists q, h'. split; [apply elem_of_app; left; apply list_elem_of_lookup; by exists n|]. split; [done|]. rewrite Hjh, <-Hh, list_lookup_fmap, Hj in Hp'. by simplify_eq/=.
  - rewrite bool_decide_false; [simpl; eauto|]. intros Hlen. apply Hn. by apply (cuda_to_dr_distinct _ ps).
Qed.
End resources.

(** Partitions made from a topology agree. *)
Lemma partitions_agree `{HL : HwlocLaws B} `{HT : HwlocTopology T B} (t : Topology T B) placement options p :
  imap_ok (m_gpu_info t) → Partitions_new t placement options = Ret p → agree p.
Proof. intros Hok Hp. destruct (partitions_devices t placement options p Hok Hp) as (_ & H1 & H2). split; [done|]. intros h hp Hh. by destruct (H2 h hp Hh). Qed.

(** Two gpus on the machine of [Partitions]. *)
Definition demo_partitions : Partitions (list Z) :=
  match Partitions_new example_topology PlacementOptions_new plain_options with Ret p => p | _ => mkPartitions [] [] PerMachine Dedicated end.
Definition demo_fibers : FiberManager (list Z) :=
  match FiberManager_new Flat.cpus with Ret fm => fm | _ => mkFiberManager [] ∅ end.
Definition demo_resources : SystemResources (B := list Z) :=
  match SystemResources_new demo_fibers demo_partitions with Ret r => r | _ => mkSystemResources [] [] end.
Lemma resource_partitions_ok_witness : agree demo_partitions ∧ SystemResources_new demo_fibers demo_partitions = Ret demo_resources ∧
  ∃ ps, ResourcePartitions_new demo_resources = Ret ps ∧ partition_id <$> ps = [0; 1]%nat.
Proof.
  assert (agree demo_partitions) as Ha.
  { apply (partitions_agree example_topology PlacementOptions_new plain_options); [repeat constructor|vm_compute; reflexivity]. }
  assert (SystemResources_new demo_fibers demo_partitions = Ret demo_resources) as Hr by (vm_compute; reflexivity).
  split; [exact Ha|]. split; [exact Hr|]. pose proof (resource_partitions_ok demo_fibers demo_partitions demo_resources Ha Hr) as H.
  destruct (decide _) as [Hn|Hn]; [|exfalso; apply Hn; apply (bool_decide_unpack _); vm_compute; exact I].
  destruct H as (l1 & l2 & ds & H & Hid & _). exists (l1 ++ l2)%list. split; [exact H|]. rewrite Hid.
  assert (ResourcePartitions_new demo_resources = Ret [mkPartition 0 1 (Some 1%nat); mkPartition 1 0 (Some 0%nat)]) as E by (vm_compute; reflexivity).
  rewrite H in E. injection E as E. rewrite E. reflexivity.
Defined.
