(* ===== verification/System.v ===== *)
(** * The system and its threads

    Models [src/internal/system/system.hpp] and [system.cpp] with the task queues of
    [fiber_manager.hpp]: threads that are bound to cpus, and the functions that are to run on
    every thread of a cpu when it starts ([register_thread_local_initializer]) and when it
    ends.  The fiber manager has one thread per cpu of the topology; other threads come from
    [make_thread].

    What a thread does between its start and its end is not of interest here: a thread is
    the list of the initializers and finalizers it has run.  Binding a thread or its memory
    is a call of hwloc, which may fail. *)
From Stdlib Require Import Strings.String.
From S2P Require Import Prelude SortedZ StdMap Hwloc Bitmap Topology.
Local Open Scope string_scope.
Local Open Scope Z_scope.

Section system.
Context `{Hwloc B} `{HwlocTopology T B}.
Context (hwloc_set_cpubind hwloc_set_membind : B → bool).      (* false: the call returned -1 *)

Inductive thread_phase := Created | Running | Finished.
#[export] Instance thread_phase_eq_dec : EqDecision thread_phase.
Proof. solve_decision. Defined.
Record thread := mkThread {
  th_affinity : B;
  th_queue : option Z;             (* the cpu of a fiber task queue *)
  th_phase : thread_phase;
  th_initialized : list nat;       (* the functions it has run, in order *)
  th_finalized : list nat;
}.
(** The options [enable_thread_binding] and [enable_memory_binding]. *)
Record FiberPoolOptions := mkFiberPoolOptions { enable_thread_binding : bool; enable_memory_binding : bool }.
Record System := mkSystem {
  m_options : FiberPoolOptions;
  m_topo : Topology T B;
  m_thread_initializers : list (Z * nat);      (* multimaps: equal keys keep the order of insertion *)
  m_thread_finalizers : list (Z * nat);
  m_cap_membind : bool;
  m_threads : list thread;
}.
Definition equal_range (k : Z) (m : list (Z * nat)) : list nat := (filter (λ kv, kv.1 = k) m).*2.
Definition set_threads (l : list thread) (s : System) : System :=
  mkSystem (m_options s) (m_topo s) (m_thread_initializers s) (m_thread_finalizers s) (m_cap_membind s) l.

(** With the functions that the new thread runs. *)
Definition initialize_thread (cpu_affinity : B) (s : System) : res (System * list nat) :=
  w ← weight cpu_affinity;
  (if w =? 1 then Ret ()
   else numa_set ← numaset_for_cpuset (m_topo s) cpu_affinity; nw ← weight numa_set;
        check (nw =? 1) "allowing thread to migrate across numa boundaries is currently disabled") ;;
  (if enable_thread_binding (m_options s) then check (hwloc_set_cpubind cpu_affinity) "rc != -1" else Ret ()) ;;
  let cap := if enable_memory_binding (m_options s) && m_cap_membind s then hwloc_set_membind cpu_affinity else m_cap_membind s in
  let cpu_id := i32 (first cpu_affinity) in
  Ret (mkSystem (m_options s) (m_topo s) (m_thread_initializers s) (m_thread_finalizers s) cap (m_threads s),
       equal_range cpu_id (m_thread_initializers s)).
Definition finalize_thread (cpu_affinity : B) (s : System) : list nat := equal_range (i32 (first cpu_affinity)) (m_thread_finalizers s).

(** [make_thread] and the two ends of the thread's own function. *)
Definition make_thread (cpu_affinity : B) (queue : option Z) (s : System) : res System :=
  check (topo_contains (m_topo s) cpu_affinity) "topology().contains(cpu_affinity)" ;;
  Ret (set_threads (m_threads s ++ [mkThread cpu_affinity queue Created [] []])%list s).
Definition thread_start (i : nat) (s : System) : res System :=
  match m_threads s !! i with
  | Some (mkThread a q Created _ fs) =>
      '(s, ran) ← initialize_thread a s;
      Ret (set_threads (<[i := mkThread a q Running ran fs]> (m_threads s)) s)
  | _ => Ret s
  end.
Definition end_of (s : System) (th : thread) : thread :=
  mkThread (th_affinity th) (th_queue th) Finished (th_initialized th) (finalize_thread (th_affinity th) s).
Definition thread_end (i : nat) (s : System) : System :=
  match m_threads s !! i with
  | Some (mkThread a None Running ran fs) => set_threads (<[i := end_of s (mkThread a None Running ran fs)]> (m_threads s)) s
  | _ => s
  end.
(** The destructor: the fiber manager stops its queues and joins their threads. *)
Definition System_destroy (s : System) : System :=
  set_threads ((λ th, if th_queue th then end_of s th else th) <$> m_threads s) s.
(** A [FiberTaskQueue]: its constructor waits until the thread has run a task. *)
Definition FiberTaskQueue_new (cpu_id : Z) (s : System) : res System :=
  s ← make_thread (Bitmap_of_int cpu_id) (Some cpu_id) s; thread_start (Nat.pred (length (m_threads s))) s.
Definition System_new (options : FiberPoolOptions) (t : Topology T B) : res System :=
  r ← for_each_bit (m_topo_cpuset t) (λ _ cpu_id r, r ≫= FiberTaskQueue_new (i32 cpu_id)) (Ret (mkSystem options t [] [] true []));
  r.

(** The task of a queue whose cpu is in the set; [is_set] checks its index. *)
Fixpoint enqueue_on_queues (cpu_set : B) (f : nat) (l : list thread) : res (list thread) :=
  match l with
  | [] => Ret []
  | mkThread a (Some idx) ph ran fs :: l =>
      is_set cpu_set idx ≫= λ here : bool,
      l ← enqueue_on_queues cpu_set f l;
      Ret (mkThread a (Some idx) ph (if here then ran ++ [f] else ran)%list fs :: l)
  | th :: l => l ← enqueue_on_queues cpu_set f l; Ret (th :: l)
  end.
Definition enqueue_fiber_on_cpuset (m_cpu_set cpu_set : B) (f : nat) (l : list thread) : res (list thread) :=
  check (contains m_cpu_set cpu_set) "m_cpu_set.contains(cpu_set)" ;; enqueue_on_queues cpu_set f l.
Definition insert_all (cpu_set : B) (f : nat) (m : list (Z * nat)) : res (list (Z * nat)) :=
  for_each_bit cpu_set (λ _ bit m, m ++ [(i32 bit, f)])%list m.
(** The checks of the two registrations; the first is true of every weight. *)
Definition check_cpu_set (cpu_set : B) (s : System) : res () :=
  w ← weight cpu_set; check (0 <=? w) "cpu_set.weight() >= 0" ;;
  check (topo_contains (m_topo s) cpu_set) "topology().contains(cpu_set)".
Definition register_thread_local_initializer (cpu_set : B) (f : nat) (s : System) : res System :=
  check_cpu_set cpu_set s ;;
  m ← insert_all cpu_set f (m_thread_initializers s);
  ths ← enqueue_fiber_on_cpuset (m_topo_cpuset (m_topo s)) cpu_set f (m_threads s);
  Ret (mkSystem (m_options s) (m_topo s) m (m_thread_finalizers s) (m_cap_membind s) ths).
Definition register_thread_local_finalizer (cpu_set : B) (f : nat) (s : System) : res System :=
  check_cpu_set cpu_set s ;;
  m ← insert_all cpu_set f (m_thread_finalizers s);
  Ret (mkSystem (m_options s) (m_topo s) (m_thread_initializers s) m (m_cap_membind s) (m_threads s)).

Inductive call := CMakeThread (a : B) | CStart (i : nat) | CEnd (i : nat) | CInitializer (b : B) (f : nat) | CFinalizer (b : B) (f : nat).
Definition step (c : call) (s : System) : res System :=
  match c with
  | CMakeThread a => make_thread a None s
  | CStart i => thread_start i s
  | CEnd i => Ret (thread_end i s)
  | CInitializer b f => register_thread_local_initializer b f s
  | CFinalizer b f => register_thread_local_finalizer b f s
  end.
Fixpoint calls (cs : list call) (s : System) : res System := match cs with [] => Ret s | c :: cs => step c s ≫= calls cs end.
End system.
Arguments thread : clear implicits.
Arguments System : clear implicits.
Arguments call : clear implicits.

(** ** Proofs *)
Section proofs.
Context `{HwlocLaws B} `{HwlocTopology T B}.
Context (cpubind membind : B → bool).
Implicit Types (s : System B T) (th : thread B).

Lemma equal_range_app k m1 m2 : equal_range k (m1 ++ m2)%list = (equal_range k m1 ++ equal_range k m2)%list.
Proof. unfold equal_range. by rewrite filter_app, fmap_app. Qed.
(** One entry per bit: a cpu of the set gets the function once. *)
Lemma equal_range_bits k f (l : list Z) : NoDup l → equal_range k ((λ x, (x, f)) <$> l) = if decide (k ∈ l) then [f] else [].
Proof.
  induction l as [|x l IH]; intros Hn; [by rewrite decide_False by apply not_elem_of_nil|]. apply NoDup_cons in Hn as [Hx Hn].
  unfold equal_range in *. cbn [fmap list_fmap]. destruct (decide (x = k)) as [->|Hne].
  - rewrite filter_cons_True by done. cbn. rewrite decide_True by left. f_equal. specialize (IH Hn). cbn in IH. rewrite IH. by rewrite decide_False.
  - rewrite filter_cons_False by done. rewrite (IH Hn). destruct (decide (k ∈ l)); [by rewrite decide_True by (by right)|].
    rewrite decide_False; [done|]. rewrite elem_of_cons. by intros [?|?].
Qed.
Lemma insert_all_spec b l f m : is_bits b l → insert_all b f m = Ret (m ++ ((λ x, (x, f)) <$> l))%list.
Proof.
  intros Hb. unfold insert_all. rewrite (for_each_bit_fold _ _ (λ bit m, m ++ [(i32 bit, f)])%list _ Hb). f_equal.
  assert (Forall index_ok l) as Hok by apply Hb. clear Hb. revert m. induction l as [|x l IH]; intros m; simpl; [by rewrite app_nil_r|].
  apply Forall_cons in Hok as [Hx Hok]. rewrite IH by done. rewrite i32_small by (unfold index_ok in Hx; lia). by rewrite <-app_assoc.
Qed.
(** ** What the threads should have run, read off the calls *)

(** The cpu [k] is in the set. *)
Definition on_cpu (b : B) (k : Z) : bool := (0 <=? k) && hwloc_bitmap_isset b k.
(** The functions that the calls register for cpu [k], in order. *)
Definition inits_for (k : Z) (cs : list (call B)) : list nat :=
  cs ≫= λ c, match c with CInitializer b f => if on_cpu b k then [f] else [] | _ => [] end.
Definition finals_for (k : Z) (cs : list (call B)) : list nat :=
  cs ≫= λ c, match c with CFinalizer b f => if on_cpu b k then [f] else [] | _ => [] end.
(** The cpu whose functions a thread runs: the first of its affinity. *)
Definition cpu_of th : Z := i32 (first (th_affinity th)).

Section history.
Context (s0 : System B T).

(** The phase of thread [i] after the calls [cs]. *)
Definition phase_after (cs : list (call B)) (i : nat) (ph : thread_phase) : Prop :=
  ∃ s, calls cpubind membind cs s0 = Ret s ∧ th_phase <$> m_threads s !! i = Some ph.

(** The thread of a queue has run every initializer of its cpu; another thread
    those registered before the call that started it, and, once it has ended,
    the finalizers registered before the call that ended it. *)
Definition queue_ok (cs : list (call B)) (c : Z) th : Prop :=
  th_phase th = Running ∧ cpu_of th = c ∧ 0 ≤ c ∧ th_initialized th = inits_for c cs ∧ th_finalized th = [].
Definition other_ok (cs : list (call B)) (i : nat) th : Prop :=
  match th_phase th with
  | Created => th_initialized th = [] ∧ th_finalized th = []
  | Running => ∃ cs1 cs2, cs = (cs1 ++ CStart i :: cs2)%list ∧ phase_after cs1 i Created ∧
      th_initialized th = inits_for (cpu_of th) cs1 ∧ th_finalized th = []
  | Finished => ∃ cs1 cs2 cs3, cs = ((cs1 ++ CStart i :: cs2) ++ CEnd i :: cs3)%list ∧
      phase_after cs1 i Created ∧ phase_after (cs1 ++ CStart i :: cs2)%list i Running ∧
      th_initialized th = inits_for (cpu_of th) cs1 ∧
      th_finalized th = finals_for (cpu_of th) (cs1 ++ CStart i :: cs2)%list
  end.
Definition thread_ok (cs : list (call B)) (i : nat) th : Prop :=
  match th_queue th with Some c => queue_ok cs c th | None => other_ok cs i th end.

Definition bitsets (c : call B) : Prop := match c with CInitializer b _ | CFinalizer b _ => ∃ l, is_bits b l | _ => True end.
Definition queues s : list Z := omap th_queue (m_threads s).
Definition maps_ok (cs : list (call B)) s : Prop :=
  ∀ k, equal_range k (m_thread_initializers s) = inits_for k cs ∧ equal_range k (m_thread_finalizers s) = finals_for k cs.
Record Inv (l : list Z) (cs : list (call B)) s : Prop := {
  inv_queues : queues s = l;
  inv_maps : maps_ok cs s;
  inv_threads : ∀ i th, m_threads s !! i = Some th → thread_ok cs i th;
}.

Lemma on_cpu_bits b l k : is_bits b l → on_cpu b k = bool_decide (k ∈ l).
Proof.
  intros Hb. unfold on_cpu. destruct (Z.leb_spec 0 k) as [Hk|Hk]; simpl.
  - pose proof (is_bits_mem b l k Hb Hk) as Hm. destruct (hwloc_bitmap_isset b k); symmetry;
      [apply bool_decide_eq_true|apply bool_decide_eq_false]; naive_solver.
  - symmetry. apply bool_decide_eq_false. intros Hin. apply (is_bits_bound _ _ _ Hb) in Hin. unfold index_ok in Hin. lia.
Qed.
Lemma inits_snoc k cs c : inits_for k (cs ++ [c])%list = (inits_for k cs ++ inits_for k [c])%list.
Proof. unfold inits_for. by rewrite bind_app. Qed.
Lemma finals_snoc k cs c : finals_for k (cs ++ [c])%list = (finals_for k cs ++ finals_for k [c])%list.
Proof. unfold finals_for. by rewrite bind_app. Qed.

Lemma other_ok_snoc cs c i th : other_ok cs i th → other_ok (cs ++ [c])%list i th.
Proof.
  unfold other_ok. destruct (th_phase th); [done|..].
  - intros (cs1 & cs2 & -> & ?). exists cs1, (cs2 ++ [c])%list. by rewrite <-app_assoc.
  - intros (cs1 & cs2 & cs3 & -> & ?). exists cs1, cs2, (cs3 ++ [c])%list. by rewrite <-(app_assoc _ _ [c]).
Qed.
Lemma thread_ok_snoc cs c i th : (∀ k, inits_for k [c] = []) → thread_ok cs i th → thread_ok (cs ++ [c])%list i th.
Proof.
  intros Hc. unfold thread_ok. destruct (th_queue th); [|apply other_ok_snoc].
  unfold queue_ok. by rewrite inits_snoc, Hc, app_nil_r.
Qed.
Lemma maps_ok_snoc cs c s s' : (∀ k, inits_for k [c] = []) → (∀ k, finals_for k [c] = []) →
  m_thread_initializers s' = m_thread_initializers s → m_thread_finalizers s' = m_thread_finalizers s →
  maps_ok cs s → maps_ok (cs ++ [c])%list s'.
Proof. intros Hi Hf Ei Ef Hm k. by rewrite inits_snoc, finals_snoc, Hi, Hf, !app_nil_r, Ei, Ef. Qed.
Lemma omap_app_one {A C} (f : A → option C) l x : omap f (l ++ [x])%list = (omap f l ++ option_list (f x))%list.
Proof. rewrite omap_app. cbn. by destruct (f x). Qed.
Lemma queues_insert (ths : list (thread B)) (i : nat) th th' : ths !! i = Some th → th_queue th' = th_queue th → omap th_queue (<[i := th']> ths) = omap th_queue ths.
Proof.
  revert i. induction ths as [|x ths IH]; intros [|i] Hi Hq; simplify_eq/=; cbn; [by rewrite Hq|]. specialize (IH i Hi Hq). cbn in IH.
  destruct (th_queue x); [by f_equal|done].
Qed.
Lemma first_bits (b : B) x l : is_bits b (x :: l) → i32 (first b) = x ∧ 0 ≤ x.
Proof.
  intros Hb. pose proof (is_bits_bound b (x :: l) x Hb ltac:(by left)) as Hx. unfold index_ok in Hx. split; [|lia].
  unfold first, next. rewrite (next_spec b (x :: l) (-1) Hb) by lia. rewrite first_above_hd by lia. rewrite u32_small by lia. apply i32_small. lia.
Qed.
Lemma made_ok l cs a s s' : Inv l cs s → make_thread a None s = Ret s' → Inv l (cs ++ [CMakeThread a])%list s'.
Proof.
  intros [Hq Hm Ha] E. unfold make_thread in E. destruct (topo_contains _ _); simplify_eq/=. split.
  - unfold queues. cbn. rewrite omap_app_one. cbn. by rewrite app_nil_r.
  - by apply (maps_ok_snoc _ _ s).
  - intros i th Hi. apply thread_ok_snoc; [done|]. apply lookup_app_Some in Hi as [Hi|[_ Hi]]; [by apply Ha|].
    apply list_lookup_singleton_Some in Hi as [_ <-]. by split.
Qed.
(** One thread changes, and no function is registered. *)
Lemma replaced_ok l cs c s s' (i : nat) th th' : Inv l cs s → m_threads s !! i = Some th → m_threads s' = <[i := th']> (m_threads s) →
  th_queue th = None → th_queue th' = None → (∀ k, inits_for k [c] = []) → (∀ k, finals_for k [c] = []) →
  m_thread_initializers s' = m_thread_initializers s → m_thread_finalizers s' = m_thread_finalizers s →
  other_ok (cs ++ [c])%list i th' → Inv l (cs ++ [c])%list s'.
Proof.
  intros [Hq Hm Ha] Hi Ht Hqq Hqq' Hni Hnf Hmi Hmf Hok. split.
  - unfold queues. rewrite Ht. rewrite (queues_insert _ _ _ _ Hi); [done|congruence].
  - by apply (maps_ok_snoc _ _ s).
  - intros j x Hj. rewrite Ht in Hj. destruct (decide (j = i)) as [->|Hn].
    + rewrite list_lookup_insert_eq in Hj by (by eapply lookup_lt_Some). simplify_eq. unfold thread_ok. by rewrite Hqq'.
    + rewrite list_lookup_insert_ne in Hj by done. apply thread_ok_snoc; [done|by apply Ha].
Qed.
(** A call that changes nothing. *)
Lemma skipped_ok l cs c s : Inv l cs s → (∀ k, inits_for k [c] = []) → (∀ k, finals_for k [c] = []) → Inv l (cs ++ [c])%list s.
Proof. intros [Hq Hm Ha] Hi Hf. split; [done|by apply (maps_ok_snoc _ _ s)|]. intros. apply thread_ok_snoc; [done|by apply Ha]. Qed.
Lemma initialize_frame a s s' ran : initialize_thread cpubind membind a s = Ret (s', ran) →
  m_threads s' = m_threads s ∧ m_thread_initializers s' = m_thread_initializers s ∧ m_thread_finalizers s' = m_thread_finalizers s ∧
  ran = equal_range (i32 (first a)) (m_thread_initializers s).
Proof.
  unfold initialize_thread. destruct (weight a) as [w| | |]; simpl; try done. destruct (if w =? 1 then _ else _) as [[]| | |]; simpl; try done.
  destruct (if enable_thread_binding _ then _ else _) as [[]| | |]; simpl; try done. intros [= <- <-]. done.
Qed.
Lemma started_ok l cs i s s' : calls cpubind membind cs s0 = Ret s → Inv l cs s → thread_start cpubind membind i s = Ret s' →
  Inv l (cs ++ [CStart i])%list s'.
Proof.
  intros Hcs HI Hs. unfold thread_start in Hs. destruct (m_threads s !! i) as [[a q ph ran0 fs]|] eqn:Hi; [|simplify_eq; by apply skipped_ok].
  destruct ph; [|simplify_eq; by apply skipped_ok|simplify_eq; by apply skipped_ok].
  destruct (initialize_thread _ _ a s) as [[s1 ran]| | |] eqn:Ei; simplify_eq/=. destruct (initialize_frame _ _ _ _ Ei) as (Ht & Hmi & Hmf & ->).
  pose proof (inv_threads _ _ _ HI _ _ Hi) as Hok. unfold thread_ok in Hok. cbn in Hok. destruct q as [c|]; [by destruct Hok|].
  eapply (replaced_ok _ _ _ s); [done|done|cbn; by rewrite Ht|done|done|done|done|done|done|].
  cbn. exists cs, []. split_and!; [done|exists s; by rewrite Hi| |by destruct Hok]. apply (inv_maps _ _ _ HI).
Qed.
Lemma ended_ok l cs i s : calls cpubind membind cs s0 = Ret s → Inv l cs s → Inv l (cs ++ [CEnd i])%list (thread_end i s).
Proof.
  intros Hcs HI. unfold thread_end. destruct (m_threads s !! i) as [[a q ph ran fs]|] eqn:Hi; [|by apply skipped_ok].
  destruct q; [by apply skipped_ok|]. destruct ph; [by apply skipped_ok| |by apply skipped_ok].
  pose proof (inv_threads _ _ _ HI _ _ Hi) as Hok. unfold thread_ok, other_ok in Hok. cbn in Hok. destruct Hok as (cs1 & cs2 & -> & Hp & Hr & _).
  eapply (replaced_ok _ _ _ s); [done..|]. cbn. exists cs1, cs2, []. split_and!; [done|done|exists s; by rewrite Hi|done|].
  apply (inv_maps _ _ _ HI).
Qed.
(** A queue whose cpu is in the set runs the function. *)
Definition enqueued (l : list Z) (f : nat) th : thread B :=
  match th_queue th with
  | Some c => mkThread (th_affinity th) (Some c) (th_phase th) (th_initialized th ++ if decide (c ∈ l) then [f] else [])%list (th_finalized th)
  | None => th
  end.
Lemma enqueue_ok b l f ths ths' : is_bits b l → (∀ th c, th ∈ ths → th_queue th = Some c → 0 ≤ c) →
  enqueue_on_queues b f ths = Ret ths' → ths' = enqueued l f <$> ths.
Proof.
  intros Hb. revert ths'. induction ths as [|[a q ph ran fs] ths IH]; intros ths' Hc; cbn; [by intros [= <-]|].
  assert (∀ th c, th ∈ ths → th_queue th = Some c → 0 ≤ c) as Hc' by (intros th c Hin; apply Hc; by right).
  destruct q as [c|].
  - specialize (Hc _ c ltac:(by left) eq_refl). unfold is_set, check. rewrite (proj2 (Z.leb_le 0 c) Hc). simpl.
    destruct (enqueue_on_queues b f ths) as [r| | |]; simpl; try done. intros [= <-]. rewrite (IH r Hc' eq_refl). f_equal. cbn. f_equal.
    pose proof (is_bits_mem b l c Hb Hc) as Hm. destruct (hwloc_bitmap_isset b c), (decide (c ∈ l)); try done; [naive_solver|naive_solver|by rewrite app_nil_r].
  - destruct (enqueue_on_queues b f ths) as [r| | |]; simpl; try done. intros [= <-]. by rewrite (IH r Hc' eq_refl).
Qed.
Lemma registered_range b l k f m : is_bits b l →
  equal_range k (m ++ ((λ x, (x, f)) <$> l))%list = (equal_range k m ++ if on_cpu b k then [f] else [])%list.
Proof.
  intros Hb. rewrite equal_range_app, equal_range_bits by (apply zsorted_NoDup, Hb). rewrite (on_cpu_bits b l k Hb).
  destruct (decide (k ∈ l)); [by rewrite bool_decide_true|by rewrite bool_decide_false].
Qed.
Lemma initializer_ok l cs b f s s' : (∃ lb, is_bits b lb) → Inv l cs s → register_thread_local_initializer b f s = Ret s' →
  Inv l (cs ++ [CInitializer b f])%list s'.
Proof.
  intros [lb Hb] [Hq Hm Ha] Hs. unfold register_thread_local_initializer in Hs. destruct (check_cpu_set b s) as [[]| | |]; simpl in Hs; try done.
  rewrite (insert_all_spec b lb f _ Hb) in Hs. simpl in Hs. unfold enqueue_fiber_on_cpuset in Hs.
  destruct (contains _ b); simpl in Hs; [|done]. destruct (enqueue_on_queues b f (m_threads s)) as [ths| | |] eqn:Ee; simplify_eq/=.
  apply (enqueue_ok b lb f _ _ Hb) in Ee as ->.
  2: { intros th c [i Hi]%list_elem_of_lookup Hc. specialize (Ha i th Hi). unfold thread_ok in Ha. rewrite Hc in Ha. by destruct Ha as (_ & _ & ? & _). }
  split.
  - unfold queues. cbn. clear. induction (m_threads s) as [|[a [c|] ph ran fs] ths IH]; cbn; [done| |done]. by f_equal.
  - intros k. cbn [m_thread_initializers m_thread_finalizers]. rewrite (registered_range b lb k f _ Hb), inits_snoc, finals_snoc. destruct (Hm k) as [-> ->]. cbn. by rewrite !app_nil_r.
  - intros i th Hi. cbn in Hi. rewrite list_lookup_fmap in Hi. destruct (m_threads s !! i) as [th0|] eqn:E; simplify_eq/=.
    specialize (Ha i th0 E). unfold thread_ok, enqueued in *. destruct (th_queue th0) as [c|] eqn:Eq; [|rewrite Eq; by apply other_ok_snoc].
    cbn. destruct Ha as (Q1 & Q2 & Q3 & Q4 & Q5). split_and!; [done..| |done]. cbn. rewrite Q4, inits_snoc. f_equal. cbn.
    rewrite (on_cpu_bits b lb c Hb). destruct (decide (c ∈ lb)); [by rewrite bool_decide_true|by rewrite bool_decide_false].
Qed.
Lemma finalizer_ok l cs b f s s' : (∃ lb, is_bits b lb) → Inv l cs s → register_thread_local_finalizer b f s = Ret s' →
  Inv l (cs ++ [CFinalizer b f])%list s'.
Proof.
  intros [lb Hb] [Hq Hm Ha] Hs. unfold register_thread_local_finalizer in Hs. destruct (check_cpu_set b s) as [[]| | |]; simpl in Hs; try done.
  rewrite (insert_all_spec b lb f _ Hb) in Hs. simplify_eq/=. split; [done| |].
  - intros k. cbn [m_thread_initializers m_thread_finalizers]. rewrite (registered_range b lb k f _ Hb), inits_snoc, finals_snoc. destruct (Hm k) as [-> ->]. cbn. by rewrite !app_nil_r.
  - intros i th Hi. apply thread_ok_snoc; [done|by apply Ha].
Qed.
Lemma call_ok l cs c s s' : bitsets c → calls cpubind membind cs s0 = Ret s → Inv l cs s → step cpubind membind c s = Ret s' → Inv l (cs ++ [c])%list s'.
Proof.
  destruct c as [a|i|i|b f|b f]; cbn; intros Hb Hcs HI Hs; [by eapply made_ok|by eapply started_ok|simplify_eq; by apply ended_ok|by eapply initializer_ok|by eapply finalizer_ok].
Qed.
Lemma calls_snoc cs c s : calls cpubind membind (cs ++ [c])%list s = (calls cpubind membind cs s ≫= step cpubind membind c).
Proof.
  revert s. induction cs as [|c' cs IH]; intros s; cbn; [by destruct (step _ _ c s)|].
  destruct (step _ _ c' s) as [s1| | |]; try done. apply IH.
Qed.
Lemma calls_ok l cs s : Inv l [] s0 → Forall bitsets cs → calls cpubind membind cs s0 = Ret s → Inv l cs s.
Proof.
  intros HI0. revert s. induction cs as [|c cs IH] using rev_ind; intros s Hb Hs; [cbn in Hs; by simplify_eq|].
  apply Forall_app in Hb as [Hb Hc]. rewrite calls_snoc in Hs. destruct (calls _ _ cs s0) as [s1| | |] eqn:E; try done.
  eapply call_ok; [by apply Forall_inv in Hc|done|by apply IH|exact Hs].
Qed.
(** The thread of a task queue is up when the queue is made. *)
Lemma queue_new_ok l c s s' : index_ok c → m_thread_initializers s = [] → m_thread_finalizers s = [] → Inv l [] s →
  FiberTaskQueue_new cpubind membind c s = Ret s' → Inv (l ++ [c])%list [] s' ∧ m_thread_initializers s' = [] ∧ m_thread_finalizers s' = [].
Proof.
  intros Hc Hmi Hmf [Hq Hm Ha] Hs. unfold FiberTaskQueue_new, make_thread in Hs. destruct (topo_contains _ _); simpl in Hs; [|done].
  assert (is_bits (Bitmap_of_int c) [c]) as Hb by (unfold Bitmap_of_int, on, Bitmap_new; unfold index_ok in Hc; rewrite u32_small by lia; apply (is_bits_set _ [] c); [done|apply is_bits_alloc]).
  unfold thread_start in Hs. cbn [m_threads set_threads] in Hs. rewrite length_app in Hs. cbn [length] in Hs. rewrite Nat.add_1_r in Hs. cbn [Nat.pred] in Hs.
  rewrite lookup_app_r, Nat.sub_diag in Hs by lia. cbn [lookup list_lookup] in Hs.
  destruct (initialize_thread _ _ _ _) as [[s1 ran]| | |] eqn:Ei; simplify_eq/=. destruct (initialize_frame _ _ _ _ Ei) as (Ht & Hi1 & Hf1 & ->). cbn in Ht, Hi1, Hf1.
  rewrite Hmi in *. rewrite Hmf in *. split; [|done]. rewrite Ht. split; cbn.
  - unfold queues. cbn. rewrite insert_app_r_alt, Nat.sub_diag by lia. cbn. rewrite omap_app_one. done.
  - intros k. cbn. by rewrite Hi1, Hf1.
  - intros i th Hi. cbn in Hi. rewrite insert_app_r_alt, Nat.sub_diag in Hi by lia. cbn in Hi. apply lookup_app_Some in Hi as [Hi|[_ Hi]]; [by apply Ha|].
    apply list_lookup_singleton_Some in Hi as [_ <-]. destruct (first_bits _ _ _ Hb) as [E1 E2]. split_and!; try done. cbn. by rewrite Hmi.
Qed.
Lemma system_new_ok options (t : Topology T B) l s : is_bits (m_topo_cpuset t) l → System_new cpubind membind options t = Ret s →
  Inv l [] s ∧ m_thread_initializers s = [] ∧ m_thread_finalizers s = [].
Proof.
  intros Hl. unfold System_new. rewrite (for_each_bit_fold _ _ (λ cpu_id r, r ≫= FiberTaskQueue_new cpubind membind (i32 cpu_id)) _ Hl). simpl.
  assert (Forall index_ok l) as Hok by apply Hl. clear Hl.
  cut (∀ l0 s1, Inv l0 [] s1 → m_thread_initializers s1 = [] → m_thread_finalizers s1 = [] →
    foldl (λ r cpu_id, r ≫= FiberTaskQueue_new cpubind membind (i32 cpu_id)) (Ret s1) l = Ret s → Inv (l0 ++ l)%list [] s ∧ m_thread_initializers s = [] ∧ m_thread_finalizers s = []).
  { intros Hcut Hs. refine (Hcut [] _ _ _ _ Hs); [split; [done|done|by intros i th [=]]|done|done]. }
  induction l as [|c l IH]; intros l0 s1 HI Hmi Hmf Hs; cbn in Hs; [simplify_eq; by rewrite app_nil_r|]. apply Forall_cons in Hok as [Hc Hok].
  rewrite i32_small in Hs by (unfold index_ok in Hc; lia).
  destruct (FiberTaskQueue_new _ _ c s1) as [s2|e|w|w] eqn:E; [|exfalso; clear -Hs; induction l; [done|]; cbn in Hs; auto..].
  destruct (queue_new_ok _ _ _ _ Hc Hmi Hmf HI E) as (HI1 & ? & ?). rewrite (app_assoc l0 [c] l : (l0 ++ c :: l)%list = _). by apply (IH Hok _ s2).
Qed.
End history.

(** C11: every thread runs exactly the thread-local functions registered for its cpu.
    There is one fiber task queue for each cpu of the topology; whatever threads are made,
    start and end meanwhile, and whatever is registered in between, the thread of a queue
    has run each initializer registered for its cpu exactly once, in the order of
    registration, and when the system is destroyed it has run each finalizer registered for
    its cpu.  Any other thread has run nothing before it starts; once started, exactly the
    initializers that were registered for the first cpu of its affinity before its start,
    and none registered later; once ended, exactly the finalizers registered before its
    end. *)
Theorem thread_locals_ok options (t : Topology T B) l cs s0 s : is_bits (m_topo_cpuset t) l → System_new cpubind membind options t = Ret s0 →
  Forall bitsets cs → calls cpubind membind cs s0 = Ret s →
  omap th_queue (m_threads s) = l ∧
  (∀ i th, m_threads s !! i = Some th → thread_ok s0 cs i th) ∧
  ∀ i th c, m_threads (System_destroy s) !! i = Some th → th_queue th = Some c →
    th_phase th = Finished ∧ th_initialized th = inits_for c cs ∧ th_finalized th = finals_for c cs.
Proof.
  intros Hl Hn Hb Hs. destruct (system_new_ok s0 options t l s0 Hl Hn) as [HI _].
  destruct (calls_ok s0 l cs s HI Hb Hs) as [Hq Hm Ha]. split_and!; [done|done|].
  intros i th c Hi Hc. unfold System_destroy in Hi. cbn in Hi. rewrite list_lookup_fmap in Hi.
  destruct (m_threads s !! i) as [th0|] eqn:E; simplify_eq/=. specialize (Ha i th0 E). unfold thread_ok in Ha.
  destruct (th_queue th0) as [c'|] eqn:Eq; [|congruence]. cbn in Hc. assert (c' = c) as -> by congruence.
  destruct Ha as (_ & Hcpu & _ & Hi & _). cbn. split_and!; [done|done|]. unfold finalize_thread. fold (cpu_of th0). rewrite Hcpu. apply (Hm c).
Qed.
End proofs.

(** Eight cpus; a thread made between two registrations. *)
Definition demo_topology : Topology string (list Z) := mkTopology "machine" Flat.cpus 1 1 (-3) [Flat.cpus] [].
Definition demo_new : res (System (list Z) string) := System_new (λ _, true) (λ _, false) (mkFiberPoolOptions true true) demo_topology.
Definition demo_start : System (list Z) string := match demo_new with Ret s => s | _ => mkSystem (mkFiberPoolOptions true true) demo_topology [] [] true [] end.
Definition demo_calls : list (call (list Z)) :=
  [CInitializer [0; 2] 7; CFinalizer [2] 5; CMakeThread [2]; CStart 8; CInitializer [2; 3] 9; CEnd 8].
Definition demo_end : System (list Z) string := match calls (λ _, true) (λ _, false) demo_calls demo_start with Ret s => s | _ => demo_start end.
Lemma thread_locals_ok_witness : omap th_queue (m_threads demo_end) = Flat.cpus ∧ m_cap_membind demo_end = false ∧
  (th_initialized <$> m_threads demo_end !! 2%nat) = Some [7; 9]%nat ∧
  ((λ th, (th_initialized th, th_finalized th)) <$> m_threads demo_end !! 8%nat) = Some ([7], [5])%nat.
Proof.
  assert (System_new (λ _, true) (λ _, false) (mkFiberPoolOptions true true) demo_topology = Ret demo_start) as Hn by (vm_compute; reflexivity).
  assert (calls (λ _, true) (λ _, false) demo_calls demo_start = Ret demo_end) as Hs by (vm_compute; reflexivity).
  destruct (thread_locals_ok (λ _, true) (λ _, false) (mkFiberPoolOptions true true) demo_topology Flat.cpus demo_calls demo_start demo_end) as [Hq [Hok _]];
    [solve_bits|exact Hn|repeat constructor; eexists; solve_bits|exact Hs|].
  clear Hn Hs. split; [exact Hq|]. split; [vm_compute; reflexivity|]. split; vm_compute; reflexivity.
Defined.
