(* ===== verification/Addresses.v ===== *)
(** * Names, addresses and tags

    Models [src/public/core/addresses.cpp] (hashes and addresses),
    [src/internal/utils/collision_detector.cpp] (the registry that makes the
    16-bit hashes unambiguous) and [src/internal/data_plane/tags.hpp] (the
    64-bit tags that carry port addresses between machines). *)
From Stdlib Require Import Ascii Strings.String.
From S2P Require Import Prelude Parsing.
Local Open Scope string_scope.
Local Open Scope Z_scope.

(** ** fnv1a *)
Definition DefaultOffsetBasis : Z := 0x811C9DC5.
Definition Prime : Z := 0x01000193.
(** [std::uint32_t(c)] of a signed [char]. *)
Definition char_u32 (c : ascii) : Z :=
  let b := Z.of_N (N_of_ascii c) in u32 (if b <? 128 then b else b - 256).

(** The recursion on the C string, which ends at the first NUL. *)
Fixpoint fnv1a_hash (s : string) (val : Z) : Z :=
  match s with
  | EmptyString => val
  | String c s' => if bool_decide (c = "000"%char) then val
                   else fnv1a_hash s' (u32 (Z.lxor val (char_u32 c) * Prime))
  end.
Definition hash_16 (name : string) : Z := Z.land (fnv1a_hash name DefaultOffsetBasis) 0xFFFF.
Definition segment_name_hash (name : string) : Z := hash_16 name.
Definition port_name_hash (name : string) : Z := hash_16 name.

(** ** Addresses: 16 bits each of segment id, segment rank and port id *)
Definition segment_address_encode (seg_id seg_rank : Z) : Z :=
  Z.lor (u32 (Z.shiftl seg_id 16)) seg_rank.
Definition segment_address_decode (address : Z) : Z * Z :=
  (u16 (Z.land (Z.shiftr address 16) 0xFFFF), u16 (Z.land address 0xFFFF)).
Definition segment_address_string (id rank : Z) : string :=
  "[segment id: " ++ to_string id ++ "; rank: " ++ to_string rank ++ "]".

Definition port_address_of_segment (seg_addr port : Z) : Z := Z.lor (u64 (Z.shiftl seg_addr 16)) port.
Definition port_address_encode (seg_id seg_rank port : Z) : Z :=
  port_address_of_segment (segment_address_encode seg_id seg_rank) port.
(** The [DCHECK] as a debug build compiles it. *)
Definition port_address_decode (address : Z) : res (Z * Z * Z) :=
  check (Z.land address 0xFFFF000000000000 =? 0) "upper 16 bits are not set" ;;
  Ret (u16 (Z.land (Z.shiftr address 32) 0xFFFF), u16 (Z.land (Z.shiftr address 16) 0xFFFF),
       u16 (Z.land address 0xFFFF)).
Definition port_address_string (id rank port : Z) : string :=
  "[segment id: " ++ to_string id ++ "; rank: " ++ to_string rank ++ "; port: " ++ to_string port ++ "]".

(** ** CollisionDetector: [std::map<std::uint16_t, std::string> m_hashes] *)
Definition CollisionDetector : Type := gmap Z string.

Definition register_name (name : string) (m_hashes : CollisionDetector) : res (Z * CollisionDetector) :=
  let hash := port_name_hash name in
  match m_hashes !! hash with
  | None => Ret (hash, <[hash := name]> m_hashes)
  | Some other => if String.eqb other name then Ret (hash, m_hashes)
                  else Throw "name registration collision"
  end.
Definition lookup_name (name : string) (m_hashes : CollisionDetector) : res Z :=
  let hash := port_name_hash name in
  match m_hashes !! hash with
  | None => Throw "name not registered"
  | Some other => if String.eqb other name then Ret hash else Throw "name registration collision"
  end.
Definition name_of (hash : Z) (m_hashes : CollisionDetector) : res string :=
  match m_hashes !! hash with None => Throw "hash not registered" | Some name => Ret name end.

(** ** Tags *)
Definition MEM_TYPE_MASK : Z := 0x0100000000000000.
Definition DEVICE_TAG : Z := 0x0100000000000000.
Definition MSG_TYPE_MASK : Z := 0xF000000000000000.
Definition INGRESS_TAG : Z := 0x8000000000000000.
Definition DESCRIPTOR_TAG : Z := 0x4000000000000000.
Definition FUTURE_TAG : Z := 0x2000000000000000.
Definition USR_TYPE_MASK : Z := 0x0000FFFFFFFFFFFF.

Definition tag_decode_msg_type (tag : Z) : Z :=
  let top_bits := Z.land tag MSG_TYPE_MASK in
  if negb (Z.land top_bits (u64 (top_bits - 1)) =? 0) then 0 else top_bits.
Definition tag_decode_mem_type (tag : Z) : Z := Z.land tag MEM_TYPE_MASK.
Definition tag_decode_user_tag (tag : Z) : Z := Z.land tag USR_TYPE_MASK.
(** The last component of the tuple is a [std::uint32_t]. *)
Definition tag_decode (tag : Z) : Z * Z * Z * Z :=
  (tag_decode_msg_type tag, tag_decode_mem_type tag, 0, u32 (tag_decode_user_tag tag)).

(** ** Bit fields *)
Lemma land_low_ones a k : 0 ≤ k → Z.land a (Z.ones k) = a mod 2 ^ k.
Proof. intros. by apply Z.land_ones. Qed.

Lemma lor_field a b k : 0 ≤ k → 0 ≤ b < 2 ^ k → Z.lor (Z.shiftl a k) b = a * 2 ^ k + b.
Proof.
  intros Hk Hb. rewrite <-Z.add_nocarry_lor.
  - rewrite Z.shiftl_mul_pow2; lia.
  - apply Z.bits_inj'. intros n Hn. rewrite Z.land_spec, Z.bits_0.
    destruct (Z.lt_ge_cases n k).
    + by rewrite Z.shiftl_spec_low.
    + assert (Z.testbit b n = false) as ->; [|by rewrite andb_false_r].
      apply Z.testbit_false; [done|]. rewrite Z.div_small; [done|].
      split; [lia|]. eapply Z.lt_le_trans; [apply Hb|]. apply Z.pow_le_mono_r; lia.
Qed.

Lemma field_shiftr a b k : 0 ≤ k → 0 ≤ b < 2 ^ k → Z.shiftr (a * 2 ^ k + b) k = a.
Proof.
  intros Hk Hb. rewrite Z.shiftr_div_pow2 by done. rewrite Z.div_add_l by lia. rewrite Z.div_small; lia.
Qed.
Lemma field_low a b k : 0 ≤ k → 0 ≤ b < 2 ^ k → (a * 2 ^ k + b) mod 2 ^ k = b.
Proof. intros Hk Hb. rewrite Z.add_comm, Z_mod_plus_full. by apply Z.mod_small. Qed.

Definition is_u16 (z : Z) : Prop := 0 ≤ z < 2 ^ 16.

Lemma segment_address_eq id rank :
  is_u16 id → is_u16 rank → segment_address_encode id rank = id * 2 ^ 16 + rank.
Proof.
  intros Hid Hr. unfold segment_address_encode, is_u16 in *. rewrite u32_small by (rewrite Z.shiftl_mul_pow2 by lia; lia).
  apply lor_field; [lia|done].
Qed.
Lemma port_address_eq id rank port :
  is_u16 id → is_u16 rank → is_u16 port → port_address_encode id rank port = (id * 2 ^ 16 + rank) * 2 ^ 16 + port.
Proof.
  intros Hid Hr Hp. unfold port_address_encode, port_address_of_segment. rewrite segment_address_eq by done.
  unfold is_u16 in *. rewrite u64_small by (rewrite Z.shiftl_mul_pow2 by lia; lia). apply lor_field; [lia|done].
Qed.
Lemma land_u16 a : u16 (Z.land a 0xFFFF) = a mod 2 ^ 16.
Proof.
  change 0xFFFF with (Z.ones 16). rewrite Z.land_ones by lia. unfold u16. by rewrite Zmod_mod.
Qed.

Lemma segment_decode_encode id rank :
  is_u16 id → is_u16 rank → segment_address_decode (segment_address_encode id rank) = (id, rank).
Proof.
  intros Hid Hr. rewrite segment_address_eq by done. unfold segment_address_decode. rewrite !land_u16.
  unfold is_u16 in *. rewrite field_shiftr, field_low by lia. by rewrite Z.mod_small.
Qed.

Lemma segment_encode_decode a :
  0 ≤ a < 2 ^ 32 → segment_address_encode (segment_address_decode a).1 (segment_address_decode a).2 = a.
Proof.
  intros Ha. unfold segment_address_decode. cbn [fst snd]. rewrite !land_u16, Z.shiftr_div_pow2 by lia.
  rewrite segment_address_eq; unfold is_u16; Z.div_mod_to_equations; lia.
Qed.

(** Segment and port addresses lose nothing: decoding an encoded address
    gives back its id, rank and port, and encoding a decoded 48-bit port address
    gives back the address. *)
Theorem port_address_roundtrip id rank port :
  is_u16 id → is_u16 rank → is_u16 port →
  segment_address_decode (segment_address_encode id rank) = (id, rank) ∧
  port_address_decode (port_address_encode id rank port) = Ret (id, rank, port) ∧
  ∀ a, 0 ≤ a < 2 ^ 48 → ∃ i r p, port_address_decode a = Ret (i, r, p) ∧ port_address_encode i r p = a.
Proof.
  intros Hid Hr Hp. split; [by apply segment_decode_encode|].
  assert (∀ a, 0 ≤ a < 2 ^ 48 → port_address_decode a =
    Ret (Z.shiftr a 32 mod 2 ^ 16, Z.shiftr a 16 mod 2 ^ 16, a mod 2 ^ 16)) as Hdec.
  { intros a Ha. unfold port_address_decode. rewrite !land_u16.
    replace (Z.land a 0xFFFF000000000000) with 0; [done|].
    apply Z.bits_inj'. intros n Hn. rewrite Z.land_spec, Z.bits_0. destruct (Z.lt_ge_cases n 48).
    - change 0xFFFF000000000000 with (Z.shiftl 0xFFFF 48). by rewrite Z.shiftl_spec_low, andb_false_r.
    - assert (Z.testbit a n = false) as ->; [|done]. apply Z.testbit_false; [done|]. rewrite Z.div_small; [done|].
      split; [lia|]. eapply Z.lt_le_trans; [apply Ha|]. apply Z.pow_le_mono_r; lia. }
  split.
  - unfold is_u16 in *. rewrite port_address_eq, Hdec by (done || lia). rewrite !Z.shiftr_div_pow2 by lia.
    do 2 f_equal; [f_equal|]; Z.div_mod_to_equations; lia.
  - intros a Ha. rewrite Hdec by done. do 3 eexists. split; [done|]. rewrite !Z.shiftr_div_pow2 by lia.
    rewrite port_address_eq; unfold is_u16; Z.div_mod_to_equations; lia.
Qed.

Lemma port_address_roundtrip_witness :
  segment_address_decode (segment_address_encode 7 65535) = (7, 65535) ∧
  port_address_decode (port_address_encode 7 65535 12) = Ret (7, 65535, 12) ∧
  ∀ a, 0 ≤ a < 2 ^ 48 → ∃ i r p, port_address_decode a = Ret (i, r, p) ∧ port_address_encode i r p = a.
Proof. apply (port_address_roundtrip 7 65535 12); split; lia. Defined.

(** ** The registry *)
Definition registry_ok (m : CollisionDetector) : Prop := ∀ h n, m !! h = Some n → h = port_name_hash n.

Fixpoint register_all (names : list string) (m : CollisionDetector) : res CollisionDetector :=
  match names with
  | [] => Ret m
  | n :: rest => '(_, m) ← register_name n m; register_all rest m
  end.

Lemma register_name_spec name m h m' :
  registry_ok m → register_name name m = Ret (h, m') →
  h = port_name_hash name ∧ registry_ok m' ∧ m' !! h = Some name ∧ m ⊆ m'.
Proof.
  intros Hok. unfold register_name. destruct (m !! port_name_hash name) as [other|] eqn:E.
  - destruct (String.eqb_spec other name); [|done]. subst other. intros [= <- <-]. done.
  - intros [= <- <-]. split_and!; [done| |apply lookup_insert_eq|by apply insert_subseteq].
    intros h n [[<- <-]|[_ ?]]%lookup_insert_Some; auto.
Qed.

Lemma register_all_spec names m m' :
  registry_ok m → register_all names m = Ret m' →
  registry_ok m' ∧ m ⊆ m' ∧ Forall (λ n, m' !! port_name_hash n = Some n) names.
Proof.
  revert m. induction names as [|n names IH]; simpl; intros m Hok; [by intros [= <-]|].
  destruct (register_name n m) as [[h m1]|?|?|?] eqn:E; simpl; try done.
  apply register_name_spec in E as (-> & Hok1 & Hn & Hsub); [|done]. intros Hr.
  destruct (IH m1 Hok1 Hr) as (? & Hsub' & ?). split_and!; [done|by etrans|].
  constructor; [|done]. by eapply lookup_weaken.
Qed.

(** Names that a registry accepted have distinct 16-bit ids, and both
    directions of the lookup agree on them: two different names with the same
    hash are never both accepted. *)
Theorem registered_names_distinct names m :
  register_all names ∅ = Ret m →
  (∀ n, n ∈ names → lookup_name n m = Ret (port_name_hash n) ∧ name_of (port_name_hash n) m = Ret n) ∧
  (∀ n1 n2, n1 ∈ names → n2 ∈ names → port_name_hash n1 = port_name_hash n2 → n1 = n2).
Proof.
  intros Hr. destruct (register_all_spec names ∅ m) as (Hok & _ & Hall); [by intros ? ?|done|].
  rewrite Forall_forall in Hall. split.
  - intros n Hn. unfold lookup_name, name_of. rewrite (Hall n Hn). by rewrite String.eqb_refl.
  - intros n1 n2 H1 H2 Heq. apply Hall in H1. apply Hall in H2. rewrite Heq in H1. congruence.
Qed.

Lemma registered_names_distinct_witness :
  ∃ m, register_all ["source"; "sink"; "my_int"] ∅ = Ret m ∧
    (∀ n, n ∈ ["source"; "sink"; "my_int"] → lookup_name n m = Ret (port_name_hash n) ∧ name_of (port_name_hash n) m = Ret n) ∧
    (∀ n1 n2, n1 ∈ ["source"; "sink"; "my_int"] → n2 ∈ ["source"; "sink"; "my_int"] →
       port_name_hash n1 = port_name_hash n2 → n1 = n2).
Proof.
  eexists. split; [vm_compute; reflexivity|].
  apply (registered_names_distinct ["source"; "sink"; "my_int"]). vm_compute; reflexivity.
Defined.

(** ** Tags *)
(** A port address sent with the ingress tag is recovered by the receiver:
    the message type is INGRESS and the user tag is the whole 48-bit address. *)
Theorem ingress_tag_roundtrip a :
  0 ≤ a < 2 ^ 48 →
  let tag := Z.lor INGRESS_TAG a in
  tag_decode_msg_type tag = INGRESS_TAG ∧ tag_decode_mem_type tag = 0 ∧ tag_decode_user_tag tag = a.
Proof.
  intros Ha tag. assert (tag = 2 ^ 15 * 2 ^ 48 + a) as Htag.
  { subst tag. change INGRESS_TAG with (Z.shiftl (2 ^ 15) 48). apply lor_field; [lia|done]. }
  assert (∀ m, 0 ≤ m < 2 ^ 16 → Z.land tag (Z.shiftl m 48) = Z.shiftl (Z.land (2 ^ 15) m) 48) as Hhi.
  { intros m Hm. rewrite Htag. apply Z.bits_inj'. intros n Hn. rewrite Z.land_spec.
    destruct (Z.lt_ge_cases n 48); [by rewrite !Z.shiftl_spec_low, andb_false_r|].
    rewrite !Z.shiftl_spec, Z.land_spec by lia. f_equal.
    rewrite <-(field_shiftr (2 ^ 15) a 48) at 2 by lia. rewrite Z.shiftr_spec by lia. f_equal. lia. }
  split_and!.
  - unfold tag_decode_msg_type. change MSG_TYPE_MASK with (Z.shiftl 0xF000 48). rewrite Hhi by lia. done.
  - unfold tag_decode_mem_type. change MEM_TYPE_MASK with (Z.shiftl 0x0100 48). rewrite Hhi by lia. done.
  - unfold tag_decode_user_tag. change USR_TYPE_MASK with (Z.ones 48). rewrite Z.land_ones, Htag by lia.
    apply field_low; lia.
Qed.

Lemma ingress_tag_roundtrip_witness :
  tag_decode_msg_type (Z.lor INGRESS_TAG (port_address_encode 1 2 3)) = INGRESS_TAG ∧
  tag_decode_mem_type (Z.lor INGRESS_TAG (port_address_encode 1 2 3)) = 0 ∧
  tag_decode_user_tag (Z.lor INGRESS_TAG (port_address_encode 1 2 3)) = port_address_encode 1 2 3.
Proof. apply (ingress_tag_roundtrip (port_address_encode 1 2 3)). split; [discriminate|reflexivity]. Defined.

(** The tuple of [tag_decode] declares the user tag as 32 bits although
    48 bits are reserved for it: the segment id of a port address is lost. *)
Theorem tag_decode_truncates :
  let a := port_address_encode 1 2 3 in
  tag_decode_user_tag (Z.lor INGRESS_TAG a) = a ∧
  (tag_decode (Z.lor INGRESS_TAG a)).2 = port_address_encode 0 2 3 ∧ a ≠ port_address_encode 0 2 3.
Proof. vm_compute. split_and!; [reflexivity|reflexivity|discriminate]. Qed.
