(* ===== verification/Manifold.v ===== *)
(** * Manifolds: load balancing between segments

    Models [include/srf/manifold/egress.hpp], [ingress.hpp],
    [composite_manifold.hpp], [load_balancer.hpp] and
    [src/public/manifold/manifold.cpp].  A manifold collects the egress ports of
    upstream segments (its inputs) and deals their data round robin to the
    ingress ports of downstream segments (its outputs).  Connections are queued
    and take effect when the pipeline updates the manifold.
    [std::random_shuffle] is a parameter; only that it permutes is used. *)
From Stdlib Require Import Strings.String.
From S2P Require Import Prelude.
Local Open Scope Z_scope.

(** A [SourceChannelWriteable]: what was written, and whether the reading end is
    still open. *)
Record channel (D : Type) := mkChannel { written : list D; is_open : bool }.
Arguments mkChannel {D}.
Arguments written {D}.
Arguments is_open {D}.

Section manifold.
Context {D : Type} (shuffle : list Z → list Z).

(** ** RoundRobinEgress; an entry of [m_pick_list] points to the channel of that address *)
Record Egress := mkEgress { m_outputs : gmap Z (channel D); m_pick_list : list Z; m_next : nat }.
Definition Egress_new : Egress := mkEgress ∅ [] 0.

Definition update_pick_list (e : Egress) : Egress :=
  mkEgress (m_outputs e) (shuffle (map_to_list (m_outputs e)).*1) 0.

(** [MappedEgress::do_add_output], then the pick list. *)
Definition do_add_output (address : Z) (e : Egress) : res Egress :=
  match m_outputs e !! address with
  | Some _ => Abort "search == m_outputs.end()"
  | None => Ret (update_pick_list (mkEgress (<[address := mkChannel [] true]> (m_outputs e)) (m_pick_list e) (m_next e)))
  end.

Definition clear (e : Egress) : Egress := mkEgress ∅ (m_pick_list e) (m_next e).

Definition await_write (data : D) (e : Egress) : res Egress :=
  match m_pick_list e !! m_next e with
  | None => Abort "m_next < m_pick_list.size()"
  | Some address =>
      let next' := if decide (S (m_next e) = length (m_pick_list e)) then O else S (m_next e) in
      match m_outputs e !! address with
      | None => Undefined "m_pick_list points to a destroyed channel"
      | Some c =>
          if is_open c
          then Ret (mkEgress (<[address := mkChannel (written c ++ [data]) true]> (m_outputs e)) (m_pick_list e) next')
          else Abort "await_write == Status::success"
      end
  end.

Fixpoint write_all (ds : list D) (e : Egress) : res Egress :=
  match ds with [] => Ret e | d :: ds => await_write d e ≫= write_all ds end.

(** ** CompositeManifold and LoadBalancer *)
Record Manifold := mkManifold {
  m_port_name : string;
  m_input_updates : list Z;      (* queued upstream segment addresses *)
  m_output_updates : list Z;     (* queued downstream segment addresses *)
  m_ingress : list Z;            (* edges into the muxer *)
  m_egress : Egress;
  m_runner : bool;               (* the balancer was launched *)
}.
Definition Manifold_new (port_name : string) : Manifold := mkManifold port_name [] [] [] Egress_new false.

Definition add_input (address : Z) (m : Manifold) : Manifold :=
  mkManifold (m_port_name m) (m_input_updates m ++ [address]) (m_output_updates m) (m_ingress m) (m_egress m) (m_runner m).
Definition add_output (address : Z) (m : Manifold) : Manifold :=
  mkManifold (m_port_name m) (m_input_updates m) (m_output_updates m ++ [address]) (m_ingress m) (m_egress m) (m_runner m).

Definition update_inputs (m : Manifold) : Manifold :=
  mkManifold (m_port_name m) [] (m_output_updates m) (m_ingress m ++ m_input_updates m) (m_egress m) (m_runner m).

Fixpoint add_outputs (addresses : list Z) (e : Egress) : res Egress :=
  match addresses with [] => Ret e | a :: rest => do_add_output a e ≫= add_outputs rest end.
Definition update_outputs (m : Manifold) : res Manifold :=
  e ← add_outputs (m_output_updates m) (m_egress m);
  Ret (mkManifold (m_port_name m) (m_input_updates m) [] (m_ingress m) e (m_runner m)).

Definition start (m : Manifold) : Manifold :=
  mkManifold (m_port_name m) (m_input_updates m) (m_output_updates m) (m_ingress m) (m_egress m) true.

(** ** Round robin is fair *)
Section proofs.
Context (Hshuffle : ∀ l, shuffle l ≡ₚ l).

(** Pick list and outputs agree, and the counter is in range. *)
Definition egress_ok (e : Egress) : Prop :=
  NoDup (m_pick_list e) ∧ (∀ a, a ∈ m_pick_list e ↔ is_Some (m_outputs e !! a)) ∧
  (m_pick_list e = [] ∧ m_next e = 0 ∨ m_next e < length (m_pick_list e))%nat.

Lemma egress_ok_new : egress_ok Egress_new.
Proof using. clear Hshuffle shuffle. split_and!; [constructor| |by left]. intros a. simpl. rewrite lookup_empty. split; [set_solver|by intros []]. Qed.

Lemma pick_list_elem (m : gmap Z (channel D)) a : a ∈ (map_to_list m).*1 ↔ is_Some (m !! a).
Proof.
  rewrite list_elem_of_fmap. split.
  - intros ([a' c] & -> & Hc%elem_of_map_to_list). by exists c.
  - intros [c Hc]. exists (a, c). split; [done|]. by apply elem_of_map_to_list.
Qed.

Lemma egress_ok_add a e e' : do_add_output a e = Ret e' → egress_ok e'.
Proof.
  unfold do_add_output. destruct (m_outputs e !! a) eqn:E; [done|]. intros [= <-].
  unfold egress_ok, update_pick_list. simpl. split_and!.
  - rewrite Hshuffle. apply NoDup_fst_map_to_list.
  - intros x. rewrite Hshuffle. apply pick_list_elem.
  - right. rewrite (Permutation_length (Hshuffle _)), length_fmap, map_to_list_insert by done. simpl. lia.
Qed.

Definition all_open (e : Egress) : Prop := ∀ a c, m_outputs e !! a = Some c → is_open c = true.

Lemma await_write_ok d e :
  egress_ok e → all_open e → m_pick_list e ≠ [] →
  ∃ a c e', m_pick_list e !! m_next e = Some a ∧ m_outputs e !! a = Some c ∧ await_write d e = Ret e' ∧
    m_outputs e' = <[a := mkChannel (written c ++ [d]) true]> (m_outputs e) ∧
    m_pick_list e' = m_pick_list e ∧ m_next e' = (S (m_next e) mod length (m_pick_list e))%nat ∧
    egress_ok e' ∧ all_open e'.
Proof.
  intros (Hnd & Hdom & Hnext) Hopen Hne. assert (m_next e < length (m_pick_list e))%nat as Hlt by naive_solver.
  destruct (lookup_lt_is_Some_2 _ _ Hlt) as [a Ha].
  destruct (proj1 (Hdom a)) as [c Hc]; [by eapply list_elem_of_lookup_2|].
  assert ((if decide (S (m_next e) = length (m_pick_list e)) then O else S (m_next e)) =
    (S (m_next e) mod length (m_pick_list e))%nat) as Hn.
  { case_decide as E; [by rewrite E, Nat.Div0.mod_same|]. rewrite Nat.mod_small; lia. }
  unfold await_write. rewrite Ha, Hc, (Hopen _ _ Hc), Hn. do 3 eexists. split_and!; try done; simpl.
  - split_and!; simpl; [done| |right; apply Nat.mod_upper_bound; lia].
    intros x. rewrite Hdom, lookup_insert_is_Some. destruct (decide (a = x)) as [<-|]; naive_solver.
  - intros x cx. simpl. intros [[<- <-]|[_ ?]]%lookup_insert_Some; [done|]. by eapply Hopen.
Qed.

(** The data that position [j] of a cycle of length [L] gets when dealing starts at [k]. *)
Fixpoint dealt (L k j : nat) (ds : list D) : list D :=
  match ds with
  | [] => []
  | d :: ds => (if decide (k mod L = j)%nat then [d] else []) ++ dealt L (S k) j ds
  end.

Lemma dealt_count L k j ds i : length (dealt L (k + i) j ds) = countb (hits L k j) (seq i (length ds)).
Proof.
  revert i. induction ds as [|d ds IH]; intros i; simpl; [done|]. rewrite length_app.
  replace (S (k + i)) with (k + S i)%nat by lia. rewrite IH. unfold hits at 2. by case_decide; case_bool_decide.
Qed.

Lemma dealt_mod L k j ds : dealt L (k mod L) j ds = dealt L k j ds.
Proof.
  cut (∀ k k', (k mod L = k' mod L)%nat → dealt L k j ds = dealt L k' j ds).
  { intros Hc. apply Hc. apply Nat.Div0.mod_mod. }
  induction ds as [|d ds IH]; intros k1 k2 Heq; simpl; [done|]. rewrite Heq. f_equal. apply IH.
  rewrite <-(Nat.add_1_r k1), <-(Nat.add_1_r k2), <-(Nat.Div0.add_mod_idemp_l k1), <-(Nat.Div0.add_mod_idemp_l k2), Heq. done.
Qed.

Lemma write_all_spec ds e :
  egress_ok e → all_open e → m_pick_list e ≠ [] →
  ∃ e', write_all ds e = Ret e' ∧ m_pick_list e' = m_pick_list e ∧
    ∀ j a c, m_pick_list e !! j = Some a → m_outputs e !! a = Some c →
      m_outputs e' !! a = Some (mkChannel (written c ++ dealt (length (m_pick_list e)) (m_next e) j ds) true).
Proof.
  revert e. induction ds as [|d ds IH]; intros e Hok Hopen Hne; simpl.
  { exists e. split_and!; try done. intros j a c _ Hc. rewrite app_nil_r, Hc. f_equal.
    specialize (Hopen _ _ Hc). destruct c; simpl in *. by subst. }
  destruct (await_write_ok d e Hok Hopen Hne) as (a & c & e1 & Ha & Hc & -> & Ho1 & Hp1 & Hn1 & Hok1 & Hopen1). simpl.
  destruct (IH e1 Hok1 Hopen1) as (e' & -> & Hp' & Hw); [by rewrite Hp1|]. exists e'. split_and!; [done|congruence|].
  destruct Hok as (Hnd & _ & Hnext). assert (m_next e < length (m_pick_list e))%nat as Hlt by naive_solver.
  rewrite Hp1, Hn1 in Hw. intros j x cx Hj Hcx. rewrite (Nat.mod_small (m_next e)) by done.
  case_decide as Ej.
  - subst j. assert (x = a) as -> by congruence. assert (cx = c) as -> by congruence.
    rewrite (Hw (m_next e) a (mkChannel (written c ++ [d]) true)); [|done|by rewrite Ho1, lookup_insert_eq].
    simpl. by rewrite dealt_mod, <-app_assoc.
  - assert (x ≠ a). { intros ->. destruct Ej. rewrite NoDup_alt in Hnd. by eapply Hnd. }
    rewrite (Hw j x cx); [|done|by rewrite Ho1, lookup_insert_ne]. by rewrite dealt_mod.
Qed.

(** The load balancer is fair: with all downstream channels open, any number
    [q * n + r] (r < n) of data written to [n] outputs succeeds, and every output
    receives [q] or [q + 1] of them, after what it had, in the order written. *)
Theorem egress_fair ds e q r a c :
  egress_ok e → all_open e → m_outputs e !! a = Some c →
  length ds = (q * length (m_pick_list e) + r)%nat → (r < length (m_pick_list e))%nat →
  ∃ e' got, write_all ds e = Ret e' ∧ got `sublist_of` ds ∧
    m_outputs e' !! a = Some (mkChannel (written c ++ got) true) ∧ (q ≤ length got ≤ q + 1)%nat.
Proof.
  intros Hok Hopen Hc Hlen Hr. assert (m_pick_list e ≠ []) as Hne by (intros E; rewrite E in Hr; simpl in Hr; lia).
  destruct (write_all_spec ds e Hok Hopen Hne) as (e' & Hw & _ & Hout).
  destruct (list_elem_of_lookup_1 (m_pick_list e) a) as [j Hj]; [apply Hok; by exists c|].
  exists e', (dealt (length (m_pick_list e)) (m_next e) j ds). split_and!; [done| |by apply Hout|..].
  - generalize (m_next e). clear. induction ds as [|d ds IH]; intros k; simpl; [constructor|].
    case_decide; simpl; by constructor.
  - rewrite <-(Nat.add_0_r (m_next e)), dealt_count, Hlen. apply hits_total; [by eapply lookup_lt_Some|lia].
  - rewrite <-(Nat.add_0_r (m_next e)), dealt_count, Hlen. apply hits_total; [by eapply lookup_lt_Some|lia].
Qed.

(** ** Updates *)
Definition fresh (addresses : list Z) (e : Egress) : Prop :=
  NoDup addresses ∧ Forall (λ a, m_outputs e !! a = None) addresses.
#[local] Instance fresh_dec addresses e : Decision (fresh addresses e).
Proof. unfold fresh. apply _. Defined.

Lemma fresh_cons x l e : fresh (x :: l) e ↔ m_outputs e !! x = None ∧
  fresh l (update_pick_list (mkEgress (<[x := mkChannel [] true]> (m_outputs e)) (m_pick_list e) (m_next e))).
Proof.
  unfold fresh. simpl. rewrite NoDup_cons, !Forall_forall. split.
  - intros [[Hx Hnd] Hall]. split_and!; [apply Hall; set_solver|done|]. intros y Hy.
    rewrite lookup_insert_ne by (intros ->; done). apply Hall. set_solver.
  - intros (Hx & Hnd & Hall). assert (x ∉ l) as Hxl.
    { intros Hin. specialize (Hall x Hin). by rewrite lookup_insert_eq in Hall. }
    split_and!; [done|done|]. intros y [->|Hy]%elem_of_cons; [done|].
    specialize (Hall y Hy). rewrite lookup_insert_ne in Hall; [done|]. intros ->. done.
Qed.

Lemma add_outputs_spec addresses e :
  egress_ok e →
  if decide (fresh addresses e)
  then ∃ e', add_outputs addresses e = Ret e' ∧ egress_ok e' ∧
    ∀ a, m_outputs e' !! a = if decide (a ∈ addresses) then Some (mkChannel [] true) else m_outputs e !! a
  else ∃ why, add_outputs addresses e = Abort why.
Proof.
  revert e. induction addresses as [|x l IH]; intros e Hok; cbn [add_outputs].
  { rewrite decide_True by (split; constructor). exists e. split_and!; try done. }
  unfold do_add_output at 1 2. destruct (m_outputs e !! x) as [c|] eqn:E.
  { rewrite decide_False; [by eexists|]. intros [? _]%fresh_cons. congruence. }
  set (e1 := update_pick_list _). assert (egress_ok e1) as Hok1.
  { apply (egress_ok_add x e). unfold do_add_output. by rewrite E. }
  specialize (IH e1 Hok1). cbn. destruct (decide (fresh l e1)) as [Hf|Hnf].
  - rewrite decide_True by (by apply fresh_cons). destruct IH as (e' & He' & Hok' & Hout).
    exists e'. split_and!; [done|done|]. intros a. rewrite Hout. subst e1. simpl.
    destruct (decide (a = x)) as [->|]; [rewrite lookup_insert_eq, (decide_True (P := x ∈ x :: l)) by set_solver; by case_decide|].
    rewrite lookup_insert_ne by done. repeat case_decide; set_solver.
  - rewrite decide_False by (by intros [_ ?]%fresh_cons). done.
Qed.

(** [update_outputs] connects every queued downstream segment and empties the
    queue, keeping the connections and the round robin well formed; it aborts
    exactly when an address is queued twice or already connected. *)
Theorem update_outputs_spec m :
  egress_ok (m_egress m) →
  if decide (fresh (m_output_updates m) (m_egress m))
  then ∃ m', update_outputs m = Ret m' ∧ m_output_updates m' = [] ∧ egress_ok (m_egress m') ∧
    (∀ a, is_Some (m_outputs (m_egress m') !! a) ↔ is_Some (m_outputs (m_egress m) !! a) ∨ a ∈ m_output_updates m) ∧
    update_outputs m' = Ret m'
  else ∃ why, update_outputs m = Abort why.
Proof.
  intros Hok. pose proof (add_outputs_spec (m_output_updates m) (m_egress m) Hok) as Hs. unfold update_outputs.
  case_decide; [|destruct Hs as [why ->]; by eexists]. destruct Hs as (e' & -> & Hok' & Hout). cbn.
  eexists. split_and!; try done; simpl. intros a. rewrite Hout. case_decide; [naive_solver|]. naive_solver.
Qed.
End proofs.

(** [MappedEgress::clear] leaves the pick list of the load balancer behind:
    the next write goes through a pointer to a destroyed channel. *)
Theorem clear_leaves_dangling e d :
  (m_next e < length (m_pick_list e))%nat → ∃ why, await_write d (clear e) = Undefined why.
Proof.
  intros Hlt. destruct (lookup_lt_is_Some_2 _ _ Hlt) as [a Ha]. unfold await_write, clear. simpl. rewrite Ha, lookup_empty. by eexists.
Qed.
End manifold.

(** ** Running it *)
Definition example_egress : Egress (D := Z) := mkEgress (<[1 := mkChannel [] true]> {[ 2 := mkChannel [] true ]}) [2; 1] 1.

Lemma example_egress_ok : egress_ok (D := Z) example_egress.
Proof.
  split_and!; [repeat constructor; set_solver| |simpl; lia]. intros a. simpl.
  rewrite lookup_insert_is_Some, lookup_singleton_is_Some. set_solver.
Qed.
Lemma example_egress_open : all_open (D := Z) example_egress.
Proof. intros a c. simpl. intros [[<- <-]|[_ [<- <-]%lookup_singleton_Some]]%lookup_insert_Some; done. Qed.

Lemma egress_fair_witness :
  ∃ e' got, write_all [10; 20; 30; 40; 50] example_egress = Ret e' ∧ got `sublist_of` [10; 20; 30; 40; 50] ∧
    m_outputs e' !! 1 = Some (mkChannel ([] ++ got) true) ∧ (2 ≤ length got ≤ 2 + 1)%nat.
Proof.
  apply (egress_fair [10; 20; 30; 40; 50] example_egress 2 1 1 (mkChannel [] true));
    [exact example_egress_ok|exact example_egress_open|reflexivity|reflexivity|simpl; lia].
Defined.

Lemma update_outputs_spec_witness :
  let m := mkManifold "port" [] [3; 4] [] example_egress false in
  ∃ m', update_outputs (D := Z) id m = Ret m' ∧ m_output_updates m' = [] ∧ egress_ok (m_egress m') ∧
    (∀ a, is_Some (m_outputs (m_egress m') !! a) ↔ is_Some (m_outputs (m_egress m) !! a) ∨ a ∈ m_output_updates m) ∧
    update_outputs id m' = Ret m'.
Proof.
  apply (update_outputs_spec (D := Z) id (λ l, Permutation_refl l) (mkManifold "port" [] [3; 4] [] example_egress false)).
  exact example_egress_ok.
Defined.

Lemma clear_leaves_dangling_witness : ∃ why, await_write 5 (clear example_egress) = Undefined why.
Proof. apply (clear_leaves_dangling example_egress 5). simpl. lia. Defined.
