(* ===== verification/Segment.v ===== *)
(** * Segments

    Models [src/internal/segment]: [definition.cpp] (the ports of a segment and
    their validation), [builder.cpp] (the objects a segment owns) and
    [instance.cpp] (a running segment as a [Service]), with the ports of
    [include/srf/segment/ingress_port.hpp] and [egress_port.hpp].

    A segment drives the runners of its nodes and ports only through the
    interface [RunnerI]; what user code and the launch control decide (the
    initializer of a definition, the runner that igniting a launcher yields) are
    parameters. *)
From Stdlib Require Import Strings.String.
From S2P Require Import Prelude StdMap Addresses Manifold Service.
Local Open Scope string_scope.
Local Open Scope Z_scope.

(** What a segment may do with a runner.  [await_live] and [await_join] block;
    their result is what they return once they do. *)
Class RunnerI (R : Type) : Type := {
  runner_stop : R → R;
  runner_kill : R → R;
  runner_await_live : M R ();
  runner_await_join : M R ();
}.

(** Igniting the launcher of a node or port, by the address of its segment and its name:
    the runner it yields (which engines it gets is the business of the launch control), and
    whether the completion callback of some runner of the segment, called with [false],
    arrives after this ignition and before the next step of the start. *)
Class Ignition (R : Type) := { ignition : Z → string → R; reported : Z → string → bool }.

(** ** Ports and Builder *)
(** [port_held]: [m_sink] or [m_source] is not null; it is moved into the launcher. *)
Record Port := mkPort { port_address : Z; port_name : string; m_manifold_connected : bool; port_held : bool }.

Record Builder := mkBuilder {
  m_objects : smap ();
  m_nodes : smap ();
  m_ingress_ports : smap Port;
  m_egress_ports : smap Port;
}.

Definition has_object (name : string) (b : Builder) : bool := bool_decide (is_Some (smap_find name (m_objects b))).
Definition find_object (name : string) (b : Builder) : res () :=
  match smap_find name (m_objects b) with Some o => Ret o | None => Throw "unable to find segment object with name" end.
Definition get_ingress_base (name : string) (b : Builder) : option Port := smap_find name (m_ingress_ports b).
Definition get_egress_base (name : string) (b : Builder) : option Port := smap_find name (m_egress_ports b).
Definition add_object (name : string) (b : Builder) : res Builder :=
  throw_if (has_object name b) "duplicate name detected - name owned by a node" ;;
  Ret (mkBuilder (smap_set name () (m_objects b)) (m_nodes b) (m_ingress_ports b) (m_egress_ports b)).
Definition add_runnable (name : string) (b : Builder) : res Builder :=
  throw_if (has_object name b) "duplicate name detected - name owned by a node" ;;
  Ret (mkBuilder (m_objects b) (smap_set name () (m_nodes b)) (m_ingress_ports b) (m_egress_ports b)).
(** What the public [make_object] does with a launchable object. *)
Definition make_object (name : string) (b : Builder) : res Builder := add_runnable name b ≫= add_object name.

(** ** Definition *)
Record Definition_ := mkDefinition {
  d_name : string;
  m_ingress_initializers : list string;     (* keys of the map, ascending *)
  m_egress_initializers : list string;
  m_backend_initializer : Builder → res Builder;
}.
Definition d_id (d : Definition_) : Z := segment_name_hash (d_name d).
Definition ingress_port_names (d : Definition_) : list string := m_ingress_initializers d.
Definition egress_port_names (d : Definition_) : list string := m_egress_initializers d.

Definition validate_ports (d : Definition_) : res () :=
  let names := (m_ingress_initializers d ++ m_egress_initializers d)%list in
  throw_if (negb (bool_decide (size (list_to_set names : gset string) = length names)))
    "ingress and egress port names must be unique" ;;
  throw_if (negb (bool_decide (size (list_to_set (port_name_hash <$> names) : gset Z) = length names)))
    "hash collection detected in port names".
Definition Definition_new (d : Definition_) : res Definition_ := validate_ports d ;; Ret d.

(** [Builder::Builder]: the ports first, then the user's initializer. *)
Definition add_ingress (address : Z) (b : Builder) (name : string) : Builder :=
  mkBuilder (smap_set name () (m_objects b)) (m_nodes b)
    (smap_set name (mkPort address name false true) (m_ingress_ports b)) (m_egress_ports b).
Definition add_egress (address : Z) (b : Builder) (name : string) : Builder :=
  mkBuilder (smap_set name () (m_objects b)) (m_nodes b)
    (m_ingress_ports b) (smap_set name (mkPort address name false true) (m_egress_ports b)).
Definition Builder_new (d : Definition_) (rank : Z) : res Builder :=
  let address := segment_address_encode (d_id d) rank in
  let b := foldl (add_ingress address) (mkBuilder [] [] [] []) (m_ingress_initializers d) in
  let b := foldl (add_egress address) b (m_egress_initializers d) in
  m_backend_initializer d b.

Section segment.
Context {R : Type} `{RunnerI R} `{Ignition R} {D : Type} (shuffle : list Z → list Z).

(** ** Instance *)
Record Segment := mkSegment {
  s_state : ServiceState;
  s_name : string;
  s_id : Z;
  s_rank : Z;
  s_address : Z;
  s_builder : Builder;
  s_partition : Z;
  m_runners : smap R;
  m_egress_runners : smap R;
  m_ingress_runners : smap R;
}.
Definition Segment_new (d : Definition_) (rank partition_id : Z) : res Segment :=
  b ← Builder_new d rank;
  Ret (mkSegment Initialized (d_name d) (d_id d) rank (segment_address_encode (d_id d) rank) b partition_id [] [] []).

Definition set_state (st : ServiceState) (s : Segment) : Segment :=
  mkSegment st (s_name s) (s_id s) (s_rank s) (s_address s) (s_builder s) (s_partition s) (m_runners s) (m_egress_runners s) (m_ingress_runners s).
Definition set_builder (b : Builder) (s : Segment) : Segment :=
  mkSegment (s_state s) (s_name s) (s_id s) (s_rank s) (s_address s) b (s_partition s) (m_runners s) (m_egress_runners s) (m_ingress_runners s).
Definition set_runners (nodes egress ingress : smap R) (s : Segment) : Segment :=
  mkSegment (s_state s) (s_name s) (s_id s) (s_rank s) (s_address s) (s_builder s) (s_partition s) nodes egress ingress.

(** [EgressPort::prepare_launcher] and [IngressPort::prepare_launcher]. *)
Definition launched (p : Port) : Port := mkPort (port_address p) (port_name p) (m_manifold_connected p) false.
Definition prepare_egress (p : Port) : res Port :=
  check (port_held p) "m_sink" ;;
  check (m_manifold_connected p) "manifold not set for egress port" ;;
  Ret (launched p).
Definition prepare_ingress (p : Port) : res Port := check (port_held p) "m_source" ;; Ret (launched p).
Fixpoint prepare_all (prepare : Port → res Port) (ports : smap Port) : res (smap Port) :=
  match ports with
  | [] => Ret []
  | (n, p) :: rest => p ← prepare p; rest ← prepare_all prepare rest; Ret ((n, p) :: rest)
  end.
Definition put_ingress (rs : smap R) (s : Segment) : Segment := set_runners (m_runners s) (m_egress_runners s) rs s.
Definition put_nodes (rs : smap R) (s : Segment) : Segment := set_runners rs (m_egress_runners s) (m_ingress_runners s) s.
Definition put_egress (rs : smap R) (s : Segment) : Segment := set_runners (m_runners s) rs (m_ingress_runners s) s.
Definition map_runners (f : R → R) (rs : smap R) : smap R := (λ kv, (kv.1, f kv.2)) <$> rs.
(** Ports are not stopped: stop has no effect on nodes. *)
Definition segment_stop : M Segment () :=
  modify (λ s, set_runners (map_runners runner_stop (m_runners s)) (m_egress_runners s) (m_ingress_runners s) s).
Definition segment_kill : M Segment () :=
  modify (λ s, set_runners (map_runners runner_kill (m_runners s)) (map_runners runner_kill (m_egress_runners s))
                 (map_runners runner_kill (m_ingress_runners s)) s).

(** The callback that [apply_callback] installs in every runner: a failure kills the
    segment.  This is [service_kill] of the [Service] that a segment is (lemma
    [callback_kills]). *)
Definition completion_callback (ok : bool) : M Segment () :=
  if ok then mret ()
  else
    s ← get;
    if ss_lt (s_state s) Killing then put (set_state Killing s) ;; segment_kill else mret ().
(** [m_runners[name] = launcher->ignition()] for every launcher in order.  The runners
    run from then on, and their callbacks arrive between the ignitions. *)
Fixpoint ignite {A} (get_map : Segment → smap R) (put_map : smap R → Segment → Segment) (launchers : smap A) : M Segment () :=
  match launchers with
  | [] => mret ()
  | (name, _) :: rest =>
      s ← get;
      put (put_map (smap_set name (ignition (s_address s) name) (get_map s)) s) ;;
      (if reported (s_address s) name then completion_callback false else mret ()) ;;
      ignite get_map put_map rest
  end.

Definition segment_start : M Segment () :=
  s ← get;
  let b := s_builder s in
  egress ← lift (prepare_all prepare_egress (m_egress_ports b));
  ingress ← lift (prepare_all prepare_ingress (m_ingress_ports b));
  put (set_builder (mkBuilder (m_objects b) (m_nodes b) ingress egress) s) ;;
  ignite m_egress_runners put_egress egress ;;
  ignite m_runners put_nodes (m_nodes b) ;;
  ignite m_ingress_runners put_ingress ingress.

(** Running a blocking runner method on every runner of a map, in order. *)
Fixpoint live_runners (rs : smap R) : res () * smap R :=
  match rs with
  | [] => (Ret (), [])
  | (n, r) :: rest =>
      match runner_await_live r with
      | (Ret _, r') => let '(x, rest') := live_runners rest in (x, (n, r') :: rest')
      | (e, r') => (e, (n, r') :: rest)
      end
  end.
Definition on_map (get_map : Segment → smap R) (put_map : smap R → Segment → Segment) (f : smap R → res () * smap R) : M Segment () :=
  λ s, let '(x, rs) := f (get_map s) in (x, put_map rs s).
Definition segment_await_live : M Segment () :=
  on_map m_ingress_runners put_ingress live_runners ;;
  on_map m_runners put_nodes live_runners ;;
  on_map m_egress_runners put_egress live_runners.

(** The [check] lambda: exceptions are caught and the first one is kept. *)
Fixpoint join_runners (rs : smap R) (first : option string) : res (option string) * smap R :=
  match rs with
  | [] => (Ret first, [])
  | (n, r) :: rest =>
      match runner_await_join r with
      | (Ret _, r') => let '(x, rest') := join_runners rest first in (x, (n, r') :: rest')
      | (Throw e, r') =>
          let '(x, rest') := join_runners rest (match first with None => Some e | Some _ => first end) in (x, (n, r') :: rest')
      | (Abort w, r') => (Abort w, (n, r') :: rest)
      | (Undefined w, r') => (Undefined w, (n, r') :: rest)
      end
  end.
Definition join_map (get_map : Segment → smap R) (put_map : smap R → Segment → Segment) (first : option string) : M Segment (option string) :=
  λ s, let '(x, rs) := join_runners (get_map s) first in (x, put_map rs s).
Definition segment_await_join : M Segment () :=
  f ← join_map m_ingress_runners put_ingress None;
  f ← join_map m_runners put_nodes f;
  f ← join_map m_egress_runners put_egress f;
  lift (match f with Some e => Throw e | None => Ret () end).

#[export] Instance segment_service : Service Segment := {
  m_state := s_state;
  set_m_state := set_state;
  do_service_start := segment_start;
  do_service_await_live := segment_await_live;
  do_service_stop := segment_stop;
  do_service_kill := segment_kill;
  do_service_await_join := segment_await_join;
}.
Lemma callback_kills : completion_callback false = service_kill.
Proof. done. Qed.

(** ** Manifolds *)
(** [attach_manifold]: the manifold is shared with the pipeline, so its new
    state is returned. *)
Definition attach_manifold (m : Manifold (D := D)) (s : Segment) : res (Manifold (D := D) * Segment) :=
  let n := m_port_name m in
  let b := s_builder s in
  match smap_find n (m_egress_ports b) with
  | Some p =>
      check (port_held p) "m_sink" ;;
      check (negb (m_manifold_connected p)) "!m_manifold_connected" ;;
      Ret (add_input (port_address p) m,
           set_builder (mkBuilder (m_objects b) (m_nodes b) (m_ingress_ports b)
             (smap_set n (mkPort (port_address p) (port_name p) true (port_held p)) (m_egress_ports b))) s)
  | None =>
      match smap_find n (m_ingress_ports b) with
      | Some p => check (port_held p) "m_source" ;; Ret (add_output (port_address p) m, s)
      | None => Throw "invalid manifold for segment"
      end
  end.
Definition create_manifold (name : string) (s : Segment) : res (Manifold (D := D)) :=
  match smap_find name (m_egress_ports (s_builder s)), smap_find name (m_ingress_ports (s_builder s)) with
  | None, None => Abort "unable to match ingress or egress port name"
  | _, _ => Ret (Manifold_new name)
  end.
End segment.
Arguments Segment : clear implicits.

(** ** Port names *)
Lemma size_set_NoDup {A} `{Countable A} (l : list A) :
  size (list_to_set l : gset A) = length l ↔ NoDup l.
Proof.
  split; [|apply size_list_to_set].
  induction l as [|x l IH]; intros Hs; [constructor|].
  assert (∀ l' : list A, (size (list_to_set l' : gset A) ≤ length l')%nat) as Hle.
  { intros l'. induction l' as [|y l' IH']; [done|]. cbn [list_to_set length].
    rewrite size_union_alt, size_singleton.
    assert (size (list_to_set l' ∖ {[y]} : gset A) ≤ size (list_to_set l' : gset A))%nat by (apply subseteq_size; set_solver). lia. }
  pose proof (Hle l) as Hl. cbn [list_to_set length] in Hs. destruct (decide (x ∈ l)) as [Hx|Hx].
  - rewrite (subseteq_union_1_L {[x]}) in Hs by set_solver. lia.
  - rewrite size_union, size_singleton in Hs by set_solver. constructor; [done|]. apply IH. lia.
Qed.

(** A segment definition is accepted exactly when its ingress and egress port
    names are pairwise distinct and so are the 16-bit ids they hash to. *)
Theorem validate_ports_spec d :
  let names := (ingress_port_names d ++ egress_port_names d)%list in
  if decide (NoDup names ∧ NoDup (port_name_hash <$> names))
  then Definition_new d = Ret d else ∃ e, Definition_new d = Throw e.
Proof.
  cbv zeta. unfold Definition_new, validate_ports, ingress_port_names, egress_port_names.
  set (names := (m_ingress_initializers d ++ m_egress_initializers d)%list).
  destruct (decide (NoDup names)) as [Hn|Hn].
  - rewrite (bool_decide_true (size (list_to_set names : gset string) = length names)) by (by apply size_set_NoDup). simpl.
    destruct (decide (NoDup (port_name_hash <$> names))) as [Hh|Hh].
    + rewrite (bool_decide_true (_ = _)) by (rewrite <-(length_fmap port_name_hash); by apply size_set_NoDup).
      by rewrite decide_True.
    + rewrite (bool_decide_false (_ = _)) by (rewrite <-(length_fmap port_name_hash); intros ?%size_set_NoDup; done).
      rewrite decide_False by tauto. by eexists.
  - rewrite (bool_decide_false (size (list_to_set names : gset string) = length names)) by (by intros ?%size_set_NoDup).
    rewrite decide_False by tauto. by eexists.
Qed.

(** ** The service interface *)
Section proofs.
Context {R : Type} `{RunnerI R} `{Ignition R}.

Lemma on_map_state g p f (s : Segment R) : (∀ rs s, s_state (p rs s) = s_state s) → s_state (on_map g p f s).2 = s_state s.
Proof. intros Hp. unfold on_map. destruct (f (g s)). apply Hp. Qed.
Lemma join_map_state g p first (s : Segment R) : (∀ rs s, s_state (p rs s) = s_state s) → s_state (join_map g p first s).2 = s_state s.
Proof. intros Hp. unfold join_map. destruct (join_runners _ _). apply Hp. Qed.
Lemma bind_state {A B} (m : M (Segment R) A) (f : A → M (Segment R) B) :
  (∀ s, s_state (m s).2 = s_state s) → (∀ a s, s_state (f a s).2 = s_state s) → ∀ s, s_state ((m ≫= f) s).2 = s_state s.
Proof.
  intros Hm Hf s. unfold mbind, M_bind. specialize (Hm s). destruct (m s) as [[a|?|?|?] s']; simpl in *; [|done..].
  by rewrite Hf.
Qed.

(** ** Starting *)
(** The names under which a segment ignites its launchers, in order. *)
Definition launch_names (b : Builder) : list string := ((m_egress_ports b).*1 ++ (m_nodes b).*1 ++ (m_ingress_ports b).*1)%list.
Definition puts (p : smap R → Segment R → Segment R) : Prop :=
  ∀ rs s, s_state (p rs s) = s_state s ∧ s_address (p rs s) = s_address s ∧ s_builder (p rs s) = s_builder s.
(** What a report does to the state. *)
Definition killed_if (b : bool) (st : ServiceState) : ServiceState := if b && ss_lt st Killing then Killing else st.
Lemma killed_twice b b' st : killed_if b' (killed_if b st) = killed_if (b || b') st.
Proof. by destruct b, b', st. Qed.
Lemma killed_le b st : ss_le st (killed_if b st) = true.
Proof. by destruct b, st. Qed.
Lemma callback_runs (s : Segment R) : ∃ s', completion_callback false s = (Ret (), s') ∧
  s_state s' = killed_if true (s_state s) ∧ s_address s' = s_address s ∧ s_builder s' = s_builder s.
Proof. unfold completion_callback, mbind, M_bind, get, killed_if. destruct (ss_lt (s_state s) Killing); by eexists. Qed.
(** Igniting launchers ends, and the segment is being killed afterwards when one of the
    runners reported a failure meanwhile. *)
Lemma ignite_runs {A} g p (l : smap A) (s : Segment R) : puts p → ∃ s', ignite g p l s = (Ret (), s') ∧
  s_state s' = killed_if (existsb (reported (s_address s)) l.*1) (s_state s) ∧ s_address s' = s_address s ∧ s_builder s' = s_builder s.
Proof.
  intros Hp. revert s. induction l as [|[name v] l IH]; intros s; [by exists s|].
  cbn [ignite fmap list_fmap existsb fst]. unfold mbind at 1, M_bind at 1, get. unfold mbind at 1, M_bind at 1, put.
  destruct (Hp (smap_set name (ignition (s_address s) name) (g s)) s) as (E1 & E2 & E3). set (s1 := p _ s) in *.
  assert (∃ s2, (if reported (s_address s) name then completion_callback false else mret ()) s1 = (Ret (), s2) ∧
    s_state s2 = killed_if (reported (s_address s) name) (s_state s) ∧ s_address s2 = s_address s ∧ s_builder s2 = s_builder s) as (s2 & Es & F1 & F2 & F3).
  { destruct (reported _ _); [|by exists s1]. destruct (callback_runs s1) as (s2 & ? & ? & ? & ?). exists s2. split_and!; congruence. }
  unfold mbind, M_bind. rewrite Es. destruct (IH s2) as (s3 & E & G1 & G2 & G3). exists s3. split; [exact E|]. rewrite G1, F1, F2, killed_twice. split_and!; congruence.
Qed.
(** What follows the preparation of the launchers. *)
Lemma ignite_all_runs {A B C} (l1 : smap A) (l2 : smap B) (l3 : smap C) (s : Segment R) :
  ∃ s', (ignite m_egress_runners put_egress l1 ;; ignite m_runners put_nodes l2 ;; ignite m_ingress_runners put_ingress l3) s = (Ret (), s') ∧
    s_state s' = killed_if (existsb (reported (s_address s)) (l1.*1 ++ l2.*1 ++ l3.*1)%list) (s_state s) ∧ s_address s' = s_address s ∧ s_builder s' = s_builder s.
Proof.
  destruct (ignite_runs m_egress_runners put_egress l1 s) as (s1 & E1 & A1 & A2 & A3); [done|].
  destruct (ignite_runs m_runners put_nodes l2 s1) as (s2 & E2 & B1 & B2 & B3); [done|].
  destruct (ignite_runs m_ingress_runners put_ingress l3 s2) as (s3 & E3 & C1 & C2 & C3); [done|].
  exists s3. split; [unfold mbind, M_bind; by rewrite E1, E2|]. rewrite C1, B1, A1, B2, A2, !killed_twice, !existsb_app, orb_assoc. split_and!; congruence.
Qed.

#[export] Instance segment_service_laws : ServiceLaws (Segment R).
Proof.
  split.
  - done.
  - by intros [].
  - intros s. simpl. unfold segment_start, mbind at 1, M_bind at 1, get. assert (ss_le (s_state s) (s_state s) = true) as Hle by (by destruct (s_state s)).
    unfold mbind at 1, M_bind at 1, lift. destruct (prepare_all _ _) as [eg|?|?|?]; try done. unfold mbind at 1, M_bind at 1. destruct (prepare_all _ _) as [ing|?|?|?]; try done.
    unfold mbind at 1, M_bind at 1, put. destruct (ignite_all_runs eg (m_nodes (s_builder s)) ing (set_builder (mkBuilder (m_objects (s_builder s)) (m_nodes (s_builder s)) ing eg) s)) as (s' & E & Hs & _).
    rewrite E. simpl in *. rewrite Hs. apply killed_le.
  - done.
  - done.
  - apply bind_state; [intros; by apply join_map_state|]. intros f.
    apply bind_state; [intros; by apply join_map_state|]. intros f'.
    apply bind_state; [intros; by apply join_map_state|]. done.
Qed.

(** ** Joining *)
Definition thrown (r : R) : option string :=
  match (runner_await_join r).1 with Throw e => Some e | _ => None end.
Definition joins (r : R) : Prop :=
  (runner_await_join r).1 = Ret () ∨ ∃ e, (runner_await_join r).1 = Throw e.
Definition after_join (rs : smap R) : smap R := (λ kv, (kv.1, (runner_await_join kv.2).2)) <$> rs.
Definition first_thrown (rs : smap R) (first : option string) : option string :=
  match first with Some e => Some e | None => head (omap (λ kv, thrown kv.2) rs) end.

Lemma join_runners_spec rs first :
  Forall (λ kv : string * R, joins kv.2) rs →
  join_runners rs first = (Ret (first_thrown rs first), after_join rs).
Proof.
  intros Hj. revert first. induction Hj as [|[n r] rs Hr _ IH]; intros first; simpl; [by destruct first|].
  unfold first_thrown, thrown, joins in *. simpl in *.
  destruct (runner_await_join r) as [x r'] eqn:E. simpl in Hr. destruct Hr as [->|[e ->]]; rewrite IH; simpl.
  - done.
  - by destruct first.
Qed.

(** Joining a segment joins every one of its runners - ingress ports, nodes,
    egress ports - even when some of them fail, and then rethrows the first
    failure in that order. *)
Theorem segment_join_all (s : Segment R) :
  let all := (m_ingress_runners s ++ m_runners s ++ m_egress_runners s)%list in
  Forall (λ kv : string * R, joins kv.2) all →
  segment_await_join s =
    (match first_thrown all None with Some e => Throw e | None => Ret () end,
     set_runners (after_join (m_runners s)) (after_join (m_egress_runners s)) (after_join (m_ingress_runners s)) s).
Proof.
  cbv zeta. rewrite !Forall_app. intros (Hi & Hn & He). unfold segment_await_join, mbind, M_bind, join_map.
  rewrite (join_runners_spec _ _ Hi). simpl. rewrite (join_runners_spec _ _ Hn). simpl.
  rewrite (join_runners_spec _ _ He). simpl. unfold lift. f_equal.
  unfold first_thrown. rewrite !omap_app, !head_app. by repeat case_match; simplify_eq.
Qed.

(** ** A failure while the segment starts *)
Lemma map_runners_find f (rs : smap R) n : smap_find n (map_runners f rs) = f <$> smap_find n rs.
Proof. induction rs as [|[k r] rs IH]; simpl; [done|]. by destruct (String.eqb n k). Qed.
Lemma map_runners_ok f (rs : smap R) : smap_ok rs → smap_ok (map_runners f rs).
Proof. unfold smap_ok, map_runners. by rewrite <-list_fmap_compose. Qed.
(** Once it is being killed, the segment ignites the nodes that are left, and kills none. *)
Lemma ignite_killing {A} (l : smap A) (s : Segment R) : s_state s = Killing → smap_ok (m_runners s) →
  ∃ s', ignite m_runners put_nodes l s = (Ret (), s') ∧ s_state s' = Killing ∧
    ∀ n, smap_find n (m_runners s') = if decide (n ∈ l.*1) then Some (ignition (s_address s) n) else smap_find n (m_runners s).
Proof.
  revert s. induction l as [|[k v] l IH]; intros s Hst Hok; [exists s; split_and!; try done; intros n; by rewrite decide_False by set_solver|].
  cbn [ignite]. unfold mbind at 1, M_bind at 1, get. unfold mbind at 1, M_bind at 1, put. set (s1 := put_nodes _ s).
  assert ((if reported (s_address s) k then completion_callback false else mret ()) s1 = (Ret (), s1)) as E
    by (destruct (reported _ _); [|done]; unfold completion_callback, mbind, M_bind, get; simpl; by rewrite Hst).
  unfold mbind, M_bind. rewrite E. destruct (IH s1) as (s2 & -> & Hst2 & Hf); [done|by apply smap_set_ok|]. exists s2. split_and!; try done. intros n. rewrite Hf. simpl.
  rewrite smap_find_set by done. destruct (String.eqb_spec n k) as [->|Hne]; repeat case_decide; try done; set_solver.
Qed.
(** A node failure reported while the start hook is still igniting runners
    kills only the runners ignited so far: a node ignited later runs on unkilled, and no
    later [service_kill] reaches it, because the segment is already Killing. *)
Theorem kill_during_start_misses (s : Segment R) (before after : smap ()) k n :
  s_state s = Running → smap_ok (m_runners s) → (∀ x, x ∈ before.*1 → reported (s_address s) x = false) → reported (s_address s) k = true → n ∈ after.*1 →
  ∃ s', ignite m_runners put_nodes (before ++ (k, ()) :: after)%list s = (Ret (), s') ∧ s_state s' = Killing ∧
  smap_find n (m_runners s') = Some (ignition (s_address s) n) ∧ service_kill s' = (Ret (), s').
Proof.
  revert s. induction before as [|[x v] before IH]; intros s Hst Hok Hb Hk Hn.
  - cbn [ignite app]. unfold mbind at 1, M_bind at 1, get. unfold mbind at 1, M_bind at 1, put. rewrite Hk.
    set (s1 := put_nodes (smap_set k (ignition (s_address s) k) (m_runners s)) s). set (s2 := (segment_kill (set_state Killing s1)).2).
    assert (completion_callback false s1 = (Ret (), s2)) as E by (unfold completion_callback, mbind, M_bind, get; simpl; by rewrite Hst).
    unfold mbind, M_bind. rewrite E. destruct (ignite_killing after s2) as (s3 & -> & Hst3 & Hf); [done|apply map_runners_ok; by apply smap_set_ok|].
    exists s3. split_and!; [done|done|by rewrite Hf, decide_True|]. unfold service_kill, mbind, M_bind, get. simpl. by rewrite Hst3.
  - cbn [ignite app]. unfold mbind at 1, M_bind at 1, get. unfold mbind at 1, M_bind at 1, put. rewrite (Hb x) by (by left). unfold mbind, M_bind, mret, M_ret.
    set (s1 := put_nodes _ s). destruct (IH s1) as (s' & E & ?); [done|by apply smap_set_ok| |done|done|by exists s']. intros y Hy. apply Hb. by right.
Qed.
End proofs.

(** ** Running it *)
(** A runner that only remembers what was asked of it. *)
Inductive toy_runner := Ignited (fails : option string) | Stopped (fails : option string) | Killed (fails : option string) | Joined_.
#[global] Instance toy : RunnerI toy_runner := {
  runner_stop r := match r with Ignited f => Stopped f | _ => r end;
  runner_kill r := match r with Ignited f | Stopped f => Killed f | _ => r end;
  runner_await_live r := (Ret (), r);
  runner_await_join r :=
    match r with
    | Ignited (Some e) | Stopped (Some e) | Killed (Some e) => (Throw e, Joined_)
    | _ => (Ret (), Joined_)
    end;
}.
(** The node "bad" reports a failure as soon as it is ignited. *)
#[global] Instance toy_ignition : Ignition toy_runner := {| ignition address name := Ignited None; reported address name := String.eqb name "bad" |}.
Definition toy_segment : Segment toy_runner :=
  mkSegment Running "seg" 1 0 65536 (mkBuilder [] [] [] []) 0
    [("a", Ignited (Some "late")); ("b", Ignited None)] [("out", Ignited (Some "egress"))] [("in", Ignited None)].

Lemma segment_join_all_witness :
  segment_await_join toy_segment =
    (Throw "late", set_runners (after_join (m_runners toy_segment)) (after_join (m_egress_runners toy_segment))
                     (after_join (m_ingress_runners toy_segment)) toy_segment).
Proof.
  etransitivity; [apply (segment_join_all toy_segment)|vm_compute; reflexivity].
  repeat (apply Forall_cons; split); [..|apply Forall_nil_2]; (left; reflexivity) || (right; eexists; reflexivity).
Defined.

Definition toy_started : Segment toy_runner := mkSegment Running "seg" 1 0 65536 (mkBuilder [] [] [] []) 0 [] [] [].
Lemma kill_during_start_misses_witness :
  ∃ s', ignite m_runners put_nodes [("a", ()); ("bad", ()); ("b", ())] toy_started = (Ret (), s') ∧ s_state s' = Killing ∧
  smap_find "b" (m_runners s') = Some (Ignited None) ∧ service_kill s' = (Ret (), s').
Proof.
  refine (kill_during_start_misses toy_started [("a", ())] [("b", ())] "bad" "b" _ _ _ _ _); [reflexivity|constructor| |reflexivity|apply list_elem_of_here].
  intros x Hx. apply list_elem_of_singleton in Hx as ->. reflexivity.
Defined.
