(* ===== verification/Pipeline.v ===== *)
(** * Pipelines

    Models [src/internal/pipeline]: [pipeline.cpp] (the registry of segment
    definitions), [instance.cpp] (a running pipeline: its segments and manifolds,
    as a [Service]), [controller.cpp] (applying a new assignment of segments to
    partitions) and the messages of [manager.cpp].

    The work that the code enqueues on a partition's main thread and awaits at
    once is run in place. *)
From Stdlib Require Import Strings.String.
From S2P Require Import Prelude SortedZ StdMap Addresses Manifold Service Segment.
Local Open Scope string_scope.
Local Open Scope Z_scope.

(** ** Pipeline *)
Record Pipeline := mkPipeline {
  m_segment_hasher : CollisionDetector;
  m_port_hasher : CollisionDetector;
  m_definitions : imap Definition_;
}.
Definition Pipeline_new : Pipeline := mkPipeline ∅ ∅ [].

Fixpoint register_ports (names : list string) (p : Pipeline) : res () * Pipeline :=
  match names with
  | [] => (Ret (), p)
  | n :: rest =>
      match register_name n (m_port_hasher p) with
      | Ret (_, h) => register_ports rest (mkPipeline (m_segment_hasher p) h (m_definitions p))
      | Throw e => (Throw e, p) | Abort w => (Abort w, p) | Undefined w => (Undefined w, p)
      end
  end.

Definition add_segment (segment : Definition_) : M Pipeline () :=
  p ← get;
  '(id, h) ← lift (register_name (d_name segment) (m_segment_hasher p));
  put (mkPipeline h (m_port_hasher p) (m_definitions p)) ;;
  lift (throw_if (bool_decide (is_Some (imap_find id (m_definitions p)))) "duplicate segment registration") ;;
  register_ports (ingress_port_names segment) ;;
  register_ports (egress_port_names segment) ;;
  modify (λ p, mkPipeline (m_segment_hasher p) (m_port_hasher p) (imap_set id segment (m_definitions p))).

Definition find_segment (segment_id : Z) (p : Pipeline) : res Definition_ :=
  match imap_find segment_id (m_definitions p) with Some d => Ret d | None => Abort "search != m_segments.end()" end.

Section pipeline.
Context {R : Type} `{RunnerI R} `{Ignition R} {D : Type} (shuffle : list Z → list Z).

(** ** Instance *)
Record Instance_ := mkInstance {
  i_state : ServiceState;
  i_definition : Pipeline;
  i_partitions : Z;                           (* resources().partitions() *)
  i_segments : imap (Segment R);
  i_manifolds : smap (Manifold (D := D));
  i_joinable : bool;
}.
Definition Instance_new (definition : Pipeline) (partitions : Z) : Instance_ :=
  mkInstance Initialized definition partitions [] [] false.
Definition set_segments (l : imap (Segment R)) (i : Instance_) : Instance_ :=
  mkInstance (i_state i) (i_definition i) (i_partitions i) l (i_manifolds i) (i_joinable i).
Definition set_manifolds (l : smap (Manifold (D := D))) (i : Instance_) : Instance_ :=
  mkInstance (i_state i) (i_definition i) (i_partitions i) (i_segments i) l (i_joinable i).
Definition set_istate (st : ServiceState) (i : Instance_) : Instance_ :=
  mkInstance st (i_definition i) (i_partitions i) (i_segments i) (i_manifolds i) (i_joinable i).

Definition mark_joinable : M Instance_ () :=
  modify (λ i, mkInstance (i_state i) (i_definition i) (i_partitions i) (i_segments i) (i_manifolds i) true).

(** Calling a method of the segment at an address. *)
Definition on_segment {A} (address : Z) (op : M (Segment R) A) : M Instance_ A :=
  λ i, match imap_find address (i_segments i) with
       | None => (Abort "search != m_segments.end()", i)
       | Some s => let '(x, s') := op s in (x, set_segments (imap_set address s' (i_segments i)) i)
       end.

(** A runner of the segment at an address, if it was started, ends with a failure: its
    completion callback is called. *)
Definition runner_fails (address : Z) : M Instance_ () :=
  i ← get;
  match imap_find address (i_segments i) with
  | Some s => if bool_decide (s_state s = Initialized) then mret () else on_segment address (completion_callback false)
  | None => mret ()
  end.

Definition remove_segment (address : Z) : M Instance_ () :=
  i ← get;
  lift (check (bool_decide (is_Some (imap_find address (i_segments i)))) "search != m_segments.end()") ;;
  put (set_segments (imap_erase address (i_segments i)) i).
Definition join_segment (address : Z) : M Instance_ () := on_segment address service_await_join.
Definition stop_segment (address : Z) : M Instance_ () :=
  i ← get;
  lift (check (bool_decide (is_Some (imap_find address (i_segments i)))) "search != m_segments.end()") ;;
  lift (find_segment (segment_address_decode address).1 (i_definition i)) ;;
  on_segment address service_stop.

(** One port of [create_segment]: find or create its manifold and attach it. *)
Definition connect_port (name : string) (ms : smap (Manifold (D := D))) (s : Segment R) : res (smap (Manifold (D := D)) * Segment R) :=
  m ← match smap_find name ms with
      | Some m => Ret m
      | None => create_manifold name s
      end;
  '(m, s) ← attach_manifold m s;
  Ret (smap_set name m ms, s).
Fixpoint connect_ports (names : list string) (ms : smap (Manifold (D := D))) (s : Segment R) : res (smap (Manifold (D := D)) * Segment R) :=
  match names with
  | [] => Ret (ms, s)
  | n :: rest => '(ms, s) ← connect_port n ms s; connect_ports rest ms s
  end.

Definition create_segment (address partition_id : Z) : M Instance_ () :=
  i ← get;
  lift (check (partition_id <? i_partitions i) "partition_id < resources().partitions()") ;;
  lift (check (bool_decide (imap_find address (i_segments i) = None)) "search == m_segments.end()") ;;
  let '(id, rank) := segment_address_decode address in
  definition ← lift (find_segment id (i_definition i));
  s ← lift (Segment_new definition rank partition_id);
  '(ms, s) ← lift (connect_ports (egress_port_names definition ++ ingress_port_names definition)%list (i_manifolds i) s);
  put (set_segments (imap_set address s (i_segments i)) (set_manifolds ms i)).

Fixpoint update_manifolds (ms : smap (Manifold (D := D))) : res (smap (Manifold (D := D))) :=
  match ms with
  | [] => Ret []
  | (n, m) :: rest =>
      m ← update_outputs shuffle (update_inputs m);
      rest ← update_manifolds rest;
      Ret ((n, start m) :: rest)
  end.

Fixpoint for_segments (op : Z → M Instance_ ()) (addresses : list Z) : M Instance_ () :=
  match addresses with
  | [] => mret ()
  | a :: rest => op a ;; for_segments op rest
  end.
Definition addresses (i : Instance_) : list Z := (i_segments i).*1.

Definition update : M Instance_ () :=
  i ← get;
  ms ← lift (update_manifolds (i_manifolds i));
  put (set_manifolds ms i) ;;
  i ← get;
  for_segments (λ a, on_segment a (service_start ;; service_await_live)) (addresses i) ;;
  mark_joinable.

Definition instance_stop : M Instance_ () :=
  mark_joinable ;;
  i ← get;
  for_segments stop_segment (addresses i).
Definition instance_kill : M Instance_ () :=
  mark_joinable ;;
  i ← get;
  for_segments (λ a, stop_segment a ;; on_segment a service_kill) (addresses i).

(** Exceptions of the segments are caught; the first one is kept. *)
Fixpoint join_segments (l : list Z) (first : option string) : M Instance_ (option string) :=
  match l with
  | [] => mret first
  | a :: rest =>
      λ i, match on_segment a service_await_join i with
           | (Ret _, i') => join_segments rest first i'
           | (Throw e, i') => join_segments rest (match first with None => Some e | Some _ => first end) i'
           | (Abort w, i') => (Abort w, i')
           | (Undefined w, i') => (Undefined w, i')
           end
  end.
(** The joinable future blocks until another thread updates, stops or kills the
    pipeline; that has no outcome here. *)
Definition await_joinable : M Instance_ () :=
  i ← get; lift (if i_joinable i then Ret () else Undefined "blocks until mark_joinable").
Definition instance_await_join : M Instance_ () :=
  await_joinable ;;
  i ← get;
  f ← join_segments (addresses i) None;
  lift (match f with Some e => Throw e | None => Ret () end).

#[export] Instance instance_service : Service Instance_ := {
  m_state := i_state;
  set_m_state := set_istate;
  do_service_start := mret ();
  do_service_await_live := await_joinable;
  do_service_stop := instance_stop;
  do_service_kill := instance_kill;
  do_service_await_join := instance_await_join;
}.

(** ** Controller *)
Inductive ControlMessage := Update (addresses : imap Z) | StopMessage | KillMessage.
Record Controller := mkController { c_pipeline : Instance_; m_current_segments : imap Z }.

Definition on_pipeline {A} (op : M Instance_ A) : M Controller A :=
  λ c, let '(x, i) := op (c_pipeline c) in (x, mkController i (m_current_segments c)).

Definition Controller_new (pipeline : Instance_) : res () * Controller :=
  let '(x, i) := service_start pipeline in (x, mkController i []).

(** [std::set_difference] of the keys. *)
Definition key_difference (m1 m2 : imap Z) : list Z := filter (λ a, a ∉ m2.*1) m1.*1.

Fixpoint create_segments (l : list Z) (new_segments_map : imap Z) : M Controller () :=
  match l with
  | [] => mret ()
  | a :: rest =>
      p ← lift (match imap_find a new_segments_map with Some p => Ret p | None => Throw "std::out_of_range" end);
      on_pipeline (create_segment a p) ;;
      create_segments rest new_segments_map
  end.
Fixpoint stop_segments (l : list Z) : M Controller () :=
  match l with
  | [] => mret ()
  | a :: rest => on_pipeline (stop_segment a) ;; stop_segments rest
  end.
Definition controller_update (new_segments_map : imap Z) : M Controller () :=
  c ← get;
  create_segments (key_difference new_segments_map (m_current_segments c)) new_segments_map ;;
  stop_segments (key_difference (m_current_segments c) new_segments_map) ;;
  on_pipeline update ;;
  modify (λ c, mkController (c_pipeline c) new_segments_map).

Definition on_data (message : ControlMessage) : M Controller () :=
  match message with
  | Update addresses => controller_update addresses
  | StopMessage => on_pipeline service_stop
  | KillMessage => on_pipeline service_kill
  end.
Definition await_on_pipeline : M Controller () := on_pipeline service_await_join.
End pipeline.
Arguments Instance_ : clear implicits.
Arguments Controller : clear implicits.

(** ** Segments under the operations of a pipeline *)
Section proofs.
Context {R : Type} `{RunnerI R} `{Ignition R} {D : Type} (shuffle : list Z → list Z).
Implicit Types (i : Instance_ R D) (c : Controller R D).

(** Segment [a] is in state [st]. *)
Definition seg_in (a : Z) (st : ServiceState) i : Prop :=
  imap_ok (i_segments i) ∧ ∃ s, imap_find a (i_segments i) = Some s ∧ s_state s = st.

Lemma on_segment_other {A} a b (op : M (Segment R) A) st :
  a ≠ b → returns (seg_in a st) (on_segment (D := D) b op) (λ _, seg_in a st).
Proof.
  intros Hne i x i' [Hok (s & Hs & Hst)]. unfold on_segment.
  destruct (imap_find b (i_segments i)) as [sb|] eqn:Eb; [|done]. destruct (op sb) as [y sb'].
  intros [= -> <-]. split; [by apply imap_set_ok|]. exists s. split; [|done]. simpl. rewrite imap_find_set by done.
  by rewrite decide_False.
Qed.

(** A failure that is reported while the pipeline works on another segment may as well be
    reported before or after. *)
Lemma runner_fails_commutes {A} a b (op : M (Segment R) A) i : imap_ok (i_segments i) → a ≠ b →
  on_segment a op (runner_fails b i).2 = ((on_segment a op i).1, (runner_fails b (on_segment a op i).2).2).
Proof.
  intros Hok Hne. assert (∀ i', runner_fails b i' = match imap_find b (i_segments i') with
    | Some s => if bool_decide (s_state s = Initialized) then (Ret (), i') else let '(x, s') := completion_callback false s in (x, set_segments (imap_set b s' (i_segments i')) i')
    | None => (Ret (), i') end) as Hrf.
  { intros i'. unfold runner_fails, mbind, M_bind, get. destruct (imap_find b (i_segments i')) as [s|] eqn:E; [|done]. case_bool_decide; [done|]. unfold on_segment. by rewrite E. }
  assert (∀ s, imap_find b (imap_set a s (i_segments i)) = imap_find b (i_segments i)) as Hb by (intros s; rewrite imap_find_set, decide_False by done; done).
  rewrite !Hrf. clear Hrf. generalize (completion_callback (R := R) false). intros cb. destruct (imap_find a (i_segments i)) as [sa|] eqn:Ea.
  - assert (on_segment a op i = ((op sa).1, set_segments (imap_set a (op sa).2 (i_segments i)) i)) as Eon by (unfold on_segment; rewrite Ea; by destruct (op sa)).
    rewrite Eon. simpl. rewrite Hb. destruct (imap_find b (i_segments i)) as [sb|]; simpl; [|done]. case_bool_decide; simpl; [done|].
    destruct (cb sb) as [y sb']. unfold on_segment. simpl. rewrite imap_find_set, decide_False, Ea by done. destruct (op sa). by rewrite imap_set_comm.
  - assert (on_segment a op i = (Abort "search != m_segments.end()", i)) as Eon by (unfold on_segment; by rewrite Ea).
    rewrite Eon. simpl. destruct (imap_find b (i_segments i)) as [sb|]; simpl; [|done]. case_bool_decide; simpl; [done|].
    destruct (cb sb) as [y sb']. unfold on_segment. simpl. by rewrite imap_find_set, decide_False, Ea.
Qed.

(** A method that moves a segment from [st] to [st']. *)
Lemma on_segment_here {A} a (op : M (Segment R) A) st st' :
  (∀ s x s', s_state s = st → op s = (Ret x, s') → s_state s' = st') →
  returns (seg_in a st) (on_segment (D := D) a op) (λ _, seg_in a st').
Proof.
  intros Hop i x i' [Hok (s & Hs & Hst)]. unfold on_segment. rewrite Hs. destruct (op s) as [y s'] eqn:E.
  intros [= -> <-]. split; [by apply imap_set_ok|]. exists s'. simpl. rewrite imap_find_set, decide_True by done. eauto.
Qed.

Lemma service_stop_state s x s' :
  s_state s = Running ∨ s_state s = Stopping → service_stop s = (Ret x, s') → s_state s' = Stopping.
Proof.
  intros [Hst|Hst].
  - rewrite service_stop_run by (cbn; by rewrite Hst). intros Hs.
    pose proof (do_stop_state (set_m_state Stopping s)) as Hd. rewrite Hs in Hd. exact Hd.
  - rewrite service_stop_skip by (cbn; by rewrite Hst). by intros [= _ <-].
Qed.

(** Stopping segment [b] does not affect the others. *)
Lemma stop_segment_returns a b st :
  st = Running ∨ st = Stopping →
  returns (seg_in a st) (stop_segment (R := R) (D := D) b) (λ _, seg_in a (if decide (a = b) then Stopping else st)).
Proof.
  intros Hst. unfold stop_segment. eapply returns_bind; [apply returns_get|]. intros i0.
  eapply returns_bind; [apply returns_lift|]. intros []. eapply returns_bind; [apply returns_lift|]. intros d. simpl.
  case_decide as E.
  - subst b. eapply returns_weaken; [apply (on_segment_here a service_stop st Stopping)|naive_solver|done].
    intros s x s' <-. by apply service_stop_state.
  - eapply returns_weaken; [by apply (on_segment_other a b)|naive_solver|done].
Qed.

Lemma create_segment_keeps a b p st :
  returns (seg_in a st) (create_segment (R := R) (D := D) b p) (λ _, seg_in a st).
Proof.
  unfold create_segment. eapply returns_bind; [apply returns_get|]. intros i0.
  eapply returns_bind; [apply returns_lift|]. intros []. eapply returns_bind; [apply returns_lift|]. intros [].
  destruct (segment_address_decode b) as [id rank].
  eapply returns_bind; [apply returns_lift|]. intros d. eapply returns_bind; [apply returns_lift|]. intros sg.
  eapply returns_bind; [apply returns_lift|]. intros [ms s'].
  intros i x i' Hpre. simpl in Hpre. destruct Hpre as (((((([Hok (s & Hs & Hst)] & ->) & _) & Hb) & _) & _) & _).
  unfold put. intros [= _ <-]. split; [by apply imap_set_ok|]. exists s. split; [|done]. simpl.
  rewrite imap_find_set by done. rewrite decide_False; [done|]. intros ->.
  unfold check in Hb. rewrite bool_decide_false in Hb by (by rewrite Hs). done.
Qed.

Lemma returns_on_pipeline {A} (P : Instance_ R D → Prop) (m : M (Instance_ R D) A) (Q : A → Instance_ R D → Prop) :
  returns P m Q → returns (λ c, P (c_pipeline c)) (on_pipeline m) (λ a c, Q a (c_pipeline c)).
Proof.
  intros Hm c a c' HP. unfold on_pipeline. destruct (m (c_pipeline c)) as [x i] eqn:E. intros [= -> <-]. by eapply Hm.
Qed.

Lemma create_segments_keeps a l new st :
  returns (λ c, seg_in a st (c_pipeline c)) (create_segments (R := R) (D := D) l new) (λ _ c, seg_in a st (c_pipeline c)).
Proof.
  induction l as [|b l IH]; simpl; [apply returns_skip|].
  eapply returns_bind; [apply returns_lift|]. intros p. simpl.
  eapply returns_bind with (Q := λ _ c, seg_in a st (c_pipeline c)); [|intros _; exact IH].
  eapply returns_weaken; [exact (returns_on_pipeline _ _ _ (create_segment_keeps a b p st))|naive_solver|done].
Qed.

Lemma stop_segments_returns a l st :
  st = Running ∨ st = Stopping →
  returns (λ c, seg_in a st (c_pipeline c)) (stop_segments (R := R) (D := D) l)
    (λ _ c, seg_in a (if decide (a ∈ l) then Stopping else st) (c_pipeline c)).
Proof.
  revert st. induction l as [|b l IH]; intros st Hst; cbn [stop_segments].
  { rewrite decide_False by set_solver. apply returns_skip. }
  eapply returns_bind with (Q := λ _ c, seg_in a (if decide (a = b) then Stopping else st) (c_pipeline c));
    [exact (returns_on_pipeline _ _ _ (stop_segment_returns a b st Hst))|]. intros _.
  eapply returns_weaken; [apply (IH (if decide (a = b) then Stopping else st)); destruct (decide (a = b)); [by right|done]|done|].
  intros ? c Hc. cbv beta in *. destruct (decide (a ∈ b :: l)) as [Hin|Hin].
  - destruct (decide (a ∈ l)); [done|]. rewrite decide_True in Hc by set_solver. done.
  - rewrite !decide_False in Hc by set_solver. done.
Qed.

Lemma start_stopping_fails (s : Segment R) x s' :
  s_state s = Stopping → (service_start ;; service_await_live) s ≠ (Ret x, s').
Proof.
  intros Hst. unfold mbind, M_bind, service_start, mbind, M_bind.
  destruct (forward_state_abort Running s) as [why Hab]; [cbn; by rewrite Hst|]. by rewrite Hab.
Qed.

Lemma update_stopping_fails a : returns (seg_in a Stopping) (update (R := R) (D := D) shuffle) (λ _ _, False).
Proof.
  unfold update. eapply returns_bind; [apply returns_get|]. intros i0.
  eapply returns_bind; [apply returns_lift|]. intros ms. simpl.
  eapply returns_bind with (Q := λ _, seg_in a Stopping).
  { intros i x i' [[Hseg ->] _]. unfold put. intros [= _ <-]. exact Hseg. }
  intros _. eapply returns_bind; [apply returns_get|]. intros i1. simpl.
  eapply returns_bind with (Q := λ _ _, False); [|by intros [] ? ? ? []].
  assert (∀ l, returns (seg_in a Stopping) (for_segments (λ b, on_segment (D := D) b (service_start ;; service_await_live)) l)
    (λ _ _, a ∉ l)) as Hloop.
  { induction l as [|b l IH]; cbn [for_segments]; [intros ? ? ? _ _; set_solver|].
    destruct (decide (a = b)) as [<-|Hne].
    - intros i x i' [Hok (s & Hs & Hst)]. unfold mbind at 1, M_bind at 1, on_segment. rewrite Hs.
      destruct ((service_start ;; service_await_live) s) as [[y|?|?|?] s'] eqn:E; simpl; try done.
      by destruct (start_stopping_fails s y s' Hst).
    - eapply returns_bind with (Q := λ _, seg_in a Stopping); [by apply (on_segment_other a b)|]. intros _.
      eapply returns_weaken; [exact IH|done|]. set_solver. }
  intros i x i' [Hseg ->] Hr. eapply Hloop in Hr; [|exact Hseg]. apply Hr.
  destruct Hseg as [_ (s & Hs & _)]. apply imap_find_key. by eexists.
Qed.

(** An update that drops a running segment never completes: the segment is
    stopped but stays in the pipeline, and the update then starts every segment
    of the pipeline, which the stopped one refuses by aborting the process. *)
Theorem update_removal_aborts c new a :
  a ∈ (m_current_segments c).*1 → a ∉ new.*1 → seg_in a Running (c_pipeline c) →
  (controller_update (R := R) (D := D) shuffle new c).1 ≠ Ret ().
Proof.
  intros Hcur Hnew Hseg Hr'. destruct (controller_update shuffle new c) as [x c'] eqn:Hr. simpl in Hr'. subst x.
  assert (returns (λ c0, seg_in a Running (c_pipeline c0) ∧ m_current_segments c0 = m_current_segments c)
    (controller_update (R := R) (D := D) shuffle new) (λ _ _, False)) as Hf; [|by eapply Hf].
  unfold controller_update. eapply returns_bind; [apply returns_get|]. intros c0. simpl.
  eapply returns_bind with (Q := λ _ c1, seg_in a Running (c_pipeline c1) ∧ m_current_segments c0 = m_current_segments c).
  { intros c1 x c2 [[Hs Hm] ->] Hc. split; [|done]. by eapply (create_segments_keeps a _ new Running). }
  intros _. eapply returns_bind with (Q := λ _ c1, seg_in a Stopping (c_pipeline c1)).
  { intros c1 x c2 [Hs Hm] Hc. eapply (stop_segments_returns a _ Running) in Hc; [|by left|done]. cbv beta in Hc.
    rewrite decide_True in Hc; [done|]. unfold key_difference. rewrite Hm. apply list_elem_of_filter. done. }
  intros _. eapply returns_bind with (Q := λ _ _, False); [|by intros [] ? ? ? []].
  exact (returns_on_pipeline _ _ _ (update_stopping_fails a)).
Qed.
End proofs.

(** ** Creating segments *)
(** A definition as the pipeline accepts it: validated port names, and an
    initializer that succeeds and (as the builder's interface has it) leaves the
    ports alone. *)
Definition definition_ok (d : Definition_) : Prop :=
  NoDup (egress_port_names d ++ ingress_port_names d)%list ∧
  ∀ b, ∃ b', m_backend_initializer d b = Ret b' ∧ m_ingress_ports b' = m_ingress_ports b ∧ m_egress_ports b' = m_egress_ports b.
Definition pipeline_ok (p : Pipeline) : Prop :=
  imap_ok (m_definitions p) ∧ ∀ id d, imap_find id (m_definitions p) = Some d → d_id d = id ∧ definition_ok d.

Lemma register_ports_definitions names p : m_definitions (register_ports names p).2 = m_definitions p.
Proof.
  revert p. induction names as [|n names IH]; intros p; simpl; [done|].
  destruct (register_name n (m_port_hasher p)) as [[? h]|?|?|?]; simpl; [by rewrite IH|done..].
Qed.

(** Registering a definition keeps the registry well formed. *)
Lemma add_segment_pipeline_ok d : definition_ok d → returns pipeline_ok (add_segment d) (λ _, pipeline_ok).
Proof.
  intros Hd. unfold add_segment. eapply returns_bind; [apply returns_get|]. intros p.
  eapply returns_bind; [apply returns_lift|]. intros [id h]. simpl.
  eapply returns_bind with (Q := λ _ p', id = d_id d ∧ pipeline_ok p').
  { intros ? [] p' [[Hp ->] Hr]. unfold put. intros [= <-]. split; [|done].
    revert Hr. unfold register_name, d_id. destruct (_ !! _); [destruct (String.eqb _ _); [|done]|]; by intros [= <- _]. }
  intros []. eapply returns_bind with (Q := λ _ p', id = d_id d ∧ pipeline_ok p'); [by intros p1 [] p2 Hp1 [= _ <-]|]. intros [].
  assert (∀ names, returns (λ p', id = d_id d ∧ pipeline_ok p') (register_ports names) (λ _ p', id = d_id d ∧ pipeline_ok p')) as Hreg.
  { intros names p1 [] p2 [? Hp] Hr. pose proof (register_ports_definitions names p1) as Hdef. rewrite Hr in Hdef. simpl in Hdef.
    unfold pipeline_ok. by rewrite Hdef. }
  eapply returns_bind; [apply Hreg|]. intros []. eapply returns_bind; [apply Hreg|]. intros [].
  intros p1 [] p2 [-> [Hok Hp]]. unfold modify. intros [= <-]. split; simpl; [by apply imap_set_ok|].
  intros id' d'. rewrite imap_find_set by done. case_decide; [by intros [= <-]; subst|apply Hp].
Qed.

Lemma smap_find_foldl {A} (f : string → A) names m n :
  smap_ok m → smap_find n (foldl (λ m k, smap_set k (f k) m) m names) =
    if decide (n ∈ names) then Some (f n) else smap_find n m.
Proof.
  revert m. induction names as [|k names IH]; intros m Hm; cbn [foldl]; [by rewrite decide_False by set_solver|].
  rewrite IH by (by apply smap_set_ok). rewrite smap_find_set by done.
  destruct (decide (n ∈ names)); [by rewrite decide_True by set_solver|].
  destruct (String.eqb_spec n k) as [->|]; [by rewrite decide_True by set_solver|by rewrite decide_False by set_solver].
Qed.
Lemma smap_ok_foldl {A} (f : string → A) names m :
  smap_ok m → smap_ok (foldl (λ m k, smap_set k (f k) m) m names).
Proof. revert m. induction names as [|k names IH]; intros m Hm; simpl; [done|]. apply IH. by apply smap_set_ok. Qed.

Lemma foldl_add_ingress a names b :
  m_ingress_ports (foldl (add_ingress a) b names) = foldl (λ m k, smap_set k (mkPort a k false true) m) (m_ingress_ports b) names ∧
  m_egress_ports (foldl (add_ingress a) b names) = m_egress_ports b.
Proof. revert b. induction names as [|k names IH]; intros b; simpl; [done|]. exact (IH (add_ingress a b k)). Qed.
Lemma foldl_add_egress a names b :
  m_egress_ports (foldl (add_egress a) b names) = foldl (λ m k, smap_set k (mkPort a k false true) m) (m_egress_ports b) names ∧
  m_ingress_ports (foldl (add_egress a) b names) = m_ingress_ports b.
Proof. revert b. induction names as [|k names IH]; intros b; simpl; [done|]. exact (IH (add_egress a b k)). Qed.

(** The ports of a fresh builder, by name. *)
Lemma Builder_new_ports d rank :
  definition_ok d → ∃ b, Builder_new d rank = Ret b ∧ smap_ok (m_egress_ports b) ∧ smap_ok (m_ingress_ports b) ∧
    (∀ n, smap_find n (m_egress_ports b) = if decide (n ∈ egress_port_names d) then Some (mkPort (segment_address_encode (d_id d) rank) n false true) else None) ∧
    (∀ n, smap_find n (m_ingress_ports b) = if decide (n ∈ ingress_port_names d) then Some (mkPort (segment_address_encode (d_id d) rank) n false true) else None).
Proof.
  intros [_ Hini]. unfold Builder_new. set (a := segment_address_encode _ _).
  set (b1 := foldl (add_ingress a) _ _). set (b2 := foldl (add_egress a) b1 _).
  destruct (Hini b2) as (b & -> & Hi & He). exists b. rewrite Hi, He.
  destruct (foldl_add_egress a (m_egress_initializers d) b1) as [He2 Hi2].
  destruct (foldl_add_ingress a (m_ingress_initializers d) (mkBuilder [] [] [] [])) as [Hi1 He1].
  fold b1 in Hi1, He1. fold b2 in He2, Hi2. rewrite He2, Hi2, He1, Hi1. simpl.
  assert (smap_ok ([] : smap Port)) by constructor.
  split_and!; [done|by apply (smap_ok_foldl (λ k, mkPort a k false true))|by apply (smap_ok_foldl (λ k, mkPort a k false true))|..]; intros n.
  - by rewrite (smap_find_foldl (λ k, mkPort a k false true)).
  - by rewrite (smap_find_foldl (λ k, mkPort a k false true)).
Qed.

Section update.
Context {R : Type} `{RunnerI R} `{Ignition R} {D : Type}.
Implicit Types (i : Instance_ R D) (c : Controller R D) (s : Segment R) (m : Manifold (D := D)).

(** The downstream addresses a manifold has or will have. *)
Definition knows m (x : Z) : Prop := x ∈ m_output_updates m ∨ is_Some (m_outputs (m_egress m) !! x).
Record manifold_ok (K : Z → Prop) (n : string) m : Prop := {
  mo_name : m_port_name m = n;
  mo_egress : egress_ok (m_egress m);
  mo_fresh : fresh (m_output_updates m) (m_egress m);
  mo_known : ∀ x, knows m x → K x;
}.

Lemma manifold_ok_new K n : manifold_ok K n (Manifold_new n).
Proof.
  split; [done|apply egress_ok_new|split; constructor|].
  intros x [Hx|[? Hx]]; simpl in Hx; [set_solver|by rewrite lookup_empty in Hx].
Qed.
Lemma manifold_ok_weaken (K K' : Z → Prop) n m : manifold_ok K n m → (∀ x, K x → K' x) → manifold_ok K' n m.
Proof. intros [] HK. split; auto. Qed.
Lemma manifold_ok_input K n a m : manifold_ok K n m → manifold_ok K n (add_input a m).
Proof. intros []. by split. Qed.
Lemma manifold_ok_output (K : Z → Prop) n a m :
  manifold_ok K n m → ¬ knows m a → K a → manifold_ok K n (add_output a m).
Proof.
  intros [Hn Hok [Hnd Hall] Hk] Hka Ha. split; [done|done| |].
  - unfold knows in Hka. split; simpl.
    + apply NoDup_app. split_and!; [done| |apply NoDup_singleton]. intros x Hx ->%list_elem_of_singleton. naive_solver.
    + apply Forall_app. split; [done|]. apply Forall_singleton. destruct (_ !! a); naive_solver.
  - intros x [Hx|Hx]; [|by apply Hk; right]. simpl in Hx. apply elem_of_app in Hx as [Hx|Hx]; [by apply Hk; left|].
    apply list_elem_of_singleton in Hx as ->. done.
Qed.

(** Port [n] of segment [s], which has address [a], is not connected yet. *)
Definition unconnected (a : Z) (n : string) s : Prop :=
  smap_find n (m_egress_ports (s_builder s)) = Some (mkPort a n false true) ∨
  smap_find n (m_egress_ports (s_builder s)) = None ∧ smap_find n (m_ingress_ports (s_builder s)) = Some (mkPort a n false true).

(** [s'] is [s] with more egress ports connected. *)
Record more_connected s s' : Prop := {
  mc_state : s_state s' = s_state s;
  mc_address : s_address s' = s_address s;
  mc_ok : smap_ok (m_egress_ports (s_builder s')) ;
  mc_ingress : m_ingress_ports (s_builder s') = m_ingress_ports (s_builder s);
  mc_names : launch_names (s_builder s') = launch_names (s_builder s);
}.

Lemma connect_port_spec (K : Z → Prop) a n ms s :
  smap_ok ms → smap_ok (m_egress_ports (s_builder s)) → K a → unconnected a n s →
  (∀ m, smap_find n ms = Some m → manifold_ok K n m ∧ ¬ knows m a) →
  ∃ m' s', connect_port n ms s = Ret (smap_set n m' ms, s') ∧ manifold_ok K n m' ∧ more_connected s s' ∧
    (∀ m x, smap_find n ms = Some m → knows m x → knows m' x) ∧
    (smap_find n (m_egress_ports (s_builder s)) = None → knows m' a) ∧
    ∀ n', smap_find n' (m_egress_ports (s_builder s')) =
      if decide (n' = n) then (λ p, mkPort (port_address p) (port_name p) true (port_held p)) <$> smap_find n (m_egress_ports (s_builder s))
      else smap_find n' (m_egress_ports (s_builder s)).
Proof.
  intros Hms Hep HK Hun Hm. unfold connect_port.
  assert (∃ m, match smap_find n ms with Some m => Ret m | None => create_manifold n s end = Ret m ∧ manifold_ok K n m ∧ ¬ knows m a ∧
    ∀ m', smap_find n ms = Some m' → m' = m) as (m & -> & Hmo & Hka & Hsame).
  { destruct (smap_find n ms) as [m|] eqn:E; [exists m; destruct (Hm m eq_refl); naive_solver|].
    exists (Manifold_new n). split_and!; [|apply manifold_ok_new| |done].
    - unfold create_manifold. destruct Hun as [->|[-> ->]]; done.
    - intros [Hx|[? Hx]]; simpl in Hx; [set_solver|by rewrite lookup_empty in Hx]. }
  simpl. unfold attach_manifold. rewrite (mo_name _ _ _ Hmo). destruct Hun as [Hu|[Hu Hi]]; rewrite Hu; simpl.
  - do 2 eexists. split; [done|]. split; [by apply manifold_ok_input|].
    split; [split; try done; [by apply smap_set_ok|]; unfold launch_names; simpl; rewrite smap_set_keys_eq; [done..|apply smap_find_key; by rewrite Hu]|].
    split; [by intros m0 x ->%Hsame|]. split; [done|]. intros n'. simpl. rewrite smap_find_set by done. destruct (String.eqb_spec n' n); by case_decide.
  - rewrite Hi. simpl. do 2 eexists. split; [done|]. split; [by apply manifold_ok_output|]. split; [by split|].
    split; [|split; [intros _; left; simpl; set_solver|]].
    { intros m0 x ->%Hsame [Hx|Hx]; [left; simpl; set_solver|by right]. }
    intros n'. case_decide; [subst; by rewrite Hu|done].
Qed.

Lemma connect_ports_spec (K : Z → Prop) a names ms s :
  NoDup names → smap_ok ms → smap_ok (m_egress_ports (s_builder s)) → K a →
  (∀ n, n ∈ names → unconnected a n s) →
  (∀ n m, smap_find n ms = Some m → manifold_ok K n m ∧ (n ∈ names → ¬ knows m a)) →
  ∃ ms' s', connect_ports names ms s = Ret (ms', s') ∧ smap_ok ms' ∧ more_connected s s' ∧
    (∀ n m, smap_find n ms' = Some m → manifold_ok K n m) ∧
    (∀ n m x, smap_find n ms = Some m → knows m x → ∃ m', smap_find n ms' = Some m' ∧ knows m' x) ∧
    (∀ n, n ∈ names → smap_find n (m_egress_ports (s_builder s)) = None → ∃ m', smap_find n ms' = Some m' ∧ knows m' a) ∧
    ∀ n, smap_find n (m_egress_ports (s_builder s')) =
      (if decide (n ∈ names) then λ p, mkPort (port_address p) (port_name p) true (port_held p) else id) <$> smap_find n (m_egress_ports (s_builder s)).
Proof.
  intros Hnd. revert ms s. induction Hnd as [|n names Hn _ IH]; intros ms s Hms Hep HK Hun Hm; cbn [connect_ports].
  { exists ms, s. split_and!; [done|done|done|naive_solver|eauto|set_solver|]. intros n. rewrite decide_False by set_solver. by destruct smap_find. }
  destruct (connect_port_spec K a n ms s) as (m' & s1 & -> & Hmo & Hmc & Hkm & Hka & Hfind); [done|done|done|apply Hun; set_solver|naive_solver set_solver|].
  cbn. destruct (IH (smap_set n m' ms) s1) as (ms' & s' & -> & Hms' & Hmc' & Hmo' & Hkm' & Hka' & Hfind').
  - by apply smap_set_ok.
  - apply Hmc.
  - done.
  - intros n' Hn'. unfold unconnected. rewrite Hfind, (mc_ingress _ _ Hmc), decide_False by (intros ->; done). apply Hun. set_solver.
  - intros n1 m1. rewrite smap_find_set by done. destruct (String.eqb_spec n1 n) as [->|]; [by intros [= <-]|].
    intros Hf. destruct (Hm _ _ Hf). split; [done|set_solver].
  - exists ms', s'. split_and!; [done|done| |done|..].
    + destruct Hmc, Hmc'. split; congruence || done.
    + intros n1 m1 x Hf Hx. destruct (decide (n1 = n)) as [->|Hne].
      * eapply Hkm'; [|by eapply Hkm]. by rewrite smap_find_set, String.eqb_refl.
      * eapply Hkm'; [|done]. rewrite smap_find_set by done. by apply String.eqb_neq in Hne as ->.
    + intros n1 Hn1 Hf. destruct (decide (n1 = n)) as [->|Hne].
      * eapply Hkm'; [|by apply Hka]. by rewrite smap_find_set, String.eqb_refl.
      * apply Hka'; [set_solver|]. by rewrite Hfind, decide_False.
    + intros n1. rewrite Hfind', Hfind. destruct (decide (n1 = n)) as [->|Hne].
      * rewrite (decide_True (P := n ∈ n :: names)), (decide_False (P := n ∈ names)) by set_solver. by destruct (smap_find n (m_egress_ports (s_builder s))).
      * assert (n1 ∈ n :: names ↔ n1 ∈ names) as Hiff by set_solver. by rewrite (decide_ext _ _ _ _ Hiff).
Qed.

(** The names under which segment [a] of pipeline [p] ignites launchers, and whether one of
    its runners reports a failure while it does. *)
Definition names_of (p : Pipeline) (a : Z) : list string :=
  let '(id, rank) := segment_address_decode a in
  match imap_find id (m_definitions p) with
  | Some d => match Builder_new d rank with Ret b => launch_names b | _ => [] end
  | None => []
  end.
Definition fails_early (p : Pipeline) (a : Z) : bool := existsb (reported (R := R) a) (names_of p a).
(** Segment [a] of [p]: it can be started, runs, or is being killed after a failure. *)
Definition startable (p : Pipeline) (a : Z) s : Prop :=
  s_address s = a ∧
  (s_state s = Running ∨ s_state s = Killing ∨
   s_state s = Initialized ∧ launch_names (s_builder s) = names_of p a ∧
    Forall (λ kv : string * Port, port_held kv.2 = true ∧ m_manifold_connected kv.2 = true) (m_egress_ports (s_builder s)) ∧
    Forall (λ kv : string * Port, port_held kv.2 = true) (m_ingress_ports (s_builder s))).

Record instance_ok i : Prop := {
  io_segments : imap_ok (i_segments i);
  io_manifolds : smap_ok (i_manifolds i);
  io_definition : pipeline_ok (i_definition i);
  io_manifold n m : smap_find n (i_manifolds i) = Some m → manifold_ok (λ x, x ∈ (i_segments i).*1) n m;
  io_segment a s : imap_find a (i_segments i) = Some s → startable (i_definition i) a s;
  io_wired a s n p : imap_find a (i_segments i) = Some s → smap_find n (m_ingress_ports (s_builder s)) = Some p →
    ∃ m, smap_find n (i_manifolds i) = Some m ∧ knows m a;
}.

(** An assignment [create_segment] can carry out. *)
Definition assignable i (a p : Z) : Prop :=
  0 ≤ a < 2 ^ 32 ∧ p < i_partitions i ∧ is_Some (imap_find (segment_address_decode a).1 (m_definitions (i_definition i))).

Lemma create_segment_ok a p i :
  instance_ok i → a ∉ (i_segments i).*1 → assignable i a p →
  succeeds (create_segment a p) i (λ _ i', instance_ok i' ∧ i_definition i' = i_definition i ∧ i_partitions i' = i_partitions i ∧
    (∀ x, x ∈ (i_segments i').*1 ↔ x = a ∨ x ∈ (i_segments i).*1) ∧
    (∃ s, imap_find a (i_segments i') = Some s ∧ s_state s = Initialized) ∧ ∀ x, x ≠ a → imap_find x (i_segments i') = imap_find x (i_segments i)).
Proof.
  intros [Hsegs Hman Hdef Hmo Hst Hwire] Ha (Hra & Hp & [d Hd]). unfold create_segment.
  apply succeeds_get_bind.
  eapply succeeds_lift_bind; [unfold check; by rewrite (proj2 (Z.ltb_lt _ _) Hp)|].
  assert (imap_find a (i_segments i) = None) as Hnone.
  { destruct (imap_find a (i_segments i)) eqn:E; [|done]. destruct Ha. apply imap_find_key. by rewrite E. }
  eapply succeeds_lift_bind; [unfold check; by rewrite bool_decide_true|].
  pose proof (segment_encode_decode a Hra) as Henc. destruct (segment_address_decode a) as [id rank] eqn:Hdec. cbn [fst snd] in *.
  eapply succeeds_lift_bind; [unfold find_segment; by rewrite Hd|].
  destruct (proj2 Hdef id d Hd) as [Hid Hok]. subst id.
  destruct (Builder_new_ports d rank Hok) as (b & Hb & Hbok & Hiok & Heg & Hin). rewrite Henc in Heg, Hin.
  eapply succeeds_lift_bind; [unfold Segment_new; by rewrite Hb|]. set (s := mkSegment _ _ _ _ _ _ _ _ _ _).
  destruct (connect_ports_spec (λ x, x = a ∨ x ∈ (i_segments i).*1) a (egress_port_names d ++ ingress_port_names d) (i_manifolds i) s)
    as (ms & s' & Hcp & Hms & [Hmst Hma Hmok Hming Hmn] & Hmk & Hknow & Hnew & Hfind); [apply Hok|done|done|by left| | |].
  { intros n. rewrite elem_of_app. unfold unconnected. simpl. rewrite Heg, Hin. repeat case_decide; naive_solver. }
  { intros n m Hf. specialize (Hmo n m Hf). split; [eapply manifold_ok_weaken; [done|]; by right|].
    intros _ Hk. by apply Ha, (mo_known _ _ _ Hmo). }
  eapply succeeds_lift_bind; [exact Hcp|]. apply succeeds_put.
  assert (∀ x, x ∈ (imap_set a s' (i_segments i)).*1 ↔ x = a ∨ x ∈ (i_segments i).*1) as Hkeys
    by (intros x; by apply imap_set_keys_iff).
  split_and!; [split; simpl|done|done|done|exists s'; simpl; by rewrite imap_find_set, decide_True|intros x Hx; simpl; by rewrite imap_find_set, decide_False].
  - by apply imap_set_ok.
  - done.
  - done.
  - intros n m Hf. eapply manifold_ok_weaken; [by apply Hmk|]. intros x. apply Hkeys.
  - intros x sx. rewrite imap_find_set by done. case_decide as Ex; [|apply Hst]. intros [= <-]. subst x. split; [by rewrite Hma|]. right. right. split; [done|].
    split; [rewrite Hmn; unfold names_of; by rewrite Hdec, Hd, Hb|]. rewrite !Forall_forall. split; intros [n p'].
    + rewrite <-smap_find_elem, Hfind by done. simpl. rewrite Heg. destruct (decide (n ∈ egress_port_names d)); [|by intros ?].
      rewrite decide_True by set_solver. by intros [= <-].
    + rewrite Hming. simpl. rewrite <-smap_find_elem, Hin by done. case_decide; by intros [= <-].
  - intros x sx n p'. rewrite imap_find_set by done. case_decide as E.
    + intros [= <-] Hn. subst x. rewrite Hming in Hn. simpl in Hn. rewrite Hin in Hn. case_decide as Hni; [|done].
      apply Hnew; [set_solver|]. simpl. rewrite Heg, decide_False; [done|]. intros Hne.
      destruct Hok as [(_ & Hdis & _)%NoDup_app _]. by eapply Hdis.
    + intros Hs Hn. destruct (Hwire _ _ _ _ Hs Hn) as (m & Hf & Hk). by eapply Hknow.
Qed.

Lemma create_segments_ok l new c :
  instance_ok (c_pipeline c) → NoDup l →
  (∀ a, a ∈ l → a ∉ (i_segments (c_pipeline c)).*1 ∧ ∃ p, imap_find a new = Some p ∧ assignable (c_pipeline c) a p) →
  succeeds (create_segments l new) c (λ _ c', instance_ok (c_pipeline c') ∧ m_current_segments c' = m_current_segments c ∧ i_definition (c_pipeline c') = i_definition (c_pipeline c) ∧
    (∀ x, x ∈ (i_segments (c_pipeline c')).*1 ↔ x ∈ l ∨ x ∈ (i_segments (c_pipeline c)).*1) ∧
    (∀ x, x ∈ l → ∃ s, imap_find x (i_segments (c_pipeline c')) = Some s ∧ s_state s = Initialized) ∧
    ∀ x, x ∉ l → imap_find x (i_segments (c_pipeline c')) = imap_find x (i_segments (c_pipeline c))).
Proof.
  intros Hok Hnd. revert c Hok. induction Hnd as [|a l Ha _ IH]; intros c Hok Hl; cbn [create_segments].
  { apply succeeds_ret. split_and!; try done; set_solver. }
  destruct (Hl a) as (Hfree & p & Hp & Has); [apply list_elem_of_here|].
  eapply succeeds_lift_bind; [by rewrite Hp|].
  destruct (create_segment_ok a p (c_pipeline c) Hok Hfree Has) as (u & i' & Hr & Hok' & Hd & Hpt & Hk & (s & Hs & Hst) & Ho).
  eapply succeeds_bind with (Q := λ _ c', c' = mkController i' (m_current_segments c)).
  { exists u, (mkController i' (m_current_segments c)). split; [|done]. unfold on_pipeline. by rewrite Hr. }
  intros _ c' ->. eapply succeeds_weaken; [apply IH; simpl|].
  - done.
  - intros x Hx. destruct (Hl x) as (Hxf & px & Hpx & (? & ? & ?)); [by apply list_elem_of_further|].
    split; [rewrite Hk; intros [->|?]; done|]. exists px. split; [done|]. unfold assignable. by rewrite Hd, Hpt.
  - simpl. intros _ c2 (Hok2 & Hm2 & Hd2 & Hk2 & Hn2 & Ho2). split_and!; [done|done|by rewrite Hd2| | |].
    + intros x. rewrite Hk2, Hk, elem_of_cons. tauto.
    + intros x [->|Hx]%elem_of_cons; [|by apply Hn2]. exists s. by rewrite Ho2.
    + intros x [Hx Hxl]%not_elem_of_cons. by rewrite Ho2, Ho.
Qed.

(** ** Updating *)
Context (shuffle : list Z → list Z) (Hshuffle : ∀ l, shuffle l ≡ₚ l) (Hlive : ∀ r : R, (runner_await_live r).1 = Ret ()).
(** Both queues are empty and the balancer runs. *)
Definition flushed m : Prop := m_input_updates m = [] ∧ m_output_updates m = [] ∧ m_runner m = true.
(** Manifold [m'] is [m] after an update. *)
Record updated (K : Z → Prop) (n : string) m m' : Prop := {
  up_ok : manifold_ok K n m';
  up_flushed : flushed m';
  up_knows : ∀ x, knows m x → knows m' x;
}.

Lemma update_manifold_ok K n m :
  manifold_ok K n m → ∃ m', update_outputs shuffle (update_inputs m) = Ret m' ∧ updated K n m (start m').
Proof.
  intros [Hn Hok Hfr Hk]. unfold update_outputs. simpl.
  pose proof (add_outputs_spec shuffle Hshuffle (m_output_updates m) (m_egress m) Hok) as Hs.
  rewrite decide_True in Hs by done. destruct Hs as (e' & -> & Hok' & Hout). eexists. split; [done|].
  assert (∀ x, is_Some (m_outputs e' !! x) ↔ knows m x) as Hiff.
  { intros x. rewrite Hout. unfold knows. case_decide; naive_solver. }
  split; [split; simpl; [done|done|split; constructor|]|done|].
  - intros x [Hx|Hx]; simpl in Hx; [set_solver|]. by apply Hk, Hiff.
  - intros x Hx. right. simpl. by apply Hiff.
Qed.

Lemma update_manifolds_ok K ms :
  Forall (λ kv, manifold_ok K kv.1 kv.2) ms →
  ∃ ms', update_manifolds shuffle ms = Ret ms' ∧ Forall2 (λ x y, x.1 = y.1 ∧ updated K x.1 x.2 y.2) ms ms'.
Proof.
  induction 1 as [|[n m] ms Hm _ IH]; cbn [update_manifolds]; [eauto|].
  destruct (update_manifold_ok K n m Hm) as (m' & -> & Hu). destruct IH as (ms' & -> & Hus). cbn. eauto 10.
Qed.

Lemma smap_Forall2 {A} (P : string → A → A → Prop) (ms ms' : smap A) :
  Forall2 (λ x y, x.1 = y.1 ∧ P x.1 x.2 y.2) ms ms' →
  ms'.*1 = ms.*1 ∧ ∀ n, option_Forall2 (P n) (smap_find n ms) (smap_find n ms').
Proof.
  induction 1 as [|[n m] [n' m'] ms ms' [Hn HP] _ [IHk IHf]]; [split; [done|constructor]|]. simpl in *. subst n'.
  split; [by f_equal|]. intros n0. destruct (String.eqb_spec n0 n) as [->|]; [by constructor|done].
Qed.

Lemma prepare_all_ok f ports :
  Forall (λ kv : string * Port, f kv.2 = Ret (launched kv.2)) ports →
  ∃ ports', prepare_all f ports = Ret ports' ∧ ports'.*1 = ports.*1.
Proof. induction 1 as [|[n p] ports Hp _ (ports' & IH & Hk)]; simpl in *; [eauto|]. rewrite Hp. cbn. rewrite IH. cbn. eexists. split; [done|]. simpl. by f_equal. Qed.

Lemma live_runners_ok (rs : smap R) : (live_runners rs).1 = Ret ().
Proof using Hlive.
  clear Hshuffle shuffle. induction rs as [|[n r] rs IH]; [done|]. simpl. specialize (Hlive r). destruct (runner_await_live r) as [x r']. simpl in *. subst x.
  by destruct (live_runners rs).
Qed.

Lemma on_map_ok g p s : puts p →
  ∃ s', on_map g p live_runners s = (Ret (), s') ∧ s_state s' = s_state s ∧ s_address s' = s_address s ∧ s_builder s' = s_builder s.
Proof using Hlive.
  clear Hshuffle shuffle. intros Hp. unfold on_map. pose proof (live_runners_ok (g s)) as Hl. destruct (live_runners (g s)) as [x rs]. simpl in Hl. subst x. eauto.
Qed.

Lemma await_live_ok s : succeeds segment_await_live s (λ _ s', s_state s' = s_state s ∧ s_address s' = s_address s ∧ s_builder s' = s_builder s).
Proof using Hlive.
  clear Hshuffle shuffle. unfold segment_await_live.
  destruct (on_map_ok m_ingress_runners put_ingress s) as (s1 & H1 & Hs1 & Ha1 & Hb1); [done|].
  destruct (on_map_ok m_runners put_nodes s1) as (s2 & H2 & Hs2 & Ha2 & Hb2); [done|].
  destruct (on_map_ok m_egress_runners put_egress s2) as (s3 & H3 & Hs3 & Ha3 & Hb3); [done|].
  exists (), s3. split; [|split_and!; congruence]. unfold mbind, M_bind. by rewrite H1, H2, H3.
Qed.

(** The segments have the same ingress ports. *)
Definition same_ingress s s' : Prop := (m_ingress_ports (s_builder s')).*1 = (m_ingress_ports (s_builder s)).*1.
Lemma segment_start_ok s :
  Forall (λ kv : string * Port, port_held kv.2 = true ∧ m_manifold_connected kv.2 = true) (m_egress_ports (s_builder s)) →
  Forall (λ kv : string * Port, port_held kv.2 = true) (m_ingress_ports (s_builder s)) →
  succeeds segment_start s (λ _ s', s_state s' = killed_if (existsb (reported (s_address s)) (launch_names (s_builder s))) (s_state s) ∧
    s_address s' = s_address s ∧ same_ingress s s').
Proof using.
  clear Hshuffle Hlive shuffle. intros He Hi. unfold segment_start. apply succeeds_get_bind. cbv zeta.
  destruct (prepare_all_ok prepare_egress (m_egress_ports (s_builder s))) as (eg & Heg & Hke).
  { eapply Forall_impl; [exact He|]. intros [n p] [Hh Hc]. unfold prepare_egress. simpl in *. by rewrite Hh, Hc. }
  destruct (prepare_all_ok prepare_ingress (m_ingress_ports (s_builder s))) as (ing & Hing & Hki).
  { eapply Forall_impl; [exact Hi|]. intros [n p] Hh. unfold prepare_ingress. simpl in *. by rewrite Hh. }
  eapply succeeds_lift_bind; [exact Heg|]. eapply succeeds_lift_bind; [exact Hing|]. apply succeeds_put_bind.
  destruct (ignite_all_runs eg (m_nodes (s_builder s)) ing (set_builder (mkBuilder (m_objects (s_builder s)) (m_nodes (s_builder s)) ing eg) s)) as (s' & E & H1 & H2 & H3).
  exists (), s'. split; [exact E|]. unfold launch_names. rewrite H1, H2, Hke, Hki. split_and!; [done|done|]. unfold same_ingress. by rewrite H3.
Qed.

(** The state of segment [a] after it is started: a running one is left alone. *)
Definition next_state (p : Pipeline) (a : Z) s : ServiceState :=
  if bool_decide (s_state s = Initialized) && fails_early p a then Killing else Running.
Lemma start_ok p a s : startable p a s → s_state s ≠ Killing →
  succeeds (service_start ;; service_await_live) s (λ _ s', s_state s' = next_state p a s ∧ s_address s' = a ∧ same_ingress s s').
Proof using Hlive.
  clear Hshuffle shuffle. intros [Ha Hst] Hnk. eapply succeeds_bind with (Q := λ _ s', s_state s' = next_state p a s ∧ s_address s' = a ∧ same_ingress s s').
  2: { intros _ s1 (Hs1 & Ha1 & Hb1). eapply succeeds_weaken; [apply await_live_ok|]. intros _ s2 (-> & -> & Hb2). split_and!; [done|done|].
    unfold same_ingress. by rewrite Hb2. }
  unfold service_start. destruct Hst as [Hst|[?|(Hst & Hn & He & Hi)]]; [|done|].
  - exists (), s. unfold next_state. rewrite bool_decide_false by (by rewrite Hst). split; [|done]. unfold forward_state, mbind, M_bind, get, lift, check. simpl. by rewrite Hst.
  - destruct (segment_start_ok (set_state Running s) He Hi) as (u & s' & Hr & Hs' & Ha' & Hsame).
    exists u, s'. split; [erewrite m_bind_ret; [|apply forward_state_up; simpl; by rewrite Hst]; exact Hr|]. split; [|split; [by rewrite <-Ha|done]].
    rewrite Hs'. simpl. rewrite Hn, Ha. unfold next_state, fails_early. rewrite bool_decide_true by done. by destruct (existsb (reported a) (names_of p a)).
Qed.
(** A segment that is being killed cannot be started again: the process ends. *)
Definition start_refused : string := "ServiceState is only allowed to advance".
Lemma start_killing s : s_state s = Killing → (service_start ;; service_await_live) s = (Abort start_refused, s).
Proof using. clear. intros Hst. unfold service_start, forward_state, mbind, M_bind, get, lift, check. simpl. by rewrite Hst. Qed.

(** Only segments changed between [i] and [i'], and none was added or removed. *)
Record same_frame i i' : Prop := {
  sf_keys : (i_segments i').*1 = (i_segments i).*1;
  sf_manifolds : i_manifolds i' = i_manifolds i;
  sf_definition : i_definition i' = i_definition i;
  sf_partitions : i_partitions i' = i_partitions i;
}.
#[local] Instance same_frame_preorder : PreOrder same_frame.
Proof using. clear. split; [by split|]. intros i1 i2 i3 [] []. split; congruence. Qed.

Lemma start_segment_ok a s i :
  instance_ok i → imap_find a (i_segments i) = Some s → s_state s ≠ Killing →
  succeeds (on_segment a (service_start ;; service_await_live)) i (λ _ i', instance_ok i' ∧ same_frame i i' ∧
    (∃ s', imap_find a (i_segments i') = Some s' ∧ s_state s' = next_state (i_definition i) a s) ∧
    ∀ x, x ≠ a → imap_find x (i_segments i') = imap_find x (i_segments i)).
Proof using Hlive.
  clear Hshuffle shuffle. intros [Hsegs Hman Hdef Hmo Hst Hwire] Hs Hnk. unfold succeeds, on_segment. rewrite Hs.
  destruct (start_ok (i_definition i) a s) as (u & s' & -> & Hrun & Ha & Hb); [by eapply Hst|done|].
  assert ((imap_set a s' (i_segments i)).*1 = (i_segments i).*1) as Hkeys by (apply imap_set_keys_eq; [done|]; apply imap_find_key; by rewrite Hs).
  do 2 eexists. split; [done|]. split_and!; [split; simpl|by split|exists s'; simpl; by rewrite imap_find_set, decide_True|intros x Hx; simpl; by rewrite imap_find_set, decide_False].
  - by apply imap_set_ok.
  - done.
  - done.
  - intros n m Hf. rewrite Hkeys. by apply Hmo.
  - intros x sx. rewrite imap_find_set by done. case_decide as Ex; [|apply Hst]. intros [= <-]. subst x. split; [done|].
    rewrite Hrun. unfold next_state. destruct (_ && _); auto.
  - intros x sx n p. rewrite imap_find_set by done. case_decide; [|apply Hwire]. intros [= <-] Hn. subst x.
    assert (is_Some (smap_find n (m_ingress_ports (s_builder s)))) as [p0 Hp0]
      by (apply smap_find_key; rewrite <-Hb; apply smap_find_key; by eexists).
    by eapply Hwire.
Qed.

Definition start_segments (l : list Z) : M (Instance_ R D) () := for_segments (λ a, on_segment a (service_start ;; service_await_live)) l.
Definition is_killing i (a : Z) : Prop := ∃ s, imap_find a (i_segments i) = Some s ∧ s_state s = Killing.
Lemma start_segments_ok l i :
  instance_ok i → NoDup l → l ⊆ (i_segments i).*1 → (∀ a, a ∈ l → ¬ is_killing i a) →
  succeeds (start_segments l) i (λ _ i', instance_ok i' ∧ same_frame i i' ∧
    (∀ a s, a ∈ l → imap_find a (i_segments i) = Some s → ∃ s', imap_find a (i_segments i') = Some s' ∧ s_state s' = next_state (i_definition i) a s) ∧
    ∀ x, x ∉ l → imap_find x (i_segments i') = imap_find x (i_segments i)).
Proof using Hlive.
  clear Hshuffle shuffle. unfold start_segments. intros Hok Hnd. revert i Hok. induction Hnd as [|a l Ha _ IH]; intros i Hok Hl Hnk; cbn [for_segments].
  { apply succeeds_ret. split_and!; [done|done| |done]. by intros a s ?%elem_of_nil. }
  assert (a ∈ (i_segments i).*1) as [s Hs]%imap_find_key by set_solver.
  eapply succeeds_bind; [apply (start_segment_ok a s); [done|done|intros E; apply (Hnk a); [by left|by exists s]]|]. intros [] i1 (Hok1 & Hf1 & Hs1 & Ho1).
  eapply succeeds_weaken; [apply IH; [done|rewrite (sf_keys _ _ Hf1); set_solver|]|].
  - intros b Hb (sb & Hsb & Hst). apply (Hnk b); [by right|]. exists sb. rewrite <-Ho1; [done|]. by intros ->.
  - intros _ i2 (Hok2 & Hf2 & Hs2 & Ho2). split_and!; [done|by transitivity i1| |].
    + intros b sb [->|Hb]%elem_of_cons Hsb; [rewrite Ho2 by done; by simplify_eq|]. rewrite <-(sf_definition _ _ Hf1). apply Hs2; [done|]. rewrite Ho1; [done|]. by intros ->.
    + intros x [Hx Hxl]%not_elem_of_cons. by rewrite Ho2, Ho1.
Qed.
(** A loop that meets a segment being killed ends the process. *)
Lemma start_segments_abort l i a :
  instance_ok i → NoDup l → l ⊆ (i_segments i).*1 → a ∈ l → is_killing i a → aborts start_refused (start_segments l) i.
Proof using Hlive.
  clear Hshuffle shuffle. unfold start_segments. intros Hok Hnd. revert i Hok. induction Hnd as [|b l Hb _ IH]; intros i Hok Hl Ha (s & Hs & Hst); [by apply elem_of_nil in Ha|]. cbn [for_segments].
  assert (b ∈ (i_segments i).*1) as [sb Hsb]%imap_find_key by set_solver. destruct (decide (s_state sb = Killing)) as [Ek|Ek].
  - apply aborts_bind. unfold aborts, on_segment. rewrite Hsb, start_killing by done. by eexists.
  - assert (a ≠ b) as Hab by (intros ->; congruence). eapply aborts_later; [by apply (start_segment_ok b sb)|]. intros [] i1 (Hok1 & Hf1 & _ & Ho1).
    apply IH; [done|rewrite (sf_keys _ _ Hf1); set_solver|set_solver|]. exists s. by rewrite Ho1.
Qed.

(** What an update does before it starts the segments. *)
Lemma update_flushes i : instance_ok i → ∃ ms, update_manifolds shuffle (i_manifolds i) = Ret ms ∧ instance_ok (set_manifolds ms i) ∧
  ∀ n m, smap_find n ms = Some m → flushed m.
Proof.
  intros [Hsegs Hman Hdef Hmo Hst Hwire].
  destruct (update_manifolds_ok (λ x, x ∈ (i_segments i).*1) (i_manifolds i)) as (ms & Hms & Hup).
  { apply Forall_forall. intros [n m] Hin. apply Hmo. by apply smap_find_elem. }
  apply smap_Forall2 in Hup as [Hkeys Hup]. exists ms. split; [done|].
  assert (∀ n m', smap_find n ms = Some m' → ∃ m, smap_find n (i_manifolds i) = Some m ∧ updated (λ x, x ∈ (i_segments i).*1) n m m') as Hback.
  { intros n m' Hf. specialize (Hup n). rewrite Hf in Hup. inversion Hup; subst. eauto. }
  split; [split; simpl; [done|unfold smap_ok; by rewrite Hkeys|done| |done|]|].
  - intros n m' Hf. destruct (Hback n m' Hf) as (m & _ & Hu). apply Hu.
  - intros a s n p Hs Hn. destruct (Hwire _ _ _ _ Hs Hn) as (m & Hf & Hk). specialize (Hup n). rewrite Hf in Hup.
    inversion Hup as [? m' Hu E1 E2|]; subst. exists m'. split; [done|]. by apply Hu.
  - intros n m Hf. by destruct (Hback n m Hf) as (? & _ & [? ? ?]).
Qed.
Lemma update_ok i : instance_ok i → (∀ a, ¬ is_killing i a) →
  succeeds (update shuffle) i (λ _ i', instance_ok i' ∧ i_joinable i' = true ∧ (i_segments i').*1 = (i_segments i).*1 ∧
    (∀ a s, imap_find a (i_segments i) = Some s → ∃ s', imap_find a (i_segments i') = Some s' ∧ s_state s' = next_state (i_definition i) a s) ∧
    ∀ n m, smap_find n (i_manifolds i') = Some m → flushed m).
Proof.
  intros Hok Hnk. unfold update. apply succeeds_get_bind. destruct (update_flushes i Hok) as (ms & Hms & Hok1 & Hfl).
  eapply succeeds_lift_bind; [exact Hms|]. apply succeeds_put_bind, succeeds_get_bind. pose proof (io_segments _ Hok) as Hsegs.
  eapply succeeds_bind; [apply (start_segments_ok (i_segments i).*1); [done|by apply imap_ok_NoDup|done|by intros a _; apply Hnk]|].
  intros [] i' (Hok' & [Hfk Hfm _ _] & Hs & _). apply succeeds_modify. simpl in *. split_and!; [by destruct Hok'|done|done| |].
  - intros a s Hf. apply Hs; [|done]. apply imap_find_key. by rewrite Hf.
  - intros n m. rewrite Hfm. apply Hfl.
Qed.
Lemma update_abort i a : instance_ok i → is_killing i a → aborts start_refused (update shuffle) i.
Proof.
  intros Hok Hk. unfold update, aborts. unfold mbind at 1, M_bind at 1, get. destruct (update_flushes i Hok) as (ms & Hms & Hok1 & _).
  unfold mbind at 1, M_bind at 1, lift. rewrite Hms. unfold mbind at 1, M_bind at 1, put. unfold mbind at 1, M_bind at 1.
  apply aborts_bind. pose proof (io_segments _ Hok) as Hsegs. apply (start_segments_abort _ _ a); [done|by apply imap_ok_NoDup|done| |done].
  destruct Hk as (s & Hs & _). apply imap_find_key. simpl. by rewrite Hs.
Qed.

(** The segments of an assignment that reported a failure while they were started. *)
Definition failed_at_start (p : Pipeline) (cur new : imap Z) : list Z := filter (λ a, a ∉ cur.*1 ∧ fails_early p a = true) new.*1.
(** What the controller needs to carry out the assignment [new]: the segments it has are
    kept, and the new ones can be created. *)
Record update_ready (new : imap Z) c : Prop := {
  ur_ok : instance_ok (c_pipeline c);
  ur_keys a : a ∈ (i_segments (c_pipeline c)).*1 ↔ a ∈ (m_current_segments c).*1;
  ur_nodup : NoDup new.*1;
  ur_sub a : a ∈ (m_current_segments c).*1 → a ∈ new.*1;
  ur_new a p : imap_find a new = Some p → assignable (c_pipeline c) a p;
}.
(** Before the segments are started. *)
Lemma update_creates (new : imap Z) c : update_ready new c →
  succeeds (create_segments (key_difference new (m_current_segments c)) new ;; stop_segments (key_difference (m_current_segments c) new)) c (λ _ c1,
    instance_ok (c_pipeline c1) ∧ i_definition (c_pipeline c1) = i_definition (c_pipeline c) ∧
    (∀ a, a ∈ (i_segments (c_pipeline c1)).*1 ↔ a ∈ new.*1) ∧
    (∀ a, a ∉ (m_current_segments c).*1 → ∀ s, imap_find a (i_segments (c_pipeline c1)) = Some s → s_state s = Initialized) ∧
    ∀ a, a ∈ (m_current_segments c).*1 → imap_find a (i_segments (c_pipeline c1)) = imap_find a (i_segments (c_pipeline c))).
Proof using.
  clear Hshuffle Hlive shuffle. intros [Hok Hcur Hnd Hsub Hassign].
  assert (key_difference (m_current_segments c) new = []) as ->.
  { apply elem_of_nil_inv. intros x. unfold key_difference. rewrite list_elem_of_filter. intros [? ?]. auto. }
  eapply succeeds_bind; [apply create_segments_ok|].
  - done.
  - apply NoDup_filter. done.
  - intros a. unfold key_difference. rewrite list_elem_of_filter. intros [Ha [p Hp]%imap_find_key].
    rewrite Hcur. split; [done|]. eauto.
  - intros _ c1 (Hok1 & _ & Hd1 & Hk1 & Hn1 & Ho1). apply succeeds_ret.
    assert (∀ a, a ∈ (i_segments (c_pipeline c1)).*1 ↔ a ∈ new.*1) as Hk.
    { intros a. rewrite Hk1, Hcur. unfold key_difference. rewrite list_elem_of_filter. destruct (decide (a ∈ (m_current_segments c).*1)); naive_solver. }
    split_and!; [done|done|done| |].
    + intros a Ha s Hs. destruct (Hn1 a) as (s' & Hs' & ?); [|congruence]. unfold key_difference. apply list_elem_of_filter. split; [done|]. apply Hk, imap_find_key. by rewrite Hs.
    + intros a Ha. apply Ho1. unfold key_difference. rewrite list_elem_of_filter. naive_solver.
Qed.
Lemma update_succeeds (new : imap Z) c : update_ready new c →
  (∀ a s, imap_find a (i_segments (c_pipeline c)) = Some s → s_state s = Running) →
  succeeds (controller_update shuffle new) c (λ _ c',
    let i' := c_pipeline c' in
    m_current_segments c' = new ∧ instance_ok i' ∧ i_joinable i' = true ∧
    (∀ a, a ∈ (i_segments i').*1 ↔ a ∈ new.*1) ∧
    (∀ a s, imap_find a (i_segments i') = Some s →
       s_state s = if decide (a ∈ failed_at_start (i_definition (c_pipeline c)) (m_current_segments c) new) then Killing else Running) ∧
    (∀ n m, smap_find n (i_manifolds i') = Some m → flushed m) ∧
    ∀ a s n p, imap_find a (i_segments i') = Some s → smap_find n (m_ingress_ports (s_builder s)) = Some p →
      ∃ m, smap_find n (i_manifolds i') = Some m ∧ is_Some (m_outputs (m_egress m) !! a)).
Proof.
  intros Hready Hrun. unfold controller_update. apply succeeds_get_bind.
  destruct (update_creates new c Hready) as ([] & c1 & Ec & Hok1 & Hd1 & Hk1 & Hn1 & Ho1).
  assert (∀ a s, imap_find a (i_segments (c_pipeline c1)) = Some s → s_state s = if decide (a ∈ (m_current_segments c).*1) then Running else Initialized) as Hst.
  { intros a s Hs. case_decide as Ha; [apply (Hrun a); by rewrite <-Ho1|by apply (Hn1 a)]. }
  destruct (update_ok (c_pipeline c1) Hok1) as (u & i2 & Hr & Hok2 & Hj & Hkeys & Hs2 & Hfl).
  { intros a (s & Hs & E). rewrite (Hst a s Hs) in E. by case_decide. }
  assert (∀ (f : () → M (Controller R D) ()), ((create_segments (key_difference new (m_current_segments c)) new ;; stop_segments (key_difference (m_current_segments c) new)) ≫= f) c =
    (create_segments (key_difference new (m_current_segments c)) new ;; (stop_segments (key_difference (m_current_segments c) new) ≫= f)) c) as Hassoc
    by (intros f; unfold mbind, M_bind; by destruct (create_segments _ _ c) as [[] ?]).
  unfold succeeds. rewrite <-(Hassoc (λ _, on_pipeline (update shuffle) ;; modify _)). unfold mbind at 1, M_bind at 1. rewrite Ec. unfold mbind, M_bind, on_pipeline. rewrite Hr.
  eexists _, _. split; [done|]. simpl. split_and!; [done|done|done|by intros a; rewrite Hkeys| |done|].
  - intros a s' Hs'. assert (is_Some (imap_find a (i_segments (c_pipeline c1)))) as [s Hs] by (apply imap_find_key; rewrite <-Hkeys; apply imap_find_key; by rewrite Hs').
    destruct (Hs2 a s Hs) as (s'' & E & Hs3). simplify_eq. rewrite Hs3. unfold next_state. rewrite (Hst a s Hs), Hd1. unfold failed_at_start.
    assert (a ∈ new.*1) as Hnew by (apply Hk1, imap_find_key; by rewrite Hs).
    destruct (fails_early (i_definition (c_pipeline c)) a) eqn:Ef; repeat case_decide; rewrite ?andb_false_r, ?bool_decide_true, ?(bool_decide_false (Running = Initialized)) by done; try done;
      rewrite list_elem_of_filter, Ef in *; naive_solver.
  - intros a s n p Hs Hn. destruct (io_wired _ Hok2 _ _ _ _ Hs Hn) as (m & Hf & Hk). exists m. split; [done|].
    destruct (Hfl n m Hf) as (_ & He & _). destruct Hk as [Hk|Hk]; [rewrite He in Hk; set_solver|done].
Qed.
(** An update that finds a segment being killed ends the process. *)
Lemma update_refused (new : imap Z) c a : update_ready new c → is_killing (c_pipeline c) a → aborts start_refused (controller_update shuffle new) c.
Proof.
  intros Hready (s & Hs & Hst). unfold controller_update, aborts. unfold mbind at 1, M_bind at 1, get.
  destruct (update_creates new c Hready) as ([] & c1 & Ec & Hok1 & _ & _ & _ & Ho1).
  destruct (update_abort (c_pipeline c1) a Hok1) as [i' Hr].
  { exists s. rewrite Ho1; [done|]. apply (ur_keys _ _ Hready), imap_find_key. by rewrite Hs. }
  unfold mbind, M_bind in *. destruct (create_segments _ _ c) as [[[]|?|?|?] c0]; try done. rewrite Ec. unfold on_pipeline. rewrite Hr. by eexists.
Qed.
End update.

(** ** Running it *)
(** Two segments joined by a port: [source] writes to it and [sink] reads from it. *)
Definition demo_source : Definition_ := mkDefinition "source" [] ["link"] (λ b, Ret b).
Definition demo_sink : Definition_ := mkDefinition "sink" ["link"] [] (λ b, Ret b).
Definition demo_pipeline : Pipeline := ((add_segment demo_source ;; add_segment demo_sink) Pipeline_new).2.
Lemma demo_pipeline_ok : pipeline_ok demo_pipeline.
Proof.
  assert (∀ x l r, NoDup (r ++ l)%list → definition_ok (mkDefinition x l r (λ b, Ret b))) as Hd by (split; [done|by eauto]).
  assert (returns pipeline_ok (add_segment demo_source ;; add_segment demo_sink) (λ _, pipeline_ok)) as Hr.
  { eapply returns_bind; [|intros []]; apply add_segment_pipeline_ok, Hd; repeat constructor; set_solver. }
  eapply (Hr Pipeline_new ()); [split; [constructor|by intros ? ?]|]. vm_compute. reflexivity.
Qed.

Definition demo_running : Controller toy_runner Z :=
  mkController (mkInstance Running demo_pipeline 1 [(65536, toy_segment)] [] true) [(65536, 0)].

Lemma update_removal_aborts_witness :
  (controller_update id [] demo_running).1 ≠ Ret ().
Proof.
  refine (update_removal_aborts id demo_running [] 65536 _ _ _).
  - apply list_elem_of_here.
  - apply not_elem_of_nil.
  - split; [repeat constructor|]. exists toy_segment. split; reflexivity.
Defined.
