(* ===== verification/Executor.v ===== *)
(** * Pipeline manager and executor

    Models [src/internal/pipeline/manager.cpp] and [src/internal/executor/executor.cpp],
    the top of the runtime: the executor owns the manager of a pipeline, the manager runs
    the controller of [Pipeline] as a task and sends it control messages through a channel.
    Both are instances of [Service].  The controller's task runs one message at a time,
    in the order of the channel: [controller_turn].

    A runner that fails has the completion callback of its segment called, which kills the
    segment ([Pipeline.runner_fails]); this happens between the calls of the application
    and of the controller, and while a segment is started.  A failure that is reported while
    the controller works on another segment is the same as one reported before or after
    that ([Pipeline.runner_fails_commutes]). *)
From Stdlib Require Import Strings.String.
From S2P Require Import Prelude SortedZ StdMap Addresses Manifold Service Segment Pipeline.
Local Open Scope string_scope.
Local Open Scope Z_scope.

(** [std::random_shuffle], which the manifolds use. *)
Class Shuffler := random_shuffle : list Z → list Z.

Section executor.
Context {R : Type} `{RunnerI R} `{Ignition R} {D : Type} `{Shuffler}.

(** ** Manager *)
Record Manager := mkManager {
  mg_state : ServiceState;
  mg_pipeline : Pipeline;
  mg_partitions : Z;
  m_update_channel : option (list ControlMessage);      (* [None]: a null pointer *)
  m_controller : option (Controller R D);
}.
Definition set_mg_state (st : ServiceState) (m : Manager) : Manager :=
  mkManager st (mg_pipeline m) (mg_partitions m) (m_update_channel m) (m_controller m).
Definition set_channel (q : option (list ControlMessage)) (m : Manager) : Manager :=
  mkManager (mg_state m) (mg_pipeline m) (mg_partitions m) q (m_controller m).
Definition set_controller (c : Controller R D) (m : Manager) : Manager :=
  mkManager (mg_state m) (mg_pipeline m) (mg_partitions m) (m_update_channel m) (Some c).

(** [m_update_channel->await_write]. *)
Definition write_message (msg : ControlMessage) : M Manager () := λ m,
  match m_update_channel m with
  | Some q => (Ret (), set_channel (Some (q ++ [msg])%list) m)
  | None => (Undefined "null pointer", m)
  end.
Definition push_updates (segment_addresses : imap Z) : M Manager () :=
  m ← get;
  lift (check (bool_decide (is_Some (m_update_channel m))) "m_update_channel") ;;
  write_message (Update segment_addresses).
(** An exception that leaves [on_data] has no handler: rxcpp terminates the process. *)
Definition on_message (msg : ControlMessage) : M (Controller R D) () := λ c,
  match on_data random_shuffle msg c with
  | (Throw e, c') => (Abort e, c')
  | x => x
  end.
Definition on_controller {A} (op : M (Controller R D) A) : M Manager A := λ m,
  match m_controller m with
  | Some c => let '(x, c') := op c in (x, set_controller c' m)
  | None => (Undefined "null pointer", m)
  end.
(** The controller's task takes the next message. *)
Definition controller_turn : M Manager () :=
  m ← get;
  match m_update_channel m with
  | Some (msg :: q) => put (set_channel (Some q) m) ;; on_controller (on_message msg)
  | _ => mret ()
  end.
Fixpoint handle_all (msgs : list ControlMessage) : M (Controller R D) () :=
  match msgs with [] => mret () | msg :: msgs => on_message msg ;; handle_all msgs end.

Definition manager_start : M Manager () :=
  m ← get;
  let '(x, c) := Controller_new (Instance_new (mg_pipeline m) (mg_partitions m)) in
  lift x ;;
  put (mkManager (mg_state m) (mg_pipeline m) (mg_partitions m) (Some []) (Some c)).
Definition manager_await_live : M Manager () := on_controller (mret ()).
Definition manager_stop : M Manager () := write_message StopMessage.
Definition manager_kill : M Manager () := write_message KillMessage.
(** A failure of the pipeline is kept until the controller has handled what is left in
    the closed channel and its task is joined. *)
Definition manager_await_join : M Manager () := λ m,
  match on_controller await_on_pipeline m with
  | (Abort w, m') => (Abort w, m')
  | (Undefined w, m') => (Undefined w, m')
  | (x, m') => (on_controller (handle_all (default [] (m_update_channel m'))) ;; lift x) (set_channel None m')
  end.
#[export] Instance manager_service : Service Manager := {
  m_state := mg_state;
  set_m_state := set_mg_state;
  do_service_start := manager_start;
  do_service_await_live := manager_await_live;
  do_service_stop := manager_stop;
  do_service_kill := manager_kill;
  do_service_await_join := manager_await_join;
}.
Definition Manager_new (pipeline : Pipeline) (partitions : Z) : res () * Manager :=
  (lift (check (1 <=? partitions) "host_resources().size() >= 1") ;; service_start) (mkManager Initialized pipeline partitions None None).

(** ** Executor *)
Record Executor := mkExecutor {
  ex_state : ServiceState;
  ex_partitions : Z;
  m_pipeline_manager : option Manager;
}.
Definition Executor_new (partitions : Z) : Executor := mkExecutor Initialized partitions None.
(** [CHECK(m_pipeline_manager)], then a method of the manager. *)
Definition on_manager {A} (op : M Manager A) : M Executor A := λ e,
  match m_pipeline_manager e with
  | Some m => let '(x, m') := op m in (x, mkExecutor (ex_state e) (ex_partitions e) (Some m'))
  | None => (Abort "m_pipeline_manager", e)
  end.
#[export] Instance executor_service : Service Executor := {
  m_state := ex_state;
  set_m_state st e := mkExecutor st (ex_partitions e) (m_pipeline_manager e);
  do_service_start := on_manager service_start;
  do_service_await_live := on_manager service_await_live;
  do_service_stop := on_manager service_stop;
  do_service_kill := on_manager service_kill;
  do_service_await_join := on_manager service_await_join;
}.
(** Rank 0 of every segment on partition 0. *)
Definition initial_segments (pipeline : Pipeline) : imap Z :=
  foldl (λ m kv, imap_set (segment_address_encode kv.1 0) 0 m) [] (m_definitions pipeline).
Definition register_pipeline (pipeline : Pipeline) : M Executor () :=
  e ← get;
  lift (check (bool_decide (m_pipeline_manager e = None)) "m_pipeline_manager == nullptr") ;;
  let '(x, m) := Manager_new pipeline (ex_partitions e) in
  lift x ;;
  put (mkExecutor (ex_state e) (ex_partitions e) (Some m)) ;;
  on_manager (push_updates (initial_segments pipeline)).
End executor.
Arguments Manager : clear implicits.
Arguments Executor : clear implicits.

(** ** What the operations of an instance leave alone *)
Section frame.
Context {R : Type} `{RunnerI R} `{Ignition R} {D : Type} (shuffle : list Z → list Z).
Implicit Types (i : Instance_ R D) (c : Controller R D).
Definition frame i : ServiceState * Pipeline * Z := (i_state i, i_definition i, i_partitions i).
Definition keeps {A} (m : M (Instance_ R D) A) : Prop := ∀ i, frame (m i).2 = frame i.
Lemma frame_bind {A B} (m : M (Instance_ R D) A) (f : A → M (Instance_ R D) B) : keeps m → (∀ a, keeps (f a)) → keeps (m ≫= f).
Proof.
  intros Hm Hf i. specialize (Hm i). unfold mbind, M_bind. destruct (m i) as [[a|x|x|x] i'] eqn:E; simpl in *; try done. by rewrite Hf.
Qed.
Lemma keeps_on_segment {A} a (op : M (Segment R) A) : keeps (on_segment a op).
Proof. intros i. unfold on_segment. destruct (imap_find a (i_segments i)) as [s|]; [|done]. by destruct (op s). Qed.
Lemma keeps_for op l : (∀ a, keeps (op a)) → keeps (for_segments op l).
Proof. intros Hop. induction l as [|a l IH]; [done|]. cbn [for_segments]. by apply frame_bind. Qed.
Lemma keeps_create a p : keeps (create_segment a p).
Proof.
  intros i. unfold create_segment, mbind, M_bind, get, lift, put. destruct (check _ _); try done. destruct (check _ _); try done.
  destruct (segment_address_decode a) as [id rank]. destruct (find_segment _ _); try done. destruct (Segment_new _ _ _); try done. by destruct (connect_ports _ _ _) as [[]| | |].
Qed.
Lemma keeps_stop a : keeps (stop_segment a).
Proof.
  intros i. unfold stop_segment, mbind, M_bind, get, lift. destruct (check _ _); try done. destruct (find_segment _ _); try done. apply keeps_on_segment.
Qed.
Lemma keeps_update : keeps (update shuffle).
Proof.
  intros i. unfold update, mbind at 1, M_bind at 1, get. unfold mbind at 1, M_bind at 1, lift. destruct (update_manifolds _ _) as [ms| | |]; try done.
  unfold mbind at 1, M_bind at 1, put. unfold mbind at 1, M_bind at 1. simpl.
  refine (eq_trans (frame_bind _ _ _ _ (set_manifolds ms i)) _); [|by intros []|done]. apply keeps_for. intros a. apply keeps_on_segment.
Qed.
Definition ckeeps {A} (m : M (Controller R D) A) : Prop := ∀ c, frame (c_pipeline (m c).2) = frame (c_pipeline c).
Lemma controller_bind {A B} (m : M (Controller R D) A) (f : A → M (Controller R D) B) : ckeeps m → (∀ a, ckeeps (f a)) → ckeeps (m ≫= f).
Proof.
  intros Hm Hf c. specialize (Hm c). unfold mbind, M_bind. destruct (m c) as [[a|x|x|x] c'] eqn:E; simpl in *; try done. by rewrite Hf.
Qed.
Lemma ckeeps_pipeline {A} (m : M (Instance_ R D) A) : keeps m → ckeeps (on_pipeline m).
Proof. intros Hm c. unfold on_pipeline. specialize (Hm (c_pipeline c)). by destruct (m (c_pipeline c)). Qed.
Lemma ckeeps_update new : ckeeps (controller_update shuffle new).
Proof.
  unfold controller_update. apply controller_bind; [done|]. intros c. apply controller_bind.
  - generalize (key_difference new (m_current_segments c)). intros l. induction l as [|a l IH]; cbn [create_segments]; [done|].
    apply controller_bind; [done|]. intros p. apply controller_bind; [apply ckeeps_pipeline, keeps_create|done].
  - intros ?. apply controller_bind; [|intros ?; apply controller_bind; [apply ckeeps_pipeline, keeps_update|done]].
    generalize (key_difference (m_current_segments c) new). intros l. induction l as [|b l IH]; cbn [stop_segments]; [done|].
    apply controller_bind; [apply ckeeps_pipeline, keeps_stop|done].
Qed.
End frame.

(** ** Running a pipeline *)
Lemma succeeds_assoc {S A B C} (m : M S A) (f : A → M S B) (g : B → M S C) s Q : succeeds ((m ≫= f) ≫= g) s Q → succeeds (m ≫= λ a, f a ≫= g) s Q.
Proof. unfold succeeds, mbind, M_bind. by destruct (m s) as [[] ?]. Qed.
Local Open Scope list_scope.
Lemma hash_u16 name : is_u16 (segment_name_hash name).
Proof. unfold segment_name_hash, hash_16, is_u16. change 0xFFFF with (Z.ones 16). rewrite Z.land_ones by lia. by apply Z.mod_pos_bound. Qed.
Definition initial_addresses (l : imap Definition_) : list Z := (λ kv, segment_address_encode kv.1 0) <$> l.
Lemma initial_fold (l : imap Definition_) (acc : imap Z) : imap_ok acc →
  let res := foldl (λ (r : imap Z) (kv : Z * Definition_), imap_set (segment_address_encode kv.1 0) 0 r) acc l in
  imap_ok res ∧ ∀ a, imap_find a res = if decide (a ∈ initial_addresses l) then Some 0 else imap_find a acc.
Proof.
  revert acc. induction l as [|kv l IH]; intros acc Hok; simpl; [done|].
  destruct (IH (imap_set (segment_address_encode kv.1 0) 0 acc)) as [K1 K2]; [by apply imap_set_ok|].
  split; [done|]. intros a. rewrite K2, imap_find_set by done. repeat case_decide; set_solver.
Qed.
Section running.
Context {R : Type} `{RunnerI R} `{Ignition R} {D : Type} `{Shuffler}.
Context (Hshuffle : ∀ l, random_shuffle l ≡ₚ l) (Hlive : ∀ r : R, (runner_await_live r).1 = Ret ()).
Implicit Types (i : Instance_ R D) (c : Controller R D) (m : Manager R D) (e : Executor R D).

(** An assignment of segments of the pipeline [p] to [n] partitions that keeps what
    [cur] assigns. *)
Record grows (p : Pipeline) (n : Z) (cur new : imap Z) : Prop := {
  g_nodup : NoDup new.*1;
  g_keeps a : a ∈ cur.*1 → a ∈ new.*1;
  g_valid a q : imap_find a new = Some q → 0 ≤ a < 2 ^ 32 ∧ q < n ∧ is_Some (imap_find (segment_address_decode a).1 (m_definitions p));
}.
Fixpoint chain (p : Pipeline) (n : Z) (cur : imap Z) (us : list (imap Z)) : Prop :=
  match us with [] => True | u :: us => grows p n cur u ∧ chain p n u us end.
(** The controller has carried out the assignment [cur]; the segments of [failed] are being
    killed after a failure, the others run. *)
Record steady (p : Pipeline) (n : Z) (cur : imap Z) (failed : list Z) c : Prop := {
  st_frame : frame (c_pipeline c) = (Running, p, n);
  st_ok : instance_ok (c_pipeline c);
  st_current : m_current_segments c = cur;
  st_keys a : a ∈ (i_segments (c_pipeline c)).*1 ↔ a ∈ cur.*1;
  st_known a : a ∈ cur.*1 → is_Some (imap_find (segment_address_decode a).1 (m_definitions p));
  st_status a s : imap_find a (i_segments (c_pipeline c)) = Some s → s_state s = if decide (a ∈ failed) then Killing else Running;
  st_failed a : a ∈ failed → a ∈ cur.*1;
}.
(** ... the segments are wired, and can be joined. *)
Record running (p : Pipeline) (n : Z) (cur : imap Z) (failed : list Z) c : Prop := {
  rn_steady : steady p n cur failed c;
  rn_joinable : i_joinable (c_pipeline c) = true;
  rn_flushed k b : smap_find k (i_manifolds (c_pipeline c)) = Some b → flushed b;
  rn_wired a s k q : imap_find a (i_segments (c_pipeline c)) = Some s → smap_find k (m_ingress_ports (s_builder s)) = Some q →
    ∃ b, smap_find k (i_manifolds (c_pipeline c)) = Some b ∧ is_Some (m_outputs (m_egress b) !! a);
}.
Lemma steady_ready p n cur failed new c : steady p n cur failed c → grows p n cur new → update_ready new c.
Proof using.
  clear Hshuffle Hlive. intros [Hf Hok Hcur Hk Hkn _ _] [Hnd Hsub Hv]. subst cur. split; try done.
  intros a q Hq. unfold assignable. unfold frame in Hf. injection Hf as _ -> ->. by apply Hv.
Qed.
Lemma handle_update p n cur new c : steady p n cur [] c → grows p n cur new →
  succeeds (on_message (Update new)) c (λ _ c', running p n new (failed_at_start (R := R) p cur new) c').
Proof.
  intros Hst Hg. pose proof (steady_ready _ _ _ _ _ _ Hst Hg) as Hready. destruct Hst as [Hf Hok Hcur Hk Hkn Hs _]. destruct Hg as [Hnd Hsub Hv]. subst cur.
  pose proof (ckeeps_update random_shuffle new c) as Hfr.
  destruct (update_succeeds random_shuffle Hshuffle Hlive new c Hready) as (u & c' & Hr & K1 & K2 & K3 & K4 & K5 & K6 & K7).
  { intros a s Ha. rewrite (Hs a s Ha). by rewrite decide_False by (by intros ?%elem_of_nil). }
  exists u, c'. unfold on_message. cbn [on_data]. rewrite Hr in *. simpl in Hfr. split; [done|]. assert (i_definition (c_pipeline c) = p) as Hp by (unfold frame in Hf; congruence).
  split; [|done..]. split; [by rewrite Hfr|done|done|done| |by rewrite Hp in K5|].
  - intros a [q Hq]%imap_find_key. by destruct (Hv a q Hq) as (_ & _ & ?).
  - intros a. unfold failed_at_start. by intros [_ ?]%list_elem_of_filter.
Qed.
Lemma handle_refused p n cur failed new c : steady p n cur failed c → grows p n cur new → failed ≠ [] → aborts start_refused (on_message (Update new)) c.
Proof.
  intros Hst Hg Hne. destruct failed as [|a failed]; [done|]. pose proof (steady_ready _ _ _ _ _ _ Hst Hg) as Hready.
  assert (a ∈ (i_segments (c_pipeline c)).*1) as [s Hs]%imap_find_key by (apply (st_keys _ _ _ _ _ Hst), (st_failed _ _ _ _ _ Hst); by left).
  destruct (update_refused random_shuffle Hshuffle Hlive new c a Hready) as [c' E].
  { exists s. split; [done|]. rewrite (st_status _ _ _ _ _ Hst a s Hs), decide_True by (by left). done. }
  exists c'. unfold on_message. cbn [on_data]. by rewrite E.
Qed.
(** A failing runner has its segment killed, and changes nothing else. *)
Record after_failure (a : Z) i i' : Prop := {
  af_frame : frame i' = frame i;
  af_joinable : i_joinable i' = i_joinable i;
  af_manifolds : i_manifolds i' = i_manifolds i;
  af_keys : (i_segments i').*1 = (i_segments i).*1;
  af_segments : imap_ok (i_segments i');
  af_segment x s' : imap_find x (i_segments i') = Some s' → ∃ s, imap_find x (i_segments i) = Some s ∧ s_builder s' = s_builder s ∧ s_address s' = s_address s ∧
    s_state s' = killed_if (bool_decide (x = a)) (s_state s);
}.
Lemma runner_fails_ok a i : imap_ok (i_segments i) → (∀ x s, imap_find x (i_segments i) = Some s → s_state s ≠ Initialized) →
  succeeds (runner_fails a) i (λ _, after_failure a i).
Proof using.
  clear Hshuffle Hlive. intros Hok Hni. unfold runner_fails. apply succeeds_get_bind.
  assert (∀ x s', imap_find x (i_segments i) = Some s' → x ≠ a → ∃ s, imap_find x (i_segments i) = Some s ∧ s_builder s' = s_builder s ∧ s_address s' = s_address s ∧
    s_state s' = killed_if (bool_decide (x = a)) (s_state s)) as Hsame by (intros x s' Hs Hx; exists s'; rewrite bool_decide_false by done; done).
  destruct (imap_find a (i_segments i)) as [s|] eqn:E.
  - rewrite bool_decide_false by (by eapply Hni). destruct (callback_runs s) as (s' & Ec & G1 & G2 & G3).
    unfold succeeds, on_segment. rewrite E, Ec. eexists _, _. split; [done|]. assert (a ∈ (i_segments i).*1) by (apply imap_find_key; by rewrite E).
    split; simpl; try done; [by apply imap_set_keys_eq|by apply imap_set_ok|]. intros x sx. rewrite imap_find_set by done. case_decide; [|by auto]. intros [= <-]. subst x.
    exists s. by rewrite bool_decide_true.
  - apply succeeds_ret. split; try done. intros x s' Hx. apply Hsame; [done|]. intros ->. congruence.
Qed.
Lemma failure_ok a i i' : after_failure a i i' → instance_ok i → (∀ x s, imap_find x (i_segments i) = Some s → s_state s = Running ∨ s_state s = Killing) → instance_ok i'.
Proof using.
  clear Hshuffle Hlive. intros [Hf Hj Hm Hk Hok Hs] [Q1 Q2 Q3 Q4 Q5 Q6] Hst. unfold frame in Hf. injection Hf as _ Hd _. split; rewrite ?Hm, ?Hk, ?Hd; try done.
  - intros x s' Hx. destruct (Hs x s' Hx) as (s & Hxs & Eb & Ea & Est). destruct (Q5 x s Hxs) as [Ha _]. split; [congruence|]. rewrite Est. destruct (Hst x s Hxs) as [-> | ->]; destruct (bool_decide _); auto.
  - intros x s' n q Hx. destruct (Hs x s' Hx) as (s & Hxs & Eb & _). rewrite Eb. by apply Q6.
Qed.
Lemma failure_steady p n cur failed a c c' : steady p n cur failed c → after_failure a (c_pipeline c) (c_pipeline c') → m_current_segments c' = m_current_segments c →
  steady p n cur (if bool_decide (a ∈ cur.*1) then a :: failed else failed) c'.
Proof using.
  clear Hshuffle Hlive. intros [Hf Hok Hcur Hk Hkn Hs Hfa] Haf Hc. assert (∀ x s, imap_find x (i_segments (c_pipeline c)) = Some s → s_state s = Running ∨ s_state s = Killing) as Hst.
  { intros x s Hx. rewrite (Hs x s Hx). case_decide; auto. }
  pose proof (failure_ok _ _ _ Haf Hok Hst) as Hok'. destruct Haf as [Hf' Hj Hm Hk' _ Hs']. split; rewrite ?Hf', ?Hk', ?Hc; try done.
  - intros x s' Hx. destruct (Hs' x s' Hx) as (s & Hxs & _ & _ & ->). rewrite (Hs x s Hxs).
    assert (x ∈ cur.*1) as Hxc by (apply Hk, imap_find_key; by rewrite Hxs). destruct (decide (x = a)) as [->|Hne].
    + rewrite !bool_decide_true by done. rewrite (decide_True (P := a ∈ a :: failed)) by (by left). by case_decide.
    + rewrite bool_decide_false by done. assert (x ∈ (if bool_decide (a ∈ cur.*1) then a :: failed else failed) ↔ x ∈ failed) as Hiff by (case_bool_decide; set_solver).
      by rewrite (decide_ext _ _ _ _ Hiff); case_decide.
  - intros x. case_bool_decide; [|by auto]. intros [->|?]%elem_of_cons; auto.
Qed.
Lemma failure_running p n cur failed a c c' : running p n cur failed c → after_failure a (c_pipeline c) (c_pipeline c') → m_current_segments c' = m_current_segments c →
  running p n cur (if bool_decide (a ∈ cur.*1) then a :: failed else failed) c'.
Proof using.
  clear Hshuffle Hlive. intros [Hst Hj Hfl Hw] Haf Hc. pose proof (failure_steady _ _ _ _ _ _ _ Hst Haf Hc) as Hst'. destruct Haf as [Hf' Hj' Hm Hk' _ Hs'].
  split; [done|by rewrite Hj'|by rewrite Hm|]. intros x s' k q Hx. destruct (Hs' x s' Hx) as (s & Hxs & -> & _). rewrite Hm. by apply Hw.
Qed.
Lemma initial_grows p n : pipeline_ok p → 1 ≤ n → grows p n [] (initial_segments p) ∧
  ∀ a, a ∈ (initial_segments p).*1 ↔ ∃ id d, imap_find id (m_definitions p) = Some d ∧ a = segment_address_encode id 0.
Proof.
  intros [Hok Hd] Hn. assert (∀ kv, kv ∈ m_definitions p → is_u16 kv.1 ∧ imap_find kv.1 (m_definitions p) = Some kv.2) as Hkv.
  { intros [id d] Hin. apply imap_find_Some in Hin; [|done]. split; [|done]. simpl. destruct (Hd id d Hin) as [<- _]. apply hash_u16. }
  destruct (initial_fold (m_definitions p) []) as [K1 K2]; [constructor|]. change (foldl _ _ _) with (initial_segments p) in K1, K2.
  assert (∀ a, a ∈ initial_addresses (m_definitions p) ↔ ∃ id d, imap_find id (m_definitions p) = Some d ∧ a = segment_address_encode id 0) as Ha.
  { intros a. unfold initial_addresses. rewrite list_elem_of_fmap. split.
    - intros ([id d] & -> & Hin). exists id, d. split; [by apply (Hkv (id, d))|done].
    - intros (id & d & Hf & ->). exists (id, d). split; [done|by apply imap_find_Some]. }
  split; [split|].
  - by apply imap_ok_NoDup.
  - by intros a ?%elem_of_nil.
  - intros a q. rewrite K2. case_decide as E; [|done]. intros [= <-]. apply Ha in E as (id & d & Hf & ->).
    destruct (Hkv (id, d)) as [Hu _]; [by apply imap_find_Some|]. simpl in Hu.
    rewrite segment_decode_encode by (done || by split). simpl. split; [|split; [lia|by exists d]]. rewrite segment_address_eq by (done || by split). unfold is_u16 in Hu. lia.
  - intros a. rewrite <-imap_find_key, <-Ha, K2. case_decide; [|by split; [intros []|]]. split; [done|by eexists].
Qed.

(** What happens to an executor, in any order: the application pushes an update, the
    controller's task handles the next message, a runner of a segment fails. *)
Inductive op := Push (u : imap Z) | Turn | RunnerFails (a : Z).
Definition play_op (o : op) : M (Executor R D) () :=
  match o with
  | Push u => on_manager (push_updates u)
  | Turn => on_manager controller_turn
  | RunnerFails a => on_manager (on_controller (on_pipeline (runner_fails a)))
  end.
Fixpoint play (ops : list op) : M (Executor R D) () :=
  match ops with [] => mret () | o :: ops => play_op o ;; play ops end.
Definition pushes (ops : list op) : list (imap Z) := omap (λ o, match o with Push u => Some u | _ => None end) ops.
(** What it should look like from outside: the updates that wait, the assignment carried
    out last, and the segments that have failed since they were started.  [None]: the
    process has ended, because an update was handled when a segment had failed. *)
Record view := mkView { v_todo : list (imap Z); v_current : imap Z; v_failed : list Z }.
Definition see (p : Pipeline) (v : view) (o : op) : option view :=
  match o with
  | Push u => Some (mkView (v_todo v ++ [u]) (v_current v) (v_failed v))
  | RunnerFails a => Some (mkView (v_todo v) (v_current v) (if bool_decide (a ∈ (v_current v).*1) then a :: v_failed v else v_failed v))
  | Turn =>
      match v_todo v, v_failed v with
      | [], _ => Some v
      | u :: todo, [] => Some (mkView todo u (failed_at_start (R := R) p (v_current v) u))
      | _ :: _, _ :: _ => None
      end
  end.
Fixpoint views (p : Pipeline) (v : view) (ops : list op) : option view :=
  match ops with [] => Some v | o :: ops => v' ← see p v o; views p v' ops end.
Definition registered (p : Pipeline) : view := mkView [initial_segments p] [] [].
Lemma play_app l1 l2 e : play (l1 ++ l2) e = match play l1 e with (Ret _, e') => play l2 e' | (Throw x, e') => (Throw x, e') | (Abort x, e') => (Abort x, e') | (Undefined x, e') => (Undefined x, e') end.
Proof using. clear. revert e. induction l1 as [|o l1 IH]; intros e; [done|]. cbn [app play]. unfold mbind, M_bind. destruct (play_op o e) as [[]]; [apply IH|done..]. Qed.
Definition current (us : list (imap Z)) : imap Z := default [] (last us).
Lemma chain_at p n cur us u us' : chain p n cur (us ++ u :: us') → grows p n (default cur (last us)) u.
Proof.
  revert cur. induction us as [|v us IH]; intros cur; simpl; [by intros [? _]|]. intros [_ Hc]. specialize (IH v Hc). destruct us as [|w us]; [done|].
  rewrite last_cons_cons. destruct (last (w :: us)) eqn:E; [exact IH|]. by apply last_None in E.
Qed.
(** Updates [pushed] so far, of which the controller has carried out [handled]. *)
Record serving (p : Pipeline) (n : Z) (pushed handled : list (imap Z)) (v : view) e : Prop := {
  sv_state : ex_state e = Running;
  sv_split : pushed = handled ++ v_todo v;
  sv_current : v_current v = current handled;
  sv_manager : ∃ m c, m_pipeline_manager e = Some m ∧ mg_state m = Running ∧ m_update_channel m = Some (Update <$> v_todo v) ∧ m_controller m = Some c ∧
    steady p n (v_current v) (v_failed v) c ∧ (handled ≠ [] → running p n (v_current v) (v_failed v) c);
}.
Lemma push_serving p n pushed handled v u e : serving p n pushed handled v e →
  succeeds (play_op (Push u)) e (λ _ e', serving p n (pushed ++ [u]) handled (mkView (v_todo v ++ [u]) (v_current v) (v_failed v)) e').
Proof using.
  clear Hshuffle Hlive. intros [Hst -> Hcur (m & c & Hm & Hms & Hq & Hc & Hs & Hr)]. cbn [play_op]. unfold on_manager, push_updates, succeeds. rewrite Hm. unfold mbind, M_bind, get, lift, check. rewrite bool_decide_true by (by rewrite Hq).
  simpl. unfold write_message. rewrite Hq. eexists _, _. split; [done|]. split; simpl; [done|by rewrite app_assoc|done|].
  eexists _, c. split; [done|]. simpl. rewrite fmap_app. done.
Qed.
(** A runner fails, whatever the services are doing. *)
Lemma failure_plays a e m c : m_pipeline_manager e = Some m → m_controller m = Some c → imap_ok (i_segments (c_pipeline c)) →
  (∀ x s, imap_find x (i_segments (c_pipeline c)) = Some s → s_state s ≠ Initialized) →
  ∃ i', play_op (RunnerFails a) e = (Ret (), mkExecutor (ex_state e) (ex_partitions e) (Some (set_controller (mkController i' (m_current_segments c)) m))) ∧ after_failure a (c_pipeline c) i'.
Proof using.
  clear Hshuffle Hlive. intros Hm Hc Hok Hni. destruct (runner_fails_ok a (c_pipeline c) Hok Hni) as ([] & i' & E & Haf). exists i'. split; [|done].
  cbn [play_op]. unfold on_manager, on_controller, on_pipeline. by rewrite Hm, Hc, E.
Qed.
Lemma failure_serving p n pushed handled v a e : serving p n pushed handled v e →
  succeeds (play_op (RunnerFails a)) e (λ _ e', serving p n pushed handled (mkView (v_todo v) (v_current v) (if bool_decide (a ∈ (v_current v).*1) then a :: v_failed v else v_failed v)) e').
Proof using.
  clear Hshuffle Hlive. intros [Hst Hsp Hcur (m & c & Hm & Hms & Hq & Hc & Hs & Hr)].
  destruct (failure_plays a e m c Hm Hc) as (i' & E & Haf); [apply Hs| |].
  { intros x s Hx. rewrite (st_status _ _ _ _ _ Hs x s Hx). by case_decide. }
  eexists _, _. split; [exact E|]. split; simpl; [done|done|done|]. eexists _, _. split; [done|]. simpl. split_and!; try done.
  - by apply (failure_steady _ _ _ _ _ c).
  - intros Hh. by apply (failure_running _ _ _ _ _ c); [apply Hr|..].
Qed.
Lemma turn_serving p n pushed handled v e : chain p n [] pushed → serving p n pushed handled v e →
  match see p v Turn with
  | Some v' => succeeds (play_op Turn) e (λ _ e', ∃ handled', serving p n pushed handled' v' e')
  | None => aborts start_refused (play_op Turn) e
  end.
Proof.
  intros Hch [Hst -> Hcur (m & c & Hm & Hms & Hq & Hc & Hs & Hr)]. cbn [play_op see]. destruct v as [todo cur failed]. simpl in *. subst cur.
  unfold on_manager, controller_turn, succeeds, aborts. rewrite Hm. unfold mbind, M_bind, get. rewrite Hq. destruct todo as [|u todo].
  - simpl. eexists _, _. split; [done|]. exists handled. split; [done|done|done|]. by exists m, c.
  - pose proof (chain_at _ _ _ _ _ _ Hch) as Hg. change (default [] (last handled)) with (current handled) in Hg. simpl. unfold on_controller, put. simpl. rewrite Hc. destruct failed as [|a failed].
    + destruct (handle_update p n (current handled) u c Hs Hg) as (x & c' & E & Hrun).
      rewrite E. eexists _, _. split; [done|]. exists (handled ++ [u]). split; cbn [ex_state v_todo v_current v_failed m_pipeline_manager]; [done|by rewrite <-app_assoc|unfold current; by rewrite last_snoc|].
      eexists _, c'. split; [done|]. simpl. split_and!; try done. apply Hrun.
    + destruct (handle_refused p n (current handled) (a :: failed) u c Hs Hg) as [c' E]; [done|]. rewrite E. by eexists.
Qed.
Lemma chain_prefix p n cur us us' : chain p n cur (us ++ us') → chain p n cur us.
Proof using. clear. revert cur. induction us as [|u us IH]; intros cur; simpl; [done|]. intros [? ?]. split; [done|]. by apply IH. Qed.
Lemma play_serving p n ops pushed handled v e : chain p n [] (pushed ++ pushes ops) → serving p n pushed handled v e →
  match views p v ops with
  | Some v' => succeeds (play ops) e (λ _ e', ∃ handled', serving p n (pushed ++ pushes ops) handled' v' e')
  | None => aborts start_refused (play ops) e
  end.
Proof.
  revert pushed handled v e. induction ops as [|o ops IH]; intros pushed handled v e Hch Hs; cbn [play views].
  { apply succeeds_ret. exists handled. by rewrite app_nil_r. }
  assert (∀ pushed' v' , chain p n [] (pushed' ++ pushes ops) → pushed' ++ pushes ops = pushed ++ pushes (o :: ops) →
    succeeds (play_op o) e (λ _ e', ∃ handled', serving p n pushed' handled' v' e') →
    match views p v' ops with
    | Some v' => succeeds (play_op o ;; play ops) e (λ _ e', ∃ handled', serving p n (pushed ++ pushes (o :: ops)) handled' v' e')
    | None => aborts start_refused (play_op o ;; play ops) e
    end) as Hstep.
  { intros pushed' v' Hch' Eq Hop. rewrite <-Eq. destruct (views p v' ops) as [v2|] eqn:Ev.
    - eapply succeeds_bind; [exact Hop|]. intros [] e1 [h1 Hs1]. specialize (IH pushed' h1 v' e1 Hch' Hs1). by rewrite Ev in IH.
    - eapply aborts_later; [exact Hop|]. intros [] e1 [h1 Hs1]. specialize (IH pushed' h1 v' e1 Hch' Hs1). by rewrite Ev in IH. }
  destruct o as [u| |a].
  - apply (Hstep (pushed ++ [u])); [by rewrite <-app_assoc|by rewrite <-app_assoc|]. eapply succeeds_weaken; [by apply push_serving|]. intros [] e1 ?. by eexists.
  - pose proof (turn_serving p n pushed handled v e (chain_prefix _ _ _ _ _ Hch) Hs) as Ht. destruct (see p v Turn) as [v'|]; [by apply (Hstep pushed)|by apply aborts_bind].
  - apply (Hstep pushed); [done|done|]. eapply succeeds_weaken; [by apply failure_serving|]. intros [] e1 ?. by eexists.
Qed.
(** Without failures no update ends the process. *)
Lemma quiet_views p v ops : v_failed v = [] → (∀ a, RunnerFails a ∉ ops) → (∀ a name, reported (R := R) a name = false) → is_Some (views p v ops).
Proof using.
  clear Hshuffle Hlive. intros Hv Hops Hrep. revert v Hv. induction ops as [|o ops IH]; intros v Hv; [by eexists|]. cbn [views].
  assert (∀ a, RunnerFails a ∉ ops) as Hops' by (intros a Ha; apply (Hops a); by right). destruct o as [u| |a]; [by apply IH| |by destruct (Hops a); left].
  cbn [see]. destruct v as [[|u todo] cur failed]; simpl in Hv; subst failed; [by apply IH|]. apply IH; [done|]. simpl.
  apply elem_of_nil_inv. intros a. unfold failed_at_start. rewrite list_elem_of_filter. intros [[_ Hf] _]. unfold fails_early in Hf.
  apply existsb_exists in Hf as (name & _ & Hf). by rewrite Hrep in Hf.
Qed.
Definition first_controller (p : Pipeline) (n : Z) : Controller R D := mkController (mkInstance Running p n [] [] false) [].
Lemma instance_start_steady p n : pipeline_ok p → steady p n [] [] (first_controller p n).
Proof. intros Hp. split; simpl; try done; [|by intros a ?%elem_of_nil]. split; simpl; try done; constructor. Qed.
Lemma register_serving p n : pipeline_ok p → 1 ≤ n →
  succeeds (register_pipeline p ;; service_start) (Executor_new n) (λ _ e, serving p n [initial_segments p] [] (registered p) e).
Proof.
  intros Hp Hn. pose proof (instance_start_steady p n Hp) as Hs. set (c := first_controller p n) in *. eapply succeeds_bind with (Q := λ _ e, ex_state e = Initialized ∧
    ∃ m, m_pipeline_manager e = Some m ∧ mg_state m = Running ∧ m_update_channel m = Some [Update (initial_segments p)] ∧ m_controller m = Some c).
  - unfold register_pipeline, succeeds, Manager_new, service_start, forward_state, mbind, M_bind, get, lift, check. simpl. rewrite (proj2 (Z.leb_le 1 n) Hn). simpl.
    eexists _, _. split; [done|]. simpl. split; [done|]. by eexists.
  - intros [] e (Hst & m & Hm & Hms & Hq & Hc'). destruct e as [st k mm]. simpl in *. subst. destruct m as [mst mp mn mq mc]. simpl in *. subst.
    unfold succeeds, service_start, forward_state, mbind, M_bind, get, lift, check. simpl. eexists _, _. split; [done|]. split; simpl; [done|done|done|].
    eexists _, c. split; [done|]. simpl. done.
Qed.

Definition start_up (p : Pipeline) (ops : list op) : M (Executor R D) () := register_pipeline p ;; service_start ;; play ops.
(** The executor is stopped; runners fail before and after the controller handles that. *)
Definition shut_down (early late : list Z) : M (Executor R D) () :=
  service_stop ;; play ((RunnerFails <$> early) ++ [Turn] ++ (RunnerFails <$> late)) ;; service_await_join.
Lemma play_all p n ops : pipeline_ok p → 1 ≤ n → chain p n (initial_segments p) (pushes ops) →
  match views p (registered p) ops with
  | Some v => succeeds (start_up p ops) (Executor_new n) (λ _ e, ∃ handled, serving p n (initial_segments p :: pushes ops) handled v e)
  | None => aborts start_refused (start_up p ops) (Executor_new n)
  end.
Proof.
  intros Hp Hn Hch. assert (chain p n [] ([initial_segments p] ++ pushes ops)) as Hch' by (split; [by apply initial_grows|done]).
  destruct (register_serving p n Hp Hn) as ([] & e & E & Hs). pose proof (play_serving p n ops _ _ _ _ Hch' Hs) as Hplay.
  assert (start_up p ops (Executor_new n) = play ops e) as Eq.
  { revert E. unfold start_up, mbind, M_bind. destruct (register_pipeline p (Executor_new n)) as [[]]; try done. by intros ->. }
  unfold succeeds, aborts in *. rewrite Eq. exact Hplay.
Qed.
Lemma current_cons (u : imap Z) us : current (u :: us) = default u (last us).
Proof. unfold current. rewrite last_cons. by destruct (last us). Qed.

End running.

(** ** Shutting down *)
Section shutdown.
Context {R : Type} `{RunnerI R} `{Ignition R} {D : Type} `{Shuffler}.
(** A runner that is joined returns or throws what its task threw. *)
Context (Hjoins : ∀ r : R, joins r).
Implicit Types (i : Instance_ R D) (c : Controller R D) (m : Manager R D) (e : Executor R D).

Definition in_state (a : Z) (st : ServiceState) i : Prop := ∃ s, imap_find a (i_segments i) = Some s ∧ s_state s = st.
(** Segments that were started and not joined. *)
Definition started i : Prop := imap_ok (i_segments i) ∧ ∀ a s, imap_find a (i_segments i) = Some s → s_state s ≠ Initialized ∧ s_state s ≠ Completed.
(** Stopping such a segment. *)
Lemma stop_one a i : started i → a ∈ (i_segments i).*1 → is_Some (imap_find (segment_address_decode a).1 (m_definitions (i_definition i))) →
  succeeds (stop_segment a) i (λ _ i', started i' ∧ (i_segments i').*1 = (i_segments i).*1 ∧ frame i' = frame i ∧ i_joinable i' = i_joinable i).
Proof using.
  clear Hjoins. intros [Hok Hst] Hin [d Hd]. pose proof Hin as [s Hs]%imap_find_key. unfold stop_segment. apply succeeds_get_bind. eapply succeeds_lift_bind; [unfold check; by rewrite Hs, bool_decide_true|].
  eapply succeeds_lift_bind; [unfold find_segment; by rewrite Hd|]. unfold succeeds, on_segment. rewrite Hs.
  assert (∃ s', service_stop s = (Ret (), s') ∧ s_state s' ≠ Initialized ∧ s_state s' ≠ Completed) as (s' & -> & Hs').
  { destruct (ss_lt (s_state s) Stopping) eqn:E; [rewrite service_stop_run by done; by eexists|]. rewrite service_stop_skip by done. exists s. split; [done|]. by eapply Hst. }
  eexists _, _. split; [done|]. simpl. split_and!; [split; simpl; [by apply imap_set_ok|]|by apply imap_set_keys_eq|done|done].
  intros b sb. rewrite imap_find_set by done. case_decide; [by intros [= <-]|apply Hst].
Qed.
Lemma stop_all l i : started i → l ⊆ (i_segments i).*1 →
  (∀ a, a ∈ l → is_Some (imap_find (segment_address_decode a).1 (m_definitions (i_definition i)))) →
  succeeds (for_segments stop_segment l) i (λ _ i', started i' ∧ (i_segments i').*1 = (i_segments i).*1 ∧ frame i' = frame i ∧ i_joinable i' = i_joinable i).
Proof using.
  clear Hjoins. revert i. induction l as [|a l IH]; intros i Hst Hl Hkn; cbn [for_segments]; [by apply succeeds_ret|].
  eapply succeeds_bind; [apply stop_one; [done|set_solver|apply Hkn; by left]|]. intros [] i1 (Hst1 & Hk1 & Hf1 & Hj1).
  eapply succeeds_weaken; [apply IH; [done|rewrite Hk1; set_solver|]|].
  - intros b Hb. unfold frame in Hf1. injection Hf1 as _ Hd _. rewrite Hd. apply Hkn. by right.
  - intros [] i2 (Hst2 & Hk2 & Hf2 & Hj2). by rewrite Hk2, Hf2, Hj2.
Qed.
(** Joining a segment: it is completed, or a failure of its runners is thrown. *)
Lemma join_segment_cases (s : Segment R) : s_state s ≠ Completed →
  (∃ s', service_await_join s = (Ret (), s') ∧ s_state s' = Completed) ∨
  (∃ x s' (r : R), service_await_join s = (Throw x, s') ∧ thrown r = Some x).
Proof.
  intros Hs. pose proof (segment_join_all (set_state Awaiting s)) as Hj. simpl in Hj. rewrite Forall_forall in Hj. specialize (Hj ltac:(auto)).
  destruct (head _) as [x|] eqn:E.
  - right. apply head_Some_elem_of in E. apply list_elem_of_omap in E as ([k r] & _ & Hr). exists x. unfold service_await_join, mbind, M_bind, get, put. simpl.
    assert (ss_lt (s_state s) Completed = true) as -> by (by destruct (s_state s)). rewrite Hj. eexists _, r. by split.
  - left. destruct (service_await_join_ok s) as (s' & ? & ?); [done|simpl; by rewrite Hj|]. by exists s'.
Qed.
Lemma join_all l first i : NoDup l → imap_ok (i_segments i) → (∀ a, a ∈ l → ∃ s, imap_find a (i_segments i) = Some s ∧ s_state s ≠ Completed) →
  ∃ f i', join_segments l first i = (Ret f, i') ∧ imap_ok (i_segments i') ∧ (i_segments i').*1 = (i_segments i).*1 ∧ frame i' = frame i ∧
    (f = None → first = None ∧ ∀ a, a ∈ l → in_state a Completed i') ∧ (∀ b, b ∉ l → imap_find b (i_segments i') = imap_find b (i_segments i)) ∧
    (∀ x, f = Some x → first = Some x ∨ ∃ r : R, thrown r = Some x).
Proof.
  intros Hnd. revert first i. induction Hnd as [|a l Ha _ IH]; intros first i Hok Hst; cbn [join_segments].
  { exists first, i. split_and!; try done; [|by left]. intros ->. split; [done|]. by intros ? ?%elem_of_nil. }
  destruct (Hst a) as (s & Hs & Hss); [by left|]. unfold on_segment. rewrite Hs.
  assert (a ∈ (i_segments i).*1) as Hin by (apply imap_find_key; by rewrite Hs).
  assert (∀ s' b, b ≠ a → imap_find b (i_segments (set_segments (imap_set a s' (i_segments i)) i)) = imap_find b (i_segments i)) as Hother
    by (intros s' b Hb; simpl; by rewrite imap_find_set, decide_False).
  assert (∀ s', imap_ok (imap_set a s' (i_segments i)) ∧ (imap_set a s' (i_segments i)).*1 = (i_segments i).*1) as Hset by (intros s'; by split; [apply imap_set_ok|apply imap_set_keys_eq]).
  assert (∀ s' b, b ∈ l → ∃ sb, imap_find b (i_segments (set_segments (imap_set a s' (i_segments i)) i)) = Some sb ∧ s_state sb ≠ Completed) as Hrest.
  { intros s' b Hb. destruct (Hst b) as (sb & Hsb & ?); [by right|]. exists sb. rewrite Hother; [done|]. by intros ->. }
  destruct (join_segment_cases s Hss) as [(s' & -> & Hc)|(x & s' & r & -> & Hthrow)]; destruct (Hset s') as [Hok' Hk'].
  - destruct (IH first (set_segments (imap_set a s' (i_segments i)) i) Hok' (Hrest s')) as (f & i' & -> & K1 & K2 & K3 & K4 & K5 & K6).
    exists f, i'. split; [done|]. split_and!; [done|by rewrite K2|done| | |done].
    + intros Hf. destruct (K4 Hf) as [? K4']. split; [done|]. intros b [->|Hb]%elem_of_cons; [|by apply K4'].
      exists s'. rewrite K5 by done. simpl. by rewrite imap_find_set, decide_True.
    + intros b Hb. rewrite K5, Hother; [done|set_solver|set_solver].
  - destruct (IH (match first with None => Some x | Some _ => first end) (set_segments (imap_set a s' (i_segments i)) i) Hok' (Hrest s')) as (f & i' & -> & K1 & K2 & K3 & K4 & K5 & K6).
    exists f, i'. split; [done|]. split_and!; [done|by rewrite K2|done| | |].
    + intros Hf. destruct (K4 Hf) as [Hn _]. by destruct first.
    + intros b Hb. rewrite K5, Hother; [done|set_solver|set_solver].
    + intros y Hy. destruct (K6 y Hy) as [Hy'|?]; [|by right]. destruct first; [by left|]. injection Hy' as <-. right. by exists r.
Qed.

(** The controller handles the stop message. *)
Lemma handle_stop p n cur failed c : running p n cur failed c →
  succeeds (on_message StopMessage) c (λ _ c', i_state (c_pipeline c') = Stopping ∧ i_joinable (c_pipeline c') = true ∧ started (c_pipeline c') ∧
    (i_segments (c_pipeline c')).*1 = (i_segments (c_pipeline c)).*1).
Proof using.
  clear Hjoins. intros [[Hf Hok _ Hk Hkn Hs _] Hj _ _]. unfold frame in Hf. injection Hf as Hst Hd _. destruct c as [i cur']. simpl in *.
  set (i1 := mkInstance Stopping (i_definition i) (i_partitions i) (i_segments i) (i_manifolds i) true).
  destruct (stop_all (i_segments i).*1 i1) as ([] & i2 & E & K1 & K2 & K3 & K4).
  - split; [apply Hok|]. intros a s Ha. rewrite (Hs a s Ha). by case_decide.
  - done.
  - intros a Ha. simpl. rewrite Hd. by apply Hkn, Hk.
  - unfold succeeds, on_message. cbn [on_data]. unfold on_pipeline. simpl. rewrite service_stop_run by (simpl; by rewrite Hst).
    change (do_service_stop (set_m_state Stopping i)) with (for_segments (stop_segment (R := R) (D := D)) (i_segments i).*1 i1). rewrite E. eexists _, _. split; [done|]. simpl.
    unfold frame in K3. injection K3 as -> _ _. split_and!; [done|by rewrite K4|done|done].
Qed.
(** Runners fail while an executor shuts down. *)
Lemma failures_play l e m c : m_pipeline_manager e = Some m → m_controller m = Some c → started (c_pipeline c) →
  ∃ c', play (RunnerFails <$> l) e = (Ret (), mkExecutor (ex_state e) (ex_partitions e) (Some (set_controller c' m))) ∧ started (c_pipeline c') ∧
    frame (c_pipeline c') = frame (c_pipeline c) ∧ i_joinable (c_pipeline c') = i_joinable (c_pipeline c) ∧ (i_segments (c_pipeline c')).*1 = (i_segments (c_pipeline c)).*1 ∧
    ∀ p n cur failed, running p n cur failed c → ∃ failed', running p n cur failed' c'.
Proof using.
  clear Hjoins. revert e m c. induction l as [|a l IH]; intros e m c Hm Hc [Hok Hst].
  { exists c. destruct e, m. simpl in *. subst. split_and!; try done. by eauto. }
  cbn [fmap list_fmap play]. destruct (failure_plays a e m c Hm Hc Hok) as (i' & E & Haf); [by intros x s Hx; apply (Hst x)|].
  unfold mbind, M_bind. rewrite E. set (c1 := mkController i' (m_current_segments c)). destruct (IH (mkExecutor (ex_state e) (ex_partitions e) (Some (set_controller c1 m))) (set_controller c1 m) c1) as (c' & -> & K1 & K2 & K3 & K4 & K5); [done|done| |].
  - split; [apply Haf|]. intros x s' Hx. destruct (af_segment _ _ _ Haf x s' Hx) as (s & Hxs & _ & _ & ->). destruct (Hst x s Hxs) as [? ?]. by destruct (bool_decide _), (s_state s).
  - exists c'. split_and!; [done|done|by rewrite K2; apply Haf|by rewrite K3; apply Haf|by rewrite K4; apply Haf|].
    intros p n cur failed Hr. eapply K5. by eapply failure_running.
Qed.
Lemma join_instance i : i_state i = Stopping → i_joinable i = true → started i →
  ∃ x i', service_await_join i = (x, i') ∧ (x = Ret () ∨ ∃ err (r : R), x = Throw err ∧ thrown r = Some err) ∧ (i_segments i').*1 = (i_segments i).*1 ∧
    (x = Ret () → i_state i' = Completed ∧ ∀ a, a ∈ (i_segments i).*1 → in_state a Completed i').
Proof.
  intros Hst Hj [Hok Hs]. unfold service_await_join, mbind at 1, M_bind at 1, get. simpl. rewrite Hst. simpl. unfold mbind at 1, M_bind at 1, put. simpl.
  set (i1 := set_istate Awaiting i). destruct (join_all (i_segments i1).*1 None i1) as (f & i2 & E & K1 & K2 & K3 & K4 & _ & K6); [by apply imap_ok_NoDup|done| |].
  { intros a [s Ha]%imap_find_key. exists s. split; [done|]. by apply (Hs a). }
  unfold instance_await_join, await_joinable, mbind, M_bind, get, lift. simpl. rewrite Hj. simpl. unfold addresses. rewrite E. simpl.
  unfold frame in K3. injection K3 as Hst2 _ _. simpl in K2, Hst2. destruct f as [x|]; simpl.
  - eexists _, _. split; [done|]. split; [right|by split]. destruct (K6 x eq_refl) as [?|[r Hr]]; [done|]. by exists x, r.
  - unfold forward_state, mbind, M_bind, get, lift, check. simpl. rewrite Hst2. simpl. eexists _, _. split; [done|]. split; [by left|]. split; [done|].
    intros _. split; [done|]. by apply K4.
Qed.
(** The manager passes on what the pipeline returns, after it closed the channel. *)
Lemma join_manager m c x i : mg_state m = Stopping → m_update_channel m = Some [] → m_controller m = Some c → service_await_join (c_pipeline c) = (x, i) →
  (x = Ret () ∨ ∃ err, x = Throw err) →
  ∃ m', service_await_join m = (x, m') ∧ m_update_channel m' = None ∧ m_controller m' = Some (mkController i (m_current_segments c)) ∧ (x = Ret () → mg_state m' = Completed).
Proof.
  intros Hst Hq Hc Ei Hx. destruct m as [st p n q mc]. simpl in *. subst. unfold service_await_join at 1, mbind at 1, M_bind at 1, get. simpl. unfold mbind at 1, M_bind at 1, put. simpl.
  assert (manager_await_join (set_mg_state Awaiting (mkManager Stopping p n (Some []) (Some c))) = (x, mkManager Awaiting p n None (Some (mkController i (m_current_segments c))))) as Ej.
  { unfold manager_await_join, on_controller, await_on_pipeline, on_pipeline. simpl. rewrite Ei. by destruct Hx as [->|[err ->]]. }
  unfold mbind at 1, M_bind at 1. rewrite Ej. destruct Hx as [->|[err ->]]; by eexists.
Qed.
Lemma join_executor e m m' x : ex_state e = Stopping → m_pipeline_manager e = Some m → service_await_join m = (x, m') → (x = Ret () ∨ ∃ err, x = Throw err) →
  ∃ e', service_await_join e = (x, e') ∧ m_pipeline_manager e' = Some m' ∧ (x = Ret () → ex_state e' = Completed).
Proof.
  intros Hst Hm Ej Hx. destruct e as [st n mm]. simpl in *. subst. unfold service_await_join at 1, mbind at 1, M_bind at 1, get. simpl. unfold mbind at 1, M_bind at 1, put. simpl.
  unfold mbind at 1, M_bind at 1, on_manager. simpl. rewrite Ej. destruct Hx as [->|[err ->]]; by eexists.
Qed.
End shutdown.

Section life_cycle.
Context {R : Type} `{RunnerI R} `{Ignition R} {D : Type} `{Shuffler}.
Context (Hshuffle : ∀ l, random_shuffle l ≡ₚ l) (Hlive : ∀ r : R, (runner_await_live r).1 = Ret ()) (Hjoins : ∀ r : R, joins r).

(** C5: the executor runs what it is given.  Once a pipeline is registered and the executor
    started, updates are pushed, the controller handles them and runners fail, in any
    order; the outcome is that of [views].  Updates are carried out in the order of the
    pushes.  While no update is handled after a failure nothing aborts or throws: executor
    and manager run, the channel holds the updates still to be handled, the segments are
    those of the update handled last, wired to their manifolds and joinable; those with a
    runner that failed, at their start or since, are being killed and the others run.  An
    update handled after a failure ends the process: a segment being killed cannot be
    started again.  Without failures this never happens.  Assumed: definitions with distinct
    port names and initializers that succeed and leave the ports alone ([pipeline_ok]);
    updates that keep the segments of the one before and assign known segments to existing
    partitions ([chain]); [await_live] of every runner returns. *)
Theorem executor_runs_pipeline p n ops : pipeline_ok p → 1 ≤ n → chain p n (initial_segments p) (pushes ops) →
  match views (R := R) p (registered p) ops with
  | Some v => succeeds (start_up (R := R) (D := D) p ops) (Executor_new n) (λ _ e,
      ex_state e = Running ∧ ∃ handled m c, initial_segments p :: pushes ops = handled ++ v_todo v ∧ v_current v = current handled ∧
        m_pipeline_manager e = Some m ∧ mg_state m = Running ∧ m_update_channel m = Some (Update <$> v_todo v) ∧ m_controller m = Some c ∧
        (handled ≠ [] → running p n (v_current v) (v_failed v) c))
  | None => aborts start_refused (start_up (R := R) (D := D) p ops) (Executor_new n)
  end ∧
  ((∀ a, RunnerFails a ∉ ops) → (∀ a name, reported (R := R) a name = false) → is_Some (views (R := R) p (registered p) ops)).
Proof.
  intros Hp Hn Hch. split; [|by apply quiet_views]. pose proof (play_all (R := R) (D := D) Hshuffle Hlive p n ops Hp Hn Hch) as Hplay. destruct (views _ _ _) as [v|]; [|done].
  eapply succeeds_weaken; [exact Hplay|]. intros [] e [h [Hst Hsp Hcur (m & c & Hm & Hms & Hq & Hc & _ & Hr)]]. split; [done|]. by exists h, m, c.
Qed.

(** The executor ends what it runs: a stop, handled by the controller after the
    updates, and a join bring it down, whether or not runners have failed.  The join
    returns or rethrows what a runner threw; the channel to the controller is closed; when
    it returns the executor, the manager, the pipeline and every segment are completed. *)
Lemma executor_shuts_down p n ops early late v : pipeline_ok p → 1 ≤ n → chain p n (initial_segments p) (pushes ops) →
  views (R := R) p (registered p) ops = Some v → v_todo v = [] →
  ∃ x e m c, (start_up (R := R) (D := D) p ops ;; shut_down early late) (Executor_new n) = (x, e) ∧ (x = Ret () ∨ ∃ err (r : R), x = Throw err ∧ thrown r = Some err) ∧
    m_pipeline_manager e = Some m ∧ m_update_channel m = None ∧ m_controller m = Some c ∧
    (x = Ret () → ex_state e = Completed ∧ mg_state m = Completed ∧ i_state (c_pipeline c) = Completed ∧
       ∀ a, a ∈ (default (initial_segments p) (last (pushes ops))).*1 → in_state a Completed (c_pipeline c)).
Proof.
  intros Hp Hn Hch Hv Htodo. pose proof (play_all (R := R) (D := D) Hshuffle Hlive p n ops Hp Hn Hch) as Hplay. rewrite Hv in Hplay.
  destruct Hplay as ([] & e & E & h & [Hst Hsp Hcur (m & c & Hm & Hms & Hq & Hc & _ & Hrun)]). rewrite Htodo in *. rewrite app_nil_r in Hsp. subst h. specialize (Hrun ltac:(done)).
  rewrite Hcur, current_cons in Hrun. set (cur := default (initial_segments p) (last (pushes ops))) in *. unfold mbind at 1, M_bind at 1. rewrite E. clear E Hcur Htodo Hv.
  destruct e as [st np mm]. destruct m as [mst mp mn mq mc]. simpl in *. subst. unfold shut_down. unfold mbind at 1, M_bind at 1.
  set (m1 := mkManager Stopping mp mn (Some [StopMessage]) (Some c)). set (e1 := mkExecutor Stopping np (Some m1)).
  assert (service_stop (mkExecutor Running np (Some (mkManager Running mp mn (Some []) (Some c)))) = (Ret (), e1)) as -> by done.
  assert (started (c_pipeline c)) as Hs0 by (destruct Hrun as [[_ Hok _ _ _ Hs _] _ _ _]; split; [apply Hok|]; intros a s Ha; rewrite (Hs a s Ha); by case_decide).
  destruct (failures_play early e1 m1 c eq_refl eq_refl Hs0) as (c1 & E1 & _ & _ & _ & Hk1 & Hr1). destruct (Hr1 _ _ _ _ Hrun) as [failed1 Hrun1].
  destruct (handle_stop p n cur failed1 c1 Hrun1) as ([] & c2 & Ec & S1 & S2 & S3 & S4).
  set (m2 := mkManager Stopping mp mn (Some []) (Some c2)). set (e2 := mkExecutor Stopping np (Some m2)).
  destruct (failures_play late e2 m2 c2 eq_refl eq_refl S3) as (c3 & E3 & T1 & T2 & T3 & T4 & _).
  unfold mbind at 1, M_bind at 1. assert (play ((RunnerFails <$> early) ++ [Turn] ++ (RunnerFails <$> late)) e1 = (Ret (), mkExecutor Stopping np (Some (set_controller c3 m2)))) as ->.
  { rewrite (play_app (RunnerFails <$> early)), E1. cbn [app play play_op]. unfold on_manager, controller_turn, on_controller, get, put, mbind, M_bind. simpl. rewrite Ec. exact E3. }
  destruct (join_instance Hjoins (c_pipeline c3)) as (x & i & Ei & Hx & Hki & Hret); [unfold frame in T2; congruence|congruence|done|].
  set (m3 := set_controller c3 m2). assert (x = Ret () ∨ ∃ err, x = Throw err) as Hx' by (destruct Hx as [?|(err & r & ? & _)]; [by left|right; by exists err]).
  destruct (join_manager m3 c3 x i eq_refl eq_refl eq_refl Ei Hx') as (m' & Em & M1 & M2 & M3).
  destruct (join_executor (mkExecutor Stopping np (Some m3)) m3 m' x eq_refl eq_refl Em Hx') as (e' & Ee & E4 & E5).
  exists x, e', m', (mkController i (m_current_segments c3)). split; [exact Ee|]. split; [done|]. split_and!; [done|done|done|].
  intros ->. destruct (Hret eq_refl) as [H2 H3]. split_and!; auto. intros a Ha. apply H3. rewrite T4, S4, Hk1. by apply (st_keys _ _ _ _ _ (rn_steady _ _ _ _ _ Hrun)).
Qed.
End life_cycle.

(** ** Running it *)
#[local] Instance no_shuffle : Shuffler := λ l, l.
(** The two segments of [demo_pipeline]; then a second rank of the source. *)
Definition more_segments : imap Z := imap_set (segment_address_encode (d_id demo_source) 1) 0 (initial_segments demo_pipeline).
Definition demo_address : Z := segment_address_encode (d_id demo_source) 0.
Lemma demo_grows : grows demo_pipeline 1 (initial_segments demo_pipeline) more_segments.
Proof.
  split.
  - apply (bool_decide_unpack (NoDup more_segments.*1)). vm_compute. exact I.
  - intros a Ha. assert (Forall (λ a, a ∈ more_segments.*1) (initial_segments demo_pipeline).*1) as Hf by (apply (bool_decide_unpack (Forall _ _)); vm_compute; exact I).
    by eapply Forall_forall in Hf.
  - intros a q Hq. assert (Forall (λ kv : Z * Z, 0 ≤ kv.1 < 2 ^ 32 ∧ kv.2 < 1 ∧ is_Some (imap_find (segment_address_decode kv.1).1 (m_definitions demo_pipeline))) more_segments) as Hf
      by (apply (bool_decide_unpack (Forall _ _)); vm_compute; exact I).
    rewrite Forall_forall in Hf. apply (Hf (a, q)). apply (imap_find_Some a q); [|done]. apply imap_set_ok. apply (initial_fold (m_definitions demo_pipeline) []). constructor.
Qed.
(** Both updates are handled and then a runner of the source fails. *)
Definition demo_ops : list op := [Turn; Push more_segments; Turn; RunnerFails demo_address].
Lemma executor_runs_pipeline_witness :
  views (R := toy_runner) demo_pipeline (registered demo_pipeline) demo_ops = Some (mkView [] more_segments [demo_address]) ∧
  succeeds (start_up (R := toy_runner) (D := Z) demo_pipeline demo_ops) (Executor_new 1) (λ _ e,
    ex_state e = Running ∧ ∃ handled m c, initial_segments demo_pipeline :: pushes demo_ops = handled ++ [] ∧ more_segments = current handled ∧
      m_pipeline_manager e = Some m ∧ mg_state m = Running ∧ m_update_channel m = Some [] ∧ m_controller m = Some c ∧
      (handled ≠ [] → running demo_pipeline 1 more_segments [demo_address] c)) ∧
  ((∀ a, RunnerFails a ∉ demo_ops) → (∀ a name, reported (R := toy_runner) a name = false) → is_Some (views (R := toy_runner) demo_pipeline (registered demo_pipeline) demo_ops)).
Proof.
  split; [vm_compute; reflexivity|].
  refine (executor_runs_pipeline (H := toy) (λ l, Permutation_refl l) (λ r : toy_runner, eq_refl) demo_pipeline 1 demo_ops _ _ _).
  - exact demo_pipeline_ok.
  - discriminate.
  - split; [exact demo_grows|exact I].
Defined.
(** The failure of one node makes the next update, which only adds a segment, end the
    process. *)
Theorem update_after_failure_aborts :
  aborts start_refused (start_up (R := toy_runner) (D := Z) demo_pipeline [Turn; RunnerFails demo_address; Push more_segments; Turn]) (Executor_new 1).
Proof. eexists. vm_compute. reflexivity. Qed.
