(* ===== verification/RunnerJoin.v ===== *)
(** * What joining a runner returns

    [Runner] lets the body of every instance do anything; here each instance follows a
    script (the exceptions it hands to its context, in order, and whether it then throws)
    while the scheduler still chooses the interleaving.  The instances end, and what
    [await_join] returns depends on the scripts only. *)
From S2P Require Import Prelude Runner.

Record script := mkScript { sets : list string; throws : option string }.
Record jcfg := mkJ { jc : cfg; scripts : list script }.
Definition next_event (s : script) : main_event * script :=
  match sets s with
  | e :: es => (MainSetException e, mkScript es (throws s))
  | [] => (match throws s with Some e => MainThrows e | None => MainReturns end, s)
  end.
(** The next step of instance [i], with the event of its script. *)
Definition advance (i : nat) (j : jcfg) : res jcfg :=
  match pcs (jc j) !! i, scripts j !! i with
  | Some pc, Some s =>
      let '(ev, s') := if bool_decide (pc = TMain) then next_event s else (MainReturns, s) in
      σ ← task i ev (jc j); Ret (mkJ σ (<[i := s']> (scripts j)))
  | _, _ => Ret j
  end.
Fixpoint advance_all (schedule : list nat) (j : jcfg) : res jcfg :=
  match schedule with [] => Ret j | i :: rest => advance i j ≫= advance_all rest end.
Definition finished (pc : task_pc) : bool := match pc with TDone | TThrown => true | _ => false end.
Definition all_finished (j : jcfg) : bool := forallb finished (pcs (jc j)).
(** What the future of an instance holds in the end: what it threw, or the first exception
    of its context. *)
Definition outcome (s : script) : option string := match throws s with Some e => Some e | None => head (sets s) end.
Definition first_failure (ss : list script) : option string := head (omap outcome ss).

(** ** One step *)
Definition join_after (pc : task_pc) (ev : main_event) (c : Context) (a : Instance) : option (option string) :=
  match pc, ev with
  | TMain, MainThrows e => Some (Some e)
  | TFinish, _ => Some (m_exception_ptr c)
  | _, _ => m_join a
  end.
Definition exception_after (pc : task_pc) (ev : main_event) (c : Context) : option string :=
  match pc, ev with
  | TMain, MainSetException e => match m_exception_ptr c with None => Some e | x => x end
  | _, _ => m_exception_ptr c
  end.
Definition pc_weight (pc : task_pc) : nat :=
  match pc with
  | TInit => 11 | TRunning => 10 | TLive => 9 | TMain => 8 | TStatus => 7 | TCompleted => 6 | TLoad => 5 | TStore _ => 4
  | TDecrement => 3 | TCallback => 2 | TFinish => 1 | TDone | TThrown => 0
  end.
Lemma action_detail i c ev pc pc' r r' a : task_action i c ev pc r = Ret (r', pc') → rank c = i →
  m_contexts r !! i = Some c → m_instances r !! i = Some a → expected pc (m_state a) →
  ∃ a' c', m_instances r' = <[i := a']> (m_instances r) ∧ m_contexts r' = <[i := c']> (m_contexts r) ∧
    m_join a' = join_after pc ev c a ∧ m_exception_ptr c' = exception_after pc ev c ∧
    m_live a' = (m_live a || bool_decide (pc = TLive)).
Proof.
  intros Hact Hrank Hc Ha Hexp. assert (<[i := a]> (m_instances r) = m_instances r) as Hid by (by apply list_insert_id).
  assert (<[i := c]> (m_contexts r) = m_contexts r) as Hidc by (by apply list_insert_id).
  destruct pc; simpl in *; rewrite ?Hrank in Hact; simplify_eq; rewrite ?orb_false_r, ?orb_true_r;
    try (rewrite (update_state_ok _ _ _ a) in Hact
      by (done || (rewrite Hexp; simpl; lia) || (destruct Hexp as [-> | ->]; simpl; lia)); simplify_eq/=; eexists _, c; by rewrite Hidc);
    try (exists a, c; by rewrite Hid, Hidc).
  - unfold set_live. rewrite Ha. eexists _, c. rewrite Hidc. split_and!; done.
  - destruct ev as [|e|e]; simplify_eq.
    + exists a, c. by rewrite Hid, Hidc.
    + unfold set_join. rewrite Ha. eexists _, c. by rewrite Hidc.
    + unfold set_exception, kill. rewrite Hc. destruct c as [rk sz [x|]]; simpl in *.
      * exists a. eexists. rewrite Hid, Hidc. done.
      * exists a. eexists. by rewrite Hid.
  - destruct (status c); simplify_eq; [exists a, c; by rewrite Hid, Hidc|].
    rewrite (update_state_ok _ _ _ a) in Hact by (done || (rewrite Hexp; simpl; lia)). simplify_eq/=. eexists _, c. by rewrite Hidc.
  - exists a, c. rewrite Hid, Hidc. by destruct (m_completion_callback r).
  - unfold set_join. rewrite Ha. eexists _, c. by rewrite Hidc.
Qed.
Lemma action_next i c ev pc pc' r r' : task_action i c ev pc r = Ret (r', pc') →
  match pc, ev with
  | TMain, MainThrows _ => pc' = TThrown
  | TMain, MainSetException _ => pc' = TMain
  | TMain, MainReturns => pc' = TStatus
  | TInit, _ => pc' = TRunning | TRunning, _ => pc' = TLive | TLive, _ => pc' = TMain
  | TFinish, _ => pc' = TDone
  | TDone, _ | TThrown, _ => pc' = pc
  | _, _ => (1 ≤ pc_weight pc' < pc_weight pc ∧ pc_weight pc < 8)%nat
  end.
Proof.
  destruct pc; simpl; intros Hact; simplify_eq/=; try (destruct (update_state _ _ _); simplify_eq/=; lia || done); try lia; try done.
  - destruct ev; by simplify_eq.
  - destruct (status c); [simplify_eq/=; lia|]. destruct (update_state _ _ _); simplify_eq/=; lia.
  - case_decide; simpl; lia.
Qed.

(** ** Every instance follows its script *)
Record follows (s0 s : script) (pc : task_pc) (c : Context) (a : Instance) : Prop := {
  f_throws : throws s = throws s0;
  f_join : m_join a = if finished pc then Some (outcome s0) else None;
  f_before : (8 ≤ pc_weight pc)%nat → ∃ l, sets s0 = l ++ sets s ∧ m_exception_ptr c = head l;
  f_after : (1 ≤ pc_weight pc < 8)%nat → throws s0 = None ∧ m_exception_ptr c = head (sets s0);
  f_live : (pc_weight pc ≤ 8)%nat → m_live a = true;
}.
Record JInv (ss : list script) (j : jcfg) : Prop := {
  ji_shape : shape (length ss) (jc j);
  ji_scripts : length (scripts j) = length ss;
  ji_follows i s0 s pc c a : ss !! i = Some s0 → scripts j !! i = Some s → pcs (jc j) !! i = Some pc →
    m_contexts (runner (jc j)) !! i = Some c → m_instances (runner (jc j)) !! i = Some a → follows s0 s pc c a;
}.
Definition weight (j : jcfg) : nat := sum_list_with pc_weight (pcs (jc j)) + sum_list_with (λ s, length (sets s)) (scripts j).
Lemma follows_step i s0 s pc c a ev s' pc' r r' a' c' : follows s0 s pc c a → (ev, s') = (if bool_decide (pc = TMain) then next_event s else (MainReturns, s)) →
  task_action i c ev pc r = Ret (r', pc') → m_join a' = join_after pc ev c a → m_exception_ptr c' = exception_after pc ev c → m_live a' = (m_live a || bool_decide (pc = TLive)) →
  follows s0 s' pc' c' a'.
Proof.
  intros [Ht Hj Hb Ha Hl] Hev Hact Hj' He' Hl'. pose proof (action_next _ _ _ _ _ _ _ Hact) as Hn. unfold next_event in Hev.
  assert (1 ≤ pc_weight pc' < pc_weight pc ∧ pc_weight pc < 8 → (1 ≤ pc_weight pc)%nat → s' = s → m_join a' = m_join a → m_exception_ptr c' = m_exception_ptr c → follows s0 s' pc' c' a')%nat as Hmid.
  { intros [? ?] ? -> Ej Ee. destruct (Ha ltac:(lia)) as [Hth Hex]. split; rewrite ?Ej, ?Ee; auto; [|lia|by rewrite Hl', Hl by lia].
    rewrite Hj. destruct pc, pc'; simpl in *; (done || lia). }
  destruct pc; simpl in *; try (injection Hev as -> ->; by apply Hmid; [|lia| | |]); try (injection Hev as -> ->; subst pc').
  - split; simpl; rewrite ?Hj', ?He', ?Hl'; auto; lia.
  - split; simpl; rewrite ?Hj', ?He', ?Hl'; auto; lia.
  - split; simpl; rewrite ?Hj', ?He', ?Hl', ?orb_true_r; auto; lia.
  - destruct (Hb ltac:(lia)) as (l & Hs & Hc). destruct (sets s) as [|e es] eqn:Es; simpl in *.
    + rewrite app_nil_r in Hs. subst l. rewrite Ht in Hev. destruct (throws s0) as [e|] eqn:Eth; injection Hev as -> ->; subst pc';
        (split; simpl in *; rewrite ?Hj', ?He', ?Hl', ?orb_false_r; auto; try lia; try congruence; unfold outcome; by rewrite Eth).
    + injection Hev as -> ->. subst pc'. split; simpl; rewrite ?Hj', ?He', ?Hl', ?orb_false_r; auto; [|lia]. intros _. exists (l ++ [e]). rewrite <-app_assoc. split; [done|].
      rewrite Hc. by destruct l.
  - destruct (Ha ltac:(lia)) as [Hth Hex]. split; simpl; rewrite ?Hj', ?He', ?Hl', ?orb_false_r; auto; [|intros _; apply Hl; lia]. unfold outcome. by rewrite Hth, Hex.
  - split; simpl; rewrite ?Hj', ?He', ?Hl', ?orb_false_r; auto; try lia.
  - split; simpl; rewrite ?Hj', ?He', ?Hl', ?orb_false_r; auto; try lia.
Qed.
(** A step of an instance always succeeds, keeps the invariant, and brings the end closer
    unless the instance has ended. *)
Lemma advance_ok ss j i : JInv ss j → ∃ j', advance i j = Ret j' ∧ JInv ss j' ∧
  (weight j' + (match pcs (jc j) !! i with Some pc => if finished pc then 0 else 1 | None => 0 end) ≤ weight j)%nat.
Proof.
  intros [Hs Hl Hf]. pose proof Hs as (Hp & Hi & Hc & Hr & He). unfold advance. destruct (pcs (jc j) !! i) as [pc|] eqn:Epc; [|exists j; split_and!; [done|done|lia]].
  assert (i < length ss)%nat as Hlt by (rewrite <-Hp; by eapply lookup_lt_Some).
  destruct (lookup_lt_is_Some_2 (scripts j) i) as [s Es]; [lia|]. destruct (lookup_lt_is_Some_2 ss i) as [s0 Es0]; [lia|].
  destruct (lookup_lt_is_Some_2 (m_contexts (runner (jc j))) i) as [c Ec]; [lia|]. destruct (lookup_lt_is_Some_2 (m_instances (runner (jc j))) i) as [a Ea]; [lia|].
  rewrite Es. destruct (if bool_decide (pc = TMain) then next_event s else (MainReturns, s)) as [ev s'] eqn:Hev.
  destruct (task_enabled (length ss) (jc j) i ev pc c Hs Epc Ec) as (r' & pc' & Hact).
  assert (task i ev (jc j) = Ret (Cfg r' (<[i := pc']> (pcs (jc j))))) as Ht by (unfold task; rewrite Epc, Ec, Hact; done).
  rewrite Ht. eexists. split; [done|].
  destruct (action_detail i c ev pc pc' (runner (jc j)) r' a Hact (Hr _ _ Ec) Ec Ea (He _ _ _ Epc Ea)) as (a' & c' & HI & HC & Hja & Hex & Hli).
  split.
  - split; simpl; [by eapply shape_step|by rewrite length_insert|]. intros k t0 t q d b Hk0 Hk Hq Hd Hb. simpl in *. rewrite HI in Hb. rewrite HC in Hd.
    destruct (decide (i = k)) as [<-|Hne].
    + rewrite list_lookup_insert_eq in Hk by lia. rewrite list_lookup_insert_eq in Hq by lia. rewrite list_lookup_insert_eq in Hd by lia. rewrite list_lookup_insert_eq in Hb by lia. simplify_eq. eapply follows_step; eauto.
    + rewrite list_lookup_insert_ne in Hk by done. rewrite list_lookup_insert_ne in Hq by done. rewrite list_lookup_insert_ne in Hd by done. rewrite list_lookup_insert_ne in Hb by done. eauto.
  - unfold weight. simpl. pose proof (sum_insert pc_weight _ _ _ pc' Epc) as W1. pose proof (sum_insert (λ s, length (sets s)) _ _ _ s' Es) as W2.
    pose proof (action_next _ _ _ _ _ _ _ Hact) as Hn. unfold next_event in Hev.
    destruct pc; simpl in *; try (injection Hev as <- <-); try subst pc'; simpl in *; try lia.
    destruct (sets s) as [|e es] eqn:Ess; [destruct (throws s)|]; injection Hev as <- <-; subst pc'; simpl in *; rewrite ?Ess in *; simpl in *; lia.
Qed.
Lemma advance_all_ok ss schedule j : JInv ss j → ∃ j', advance_all schedule j = Ret j' ∧ JInv ss j'.
Proof.
  revert j. induction schedule as [|i rest IH]; intros j HJ; simpl; [by exists j|]. destruct (advance_ok ss j i HJ) as (j1 & -> & HJ1 & _). apply IH, HJ1.
Qed.
(** The steps of a schedule that are not lost on an instance that has ended. *)
Fixpoint effective (schedule : list nat) (j : jcfg) : nat :=
  match schedule with
  | [] => 0
  | i :: rest =>
      match pcs (jc j) !! i with Some pc => if finished pc then 0 else 1 | None => 0 end +
      match advance i j with Ret j' => effective rest j' | _ => 0 end
  end.
Lemma effective_bound ss schedule j : JInv ss j → (effective schedule j ≤ weight j)%nat.
Proof.
  revert j. induction schedule as [|i rest IH]; intros j HJ; simpl; [lia|]. destruct (advance_ok ss j i HJ) as (j1 & -> & HJ1 & Hw). specialize (IH j1 HJ1). lia.
Qed.
Lemma first_exception_join l ss first : length l = length ss → (∀ i a s, l !! i = Some a → ss !! i = Some s → m_join a = Some (outcome s)) →
  first_exception l first = Some (match first with Some e => Some e | None => first_failure ss end).
Proof.
  revert ss first. induction l as [|a l IH]; intros [|s ss] first Hl Hj; simplify_eq/=; [by destruct first|].
  rewrite (Hj 0%nat a s eq_refl eq_refl). rewrite (IH ss) by (done || (intros i; apply (Hj (S i)))). unfold first_failure. simpl.
  destruct first; [done|]. by destruct (outcome s).
Qed.
Lemma finished_join ss j : JInv ss j → all_finished j = true →
  await_join (runner (jc j)) = Some (match first_failure ss with Some e => Throw e | None => Ret () end, set_instances [] (runner (jc j))).
Proof.
  intros [(Hp & Hi & Hc & _) Hl Hf] Hfin. unfold await_join. rewrite (first_exception_join _ ss); [by destruct (first_failure ss)|done|].
  intros i a s Ha Hs. assert (i < length ss)%nat as Hlt by (by eapply lookup_lt_Some).
  destruct (lookup_lt_is_Some_2 (pcs (jc j)) i) as [pc Epc]; [lia|]. destruct (lookup_lt_is_Some_2 (scripts j) i) as [t Et]; [lia|].
  destruct (lookup_lt_is_Some_2 (m_contexts (runner (jc j))) i) as [c Ec]; [lia|]. rewrite (f_join _ _ _ _ _ (Hf _ _ _ _ _ _ Hs Et Epc Ec Ha)).
  unfold all_finished in Hfin. rewrite forallb_forall in Hfin. rewrite (Hfin pc); [done|]. apply list_elem_of_In. by eapply list_elem_of_lookup_2.
Qed.
Lemma launch_detail n r σ : idle r → launch n r = Ret σ →
  pcs σ = replicate n TInit ∧ m_contexts (runner σ) = make_contexts n ∧ ∀ i a, m_instances (runner σ) !! i = Some a → m_join a = None.
Proof.
  intros (Hi & Hcr & Hst & Hco). unfold launch, enqueue. rewrite make_contexts_length, Hcr, Hi. rewrite !bool_decide_true by done. simpl.
  destruct (enqueue_loop_ok (make_contexts n) n 0
    (set_contexts (make_contexts n) (set_instances (replicate n (mkInstance 0 Unqueued false None)) r)))
    as (r' & -> & Hlen & Hq & _ & Hc & _).
  { intros i c [-> _]%make_contexts_lookup. done. } { by rewrite make_contexts_length. }
  { simpl. by rewrite length_replicate, make_contexts_length. }
  rewrite make_contexts_length in *. simpl in *.
  match goal with |- context [ set_remaining n ?x ] => set (r2 := x) end.
  assert (m_instances r2 = m_instances r' ∧ m_contexts r2 = m_contexts r') as [HI HC] by (subst r2; by destruct (_ <? _)).
  rewrite HI, bool_decide_true by done. simpl. intros [= <-]. simpl. rewrite HI, HC. split; [done|]. split; [done|].
  intros i a Ha. assert (i < n)%nat as Hlt by (apply lookup_lt_Some in Ha; lia). rewrite Hq in Ha by lia. by simplify_eq.
Qed.
Lemma launch_follows ss r σ : idle r → launch (length ss) r = Ret σ → JInv ss (mkJ σ ss).
Proof.
  intros Hid Hl. destruct (launch_detail _ _ _ Hid Hl) as (Hp & Hc & Hj). destruct (launch_ok (length ss) r Hid) as (σ' & E & (Hs & _) & _). rewrite Hl in E. simplify_eq.
  split; simpl; [done|done|]. intros i s0 s pc c a Es0 Es Epc Ec Ea. rewrite Es0 in Es. rewrite Hp in Epc. apply lookup_replicate in Epc as [-> _]. simplify_eq.
  rewrite Hc in Ec. apply make_contexts_lookup in Ec as [-> _]. split; simpl; try lia; [done|by eapply Hj|]. intros _. by exists [].
Qed.

Lemma sum_replicate {A} (f : A → nat) n x : sum_list_with f (replicate n x) = n * f x.
Proof. induction n as [|n IH]; simpl; [done|]. by rewrite IH. Qed.

(** C8: what joining a runner returns does not depend on how its instances are
    interleaved: every schedule runs without an abort and makes a bounded number of
    steps, and when all instances have ended, [await_join] returns if no instance failed,
    and otherwise throws the failure of the first instance, by rank, that failed: what
    its body threw, or the first exception that was set on its context. *)
Theorem join_determined ss r σ schedule : idle r → launch (length ss) r = Ret σ →
  ∃ j, advance_all schedule (mkJ σ ss) = Ret j ∧ (effective schedule (mkJ σ ss) ≤ 11 * length ss + sum_list_with (λ s, length (sets s)) ss)%nat ∧
    (all_finished j = true →
     await_join (runner (jc j)) = Some (match first_failure ss with Some e => Throw e | None => Ret () end, set_instances [] (runner (jc j)))).
Proof.
  intros Hid Hl. pose proof (launch_follows ss r σ Hid Hl) as HJ. destruct (advance_all_ok ss schedule _ HJ) as (j & Hj & HJ'). exists j. split; [done|]. split; [|by apply finished_join].
  etrans; [by eapply effective_bound|]. unfold weight. simpl. destruct (launch_detail _ _ _ Hid Hl) as (-> & _). rewrite sum_replicate. simpl. lia.
Qed.

(** ** Running to the end *)
(** Advance some instance at a program counter that [p] picks, as long as there is one. *)
Fixpoint settle (p : task_pc → bool) (fuel : nat) (j : jcfg) : jcfg :=
  match fuel, list_find (λ pc, p pc = true) (pcs (jc j)) with
  | S fuel, Some (i, _) => match advance i j with Ret j' => settle p fuel j' | _ => j end
  | _, _ => j
  end.
Lemma settle_ok ss p fuel j : (∀ pc, p pc = true → finished pc = false) → JInv ss j → (weight j ≤ fuel)%nat →
  JInv ss (settle p fuel j) ∧ Forall (λ pc, p pc = false) (pcs (jc (settle p fuel j))).
Proof.
  intros Hp. revert j. induction fuel as [|fuel IH]; intros j HJ Hw; simpl.
  - split; [done|]. unfold weight in Hw. apply Forall_forall. intros pc [i Hi]%list_elem_of_lookup.
    pose proof (sum_elem pc_weight _ _ _ Hi). destruct (p pc) eqn:E; [|done]. specialize (Hp pc E). destruct pc; simpl in *; (done || lia).
  - destruct (list_find _ _) as [[i pc]|] eqn:E.
    + apply list_find_Some in E as (Hi & Hpc & _). destruct (advance_ok ss j i HJ) as (j1 & -> & HJ1 & Hw1). rewrite Hi, (Hp pc Hpc) in Hw1. apply IH; [done|lia].
    + split; [done|]. apply list_find_None in E. eapply Forall_impl; [exact E|]. intros pc Hpc. simpl in Hpc. by apply not_true_is_false.
Qed.
Definition unfinished (pc : task_pc) : bool := negb (finished pc).
Definition not_live (pc : task_pc) : bool := (8 <? pc_weight pc)%nat.
Lemma settle_finished ss j : JInv ss j → JInv ss (settle unfinished (weight j) j) ∧ all_finished (settle unfinished (weight j) j) = true.
Proof.
  intros HJ. destruct (settle_ok ss unfinished (weight j) j) as [HJ' Hf]; [by intros []|done|done|]. split; [done|].
  unfold all_finished. apply forallb_forall. intros pc Hpc%list_elem_of_In. rewrite Forall_forall in Hf. specialize (Hf _ Hpc). unfold unfinished in Hf. by destruct (finished pc).
Qed.
Lemma settle_live ss j : JInv ss j → JInv ss (settle not_live (weight j) j) ∧ await_live (runner (jc (settle not_live (weight j) j))) = true.
Proof.
  intros HJ. destruct (settle_ok ss not_live (weight j) j) as [HJ' Hf]; [by intros []|done|done|]. split; [done|].
  unfold await_live. apply forallb_forall. intros a Ha%list_elem_of_In. apply list_elem_of_lookup in Ha as [i Ha]. destruct HJ' as [(Hp & Hi & Hc & _) Hl Hfo].
  assert (i < length ss)%nat as Hlt by (rewrite <-Hi; by eapply lookup_lt_Some).
  destruct (lookup_lt_is_Some_2 ss i) as [s0 E0]; [lia|]. destruct (lookup_lt_is_Some_2 (scripts (settle not_live (weight j) j)) i) as [s Es]; [lia|].
  destruct (lookup_lt_is_Some_2 (pcs (jc (settle not_live (weight j) j))) i) as [pc Epc]; [lia|].
  destruct (lookup_lt_is_Some_2 (m_contexts (runner (jc (settle not_live (weight j) j)))) i) as [c Ec]; [lia|].
  apply (f_live _ _ _ _ _ (Hfo _ _ _ _ _ _ E0 Es Epc Ec Ha)). rewrite Forall_forall in Hf. specialize (Hf pc (list_elem_of_lookup_2 _ _ _ Epc)).
  unfold not_live in Hf. by apply Nat.ltb_ge in Hf.
Qed.
(** Only the state of the runnable changes. *)
Definition with_runnable (st : RunnableState) (j : jcfg) : jcfg := mkJ (Cfg (set_runnable st (runner (jc j))) (pcs (jc j))) (scripts j).
Lemma with_runnable_ok ss st j : JInv ss j → JInv ss (with_runnable st j).
Proof. by intros [Hs Hl Hf]. Qed.

(** ** Running it *)
Definition two_scripts : list script := [mkScript ["late"; "later"] None; mkScript [] (Some "thrown"); mkScript [] None].
Definition fresh_runner : Runner := Runner_new Init.
Definition launched : cfg := match launch 3 fresh_runner with Ret σ => σ | _ => Cfg fresh_runner [] end.
Lemma join_determined_witness : ∃ j, advance_all (concat (replicate 14 [2; 1; 0]%nat)) (mkJ launched two_scripts) = Ret j ∧
  (effective (concat (replicate 14 [2; 1; 0]%nat)) (mkJ launched two_scripts) ≤ 11 * length two_scripts + sum_list_with (λ s, length (sets s)) two_scripts)%nat ∧
  (all_finished j = true → await_join (runner (jc j)) = Some (Throw "late", set_instances [] (runner (jc j)))).
Proof. apply (join_determined two_scripts fresh_runner launched); [done|vm_compute; reflexivity]. Defined.
Lemma two_scripts_finish : all_finished (settle unfinished 40 (mkJ launched two_scripts)) = true.
Proof. vm_compute. reflexivity. Qed.
