(* ===== verification/RunnerLink.v ===== *)
(** * The runners of a segment

    [Segment], [Pipeline] and [Executor] drive runners through the interface [RunnerI];
    this file implements it with the runners of [Runner], whose instances follow the
    scripts of [RunnerJoin]: [stop] and [kill] set the state of the runnable, [await_live]
    and [await_join] let the instances run until the futures they wait for are ready.
    The hypotheses that the executor's theorems make about runners are theorems here. *)
From S2P Require Import Prelude Runner RunnerJoin.
From S2P Require Import StdMap Addresses Manifold Service Segment Pipeline Executor.
Local Open Scope Z_scope.

Section link.
(** What the scripts are known to satisfy. *)
Context (Q : script → Prop).
Definition link_ok (j : jcfg) : Prop := (∃ ss, JInv ss j ∧ Forall Q ss) ∨ m_instances (runner (jc j)) = [].
(** A runner that was launched, or joined. *)
Definition linked : Type := { j : jcfg | link_ok j }.
Lemma runnable_link st j : link_ok j → link_ok (with_runnable st j).
Proof. intros [(ss & HJ & HQ)|Hn]; [left|right; done]. exists ss. split; [by apply with_runnable_ok|done]. Qed.
Definition set_linked (st : RunnableState) (r : linked) : linked :=
  exist _ (with_runnable (runnable_update_state (m_runnable (runner (jc (`r)))) st).1 (`r)) (runnable_link _ _ (proj2_sig r)).
Definition live_cfg (j : jcfg) : jcfg := if bool_decide (m_instances (runner (jc j)) = []) then j else settle not_live (weight j) j.
Lemma live_link j : link_ok j → link_ok (live_cfg j).
Proof.
  intros Hj. unfold live_cfg. case_bool_decide as E; [done|]. destruct Hj as [(ss & HJ & HQ)|Hn]; [|done].
  left. exists ss. split; [by apply settle_live|done].
Qed.
Definition joined_cfg (j : jcfg) : jcfg :=
  let j' := if bool_decide (m_instances (runner (jc j)) = []) then j else settle unfinished (weight j) j in
  mkJ (Cfg (Runner.set_instances [] (runner (jc j'))) (pcs (jc j'))) (scripts j').
Lemma joined_link j : link_ok (joined_cfg j).
Proof. by right. Qed.
(** What [await_join] returns when the instances have ended. *)
Definition join_result (j : jcfg) : res () :=
  let j' := if bool_decide (m_instances (runner (jc j)) = []) then j else settle unfinished (weight j) j in
  match await_join (runner (jc j')) with Some (x, _) => x | None => Undefined "blocks" end.
#[export] Instance linked_runner : RunnerI linked := {
  runner_stop := set_linked Stop;
  runner_kill := set_linked Kill;
  runner_await_live r :=
    (if await_live (runner (jc (live_cfg (`r)))) then Ret () else Undefined "blocks", exist _ (live_cfg (`r)) (live_link _ (proj2_sig r)));
  runner_await_join r := (join_result (`r), exist _ (joined_cfg (`r)) (joined_link (`r)));
}.

Lemma linked_live (r : linked) : (runner_await_live r).1 = Ret ().
Proof.
  destruct r as [j Hj]. simpl. unfold live_cfg. case_bool_decide as E; [unfold await_live; by rewrite E|]. destruct Hj as [(ss & HJ & HQ)|Hn]; [|done].
  by destruct (settle_live ss j HJ) as [_ ->].
Qed.
Lemma linked_result (r : linked) : (∃ ss, Forall Q ss ∧ (runner_await_join r).1 = match first_failure ss with Some e => Throw e | None => Ret () end).
Proof.
  destruct r as [j Hj]. simpl. unfold join_result. case_bool_decide as E.
  - exists []. split; [done|]. unfold await_join. by rewrite E.
  - destruct Hj as [(ss & HJ & HQ)|Hn]; [|done]. exists ss. split; [done|]. destruct (settle_finished ss j HJ) as [HJ' Hf]. by rewrite (finished_join ss _ HJ' Hf).
Qed.
Lemma linked_joins (r : linked) : joins r.
Proof. destruct (linked_result r) as (ss & _ & E). unfold joins. rewrite E. destruct (first_failure ss); [right; by eexists|by left]. Qed.
Lemma linked_failure (r : linked) e : thrown r = Some e → ∃ s, Q s ∧ outcome s = Some e.
Proof.
  destruct (linked_result r) as (ss & HQ & E). unfold thrown. rewrite E. destruct (first_failure ss) as [x|] eqn:Ef; [|done]. intros [= <-].
  unfold first_failure in Ef. apply head_Some_elem_of, list_elem_of_omap in Ef as (s & Hs & Ho). exists s. split; [|done]. by eapply Forall_forall in HQ.
Qed.
End link.

(** ** An executor over these runners *)
Section executor.
(** What the nodes do, by segment and name; and when a failure arrives during a start. *)
Context (Q : script → Prop) (behaviour : Z → string → list script) (HQ : ∀ a name, Forall Q (behaviour a name)) (reports : Z → string → bool).
Definition launched_cfg (a : Z) (name : string) : jcfg :=
  match launch (length (behaviour a name)) (Runner_new Init) with
  | Ret σ => mkJ σ (behaviour a name)
  | _ => mkJ (Cfg (Runner_new Init) []) []
  end.
Lemma launched_link a name : link_ok Q (launched_cfg a name).
Proof.
  unfold launched_cfg. destruct (launch_ok (length (behaviour a name)) (Runner_new Init)) as (σ & E & _); [done|]. rewrite E.
  left. exists (behaviour a name). split; [eapply launch_follows; [|exact E]; done|apply HQ].
Qed.
(** Igniting the launcher of a node launches one instance per script. *)
#[export] Instance linked_ignition : Ignition (linked Q) := {|
  ignition a name := exist _ (launched_cfg a name) (launched_link a name);
  reported := reports;
|}.
(** Only segments with a failing node report a failure. *)
Definition honest (ops : list op) : Prop :=
  ∀ a, RunnerFails a ∈ ops ∨ (∃ name, reports a name = true) → ∃ name s, s ∈ behaviour a name ∧ outcome s ≠ None.
Context {D : Type} `{Shuffler}.
(** C6: the life of an executor whose nodes run on the runners of this library, whatever
    the nodes do and whenever their failures are reported: after any updates that only add
    segments, a stop and a join, the process has aborted exactly when an update was handled
    after a node of some segment had failed ([views]).  Otherwise, once all updates are
    handled, the join returns, or throws what a node threw; when it returns the executor,
    its manager, the pipeline and all segments of the last update are completed.  If no
    node fails, and failures are reported only by nodes that fail, it returns.  Nothing is
    assumed of the runners; of the pipeline, that its definitions have distinct port names
    and initializers that succeed and leave the ports alone, and of the updates that each
    keeps the segments of the one before and assigns known segments to existing
    partitions.  Failures reported while a segment is being joined are not modelled: they
    kill runners that the join waits for. *)
Theorem executor_life_cycle p n ops early late : (∀ l, random_shuffle l ≡ₚ l) → pipeline_ok p → 1 ≤ n → chain p n (initial_segments p) (pushes ops) →
  ∃ x e, (start_up (R := linked Q) (D := D) p ops ;; shut_down early late) (Executor_new n) = (x, e) ∧
  match views (R := linked Q) p (registered p) ops with
  | None => x = Abort start_refused
  | Some v => v_todo v = [] →
      (x = Ret () ∨ ∃ s err, Q s ∧ outcome s = Some err ∧ x = Throw err) ∧
      ∃ m c, m_pipeline_manager e = Some m ∧ m_update_channel m = None ∧ m_controller m = Some c ∧
        (x = Ret () → ex_state e = Completed ∧ mg_state m = Completed ∧ i_state (c_pipeline c) = Completed ∧
           ∀ a, a ∈ (default (initial_segments p) (last (pushes ops))).*1 → in_state a Completed (c_pipeline c))
  end ∧
  (honest ops → (∀ s, Q s → outcome s = None) → ∃ v, views (R := linked Q) p (registered p) ops = Some v ∧ (v_todo v = [] → x = Ret ())).
Proof.
  intros Hsh Hp Hn Hch. destruct ((start_up (R := linked Q) (D := D) p ops ;; shut_down early late) (Executor_new n)) as [x e] eqn:E. exists x, e. split; [done|].
  assert (match views (R := linked Q) p (registered p) ops with None => x = Abort start_refused
    | Some v => v_todo v = [] → (x = Ret () ∨ ∃ s err, Q s ∧ outcome s = Some err ∧ x = Throw err) ∧
      ∃ m c, m_pipeline_manager e = Some m ∧ m_update_channel m = None ∧ m_controller m = Some c ∧
        (x = Ret () → ex_state e = Completed ∧ mg_state m = Completed ∧ i_state (c_pipeline c) = Completed ∧
           ∀ a, a ∈ (default (initial_segments p) (last (pushes ops))).*1 → in_state a Completed (c_pipeline c)) end) as Hmain.
  { destruct (views (R := linked Q) p (registered p) ops) as [v|] eqn:Ev.
    - intros Htodo. destruct (executor_shuts_down (R := linked Q) (D := D) Hsh (linked_live Q) (linked_joins Q) p n ops early late v Hp Hn Hch Ev Htodo)
        as (x' & e' & m & c & E' & Hx & Hm & Hq & Hc & Hret). rewrite E in E'. injection E' as <- <-. split; [|by exists m, c].
      destruct Hx as [->|(err & r & -> & Hr)]; [by left|right]. destruct (linked_failure Q r err Hr) as (s & Hs & Ho). by exists s, err.
    - pose proof (play_all (R := linked Q) (D := D) Hsh (linked_live Q) p n ops Hp Hn Hch) as Hab. rewrite Ev in Hab. destruct Hab as [e' Ea].
      unfold mbind, M_bind in E. rewrite Ea in E. by simplify_eq. }
  split; [exact Hmain|]. intros Hhon Hno.
  assert (∀ a name s, s ∈ behaviour a name → outcome s = None) as Hquiet by (intros a name s Hs; apply Hno; pose proof (HQ a name) as Hall; by eapply Forall_forall in Hall).
  destruct (quiet_views (R := linked Q) p (registered p) ops) as [v Ev]; [done| | |].
  - intros a Ha. destruct (Hhon a (or_introl Ha)) as (name & s & Hs & Ho). apply Ho. by eapply Hquiet.
  - intros a name. simpl. destruct (reports a name) eqn:Er; [|done]. destruct (Hhon a) as (name' & s & Hs & Ho); [right; by exists name|]. destruct Ho. by eapply Hquiet.
  - exists v. split; [done|]. intros Htodo. rewrite Ev in Hmain. destruct (Hmain Htodo) as [[->|(s & err & Hs & Ho & _)] _]; [done|]. rewrite (Hno s Hs) in Ho. done.
Qed.
End executor.

(** ** Running it *)
(** Every node has two instances; nothing fails. *)
Definition quiet (s : script) : Prop := outcome s = None.
Definition two_quiet (a : Z) (name : string) : list script := [mkScript [] None; mkScript [] None].
Lemma two_quiet_ok a name : Forall quiet (two_quiet a name).
Proof. by repeat constructor. Qed.
Definition no_reports (a : Z) (name : string) : bool := false.
#[local] Instance same_order : Shuffler := λ l, l.
#[local] Instance quiet_ignition : Ignition (linked quiet) := linked_ignition quiet two_quiet two_quiet_ok no_reports.
Definition quiet_ops : list op := [Turn; Push more_segments; Turn].
Lemma executor_life_cycle_witness :
  ∃ x e, (start_up (R := linked quiet) (D := Z) demo_pipeline quiet_ops ;; shut_down [] []) (Executor_new 1) = (x, e) ∧ x = Ret () ∧
    ∃ m c, m_pipeline_manager e = Some m ∧ m_controller m = Some c ∧ ∀ a, a ∈ more_segments.*1 → in_state a Completed (c_pipeline c).
Proof.
  assert (chain demo_pipeline 1 (initial_segments demo_pipeline) (pushes quiet_ops)) as Hch by (split; [exact demo_grows|exact I]).
  destruct (executor_life_cycle quiet two_quiet two_quiet_ok no_reports (D := Z) demo_pipeline 1 quiet_ops [] [] (λ l, Permutation_refl l) demo_pipeline_ok ltac:(discriminate) Hch)
    as (x & e & E & Hmain & Hok). change (linked_ignition quiet two_quiet two_quiet_ok no_reports) with quiet_ignition in *.
  exists x, e. split; [exact E|].
  assert (views (R := linked quiet) demo_pipeline (registered demo_pipeline) quiet_ops = Some (mkView [] more_segments [])) as Ev by (vm_compute; reflexivity).
  rewrite Ev in Hmain. destruct (Hmain eq_refl) as [_ (m & c & Hm & _ & Hc & Hret)].
  destruct Hok as (v & Ev' & Hx); [|intros s Hs; exact Hs|].
  - intros a [Ha|[name Hr]]; [|discriminate Hr]. exfalso. unfold quiet_ops in Ha. repeat (apply elem_of_cons in Ha as [Ha|Ha]; [discriminate Ha|]). by apply elem_of_nil in Ha.
  - rewrite Ev in Ev'. injection Ev' as <-. split; [apply Hx; reflexivity|]. exists m, c. split; [exact Hm|]. split; [exact Hc|]. apply Hret, Hx. reflexivity.
Defined.
