(* ===== verification/Channels.v ===== *)
(** * Channels

    Models [src/public/channel/channel.cpp] (the default size) and the channels of
    [include/srf/channel]: [recent_channel.hpp], [null_channel.hpp] and
    [buffered_channel.hpp].  The mutex of a channel makes each critical section
    one step; a reader that finds nothing waits on the condition variable, which
    is modelled with its set of sleeping readers.  [boost::fibers] channels are a
    parameter. *)
From S2P Require Import Prelude.
Local Open Scope Z_scope.

Module Status.
Inductive t := success | empty | full | closed | timeout | error.
#[global] Instance t_eq_dec : EqDecision t.
Proof. solve_decision. Defined.
End Status.

(** ** The default size *)
Definition SRF_DEFAULT_BUFFERED_CHANNEL_SIZE : Z := 128.
Definition default_channel_size (s_default_channel_size : Z) : Z := s_default_channel_size.
Definition set_default_channel_size (default_size : Z) : M Z () :=
  lift (throw_if ((default_size <? 2) || negb (Z.land default_size (u64 (default_size - 1)) =? 0))
    "default_channel_size must be greater than 1 and a power of 2.") ;;
  put default_size.

(** ** RecentChannel *)
Section recent.
Context {T : Type}.

Record RecentChannel := mkRecent { m_is_shutdown : bool; m_max_size : nat; m_deque : list T }.
Definition RecentChannel_new (count : nat) : RecentChannel := mkRecent false count [].
Definition with_deque (q : list T) (c : RecentChannel) : RecentChannel := mkRecent (m_is_shutdown c) (m_max_size c) q.

Definition do_await_write (data : T) (c : RecentChannel) : res (Status.t * RecentChannel) :=
  if m_is_shutdown c then Ret (Status.closed, c)
  else
    c ← (if (m_max_size c <=? length (m_deque c))%nat
         then match m_deque c with
              | [] => Undefined "pop_front of an empty deque"
              | _ :: q => Ret (with_deque q c)
              end
         else Ret c);
    Ret (Status.success, with_deque (m_deque c ++ [data]) c).

(** [m_cv.wait(lock, pred)] returns when its predicate holds, so the loop around it
    decides in one evaluation: [None] is a reader that goes to sleep. *)
Definition do_await_read (c : RecentChannel) : option (Status.t * option T * RecentChannel) :=
  if m_is_shutdown c then Some (Status.closed, None, c)
  else match m_deque c with
       | [] => None
       | d :: q => Some (Status.success, Some d, with_deque q c)
       end.
Definition do_try_read (c : RecentChannel) : Status.t * option T * RecentChannel :=
  if m_is_shutdown c then (Status.closed, None, c)
  else match m_deque c with
       | [] => (Status.empty, None, c)
       | d :: q => (Status.success, Some d, with_deque q c)
       end.
Definition do_close_channel (c : RecentChannel) : RecentChannel := mkRecent true (m_max_size c) (m_deque c).
Definition do_is_channel_closed (c : RecentChannel) : bool := m_is_shutdown c.

(** [do_await_read_until]: one evaluation of the loop condition at time [now];
    [None] when it is true, and the thread enters [wait_until], which returns at
    the deadline at the latest. *)
Definition do_await_read_until (deadline now : Z) (c : RecentChannel) : option (Status.t * option T * RecentChannel) :=
  if bool_decide (m_deque c = []) && negb (m_is_shutdown c) && (deadline <? now) then None
  else if m_is_shutdown c then Some (Status.closed, None, c)
  else match m_deque c with
       | [] => Some (Status.timeout, None, c)
       | d :: q => Some (Status.success, Some d, with_deque q c)
       end.
(** The loop, the clock being read at the times [clock] while the channel stays as
    it is; [None] when it is still looping after the last of them. *)
Fixpoint read_until_loop (deadline : Z) (clock : list Z) (c : RecentChannel) : option (Status.t * option T * RecentChannel) :=
  match clock with
  | [] => None
  | now :: clock =>
      match do_await_read_until deadline now c with
      | Some x => Some x
      | None => read_until_loop deadline clock c
      end
  end.
End recent.
Arguments RecentChannel : clear implicits.

(** ** NullChannel: a flag; [None] is a reader that sleeps *)
Record NullChannel := mkNull { n_is_shutdown : bool }.
Definition null_await_write (c : NullChannel) : Status.t := if n_is_shutdown c then Status.closed else Status.success.
Definition null_await_read (c : NullChannel) : option Status.t := if n_is_shutdown c then Some Status.closed else None.
Definition null_try_read (c : NullChannel) : Status.t := Status.empty.
Definition null_await_read_until (c : NullChannel) : Status.t := if n_is_shutdown c then Status.closed else Status.timeout.
Definition null_close_channel (c : NullChannel) : NullChannel := mkNull true.
Definition null_is_channel_closed (c : NullChannel) : bool := n_is_shutdown c.

(** ** BufferedChannel over a boost channel *)
Inductive channel_op_status := op_success | op_empty | op_full | op_closed | op_timeout.
Definition status (rc : channel_op_status) : Status.t :=
  match rc with
  | op_success => Status.success
  | op_closed => Status.closed
  | op_empty => Status.empty
  | op_full => Status.full
  | op_timeout => Status.timeout
  end.
(** What [boost::fibers::buffered_channel] offers; blocking calls are relations. *)
Class BoostChannel (T C : Type) : Type := {
  push : T → C → channel_op_status * C → Prop;
  pop : C → channel_op_status * option T * C → Prop;
  try_pop : C → channel_op_status * option T * C;
  pop_wait_until : Z → C → channel_op_status * option T * C → Prop;
  boost_close : C → C;
  boost_is_closed : C → bool;
}.
Section buffered.
Context {T C : Type} `{BoostChannel T C}.
Definition buffered_await_write (val : T) (c : C) (r : Status.t * C) : Prop :=
  ∃ rc, push val c (rc, r.2) ∧ r.1 = status rc.
Definition buffered_await_read (c : C) (r : Status.t * option T * C) : Prop :=
  ∃ rc, pop c (rc, r.1.2, r.2) ∧ r.1.1 = status rc.
Definition buffered_try_read (c : C) : Status.t * option T * C := let '(rc, v, c') := try_pop c in (status rc, v, c').
Definition buffered_await_read_until (deadline : Z) (c : C) (r : Status.t * option T * C) : Prop :=
  ∃ rc, pop_wait_until deadline c (rc, r.1.2, r.2) ∧ r.1.1 = status rc.
Definition buffered_close_channel (c : C) : C := boost_close c.
Definition buffered_is_channel_closed (c : C) : bool := boost_is_closed c.
End buffered.

(** ** Readers and writers of a RecentChannel *)
Section system.
Context {T : Type}.

(** [ready] readers are about to take the lock; [asleep] readers wait on [m_cv].
    [wrote] and [read_] log the successful operations. *)
Record sys := Sys {
  chan : RecentChannel T;
  ready : nat;
  asleep : nat;
  wrote : list T;
  read_ : list T;
}.

(** [notify_one] wakes a sleeping reader if there is one. *)
Definition notify_one (ready asleep : nat) : nat * nat :=
  match asleep with O => (ready, O) | S n => (S ready, n) end.

Inductive step : sys → sys → Prop :=
| step_write d c c' r a r' a' w rd :
    do_await_write d c = Ret (Status.success, c') → notify_one r a = (r', a') →
    step (Sys c r a w rd) (Sys c' r' a' (w ++ [d]) rd)
| step_write_closed d c c' r a w rd :
    do_await_write d c = Ret (Status.closed, c') → step (Sys c r a w rd) (Sys c' r a w rd)
| step_arrive c r a w rd : step (Sys c r a w rd) (Sys c (S r) a w rd)
| step_read c d c' r a w rd :
    do_await_read c = Some (Status.success, Some d, c') → step (Sys c (S r) a w rd) (Sys c' r a w (rd ++ [d]))
| step_read_closed c c' r a w rd :
    do_await_read c = Some (Status.closed, None, c') → step (Sys c (S r) a w rd) (Sys c' r a w rd)
| step_sleep c r a w rd : do_await_read c = None → step (Sys c (S r) a w rd) (Sys c r (S a) w rd)
| step_spurious c r a w rd : step (Sys c r (S a) w rd) (Sys c (S r) a w rd)
| step_try c d c' r a w rd :
    do_try_read c = (Status.success, Some d, c') → step (Sys c r a w rd) (Sys c' r a w (rd ++ [d]))
| step_close c r a w rd : step (Sys c r a w rd) (Sys (do_close_channel c) (r + a) 0 w rd).

Definition initial (count : nat) : sys := Sys (RecentChannel_new count) 0 0 [] [].

(** [taken] is what left the deque, in order; [read_] lacks only dropped data. *)
Record sys_ok (count : nat) (σ : sys) : Prop := {
  ok_size : m_max_size (chan σ) = count ∧ (length (m_deque (chan σ)) ≤ count)%nat;
  ok_order : ∃ taken, wrote σ = taken ++ m_deque (chan σ) ∧ read_ σ `sublist_of` taken;
  ok_wake : asleep σ ≠ 0%nat → m_is_shutdown (chan σ) = false ∧ (length (m_deque (chan σ)) ≤ ready σ)%nat;
}.

Lemma write_spec d (c : RecentChannel T) :
  m_is_shutdown c = false → (0 < m_max_size c)%nat → (length (m_deque c) ≤ m_max_size c)%nat →
  do_await_write d c = Ret (Status.success,
    with_deque (drop (S (length (m_deque c)) - m_max_size c) (m_deque c) ++ [d]) c).
Proof.
  intros Hs Hm Hl. unfold do_await_write. rewrite Hs. destruct (Nat.leb_spec (m_max_size c) (length (m_deque c))) as [Hle|Hlt].
  - replace (S (length (m_deque c)) - m_max_size c)%nat with 1%nat by lia.
    destruct (m_deque c) as [|x q]; [simpl in *; lia|]. done.
  - replace (S (length (m_deque c)) - m_max_size c)%nat with 0%nat by lia. done.
Qed.

Fixpoint write_all (ds : list T) (c : RecentChannel T) : res (RecentChannel T) :=
  match ds with
  | [] => Ret c
  | d :: ds => '(st, c) ← do_await_write d c;
               if decide (st = Status.success) then write_all ds c else Throw "write failed"
  end.

(** A writer of an open RecentChannel is never held back: every write
    succeeds, and the channel then holds the most recent [m_max_size] data (all of
    them while they fit), oldest first. *)
Theorem recent_keeps_last ds (c : RecentChannel T) :
  m_is_shutdown c = false → (0 < m_max_size c)%nat → (length (m_deque c) ≤ m_max_size c)%nat →
  let all := m_deque c ++ ds in
  write_all ds c = Ret (with_deque (drop (length all - m_max_size c) all) c).
Proof.
  cbv zeta. revert c. induction ds as [|d ds IH]; intros c Hs Hm Hl; cbn [write_all].
  { rewrite app_nil_r. replace (length (m_deque c) - m_max_size c)%nat with 0%nat by lia. by destruct c. }
  rewrite write_spec by done. cbn. set (q := drop _ _). rewrite IH; simpl; [|done|done|].
  - f_equal. unfold with_deque. simpl. f_equal. rewrite <-app_assoc. simpl. subst q.
    rewrite !length_app, length_drop. simpl.
    destruct (Nat.le_gt_cases (S (length (m_deque c))) (m_max_size c)) as [Hle|Hgt].
    + replace (S (length (m_deque c)) - m_max_size c)%nat with 0%nat by lia. rewrite drop_0. f_equal. lia.
    + replace (S (length (m_deque c)) - m_max_size c)%nat with 1%nat by lia.
      destruct (m_deque c) as [|x q]; [simpl in *; lia|]. simpl in *.
      replace (S (length q + S (length ds)) - m_max_size c)%nat with (S (length q - 0 + S (length ds) - m_max_size c)) by lia. done.
  - subst q. rewrite length_app, length_drop. simpl. lia.
Qed.

Lemma sys_ok_initial count : sys_ok count (initial count).
Proof. split; simpl; [split; [done|lia]|by exists []|done]. Qed.

(** A reader takes the front of the deque. *)
Lemma sys_ok_pop count c d q r r' a w rd :
  m_is_shutdown c = false → m_deque c = d :: q → (r ≤ S r')%nat →
  sys_ok count (Sys c r a w rd) → sys_ok count (Sys (with_deque q c) r' a w (rd ++ [d])).
Proof.
  intros Hs Hq Hr [[Hm Hlen] (taken & Hw & Hsub) Hwake]. simpl in *. rewrite Hq in *. simpl in *. split; simpl.
  - split; [done|lia].
  - exists (taken ++ [d]). split; [by rewrite <-app_assoc|]. by apply sublist_app.
  - intros Ha. destruct (Hwake Ha). split; [done|lia].
Qed.

Lemma sys_ok_step count σ σ' : (0 < count)%nat → sys_ok count σ → step σ σ' → sys_ok count σ'.
Proof.
  intros Hc [[Hm Hlen] (taken & Hw & Hr) Hwake] Hst.
  destruct Hst as [d c c' r a r' a' w rd Hwr Hn|d c c' r a w rd Hwr|c r a w rd|c d c' r a w rd Hrd|c c' r a w rd Hrd
    |c r a w rd Hrd|c r a w rd|c d c' r a w rd Hrd|c r a w rd]; simpl in *.
  - unfold do_await_write in Hwr. destruct (m_is_shutdown c) eqn:Hs; [done|]. revert Hwr. rewrite <-Hm in *.
    pose proof (write_spec d c Hs Hc Hlen) as Hspec. unfold do_await_write in Hspec. rewrite Hs in Hspec. rewrite Hspec.
    intros [= <-]. set (k := (S (length (m_deque c)) - m_max_size c)%nat). split; simpl.
    + split; [done|]. rewrite length_app, length_drop. simpl. lia.
    + exists (taken ++ take k (m_deque c)). split; [by rewrite Hw, <-!app_assoc, (app_assoc (take _ _)), take_drop|].
      by apply sublist_inserts_r.
    + rewrite length_app, length_drop. simpl. unfold notify_one in Hn. destruct a as [|a]; simplify_eq; [done|].
      intros Ha. split; [done|]. destruct (Hwake ltac:(lia)). lia.
  - unfold do_await_write in Hwr. destruct (m_is_shutdown c) eqn:Hs; [|by repeat (case_match; simpl in Hwr; simplify_eq)].
    simplify_eq. split; simpl; [done|by exists taken|]. by rewrite Hs.
  - split; simpl; [done|by exists taken|]. intros Ha. destruct (Hwake Ha). split; [done|lia].
  - unfold do_await_read in Hrd. destruct (m_is_shutdown c) eqn:Hs; [done|]. destruct (m_deque c) as [|x q] eqn:Eq; [done|].
    simplify_eq. by apply (sys_ok_pop _ c d q (S r)); [..|lia|split; simpl; rewrite ?Eq, ?Hs; eauto].
  - unfold do_await_read in Hrd. destruct (m_is_shutdown c) eqn:Hs; [|by destruct (m_deque c)]. simplify_eq.
    split; simpl; [done|by exists taken|]. intros Ha. destruct (Hwake Ha). congruence.
  - unfold do_await_read in Hrd. destruct (m_is_shutdown c) eqn:Hs; [done|]. destruct (m_deque c) eqn:Eq; [|done].
    split; simpl; rewrite ?Eq; [done|by exists taken|]. intros _. simpl. split; [done|lia].
  - split; simpl; [done|by exists taken|]. intros Ha. destruct Hwake as [? ?]; [done|]. split; [done|lia].
  - unfold do_try_read in Hrd. destruct (m_is_shutdown c) eqn:Hs; [done|]. destruct (m_deque c) as [|x q] eqn:Eq; [done|].
    simplify_eq. by apply (sys_ok_pop _ c d q r); [..|lia|split; simpl; rewrite ?Eq, ?Hs; eauto].
  - split; simpl; [done|by exists taken|done].
Qed.

(** In every interleaving of readers and writers of a RecentChannel, data is
    read at most once and in the order written, what is still in the channel
    follows it, the size is never exceeded, and no wake-up is lost: when all
    readers sleep, the channel is open and empty. *)
Theorem recent_channel_fifo count σ :
  (0 < count)%nat → rtc step (initial count) σ →
  read_ σ ++ m_deque (chan σ) `sublist_of` wrote σ ∧ m_deque (chan σ) `suffix_of` wrote σ ∧
  (length (m_deque (chan σ)) ≤ count)%nat ∧
  (asleep σ ≠ 0%nat → ready σ = 0%nat → m_deque (chan σ) = [] ∧ m_is_shutdown (chan σ) = false).
Proof.
  intros Hc Hr. assert (sys_ok count σ) as [[_ Hlen] (taken & Hw & Hsub) Hwake].
  { revert σ Hr. apply (rtc_ind_r (sys_ok count) (initial count)); [apply sys_ok_initial|]. eauto using sys_ok_step. }
  split_and!; [rewrite Hw; by apply sublist_app|by exists taken|done|].
  intros Ha H0. destruct (Hwake Ha) as [? Hl]. split; [|done]. apply length_zero_iff_nil. lia.
Qed.

(** [do_await_read_until] has its time test the wrong way round: on an open and
    empty channel it returns [timeout] at once although the deadline is ahead,
    and once the deadline has passed it keeps looping, however often it looks at
    the clock, until a datum arrives or the channel is closed. *)
Theorem read_until_inverted (c : RecentChannel T) deadline now clock :
  m_deque c = [] → m_is_shutdown c = false →
  (now ≤ deadline → read_until_loop deadline (now :: clock) c = Some (Status.timeout, None, c)) ∧
  (Forall (λ t, deadline < t) clock → read_until_loop deadline clock c = None).
Proof.
  intros Hq Hs. split.
  - intros Hn. simpl. unfold do_await_read_until. rewrite Hq, Hs. simpl. by rewrite (proj2 (Z.ltb_ge _ _) Hn).
  - induction 1 as [|t l Ht _ IH]; simpl; [done|]. unfold do_await_read_until at 1. rewrite Hq, Hs. simpl.
    by rewrite (proj2 (Z.ltb_lt _ _) Ht).
Qed.
End system.

(** ** The default size is a power of two *)
Lemma land_pred_pow2 k : 0 ≤ k → Z.land (2 ^ k) (2 ^ k - 1) = 0.
Proof.
  intros Hk. replace (2 ^ k - 1) with (Z.ones k) by (rewrite Z.ones_equiv; lia).
  rewrite Z.land_ones by done. apply Z_mod_same_full.
Qed.
Lemma land_pred_not_pow2 n : 0 < n → Z.land n (n - 1) = 0 → n = 2 ^ Z.log2 n.
Proof.
  intros Hn Hl. pose proof (Z.log2_spec n Hn) as [Hlo Hhi]. destruct (Z.eq_dec n (2 ^ Z.log2 n)) as [|Hne]; [done|].
  assert (Z.testbit (Z.land n (n - 1)) (Z.log2 n) = true) as Ht; [|by rewrite Hl, Z.bits_0 in Ht].
  pose proof (Z.log2_nonneg n).
  rewrite Z.land_spec, Z.bit_log2 by done. simpl.
  replace (Z.log2 n) with (Z.log2 (n - 1)) at 1.
  - apply Z.bit_log2. pose proof (Z.pow_pos_nonneg 2 (Z.log2 n)). lia.
  - apply Z.log2_unique; [done|]. lia.
Qed.

(** Exactly the powers of two from 2 on are accepted; otherwise the call throws and
    the default is kept. *)
Lemma set_default_channel_size_spec n s :
  0 ≤ n < 2 ^ 64 →
  (∃ k, 1 ≤ k ∧ n = 2 ^ k) ∧ set_default_channel_size n s = (Ret (), n) ∨
  (¬ ∃ k, 1 ≤ k ∧ n = 2 ^ k) ∧ ∃ e, set_default_channel_size n s = (Throw e, s).
Proof.
  intros Hn. unfold set_default_channel_size, mbind, M_bind, lift, throw_if, put.
  destruct (Z.ltb_spec n 2) as [Hlt|Hge]; simpl.
  { right. split; [|eauto]. intros (k & Hk & ->). pose proof (Z.pow_le_mono_r 2 1 k). lia. }
  rewrite (u64_small (n - 1)) by lia. destruct (Z.eqb_spec (Z.land n (n - 1)) 0) as [E|E]; simpl.
  - left. split; [|done]. exists (Z.log2 n). split; [|by apply land_pred_not_pow2; [lia|]].
    apply (Z.log2_le_mono 2 n). done.
  - right. split; [|eauto]. intros (k & Hk & ->). destruct E. apply land_pred_pow2. lia.
Qed.

(** ** Running it *)
Lemma recent_keeps_last_witness :
  write_all [4; 5; 6] (mkRecent false 4 [1; 2; 3]) = Ret (mkRecent false 4 [3; 4; 5; 6]).
Proof. refine (recent_keeps_last [4; 5; 6] (mkRecent false 4 [1; 2; 3]) _ _ _); [reflexivity|simpl; lia|simpl; lia]. Defined.

(** A reader sleeps, two data are written into a channel of size one and the woken
    reader gets the second. *)
Definition demo_sys : sys (T := Z) := Sys (mkRecent false 1 []) 0 0 [7; 8] [8].
Lemma demo_sys_reachable : rtc step (initial 1) demo_sys.
Proof.
  eapply rtc_l; [apply step_arrive|]. eapply rtc_l; [by apply step_sleep|].
  eapply rtc_l; [by apply (step_write 7)|]. eapply rtc_l; [by apply (step_write 8)|].
  eapply rtc_l; [by apply step_read|]. apply rtc_refl.
Qed.
Lemma recent_channel_fifo_witness :
  [8] ++ [] `sublist_of` [7; 8] ∧ ([] : list Z) `suffix_of` [7; 8] ∧ (0 ≤ 1)%nat ∧
  (asleep demo_sys ≠ 0%nat → ready demo_sys = 0%nat → m_deque (chan demo_sys) = [] ∧ m_is_shutdown (chan demo_sys) = false).
Proof. refine (recent_channel_fifo 1 demo_sys _ demo_sys_reachable). lia. Defined.

Lemma read_until_inverted_witness :
  (3 ≤ 10 → read_until_loop 10 (3 :: [11; 12]) (RecentChannel_new (T := Z) 4) = Some (Status.timeout, None, RecentChannel_new 4)) ∧
  (Forall (λ t, 10 < t) [11; 12] → read_until_loop 10 [11; 12] (RecentChannel_new (T := Z) 4) = None).
Proof. refine (read_until_inverted (RecentChannel_new 4) 10 3 [11; 12] _ _); reflexivity. Defined.
