(* ===== verification/Edges.v ===== *)
(** * Edges between nodes and operators

    Models [include/srf/node]: [SinkChannel] ([sink_channel.hpp]), [SourceChannel]
    and [SourceChannelWriteable] ([source_channel.hpp]), the edges of [edge.hpp],
    [EdgeBuilder::make_edge] ([edge_builder.hpp]) and the operators of
    [operators/] ([Operator], [Muxer], [Broadcast], [RouterBase], [Router],
    [Conditional]), on one store of objects that [std::shared_ptr]s share: an
    object is destroyed when its use count reaches zero, and its destructor
    closes a channel, releases the pointer it holds, or completes an operator,
    which releases further pointers.  A channel is the list of what was written
    to it and whether it is open; a write that has to wait for room returns later
    with the same result. *)
From S2P Require Import Prelude Channels.

Section edges.
Context {D : Type}.

(** ** Objects *)
Record Channel := mkChannel { written : list D; is_open : bool }.
(** What an [Ingress] object does with a write, and what its end does. *)
Inductive ingress :=
| ChannelEdge (s : nat)                     (* Edge<T> made by SinkChannel [s] *)
| ConvertEdge (f : D → D) (r : nat)         (* Edge<SourceT, SinkT> over the ingress [r] *)
| IngressAdaptor (o : nat).                 (* of Operator [o] *)
Record object := mkObject { use_count : nat; held : ingress }.

Record SinkChannel := mkSink {
  m_channel : Channel;
  m_ingress : option nat;                   (* weak_ptr *)
  m_persistent_ingress : option nat;
  m_ingress_initialized : bool;
}.
(** A [SourceChannel], or a [SourceChannelWriteable]. *)
Record SourceChannel := mkSource { writeable : bool; s_ingress : option nat }.
Inductive operator_kind :=
| Muxer | Broadcast
| Router (key : D → Z) (value : D → D)      (* first and second of the tagged data *)
| Conditional (predicate : D → Z).
(** [outs]: the downstream [SourceChannelWriteable]s, by key. *)
Record Operator := mkOperator { kind : operator_kind; o_ingress : option nat; outs : list (Z * nat) }.

Record graph := mkGraph {
  sinks : list SinkChannel;
  sources : list SourceChannel;
  ops : list Operator;
  objects : list (option object);           (* [None]: destroyed *)
}.
Definition graph_empty : graph := mkGraph [] [] [] [].
Definition with_sinks (l : list SinkChannel) (g : graph) : graph := mkGraph l (sources g) (ops g) (objects g).
Definition with_sources (l : list SourceChannel) (g : graph) : graph := mkGraph (sinks g) l (ops g) (objects g).
Definition with_ops (l : list Operator) (g : graph) : graph := mkGraph (sinks g) (sources g) l (objects g).
Definition with_objects (l : list (option object)) (g : graph) : graph := mkGraph (sinks g) (sources g) (ops g) l.

(** ** Shared pointers *)
Definition live (g : graph) (r : nat) : option object := objects g !! r ≫= id.
(** [weak_ptr::lock] *)
Definition lock (w : option nat) (g : graph) : option nat :=
  match w with Some r => match live g r with Some _ => Some r | None => None end | None => None end.
Definition acquire (r : nat) (g : graph) : graph :=
  match live g r with
  | Some o => with_objects (<[r := Some (mkObject (S (use_count o)) (held o))]> (objects g)) g
  | None => g
  end.
Definition new_object (i : ingress) (g : graph) : nat * graph :=
  (length (objects g), with_objects (objects g ++ [Some (mkObject 1 i)]) g).

Definition close_channel (s : nat) (g : graph) : graph :=
  match sinks g !! s with
  | Some k => with_sinks (<[s := mkSink (mkChannel (written (m_channel k)) false) (m_ingress k)
                                   (m_persistent_ingress k) (m_ingress_initialized k)]> (sinks g)) g
  | None => g
  end.
(** The pointer a [SourceChannel] holds, taken out of it. *)
Definition reset_source (i : nat) (g : graph) : list nat * graph :=
  match sources g !! i with
  | Some k => (option_list (s_ingress k), with_sources (<[i := mkSource (writeable k) None]> (sources g)) g)
  | None => ([], g)
  end.
Fixpoint reset_sources (ids : list nat) (g : graph) : list nat * graph :=
  match ids with
  | [] => ([], g)
  | i :: ids => let '(rs, g1) := reset_source i g in let '(rs', g2) := reset_sources ids g1 in (rs ++ rs', g2)
  end.
Definition on_complete (o : nat) (g : graph) : list nat * graph :=
  match ops g !! o with
  | Some p =>
      let '(rs, g1) := reset_sources (snd <$> outs p) g in
      match kind p with
      | Muxer => (rs, g1)                                                  (* release_channel *)
      | _ => (rs, with_ops (<[o := mkOperator (kind p) (o_ingress p) []]> (ops g1)) g1)   (* clear *)
      end
  | None => ([], g)
  end.
(** One pointer to [r] goes: what is to be released after it. *)
Definition drop (r : nat) (g : graph) : list nat * graph :=
  match live g r with
  | Some o =>
      if use_count o =? 1 then
        let g1 := with_objects (<[r := None]> (objects g)) g in
        match held o with
        | ChannelEdge s => ([], close_channel s g1)
        | ConvertEdge _ r' => ([r'], g1)
        | IngressAdaptor p => on_complete p g1
        end
      else ([], with_objects (<[r := Some (mkObject (pred (use_count o)) (held o))]> (objects g)) g)
  | None => ([], g)
  end.
Fixpoint release_fuel (fuel : nat) (rs : list nat) (g : graph) : graph :=
  match fuel, rs with
  | S fuel, r :: rs => let '(rs', g1) := drop r g in release_fuel fuel (rs' ++ rs) g1
  | _, _ => g
  end.
Definition total (g : graph) : nat := sum_list_with (λ o, from_option use_count 0 o) (objects g).
(** Every step drops one pointer. *)
Definition release (rs : list nat) (g : graph) : graph := release_fuel (total g) rs g.

(** ** Acquiring an ingress *)
(** [SinkChannel::channel_ingress]: the holders share one [Edge], whose deleter
    closes the channel. *)
Definition channel_ingress (s : nat) : M graph nat := λ g,
  match sinks g !! s with
  | Some k =>
      if negb (is_open (m_channel k)) then (Throw "attempting to acquire an Ingress to a closed channel", g)
      else match lock (m_ingress k) g with
           | Some r => (Ret r, acquire r g)
           | None =>
               let '(r, g1) := new_object (ChannelEdge s) g in
               (Ret r, with_sinks (<[s := mkSink (m_channel k) (Some r) (m_persistent_ingress k) true]> (sinks g1)) g1)
           end
  | None => (Undefined "no such sink", g)
  end.
(** [Operator::channel_ingress]: the last assignment declares a local variable
    that shadows the member [m_ingress]. *)
Definition operator_ingress (o : nat) : M graph nat := λ g,
  match ops g !! o with
  | Some p =>
      match lock (o_ingress p) g with
      | Some r => (Ret r, acquire r g)
      | None => let '(r, g1) := new_object (IngressAdaptor o) g in (Ret r, g1)
      end
  | None => (Undefined "no such operator", g)
  end.
(** The sink side of an edge: a [SinkChannel] or an [Operator]. *)
Inductive sink_properties := OfSink (s : nat) | OfOperator (o : nat).
Definition ingress_of (p : sink_properties) : M graph nat :=
  match p with OfSink s => channel_ingress s | OfOperator o => operator_ingress o end.

(** [SourceChannel::complete_edge]: the pointer it was given is released when it
    throws. *)
Definition complete_edge (i r : nat) : M graph () := λ g,
  match sources g !! i with
  | Some k =>
      match s_ingress k with
      | Some _ => (Throw "multiple edges to a source detected; use an operator to select proper behavior", release [r] g)
      | None => (Ret (), with_sources (<[i := mkSource (writeable k) (Some r)]> (sources g)) g)
      end
  | None => (Undefined "no such source", release [r] g)
  end.
(** [EdgeBuilder::make_edge]; [conv] is the conversion of an edge whose ends have
    different types. *)
Definition make_edge (i : nat) (conv : option (D → D)) (p : sink_properties) : M graph () :=
  r ← ingress_of p;
  r' ← match conv with None => mret r | Some f => λ g, let '(r', g1) := new_object (ConvertEdge f r) g in (Ret r', g1) end;
  complete_edge i r'.
Definition release_channel (i : nat) (g : graph) : graph := let '(rs, g1) := reset_source i g in release rs g1.

(** ** Persistence and replacement of a sink's channel *)
Definition keep_ingress (s r : nat) : M graph () := λ g,
  match sinks g !! s with
  | Some k => (Ret (), with_sinks (<[s := mkSink (m_channel k) (m_ingress k) (Some r) (m_ingress_initialized k)]> (sinks g)) g)
  | None => (Undefined "no such sink", g)
  end.
Definition enable_persistence (s : nat) : M graph () := λ g,
  match sinks g !! s with
  | Some k =>
      match m_persistent_ingress k with
      | Some _ => (Ret (), g)
      | None => (channel_ingress s ≫= keep_ingress s) g
      end
  | None => (Undefined "no such sink", g)
  end.
Definition disable_persistence (s : nat) (g : graph) : graph :=
  match sinks g !! s with
  | Some k =>
      release (option_list (m_persistent_ingress k))
        (with_sinks (<[s := mkSink (m_channel k) (m_ingress k) None (m_ingress_initialized k)]> (sinks g)) g)
  | None => g
  end.
(** The channel is shared by its sink and by the live edge to it. *)
Definition edge_to (s : nat) (o : option object) : bool :=
  match o with Some (mkObject _ (ChannelEdge s')) => s' =? s | _ => false end.
Definition update_channel (s : nat) : M graph () := λ g,
  match sinks g !! s with
  | Some k =>
      if existsb (edge_to s) (objects g)
      then (Abort "can not modify the input channel after it has been shared or is persistent", g)
      else (Ret (), with_sinks (<[s := mkSink (mkChannel [] true) (m_ingress k) (m_persistent_ingress k) false]> (sinks g)) g)
  | None => (Undefined "no such sink", g)
  end.

(** ** Downstream sources of an operator *)
Definition set_outs (o : nat) (l : list (Z * nat)) (g : graph) : graph :=
  with_ops (alter (λ p, mkOperator (kind p) (o_ingress p) l) o (ops g)) g.
Definition find_out (key : Z) (l : list (Z * nat)) : option nat := snd <$> find (λ kv, (kv.1 =? key)%Z) l.
Definition has_router (k : operator_kind) : bool := match k with Router _ _ | Conditional _ => true | _ => false end.
Definition add_out (o : nat) (p : Operator) (key : Z) : M graph nat := λ g,
  let i := length (sources g) in
  (Ret i, set_outs o (outs p ++ [(key, i)]) (with_sources (sources g ++ [mkSource true None]) g)).
(** [RouterBase::source] *)
Definition source (o : nat) (key : Z) : M graph nat := λ g,
  match ops g !! o with
  | Some p => if has_router (kind p)
              then match find_out key (outs p) with Some i => (Ret i, g) | None => add_out o p key g end
              else (Undefined "no such member", g)
  | None => (Undefined "no such operator", g)
  end.
(** [Broadcast::make_source]; the elements of its vector have no keys. *)
Definition make_source (o : nat) : M graph nat := λ g,
  match ops g !! o with
  | Some p => match kind p with Broadcast => add_out o p 0%Z g | _ => (Undefined "no such member", g) end
  | None => (Undefined "no such operator", g)
  end.
(** [RouterBase::drop_edge] *)
Definition drop_edge (o : nat) (key : Z) (g : graph) : graph :=
  match ops g !! o with
  | Some p =>
      match (if has_router (kind p) then find_out key (outs p) else None) with
      | Some i => release_channel i (set_outs o (filter (λ kv, kv.1 ≠ key) (outs p)) g)
      | None => g
      end
  | None => g
  end.
Definition has_edge (o : nat) (key : Z) (g : graph) : bool :=
  match ops g !! o with Some p => bool_decide (is_Some (find_out key (outs p))) | None => false end.

(** ** Writing *)
Definition push (s : nat) (d : D) : M graph Status.t := λ g,
  match sinks g !! s with
  | Some k =>
      if is_open (m_channel k)
      then (Ret Status.success,
            with_sinks (<[s := mkSink (mkChannel (written (m_channel k) ++ [d]) true) (m_ingress k)
                                (m_persistent_ingress k) (m_ingress_initialized k)]> (sinks g)) g)
      else (Ret Status.closed, g)
  | None => (Undefined "no such sink", g)
  end.
(** [SourceChannel::await_write] and the two [no_channel]s. *)
Definition write_source (write : nat → D → M graph Status.t) (i : nat) (d : D) : M graph Status.t := λ g,
  match sources g !! i with
  | Some k =>
      match s_ingress k with
      | Some r => write r d g
      | None => (if writeable k then Ret Status.success
                 else Throw "SourceChannel has either not been connected or the channel has been released", g)
      end
  | None => (Undefined "no such source", g)
  end.
(** The copies that [Broadcast::on_next] writes before the data itself. *)
Fixpoint write_copies (write : nat → D → M graph Status.t) (ids : list nat) (d : D) : M graph () :=
  match ids with
  | [] => mret ()
  | i :: ids =>
      rc ← write_source write i d;
      _ ← lift (check (bool_decide (rc = Status.success)) "await_write == success");
      write_copies write ids d
  end.
Definition on_next (write : nat → D → M graph Status.t) (o : nat) (d : D) : M graph Status.t := λ g,
  match ops g !! o with
  | Some p =>
      let route key v := match find_out key (outs p) with
                         | Some i => write_source write i v g
                         | None => (Throw "unable to find edge for key", g)
                         end in
      match kind p with
      | Muxer => match outs p with (_, i) :: _ => write_source write i d g | [] => (Undefined "no source", g) end
      | Broadcast =>
          match outs p with
          | (_, i) :: rest => (write_copies write (snd <$> rest) d ≫= λ _, write_source write i d) g
          | [] => (Undefined "element 0 of an empty vector", g)
          end
      | Router key value => route (key d) (value d)
      | Conditional predicate => route (predicate d) d
      end
  | None => (Undefined "no such operator", g)
  end.
(** Edges that form a cycle are followed for ever. *)
Fixpoint write_ref (fuel : nat) (r : nat) (d : D) : M graph Status.t := λ g,
  match fuel with
  | 0 => (Undefined "unbounded recursion", g)
  | S fuel =>
      match live g r with
      | Some o =>
          match held o with
          | ChannelEdge s => push s d g
          | ConvertEdge f r' => write_ref fuel r' (f d) g
          | IngressAdaptor p => on_next (write_ref fuel) p d g
          end
      | None => (Undefined "dangling ingress", g)
      end
  end.
Definition await_write (i : nat) (d : D) : M graph Status.t := λ g, write_source (write_ref (length (objects g))) i d g.

(** ** Programs that build and use a graph *)
Inductive event :=
| NewSink | NewSource (w : bool) | NewOperator (k : operator_kind)
| MakeEdge (i : nat) (conv : option (D → D)) (p : sink_properties)
| MakeSource (o : nat) | SourceFor (o : nat) (key : Z) | DropEdge (o : nat) (key : Z)
| EnablePersistence (s : nat) | DisablePersistence (s : nat) | UpdateChannel (s : nat)
| AwaitWrite (i : nat) (d : D) | ReleaseChannel (i : nat).
Definition new_operator (k : operator_kind) (g : graph) : graph :=
  match k with
  | Muxer => with_ops (ops g ++ [mkOperator k None [(0%Z, length (sources g))]]) (with_sources (sources g ++ [mkSource true None]) g)
  | _ => with_ops (ops g ++ [mkOperator k None []]) g
  end.
Definition exec (e : event) : M graph () :=
  match e with
  | NewSink => modify (λ g, with_sinks (sinks g ++ [mkSink (mkChannel [] true) None None false]) g)
  | NewSource w => modify (λ g, with_sources (sources g ++ [mkSource w None]) g)
  | NewOperator k => modify (new_operator k)
  | MakeEdge i conv p => make_edge i conv p
  | MakeSource o => _ ← make_source o; mret ()
  | SourceFor o key => _ ← source o key; mret ()
  | DropEdge o key => modify (drop_edge o key)
  | EnablePersistence s => enable_persistence s
  | DisablePersistence s => modify (disable_persistence s)
  | UpdateChannel s => update_channel s
  | AwaitWrite i d => _ ← await_write i d; mret ()
  | ReleaseChannel i => modify (release_channel i)
  end.
(** An exception leaves the graph as it is at the throw; the program goes on. *)
Fixpoint run (es : list event) (g : graph) : graph :=
  match es with [] => g | e :: es => run es (snd (exec e g)) end.
Definition reachable (g : graph) : Prop := ∃ es, g = run es graph_empty.
End edges.
