(* ===== verification/EdgesInv.v ===== *)
(** * Reference counts of the edges

    The invariant of [Edges.v]: in every graph that a program can reach, the use
    count of each object is the number of pointers to it, an object lives exactly
    as long as that number is positive, and the channel of a sink that has handed
    out an ingress is open exactly as long as that ingress lives.  Pointers in
    transit are a list, so that each primitive step has its own lemma. *)
From S2P Require Import Prelude Channels Edges.

Section edges.
Context {D : Type}.
Notation graph := (graph (D := D)).
Notation object := (object (D := D)).
Notation ingress := (ingress (D := D)).
Notation SinkChannel := (SinkChannel (D := D)).
Implicit Types (g : graph).

(** ** The counts are exact, and a channel is open as long as its edge lives *)
Definition points (r : nat) (w : option nat) : bool := bool_decide (w = Some r).
Definition source_holds (r : nat) (k : SourceChannel) : bool := points r (s_ingress k).
Definition sink_holds (r : nat) (k : SinkChannel) : bool := points r (m_persistent_ingress k).
Definition edge_holds (r : nat) (o : option object) : bool :=
  match o with Some (mkObject _ (ConvertEdge _ r')) => r' =? r | _ => false end.
(** The pointers to [r] in the graph. *)
Definition refs_to (g : graph) (r : nat) : nat :=
  countb (source_holds r) (sources g) + countb (sink_holds r) (sinks g) + countb (edge_holds r) (objects g).
Definition uses (g : graph) (r : nat) : nat := from_option use_count 0 (live g r).
(** Pointers on their way: acquired or taken out, and not stored or dropped yet. *)
Definition pending (r : nat) (rs : list nat) : nat := countb (Nat.eqb r) rs.

Record sink_ok (g : graph) (s : nat) (k : SinkChannel) : Prop := {
  sk_ref r : m_ingress k = Some r → r < length (objects g) ∧ ∀ o, live g r = Some o → held o = ChannelEdge s;
  sk_open : is_open (m_channel k) = true ↔ (m_ingress_initialized k = true → is_Some (lock (m_ingress k) g));
}.
Record wf (g : graph) (rs : list nat) : Prop := {
  w_count r : uses g r = refs_to g r + pending r rs;
  w_pos r o : live g r = Some o → 1 ≤ use_count o;
  w_sink s k : sinks g !! s = Some k → sink_ok g s k;
  w_edge r o s : live g r = Some o → held o = ChannelEdge s →
    ∃ k, sinks g !! s = Some k ∧ m_ingress k = Some r ∧ m_ingress_initialized k = true;
}.

Lemma live_lt g r o : live g r = Some o → r < length (objects g).
Proof. unfold live. destruct (objects g !! r) eqn:E; [|done]. intros _. by eapply lookup_lt_Some. Qed.
Lemma live_lookup g r o : live g r = Some o → objects g !! r = Some (Some o).
Proof. unfold live. destruct (objects g !! r) as [[]|]; simpl; congruence. Qed.
Lemma live_insert g r x r' :
  r < length (objects g) → live (with_objects (<[r := x]> (objects g)) g) r' = if decide (r' = r) then x else live g r'.
Proof.
  intros Hr. unfold live. simpl. destruct (decide (r' = r)) as [->|Hn].
  - by rewrite list_lookup_insert_eq.
  - by rewrite list_lookup_insert_ne.
Qed.
Lemma live_app g o r' :
  live (with_objects (objects g ++ [Some o]) g) r' = if decide (r' = length (objects g)) then Some o else live g r'.
Proof.
  unfold live. simpl. destruct (decide (r' = length (objects g))) as [->|Hn].
  - by rewrite list_lookup_middle.
  - destruct (decide (r' < length (objects g))); [by rewrite lookup_app_l|].
    rewrite lookup_app_r by lia. rewrite (lookup_ge_None_2 (objects g)) by lia.
    destruct (r' - length (objects g)) as [|[|]] eqn:E; [lia|done|done].
Qed.
Lemma lock_Some w g r : lock w g = Some r ↔ w = Some r ∧ is_Some (live g r).
Proof.
  unfold lock. destruct w as [r'|]; [|naive_solver]. destruct (live g r') eqn:E; split.
  - intros [= ->]. eauto.
  - by intros [[= ->] _].
  - done.
  - intros [[= ->] [? ?]]. congruence.
Qed.
Lemma points_spec r w : points r w = true ↔ w = Some r.
Proof. apply bool_decide_eq_true. Qed.

(** Only sources change. *)
Lemma wf_sources g l rs rs' :
  (∀ r, countb (source_holds r) l + pending r rs' = countb (source_holds r) (sources g) + pending r rs) →
  wf g rs → wf (with_sources l g) rs'.
Proof.
  intros Hl [H1 H2 H3 H4]. split; auto.
  - intros r. specialize (H1 r). specialize (Hl r). unfold uses, live, refs_to in *. simpl. lia.
  - intros s k Hk. destruct (H3 s k Hk) as [Ha Hb]. by split.
Qed.
Lemma wf_ops g l rs : wf g rs → wf (with_ops l g) rs.
Proof. intros [H1 H2 H3 H4]. split; auto. intros s k Hk. destruct (H3 s k Hk) as [Ha Hb]. by split. Qed.
Lemma wf_pending g rs rs' : (∀ r, pending r rs = pending r rs') → wf g rs → wf g rs'.
Proof. intros Hp [H1 H2 H3 H4]. split; auto. intros r. rewrite <-Hp. auto. Qed.
Lemma in_transit_app r rs rs' : pending r (rs ++ rs') = pending r rs + pending r rs'.
Proof. apply countb_app. Qed.
Lemma pending_options r w : pending r (option_list w) = if points r w then 1 else 0.
Proof.
  destruct w as [r'|]; [|done]. unfold points, pending. simpl. destruct (Nat.eqb_spec r r') as [->|].
  - by rewrite bool_decide_true by done.
  - rewrite bool_decide_false by congruence. done.
Qed.

Lemma source_insert g i k k' rs :
  sources g !! i = Some k → wf g (option_list (s_ingress k') ++ rs) →
  wf (with_sources (<[i := k']> (sources g)) g) (option_list (s_ingress k) ++ rs).
Proof.
  intros Hi. apply wf_sources. intros r. rewrite !in_transit_app, !pending_options.
  pose proof (countb_insert (source_holds r) _ _ _ k' Hi). unfold source_holds at 2 4 in H. lia.
Qed.
Lemma reset_source_wf g i rs rs' g' : wf g rs → reset_source i g = (rs', g') → wf g' (rs' ++ rs).
Proof.
  unfold reset_source. destruct (sources g !! i) as [k|] eqn:Hi; intros Hw [= <- <-]; [|done].
  by apply source_insert.
Qed.
Lemma reset_sources_wf ids g rs rs' g' : wf g rs → reset_sources ids g = (rs', g') → wf g' (rs' ++ rs).
Proof.
  revert g rs rs' g'. induction ids as [|i ids IH]; intros g rs rs' g' Hw; simpl; [by intros [= <- <-]|].
  destruct (reset_source i g) as [r1 g1] eqn:E1. destruct (reset_sources ids g1) as [r2 g2] eqn:E2. intros [= <- <-].
  pose proof (reset_source_wf _ _ _ _ _ Hw E1) as H1. pose proof (IH _ _ _ _ H1 E2) as H2.
  eapply wf_pending; [|exact H2]. intros r. rewrite !in_transit_app. lia.
Qed.
Lemma reset_sources_objects ids g : objects (reset_sources ids g).2 = objects g.
Proof.
  revert g. induction ids as [|i ids IH]; intros g; simpl; [done|].
  destruct (reset_source i g) as [r1 g1] eqn:E1. specialize (IH g1). destruct (reset_sources ids g1) as [r2 g2]. simpl in *.
  rewrite IH. revert E1. unfold reset_source. destruct (sources g !! i); by intros [= <- <-].
Qed.
Lemma on_complete_wf o g rs rs' g' : wf g rs → on_complete o g = (rs', g') → wf g' (rs' ++ rs) ∧ objects g' = objects g.
Proof.
  unfold on_complete. destruct (ops g !! o) as [p|]; intros Hw; [|by intros [= <- <-]].
  pose proof (reset_sources_objects (snd <$> outs p) g) as Ho.
  destruct (reset_sources _ g) as [r1 g1] eqn:E. pose proof (reset_sources_wf _ _ _ _ _ Hw E).
  intros Hr. assert (rs' = r1 ∧ (g' = g1 ∨ ∃ l, g' = with_ops l g1)) as [-> [->|[l ->]]]
    by (destruct (kind p); simplify_eq; eauto); auto using wf_ops.
Qed.

(** The count of a live object changes. *)
Lemma wf_set_count g r o n rs rs' :
  wf g rs → live g r = Some o → 1 ≤ n → n + pending r rs = use_count o + pending r rs' →
  (∀ r', r' ≠ r → pending r' rs = pending r' rs') →
  wf (with_objects (<[r := Some (mkObject n (held o))]> (objects g)) g) rs'.
Proof.
  intros [H1 H2 H3 H4] Hr Hn Hc Hp. pose proof (live_lt _ _ _ Hr) as Hlt.
  assert (∀ r', is_Some (live (with_objects (<[r := Some (mkObject n (held o))]> (objects g)) g) r') ↔ is_Some (live g r')) as Hl.
  { intros r'. rewrite live_insert by done. destruct (decide (r' = r)) as [->|]; [rewrite Hr|]; split; eauto. }
  split.
  - intros r'. specialize (H1 r'). revert H1. unfold uses. rewrite live_insert by done. unfold refs_to. simpl.
    pose proof (countb_insert (edge_holds r') _ _ _ (Some (mkObject n (held o))) (live_lookup _ _ _ Hr)) as Hi.
    assert (edge_holds r' (Some (mkObject n (held o))) = edge_holds r' (Some o)) as He by (by destruct o as [? []]).
    rewrite He in Hi. destruct (decide (r' = r)) as [->|Hne].
    + rewrite Hr. simpl. lia.
    + rewrite <-(Hp r' Hne). lia.
  - intros r' o'. rewrite live_insert by done. destruct (decide (r' = r)) as [->|]; [intros [= <-]; done|apply H2].
  - intros s k Hk. destruct (H3 s k Hk) as [Ha Hb]. split.
    + intros r' Hm. destruct (Ha r' Hm) as [Hlt' Hh]. simpl. rewrite length_insert. split; [done|].
      intros o'. rewrite live_insert by done. destruct (decide (r' = r)) as [->|]; [intros [= <-]; simpl; auto|apply Hh].
    + rewrite Hb. split; intros Hx Hi; destruct (Hx Hi) as [x Hx']; apply lock_Some in Hx' as [He Hs];
        exists x; apply lock_Some; (split; [done|]); by apply Hl.
  - intros r' o' s. rewrite live_insert by done. destruct (decide (r' = r)) as [->|]; [intros [= <-]; simpl; by apply H4|apply H4].
Qed.
Lemma acquire_wf g r rs : wf g rs → is_Some (live g r) → wf (acquire r g) (r :: rs).
Proof.
  intros Hw [o Ho]. unfold acquire. rewrite Ho. eapply wf_set_count; [done|done|lia| |].
  - unfold pending. simpl. rewrite Nat.eqb_refl. lia.
  - intros r' Hn. unfold pending. simpl. by destruct (Nat.eqb_spec r' r).
Qed.

(** The pointers an ingress object holds. *)
Definition tail_of (i : ingress) : list nat := match i with ConvertEdge _ r => [r] | _ => [] end.
Lemma edge_holds_tail n i r : (if edge_holds r (Some (mkObject n i)) then 1 else 0) = pending r (tail_of i).
Proof. destruct i as [|f r'|]; unfold pending; simpl; try done. rewrite Nat.eqb_sym. by destruct (r =? r'). Qed.

(** An object is destroyed: its last pointer goes, and it hands on its own. *)
Lemma wf_destroy g r o rs :
  wf g (r :: rs) → live g r = Some o → use_count o = 1 → (∀ s, held o ≠ ChannelEdge s) →
  wf (with_objects (<[r := None]> (objects g)) g) (tail_of (held o) ++ rs).
Proof.
  intros [H1 H2 H3 H4] Hr Hn Hs. pose proof (live_lt _ _ _ Hr) as Hlt. split.
  - intros r'. specialize (H1 r'). revert H1. unfold uses. rewrite live_insert by done. unfold refs_to. simpl.
    pose proof (countb_insert (edge_holds r') _ _ _ None (live_lookup _ _ _ Hr)) as Hi.
    destruct o as [n i]. rewrite (edge_holds_tail n i r') in Hi. rewrite in_transit_app. simpl in *. subst n.
    unfold pending at 1. simpl. fold (pending r' rs). destruct (decide (r' = r)) as [->|Hne].
    + rewrite Hr, Nat.eqb_refl. simpl. lia.
    + destruct (Nat.eqb_spec r' r); [done|]. lia.
  - intros r' o'. rewrite live_insert by done. destruct (decide (r' = r)) as [->|]; [done|apply H2].
  - intros s k Hk. destruct (H3 s k Hk) as [Ha Hb].
    assert (m_ingress k ≠ Some r) as Hm by (intros Hm; destruct (Ha r Hm) as [_ Hh]; by apply (Hs s), Hh). split.
    + intros r' Hm'. destruct (Ha r' Hm') as [Hlt' Hh]. simpl. rewrite length_insert. split; [done|].
      intros o'. rewrite live_insert by done. destruct (decide (r' = r)) as [->|]; [done|apply Hh].
    + rewrite Hb. split; intros Hx Hi; destruct (Hx Hi) as [x Hx']; apply lock_Some in Hx' as [He Hs'];
        exists x; apply lock_Some; (split; [done|]); revert Hs'; rewrite live_insert by done; rewrite decide_False by congruence; done.
  - intros r' o' s. rewrite live_insert by done. destruct (decide (r' = r)) as [->|]; [done|apply H4].
Qed.
Lemma wf_destroy_edge g r o rs s :
  wf g (r :: rs) → live g r = Some o → use_count o = 1 → held o = ChannelEdge s →
  wf (close_channel s (with_objects (<[r := None]> (objects g)) g)) rs.
Proof.
  intros [H1 H2 H3 H4] Hr Hn Hs. pose proof (live_lt _ _ _ Hr) as Hlt. destruct (H4 r o s Hr Hs) as (k & Hk & Hm & Hi).
  unfold close_channel. simpl. rewrite Hk. set (k' := mkSink _ _ _ _). pose proof (lookup_lt_Some _ _ _ Hk) as Hks.
  assert (∀ r', live (with_sinks (<[s := k']> (sinks g)) (with_objects (<[r := None]> (objects g)) g)) r' =
    if decide (r' = r) then None else live g r') as Hl by (intros r'; by rewrite <-live_insert).
  split.
  - intros r'. specialize (H1 r'). revert H1. unfold uses. rewrite Hl. unfold refs_to. simpl.
    pose proof (countb_insert (edge_holds r') _ _ _ None (live_lookup _ _ _ Hr)) as Hc.
    pose proof (countb_insert (sink_holds r') _ _ _ k' Hk) as Hc'. unfold sink_holds at 2 4 in Hc'. simpl in Hc'.
    destruct o as [n i]. rewrite (edge_holds_tail n i r') in Hc. simpl in *. subst n i. simpl in Hc. change (pending r' []) with 0 in Hc.
    unfold pending at 1. simpl. fold (pending r' rs). destruct (decide (r' = r)) as [->|Hne].
    + rewrite Hr, Nat.eqb_refl. simpl. lia.
    + destruct (Nat.eqb_spec r' r); [done|]. lia.
  - intros r' o'. rewrite Hl. destruct (decide (r' = r)) as [->|]; [done|apply H2].
  - intros s' k1. simpl. destruct (decide (s' = s)) as [->|Hne].
    + rewrite list_lookup_insert_eq by done. intros [= <-]. destruct (H3 s k Hk) as [Ha Hb]. split.
      * intros r' Hm'. simpl. rewrite length_insert. destruct (Ha r' Hm') as [Hlt' Hh]. split; [done|].
        intros o'. rewrite Hl. destruct (decide (r' = r)) as [->|]; [done|apply Hh].
      * simpl. rewrite Hm. split; [done|]. intros Hx. destruct (Hx Hi) as [x Hx']. apply lock_Some in Hx' as [[= <-] [? Hx']].
        rewrite Hl, decide_True in Hx' by done. done.
    + rewrite list_lookup_insert_ne by done. intros Hk1. destruct (H3 s' k1 Hk1) as [Ha Hb].
      assert (m_ingress k1 ≠ Some r) as Hm' by (intros Hm'; destruct (Ha r Hm') as [_ Hh]; specialize (Hh o Hr); congruence). split.
      * intros r' Hm1. simpl. rewrite length_insert. destruct (Ha r' Hm1) as [Hlt' Hh]. split; [done|].
        intros o'. rewrite Hl. destruct (decide (r' = r)) as [->|]; [done|apply Hh].
      * rewrite Hb. split; intros Hx Hi'; destruct (Hx Hi') as [x Hx']; apply lock_Some in Hx' as [He Hs'];
          exists x; apply lock_Some; (split; [done|]); revert Hs'; rewrite Hl, decide_False by congruence; done.
  - intros r' o' s'. rewrite Hl. destruct (decide (r' = r)) as [->|Hne]; [done|]. intros Ho' Hh.
    destruct (H4 r' o' s' Ho' Hh) as (k1 & Hk1 & Hm1 & Hi1). simpl. destruct (decide (s' = s)) as [->|Hne'].
    + simplify_eq.
    + exists k1. by rewrite list_lookup_insert_ne.
Qed.

Lemma drop_wf g r rs rs' g' : wf g (r :: rs) → drop r g = (rs', g') → wf g' (rs' ++ rs).
Proof.
  intros Hw. pose proof (w_count _ _ Hw r) as Hc. unfold pending in Hc. simpl in Hc. rewrite Nat.eqb_refl in Hc.
  unfold drop. destruct (live g r) as [o|] eqn:Hr; [|unfold uses in Hc; rewrite Hr in Hc; simpl in Hc; lia].
  destruct (Nat.eqb_spec (use_count o) 1) as [Hn|Hn].
  - destruct (held o) as [s|f r'|p] eqn:Hh.
    + intros [= <- <-]. by eapply wf_destroy_edge.
    + intros [= <- <-]. pose proof (wf_destroy _ _ _ _ Hw Hr Hn) as H. rewrite Hh in H. by apply H.
    + intros Ho. pose proof (wf_destroy _ _ _ _ Hw Hr Hn) as H. rewrite Hh in H.
      destruct (on_complete_wf _ _ _ _ _ (H ltac:(done)) Ho) as [H' _]. exact H'.
  - intros [= <- <-]. pose proof (w_pos _ _ Hw _ _ Hr). eapply wf_set_count; [done|done|lia| |].
    + unfold pending. simpl. rewrite Nat.eqb_refl. lia.
    + intros r1 Hr1. unfold pending. simpl. by destruct (Nat.eqb_spec r1 r).
Qed.

(** ** Releasing ends: each step takes one off the sum of the counts *)
Definition count_of (o : option object) : nat := from_option use_count 0 o.
Lemma close_channel_objects s g : objects (close_channel s g) = objects g.
Proof. unfold close_channel. by destruct (sinks g !! s). Qed.
Lemma drop_total g r rs rs' g' : wf g (r :: rs) → drop r g = (rs', g') → total g = S (total g').
Proof.
  intros Hw. pose proof (w_count _ _ Hw r) as Hc. unfold pending in Hc. simpl in Hc. rewrite Nat.eqb_refl in Hc.
  unfold drop. destruct (live g r) as [o|] eqn:Hr; [|unfold uses in Hc; rewrite Hr in Hc; simpl in Hc; lia].
  pose proof (w_pos _ _ Hw _ _ Hr). pose proof (live_lookup _ _ _ Hr) as Hl. unfold total. fold count_of.
  destruct (Nat.eqb_spec (use_count o) 1) as [Hn|Hn].
  - pose proof (sum_insert count_of _ _ _ None Hl) as Hi. simpl in Hi. rewrite Hn in Hi.
    destruct (held o) as [s|f r'|p] eqn:Hh.
    + intros [= <- <-]. rewrite close_channel_objects. simpl. lia.
    + intros [= <- <-]. simpl. lia.
    + intros Ho. pose proof (wf_destroy _ _ _ _ Hw Hr Hn) as H1. rewrite Hh in H1.
      destruct (on_complete_wf _ _ _ _ _ (H1 ltac:(done)) Ho) as [_ ->]. simpl. lia.
  - intros [= <- <-]. pose proof (sum_insert count_of _ _ _ (Some (mkObject (pred (use_count o)) (held o))) Hl) as Hi. simpl in *. lia.
Qed.
Lemma pending_live g r rs : wf g (r :: rs) → is_Some (live g r).
Proof.
  intros Hw. pose proof (w_count _ _ Hw r) as Hc. unfold pending in Hc. simpl in Hc. rewrite Nat.eqb_refl in Hc.
  unfold uses in Hc. destruct (live g r); [eauto|simpl in Hc; lia].
Qed.
Lemma release_fuel_wf fuel rs g : total g ≤ fuel → wf g rs → wf (release_fuel fuel rs g) [].
Proof.
  revert rs g. induction fuel as [|fuel IH]; intros [|r rs] g Hf Hw; simpl; try done.
  - destruct (pending_live _ _ _ Hw) as [o Ho]. pose proof (w_pos _ _ Hw _ _ Ho).
    pose proof (sum_elem count_of _ _ _ (live_lookup _ _ _ Ho)). unfold total in Hf. fold count_of in Hf. simpl in *. lia.
  - destruct (drop r g) as [rs' g'] eqn:E. pose proof (drop_total _ _ _ _ _ Hw E). apply IH; [lia|]. by eapply drop_wf.
Qed.
Lemma release_wf rs g : wf g rs → wf (release rs g) [].
Proof. by apply release_fuel_wf. Qed.
(** More fuel changes nothing: the release has ended. *)
Lemma release_fuel_enough n m rs g : total g ≤ n → total g ≤ m → wf g rs → release_fuel n rs g = release_fuel m rs g.
Proof.
  revert m rs g. induction n as [|n IH]; intros [|m] [|r rs] g Hn Hm Hw; simpl; try done.
  - destruct (drop r g) as [rs' g'] eqn:E. pose proof (drop_total _ _ _ _ _ Hw E). lia.
  - destruct (drop r g) as [rs' g'] eqn:E. pose proof (drop_total _ _ _ _ _ Hw E). lia.
  - destruct (drop r g) as [rs' g'] eqn:E. pose proof (drop_total _ _ _ _ _ Hw E). apply IH; [lia|lia|by eapply drop_wf].
Qed.

(** ** Every operation keeps the counts *)
Lemma wf_fresh g rs : wf g rs → refs_to g (length (objects g)) + pending (length (objects g)) rs = 0.
Proof.
  intros Hw. rewrite <-(w_count _ _ Hw). unfold uses, live. by rewrite lookup_ge_None_2.
Qed.
Lemma wf_new g i rs :
  wf g (tail_of i ++ rs) → (∀ s, i ≠ ChannelEdge s) → wf (new_object i g).2 (length (objects g) :: rs).
Proof.
  intros Hw Hs. pose proof (wf_fresh _ _ Hw) as Hz. destruct Hw as [H1 H2 H3 H4]. simpl. split.
  - intros r. unfold uses. rewrite live_app. unfold refs_to. cbn [sources sinks objects with_objects]. rewrite countb_app. cbn [countb].
    rewrite Nat.add_0_r, edge_holds_tail. rewrite in_transit_app in Hz. specialize (H1 r). unfold uses, refs_to in *. rewrite in_transit_app in H1.
    change (pending r (length (objects g) :: rs)) with ((if r =? length (objects g) then 1 else 0) + pending r rs).
    destruct (decide (r = length (objects g))) as [->|Hn]; simpl.
    + rewrite Nat.eqb_refl. lia.
    + destruct (Nat.eqb_spec r (length (objects g))); [done|]. lia.
  - intros r o. rewrite live_app. destruct (decide _); [intros [= <-]; simpl; lia|apply H2].
  - intros s k Hk. destruct (H3 s k Hk) as [Ha Hb]. split.
    + intros r Hm. destruct (Ha r Hm) as [Hlt Hh]. simpl. rewrite length_app. split; [simpl; lia|].
      intros o. rewrite live_app, decide_False by lia. apply Hh.
    + rewrite Hb. split; intros Hx Hi; destruct (Hx Hi) as [x Hx']; apply lock_Some in Hx' as [He Hs'];
        exists x; apply lock_Some; (split; [done|]); revert Hs'; destruct (Ha x He) as [Hlt _];
        rewrite live_app, decide_False by lia; done.
  - intros r o s. rewrite live_app. destruct (decide _); [intros [= <-] Hh; by destruct (Hs s)|apply H4].
Qed.

Lemma lock_with_sinks l w g : lock w (with_sinks l g) = lock w g.
Proof. done. Qed.
(** A sink changes its data or what it persists. *)
Lemma sink_insert g s k k' rs rs' :
  sinks g !! s = Some k → m_ingress k' = m_ingress k → m_ingress_initialized k' = m_ingress_initialized k →
  is_open (m_channel k') = is_open (m_channel k) →
  (∀ r, pending r (option_list (m_persistent_ingress k') ++ rs') = pending r (option_list (m_persistent_ingress k) ++ rs)) →
  wf g rs → wf (with_sinks (<[s := k']> (sinks g)) g) rs'.
Proof.
  intros Hk Hm Hi Ho Hp [H1 H2 H3 H4]. pose proof (lookup_lt_Some _ _ _ Hk) as Hlt. split; auto.
  - intros r. specialize (H1 r). specialize (Hp r). unfold uses, refs_to in *. simpl. rewrite !in_transit_app, !pending_options in Hp.
    pose proof (countb_insert (sink_holds r) _ _ _ k' Hk) as Hc. unfold sink_holds at 2 4 in Hc. unfold live in *. simpl in *. lia.
  - intros s' k1. simpl. destruct (decide (s' = s)) as [->|Hn].
    + rewrite list_lookup_insert_eq by done. intros [= <-]. destruct (H3 s k Hk) as [Ha Hb].
      split; rewrite ?Hm, ?Hi, ?Ho; auto.
    + rewrite list_lookup_insert_ne by done. intros Hk1. destruct (H3 s' k1 Hk1) as [Ha Hb]. by split.
  - intros r o s' Hr Hh. destruct (H4 r o s' Hr Hh) as (k1 & Hk1 & Hm1 & Hi1). simpl. destruct (decide (s' = s)) as [->|Hn].
    + simplify_eq. exists k'. rewrite list_lookup_insert_eq by done. repeat split; congruence.
    + exists k1. by rewrite list_lookup_insert_ne.
Qed.
(** A sink makes its first edge, or another after the last one went. *)
Lemma wf_new_edge g s k rs :
  wf g rs → sinks g !! s = Some k → is_open (m_channel k) = true → lock (m_ingress k) g = None →
  let g1 := (new_object (ChannelEdge s) g).2 in
  wf (with_sinks (<[s := mkSink (m_channel k) (Some (length (objects g))) (m_persistent_ingress k) true]> (sinks g1)) g1)
     (length (objects g) :: rs).
Proof.
  intros Hw Hk Ho Hl g1. pose proof (wf_fresh _ _ Hw) as Hz. destruct Hw as [H1 H2 H3 H4].
  pose proof (lookup_lt_Some _ _ _ Hk) as Hlt. set (k' := mkSink _ _ _ _).
  assert (∀ r, live (with_sinks (<[s := k']> (sinks g1)) g1) r =
    if decide (r = length (objects g)) then Some (mkObject 1 (ChannelEdge s)) else live g r) as Hv by (intros r; by rewrite <-live_app).
  assert (∀ r o, live g r = Some o → held o ≠ ChannelEdge s) as Hno.
  { intros r o Hr Hh. destruct (H4 r o s Hr Hh) as (k1 & Hk1 & Hm1 & _). simplify_eq. rewrite Hm1 in Hl. simpl in Hl. by rewrite Hr in Hl. }
  split.
  - intros r. unfold uses. rewrite Hv. unfold refs_to. simpl. rewrite countb_app. simpl.
    pose proof (countb_insert (sink_holds r) _ _ _ k' Hk) as Hc. unfold sink_holds at 2 4 in Hc. simpl in Hc.
    specialize (H1 r). unfold uses, refs_to in *.
    change (pending r (length (objects g) :: rs)) with ((if r =? length (objects g) then 1 else 0) + pending r rs).
    destruct (decide (r = length (objects g))) as [->|Hn]; simpl.
    + rewrite Nat.eqb_refl. lia.
    + destruct (Nat.eqb_spec r (length (objects g))); [done|]. lia.
  - intros r o. rewrite Hv. destruct (decide _); [intros [= <-]; simpl; lia|apply H2].
  - intros s' k1. simpl. destruct (decide (s' = s)) as [->|Hn].
    + rewrite list_lookup_insert_eq by done. intros [= <-]. split.
      * intros r. simpl. intros [= <-]. rewrite length_app. split; [simpl; lia|]. intros o. rewrite Hv, decide_True by done. by intros [= <-].
      * simpl. rewrite Ho. split; [|done]. intros _ _. exists (length (objects g)). apply (lock_Some (Some (length (objects g)))). split; [done|].
        rewrite Hv, decide_True by done. eauto.
    + rewrite list_lookup_insert_ne by done. intros Hk1. destruct (H3 s' k1 Hk1) as [Ha Hb]. split.
      * intros r Hm. destruct (Ha r Hm) as [Hr Hh]. simpl. rewrite length_app. split; [simpl; lia|].
        intros o. rewrite Hv, decide_False by lia. apply Hh.
      * rewrite Hb. split; intros Hx Hi; destruct (Hx Hi) as [x Hx']; apply lock_Some in Hx' as [He Hs'];
          exists x; apply lock_Some; (split; [done|]); revert Hs'; destruct (Ha x He) as [Hlt' _];
          rewrite Hv, decide_False by lia; done.
  - intros r o s'. rewrite Hv. destruct (decide _) as [->|Hr].
    + intros [= <-]. simpl. intros [= <-]. exists k'. by rewrite list_lookup_insert_eq.
    + intros Hr' Hh. destruct (H4 r o s' Hr' Hh) as (k1 & Hk1 & Hm1 & Hi1). simpl. destruct (decide (s' = s)) as [->|Hn].
      * by destruct (Hno _ _ Hr').
      * exists k1. by rewrite list_lookup_insert_ne.
Qed.

(** What an operation leaves on its way: a new pointer when it returns one. *)
Definition keeps {A} (extra : A → list nat) (m : M graph A) : Prop :=
  ∀ g rs, wf g rs → match m g with (Ret a, g') => wf g' (extra a ++ rs) | (_, g') => wf g' rs end.
Lemma channel_ingress_wf s : keeps (λ r, [r]) (channel_ingress s).
Proof.
  intros g rs Hw. unfold channel_ingress. destruct (sinks g !! s) as [k|] eqn:Hk; [|done].
  destruct (is_open (m_channel k)) eqn:Ho; simpl; [|done]. destruct (lock (m_ingress k) g) as [r|] eqn:Hl.
  - apply acquire_wf; [done|]. by apply lock_Some in Hl as [_ ?].
  - apply (wf_new_edge g s k rs Hw Hk Ho Hl).
Qed.
Lemma operator_ingress_wf o : keeps (λ r, [r]) (operator_ingress o).
Proof.
  intros g rs Hw. unfold operator_ingress. destruct (ops g !! o) as [p|]; [|done]. destruct (lock (o_ingress p) g) as [r|] eqn:Hl.
  - apply acquire_wf; [done|]. by apply lock_Some in Hl as [_ ?].
  - simpl. by apply (wf_new g (IngressAdaptor o) rs).
Qed.
Lemma complete_edge_wf i r g : wf g [r] → wf (complete_edge i r g).2 [].
Proof.
  intros Hw. unfold complete_edge. destruct (sources g !! i) as [k|] eqn:Hi; simpl; [|by apply release_wf].
  destruct (s_ingress k) as [r'|] eqn:Hr; simpl; [by apply release_wf|].
  pose proof (source_insert g i k (mkSource (writeable k) (Some r)) [] Hi Hw) as H. by rewrite Hr in H.
Qed.
Lemma make_edge_wf i conv p g : wf g [] → wf (make_edge i conv p g).2 [].
Proof.
  intros Hw. unfold make_edge, mbind, M_bind.
  assert (keeps (λ r, [r]) (ingress_of p)) as Hp by (destruct p; [apply channel_ingress_wf|apply operator_ingress_wf]).
  specialize (Hp g [] Hw). destruct (ingress_of p g) as [[r|?|?|?] g1]; simpl; try done.
  destruct conv as [f|]; simpl; apply complete_edge_wf; [|done]. by apply (wf_new g1 (ConvertEdge f r) []).
Qed.
Lemma release_channel_wf i g : wf g [] → wf (release_channel i g) [].
Proof.
  intros Hw. unfold release_channel. destruct (reset_source i g) as [rs g1] eqn:E.
  apply release_wf. pose proof (reset_source_wf _ _ _ _ _ Hw E) as H. by rewrite app_nil_r in H.
Qed.
Lemma enable_persistence_wf s g : wf g [] → wf (enable_persistence s g).2 [].
Proof.
  intros Hw. unfold enable_persistence. destruct (sinks g !! s) as [k|] eqn:Hk; [|done].
  destruct (m_persistent_ingress k) as [r|] eqn:Hp; [done|]. unfold mbind, M_bind.
  pose proof (channel_ingress_wf s g [] Hw) as H. unfold channel_ingress in *. rewrite Hk in *.
  destruct (is_open (m_channel k)) eqn:Ho; simpl in *; [|done].
  assert (∀ g1 r k1, sinks g1 !! s = Some k1 → m_persistent_ingress k1 = None → wf g1 [r] → wf (keep_ingress s r g1).2 []) as Hkeep.
  { intros g1 r k1 Hk1 Hp1 Hw1. unfold keep_ingress. rewrite Hk1. simpl.
    apply (sink_insert g1 s k1 _ [r]); auto. by rewrite Hp1. }
  destruct (lock (m_ingress k) g) as [r|] eqn:Hl; simpl in *.
  - apply (Hkeep _ _ k); [|done|done]. unfold acquire. by destruct (live g r).
  - eapply Hkeep; [simpl; by rewrite list_lookup_insert_eq by (by eapply lookup_lt_Some)|done|done].
Qed.
Lemma disable_persistence_wf s g : wf g [] → wf (disable_persistence s g) [].
Proof.
  intros Hw. unfold disable_persistence. destruct (sinks g !! s) as [k|] eqn:Hk; [|done]. apply release_wf.
  apply (sink_insert g s k _ []); auto. intros r. simpl. by rewrite app_nil_r.
Qed.
Lemma no_edge_to g s : existsb (edge_to s) (objects g) = false → ∀ r o, live g r = Some o → held o ≠ ChannelEdge s.
Proof.
  intros He r o Hr Hh. assert (existsb (edge_to s) (objects g) = true) as Ht; [|congruence].
  apply existsb_exists. exists (Some o). split; [apply list_elem_of_In; eapply list_elem_of_lookup_2, live_lookup, Hr|].
  destruct o as [n i]. simpl in *. subst i. by rewrite Nat.eqb_refl.
Qed.
Lemma update_channel_wf s g : wf g [] → wf (update_channel s g).2 [].
Proof.
  intros [H1 H2 H3 H4]. unfold update_channel. destruct (sinks g !! s) as [k|] eqn:Hk; [|done].
  destruct (existsb (edge_to s) (objects g)) eqn:He; [done|]. pose proof (no_edge_to _ _ He) as Hno.
  pose proof (lookup_lt_Some _ _ _ Hk) as Hlt. simpl. set (k' := mkSink _ _ _ _). split; auto.
  - intros r. specialize (H1 r). unfold uses, refs_to in *. simpl.
    pose proof (countb_insert (sink_holds r) _ _ _ k' Hk) as Hc. unfold sink_holds at 2 4 in Hc. unfold live in *. simpl in *. lia.
  - intros s' k1. simpl. destruct (decide (s' = s)) as [->|Hn].
    + rewrite list_lookup_insert_eq by done. intros [= <-]. destruct (H3 s k Hk) as [Ha Hb]. by split.
    + rewrite list_lookup_insert_ne by done. intros Hk1. destruct (H3 s' k1 Hk1) as [Ha Hb]. by split.
  - intros r o s' Hr Hh. destruct (H4 r o s' Hr Hh) as (k1 & Hk1 & Hm1 & Hi1). exists k1. simpl.
    rewrite list_lookup_insert_ne; [done|]. intros ->. by destruct (Hno r o Hr).
Qed.
Lemma add_source_wf g w rs : wf g rs → wf (with_sources (sources g ++ [mkSource w None]) g) rs.
Proof. apply wf_sources. intros r. rewrite countb_app. simpl. lia. Qed.
Lemma add_out_wf o p key g : wf g [] → wf (add_out o p key g).2 [].
Proof. intros Hw. unfold add_out, set_outs. simpl. apply wf_ops, add_source_wf, Hw. Qed.
Lemma drop_edge_wf o key g : wf g [] → wf (drop_edge o key g) [].
Proof.
  intros Hw. unfold drop_edge. destruct (ops g !! o) as [p|]; [|done].
  destruct (if has_router (kind p) then find_out key (outs p) else None); [|done]. apply release_channel_wf. by apply wf_ops.
Qed.

(** Writing moves no pointer. *)
Lemma keeps_bind {A B} (m : M graph A) (f : A → M graph B) :
  keeps (λ _, []) m → (∀ a, keeps (λ _, []) (f a)) → keeps (λ _, []) (m ≫= f).
Proof.
  intros Hm Hf g rs Hw. specialize (Hm g rs Hw). unfold mbind, M_bind. destruct (m g) as [[a|?|?|?] g1]; [|done..].
  by apply Hf.
Qed.
Lemma push_wf s d : keeps (λ _, []) (push s d).
Proof.
  intros g rs Hw. unfold push. destruct (sinks g !! s) as [k|] eqn:Hk; [|done]. destruct (is_open (m_channel k)) eqn:Ho; [|done].
  simpl. by apply (sink_insert g s k _ rs).
Qed.
Lemma write_source_wf write i d :
  (∀ r d, keeps (λ _, []) (write r d)) → keeps (λ _, []) (write_source write i d).
Proof.
  intros Hf g rs Hw. unfold write_source. destruct (sources g !! i) as [k|]; [|done].
  destruct (s_ingress k); [by apply Hf|]. by destruct (writeable k).
Qed.
Lemma write_copies_wf write ids d :
  (∀ r d, keeps (λ _, []) (write r d)) → keeps (λ _, []) (write_copies write ids d).
Proof.
  intros Hf. induction ids as [|i ids IH]; simpl; [by intros g rs Hw|]. apply keeps_bind; [by apply write_source_wf|]. intros rc.
  apply keeps_bind; [|done]. intros g rs Hw. unfold lift. by destruct (check _ _).
Qed.
Lemma on_next_wf write o d : (∀ r d, keeps (λ _, []) (write r d)) → keeps (λ _, []) (on_next write o d).
Proof.
  intros Hf g rs Hw. pose proof (λ i d, write_source_wf write i d Hf g rs Hw) as Hs. unfold on_next. destruct (ops g !! o) as [p|]; [|done].
  destruct (kind p) as [| |key value|predicate].
  - destruct (outs p) as [|[? i] ?]; [done|apply Hs].
  - destruct (outs p) as [|[? i] ?]; [done|].
    by apply (keeps_bind _ _ (write_copies_wf write _ d Hf) (λ _, write_source_wf write i d Hf)).
  - destruct (find_out (key d) (outs p)); [apply Hs|done].
  - destruct (find_out (predicate d) (outs p)); [apply Hs|done].
Qed.
Lemma write_ref_wf fuel r d : keeps (λ _, []) (write_ref fuel r d).
Proof.
  revert r d. induction fuel as [|fuel IH]; intros r d g rs Hw; simpl; [done|].
  destruct (live g r) as [o|]; [|done]. destruct (held o); [by apply push_wf|by apply IH|by apply on_next_wf].
Qed.
Lemma await_write_wf i d g : wf g [] → wf (await_write i d g).2 [].
Proof.
  intros Hw. unfold await_write. pose proof (write_source_wf (write_ref (length (objects g))) i d (write_ref_wf _) g [] Hw) as H.
  by destruct (write_source _ i d g) as [[] ?].
Qed.
Lemma exec_wf e g : wf g [] → wf (exec e g).2 [].
Proof.
  intros Hw. destruct e as [| |k| |o|o key| | | | |i d|]; simpl.
  - (* a new sink *)
    destruct Hw as [H1 H2 H3 H4]. split; auto.
    + intros r. specialize (H1 r). unfold uses, refs_to in *. simpl. rewrite countb_app. simpl. unfold live in *. simpl. lia.
    + intros s k. simpl. intros [Hk|[Hs Hk]]%lookup_app_Some; [destruct (H3 s k Hk) as [Ha Hb]; by split|].
      apply list_lookup_singleton_Some in Hk as [_ <-]. by split.
    + intros r o s Hr Hh. destruct (H4 r o s Hr Hh) as (k & Hk & Hm). exists k. simpl. split; [by apply lookup_app_l_Some|done].
  - by apply add_source_wf.
  - unfold new_operator. destruct k; apply wf_ops; [by apply add_source_wf|done..].
  - by apply make_edge_wf.
  - unfold make_source, mbind, M_bind. destruct (ops g !! o) as [p|]; [|done]. destruct (kind p); [done| |done..]. by apply add_out_wf.
  - unfold source, mbind, M_bind. destruct (ops g !! o) as [p|]; [|done]. destruct (has_router (kind p)); [|done].
    destruct (find_out key (outs p)); [done|]. by apply add_out_wf.
  - by apply drop_edge_wf.
  - by apply enable_persistence_wf.
  - by apply disable_persistence_wf.
  - by apply update_channel_wf.
  - unfold mbind, M_bind. pose proof (await_write_wf i d g Hw) as H. by destruct (await_write i d g) as [[] ?].
  - by apply release_channel_wf.
Qed.
Lemma wf_empty : wf (graph_empty (D := D)) [].
Proof. by split. Qed.
Lemma reachable_wf g : reachable g → wf g [].
Proof.
  intros [es ->]. generalize wf_empty. generalize (graph_empty (D := D)). induction es as [|e es IH]; intros g Hw; simpl; [done|].
  apply IH. by apply exec_wf.
Qed.
End edges.
