(* ===== verification/EdgesSpec.v ===== *)
(** * What the edges promise

    Properties of the graphs of [Edges.v]: when a channel closes, where a write
    goes, and what happens to a second edge of a source and to a second source of
    an operator. *)
From S2P Require Import Prelude Channels Edges EdgesInv.

Section edges.
Context {D : Type}.
Notation graph := (graph (D := D)).
Notation SinkChannel := (SinkChannel (D := D)).
Implicit Types (g : graph) (d : D).

(** C4: The channel of a sink that has handed out an ingress is open exactly as
    long as some source, converting edge or the sink's own persistence holds that
    ingress, and no other object is alive than those some pointer refers to: the
    last holder to let go closes the channel, and none closes it earlier. *)
Theorem channel_open_while_held g :
  reachable g →
  (∀ s k, sinks g !! s = Some k → m_ingress_initialized k = true →
     (is_open (m_channel k) = true ↔ ∃ r, m_ingress k = Some r ∧ 1 ≤ refs_to g r)) ∧
  (∀ r, uses g r = refs_to g r ∧ (is_Some (live g r) ↔ 1 ≤ refs_to g r)).
Proof.
  intros Hw%reachable_wf.
  assert (∀ r, uses g r = refs_to g r) as Hu by (intros r; rewrite (w_count _ _ Hw r); unfold pending; simpl; lia).
  assert (∀ r, is_Some (live g r) ↔ 1 ≤ refs_to g r) as Hl.
  { intros r. rewrite <-Hu. unfold uses. destruct (live g r) as [o|] eqn:E; simpl; split; eauto; [intros _; by eapply w_pos|by intros [? ?]|lia]. }
  split; [|by intros r; split]. intros s k Hk Hi. destruct (w_sink _ _ Hw s k Hk) as [_ Ho]. rewrite Ho. split.
  - intros H. destruct (H Hi) as [r Hr]. apply lock_Some in Hr as [Hm Hr]. exists r. split; [done|by apply Hl].
  - intros (r & Hm & Hr) _. exists r. apply lock_Some. split; [done|by apply Hl].
Qed.

(** ** Where a write goes *)
Definition source_targets (tg : nat → D → option (list (nat * D))) g (i : nat) d : option (list (nat * D)) :=
  sources g !! i ≫= λ k,
  match s_ingress k with Some r => tg r d | None => if writeable k then Some [] else None end.
Fixpoint copies_targets (tg : nat → D → option (list (nat * D))) g (ids : list nat) d : option (list (nat * D)) :=
  match ids with
  | [] => Some []
  | i :: ids => l ← source_targets tg g i d; l' ← copies_targets tg g ids d; Some (l ++ l')
  end.
Definition operator_targets (tg : nat → D → option (list (nat * D))) g (o : nat) d : option (list (nat * D)) :=
  ops g !! o ≫= λ p,
  match kind p with
  | Muxer => head (outs p) ≫= λ '(_, i), source_targets tg g i d
  | Broadcast =>
      match outs p with
      | [] => None
      | (_, i) :: rest => l ← copies_targets tg g (snd <$> rest) d; l' ← source_targets tg g i d; Some (l ++ l')
      end
  | Router key value => find_out (key d) (outs p) ≫= λ i, source_targets tg g i (value d)
  | Conditional predicate => find_out (predicate d) (outs p) ≫= λ i, source_targets tg g i d
  end.
Fixpoint targets (fuel : nat) g (r : nat) d : option (list (nat * D)) :=
  match fuel with
  | 0 => None
  | S fuel =>
      live g r ≫= λ o,
      match held o with
      | ChannelEdge s => Some [(s, d)]
      | ConvertEdge f r' => targets fuel g r' (f d)
      | IngressAdaptor p => operator_targets (targets fuel g) g p d
      end
  end.
(** The sinks that a write of [d] by source [i] reaches, with what each gets, in
    order; [None]: the edges lead nowhere, or in a circle. *)
Definition route (g : graph) (i : nat) (d : D) : option (list (nat * D)) :=
  source_targets (targets (length (objects g)) g) g i d.
Definition received (s : nat) (l : list (nat * D)) : list D := snd <$> filter (λ sd, sd.1 = s) l.
Definition extend (s : nat) (l : list (nat * D)) (k : SinkChannel) : SinkChannel :=
  mkSink (mkChannel (written (m_channel k) ++ received s l) (is_open (m_channel k)))
    (m_ingress k) (m_persistent_ingress k) (m_ingress_initialized k).
Definition deliver (l : list (nat * D)) (g : graph) : graph := with_sinks (imap (λ s k, extend s l k) (sinks g)) g.

(** Same pointers, maybe other data. *)
Record same_shape g g' : Prop := {
  ss_sources : sources g' = sources g; ss_ops : ops g' = ops g; ss_objects : objects g' = objects g;
}.
Definition fails {A} (r : res A) : Prop := match r with Ret _ | Abort _ => False | _ => True end.
(** [m] does what the routes say. *)
Definition follows (m : M graph Status.t) (t : option (list (nat * D))) g : Prop :=
  match t with
  | Some l => m g = (Ret Status.success, deliver l g)
  | None => fails (m g).1 ∧ same_shape g (m g).2
  end.

Lemma deliver_nil g : deliver [] g = g.
Proof.
  destruct g as [sk so op ob]. unfold deliver, with_sinks. simpl. f_equal. apply list_eq. intros s. rewrite list_lookup_imap.
  destruct (sk !! s) as [[[w b] m p i]|]; [|done]. simpl. unfold extend. simpl. by rewrite app_nil_r.
Qed.
Lemma deliver_app l l' g : deliver l' (deliver l g) = deliver (l ++ l') g.
Proof.
  unfold deliver, with_sinks. simpl. f_equal. apply list_eq. intros s. rewrite !list_lookup_imap.
  destruct (sinks g !! s) as [k|]; [|done]. simpl. unfold extend, received. simpl. by rewrite filter_app, fmap_app, app_assoc.
Qed.
Lemma deliver_shape l g : same_shape g (deliver l g).
Proof. by split. Qed.
Lemma live_shape g g' r : same_shape g g' → live g' r = live g r.
Proof. intros [_ _ H]. unfold live. by rewrite H. Qed.
Lemma push_delivers g s d r o rs : wf g rs → live g r = Some o → held o = ChannelEdge s →
  push s d g = (Ret Status.success, deliver [(s, d)] g).
Proof.
  intros Hw Hr Hh. destruct (w_edge _ _ Hw _ _ _ Hr Hh) as (k & Hk & Hm & Hi).
  destruct (w_sink _ _ Hw s k Hk) as [_ Ho]. unfold push. rewrite Hk.
  assert (is_open (m_channel k) = true) as Hopen by (apply Ho; intros _; exists r; apply lock_Some; eauto). rewrite Hopen.
  f_equal. unfold deliver, with_sinks. f_equal. apply list_eq. intros s'. rewrite list_lookup_imap.
  destruct (decide (s' = s)) as [->|Hn].
  - rewrite list_lookup_insert_eq by (by eapply lookup_lt_Some). rewrite Hk. simpl. unfold extend, received.
    rewrite filter_cons_True by done. by rewrite Hopen.
  - rewrite list_lookup_insert_ne by done. destruct (sinks g !! s') as [[[w b] m p i]|]; [|done]. simpl.
    unfold extend, received. rewrite filter_cons_False by (simpl; congruence). simpl. by rewrite app_nil_r.
Qed.

Section follow.
Context (g0 : graph) (write : nat → D → M graph Status.t) (tg : nat → D → option (list (nat * D))).
Hypothesis Hkeeps : ∀ r d, keeps (λ _, []) (write r d).
Hypothesis Hwrite : ∀ r d g rs, wf g rs → same_shape g0 g → follows (write r d) (tg r d) g.

Lemma shape_trans g1 g2 g3 : same_shape g1 g2 → same_shape g2 g3 → same_shape g1 g3.
Proof. intros [? ? ?] [? ? ?]. split; congruence. Qed.
Lemma follow_source i d g rs : wf g rs → same_shape g0 g → follows (write_source write i d) (source_targets tg g0 i d) g.
Proof.
  intros Hw Hs. pose proof Hs as [H1 H2 H3]. unfold follows, write_source, source_targets. rewrite <-H1.
  destruct (sources g !! i) as [k|] eqn:Hi; simpl; [|by split].
  destruct (s_ingress k) as [r|] eqn:Hr; [exact (Hwrite r d g rs Hw Hs)|].
  destruct (writeable k); [by rewrite deliver_nil|by split].
Qed.
Lemma wf_follow (m : M graph Status.t) l g rs : keeps (λ _, []) m → wf g rs → m g = (Ret Status.success, deliver l g) → wf (deliver l g) rs.
Proof. intros Hm Hw Hr. specialize (Hm g rs Hw). by rewrite Hr in Hm. Qed.
Lemma follow_copies ids d g rs : wf g rs → same_shape g0 g →
  match copies_targets tg g0 ids d with
  | Some l => write_copies write ids d g = (Ret (), deliver l g) ∧ wf (deliver l g) rs
  | None => fails (write_copies write ids d g).1 ∧ same_shape g (write_copies write ids d g).2
  end.
Proof.
  revert g. induction ids as [|i ids IH]; intros g Hw Hs; simpl; [by rewrite deliver_nil|].
  pose proof (follow_source i d g rs Hw Hs) as Hf. unfold mbind, M_bind.
  destruct (source_targets tg g0 i d) as [l|]; simpl in *.
  - pose proof (wf_follow _ _ _ _ (write_source_wf write i d Hkeeps) Hw Hf) as Hw1.
    pose proof (deliver_shape l g) as Hs1. specialize (IH (deliver l g) Hw1 (shape_trans _ _ _ Hs Hs1)).
    rewrite Hf. simpl.
    destruct (copies_targets tg g0 ids d) as [l'|]; simpl.
    + rewrite deliver_app in IH. exact IH.
    + destruct IH as [Ha Hb]. split; [done|by eapply shape_trans].
  - destruct (write_source write i d g) as [[] g1]; simpl in *; destruct Hf as [Ha Hb]; try done.
Qed.
Lemma follow_on_next o d g rs : wf g rs → same_shape g0 g → follows (on_next write o d) (operator_targets tg g0 o d) g.
Proof.
  intros Hw Hs. pose proof (λ i d, follow_source i d g rs Hw Hs) as Hf. pose proof Hs as [H1 H2 H3].
  unfold follows, on_next, operator_targets in *. rewrite H2. destruct (ops g0 !! o) as [p|]; simpl; [|by split].
  destruct (kind p) as [| |key value|predicate].
  - destruct (outs p) as [|[? i] ?]; simpl; [by split|apply Hf].
  - destruct (outs p) as [|[? i] rest]; simpl; [by split|]. unfold mbind, M_bind, option_bind.
    pose proof (follow_copies (snd <$> rest) d g rs Hw Hs) as Hc.
    destruct (copies_targets tg g0 (snd <$> rest) d) as [l|]; simpl.
    + destruct Hc as [Hc Hw1]. rewrite Hc. pose proof (follow_source i d (deliver l g) rs Hw1 (shape_trans _ _ _ Hs (deliver_shape l g))) as Hl.
      destruct (source_targets tg g0 i d) as [l'|]; simpl in *; [by rewrite Hl, deliver_app|].
      unfold follows in Hl. destruct Hl as [Ha Hb]. split; [done|]. by eapply shape_trans; [apply deliver_shape|].
    + destruct (write_copies write (snd <$> rest) d g) as [[] g1]; simpl in *; destruct Hc; done.
  - destruct (find_out (key d) (outs p)) as [i|]; simpl; [apply Hf|by split].
  - destruct (find_out (predicate d) (outs p)) as [i|]; simpl; [apply Hf|by split].
Qed.
End follow.

Lemma follow_ref fuel g0 r d g rs : wf g rs → same_shape g0 g → follows (write_ref fuel r d) (targets fuel g0 r d) g.
Proof.
  revert r d g rs. induction fuel as [|fuel IH]; intros r d g rs Hw Hs; simpl; [by split|].
  unfold follows. simpl. rewrite <-(live_shape g0 g r Hs). destruct (live g r) as [o|] eqn:Hr; simpl; [|by split].
  destruct (held o) as [s|f r'|p] eqn:Hh.
  - by eapply push_delivers.
  - by apply (IH r' (f d) g rs).
  - apply (follow_on_next g0 (write_ref fuel) (targets fuel g0) (write_ref_wf fuel) (λ r d g rs, IH r d g rs) p d g rs Hw Hs).
Qed.

Lemma await_write_route g i d : wf g [] → follows (await_write i d) (route g i d) g.
Proof.
  intros Hw. apply (follow_source g (write_ref (length (objects g))) (targets (length (objects g)) g)
    (λ r d g' rs, follow_ref _ g r d g' rs) i d g [] Hw). by split.
Qed.

(** C12: In every graph a program can reach, a write goes where the edges lead: each
    sink on its route gets its data once, converted along the way and after what it
    got before, nothing else changes and the status is success, so that a writer
    never meets a closed channel and the CHECK of Broadcast holds.  A write that
    has no route (no such key, no edge, no downstream of a broadcast, a cycle) does
    not return. *)
Theorem await_write_follows_route g i d :
  reachable g →
  match route g i d with
  | Some l => await_write i d g = (Ret Status.success, deliver l g)
  | None => ∀ rc why, (await_write i d g).1 ≠ Ret rc ∧ (await_write i d g).1 ≠ Abort why
  end.
Proof.
  intros Hw%reachable_wf. pose proof (await_write_route g i d Hw) as Hf.
  unfold follows in Hf. destruct (route g i d) as [l|]; [done|]. destruct Hf as [Hf _].
  intros rc why. destruct (await_write i d g) as [[] ?]; simpl in *; done.
Qed.

(** ** A second edge of a source *)
Lemma fresh_sink g s k rs : wf g rs → sinks g !! s = Some k → m_ingress_initialized k = false →
  is_open (m_channel k) = true ∧ lock (m_ingress k) g = None.
Proof.
  intros Hw Hk Hi. destruct (w_sink _ _ Hw s k Hk) as [Hr Ho]. split; [apply Ho; congruence|].
  destruct (lock (m_ingress k) g) as [r|] eqn:Hl; [|done]. apply lock_Some in Hl as [Hm [o Hl]].
  destruct (w_edge _ _ Hw r o s Hl) as (k' & Hk' & _ & Hi'); [by apply (Hr r)|congruence].
Qed.
(** When [make_edge] finds that the source has an edge already, it throws, and
    releasing the ingress it had acquired closes the channel of a sink that nobody
    else had connected to: no edge to that sink can be made afterwards. *)
Theorem failed_edge_closes_sink g i k r s c :
  reachable g → sources g !! i = Some k → s_ingress k = Some r →
  sinks g !! s = Some c → m_ingress_initialized c = false →
  ∃ g', make_edge i None (OfSink s) g =
          (Throw "multiple edges to a source detected; use an operator to select proper behavior", g') ∧
        ∀ j conv, (make_edge j conv (OfSink s) g').1 = Throw "attempting to acquire an Ingress to a closed channel".
Proof.
  intros Hw%reachable_wf Hi Hr Hs Hc. destruct (fresh_sink g s c [] Hw Hs Hc) as [Ho Hl].
  unfold make_edge at 1, mbind, M_bind. simpl. unfold channel_ingress at 1. rewrite Hs, Ho, Hl. simpl.
  unfold complete_edge. simpl. rewrite Hi, Hr. eexists. split; [reflexivity|]. intros j conv.
  set (c' := mkSink _ _ _ _). set (g1 := with_sinks _ _).
  assert (live g1 (length (objects g)) = Some (mkObject 1 (ChannelEdge s))) as Hv by (unfold live; simpl; by rewrite list_lookup_middle).
  unfold release. assert (1 ≤ total g1) as Ht.
  { pose proof (sum_elem count_of (objects g1) (length (objects g)) (Some (mkObject 1 (ChannelEdge s)))) as H. unfold total. fold (@count_of D).
    simpl in H. apply H. by rewrite list_lookup_middle. }
  destruct (total g1) as [|n]; [lia|]. simpl. unfold drop. rewrite Hv. simpl.
  assert (∀ n g, release_fuel n [] g = g) as -> by (by intros []).
  unfold make_edge, mbind, M_bind. simpl. unfold channel_ingress, close_channel. simpl.
  rewrite list_lookup_insert_eq by (by eapply lookup_lt_Some). simpl. rewrite list_insert_insert_eq.
  by rewrite list_lookup_insert_eq by (by eapply lookup_lt_Some).
Qed.

(** ** A second source of an operator *)
(** [Operator::m_ingress] is never assigned. *)
Definition unset (g : graph) : Prop := ∀ o p, ops g !! o = Some p → o_ingress p = None.
Lemma unset_insert g g' o p : unset g → o_ingress p = None → ops g' = <[o := p]> (ops g) → unset g'.
Proof.
  intros Hu Hp He o' p'. rewrite He. destruct (decide (o' = o)) as [->|Hn].
  - intros Hl. destruct (decide (o < length (ops g))).
    + rewrite list_lookup_insert_eq in Hl by done. by simplify_eq.
    + rewrite list_insert_ge in Hl by lia. by apply (Hu o).
  - rewrite list_lookup_insert_ne by done. apply Hu.
Qed.
Lemma reset_sources_ops ids g : ops (reset_sources ids g).2 = ops g ∧ sinks (reset_sources ids g).2 = sinks g.
Proof.
  revert g. induction ids as [|i ids IH]; intros g; simpl; [done|].
  destruct (reset_source i g) as [r1 g1] eqn:E1. specialize (IH g1). destruct (reset_sources ids g1) as [r2 g2]. simpl in *.
  destruct IH as [-> ->]. revert E1. unfold reset_source. destruct (sources g !! i); by intros [= <- <-].
Qed.
Lemma drop_unset r g : unset g → unset (drop r g).2.
Proof.
  intros Hu. unfold drop. destruct (live g r) as [o|]; [|done]. destruct (use_count o =? 1); [|done].
  destruct (held o) as [s| |p]; [unfold close_channel; simpl; by destruct (sinks g !! s)|done|].
  unfold on_complete. simpl. destruct (ops g !! p) as [q|] eqn:Hq; [|done].
  destruct (reset_sources_ops (snd <$> outs q) (with_objects (<[r := None]> (objects g)) g)) as [Ho _]. simpl in Ho.
  destruct (reset_sources _ _) as [rs g1]. simpl in Ho. pose proof (Hu _ _ Hq) as Hi.
  destruct (kind q); simpl; [intros o' p'; rewrite Ho; apply Hu|..]; (eapply (unset_insert g); [exact Hu| |simpl; by rewrite Ho]; exact Hi).
Qed.
Lemma release_unset fuel rs g : unset g → unset (release_fuel fuel rs g).
Proof.
  revert rs g. induction fuel as [|fuel IH]; intros [|r rs] g Hu; simpl; try done.
  pose proof (drop_unset r g Hu) as H. destruct (drop r g) as [rs' g']. by apply IH.
Qed.
Lemma release_channel_unset i g : unset g → unset (release_channel i g).
Proof.
  intros Hu. unfold release_channel, reset_source. destruct (sources g !! i); by apply release_unset.
Qed.
Lemma complete_edge_unset i r g : unset g → unset (complete_edge i r g).2.
Proof.
  intros Hu. unfold complete_edge. destruct (sources g !! i) as [k|]; [destruct (s_ingress k)|]; simpl; try done; by apply release_unset.
Qed.
Lemma ingress_of_ops p g : ops (ingress_of p g).2 = ops g.
Proof.
  destruct p as [s|o]; simpl; unfold channel_ingress, operator_ingress, acquire, new_object; repeat case_match; simplify_eq/=; done.
Qed.
Lemma make_edge_unset i conv p g : unset g → unset (make_edge i conv p g).2.
Proof.
  intros Hu. unfold make_edge, mbind, M_bind. pose proof (ingress_of_ops p g) as Ho. destruct (ingress_of p g) as [[r|?|?|?] g1]; simpl in *;
    try (intros o' p'; rewrite Ho; apply Hu). assert (unset g1) by (intros o' p'; rewrite Ho; apply Hu).
  destruct conv; simpl; by apply complete_edge_unset.
Qed.
Lemma set_outs_unset o l g : unset g → unset (set_outs o l g).
Proof.
  intros Hu o' p'. unfold set_outs. simpl. destruct (decide (o = o')) as [->|Hn].
  - rewrite list_lookup_alter_eq. destruct (ops g !! o') as [q|] eqn:E; [|done]. intros [= <-]. exact (Hu o' q E).
  - rewrite list_lookup_alter_ne by done. apply Hu.
Qed.
Lemma add_out_unset o p key g : unset g → unset (add_out o p key g).2.
Proof. intros Hu. unfold add_out. by apply set_outs_unset. Qed.
Lemma await_write_unset i d g : wf g [] → unset g → unset (await_write i d g).2.
Proof.
  intros Hw Hu. pose proof (follow_source g (write_ref (length (objects g))) (targets (length (objects g)) g)
    (λ r d g' rs, follow_ref _ g r d g' rs) i d g [] Hw ltac:(by split)) as Hf. unfold follows, await_write in *.
  destruct (source_targets _ g i d) as [l|]; [by rewrite Hf|]. destruct Hf as [_ [_ Ho _]]. intros o' p'. rewrite Ho. apply Hu.
Qed.
Lemma exec_unset e g : wf g [] → unset g → unset (exec e g).2.
Proof.
  intros Hw Hu. destruct e as [| |k| |o|o key|o key|s|s|s|i d|]; simpl; try done.
  - unfold new_operator. assert (∀ k l, unset (with_ops (ops g ++ [mkOperator k None l]) g)) as H.
    { intros k' l o p. simpl. intros [Hl|[_ Hl]]%lookup_app_Some; [by apply (Hu o)|]. apply list_lookup_singleton_Some in Hl as [_ <-]. done. }
    destruct k; apply H.
  - by apply make_edge_unset.
  - unfold make_source, mbind, M_bind. destruct (ops g !! o) as [p|]; [|done]. destruct (kind p); [done| |done..]. by apply (add_out_unset o p 0%Z).
  - unfold source, mbind, M_bind. destruct (ops g !! o) as [p|]; [|done]. destruct (has_router (kind p)); [|done].
    destruct (find_out key (outs p)); [done|]. by apply (add_out_unset o p key).
  - unfold drop_edge. destruct (ops g !! o) as [p|]; [|done].
    destruct (if has_router (kind p) then find_out key (outs p) else None); [|done]. apply release_channel_unset. by apply set_outs_unset.
  - unfold enable_persistence. destruct (sinks g !! s) as [k|]; [|done]. destruct (m_persistent_ingress k); [done|]. unfold mbind, M_bind.
    pose proof (ingress_of_ops (OfSink s) g) as Ho. simpl in Ho. destruct (channel_ingress s g) as [[r|?|?|?] g1]; simpl in *;
      try (intros o' p'; rewrite Ho; apply Hu). unfold keep_ingress. destruct (sinks g1 !! s); intros o' p'; simpl; rewrite Ho; apply Hu.
  - unfold disable_persistence. destruct (sinks g !! s); [|done]. by apply release_unset.
  - unfold update_channel. destruct (sinks g !! s); [|done]. by destruct (existsb _ _).
  - unfold mbind, M_bind. pose proof (await_write_unset i d g Hw Hu) as H. by destruct (await_write i d g) as [[] ?].
  - by apply release_channel_unset.
Qed.
Lemma reachable_unset g : reachable g → unset g.
Proof.
  intros [es ->]. assert (unset (graph_empty (D := D))) as Hu by done. revert Hu. generalize (@wf_empty D). generalize (graph_empty (D := D)).
  induction es as [|e es IH]; intros g Hw Hu; simpl; [done|]. apply IH; [by apply exec_wf|by apply exec_unset].
Qed.

(** Source [b] writes to the muxer [o], whose own source [m] is disconnected. *)
Record cut g (b rb o m : nat) (oi : option nat) (z : Z) : Prop := {
  c_b : ∃ w, sources g !! b = Some (mkSource w (Some rb));
  c_outs o' p' : ops g !! o' = Some p' → b ∉ (outs p').*2;
  c_m : sources g !! m = Some (mkSource true None);
  c_o : ops g !! o = Some (mkOperator Muxer oi [(z, m)]);
  c_rb x : live g rb = Some x → held x = IngressAdaptor o;
}.
Lemma reset_source_lookup i g j :
  sources (reset_source i g).2 !! j = if decide (i = j) then (λ k, mkSource (writeable k) None) <$> sources g !! j else sources g !! j.
Proof.
  unfold reset_source. destruct (sources g !! i) as [k|] eqn:E; simpl; destruct (decide (i = j)) as [->|Hn]; try done.
  - rewrite E. apply list_lookup_insert_eq. by eapply lookup_lt_Some.
  - by rewrite list_lookup_insert_ne.
  - by rewrite E.
Qed.
Lemma reset_sources_lookup ids g j :
  sources (reset_sources ids g).2 !! j = if decide (j ∈ ids) then (λ k, mkSource (writeable k) None) <$> sources g !! j else sources g !! j.
Proof.
  revert g. induction ids as [|i ids IH]; intros g; simpl; [done|].
  pose proof (reset_source_lookup i g j) as Hi. destruct (reset_source i g) as [r1 g1]. specialize (IH g1).
  destruct (reset_sources ids g1) as [r2 g2]. simpl in *. rewrite IH, Hi.
  destruct (decide (i = j)) as [->|Hn]; destruct (decide (j ∈ ids)); repeat case_decide; try set_solver; by destruct (sources g !! j).
Qed.
Lemma reset_sources_cut ids g b rb o m oi z : b ∉ ids → cut g b rb o m oi z → cut (reset_sources ids g).2 b rb o m oi z.
Proof.
  intros Hb [H1 H2 H3 H4 H5]. pose proof (reset_sources_ops ids g) as [Ho _]. pose proof (reset_sources_objects ids g) as Hj. split.
  - rewrite reset_sources_lookup. by rewrite decide_False.
  - rewrite Ho. apply H2.
  - rewrite reset_sources_lookup, H3. by destruct (decide _).
  - by rewrite Ho.
  - unfold live. rewrite Hj. apply H5.
Qed.
Lemma on_complete_cut p g b rb o m oi z : cut g b rb o m oi z → cut (on_complete p g).2 b rb o m oi z.
Proof.
  intros Hc. unfold on_complete. destruct (ops g !! p) as [q|] eqn:Hq; [|done].
  pose proof (reset_sources_cut (snd <$> outs q) g b rb o m oi z (c_outs _ _ _ _ _ _ _ Hc _ _ Hq) Hc) as H.
  pose proof (reset_sources_ops (snd <$> outs q) g) as [Ho _]. destruct (reset_sources _ g) as [rs g1]. simpl in *.
  destruct (kind q) eqn:Ek; simpl; [done|..]; destruct H as [H1 H2 H3 H4 H5];
    (split; simpl; [done| |done| |done];
     [intros o' p'; destruct (decide (o' = p)) as [->|Hn];
        [rewrite list_lookup_insert_eq by (rewrite Ho; by eapply lookup_lt_Some); intros [= <-]; simpl; set_solver
        |rewrite list_lookup_insert_ne by done; apply H2]
     |rewrite list_lookup_insert_ne; [done|]; intros ->; rewrite Ho, Hq in H4; by simplify_eq]).
Qed.
Lemma cut_objects g l b rb o m oi z :
  (∀ x, live (with_objects l g) rb = Some x → ∃ y, live g rb = Some y ∧ held x = held y) →
  cut g b rb o m oi z → cut (with_objects l g) b rb o m oi z.
Proof. intros Hl [H1 H2 H3 H4 H5]. split; auto. intros x Hx. destruct (Hl x Hx) as (y & Hy & ->). auto. Qed.
Lemma drop_cut r g b rb o m oi z : cut g b rb o m oi z → cut (drop r g).2 b rb o m oi z.
Proof.
  intros Hc. unfold drop. destruct (live g r) as [x|] eqn:Hr; [|done]. pose proof (live_lt _ _ _ Hr) as Hlt.
  assert (cut (with_objects (<[r := None]> (objects g)) g) b rb o m oi z) as Hd.
  { apply cut_objects; [|done]. intros y. rewrite live_insert by done. destruct (decide (rb = r)); [done|]. eauto. }
  destruct (use_count x =? 1); simpl.
  - destruct (held x) as [s| |p]; [|done|by apply on_complete_cut]. unfold close_channel. simpl.
    destruct (sinks g !! s); simpl; [|done]. destruct Hd as [H1 H2 H3 H4 H5]. by split.
  - apply cut_objects; [|done]. intros y. rewrite live_insert by done. destruct (decide (rb = r)) as [->|]; [intros [= <-]|]; eauto.
Qed.
Lemma release_cut fuel rs g b rb o m oi z : cut g b rb o m oi z → cut (release_fuel fuel rs g) b rb o m oi z.
Proof.
  revert rs g. induction fuel as [|fuel IH]; intros [|r rs] g Hc; simpl; try done.
  pose proof (drop_cut r g b rb o m oi z Hc) as H. destruct (drop r g) as [rs' g']. by apply IH.
Qed.
(** What [b] writes then is lost. *)
Lemma cut_write g b rb o m oi z d : wf g [] → cut g b rb o m oi z → await_write b d g = (Ret Status.success, g).
Proof.
  intros Hw [[w H1] H2 H3 H4 H5].
  assert (is_Some (live g rb)) as [x Hx].
  { pose proof (w_count _ _ Hw rb) as Hc. unfold refs_to in Hc.
    assert (1 ≤ countb (source_holds rb) (sources g)) by (eapply countb_elem; [exact H1|]; unfold source_holds; by apply points_spec).
    unfold uses in Hc. destruct (live g rb); [eauto|simpl in Hc; lia]. }
  pose proof (live_lt _ _ _ Hx). unfold await_write, write_source. rewrite H1. simpl.
  destruct (length (objects g)) as [|n]; [lia|]. simpl. rewrite Hx, (H5 x Hx). unfold on_next. rewrite H4. simpl.
  unfold write_source. by rewrite H3.
Qed.

Lemma connect_operator g o p a w :
  unset g → ops g !! o = Some p → sources g !! a = Some (mkSource w None) →
  make_edge a None (OfOperator o) g =
    (Ret (), with_sources (<[a := mkSource w (Some (length (objects g)))]> (sources g))
               (with_objects (objects g ++ [Some (mkObject 1 (IngressAdaptor o))]) g)).
Proof.
  intros Hu Hp Ha. unfold make_edge, mbind, M_bind. simpl. unfold operator_ingress. rewrite Hp, (Hu _ _ Hp). simpl.
  unfold complete_edge. simpl. by rewrite Ha.
Qed.
(** C17: An operator completes when the first of its sources lets go, not the last,
    because its weak pointer to the shared adaptor is never set and each edge gets
    an adaptor of its own: once one of two sources that feed a muxer has released
    its channel, every write of the other one reports success and is dropped. *)
Theorem muxer_drops_second_source g o oi z m a b wa wb rm :
  reachable g → ops g !! o = Some (mkOperator Muxer oi [(z, m)]) → sources g !! m = Some (mkSource true rm) →
  sources g !! a = Some (mkSource wa None) → sources g !! b = Some (mkSource wb None) → a ≠ b → a ≠ m →
  (∀ o' p', ops g !! o' = Some p' → b ∉ (outs p').*2) →
  ∃ g1 g2, make_edge a None (OfOperator o) g = (Ret (), g1) ∧ make_edge b None (OfOperator o) g1 = (Ret (), g2) ∧
    ∀ d, await_write b d (release_channel a g2) = (Ret Status.success, release_channel a g2).
Proof.
  intros Hg Ho Hm Ha Hb Hab Ham Houts. pose proof (reachable_unset _ Hg) as Hu. pose proof (reachable_wf _ Hg) as Hw.
  assert (b ≠ m) as Hbm by (intros ->; apply (Houts _ _ Ho); simpl; set_solver).
  pose proof (connect_operator g o _ a wa Hu Ho Ha) as E1. set (g1 := with_sources _ _) in E1.
  assert (sources g1 !! b = Some (mkSource wb None)) as Hb1 by (simpl; by rewrite list_lookup_insert_ne).
  pose proof (connect_operator g1 o _ b wb Hu Ho Hb1) as E2. set (g2 := with_sources _ _) in E2.
  exists g1, g2. split; [done|]. split; [done|]. intros d.
  assert (wf g2 []) as Hw2.
  { pose proof (make_edge_wf a None (OfOperator o) g Hw) as H. rewrite E1 in H.
    pose proof (make_edge_wf b None (OfOperator o) g1 H) as H'. by rewrite E2 in H'. }
  set (ra := length (objects g)). set (rb := length (objects g1)).
  apply (cut_write _ b rb o m oi z); [by apply release_channel_wf|].
  assert (sources g2 !! a = Some (mkSource wa (Some ra))) as Ha2.
  { simpl. rewrite list_lookup_insert_ne by done. apply list_lookup_insert_eq. by eapply lookup_lt_Some. }
  unfold release_channel, reset_source. rewrite Ha2. simpl option_list. set (g3 := with_sources (<[a := _]> _) g2).
  assert (live g3 ra = Some (mkObject 1 (IngressAdaptor o))) as Hra.
  { unfold live. simpl. rewrite <-app_assoc. simpl. by rewrite list_lookup_middle. }
  unfold release. assert (1 ≤ total g3) as Ht.
  { unfold total. fold (@count_of D). apply (sum_elem count_of _ _ _ (live_lookup _ _ _ Hra)). }
  destruct (total g3) as [|n]; [lia|]. cbn [release_fuel]. unfold drop. rewrite Hra.
  cbn [use_count held Nat.eqb]. destruct (on_complete o _) as [rs g4] eqn:E4.
  apply release_cut. revert E4. unfold on_complete. cbn [with_objects ops]. change (ops g3) with (ops g). rewrite Ho. cbn [outs kind fmap].
  set (g3' := with_objects _ g3). simpl. pose proof (reset_source_lookup m g3') as Hl. pose proof (reset_sources_ops [m] g3') as [Hp _].
  pose proof (reset_sources_objects [m] g3') as Hj. simpl in Hp, Hj. destruct (reset_source m g3') as [r4 g5]. simpl in *. intros [= <- <-].
  assert (ra < rb) as Hlt by (unfold ra, rb; simpl; rewrite length_app; simpl; lia).
  split.
  - exists wb. rewrite Hl, decide_False by done. simpl. rewrite list_lookup_insert_ne by done. apply list_lookup_insert_eq.
    rewrite length_insert. by eapply lookup_lt_Some.
  - rewrite Hp. apply Houts.
  - rewrite Hl, decide_True by done. simpl. rewrite !list_lookup_insert_ne by done. by rewrite Hm.
  - by rewrite Hp.
  - intros x. unfold live. rewrite Hj. simpl. rewrite list_lookup_insert_ne by lia. unfold rb. simpl.
    rewrite list_lookup_middle by done. by intros [= <-].
Qed.
End edges.

(** ** Concrete graphs over [Z] *)
(** A source that feeds two sinks through a broadcast, one of them by a converting
    edge; then it lets go. *)
Definition fan_out : list (event (D := Z)) :=
  [NewSink; NewSink; NewSource false; NewOperator Broadcast; MakeSource 0; MakeSource 0;
   MakeEdge 1 None (OfSink 0); MakeEdge 2 (Some Z.opp) (OfSink 1); MakeEdge 0 None (OfOperator 0); AwaitWrite 0 5%Z].
Definition two_into_muxer : list (event (D := Z)) :=
  [NewSink; NewOperator Muxer; NewSource false; NewSource false; MakeEdge 0 None (OfSink 0)].

Lemma channel_open_while_held_witness :
  let g := run fan_out graph_empty in
  (is_open (D := Z) <$> (m_channel <$> sinks g)) = [true; true] ∧ (∀ r, uses g r = refs_to g r) ∧
  (is_open (D := Z) <$> (m_channel <$> sinks (release_channel 0 g))) = [false; false].
Proof.
  split; [reflexivity|]. split; [|reflexivity]. intros r. apply (channel_open_while_held (run fan_out graph_empty)). by exists fan_out.
Defined.
Lemma await_write_follows_route_witness :
  let g := run fan_out graph_empty in
  route g 0 7%Z = Some [(1, (-7)%Z); (0, 7%Z)] ∧
  await_write 0 7%Z g = (Ret Status.success, deliver [(1, (-7)%Z); (0, 7%Z)] g) ∧
  (written <$> (m_channel <$> sinks (deliver [(1, (-7)%Z); (0, 7%Z)] g))) = [[5%Z; 7%Z]; [(-5)%Z; (-7)%Z]].
Proof.
  split; [reflexivity|]. split; [|reflexivity].
  apply (await_write_follows_route (run fan_out graph_empty) 0 7%Z). by exists fan_out.
Defined.
Lemma failed_edge_closes_sink_witness :
  let g := run [NewSink; NewSink; NewSource false; MakeEdge 0 None (OfSink 0)] (graph_empty (D := Z)) in
  ∃ g', (make_edge 0 None (OfSink 1) g).2 = g' ∧
    ∀ j conv, (make_edge j conv (OfSink 1) g').1 = Throw "attempting to acquire an Ingress to a closed channel".
Proof.
  destruct (failed_edge_closes_sink (D := Z) (run [NewSink; NewSink; NewSource false; MakeEdge 0 None (OfSink 0)] graph_empty)
    0 (mkSource false (Some 0)) 0 1 (mkSink (mkChannel [] true) None None false)) as (g' & Hg & Hj);
    [eexists; reflexivity|reflexivity..|]. exists g'. split; [by rewrite Hg|exact Hj].
Defined.
Lemma muxer_drops_second_source_witness :
  ∃ g1 g2, make_edge 1 None (OfOperator 0) (run two_into_muxer graph_empty) = (Ret (), g1) ∧
    make_edge 2 None (OfOperator 0) g1 = (Ret (), g2) ∧
    (∀ d, await_write 2 d (release_channel 1 g2) = (Ret Status.success, release_channel 1 g2)).
Proof.
  apply (muxer_drops_second_source (D := Z) (run two_into_muxer graph_empty) 0 None 0%Z 0 1 2 false false (Some 0));
    [by exists two_into_muxer|reflexivity..|discriminate|discriminate|].
  intros [|o'] p'; [|done]. intros [= <-]. simpl. rewrite list_elem_of_singleton. discriminate.
Defined.
