(* ===== verification/EdgeRegistry.v ===== *)
(** * The registry of edge converters

    Models [src/public/node/edge_registry.cpp]: converters by the type of the writer and
    then by the type of the reader.  A type is a number, and so is a converter. *)
From S2P Require Import Prelude.
#[local] Open Scope Z_scope.

Notation registry := (gmap Z (gmap Z Z)).
(** [operator[]] makes the writer's map when it is missing; the duplicate test looks at a
    copy of it. *)
Definition register_converter (writer_type reader_type converter : Z) : M registry () := λ registered_converters,
  let readers_map := default ∅ (registered_converters !! writer_type) in
  let registered_converters := <[writer_type := readers_map]> registered_converters in
  match readers_map !! reader_type with
  | Some _ => (Throw "Duplicate converter already registered", registered_converters)
  | None => (Ret (), <[writer_type := <[reader_type := converter]> readers_map]> registered_converters)
  end.
Definition has_converter (writer_type reader_type : Z) (registered_converters : registry) : bool :=
  match registered_converters !! writer_type with
  | None => false
  | Some readers => bool_decide (is_Some (readers !! reader_type))
  end.
Definition find_converter (writer_type reader_type : Z) (registered_converters : registry) : res Z :=
  match registered_converters !! writer_type with
  | None => Throw "Could not find writer_type"
  | Some readers =>
      match readers !! reader_type with
      | None => Throw "Could not find reader_type"
      | Some converter => Ret converter
      end
  end.

(** ** A map by pairs of types *)
Definition abstracts (g : registry) (m : gmap (Z * Z) Z) : Prop := ∀ w r, m !! (w, r) = g !! w ≫= lookup r.
Lemma register_abstracts w r c g m : abstracts g m →
  let '(x, g') := register_converter w r c g in
  match m !! (w, r) with
  | Some _ => x = Throw "Duplicate converter already registered" ∧ abstracts g' m
  | None => x = Ret () ∧ abstracts g' (<[(w, r) := c]> m)
  end.
Proof.
  intros Ha. unfold register_converter. assert (default ∅ (g !! w) !! r = m !! (w, r)) as E.
  { rewrite Ha. destruct (g !! w); simpl; [done|by rewrite lookup_empty]. }
  rewrite E. destruct (m !! (w, r)) as [y|]; (split; [done|]); intros w' r'.
  - destruct (decide (w' = w)) as [->|Hne]; [|by rewrite lookup_insert_ne]. rewrite lookup_insert_eq. simpl. rewrite Ha. by destruct (g !! w).
  - rewrite insert_insert_eq. destruct (decide (w' = w)) as [->|Hne]; [|rewrite !lookup_insert_ne by congruence; apply Ha].
    rewrite lookup_insert_eq. simpl. destruct (decide (r' = r)) as [->|Hr]; [by rewrite !lookup_insert_eq|].
    rewrite !lookup_insert_ne by congruence. rewrite Ha. by destruct (g !! w).
Qed.
Fixpoint register_all (l : list (Z * Z * Z)) (g : registry) : list (res ()) * registry :=
  match l with
  | [] => ([], g)
  | (w, r, c) :: l => let '(x, g) := register_converter w r c g in let '(xs, g) := register_all l g in (x :: xs, g)
  end.
(** The first registration of a pair of types wins. *)
Fixpoint first_of (l : list (Z * Z * Z)) (w r : Z) : option Z :=
  match l with
  | [] => None
  | (w', r', c) :: l => if bool_decide (w' = w ∧ r' = r) then Some c else first_of l w r
  end.
(** After any registrations, failed ones included, the converter of a pair of types is the
    one that was registered first for it, and [has_converter] says whether there is one. *)
Theorem registry_first_wins l w r :
  let g := (register_all l ∅).2 in
  has_converter w r g = bool_decide (is_Some (first_of l w r)) ∧
  match first_of l w r with Some c => find_converter w r g = Ret c | None => ∃ e, find_converter w r g = Throw e end.
Proof.
  assert (∀ l g m, abstracts g m → ∃ m', abstracts (register_all l g).2 m' ∧ ∀ w r, m' !! (w, r) = match m !! (w, r) with Some c => Some c | None => first_of l w r end) as Hall.
  { clear. induction l as [|[[w r] c] l IH]; intros g m Ha; simpl; [exists m; split; [done|]; intros w r; by destruct (m !! (w, r))|].
    pose proof (register_abstracts w r c g m Ha) as H. destruct (register_converter w r c g) as [x g']. destruct (m !! (w, r)) as [y|] eqn:E; destruct H as [_ Ha'].
    - destruct (IH g' m Ha') as (m' & Hm & Hf). exists m'. destruct (register_all l g') as [xs g2]. split; [done|]. intros w' r'. rewrite Hf. destruct (m !! (w', r')) eqn:E'; [done|].
      rewrite bool_decide_false; [done|]. intros [-> ->]. congruence.
    - destruct (IH g' _ Ha') as (m' & Hm & Hf). exists m'. destruct (register_all l g') as [xs g2]. split; [done|]. intros w' r'. rewrite Hf.
      destruct (decide (w = w' ∧ r = r')) as [[<- <-]|Hne]; [by rewrite lookup_insert_eq, E, bool_decide_true|].
      rewrite lookup_insert_ne by naive_solver. by rewrite bool_decide_false. }
  destruct (Hall l ∅ ∅) as (m & Hm & Hf); [intros ? ?; by rewrite !lookup_empty|]. specialize (Hf w r). rewrite lookup_empty in Hf. rewrite Hm in Hf. cbv zeta.
  unfold has_converter, find_converter. rewrite <-Hf. destruct ((register_all l ∅).2 !! w) as [readers|]; simpl; [|by eauto]. split; [done|]. destruct (readers !! r); by eauto.
Qed.
