(* ===== verification/EdgeTypes.v ===== *)
(** * Edges between different types

    Models the compile-time tests of [EdgeBuilder::make_edge]
    ([include/srf/node/edge_builder.hpp]) for the arithmetic types: whether an edge passes
    the sink's ingress on, converts every value silently, or converts with a warning that
    the conversion narrows.

    The types are those of a 64-bit platform with IEEE floating point.  To speak of the
    values of integers and floats at once, a value is an integer number of the smallest
    unit of all of them, [2 ^ -1074]. *)
From S2P Require Import Prelude.
Local Open Scope Z_scope.

(** ** The types and their traits *)
Inductive ctype := Bool | Int (signed : bool) (bytes : Z) | Float | Double.
#[export] Instance ctype_eq_dec : EqDecision ctype.
Proof. solve_decision. Defined.
Definition ctypes : list ctype :=
  [Bool; Int true 1; Int true 2; Int true 4; Int true 8; Int false 1; Int false 2; Int false 4; Int false 8; Float; Double].
Definition sizeof (t : ctype) : Z := match t with Bool => 1 | Int _ n => n | Float => 4 | Double => 8 end.
Definition is_floating_point (t : ctype) : bool := match t with Float | Double => true | _ => false end.
Definition is_integral (t : ctype) : bool := negb (is_floating_point t).
Definition is_signed (t : ctype) : bool := match t with Bool => false | Int s _ => s | Float | Double => true end.
(** All arithmetic types convert to each other. *)
Definition is_convertible (s t : ctype) : bool := true.

(** ** make_edge *)
Definition LessBits (s t : ctype) : bool := sizeof t <? sizeof s.
Definition FloatToInt (s t : ctype) : bool := is_floating_point s && is_integral t.
Definition SignedToUnsigned (s t : ctype) : bool := is_signed s && negb (is_signed t).
Definition UnsignedToSignedLessBits (s t : ctype) : bool := negb (is_signed s) && is_signed t && (sizeof s =? sizeof t).
Definition RequiresNarrowing (s t : ctype) : bool :=
  is_convertible s t && (LessBits s t || FloatToInt s t || SignedToUnsigned s t || UnsignedToSignedLessBits s t).
Inductive edge := SameType | Converting | ConvertingWithWarning.
#[export] Instance edge_eq_dec : EqDecision edge.
Proof. solve_decision. Defined.
(** [None]: the program aborts, for want of a conversion. *)
Definition make_edge (AllowNarrowing : bool) (s t : ctype) : option edge :=
  if decide (s = t) then Some SameType
  else if is_convertible s t && negb (RequiresNarrowing s t) then Some Converting
  else if RequiresNarrowing s t && AllowNarrowing then Some ConvertingWithWarning
  else None.

(** ** The values of a type *)
Definition unit_exp : Z := 1074.
Definition int_range (s : bool) (bytes : Z) : Z * Z :=
  if s then (- 2 ^ (8 * bytes - 1), 2 ^ (8 * bytes - 1) - 1) else (0, 2 ^ (8 * bytes) - 1).
(** Digits of the significand, and the least and greatest exponent of its last digit. *)
Definition int_value (lo hi v : Z) : Prop := ∃ z, lo ≤ z ≤ hi ∧ v = z * 2 ^ unit_exp.
Definition float_value (p emin emax v : Z) : Prop := ∃ m e, Z.abs m < 2 ^ p ∧ emin ≤ e ≤ emax ∧ v = m * 2 ^ (e + unit_exp).
(** The finite values. *)
Definition value (t : ctype) : Z → Prop :=
  match t with
  | Bool => int_value 0 1
  | Int s n => let '(lo, hi) := int_range s n in int_value lo hi
  | Float => float_value 24 (-149) 104
  | Double => float_value 53 (-1074) 971
  end.
(** Every value of the source is a value of the sink: the conversion changes nothing. *)
Definition lossless (s t : ctype) : Prop := ∀ v, value s v → value t v.

(** *** Deciding it *)
Definition range (t : ctype) : option (Z * Z) := match t with Bool => Some (0, 1) | Int s n => Some (int_range s n) | _ => None end.
Definition digits (t : ctype) : Z := match t with Float => 24 | Double => 53 | _ => 0 end.
Definition losslessb (s t : ctype) : bool :=
  match range s, range t with
  | Some (lo, hi), Some (lo', hi') => (lo' <=? lo) && (hi <=? hi')
  | Some (lo, hi), None => (- 2 ^ digits t <=? lo) && (hi <=? 2 ^ digits t)
  | None, Some _ => false
  | None, None => digits s <=? digits t
  end.
Lemma int_int lo hi lo' hi' : lo ≤ hi → (∀ v, int_value lo hi v → int_value lo' hi' v) ↔ lo' ≤ lo ∧ hi ≤ hi'.
Proof.
  intros Hle. assert (0 < 2 ^ unit_exp) as Hu by (by apply Z.pow_pos_nonneg). split.
  - intros Hall. destruct (Hall (lo * 2 ^ unit_exp)) as (z & Hz & Ez); [exists lo; lia|]. destruct (Hall (hi * 2 ^ unit_exp)) as (z' & Hz' & Ez'); [exists hi; lia|].
    apply Z.mul_cancel_r in Ez, Ez'; lia.
  - intros [? ?] v (z & Hz & ->). exists z. lia.
Qed.
Lemma odd_not_float p emin emax z : Z.odd z = true → 2 ^ p < z → 0 ≤ p → - unit_exp ≤ emin → ¬ float_value p emin emax (z * 2 ^ unit_exp).
Proof.
  intros Ho Hz Hp He (m & e & Hm & Hee & E). unfold unit_exp in *. destruct (Z_le_gt_dec e 0) as [Hle|Hgt].
  - assert (z * 2 ^ (- e) = m) as Em.
    { apply (Z.mul_cancel_r _ _ (2 ^ (e + 1074))); [apply Z.pow_nonzero; lia|]. rewrite <-E, <-Z.mul_assoc, <-Z.pow_add_r by lia. do 2 f_equal. lia. }
    pose proof (Z.pow_pos_nonneg 2 (- e) ltac:(lia) ltac:(lia)). nia.
  - assert (z = m * 2 ^ e) as Em.
    { apply (Z.mul_cancel_r _ _ (2 ^ 1074)); [apply Z.pow_nonzero; lia|]. by rewrite E, <-Z.mul_assoc, <-Z.pow_add_r by lia. }
    replace e with (Z.succ (e - 1)) in Em by lia. rewrite Z.pow_succ_r in Em by lia. rewrite Em in Ho. rewrite Z.mul_assoc, (Z.mul_comm m 2), <-Z.mul_assoc, Z.odd_mul in Ho. done.
Qed.
Lemma float_value_opp p emin emax v : float_value p emin emax v → float_value p emin emax (- v).
Proof. intros (m & e & Hm & He & ->). exists (- m), e. split; [lia|]. split; [lia|]. lia. Qed.
Lemma int_float lo hi p emin emax : lo ≤ 0 ≤ hi → 1 ≤ p → - unit_exp ≤ emin ≤ 0 → 1 ≤ emax →
  (∀ v, int_value lo hi v → float_value p emin emax v) ↔ - 2 ^ p ≤ lo ∧ hi ≤ 2 ^ p.
Proof.
  intros Hr Hp He Hx. assert (0 < 2 ^ p) as Hpp by (apply Z.pow_pos_nonneg; lia).
  assert (Z.odd (2 ^ p + 1) = true) as Hodd.
  { replace p with (Z.succ (p - 1)) by lia. rewrite Z.pow_succ_r by lia. rewrite Z.add_1_r, Z.odd_succ, Z.even_mul. done. }
  split.
  - intros Hall. split.
    + destruct (Z_le_gt_dec (- 2 ^ p) lo); [done|exfalso]. apply (odd_not_float p emin emax (2 ^ p + 1)); [done|lia|lia|lia|].
      rewrite <-(Z.opp_involutive ((2 ^ p + 1) * _)). apply float_value_opp, Hall. exists (- (2 ^ p + 1)). lia.
    + destruct (Z_le_gt_dec hi (2 ^ p)); [done|exfalso]. apply (odd_not_float p emin emax (2 ^ p + 1)); [done|lia|lia|lia|].
      apply Hall. exists (2 ^ p + 1). lia.
  - intros [Hlo Hhi] v (z & Hz & ->). destruct (Z_lt_le_dec (Z.abs z) (2 ^ p)) as [Hlt|Hge]; [exists z, 0; unfold unit_exp; split; [lia|split; [lia|done]]|].
    exists (Z.sgn z * 2 ^ (p - 1)), 1. assert (2 ^ p = 2 * 2 ^ (p - 1)) as E by (rewrite <-Z.pow_succ_r by lia; f_equal; lia).
    pose proof (Z.pow_pos_nonneg 2 (p - 1) ltac:(lia) ltac:(lia)). split; [|split; [lia|]].
    + destruct (Z.sgn_spec z) as [[? ->]|[[? ->]|[? ->]]]; lia.
    + rewrite Z.add_comm, Z.pow_add_r by (unfold unit_exp; lia). assert (z = Z.sgn z * 2 ^ p) as -> by (destruct (Z.sgn_spec z) as [[? ->]|[[? ->]|[? ->]]]; lia).
      assert (Z.sgn (Z.sgn z * 2 ^ p) = Z.sgn z) as -> by (rewrite Z.sgn_mul, Z.sgn_sgn, (proj2 (Z.sgn_pos_iff (2 ^ p))) by lia; lia). rewrite E. lia.
Qed.
(** One half is not an integer. *)
Lemma float_int p emin emax lo hi : 1 ≤ p → - unit_exp ≤ emin ≤ -1 → -1 ≤ emax → ¬ (∀ v, float_value p emin emax v → int_value lo hi v).
Proof.
  intros Hp He Hx Hall. destruct (Hall (2 ^ 1073)) as (z & _ & E).
  - exists 1, (-1). split; [pose proof (Z.pow_gt_1 2 p); lia|]. split; [lia|]. done.
  - unfold unit_exp in E. change 1074 with (Z.succ 1073) in E. rewrite Z.pow_succ_r in E by lia. pose proof (Z.pow_pos_nonneg 2 1073 ltac:(lia) ltac:(lia)). nia.
Qed.
(** The least double is not a float. *)
Lemma double_float : ¬ lossless Double Float.
Proof.
  intros Hall. destruct (Hall 1) as (m & e & _ & He & E); [exists 1, (-1074); split; [done|]; split; [lia|done]|].
  unfold unit_exp in E. replace (e + 1074) with (Z.succ (e + 1073)) in E by lia. rewrite Z.pow_succ_r in E by lia.
  assert (Z.odd 1 = false) as Ho; [|done]. rewrite E, Z.mul_assoc, (Z.mul_comm m 2), <-Z.mul_assoc, Z.odd_mul. done.
Qed.
Lemma lossless_refl t : lossless t t.
Proof. by intros v. Qed.
Definition known (t : ctype) : Prop := t ∈ ctypes.
#[export] Instance known_dec t : Decision (known t).
Proof. unfold known. apply _. Defined.
Lemma known_range t lo hi : known t → range t = Some (lo, hi) → lo ≤ 0 ≤ hi.
Proof. intros Ht Hr. unfold known, ctypes in Ht. repeat (apply elem_of_cons in Ht as [->|Ht]; [cbn in Hr; simplify_eq; lia|]). by apply elem_of_nil in Ht. Qed.
Lemma value_range t lo hi : range t = Some (lo, hi) → value t = int_value lo hi.
Proof. destruct t; cbn; intros Hr; simplify_eq; [done|]. by destruct (int_range signed bytes); simplify_eq. Qed.
Lemma losslessb_spec s t : known s → known t → losslessb s t = true ↔ lossless s t.
Proof.
  intros Hs Ht. unfold losslessb, lossless. destruct (range s) as [[lo hi]|] eqn:Es, (range t) as [[lo' hi']|] eqn:Et.
  - rewrite (value_range _ _ _ Es), (value_range _ _ _ Et), (int_int lo hi lo' hi') by (pose proof (known_range _ _ _ Hs Es); lia).
    rewrite andb_true_iff, !Z.leb_le. done.
  - rewrite (value_range _ _ _ Es). pose proof (known_range _ _ _ Hs Es) as Hr.
    destruct t; try done; cbn [value digits]; (rewrite int_float; [|done|unfold unit_exp; lia..]); rewrite andb_true_iff, !Z.leb_le; done.
  - rewrite (value_range _ _ _ Et). split; [done|]. intros Hall. exfalso. destruct s; try done; cbn [value] in Hall;
      revert Hall; apply float_int; unfold unit_exp; lia.
  - destruct s, t; try discriminate Es; try discriminate Et; (split; [intros Hd; vm_compute in Hd|intros Hall; try reflexivity]).
    + by intros v.
    + intros v (m & e & Hm & He & ->). exists m, e. split; [|split; [lia|done]]. assert (2 ^ 24 < 2 ^ 53) by done. lia.
    + discriminate Hd.
    + exfalso. by apply double_float.
    + by intros v.
Qed.

(** ** What the warning says *)
(** The pairs that the tests get wrong: two conversions that lose values without a
    warning, and one warning for a conversion that loses none. *)
Definition silent_losses : list (ctype * ctype) := [(Int false 1, Bool); (Int true 4, Float); (Int true 8, Double)].
Definition false_alarms : list (ctype * ctype) := [(Bool, Int true 1)].

(** The 121 pairs, by computation. *)
Definition verdict (s t : ctype) : bool := bool_decide (
  is_Some (make_edge true s t) ∧ (make_edge true s t = Some SameType ↔ s = t) ∧
  (make_edge true s t = Some ConvertingWithWarning ↔ (¬ losslessb s t = true ∧ (s, t) ∉ silent_losses) ∨ (s, t) ∈ false_alarms) ∧
  (make_edge false s t = None ↔ make_edge true s t = Some ConvertingWithWarning)).
Lemma warning_table s t : known s → known t → verdict s t = true.
Proof.
  intros Hs Ht. assert (forallb (λ s, forallb (verdict s) ctypes) ctypes = true) as Hall by (vm_compute; reflexivity).
  rewrite forallb_forall in Hall. specialize (Hall s (proj1 (list_elem_of_In _ _) Hs)). rewrite forallb_forall in Hall.
  exact (Hall t (proj1 (list_elem_of_In _ _) Ht)).
Qed.

(** C18: an edge between two arithmetic types warns of narrowing exactly when the
    conversion can change a value, with four exceptions: from an 8-bit unsigned integer to
    bool, from a 32-bit integer to float and from a 64-bit integer to double values are
    lost without a warning, and from bool to a signed 8-bit integer there is a warning
    although nothing is lost.  An edge between equal types converts nothing, and where
    narrowing is allowed an edge is always made. *)
Theorem edge_warning_exact s t : known s → known t →
  is_Some (make_edge true s t) ∧ (make_edge true s t = Some SameType ↔ s = t) ∧
  (make_edge true s t = Some ConvertingWithWarning ↔ (¬ lossless s t ∧ (s, t) ∉ silent_losses) ∨ (s, t) ∈ false_alarms) ∧
  (make_edge false s t = None ↔ make_edge true s t = Some ConvertingWithWarning).
Proof.
  intros Hs Ht. rewrite <-(losslessb_spec s t Hs Ht). apply (bool_decide_eq_true_1 _ (warning_table s t Hs Ht)).
Qed.
Lemma edge_warning_exact_witness : make_edge true Double Float = Some ConvertingWithWarning ∧ ¬ lossless Double Float.
Proof.
  assert (known Double) as HD by (unfold known, ctypes; set_solver). assert (known Float) as HF by (unfold known, ctypes; set_solver).
  assert (make_edge true Double Float = Some ConvertingWithWarning) as Hw by reflexivity. split; [exact Hw|].
  destruct (proj1 (proj1 (proj2 (proj2 (edge_warning_exact Double Float
    HD HF)))) Hw) as [[Hl _]|Hin]; [exact Hl|].
  exfalso. unfold false_alarms in Hin. set_solver.
Defined.
