(* ===== verification/SegmentObjects.v ===== *)
(** * The objects of a segment and their edges

    Models the user's side of a segment under construction:
    [include/srf/segment/object.hpp] (what an object of a segment gives access to, and
    how it refuses), [runnable.hpp], the ports of [ingress_port.hpp] and
    [egress_port.hpp] as objects, and the templates of [builder.hpp], over the backend
    tables of [src/internal/segment/builder.cpp].  Nodes have their channels in the
    graph of [Edges], and edges between them are made there; a user may also give the
    builder the sources and sinks of nodes and operators (broadcasts, routers, muxers) of
    his own.

    The types of the data are a parameter, with the edge that
    [EdgeBuilder::make_edge] makes between two of them ([None]: none, and the program
    aborts) and their conversions; [EdgeTypes] gives both for the arithmetic types. *)
From Stdlib Require Import Strings.String.
From S2P Require Import Prelude StdMap Channels Edges EdgesInv EdgesSpec EdgeTypes.
Local Open Scope string_scope.

(** ** Objects *)
(** The class of a node: the types of its data, if it is a sink or a source, and the
    other bases that matter here. *)
Record NodeT (ty : Type) := mkNodeT {
  sink_type_t : option ty; source_type_t : option ty;
  is_sink_type_erased : bool; is_source_type_erased : bool;
  is_base_of_Runnable : bool;
}.
Arguments mkNodeT {ty}.
Arguments sink_type_t {ty}.
Arguments source_type_t {ty}.
Arguments is_sink_type_erased {ty}.
Arguments is_source_type_erased {ty}.
Arguments is_base_of_Runnable {ty}.

(** The types of what is in the graph: of the nodes, whose sink channels have the same
    index; of the source channels; of what operators take and pass on. *)
Record types (ty : Type) := mkTypes { node_types : list (NodeT ty); source_types : list (option ty); operator_types : list (ty * ty) }.
Arguments mkTypes {ty}.
Arguments node_types {ty}.
Arguments source_types {ty}.
Arguments operator_types {ty}.

Section objects.
Context {D ty : Type} `{!EqDecision ty}.
Context (edge_kind : ty → ty → option edge) (conv : ty → ty → D → D).
Notation graph := (@graph D).
Notation NodeT := (NodeT ty).

(** A node, with its channels in the graph. *)
Record node := mkNode { node_t : NodeT; sink_channel : nat; source_channel : nat }.
Inductive holder := RunnableObject | IngressPort | EgressPort.
#[export] Instance holder_eq_dec : EqDecision holder.
Proof. solve_decision. Defined.
Record Object := mkObj {
  o_holder : holder;
  m_name : string;
  o_class : NodeT;                 (* [ObjectT] *)
  m_node : option node;            (* null once it is moved to the launcher *)
}.

(** The tables of the backend, the graph, the throughput counters made and the taps. *)
Record builder := mkB {
  b_name : string;
  store : list Object;
  m_objects : smap nat; m_nodes : smap nat; m_ingress_ports : smap nat; m_egress_ports : smap nat;
  the_graph : graph;
  counters : list string;
  taps : list (nat * string);
  made : types ty;
}.
Definition with_graph (g : graph) (b : builder) : builder :=
  mkB (b_name b) (store b) (m_objects b) (m_nodes b) (m_ingress_ports b) (m_egress_ports b) g (counters b) (taps b) (made b).
Definition source_type (b : builder) (i : nat) : option ty := source_types (made b) !! i ≫= id.
Definition sink_type (b : builder) (s : nat) : option ty := node_types (made b) !! s ≫= sink_type_t.
Definition operator_type (b : builder) (o : nat) : option (ty * ty) := operator_types (made b) !! o.
(** What an edge may lead to, by its type. *)
Definition accepts (b : builder) (p : sink_properties) : option ty :=
  match p with OfSink s => sink_type b s | OfOperator o => fst <$> operator_type b o end.

(** ** object.hpp *)
(** [Runnable::get_object] may be null; the ports' check. *)
Definition get_object (o : Object) : res (option node) :=
  match o_holder o with
  | RunnableObject => Ret (m_node o)
  | IngressPort | EgressPort => check (bool_decide (is_Some (m_node o))) "m_sink" ;; Ret (m_node o)
  end.
Definition object (o : Object) : res node :=
  n ← get_object o;
  match n with Some n => Ret n | None => Throw "Object API is unavailable - expected if the Pipeline is running." end.
Definition is_sink (o : Object) : bool := bool_decide (is_Some (sink_type_t (o_class o))).
Definition is_source (o : Object) : bool := bool_decide (is_Some (source_type_t (o_class o))).
Definition is_runnable (o : Object) : bool := is_base_of_Runnable (o_class o).
Definition launch_options (o : Object) : res () := throw_if (negb (is_runnable o)) "not a runnable".
Definition sink_base (o : Object) : res node :=
  throw_if (negb (is_sink o)) "Object is not a Sink" ;;
  n ← get_object o;
  match n with Some n => Ret n | None => Abort "base" end.
Definition source_base (o : Object) : res node :=
  throw_if (negb (is_source o)) "Object is not a Source" ;;
  n ← get_object o;
  match n with Some n => Ret n | None => Abort "base" end.
Definition sink_typeless (o : Object) : res node :=
  n ← sink_base o; throw_if (negb (is_sink_type_erased (node_t n))) "Failed to cast Sink to requested SinkTypeless" ;; Ret n.
Definition source_typeless (o : Object) : res node :=
  n ← source_base o; throw_if (negb (is_source_type_erased (node_t n))) "Failed to cast Source to requested SourceTypeless" ;; Ret n.
(** The channel of a sink of [T]s, or of a source. *)
Definition sink_typed (T : ty) (o : Object) : res nat :=
  n ← sink_base o;
  throw_if (negb (bool_decide (sink_type_t (node_t n) = Some T))) "Failed to cast Sink to requested SinkProperties<T>" ;; Ret (sink_channel n).
Definition source_typed (T : ty) (o : Object) : res nat :=
  n ← source_base o;
  throw_if (negb (bool_decide (source_type_t (node_t n) = Some T))) "Failed to cast Source to requested SourceProperties<T>" ;; Ret (source_channel n).

Definition make_throughput_counter (name : string) : M builder string := λ b,
  (Ret name, mkB (b_name b) (store b) (m_objects b) (m_nodes b) (m_ingress_ports b) (m_egress_ports b) (the_graph b) (counters b ++ [name])%list (taps b) (made b)).

Definition get_egress (T : ty) (name : string) (b : builder) : res nat :=
  match smap_find name (m_egress_ports b) with
  | None => Throw ("egress port name not found: " ++ name)
  | Some i => match store b !! i with
              | Some o => throw_if (negb (bool_decide (sink_type_t (o_class o) = Some T))) ("egress port type mismatch: " ++ name) ;; Ret i
              | None => Undefined "no such object"
              end
  end.
Definition get_ingress (T : ty) (name : string) (b : builder) : res nat :=
  match smap_find name (m_ingress_ports b) with
  | None => Throw ("ingress port name not found: " ++ name)
  | Some i => match store b !! i with
              | Some o => throw_if (negb (bool_decide (source_type_t (o_class o) = Some T))) ("ingress port type mismatch: " ++ name) ;; Ret i
              | None => Undefined "no such object"
              end
  end.
Definition on_graph {A} (m : M graph A) : M builder A := λ b, let '(r, g) := m (the_graph b) in (r, with_graph g b).
Definition deref (i : nat) : M builder Object := λ b,
  match store b !! i with Some o => (Ret o, b) | None => (Undefined "no such object", b) end.
(** [node::make_edge] between a source of [S]s and a sink of [T]s. *)
Definition typed_edge (S T : ty) (i : nat) (p : sink_properties) : M builder () :=
  match edge_kind S T with
  | Some SameType => on_graph (Edges.make_edge i None p)
  | Some _ => on_graph (Edges.make_edge i (Some (conv S T)) p)
  | None => lift (Abort "No dynamic lookup available for statically typed objects")
  end.
(** The overloads of [make_edge] take an object of the segment, or a [SourceProperties]
    ([SinkProperties]) of the user, as the source of an operator or the operator itself. *)
Inductive source_arg := SourceObject (i : nat) | SourceNode (i : nat).
Inductive sink_arg := SinkObject (j : nat) | SinkNode (p : sink_properties).
Definition source_end (x : source_arg) : M builder (option ty * nat) :=
  match x with
  | SourceObject i => o ← deref i; n ← lift (object o); mret (source_type_t (o_class o), source_channel n)
  | SourceNode i => λ b, (Ret (source_type b i, i), b)
  end.
Definition sink_end (x : sink_arg) : M builder (option ty * sink_properties) :=
  match x with
  | SinkObject j => o ← deref j; n ← lift (object o); mret (sink_type_t (o_class o), OfSink (sink_channel n))
  | SinkNode p => λ b, (Ret (accepts b p, p), b)
  end.
(** The classes say the types; what is no source, or no sink, does not compile. *)
Definition make_edge (source : source_arg) (sink : sink_arg) : M builder () :=
  '(S', i) ← source_end source; '(T, p) ← sink_end sink;
  match S', T with
  | Some S', Some T => typed_edge S' T i p
  | _, _ => mret ()
  end.
(** [add_epilogue_tap] *)
Definition add_tap (i : nat) (c : string) : M builder () :=
  λ b, (Ret (), mkB (b_name b) (store b) (m_objects b) (m_nodes b) (m_ingress_ports b) (m_egress_ports b) (the_graph b) (counters b) (taps b ++ [(i, c)])%list (made b)).
Definition add_throughput_counter (i : nat) : M builder () :=
  o ← deref i;
  lift (check (bool_decide (o_holder o = RunnableObject)) "runnable") ;;
  lift (check (is_source o) "segment_object->is_source()") ;;
  c ← make_throughput_counter (m_name o);
  _ ← lift (object o);
  add_tap i c.





Local Open Scope nat_scope.

End objects.

(** Once a node is with its runner, the typed access throws, but the access by
    [source_typed] and [sink_typed], on which dynamic edges rely, ends the program; and a
    throughput counter stays registered although its tap was refused. *)
Lemma launched_access {D ty} `{!EqDecision ty} (b : builder (D := D) (ty := ty)) i o S T : store b !! i = Some o → o_holder o = RunnableObject → m_node o = None →
  (∃ e, object o = Throw e) ∧ (is_sink o = true → sink_typed T o = Abort "base") ∧
  (is_source o = true → source_typed S o = Abort "base" ∧
     ∃ e, (add_throughput_counter i b).1 = Throw e ∧ counters (add_throughput_counter i b).2 = (counters b ++ [m_name o])%list ∧ taps (add_throughput_counter i b).2 = taps b).
Proof.
  intros Hi Hh Hn. unfold add_throughput_counter, sink_typed, source_typed, sink_base, source_base, object, get_object, deref, lift, mbind, M_bind, throw_if, check.
  rewrite Hh, Hn, Hi. cbn. split; [eauto|]. split; [by intros ->|]. intros Hs. rewrite ?Hs, ?Hh. cbn. rewrite ?Hs. cbn. rewrite ?Hh, ?Hn. cbn. eauto.
Qed.


