(* ===== verification/Dataflow.v ===== *)
(** * Nodes that run: the data flow of a segment

    Models how the runnable nodes of [include/srf/node] move data: [RxSinkBase]
    (the loop that reads the channel, [rx_sink_base.hpp]), [RxSourceBase] (the
    observer that writes downstream, [rx_source_base.hpp]), [RxSource], [RxNode]
    and [RxSink], and the life cycle [RxRunnable] gives them ([rx_runnable.hpp]):
    every context subscribes, and when all have come to the barrier of the
    shutdown, the context of rank 0 releases the downstream channel.

    The nodes run side by side and an event is a step of one context; a write to a
    full channel and a read from an empty open one wait.  Where a value that a node
    emits goes ([route]) and which channels it keeps open ([holds]) are what its
    edges and operators come to ([EdgesSpec.await_write_follows_route],
    [EdgesSpec.channel_open_while_held]).  This covers direct edges and operators with
    one upstream; an operator with several upstreams lets go of its downstream at the
    first release ([EdgesSpec.muxer_drops_second_source]) and is outside of this
    model, where a channel closes when its last holder releases it.  A stream is a function from an element
    to the elements it emits for it.  Nodes are numbered so that edges go up. *)
From S2P Require Import Prelude.

Section dataflow.
Context {D : Type}.

Record spec := mkSpec {
  is_source : bool;                     (* RxSource, else RxNode or RxSink *)
  items : list D;                       (* what the observable of a source emits *)
  stream : D → list D;                  (* m_stream of a node, [] for a sink *)
  pe_count : nat;                       (* number of contexts *)
  route : D → list (nat * D);
  holds : list nat;
}.
(** Where a context is: before [s.is_subscribed()], in [await_read], at the barrier
    of [RxRunnable::shutdown]. *)
Inductive phase := Checking | Reading | Waiting.
#[global] Instance phase_eq_dec : EqDecision phase.
Proof. solve_decision. Defined.
Record ctx := mkCtx {
  todo : list D;                        (* to be emitted by the stream *)
  writes : list (nat * D);              (* channel writes of the element being emitted *)
  ph : phase;
}.
Record node := mkNode {
  queue : list D;                       (* the channel of the sink side *)
  upstreams : nat;                      (* edges that keep it open *)
  subscribed : bool;
  ctxs : list ctx;
  finished : bool;                      (* past the shutdown *)
  consumed : list D;                    (* read from the channel so far *)
  emitted : list D;
}.
Definition set_ctx (c : nat) (x : ctx) (nd : node) : node :=
  mkNode (queue nd) (upstreams nd) (subscribed nd) (<[c := x]> (ctxs nd)) (finished nd) (consumed nd) (emitted nd).
Definition set_queue (q : list D) (nd : node) : node :=
  mkNode q (upstreams nd) (subscribed nd) (ctxs nd) (finished nd) (consumed nd) (emitted nd).
Definition unsubscribe (nd : node) : node :=
  mkNode (queue nd) (upstreams nd) false (ctxs nd) (finished nd) (consumed nd) (emitted nd).

(** [RxSourceBase]'s observer: the element goes to the downstream channels, unless
    the subscription has ended. *)
Definition on_next (sp : spec) (d : D) (ds : list D) (p : phase) (nd : node) : node * ctx :=
  if subscribed nd
  then (mkNode (queue nd) (upstreams nd) true (ctxs nd) (finished nd) (consumed nd) (emitted nd ++ [d]), mkCtx ds (route sp d) p)
  else (nd, mkCtx [] [] p).
(** [RxSinkBase::progress_engine], between two elements.  [None]: [await_read]
    waits. *)
Definition progress_engine (sp : spec) (p : phase) (nd : node) : option (node * ctx) :=
  match p with
  | Checking => Some (nd, mkCtx [] [] (if negb (is_source sp) && subscribed nd then Reading else Waiting))
  | Reading =>
      match queue nd with
      | x :: xs =>
          Some (mkNode xs (upstreams nd) (subscribed nd) (ctxs nd) (finished nd) (consumed nd ++ [x]) (emitted nd),
                mkCtx (if subscribed nd then stream sp x else []) [] Checking)
      | [] => if upstreams nd =? 0 then Some (nd, mkCtx [] [] Waiting) else None
      end
  | Waiting => None
  end.
Definition run_context (sp : spec) (nd : node) (x : ctx) : option (node * ctx) :=
  match todo x with
  | d :: ds => Some (on_next sp d ds (ph x) nd)
  | [] => progress_engine sp (ph x) nd
  end.

Notation network := (list node).
Context (specs : list spec) (capacity : nat).

Definition RxSource_new (sp : spec) (ups : nat) : node :=
  mkNode [] ups true (replicate (pe_count sp) (mkCtx (if is_source sp then items sp else []) [] Checking)) false [] [].
(** How many edges node [sp] has to node [t]. *)
Definition edges_to (t : nat) (sp : spec) : nat := countb (Nat.eqb t) (holds sp).
Definition initial : network := imap (λ t sp, RxSource_new sp (sum_list_with (edges_to t) specs)) specs.

(** [Channel::await_write]; the observer ignores the status of a closed one. *)
Definition await_write (t : nat) (d : D) (σ : network) : option network :=
  match σ !! t with
  | Some nt =>
      if upstreams nt =? 0 then Some σ
      else if length (queue nt) <? capacity then Some (<[t := set_queue (queue nt ++ [d]) nt]> σ) else None
  | None => None
  end.
(** A step of context [c] of node [i]. *)
Definition run_node (i c : nat) (σ : network) : option network :=
  match σ !! i, specs !! i with
  | Some nd, Some sp =>
      match ctxs nd !! c with
      | Some x =>
          match writes x with
          | (t, d) :: ws => await_write t d (<[i := set_ctx c (mkCtx (todo x) ws (ph x)) nd]> σ)
          | [] => (λ '(nd', x'), <[i := set_ctx c x' nd']> σ) <$> run_context sp nd x
          end
      | None => None
      end
  | _, _ => None
  end.
(** [RxRunnable::shutdown]: all contexts are at the barrier; rank 0 releases the
    downstream channels. *)
Definition at_barrier (x : ctx) : bool :=
  match ph x, todo x, writes x with Waiting, [], [] => true | _, _, _ => false end.
Definition release_edges (sp : spec) (σ : network) : network :=
  imap (λ t nt, mkNode (queue nt) (upstreams nt - edges_to t sp) (subscribed nt) (ctxs nt) (finished nt) (consumed nt) (emitted nt)) σ.
Definition shutdown (i : nat) (σ : network) : option network :=
  match σ !! i, specs !! i with
  | Some nd, Some sp =>
      if negb (finished nd) && forallb at_barrier (ctxs nd)
      then Some (release_edges sp (<[i := mkNode (queue nd) (upstreams nd) (subscribed nd) (ctxs nd) true (consumed nd) (emitted nd)]> σ))
      else None
  | _, _ => None
  end.
(** [on_stop]: only a source unsubscribes; [on_kill]: every node does. *)
Definition on_stop (i : nat) (σ : network) : network :=
  match specs !! i with Some sp => if is_source sp then alter unsubscribe i σ else σ | None => σ end.
Definition on_kill (i : nat) (σ : network) : network := alter unsubscribe i σ.

Inductive event := Run (i c : nat) | Shutdown (i : nat) | Stop (i : nat) | Kill (i : nat).
Definition step (σ : network) (e : event) : option network :=
  match e with
  | Run i c => run_node i c σ
  | Shutdown i => shutdown i σ
  | Stop i => Some (on_stop i σ)
  | Kill i => Some (on_kill i σ)
  end.
Fixpoint run (es : list event) (σ : network) : option network :=
  match es with [] => Some σ | e :: es => step σ e ≫= run es end.
Definition internal (e : event) : bool := match e with Run _ _ | Shutdown _ => true | _ => false end.
Definition graceful (e : event) : bool := match e with Kill _ => false | _ => true end.

(** ** Networks of nodes *)
Record spec_ok (i : nat) (sp : spec) : Prop := {
  so_pe : 1 ≤ pe_count sp;
  so_up t : t ∈ holds sp → i < t ∧ ∃ sp', specs !! t = Some sp' ∧ is_source sp' = false;
  so_route d t d' : (t, d') ∈ route sp d → t ∈ holds sp;
}.
Record network_ok : Prop := {
  no_spec i sp : specs !! i = Some sp → spec_ok i sp;
  no_fed t sp : specs !! t = Some sp → is_source sp = false → 1 ≤ sum_list_with (edges_to t) specs;
  no_capacity : 1 ≤ capacity;
}.
End dataflow.
Arguments event : clear implicits.
