(* ===== verification/DataflowInv.v ===== *)
(** * Invariants of the data flow

    For the networks of [Dataflow.v], under every interleaving: what the nodes
    emitted towards a node is what it has read, what is in its channel and what is
    being written to it; a channel is open exactly as long as an upstream node has
    not shut down; and each node has emitted what its stream makes of what it read.
    Then, for runs without a kill: a node shuts down only when its channel is closed
    and empty. *)
From S2P Require Import Prelude Dataflow.

(** ** Lists with a hole *)
Lemma concat_imap_hole {A B} (f : nat → A → list B) l i x :
  l !! i = Some x →
  ∃ K, concat (imap f l) ≡ₚ f i x ++ K ∧ ∀ y, concat (imap f (<[i := y]> l)) ≡ₚ f i y ++ K.
Proof.
  revert f i. induction l as [|z l IH]; intros f [|i] Hi; simplify_eq/=; [by eexists|].
  destruct (IH (f ∘ S) i Hi) as (K & H1 & H2). exists (f 0 z ++ K). split.
  - rewrite H1. simpl. rewrite !app_assoc. by rewrite (Permutation_app_comm (f 0 z)).
  - intros y. rewrite H2. simpl. rewrite !app_assoc. by rewrite (Permutation_app_comm (f 0 z)).
Qed.
Lemma concat_imap_same {A B} (f : nat → A → list B) l i x y :
  l !! i = Some x → f i y = f i x → concat (imap f (<[i := y]> l)) = concat (imap f l).
Proof.
  revert f i. induction l as [|z l IH]; intros f [|i] Hi He; simplify_eq/=; [by rewrite He|]. f_equal. by apply (IH (f ∘ S)).
Qed.
Lemma sum_imap_insert {A} (f : nat → A → nat) l i x y :
  l !! i = Some x → sum_list (imap f (<[i := y]> l)) + f i x = sum_list (imap f l) + f i y.
Proof.
  revert f i. induction l as [|z l IH]; intros f [|i] Hi; simplify_eq/=; [lia|]. specialize (IH (f ∘ S) i Hi). simpl in IH. lia.
Qed.
Lemma sum_imap_elem {A} (f : nat → A → nat) l i x : l !! i = Some x → f i x ≤ sum_list (imap f l).
Proof.
  revert f i. induction l as [|z l IH]; intros f [|i] Hi; simplify_eq/=; [lia|]. specialize (IH (f ∘ S) i Hi). simpl in IH. lia.
Qed.
Lemma sum_imap_pos {A} (f : nat → A → nat) l : 1 ≤ sum_list (imap f l) → ∃ i x, l !! i = Some x ∧ 1 ≤ f i x.
Proof.
  revert f. induction l as [|z l IH]; intros f; simpl; [lia|]. intros H. destruct (decide (1 ≤ f 0 z)) as [Hz|Hz]; [by exists 0, z|].
  destruct (IH (f ∘ S)) as (i & x & Hi & Hx); [lia|]. by exists (S i), x.
Qed.
Lemma concat_fmap_hole {A B} (f : A → list B) l i x :
  l !! i = Some x → ∃ K, concat (f <$> l) ≡ₚ f x ++ K ∧ ∀ y, concat (f <$> <[i := y]> l) ≡ₚ f y ++ K.
Proof.
  revert i. induction l as [|z l IH]; intros [|i] Hi; simplify_eq/=; [by eexists|].
  destruct (IH i Hi) as (K & H1 & H2). exists (f z ++ K). split.
  - rewrite H1. rewrite !app_assoc. by rewrite (Permutation_app_comm (f z)).
  - intros y. rewrite H2. rewrite !app_assoc. by rewrite (Permutation_app_comm (f z)).
Qed.

Lemma concat_imap_nil {A B} (f : nat → A → list B) l : (∀ i x, l !! i = Some x → f i x = []) → concat (imap f l) = [].
Proof.
  revert f. induction l as [|z l IH]; intros f Hf; simpl; [done|]. rewrite (Hf 0 z) by done. simpl.
  apply IH. intros i x Hi. by apply (Hf (S i)).
Qed.
Lemma alter_as_insert {A} (f : A → A) (l : list A) (i : nat) : alter f i l = match l !! i with Some x => <[i := f x]> l | None => l end.
Proof. revert i. induction l as [|z l IH]; intros [|i]; try done. unfold alter in *. simpl. rewrite IH. simpl. by destruct (l !! i). Qed.
(** [N] is added on both sides of a balance. *)
Lemma perm_emit {A} (S C P N K1 K2 : list A) : S ++ K1 ≡ₚ C ++ P ++ K2 → (S ++ N) ++ K1 ≡ₚ C ++ (P ++ N) ++ K2.
Proof.
  intros H. rewrite <-!app_assoc, (Permutation_app_swap_app S), H, (Permutation_app_swap_app N C).
  f_equiv. apply Permutation_app_swap_app.
Qed.

Section dataflow.
Context {D : Type} (specs : list (spec (D := D))) (capacity : nat) (Hok : network_ok specs capacity).
Notation network := (list (node (D := D))).
Notation node := (node (D := D)).
Notation ctx := (ctx (D := D)).
Implicit Types (σ : network) (nd nt : node) (x : ctx) (sp : spec (D := D)) (d : D).
Notation run_node := (run_node specs capacity).
Notation step := (step specs capacity).

(** ** The data in a network *)
Definition arrivals (t : nat) (l : list (nat * D)) : list D := snd <$> filter (λ td, td.1 = t) l.
Definition spec_of (i : nat) : spec := default (mkSpec true [] (λ _, []) 0 (λ _, []) []) (specs !! i).
(** What node [i] has emitted towards node [t], and what it is writing to it. *)
Definition sent (t i : nat) nd : list D := arrivals t (emitted nd ≫= route (spec_of i)).
Definition pend (t : nat) nd : list D := concat ((λ x, arrivals t (writes x)) <$> ctxs nd).
Definition inflow σ (t : nat) : list D := concat (imap (sent t) σ).
Definition inflight σ (t : nat) : list D := concat (imap (λ _, pend t) σ).
Definition holding (t i : nat) nd : nat := if finished nd then 0 else edges_to t (spec_of i).
(** What a node has to emit in all. *)
Definition produced sp nd : list D :=
  if is_source sp then concat (replicate (pe_count sp) (items sp)) else consumed nd ≫= stream sp.

Record node_ok sp nd : Prop := {
  n_len : length (ctxs nd) = pe_count sp;
  n_writes c x t d : ctxs nd !! c = Some x → (t, d) ∈ writes x → t ∈ holds sp;
  n_wait c x : ctxs nd !! c = Some x → ph x = Waiting → todo x = [] ∧ writes x = [];
  n_fin : finished nd = true → forallb at_barrier (ctxs nd) = true;
  n_emit : ∃ lost, emitted nd ++ concat (todo <$> ctxs nd) ++ lost ≡ₚ produced sp nd ∧ (subscribed nd = true → lost = []);
  n_source c x : is_source sp = true → ctxs nd !! c = Some x → ph x ≠ Reading;
}.
Record Inv σ : Prop := {
  v_len : length σ = length specs;
  v_flow t nt : σ !! t = Some nt → inflow σ t ≡ₚ consumed nt ++ queue nt ++ inflight σ t;
  v_ups t nt : σ !! t = Some nt → upstreams nt = sum_list (imap (holding t) σ);
  v_node i nd sp : σ !! i = Some nd → specs !! i = Some sp → node_ok sp nd;
}.

Lemma arrivals_app t l l' : arrivals t (l ++ l') = arrivals t l ++ arrivals t l'.
Proof. unfold arrivals. by rewrite filter_app, fmap_app. Qed.
Lemma arrivals_cons t t' d l : arrivals t ((t', d) :: l) = (if decide (t' = t) then [d] else []) ++ arrivals t l.
Proof.
  unfold arrivals. destruct (decide (t' = t)) as [->|Hn]; [by rewrite filter_cons_True|by rewrite filter_cons_False].
Qed.
Lemma spec_of_Some i sp : specs !! i = Some sp → spec_of i = sp.
Proof. unfold spec_of. by intros ->. Qed.
Lemma edges_to_pos t sp : t ∈ holds sp → 1 ≤ edges_to t sp.
Proof.
  intros [j Hj]%list_elem_of_lookup. eapply countb_elem; [exact Hj|apply Nat.eqb_refl].
Qed.
Lemma edges_to_in t sp : 1 ≤ edges_to t sp → t ∈ holds sp.
Proof.
  destruct (decide (t ∈ holds sp)) as [|Hn]; [done|]. unfold edges_to. intros Hp.
  assert (countb (Nat.eqb t) (holds sp) = 0) as Hz; [|lia]. apply countb_zero, Forall_forall. intros u Hu. apply Nat.eqb_neq. by intros ->.
Qed.
(** A node that is being written to is open. *)
Lemma writes_open σ i nd sp c x t d nt :
  Inv σ → σ !! i = Some nd → specs !! i = Some sp → ctxs nd !! c = Some x → (t, d) ∈ writes x → σ !! t = Some nt →
  finished nd = false ∧ 1 ≤ upstreams nt.
Proof.
  intros [H1 H2 H3 H4] Hi Hs Hc Hd Ht. destruct (H4 _ _ _ Hi Hs) as [N1 N2 N3 N4 N5 N6].
  assert (finished nd = false) as Hf.
  { destruct (finished nd); [|done]. specialize (N4 eq_refl). rewrite forallb_forall in N4.
    specialize (N4 x ltac:(apply list_elem_of_In; by eapply list_elem_of_lookup_2)). unfold at_barrier in N4.
    destruct (ph x), (todo x), (writes x); try done. by apply not_elem_of_nil in Hd. }
  split; [done|]. rewrite (H3 _ _ Ht). pose proof (sum_imap_elem (holding t) σ i nd Hi) as He. unfold holding in He at 1.
  rewrite Hf, (spec_of_Some _ _ Hs) in He. pose proof (edges_to_pos t sp (N2 _ _ _ _ Hc Hd)). lia.
Qed.

(** ** Steps within a node *)
Lemma Inv_local σ i nd nd' sp N :
  Inv σ → σ !! i = Some nd → specs !! i = Some sp →
  upstreams nd' = upstreams nd → finished nd' = finished nd →
  consumed nd' ++ queue nd' = consumed nd ++ queue nd →
  (emitted nd' ≫= route sp) = (emitted nd ≫= route sp) ++ N →
  (∀ t, pend t nd' ≡ₚ pend t nd ++ arrivals t N) → node_ok sp nd' →
  Inv (<[i := nd']> σ).
Proof.
  intros [H1 H2 H3 H4] Hi Hs Hu Hf Hq He Hp Hn. pose proof (lookup_lt_Some _ _ _ Hi) as Hlt. split.
  - by rewrite length_insert.
  - intros t nt Ht.
    assert (∃ nt0, σ !! t = Some nt0 ∧ consumed nt ++ queue nt = consumed nt0 ++ queue nt0) as (nt0 & Ht0 & Hq0).
    { destruct (decide (t = i)) as [->|Hti]; [rewrite list_lookup_insert_eq in Ht by done|rewrite list_lookup_insert_ne in Ht by done]; simplify_eq; eauto. }
    specialize (H2 t nt0 Ht0). rewrite app_assoc, Hq0. rewrite app_assoc in H2.
    destruct (concat_imap_hole (sent t) σ i nd Hi) as (K1 & HK1 & HK1'). destruct (concat_imap_hole (λ _, pend t) σ i nd Hi) as (K2 & HK2 & HK2').
    unfold inflow, inflight in *. rewrite HK1', HK2'. rewrite HK1, HK2 in H2. rewrite (Hp t).
    unfold sent in *. rewrite (spec_of_Some _ _ Hs) in *. rewrite He, arrivals_app.
    by apply perm_emit.
  - intros t nt Ht. pose proof (sum_imap_insert (holding t) σ i nd nd' Hi) as Hsum.
    assert (holding t i nd' = holding t i nd) as Hh by (unfold holding; by rewrite Hf).
    assert (∃ nt0, σ !! t = Some nt0 ∧ upstreams nt = upstreams nt0) as (nt0 & Ht0 & ->).
    { destruct (decide (t = i)) as [->|Hti]; [rewrite list_lookup_insert_eq in Ht by done|rewrite list_lookup_insert_ne in Ht by done]; simplify_eq; eauto. }
    rewrite (H3 _ _ Ht0). lia.
  - intros j nj sj Hj Hsj. destruct (decide (j = i)) as [->|Hji]; [rewrite list_lookup_insert_eq in Hj by done|rewrite list_lookup_insert_ne in Hj by done]; simplify_eq; eauto.
Qed.

(** A context moves on without writing. *)
Lemma pend_set_ctx nd c x x' N t :
  ctxs nd !! c = Some x → writes x = [] → writes x' = N → pend t (set_ctx c x' nd) ≡ₚ pend t nd ++ arrivals t N.
Proof.
  intros Hc Hx Hx'. unfold pend. simpl. destruct (concat_fmap_hole (λ x, arrivals t (writes x)) _ _ _ Hc) as (K & HK & HK').
  rewrite HK', HK, Hx, Hx'. simpl. apply Permutation_app_comm.
Qed.
Lemma ctx_cases nd c x x' c1 x1 (P : ctx → Prop) :
  ctxs nd !! c = Some x → ctxs (set_ctx c x' nd) !! c1 = Some x1 →
  (c1 ≠ c → ctxs nd !! c1 = Some x1 → P x1) → P x' → P x1.
Proof.
  intros Hc H1 Hne Hx'. simpl in H1. destruct (decide (c1 = c)) as [->|Hn].
  - rewrite list_lookup_insert_eq in H1 by (by eapply lookup_lt_Some). by simplify_eq.
  - rewrite list_lookup_insert_ne in H1 by done. auto.
Qed.
(** The local part of the invariant, for one context that changes. *)
Lemma node_ok_ctx sp nd nd' c x x' :
  node_ok sp nd → ctxs nd !! c = Some x → ctxs nd' = ctxs nd → finished nd' = finished nd → ph x ≠ Waiting ∨ writes x ≠ [] →
  (∀ t d, (t, d) ∈ writes x' → t ∈ holds sp) → (ph x' = Waiting → todo x' = [] ∧ writes x' = []) →
  (∃ lost, emitted nd' ++ concat (todo <$> <[c := x']> (ctxs nd)) ++ lost ≡ₚ produced sp nd' ∧ (subscribed nd' = true → lost = [])) →
  (is_source sp = true → ph x' ≠ Reading) →
  node_ok sp (set_ctx c x' nd').
Proof.
  intros [N1 N2 N3 N4 N5 N6] Hc Hx Hf Hnw Hw Hwt He Hr. assert (finished nd = false) as Hnf.
  { destruct (finished nd); [|done]. specialize (N4 eq_refl). rewrite forallb_forall in N4.
    specialize (N4 x ltac:(apply list_elem_of_In; by eapply list_elem_of_lookup_2)). unfold at_barrier in N4.
    destruct (ph x), (todo x), (writes x), Hnw; done. }
  assert (ctxs nd' !! c = Some x) as Hc' by (by rewrite Hx). split.
  - simpl. by rewrite length_insert, Hx.
  - intros c1 x1 t d H1. eapply (ctx_cases nd' c x x' c1 x1 (λ x1, (t, d) ∈ writes x1 → t ∈ holds sp)); [done|done| |apply Hw].
    intros _. rewrite Hx. apply N2.
  - intros c1 x1 H1. eapply (ctx_cases nd' c x x' c1 x1 (λ x1, ph x1 = Waiting → todo x1 = [] ∧ writes x1 = [])); [done|done| |done].
    intros _. rewrite Hx. apply N3.
  - simpl. rewrite Hf, Hnf. done.
  - simpl. rewrite Hx. exact He.
  - intros c1 x1 Hs H1. eapply (ctx_cases nd' c x x' c1 x1 (λ x1, ph x1 ≠ Reading)); [done|done| |auto].
    intros _. rewrite Hx. by apply N6.
Qed.

(** ** A channel write *)
Lemma node_ok_queue sp nd q : node_ok sp nd → node_ok sp (set_queue q nd).
Proof. intros [N1 N2 N3 N4 N5 N6]. by split. Qed.
Lemma node_ok_written sp nd c x t d ws :
  node_ok sp nd → ctxs nd !! c = Some x → writes x = (t, d) :: ws → node_ok sp (set_ctx c (mkCtx (todo x) ws (ph x)) nd).
Proof.
  intros Hn Hc Hw. pose proof Hn as [N1 N2 N3 N4 N5 N6]. eapply node_ok_ctx; eauto; simpl.
  - rewrite Hw. by right.
  - intros t' d' H'. apply (N2 c x t' d' Hc). rewrite Hw. set_solver.
  - intros Hp. destruct (N3 c x Hc Hp) as [_ H]. congruence.
  - destruct N5 as (lost & HN & Hl). exists lost. split; [|done]. rewrite <-HN.
    destruct (concat_fmap_hole todo _ _ _ Hc) as (K & HK & HK'). by rewrite HK', HK.
  - intros Hsrc. by apply (N6 c).
Qed.
Lemma write_target σ i nd sp c x t d : Inv σ → σ !! i = Some nd → specs !! i = Some sp → ctxs nd !! c = Some x →
  (t, d) ∈ writes x → i < t ∧ ∃ nt st, σ !! t = Some nt ∧ specs !! t = Some st ∧ is_source st = false.
Proof.
  intros [H1 H2 H3 H4] Hi Hs Hc Hd. destruct (H4 _ _ _ Hi Hs) as [N1 N2 N3 N4 N5 N6]. pose proof (N2 _ _ _ _ Hc Hd) as Ht.
  destruct (no_spec _ _ Hok _ _ Hs) as [_ Hup _]. destruct (Hup _ Ht) as (Hlt & st & Hst & Hns). split; [done|].
  destruct (lookup_lt_is_Some_2 σ t) as [nt Hnt]; [rewrite H1; by eapply lookup_lt_Some|eauto 10].
Qed.
Lemma Inv_write σ i nd sp c x t d ws nt :
  Inv σ → σ !! i = Some nd → specs !! i = Some sp → ctxs nd !! c = Some x → writes x = (t, d) :: ws → σ !! t = Some nt → i < t →
  Inv (<[t := set_queue (queue nt ++ [d]) nt]> (<[i := set_ctx c (mkCtx (todo x) ws (ph x)) nd]> σ)).
Proof.
  intros [H1 H2 H3 H4] Hi Hs Hc Hw Ht Hlt. set (nd' := set_ctx c _ nd). set (nt' := set_queue _ nt).
  pose proof (lookup_lt_Some _ _ _ Hi) as Hil. pose proof (lookup_lt_Some _ _ _ Ht) as Htl.
  assert ((<[i := nd']> σ) !! t = Some nt) as Ht1 by (rewrite list_lookup_insert_ne by lia; done).
  assert (∀ j nj, (<[t := nt']> (<[i := nd']> σ)) !! j = Some nj →
    ∃ n0, σ !! j = Some n0 ∧ upstreams nj = upstreams n0 ∧ consumed nj = consumed n0 ∧
          queue nj = queue n0 ++ (if decide (t = j) then [d] else [])) as Hback.
  { intros j nj. destruct (decide (t = j)) as [<-|Hn].
    - rewrite list_lookup_insert_eq by (by rewrite length_insert). intros [= <-]. exists nt. done.
    - rewrite list_lookup_insert_ne by done. destruct (decide (j = i)) as [->|Hn'].
      + rewrite list_lookup_insert_eq by done. intros [= <-]. exists nd. rewrite app_nil_r. done.
      + rewrite list_lookup_insert_ne by done. intros Hj. exists nj. rewrite app_nil_r. done. }
  split.
  - by rewrite !length_insert.
  - intros j nj Hj. destruct (Hback _ _ Hj) as (n0 & Hj0 & _ & -> & ->). specialize (H2 j n0 Hj0).
    unfold inflow, inflight in *. rewrite (concat_imap_same (sent j) _ _ _ _ Ht1), (concat_imap_same (λ _, pend j) _ _ _ _ Ht1) by done.
    rewrite (concat_imap_same (sent j) _ _ _ _ Hi) by done.
    destruct (concat_imap_hole (λ _, pend j) σ i nd Hi) as (K & HK & HK'). rewrite HK', H2, HK. clear HK HK'.
    assert (pend j nd ≡ₚ (if decide (t = j) then [d] else []) ++ pend j nd') as ->.
    { unfold pend. simpl. destruct (concat_fmap_hole (λ x, arrivals j (writes x)) _ _ _ Hc) as (L & HL & HL').
      rewrite HL, HL', Hw, arrivals_cons. by rewrite <-app_assoc. }
    by rewrite <-!app_assoc.
  - intros j nj Hj. destruct (Hback _ _ Hj) as (n0 & Hj0 & -> & _). rewrite (H3 _ _ Hj0).
    pose proof (sum_imap_insert (holding j) σ i nd nd' Hi) as S1. pose proof (sum_imap_insert (holding j) _ t nt nt' Ht1) as S2.
    change (holding j i nd') with (holding j i nd) in S1. change (holding j t nt') with (holding j t nt) in S2. lia.
  - intros j nj sj Hj Hsj. destruct (decide (t = j)) as [<-|Hn].
    + rewrite list_lookup_insert_eq in Hj by (by rewrite length_insert). simplify_eq. apply node_ok_queue. eauto.
    + rewrite list_lookup_insert_ne in Hj by done. destruct (decide (j = i)) as [->|Hn'].
      * rewrite list_lookup_insert_eq in Hj by done. simplify_eq. eapply node_ok_written; eauto.
      * rewrite list_lookup_insert_ne in Hj by done. eauto.
Qed.

(** ** A context goes on *)
Lemma todo_insert nd c x x' : ctxs nd !! c = Some x →
  ∃ K, concat (todo <$> ctxs nd) ≡ₚ todo x ++ K ∧ concat (todo <$> <[c := x']> (ctxs nd)) ≡ₚ todo x' ++ K.
Proof. intros Hc. destruct (concat_fmap_hole todo _ _ _ Hc) as (K & HK & HK'). eauto. Qed.
Lemma node_ok_on_next sp i nd c x d ds nd' x' :
  specs !! i = Some sp → node_ok sp nd → ctxs nd !! c = Some x → todo x = d :: ds → on_next sp d ds (ph x) nd = (nd', x') →
  node_ok sp (set_ctx c x' nd').
Proof.
  intros Hs Hn Hc Ht. pose proof Hn as [N1 N2 N3 N4 N5 N6]. destruct N5 as (lost & HN & Hl).
  assert (ph x ≠ Waiting) as Hp by (intros Hp; destruct (N3 c x Hc Hp); congruence).
  destruct (todo_insert nd c x x' Hc) as (K & HK & HK'). unfold on_next. destruct (subscribed nd) eqn:Es; intros [= <- <-].
  - eapply node_ok_ctx; eauto; simpl.
    + intros t d' H'. by apply (so_route _ _ _ (no_spec _ _ Hok _ _ Hs) d t d').
    + done.
    + exists lost. split; [|auto]. change (produced sp _) with (produced sp nd). rewrite <-HN, HK, HK', Ht. simpl. by rewrite <-!app_assoc.
    + intros Hsrc. by apply (N6 c).
  - eapply node_ok_ctx; eauto; simpl.
    + intros t d' H'. by apply not_elem_of_nil in H'.
    + exists ((d :: ds) ++ lost). split; [|congruence]. rewrite <-HN, HK, HK', Ht. simpl. f_equiv.
      rewrite (Permutation_app_comm ds K), <-!app_assoc. symmetry. apply Permutation_middle.
    + intros Hsrc. by apply (N6 c).
Qed.
Lemma node_ok_progress sp nd c x nd' x' :
  node_ok sp nd → ctxs nd !! c = Some x → todo x = [] → writes x = [] → progress_engine sp (ph x) nd = Some (nd', x') →
  node_ok sp (set_ctx c x' nd') ∧ writes x' = [].
Proof.
  intros Hn Hc Ht Hw. pose proof Hn as [N1 N2 N3 N4 N5 N6]. destruct N5 as (lost & HN & Hl).
  destruct (todo_insert nd c x x' Hc) as (K & HK & HK'). rewrite Ht in HK. simpl in HK.
  assert (∀ p, todo x' = [] → writes x' = [] → ph x' = p → (p = Reading → is_source sp = false) → ph x ≠ Waiting → node_ok sp (set_ctx c x' nd)) as Hidle.
  { intros p Ht' Hw' Hp' Hr Hpx. eapply node_ok_ctx; eauto; rewrite ?Ht', ?Hw', ?Hp'.
    - intros t d H. by apply not_elem_of_nil in H.
    - exists lost. split; [|done]. rewrite <-HN, HK', HK, Ht'. done.
    - intros Hsrc ->. specialize (Hr eq_refl). congruence. }
  unfold progress_engine. destruct (ph x) eqn:Ep; [| |done].
  - intros [= <- <-]. split; [|done]. eapply Hidle; eauto. simpl. destruct (is_source sp), (subscribed nd); done.
  - assert (is_source sp = false) as Hsrc by (destruct (is_source sp) eqn:E; [by destruct (N6 c x eq_refl Hc)|done]).
    destruct (queue nd) as [|y ys]; [destruct (upstreams nd =? 0); [|done]|]; intros [= <- <-]; (split; [|done]); [by eapply Hidle|].
    assert (produced sp (mkNode ys (upstreams nd) (subscribed nd) (ctxs nd) (finished nd) (consumed nd ++ [y]) (emitted nd)) =
      produced sp nd ++ stream sp y) as HP by (unfold produced; rewrite Hsrc; simpl; by rewrite bind_app, bind_singleton).
    eapply node_ok_ctx; eauto; simpl.
    + by left; rewrite Ep.
    + intros t d H. by apply not_elem_of_nil in H.
    + done.
    + rewrite HP. destruct (subscribed nd) eqn:Es.
      * exists []. split; [|done]. rewrite <-HN, Hl by done. rewrite HK', HK. simpl. rewrite !app_nil_r, <-app_assoc. f_equiv. apply Permutation_app_comm.
      * exists (lost ++ stream sp y). split; [|done]. rewrite <-HN, HK', HK. simpl. by rewrite <-!app_assoc.
Qed.
Lemma Inv_context σ i nd sp c x nd' x' :
  Inv σ → σ !! i = Some nd → specs !! i = Some sp → ctxs nd !! c = Some x → writes x = [] →
  run_context sp nd x = Some (nd', x') → Inv (<[i := set_ctx c x' nd']> σ).
Proof.
  intros HI Hi Hs Hc Hw. pose proof (v_node _ HI _ _ _ Hi Hs) as Hn. unfold run_context. destruct (todo x) as [|d ds] eqn:Ht.
  - intros Hp. destruct (node_ok_progress _ _ _ _ _ _ Hn Hc Ht Hw Hp) as [Hn' Hw'].
    assert (ctxs nd' = ctxs nd ∧ upstreams nd' = upstreams nd ∧ finished nd' = finished nd ∧ emitted nd' = emitted nd ∧
      consumed nd' ++ queue nd' = consumed nd ++ queue nd) as (E1 & E2 & E3 & E4 & E5).
    { revert Hp. unfold progress_engine. destruct (ph x); [by intros [= <- <-]| |done].
      destruct (queue nd) eqn:Eq; [destruct (upstreams nd =? 0); [|done]|]; intros [= <- <-]; simpl; rewrite ?Eq, <-?app_assoc; done. }
    eapply (Inv_local σ i nd _ sp []); eauto; simpl.
    + by rewrite E4, app_nil_r.
    + intros t. rewrite (pend_set_ctx nd' c x x' [] t); [|by rewrite E1|done|done]. unfold pend. by rewrite E1.
  - intros [= Ho]. pose proof (node_ok_on_next _ _ _ _ _ _ _ _ _ Hs Hn Hc Ht Ho) as Hn'. revert Hn'. unfold on_next in Ho.
    destruct (subscribed nd) eqn:Es; injection Ho as <- <-; intros Hn'.
    + eapply (Inv_local σ i nd _ sp (route sp d)); eauto; simpl.
      * by rewrite bind_app, bind_singleton.
      * intros t. by rewrite (pend_set_ctx _ c x _ (route sp d) t).
    + eapply (Inv_local σ i nd _ sp []); eauto; simpl; [by rewrite app_nil_r|].
      intros t. by rewrite (pend_set_ctx _ c x _ [] t).
Qed.

(** ** Shutdown, stop and kill *)
Definition with_upstreams (u : nat) nd : node :=
  mkNode (queue nd) u (subscribed nd) (ctxs nd) (finished nd) (consumed nd) (emitted nd).
Lemma imap_release {B} (f : nat → node → B) sp σ :
  (∀ j nd u, f j (with_upstreams u nd) = f j nd) → imap f (release_edges sp σ) = imap f σ.
Proof.
  intros Hf. apply list_eq. intros j. unfold release_edges. rewrite !list_lookup_imap. destruct (σ !! j) as [nd|]; simpl; [|done].
  f_equal. apply Hf.
Qed.
Lemma release_lookup sp σ t : release_edges sp σ !! t = (λ nt, with_upstreams (upstreams nt - edges_to t sp) nt) <$> σ !! t.
Proof. unfold release_edges. by rewrite list_lookup_imap. Qed.
Definition finish nd : node := mkNode (queue nd) (upstreams nd) (subscribed nd) (ctxs nd) true (consumed nd) (emitted nd).
Lemma Inv_shutdown σ i σ' : Inv σ → shutdown specs i σ = Some σ' → Inv σ'.
Proof.
  intros [H1 H2 H3 H4]. unfold shutdown. destruct (σ !! i) as [nd|] eqn:Hi; [|done]. destruct (specs !! i) as [sp|] eqn:Hs; [|done].
  destruct (negb (finished nd) && forallb at_barrier (ctxs nd)) eqn:Hb; [|done]. apply andb_prop in Hb as [Hf%negb_true_iff Hb].
  fold (finish nd). intros [= <-]. pose proof (lookup_lt_Some _ _ _ Hi) as Hlt.
  assert (∀ t nt, release_edges sp (<[i := finish nd]> σ) !! t = Some nt →
    ∃ n0, σ !! t = Some n0 ∧ nt = with_upstreams (upstreams n0 - edges_to t sp) (if decide (t = i) then finish n0 else n0)) as Hback.
  { intros t nt. rewrite release_lookup. destruct (decide (t = i)) as [->|Hn].
    - rewrite list_lookup_insert_eq by done. intros [= <-]. eauto.
    - rewrite list_lookup_insert_ne by done. destruct (σ !! t) as [n0|]; [|done]. intros [= <-]. eauto. }
  split.
  - unfold release_edges. by rewrite length_imap, length_insert.
  - intros t nt Ht. destruct (Hback _ _ Ht) as (n0 & Ht0 & ->). unfold inflow, inflight. rewrite !imap_release by done.
    rewrite (concat_imap_same (sent t) _ _ _ _ Hi), (concat_imap_same (λ _, pend t) _ _ _ _ Hi) by done.
    rewrite (H2 _ _ Ht0). by destruct (decide (t = i)).
  - intros t nt Ht. destruct (Hback _ _ Ht) as (n0 & Ht0 & ->). rewrite imap_release by done. simpl.
    pose proof (sum_imap_insert (holding t) σ i nd (finish nd) Hi) as Hsum. rewrite (H3 _ _ Ht0).
    unfold holding at 2 4 in Hsum. simpl in Hsum. rewrite Hf, (spec_of_Some _ _ Hs) in Hsum. lia.
  - intros j nj sj Hj Hsj. destruct (Hback _ _ Hj) as (n0 & Hj0 & ->). destruct (H4 _ _ _ Hj0 Hsj) as [N1 N2 N3 N4 N5 N6].
    destruct (decide (j = i)) as [->|Hn]; [|by split]. simplify_eq. by split.
Qed.
Lemma Inv_unsubscribe σ i : Inv σ → Inv (alter unsubscribe i σ).
Proof.
  intros HI. rewrite alter_as_insert. destruct (σ !! i) as [nd|] eqn:Hi; [|done].
  destruct (lookup_lt_is_Some_2 specs i) as [sp Hs]; [rewrite <-(v_len _ HI); by eapply lookup_lt_Some|].
  eapply (Inv_local σ i nd _ sp []); eauto; simpl; [by rewrite app_nil_r|by intros t; rewrite app_nil_r|].
  destruct (v_node _ HI _ _ _ Hi Hs) as [N1 N2 N3 N4 (lost & HN & Hl) N6]. split; auto. exists lost. by split.
Qed.

Lemma run_node_inv σ i c σ' : Inv σ → run_node i c σ = Some σ' →
  ∃ nd sp x, σ !! i = Some nd ∧ specs !! i = Some sp ∧ ctxs nd !! c = Some x ∧
    ((∃ t d ws nt, writes x = (t, d) :: ws ∧ i < t ∧ σ !! t = Some nt ∧ length (queue nt) < capacity ∧
        σ' = <[t := set_queue (queue nt ++ [d]) nt]> (<[i := set_ctx c (mkCtx (todo x) ws (ph x)) nd]> σ)) ∨
     (∃ nd' x', writes x = [] ∧ run_context sp nd x = Some (nd', x') ∧ σ' = <[i := set_ctx c x' nd']> σ)).
Proof.
  intros HI. unfold Dataflow.run_node. destruct (σ !! i) as [nd|] eqn:Hi; [|done]. destruct (specs !! i) as [sp|] eqn:Hs; [|done].
  destruct (ctxs nd !! c) as [x|] eqn:Hc; [|done]. intros Hr. exists nd, sp, x. do 3 (split; [done|]).
  destruct (writes x) as [|[t d] ws] eqn:Hw.
  - right. destruct (run_context sp nd x) as [[nd' x']|] eqn:E; [|done]. simplify_eq/=. eauto.
  - left. assert ((t, d) ∈ writes x) as Hd by (rewrite Hw; set_solver).
    destruct (write_target _ _ _ _ _ _ _ _ HI Hi Hs Hc Hd) as (Hlt & nt & st & Ht & _ & _).
    destruct (writes_open _ _ _ _ _ _ _ _ _ HI Hi Hs Hc Hd Ht) as [_ Hup]. revert Hr.
    unfold await_write. rewrite list_lookup_insert_ne by lia. rewrite Ht. destruct (Nat.eqb_spec (upstreams nt) 0); [lia|].
    destruct (Nat.ltb_spec (length (queue nt)) capacity); [|done]. intros [= <-]. eauto 10.
Qed.
Lemma Inv_step σ e σ' : Inv σ → step σ e = Some σ' → Inv σ'.
Proof.
  intros HI. destruct e as [i c|i|i|i]; simpl.
  - intros Hr. destruct (run_node_inv _ _ _ _ HI Hr) as (nd & sp & x & Hi & Hs & Hc & [(t & d & ws & nt & Hw & Hlt & Ht & _ & ->)|(nd' & x' & Hw & Hx & ->)]).
    + by eapply Inv_write.
    + by eapply Inv_context.
  - apply Inv_shutdown, HI.
  - unfold on_stop. intros [= <-]. destruct (specs !! i) as [sp|]; [|done]. destruct (is_source sp); [by apply Inv_unsubscribe|done].
  - intros [= <-]. by apply Inv_unsubscribe.
Qed.
Lemma initial_lookup t nt : initial specs !! t = Some nt → ∃ sp, specs !! t = Some sp ∧ nt = RxSource_new sp (sum_list_with (edges_to t) specs).
Proof. unfold initial. rewrite list_lookup_imap. destruct (specs !! t) as [sp|]; [|done]. intros [= <-]. eauto. Qed.
Lemma Inv_initial : Inv (initial specs).
Proof.
  split.
  - unfold initial. by rewrite length_imap.
  - intros t nt Ht. destruct (initial_lookup _ _ Ht) as (sp & Hs & ->). unfold inflow, inflight. simpl.
    rewrite !concat_imap_nil; [done|..]; intros i nd Hi; destruct (initial_lookup _ _ Hi) as (si & Hsi & ->); [|done].
    unfold pend. simpl. by induction (pe_count si).
  - intros t nt Ht. destruct (initial_lookup _ _ Ht) as (sp & Hs & ->). simpl.
    assert (∀ l n, (∀ i s, l !! i = Some s → spec_of (n + i) = s) → sum_list_with (edges_to t) l =
      sum_list (imap (λ i nd, holding t (n + i) nd) (imap (λ j s, RxSource_new s (sum_list_with (edges_to j) specs)) l))) as H.
    { assert (∀ l n m, (∀ i s, l !! i = Some s → spec_of (n + i) = s) → sum_list_with (edges_to t) l =
      sum_list (imap (λ i nd, holding t (n + i) nd) (imap (λ j s, RxSource_new s (sum_list_with (edges_to (m + j)) specs)) l))) as H.
      { intros l. induction l as [|s l IH]; intros n m Hl; simpl; [done|]. unfold holding at 1. simpl.
        rewrite (Hl 0 s) by done. f_equal. rewrite (IH (S n) (S m)).
        - f_equal. apply list_eq. intros j. rewrite !list_lookup_imap. destruct (l !! j); [|done]. simpl. by rewrite !Nat.add_succ_r.
        - intros i s' Hi. rewrite Nat.add_succ_comm. by apply Hl. }
      intros l n. apply (H l n 0). }
    rewrite (H specs 0); [done|]. intros i s Hi. by apply spec_of_Some.
  - intros i nd sp Hi Hs. destruct (initial_lookup _ _ Hi) as (sp' & Hs' & ->). simplify_eq. split; simpl.
    + apply length_replicate.
    + intros c x t d [-> _]%lookup_replicate H. by apply not_elem_of_nil in H.
    + by intros c x [-> _]%lookup_replicate.
    + done.
    + exists []. split; [|done]. rewrite app_nil_r, fmap_replicate. unfold produced. simpl. destruct (is_source sp); [done|].
      by induction (pe_count sp).
    + by intros c x _ [-> _]%lookup_replicate.
Qed.
Lemma run_Inv es σ σ' : Inv σ → run specs capacity es σ = Some σ' → Inv σ'.
Proof.
  revert σ. induction es as [|e es IH]; intros σ HI; simpl; [by intros [= <-]|].
  destruct (step σ e) as [σ1|] eqn:E; simpl; [|done]. apply IH. by eapply Inv_step.
Qed.
End dataflow.
