(* ===== verification/DataflowSpec.v ===== *)
(** * Pipelines drain

    Theorems about the networks of [Dataflow.v]: nothing is lost or duplicated
    between nodes; with one writer the order is kept; without a kill a network
    never deadlocks, runs a bounded number of steps, and when it is done every node
    has processed all that was emitted towards it; after a kill a writer can be
    stuck for ever. *)
From S2P Require Import Prelude Dataflow DataflowInv.

Section dataflow.
Context {D : Type} (specs : list (spec (D := D))) (capacity : nat).
Notation network := (list (node (D := D))).
Notation node := (node (D := D)).
Notation ctx := (ctx (D := D)).
Implicit Types (σ : network) (nd nt : node) (x : ctx) (sp : spec (D := D)) (d : D).
Notation run_node := (run_node specs capacity).
Notation step := (step specs capacity).
Notation Inv := (Inv specs).

(** C14: Under every interleaving, stops and kills included, what the nodes of a
    network have emitted towards node [t] is, as a multiset, exactly what [t] has
    read, what is in its channel and what is being written to it; and the channel
    is open exactly as long as some node that holds an edge to it has not shut
    down, so no write ever meets a closed channel. *)
Theorem flow_conserved es σ t nt :
  network_ok specs capacity → run specs capacity es (initial specs) = Some σ → σ !! t = Some nt →
  inflow specs σ t ≡ₚ consumed nt ++ queue nt ++ inflight σ t ∧
  (1 ≤ upstreams nt ↔ ∃ i nd sp, σ !! i = Some nd ∧ specs !! i = Some sp ∧ finished nd = false ∧ t ∈ holds sp).
Proof.
  intros Hok Hr Ht. pose proof (run_Inv specs capacity Hok _ _ _ (Inv_initial specs) Hr) as HI.
  split; [by apply (v_flow _ _ HI)|]. rewrite (v_ups _ _ HI _ _ Ht). split.
  - intros Hp. destruct (sum_imap_pos _ _ Hp) as (i & nd & Hi & Hh). exists i, nd.
    destruct (lookup_lt_is_Some_2 specs i) as [sp Hs]; [rewrite <-(v_len _ _ HI); by eapply lookup_lt_Some|].
    exists sp. unfold holding in Hh. rewrite (spec_of_Some _ _ _ Hs) in Hh. destruct (finished nd); [lia|].
    split; [done|]. split; [done|]. split; [done|]. by apply edges_to_in.
  - intros (i & nd & sp & Hi & Hs & Hf & Hh). pose proof (sum_imap_elem (holding specs t) σ i nd Hi) as He.
    unfold holding in He at 1. rewrite Hf, (spec_of_Some _ _ _ Hs) in He. pose proof (edges_to_pos t sp Hh). lia.
Qed.

(** ** Runs without a kill *)
Record Live σ : Prop := {
  l_sub i nd sp : σ !! i = Some nd → specs !! i = Some sp → is_source sp = false → subscribed nd = true;
  l_wait t nt sp c x : σ !! t = Some nt → specs !! t = Some sp → is_source sp = false →
    ctxs nt !! c = Some x → ph x = Waiting → upstreams nt = 0 ∧ queue nt = [];
}.
Lemma Live_context σ i nd sp c x nd' x' :
  Live σ → σ !! i = Some nd → specs !! i = Some sp → ctxs nd !! c = Some x →
  run_context sp nd x = Some (nd', x') → Live (<[i := set_ctx c x' nd']> σ).
Proof.
  intros [L1 L2] Hi Hs Hc Hr. pose proof (lookup_lt_Some _ _ _ Hi) as Hlt.
  assert (ctxs nd' = ctxs nd ∧ upstreams nd' = upstreams nd ∧ subscribed nd' = subscribed nd ∧
    (queue nd' = queue nd ∨ queue nd ≠ []) ∧
    (is_source sp = false → ph x' = Waiting → queue nd' = queue nd ∧ (ph x = Waiting ∨ upstreams nd = 0 ∧ queue nd = []))) as (E1 & E2 & E3 & E4 & E5).
  { revert Hr. unfold run_context. destruct (todo x) as [|d ds].
    - unfold progress_engine. destruct (ph x) eqn:Ep; [| |done].
      + intros [= <- <-]. do 4 (split; [by auto|]). intros Hsrc. simpl. rewrite Hsrc, (L1 _ _ _ Hi Hs Hsrc). done.
      + destruct (queue nd) as [|y ys] eqn:Eq; [destruct (Nat.eqb_spec (upstreams nd) 0); [|done]|]; intros [= <- <-]; simpl; rewrite ?Eq; auto 10.
        do 3 (split; [by auto|]). split; [by right|done].
    - unfold on_next. destruct (subscribed nd) eqn:Es; intros [= <- <-]; simpl; auto 10. }
  split.
  - intros j nj sj Hj Hsj Hsrc. destruct (decide (j = i)) as [->|Hn].
    + rewrite list_lookup_insert_eq in Hj by done. simplify_eq. simpl. rewrite E3. eauto.
    + rewrite list_lookup_insert_ne in Hj by done. eauto.
  - intros t nt st c1 x1 Ht Hst Hsrc Hc1 Hp1. destruct (decide (t = i)) as [->|Hn].
    + rewrite list_lookup_insert_eq in Ht by done. simplify_eq. simpl in *. rewrite E1, E2 in *.
      destruct (decide (c1 = c)) as [->|Hnc].
      * rewrite list_lookup_insert_eq in Hc1 by (by eapply lookup_lt_Some). simplify_eq.
        destruct (E5 Hsrc Hp1) as [-> [Hw|[-> ->]]]; [eauto|done].
      * rewrite list_lookup_insert_ne in Hc1 by done. destruct (L2 _ _ _ _ _ Hi Hs Hsrc Hc1 Hp1) as [? Hq].
        destruct E4 as [->|]; done.
    + rewrite list_lookup_insert_ne in Ht by done. eauto.
Qed.
Lemma Live_write σ i nd sp c x t d ws nt :
  Live σ → σ !! i = Some nd → specs !! i = Some sp → ctxs nd !! c = Some x → σ !! t = Some nt → i < t → 1 ≤ upstreams nt →
  Live (<[t := set_queue (queue nt ++ [d]) nt]> (<[i := set_ctx c (mkCtx (todo x) ws (ph x)) nd]> σ)).
Proof.
  intros [L1 L2] Hi Hs Hc Ht Hlt Hup. pose proof (lookup_lt_Some _ _ _ Hi) as Hil. pose proof (lookup_lt_Some _ _ _ Ht) as Htl. split.
  - intros j nj sj Hj Hsj Hsrc. destruct (decide (j = t)) as [->|Hn].
    + rewrite list_lookup_insert_eq in Hj by (by rewrite length_insert). simplify_eq. simpl. eauto.
    + rewrite list_lookup_insert_ne in Hj by done. destruct (decide (j = i)) as [->|Hn'].
      * rewrite list_lookup_insert_eq in Hj by done. simplify_eq. simpl. eauto.
      * rewrite list_lookup_insert_ne in Hj by done. eauto.
  - intros j nj sj c1 x1 Hj Hsj Hsrc Hc1 Hp1. destruct (decide (j = t)) as [->|Hn].
    + rewrite list_lookup_insert_eq in Hj by (by rewrite length_insert). simplify_eq. simpl in *.
      destruct (L2 _ _ _ _ _ Ht Hsj Hsrc Hc1 Hp1). lia.
    + rewrite list_lookup_insert_ne in Hj by done. destruct (decide (j = i)) as [->|Hn'].
      * rewrite list_lookup_insert_eq in Hj by done. simplify_eq. simpl in *.
        destruct (decide (c1 = c)) as [->|Hnc].
        -- rewrite list_lookup_insert_eq in Hc1 by (by eapply lookup_lt_Some). simplify_eq. eauto.
        -- rewrite list_lookup_insert_ne in Hc1 by done. eauto.
      * rewrite list_lookup_insert_ne in Hj by done. eauto.
Qed.

Section ok.
Context (Hok : network_ok specs capacity).

Lemma Live_step σ e σ' : Inv σ → Live σ → graceful e = true → step σ e = Some σ' → Live σ'.
Proof.
  intros HI HL Hg. destruct e as [i c|i|i|i]; simpl; [| | |done].
  - intros Hr. destruct (run_node_inv specs capacity Hok _ _ _ _ HI Hr)
      as (nd & sp & x & Hi & Hs & Hc & [(t & d & ws & nt & Hw & Hlt & Ht & _ & ->)|(nd' & x' & Hw & Hx & ->)]).
    + eapply Live_write; eauto. assert ((t, d) ∈ writes x) as Hd by (rewrite Hw; set_solver).
      by destruct (writes_open specs _ _ _ _ _ _ _ _ _ HI Hi Hs Hc Hd Ht).
    + by eapply Live_context.
  - unfold shutdown. destruct (σ !! i) as [nd|] eqn:Hi; [|done]. destruct (specs !! i) as [sp|] eqn:Hs; [|done].
    destruct (negb (finished nd) && forallb at_barrier (ctxs nd)); [|done]. intros [= <-]. destruct HL as [L1 L2].
    assert (∀ t nt, release_edges sp (<[i := finish nd]> σ) !! t = Some nt →
      ∃ n0, σ !! t = Some n0 ∧ subscribed nt = subscribed n0 ∧ ctxs nt = ctxs n0 ∧ queue nt = queue n0 ∧ upstreams nt ≤ upstreams n0) as Hback.
    { intros t nt. rewrite release_lookup. destruct (decide (t = i)) as [->|Hn].
      - rewrite list_lookup_insert_eq by (by eapply lookup_lt_Some). intros [= <-]. exists nd. simpl. repeat split; auto; lia.
      - rewrite list_lookup_insert_ne by done. destruct (σ !! t) as [n0|]; [|done]. intros [= <-]. exists n0. simpl. repeat split; auto; lia. }
    split.
    + intros j nj sj Hj. destruct (Hback _ _ Hj) as (n0 & Hj0 & -> & _). eauto.
    + intros j nj sj c x Hj Hsj Hsrc. destruct (Hback _ _ Hj) as (n0 & Hj0 & _ & -> & -> & Hle). intros Hc Hp.
      destruct (L2 _ _ _ _ _ Hj0 Hsj Hsrc Hc Hp). split; [lia|done].
  - unfold on_stop. intros [= <-]. destruct (specs !! i) as [sp|] eqn:Hs; [|done]. destruct (is_source sp) eqn:Hsrc; [|done].
    destruct HL as [L1 L2].
    assert (∀ t nt st, alter unsubscribe i σ !! t = Some nt → specs !! t = Some st → is_source st = false → σ !! t = Some nt) as Hback.
    { intros t nt st Ht Hst Hns. destruct (decide (i = t)) as [->|Hn]; [congruence|]. by rewrite list_lookup_alter_ne in Ht. }
    split; [intros j nj sj Hj Hsj Hns|intros j nj sj c x Hj Hsj Hns]; specialize (Hback _ _ _ Hj Hsj Hns); eauto.
Qed.
Lemma Live_initial : Live (initial specs).
Proof.
  split.
  - intros i nd sp Hi. by destruct (initial_lookup specs _ _ Hi) as (sp' & _ & ->).
  - intros t nt sp c x Ht Hs _. destruct (initial_lookup specs _ _ Ht) as (sp' & _ & ->). simpl. by intros [-> _]%lookup_replicate.
Qed.
Lemma run_Live es σ σ' : Inv σ → Live σ → forallb graceful es = true → run specs capacity es σ = Some σ' → Inv σ' ∧ Live σ'.
Proof.
  revert σ. induction es as [|e es IH]; intros σ HI HL; simpl; [intros _ [= <-]; done|]. intros [He Hg]%andb_prop.
  destruct (step σ e) as [σ1|] eqn:E; simpl; [|done]. apply IH; [by eapply Inv_step|by eapply Live_step|done].
Qed.

(** ** No deadlock *)
Lemma finished_waits σ t nt sp : Inv σ → σ !! t = Some nt → specs !! t = Some sp → finished nt = true →
  ∃ x, ctxs nt !! 0 = Some x ∧ ph x = Waiting.
Proof.
  intros HI Ht Hs Hf. destruct (v_node _ _ HI _ _ _ Ht Hs) as [N1 _ _ N4 _ _]. specialize (N4 Hf). rewrite forallb_forall in N4.
  pose proof (so_pe _ _ _ (no_spec _ _ Hok _ _ Hs)). destruct (lookup_lt_is_Some_2 (ctxs nt) 0) as [x Hx]; [lia|].
  exists x. split; [done|]. specialize (N4 x ltac:(apply list_elem_of_In; by eapply list_elem_of_lookup_2)). unfold at_barrier in N4. by destruct (ph x).
Qed.
Lemma not_at_barrier (l : list ctx) : forallb at_barrier l = false → ∃ c x, l !! c = Some x ∧ at_barrier x = false.
Proof.
  induction l as [|x l IH]; simpl; [done|]. destruct (at_barrier x) eqn:Ex; simpl; [|by exists 0, x].
  intros H. destruct (IH H) as (c & y & Hc & Hy). by exists (S c), y.
Qed.
(** A node that can read is not stuck, or some node after it is not. *)
Lemma enabled_from k σ t nt : Inv σ → Live σ → length σ - t ≤ k → σ !! t = Some nt → finished nt = false →
  queue nt ≠ [] ∨ upstreams nt = 0 → ∃ e, internal e = true ∧ is_Some (step σ e).
Proof.
  intros HI HL. revert t nt. induction k as [|k IH]; intros t nt Hk Ht Hf Hq; [apply lookup_lt_Some in Ht; lia|].
  destruct (lookup_lt_is_Some_2 specs t) as [sp Hs]; [rewrite <-(v_len _ _ HI); by eapply lookup_lt_Some|].
  destruct (forallb at_barrier (ctxs nt)) eqn:Eb.
  { exists (Shutdown t). split; [done|]. simpl. unfold shutdown. rewrite Ht, Hs, Hf, Eb. simpl. eauto. }
  destruct (not_at_barrier _ Eb) as (c & x & Hc & Hx). destruct (writes x) as [|[t' d] ws] eqn:Hw.
  - exists (Run t c). split; [done|]. simpl. unfold Dataflow.run_node. rewrite Ht, Hs, Hc, Hw.
    assert (is_Some (run_context sp nt x)) as [[] ->]; [|by eexists]. unfold run_context.
    destruct (todo x) as [|y ys] eqn:Ety; [|eauto]. unfold progress_engine. destruct (ph x) eqn:Ep; [eauto| |].
    + destruct (queue nt); [|eauto]. destruct Hq as [|Hz]; [done|]. rewrite Hz. simpl. eauto.
    + unfold at_barrier in Hx. rewrite Ep, Ety, Hw in Hx. done.
  - assert ((t', d) ∈ writes x) as Hd by (rewrite Hw; set_solver).
    destruct (write_target specs capacity Hok _ _ _ _ _ _ _ _ HI Ht Hs Hc Hd) as (Hlt & nt' & st & Ht' & Hst & Hns).
    destruct (decide (length (queue nt') < capacity)) as [Hroom|Hfull].
    + exists (Run t c). split; [done|]. simpl. unfold Dataflow.run_node. rewrite Ht, Hs, Hc, Hw. unfold await_write.
      rewrite list_lookup_insert_ne by lia. rewrite Ht'. destruct (upstreams nt' =? 0); [eauto|].
      destruct (Nat.ltb_spec (length (queue nt')) capacity); [eauto|lia].
    + pose proof (no_capacity _ _ Hok) as Hcap. assert (queue nt' ≠ []) as Hne by (intros He; rewrite He in Hfull; simpl in Hfull; lia).
      apply (IH t' nt'); [apply lookup_lt_Some in Ht'; lia|done| |by left].
      destruct (finished nt') eqn:Ef; [|done]. destruct (finished_waits _ _ _ _ HI Ht' Hst Ef) as (y & Hy & Hp).
      by destruct (l_wait _ HL _ _ _ _ _ Ht' Hst Hns Hy Hp).
Qed.
Lemma closed_unfinished σ i nd : Inv σ → σ !! i = Some nd → finished nd = false →
  ∃ j nj, σ !! j = Some nj ∧ finished nj = false ∧ upstreams nj = 0.
Proof.
  intros HI. revert nd. induction (lt_wf i) as [i _ IH]. intros nd Hi Hf. destruct (decide (upstreams nd = 0)) as [Hz|Hz]; [eauto|].
  rewrite (v_ups _ _ HI _ _ Hi) in Hz. destruct (sum_imap_pos (holding specs i) σ) as (j & nj & Hj & Hh); [lia|].
  unfold holding in Hh. destruct (finished nj) eqn:Efj; [lia|].
  destruct (lookup_lt_is_Some_2 specs j) as [sj Hsj]; [rewrite <-(v_len _ _ HI); by eapply lookup_lt_Some|].
  rewrite (spec_of_Some _ _ _ Hsj) in Hh. apply (IH j) with nj; [|done|done].
  apply (so_up _ _ _ (no_spec _ _ Hok _ _ Hsj) i). by apply edges_to_in.
Qed.

(** ** What a finished network has done *)
Definition done_all σ : Prop := ∀ i nd, σ !! i = Some nd → finished nd = true.
Lemma at_barrier_idle (l : list ctx) : forallb at_barrier l = true →
  ∀ c x, l !! c = Some x → todo x = [] ∧ writes x = [].
Proof.
  rewrite forallb_forall. intros Hl c x Hc. specialize (Hl x ltac:(apply list_elem_of_In; by eapply list_elem_of_lookup_2)).
  unfold at_barrier in Hl. by destruct (ph x), (todo x), (writes x).
Qed.
Lemma concat_fmap_nil {A B} (f : A → list B) l : (∀ c y, l !! c = Some y → f y = []) → concat (f <$> l) = [].
Proof.
  induction l as [|y l IH]; intros Hf; simpl; [done|]. rewrite (Hf 0 y) by done. simpl. apply IH. intros c z Hc. by apply (Hf (S c)).
Qed.
Lemma done_inflight σ t : Inv σ → done_all σ → inflight σ t = [].
Proof.
  intros HI Hd. apply concat_imap_nil. intros i nd Hi. unfold pend. apply concat_fmap_nil. intros c x Hc.
  destruct (lookup_lt_is_Some_2 specs i) as [sp Hs]; [rewrite <-(v_len _ _ HI); by eapply lookup_lt_Some|].
  destruct (v_node _ _ HI _ _ _ Hi Hs) as [_ _ _ N4 _ _]. by destruct (at_barrier_idle _ (N4 (Hd _ _ Hi)) _ _ Hc) as [_ ->].
Qed.
Definition delivered σ : Prop := ∀ t nt sp, σ !! t = Some nt → specs !! t = Some sp →
  (is_source sp = false → queue nt = [] ∧ consumed nt ≡ₚ inflow specs σ t ∧ emitted nt ≡ₚ consumed nt ≫= stream sp) ∧
  (is_source sp = true → subscribed nt = true → emitted nt ≡ₚ concat (replicate (pe_count sp) (items sp))).
Lemma done_delivered σ : Inv σ → Live σ → done_all σ → delivered σ.
Proof.
  intros HI HL Hd t nt sp Ht Hs. destruct (v_node _ _ HI _ _ _ Ht Hs) as [_ _ _ N4 (lost & HN & Hl) _]. specialize (N4 (Hd _ _ Ht)).
  assert (concat (todo <$> ctxs nt) = []) as Htodo by (apply concat_fmap_nil; intros c x Hc; by destruct (at_barrier_idle _ N4 _ _ Hc)).
  rewrite Htodo in HN. unfold produced in HN. split; intros Hsrc; rewrite Hsrc in HN.
  - destruct (finished_waits _ _ _ _ HI Ht Hs (Hd _ _ Ht)) as (x & Hx & Hp).
    destruct (l_wait _ HL _ _ _ _ _ Ht Hs Hsrc Hx Hp) as [_ Hq]. split; [done|].
    rewrite (v_flow _ _ HI _ _ Ht), Hq, (done_inflight _ _ HI Hd). simpl. rewrite app_nil_r. split; [done|].
    rewrite Hl in HN by eauto using l_sub. by rewrite app_nil_r in HN.
  - intros Hsub. rewrite Hl in HN by done. by rewrite app_nil_r in HN.
Qed.
End ok.

(** C1: A network whose edges go forward never deadlocks: after any run without a
    kill (sources may be stopped at any time) either some context can take a step or
    shut down, or every node has shut down; and then every channel is empty, every
    node has read all that was emitted towards it, has emitted exactly what its
    stream makes of it, and a source that was not stopped has emitted everything. *)
Theorem network_drains es σ :
  network_ok specs capacity → forallb graceful es = true → run specs capacity es (initial specs) = Some σ →
  (∃ e, internal e = true ∧ is_Some (step σ e)) ∨ (done_all σ ∧ delivered σ).
Proof.
  intros Hok Hg Hr. destruct (run_Live Hok _ _ _ (Inv_initial specs) Live_initial Hg Hr) as [HI HL].
  destruct (decide (Forall (λ nd, finished nd = true) σ)) as [Hd|Hd].
  - right. assert (done_all σ) as Ha by (intros i nd Hi; rewrite Forall_lookup in Hd; eauto). split; [done|by apply done_delivered].
  - left. apply not_Forall_Exists in Hd; [|apply _]. apply Exists_exists in Hd as (nd & [i Hi]%list_elem_of_lookup & Hf).
    apply not_true_is_false in Hf. destruct (closed_unfinished Hok _ _ _ HI Hi Hf) as (j & nj & Hj & Hfj & Hz).
    by apply (enabled_from Hok (length σ - j) σ j nj); auto.
Qed.

(** ** Every run is bounded *)
Definition writes_cost (V : nat → D → nat) (l : list (nat * D)) : nat := sum_list_with (λ td, 1 + V td.1 td.2) l.
Definition emit_cost (V : nat → D → nat) (i : nat) d : nat := 1 + writes_cost V (route (spec_of specs i) d).
(** The steps an element in the channel of node [t] gives rise to. *)
Fixpoint weight (fuel : nat) (t : nat) d : nat :=
  match fuel with 0 => 0 | S fuel => 2 + sum_list_with (emit_cost (weight fuel) t) (stream (spec_of specs t) d) end.
Definition value (t : nat) d : nat := weight (length specs - t) t d.
Definition phase_cost (p : phase) : nat := match p with Checking => 2 | Reading => 1 | Waiting => 0 end.
Definition ctx_cost (i : nat) x : nat := sum_list_with (emit_cost value i) (todo x) + writes_cost value (writes x) + phase_cost (ph x).
Definition node_cost (i : nat) nd : nat :=
  sum_list_with (value i) (queue nd) + sum_list_with (ctx_cost i) (ctxs nd) + (if finished nd then 0 else 1).
Definition measure σ : nat := sum_list (imap node_cost σ).

Lemma weight_mono n m t d : n ≤ m → weight n t d ≤ weight m t d.
Proof.
  revert m t d. induction n as [|n IH]; intros [|m] t d Hle; simpl; try lia. apply (proj1 (Nat.add_le_mono_l _ _ 2)), sum_le. intros o _.
  apply (proj1 (Nat.add_le_mono_l _ _ 1)), sum_le. intros td _. apply (proj1 (Nat.add_le_mono_l _ _ 1)), IH. lia.
Qed.
Section measure.
Context (Hok : network_ok specs capacity).
Lemma value_step t sp d : specs !! t = Some sp → 2 + sum_list_with (emit_cost value t) (stream sp d) ≤ value t d.
Proof.
  intros Hs. pose proof (lookup_lt_Some _ _ _ Hs). unfold value at 2. destruct (length specs - t) as [|n] eqn:En; [lia|]. simpl.
  rewrite (spec_of_Some _ _ _ Hs). apply (proj1 (Nat.add_le_mono_l _ _ 2)), sum_le. intros o _.
  apply (proj1 (Nat.add_le_mono_l _ _ 1)), sum_le. intros [t' d'] Hin.
  apply (proj1 (Nat.add_le_mono_l _ _ 1)). rewrite (spec_of_Some _ _ _ Hs) in Hin. apply weight_mono. simpl.
  pose proof (so_route _ _ _ (no_spec _ _ Hok _ _ Hs) _ _ _ Hin) as Hh. destruct (so_up _ _ _ (no_spec _ _ Hok _ _ Hs) _ Hh) as [Hlt _]. lia.
Qed.
Lemma node_cost_ctx i nd c x x' : ctxs nd !! c = Some x → node_cost i (set_ctx c x' nd) + ctx_cost i x = node_cost i nd + ctx_cost i x'.
Proof. intros Hc. unfold node_cost. simpl. pose proof (sum_insert (ctx_cost i) _ _ _ x' Hc). lia. Qed.
Lemma context_cost i nd sp x nd' x' : specs !! i = Some sp → writes x = [] → run_context sp nd x = Some (nd', x') →
  ctxs nd' = ctxs nd ∧ node_cost i nd' + ctx_cost i x' < node_cost i nd + ctx_cost i x.
Proof.
  intros Hs Hw. unfold run_context. destruct (todo x) as [|d ds] eqn:Ht.
  - unfold progress_engine. destruct (ph x) eqn:Ep; [| |done].
    + intros [= <- <-]. split; [done|]. unfold ctx_cost, writes_cost. rewrite Ht, Hw, Ep. simpl. destruct (negb (is_source sp) && subscribed nd); simpl; lia.
    + destruct (queue nd) as [|y ys] eqn:Eq; [destruct (upstreams nd =? 0); [|done]|]; intros [= <- <-]; (split; [done|]); unfold ctx_cost, writes_cost; rewrite Ht, Hw, Ep; simpl; [lia|].
      unfold node_cost. simpl. rewrite Eq. simpl. pose proof (value_step i sp y Hs). destruct (subscribed nd); simpl; unfold writes_cost; simpl; lia.
  - assert (emit_cost value i d = 1 + writes_cost value (route sp d)) as He by (unfold emit_cost; by rewrite (spec_of_Some _ _ _ Hs)).
    unfold on_next. destruct (subscribed nd); intros [= <- <-]; (split; [done|]); unfold ctx_cost; rewrite Ht, Hw; cbn [sum_list_with todo writes ph]; rewrite He.
    + unfold node_cost. simpl. lia.
    + change (writes_cost value []) with 0. lia.
Qed.
Lemma sum_list_with_snoc {A} (f : A → nat) l y : sum_list_with f (l ++ [y]) = sum_list_with f l + f y.
Proof. induction l as [|z l IH]; simpl; lia. Qed.
Lemma measure_step σ e σ' : Inv σ → internal e = true → step σ e = Some σ' → measure σ' < measure σ.
Proof.
  intros HI Hin. unfold measure. destruct e as [i c|i|i|i]; simpl; try done.
  - intros Hr. destruct (run_node_inv specs capacity Hok _ _ _ _ HI Hr)
      as (nd & sp & x & Hi & Hs & Hc & [(t & d & ws & nt & Hw & Hlt & Ht & _ & ->)|(nd' & x' & Hw & Hx & ->)]).
    + set (nd' := set_ctx c _ nd). assert ((<[i := nd']> σ) !! t = Some nt) as Ht1 by (rewrite list_lookup_insert_ne by lia; done).
      pose proof (sum_imap_insert node_cost σ i nd nd' Hi) as S1.
      pose proof (sum_imap_insert node_cost _ t nt (set_queue (queue nt ++ [d]) nt) Ht1) as S2.
      pose proof (node_cost_ctx i nd c x (mkCtx (todo x) ws (ph x)) Hc) as S3. fold nd' in S3.
      assert (node_cost t (set_queue (queue nt ++ [d]) nt) = node_cost t nt + value t d) as S4
        by (unfold node_cost; simpl; rewrite sum_list_with_snoc; lia).
      assert (ctx_cost i x = ctx_cost i (mkCtx (todo x) ws (ph x)) + 1 + value t d) as S5
        by (unfold ctx_cost; rewrite Hw; unfold writes_cost; simpl; lia). lia.
    + destruct (context_cost i nd sp x nd' x' Hs Hw Hx) as [Hcx Hlt].
      pose proof (sum_imap_insert node_cost σ i nd (set_ctx c x' nd') Hi) as S1.
      pose proof (node_cost_ctx i nd' c x x') as S2. rewrite Hcx in S2. specialize (S2 Hc). lia.
  - unfold shutdown. destruct (σ !! i) as [nd|] eqn:Hi; [|done]. destruct (specs !! i) as [sp|]; [|done].
    destruct (finished nd) eqn:Ef; [done|]. destruct (forallb at_barrier (ctxs nd)); [|done]. intros [= <-].
    rewrite (imap_release node_cost) by done. pose proof (sum_imap_insert node_cost σ i nd (finish nd) Hi) as S1.
    unfold node_cost at 2 4 in S1. simpl in S1. rewrite Ef in S1. fold (finish nd). lia.
Qed.
Lemma measure_unsubscribe σ i : measure (alter unsubscribe i σ) = measure σ.
Proof.
  unfold measure. f_equal. apply list_eq. intros j. rewrite !list_lookup_imap. destruct (decide (i = j)) as [<-|Hn].
  - rewrite list_lookup_alter_eq. by destruct (σ !! i).
  - by rewrite list_lookup_alter_ne.
Qed.
Lemma measure_run es σ σ' : Inv σ → run specs capacity es σ = Some σ' → countb internal es + measure σ' ≤ measure σ.
Proof.
  revert σ. induction es as [|e es IH]; intros σ HI; simpl; [by intros [= <-]|]. destruct (step σ e) as [σ1|] eqn:E; simpl; [|done].
  intros Hr. pose proof (Inv_step specs capacity Hok _ _ _ HI E) as HI1. specialize (IH σ1 HI1 Hr). destruct (internal e) eqn:Ei.
  - pose proof (measure_step _ _ _ HI Ei E). lia.
  - assert (measure σ1 = measure σ); [|lia]. destruct e as [| |i|i]; try done; simpl in E; injection E as <-; [|apply measure_unsubscribe].
    unfold on_stop. destruct (specs !! i) as [sp|]; [|done]. destruct (is_source sp); [apply measure_unsubscribe|done].
Qed.
End measure.

(** C15: Every run of a network is bounded, whatever is stopped or killed on the
    way: the contexts take at most [measure] steps together, a number that depends
    only on the items of the sources and on what the streams make of them.  With
    [network_drains], every graceful run can be continued to one that has delivered
    everything. *)
Theorem network_terminates es σ :
  network_ok specs capacity → run specs capacity es (initial specs) = Some σ →
  countb internal es ≤ measure (initial specs).
Proof. intros Hok Hr. pose proof (measure_run Hok _ _ _ (Inv_initial specs) Hr). lia. Qed.

(** ** One writer: order *)

(** What the stream of a node makes of the elements it has read, in their
    order; a source has its items to emit. *)
Definition output (sp : spec (D := D)) (nd : node) : list D :=
  if is_source sp then items sp else consumed nd ≫= stream sp.

Section order.
Context (Hok : network_ok specs capacity) (i t : nat) (si : spec (D := D)).
Hypothesis Hsi : specs !! i = Some si.
Hypothesis Hone : pe_count si = 1.
Hypothesis Hti : t ∈ holds si.
Hypothesis Honly : ∀ j sj, specs !! j = Some sj → t ∈ holds sj → j = i.

Record ord_at ni nt x : Prop := {
  o_flow : arrivals t (emitted ni ≫= route si) = consumed nt ++ queue nt ++ arrivals t (writes x);
  o_emit : (subscribed ni = true → emitted ni ++ todo x = output si ni) ∧ emitted ni `prefix_of` output si ni;
}.
Definition Ord σ : Prop := ∀ ni nt x, σ !! i = Some ni → σ !! t = Some nt → ctxs ni !! 0 = Some x → ord_at ni nt x.

Lemma i_lt_t : i < t.
Proof. by destruct (so_up _ _ _ (no_spec _ _ Hok _ _ Hsi) t Hti). Qed.
Lemma only_ctx σ ni c x : Inv σ → σ !! i = Some ni → ctxs ni !! c = Some x → c = 0.
Proof.
  intros HI Hi Hc. destruct (v_node _ _ HI _ _ _ Hi Hsi) as [Hl _ _ _ _ _]. rewrite Hone in Hl. apply lookup_lt_Some in Hc. lia.
Qed.
Lemma Ord_context σ j nd sp c x nd' x' :
  Inv σ → Ord σ → σ !! j = Some nd → specs !! j = Some sp → ctxs nd !! c = Some x → writes x = [] →
  run_context sp nd x = Some (nd', x') → Ord (<[j := set_ctx c x' nd']> σ).
Proof.
  intros HI HO Hj Hs Hc Hw Hr ni nt y Hi Ht Hy. pose proof (lookup_lt_Some _ _ _ Hj) as Hlt. pose proof i_lt_t.
  assert (ctxs nd' = ctxs nd ∧ consumed nd' ++ queue nd' = consumed nd ++ queue nd) as [E1 E2].
  { revert Hr. unfold run_context, on_next, progress_engine. destruct (todo x); [destruct (ph x); [| |done]|].
    - by intros [= <- <-].
    - destruct (queue nd) eqn:Eq; [destruct (upstreams nd =? 0); [|done]|]; intros [= <- <-]; simpl; rewrite ?Eq, <-?app_assoc; done.
    - destruct (subscribed nd); by intros [= <- <-]. }
  destruct (decide (j = i)) as [->|Hji].
  - rewrite list_lookup_insert_eq in Hi by done. rewrite list_lookup_insert_ne in Ht by lia. simplify_eq. simpl in Hy.
    pose proof (only_ctx _ _ _ _ HI Hj Hc) as ->. rewrite E1, list_lookup_insert_eq in Hy by (by eapply lookup_lt_Some). simplify_eq.
    destruct (HO _ _ _ Hj Ht Hc) as [O1 O2]. rewrite Hw in O1. revert Hr. unfold run_context. destruct (todo x) as [|d ds] eqn:Etd.
    + unfold progress_engine. destruct (ph x) eqn:Ep; [| |done].
      * intros [= <- <-]. by split.
      * destruct (v_node _ _ HI _ _ _ Hj Hsi) as [_ _ _ _ _ N6].
        assert (is_source si = false) as Hsrc by (destruct (is_source si) eqn:E; [by destruct (N6 0 x eq_refl Hc)|done]).
        destruct (queue nd) as [|z zs]; [destruct (upstreams nd =? 0); [|done]|]; intros [= <- <-]; (split; [done|]); simpl; [done|].
        destruct O2 as [O2 O3]. unfold output in *. simpl. rewrite Hsrc in *. rewrite bind_app, bind_singleton.
        split; [|by apply prefix_app_r]. intros Hsub. specialize (O2 Hsub). rewrite Hsub. rewrite app_nil_r in O2. by rewrite O2.
    + unfold on_next. destruct (subscribed nd) eqn:Es; intros [= <- <-]; split; simpl.
      * rewrite bind_app, bind_singleton, arrivals_app, O1. by rewrite app_nil_r, <-app_assoc.
      * destruct O2 as [O2 _]. unfold output in *. simpl. rewrite <-O2 by done. rewrite <-app_assoc. split; [done|].
        simpl. rewrite (app_assoc _ [d] ds : _ = _). by eexists.
      * done.
      * split; [congruence|]. apply O2.
  - rewrite list_lookup_insert_ne in Hi by done. destruct (decide (j = t)) as [->|Hjt].
    + rewrite list_lookup_insert_eq in Ht by done. simplify_eq. destruct (HO _ _ _ Hi Hj Hy) as [O1 O2]. split; [|done].
      simpl. rewrite O1, !app_assoc. by rewrite E2.
    + rewrite list_lookup_insert_ne in Ht by done. eauto.
Qed.
Lemma Ord_write σ j nd sp c x t' d ws nt :
  Inv σ → Ord σ → σ !! j = Some nd → specs !! j = Some sp → ctxs nd !! c = Some x → writes x = (t', d) :: ws → σ !! t' = Some nt → j < t' →
  Ord (<[t' := set_queue (queue nt ++ [d]) nt]> (<[j := set_ctx c (mkCtx (todo x) ws (ph x)) nd]> σ)).
Proof.
  intros HI HO Hj Hs Hc Hw Ht' Hlt ni nt1 y Hi Ht Hy. pose proof i_lt_t as Hit.
  pose proof (lookup_lt_Some _ _ _ Hj) as Hjl. pose proof (lookup_lt_Some _ _ _ Ht') as Htl.
  assert (t' = t → j = i) as Hji.
  { intros ->. apply (Honly _ _ Hs). destruct (v_node _ _ HI _ _ _ Hj Hs) as [_ N2 _ _ _ _]. apply (N2 c x t d Hc). rewrite Hw. set_solver. }
  (* node i before the step *)
  assert (∃ n0 y0, σ !! i = Some n0 ∧ ctxs n0 !! 0 = Some y0 ∧ emitted ni = emitted n0 ∧ subscribed ni = subscribed n0 ∧ consumed ni = consumed n0 ∧
    todo y = todo y0 ∧ arrivals t (writes y0) = (if decide (j = i) then (if decide (t' = t) then [d] else []) else []) ++ arrivals t (writes y))
    as (n0 & y0 & Hi0 & Hy0 & E1 & E2 & E3 & E4 & E5).
  { destruct (decide (j = i)) as [->|Hn].
    - rewrite list_lookup_insert_ne in Hi by lia. rewrite list_lookup_insert_eq in Hi by done. simplify_eq.
      pose proof (only_ctx _ _ _ _ HI Hj Hc) as ->. simpl in Hy. rewrite list_lookup_insert_eq in Hy by (by eapply lookup_lt_Some). simplify_eq.
      exists nd, x. do 6 (split; [done|]). by rewrite Hw, arrivals_cons.
    - destruct (decide (t' = i)) as [->|Hn'].
      + rewrite list_lookup_insert_eq in Hi by (by rewrite length_insert). simplify_eq. exists nt, y. done.
      + rewrite !list_lookup_insert_ne in Hi by done. exists ni, y. done. }
  assert (∃ m0, σ !! t = Some m0 ∧ consumed nt1 = consumed m0 ∧ queue nt1 = queue m0 ++ (if decide (t' = t) then [d] else [])) as (m0 & Ht0 & E6 & E7).
  { destruct (decide (t' = t)) as [->|Hn].
    - rewrite list_lookup_insert_eq in Ht by (by rewrite length_insert). simplify_eq. eauto.
    - rewrite list_lookup_insert_ne in Ht by done. destruct (decide (j = t)) as [->|Hn'].
      + rewrite list_lookup_insert_eq in Ht by done. simplify_eq. exists nd. by rewrite app_nil_r.
      + rewrite list_lookup_insert_ne in Ht by done. exists nt1. by rewrite app_nil_r. }
  destruct (HO _ _ _ Hi0 Ht0 Hy0) as [O1 O2]. split; [|unfold output in *; by rewrite E1, E2, E3, E4].
  rewrite E1, O1, E5, E6, E7, <-!app_assoc. do 2 f_equal. destruct (decide (t' = t)) as [Ht1|]; [|by destruct (decide (j = i))].
  by rewrite decide_True by auto.
Qed.
(** Changes that leave the data alone. *)
Lemma Ord_back σ σ' :
  Ord σ → (∀ k nk, σ' !! k = Some nk → ∃ n0, σ !! k = Some n0 ∧ emitted nk = emitted n0 ∧ ctxs nk = ctxs n0 ∧
    queue nk = queue n0 ∧ consumed nk = consumed n0 ∧ (subscribed nk = true → subscribed n0 = true)) → Ord σ'.
Proof.
  intros HO Hback ni nt x Hi Ht Hx. destruct (Hback _ _ Hi) as (n0 & Hi0 & E1 & E2 & _ & E4 & E5).
  destruct (Hback _ _ Ht) as (m0 & Ht0 & _ & _ & E6 & E7 & _).
  rewrite E2 in Hx. destruct (HO _ _ _ Hi0 Ht0 Hx) as [O1 O2]. split; [by rewrite E1, E6, E7|]. unfold output in *. rewrite E1, E4. naive_solver.
Qed.
Lemma Ord_unsubscribe σ k : Ord σ → Ord (alter unsubscribe k σ).
Proof.
  intros HO. apply (Ord_back σ); [done|]. intros j nj. destruct (decide (k = j)) as [<-|Hn].
  - rewrite list_lookup_alter_eq. destruct (σ !! k) as [n0|]; [|done]. intros [= <-]. by exists n0.
  - rewrite list_lookup_alter_ne by done. intros Hj. by exists nj.
Qed.
Lemma Ord_step σ e σ' : Inv σ → Ord σ → step σ e = Some σ' → Ord σ'.
Proof.
  intros HI HO. destruct e as [j c|j|j|j]; simpl.
  - intros Hr. destruct (run_node_inv specs capacity Hok _ _ _ _ HI Hr)
      as (nd & sp & x & Hi & Hs & Hc & [(t' & d & ws & nt & Hw & Hlt & Ht & _ & ->)|(nd' & x' & Hw & Hx & ->)]);
      [by eapply Ord_write|by eapply Ord_context].
  - unfold shutdown. destruct (σ !! j) as [nd|] eqn:Hj; [|done]. destruct (specs !! j) as [sp|]; [|done].
    destruct (negb (finished nd) && forallb at_barrier (ctxs nd)); [|done]. intros [= <-]. apply (Ord_back σ); [done|].
    intros k nk. rewrite release_lookup. destruct (decide (k = j)) as [->|Hn].
    + rewrite list_lookup_insert_eq by (by eapply lookup_lt_Some). intros [= <-]. by exists nd.
    + rewrite list_lookup_insert_ne by done. destruct (σ !! k) as [n0|]; [|done]. intros [= <-]. by exists n0.
  - intros [= <-]. unfold on_stop. destruct (specs !! j) as [sp|]; [destruct (is_source sp)|]; try done. by apply Ord_unsubscribe.
  - intros [= <-]. by apply Ord_unsubscribe.
Qed.
Lemma Ord_initial : Ord (initial specs).
Proof.
  intros ni nt x Hi Ht Hx. destruct (initial_lookup specs _ _ Hi) as (sp & Hs & ->). destruct (initial_lookup specs _ _ Ht) as (st & _ & ->).
  simplify_eq. simpl in Hx. apply lookup_replicate in Hx as [-> _]. split; [done|]. unfold output. simpl. split; [by destruct (is_source si)|apply prefix_nil].
Qed.
Lemma run_Ord es σ σ' : Inv σ → Ord σ → run specs capacity es σ = Some σ' → Inv σ' ∧ Ord σ'.
Proof.
  revert σ. induction es as [|e es IH]; intros σ HI HO; simpl; [by intros [= <-]|].
  destruct (step σ e) as [σ1|] eqn:E; simpl; [|done]. apply IH; [by eapply Inv_step|by eapply Ord_step].
Qed.
End order.

(** C16: If node [i], which runs a single context, is the only one with an edge to
    node [t], then [t] reads what [i] emits towards it in the order in which [i]
    emits it: at any time, whatever is stopped or killed, what [t] has read,
    followed by its channel and by what [i] is writing, is the list of all that [i]
    emitted, routed to [t].  What [i] has emitted is a prefix of what its stream
    makes of the elements it read, in their order (of its items, for a source), and
    as long as [i] is subscribed nothing of this is lost: what it emitted followed by
    what it has still to emit is all of it.  So what [t] has read is always an
    initial part of the output of [i], routed to [t]. *)
Theorem single_writer_in_order es σ i t si ni nt :
  network_ok specs capacity → run specs capacity es (initial specs) = Some σ →
  specs !! i = Some si → pe_count si = 1 → t ∈ holds si → (∀ j sj, specs !! j = Some sj → t ∈ holds sj → j = i) →
  σ !! i = Some ni → σ !! t = Some nt →
  ∃ x, ctxs ni = [x] ∧
    arrivals t (emitted ni ≫= route si) = consumed nt ++ queue nt ++ arrivals t (writes x) ∧
    emitted ni `prefix_of` output si ni ∧
    (subscribed ni = true → emitted ni ++ todo x = output si ni) ∧
    consumed nt `prefix_of` arrivals t (output si ni ≫= route si).
Proof.
  intros Hok Hr Hsi Hone Hti Honly Hi Ht.
  destruct (run_Ord Hok i t si Hsi Hone Hti Honly _ _ _ (Inv_initial specs) (Ord_initial i t si Hsi) Hr) as [HI HO].
  destruct (v_node _ _ HI _ _ _ Hi Hsi) as [Hl _ _ _ _ _]. rewrite Hone in Hl.
  destruct (ctxs ni) as [|x [|]] eqn:Ec; try done. exists x. split; [done|].
  destruct (HO ni nt x Hi Ht) as [O1 [O2 O3]]; [by rewrite Ec|]. split_and!; [done..|].
  destruct O3 as [rest ->]. rewrite bind_app, arrivals_app, O1, <-app_assoc. by eexists.
Qed.

(** ** A writer whose reader was killed *)
Record stuck σ (i c t : nat) x d ws : Prop := {
  st_writer : ∃ ni, σ !! i = Some ni ∧ ctxs ni !! c = Some x;
  st_writes : writes x = (t, d) :: ws;
  st_reader : ∃ nt, σ !! t = Some nt ∧ finished nt = true ∧ capacity ≤ length (queue nt);
}.
Lemma stuck_insert σ i c t x d ws j nj nj' :
  stuck σ i c t x d ws → σ !! j = Some nj →
  (j = i → ctxs nj' !! c = ctxs nj !! c) → (j = t → finished nj' = finished nj ∧ queue nj' = queue nj) →
  stuck (<[j := nj']> σ) i c t x d ws.
Proof.
  intros [(ni & Hi & Hc) Hw (nt & Ht & Hf & Hq)] Hj H1 H2. pose proof (lookup_lt_Some _ _ _ Hj) as Hlt. split; [|done|].
  - destruct (decide (j = i)) as [->|Hn]; [exists nj'; simplify_eq; rewrite list_lookup_insert_eq, H1 by done; done|].
    exists ni. by rewrite list_lookup_insert_ne.
  - destruct (decide (j = t)) as [->|Hn]; [|exists nt; by rewrite list_lookup_insert_ne].
    exists nj'. simplify_eq. rewrite list_lookup_insert_eq by done. by destruct (H2 eq_refl) as [-> ->].
Qed.
Lemma stuck_unsubscribe σ i c t x d ws j : stuck σ i c t x d ws → stuck (alter unsubscribe j σ) i c t x d ws.
Proof.
  intros Hst. rewrite alter_as_insert. destruct (σ !! j) as [nd|] eqn:Hj; [|done]. by apply (stuck_insert _ _ _ _ _ _ _ j nd).
Qed.
Lemma stuck_step σ i c t x d ws e σ' :
  network_ok specs capacity → Inv σ → stuck σ i c t x d ws → step σ e = Some σ' → stuck σ' i c t x d ws.
Proof.
  intros Hok HI Hst. pose proof Hst as [(ni & Hi & Hc) Hw (nt & Ht & Hf & Hq)].
  destruct (lookup_lt_is_Some_2 specs t) as [st Hspt]; [rewrite <-(v_len _ _ HI); by eapply lookup_lt_Some|].
  pose proof (n_fin _ _ (v_node _ _ HI _ _ _ Ht Hspt) Hf) as Hbar.
  destruct e as [j c'|j|j|j]; simpl.
  - intros Hr. destruct (run_node_inv specs capacity Hok _ _ _ _ HI Hr)
      as (nd & sp & y & Hj & Hs & Hy & [(t' & d' & ws' & nt' & Hw' & Hlt & Ht' & Hroom & ->)|(nd' & y' & Hw' & Hx & ->)]).
    + assert (t' ≠ t) as Hne by (intros ->; simplify_eq; lia).
      assert (j ≠ t) as Hjt by (intros ->; simplify_eq; destruct (at_barrier_idle _ Hbar _ _ Hy); congruence).
      apply (stuck_insert _ _ _ _ _ _ _ t' nt'); [|by rewrite list_lookup_insert_ne by lia|done|done].
      apply (stuck_insert _ _ _ _ _ _ _ j nd); [done|done| |done]. intros ->. simpl.
      apply list_lookup_insert_ne. intros ->. simplify_eq. congruence.
    + assert (ctxs nd' = ctxs nd) as E1.
      { revert Hx. unfold run_context, on_next, progress_engine. destruct (todo y); [destruct (ph y)|]; repeat case_match; by intros [= <- <-]. }
      apply (stuck_insert _ _ _ _ _ _ _ j nd); [done|done| |].
      * intros ->. simpl. rewrite list_lookup_insert_ne; [by rewrite E1|]. intros ->. simplify_eq. congruence.
      * intros ->. simplify_eq. exfalso. destruct (at_barrier_idle _ Hbar _ _ Hy) as [Etd _].
        rewrite forallb_forall in Hbar. specialize (Hbar y ltac:(apply list_elem_of_In; by eapply list_elem_of_lookup_2)).
        revert Hx. unfold run_context. rewrite Etd. unfold at_barrier in Hbar. by destruct (ph y).
  - unfold shutdown. destruct (σ !! j) as [nd|] eqn:Hj; [|done]. destruct (specs !! j) as [sp|]; [|done].
    destruct (negb (finished nd) && forallb at_barrier (ctxs nd)) eqn:Eb; [|done]. apply andb_prop in Eb as [Ef Eb]. intros [= <-].
    assert (j ≠ i) as Hji by (intros ->; simplify_eq; destruct (at_barrier_idle _ Eb _ _ Hc); congruence).
    assert (j ≠ t) as Hjt by (intros ->; simplify_eq; by rewrite Hf in Ef). split; [|done|].
    + eexists. rewrite release_lookup, list_lookup_insert_ne, Hi by done. by split.
    + eexists. rewrite release_lookup, list_lookup_insert_ne, Ht by done. by split.
  - intros [= <-]. unfold on_stop. destruct (specs !! j) as [sp|]; [destruct (is_source sp)|]; try done. by apply stuck_unsubscribe.
  - intros [= <-]. by apply stuck_unsubscribe.
Qed.

(** C19: A kill can leave a writer behind for ever: once a killed node has shut down
    with a full channel, a context that is writing to that channel stays in
    [await_write] whatever happens afterwards, and its node never shuts down, so
    joining it does not return; the writer's edge keeps the channel open and its
    own kill only ends its subscription. *)
Theorem kill_strands_writer es es' σ σ' i ni c x t d ws nt :
  network_ok specs capacity → run specs capacity es (initial specs) = Some σ →
  σ !! i = Some ni → ctxs ni !! c = Some x → writes x = (t, d) :: ws →
  σ !! t = Some nt → finished nt = true → capacity ≤ length (queue nt) →
  run specs capacity es' σ = Some σ' →
  ∃ ni', σ' !! i = Some ni' ∧ finished ni' = false ∧ ctxs ni' !! c = Some x.
Proof.
  intros Hok Hr Hi Hc Hw Ht Hf Hq Hr'. pose proof (run_Inv specs capacity Hok _ _ _ (Inv_initial specs) Hr) as HI.
  assert (stuck σ i c t x d ws) as Hst by (split; eauto). clear Hi Hc Ht Hf Hq Hr. revert σ HI Hst Hr'.
  induction es' as [|e es' IH]; intros σ HI Hst; simpl.
  - intros [= <-]. destruct Hst as [(n0 & Hi & Hc) _ _]. exists n0. split; [done|]. split; [|done].
    destruct (lookup_lt_is_Some_2 specs i) as [sp Hs]; [rewrite <-(v_len _ _ HI); by eapply lookup_lt_Some|].
    destruct (finished n0) eqn:Ef; [|done]. pose proof (n_fin _ _ (v_node _ _ HI _ _ _ Hi Hs) Ef) as Hb.
    destruct (at_barrier_idle _ Hb _ _ Hc). congruence.
  - destruct (step σ e) as [σ1|] eqn:E; simpl; [|done]. apply IH; [by eapply Inv_step|by eapply stuck_step].
Qed.
End dataflow.

(** ** A concrete pipeline: a source, a node that emits two elements for each one,
    and a sink *)
Definition line : list (spec (D := Z)) :=
  [mkSpec true [1; 2; 3]%Z (λ _, []) 1 (λ d, [(1, d)]) [1];
   mkSpec false [] (λ d, [d; (10 * d)%Z]) 1 (λ d, [(2, d)]) [2];
   mkSpec false [] (λ _, []) 2 (λ _, []) []].
Lemma line_ok : network_ok line 1.
Proof.
  split; [| |done].
  - intros [|[|[|i]]] sp Hi; simplify_eq/=; (split; simpl; [lia|..]).
    + intros t ->%list_elem_of_singleton. split; [lia|by eexists].
    + intros d t d' [= -> ->]%list_elem_of_singleton. by apply list_elem_of_singleton.
    + intros t ->%list_elem_of_singleton. split; [lia|by eexists].
    + intros d t d' [= -> ->]%list_elem_of_singleton. by apply list_elem_of_singleton.
    + by intros t ?%not_elem_of_nil.
    + by intros d t d' ?%not_elem_of_nil.
  - intros [|[|[|t]]] sp Ht Hs; simplify_eq/=; unfold edges_to; simpl; lia.
Qed.
(** Takes the first event of the list that is possible, [n] times. *)
Fixpoint drive (n : nat) (candidates : list event) (σ : list (node (D := Z))) : list event :=
  match n with
  | 0 => []
  | S n =>
      match find (λ e, bool_decide (is_Some (step line 1 σ e))) candidates with
      | Some e => match step line 1 σ e with Some σ' => e :: drive n candidates σ' | None => [] end
      | None => []
      end
  end.
Definition whole_run : list event :=
  drive 100 [Run 0 0; Shutdown 0; Run 1 0; Shutdown 1; Run 2 0; Run 2 1; Shutdown 2] (initial line).
Definition final : list (node (D := Z)) := default [] (run line 1 whole_run (initial line)).
(** The sink is killed before it reads; the source is in its second write. *)
Definition killed_run : list event := [Run 0 0; Run 0 0; Run 0 0; Kill 0; Kill 1; Run 1 0; Shutdown 1].
Definition killed : list (node (D := Z)) := default [] (run line 1 killed_run (initial line)).

Lemma flow_conserved_witness :
  ∃ nt, final !! 2 = Some nt ∧ consumed nt = [1; 10; 2; 20; 3; 30]%Z ∧
    inflow line final 2 ≡ₚ consumed nt ++ queue nt ++ inflight final 2.
Proof.
  destruct (final !! 2) as [nt|] eqn:E; [|by vm_compute in E]. exists nt. split; [done|].
  split; [by vm_compute in E; injection E as <-|].
  apply (flow_conserved line 1 whole_run final 2 nt line_ok); [vm_compute; reflexivity|exact E].
Defined.
Lemma network_drains_witness :
  forallb graceful whole_run = true ∧ forallb finished final = true ∧
  ((∃ e, internal e = true ∧ is_Some (step line 1 final e)) ∨ (done_all final ∧ delivered line final)).
Proof.
  split; [vm_compute; reflexivity|]. split; [vm_compute; reflexivity|].
  apply (network_drains line 1 whole_run final line_ok); vm_compute; reflexivity.
Defined.
Lemma network_terminates_witness : countb internal whole_run = 46 ∧ 46 ≤ measure line (initial line).
Proof.
  split; [vm_compute; reflexivity|].
  apply (network_terminates line 1 whole_run final line_ok). vm_compute; reflexivity.
Defined.
Lemma single_writer_in_order_witness :
  ∃ n1 n2 x, final !! 1 = Some n1 ∧ final !! 2 = Some n2 ∧ ctxs n1 = [x] ∧
    arrivals 2 (emitted n1 ≫= λ d, [(2, d)]) = consumed n2 ++ queue n2 ++ arrivals 2 (writes x).
Proof.
  destruct (final !! 1) as [n1|] eqn:E1; [|by vm_compute in E1]. destruct (final !! 2) as [n2|] eqn:E2; [|by vm_compute in E2].
  destruct (single_writer_in_order line 1 whole_run final 1 2 (mkSpec false [] (λ d, [d; (10 * d)%Z]) 1 (λ d, [(2, d)]) [2]) n1 n2 line_ok)
    as (x & Hx & Hf & _); [vm_compute; reflexivity|reflexivity|reflexivity|by apply list_elem_of_singleton| |exact E1|exact E2|].
  2: { exists n1, n2, x. exact (conj eq_refl (conj eq_refl (conj Hx Hf))). }
  clear E1 E2. intros [|[|[|j]]] sj Hj Ht; simplify_eq/=; [by apply list_elem_of_singleton in Ht|done|by apply not_elem_of_nil in Ht].
Defined.
Lemma kill_strands_writer_witness :
  run line 1 killed_run (initial line) = Some killed ∧
  ∀ es' σ', run line 1 es' killed = Some σ' → ∃ n0, σ' !! 0 = Some n0 ∧ finished n0 = false.
Proof.
  split; [vm_compute; reflexivity|]. intros es' σ' Hr. destruct (killed !! 0) as [n0|] eqn:E0; [|by vm_compute in E0]. destruct (killed !! 1) as [n1|] eqn:E1; [|by vm_compute in E1].
  destruct (kill_strands_writer line 1 killed_run es' killed σ' 0 n0 0 (mkCtx [3%Z] [(1, 2%Z)] Checking) 1 2%Z [] n1 line_ok) as (n & Hn & Hf & _);
    [vm_compute; reflexivity|exact E0|by vm_compute in E0; injection E0 as <-|reflexivity|exact E1
    |by vm_compute in E1; injection E1 as <-|by vm_compute in E1; injection E1 as <-; simpl; lia|exact Hr|by exists n].
Defined.
