(* ===== verification/BlockManager.v ===== *)
(** * Memory blocks and the block manager

    Models [include/srf/memory/core/memory_block.hpp] and [block_manager.hpp]:
    blocks are kept in a map whose key is the address one past their end, so that
    the block of an address is the first one whose key is greater.  Addresses are
    64-bit integers; 0 is the null pointer. *)
From S2P Require Import Prelude StdMap.
Local Open Scope Z_scope.

(** ** memory_block *)
Record memory_block := mkBlock { m_data : Z; m_bytes : Z }.
#[export] Instance memory_block_eq_dec : EqDecision memory_block.
Proof. solve_decision. Defined.

Definition contains (b : memory_block) (ptr : Z) : bool :=
  negb (m_data b =? 0) && (m_data b <=? ptr) && (ptr <? m_data b + m_bytes b).
Definition distance (b : memory_block) (ptr : Z) : res Z :=
  if contains b ptr then Ret (u64 (ptr - m_data b)) else Throw "cannot compute distance - ptr not owned by block".
(** The null pointer when the distance is past the end. *)
Definition offset (b : memory_block) (d : Z) : Z :=
  if m_bytes b <? d then 0 else m_data b + d.

(** The two orders: by size, then by address; and by address. *)
Definition compare_size (b1 b2 : memory_block) : bool :=
  (m_bytes b1 <? m_bytes b2) || ((m_bytes b1 =? m_bytes b2) && (m_data b1 <? m_data b2)).
Definition compare_addr (b1 b2 : memory_block) : bool := m_data b1 <? m_data b2.

(** ** block_manager *)
Definition block_manager : Type := imap memory_block.

Fixpoint upper_bound (key : Z) (m : block_manager) : option (Z * memory_block) :=
  match m with
  | [] => None
  | (k, b) :: m' => if key <? k then Some (k, b) else upper_bound key m'
  end.
Definition find_entry (ptr : Z) (m : block_manager) : option (Z * memory_block) := upper_bound ptr m.
Definition find_block (ptr : Z) (m : block_manager) : option memory_block :=
  match find_entry ptr m with
  | Some (_, b) => if contains b ptr then Some b else None
  | None => None
  end.
Definition owns (addr : Z) (m : block_manager) : bool :=
  match find_block addr m with Some b => contains b addr | None => false end.

Definition add_block (b : memory_block) (m : block_manager) : res block_manager :=
  let key := u64 (m_data b + m_bytes b) in
  check (negb (owns (m_data b) m) && negb (owns (u64 (key - 1)) m))
    "block manager already owns a block with an overlapping address" ≫= λ _,
  Ret (imap_set key b m).
Definition drop_block (ptr : Z) (m : block_manager) : block_manager :=
  match find_entry ptr m with
  | Some (k, b) => if contains b ptr then imap_erase k m else m
  | None => m
  end.
Definition size (m : block_manager) : nat := length m.
Definition clear (m : block_manager) : block_manager := [].

(** ** What a block manager stands for *)
(** A block that an allocator can return: not null, not empty, within the address space. *)
Definition valid (b : memory_block) : Prop := 0 < m_data b ∧ 0 < m_bytes b ∧ m_data b + m_bytes b < 2 ^ 64.
Definition disjoint_blocks (b1 b2 : memory_block) : Prop := ∀ p, ¬ (contains b1 p = true ∧ contains b2 p = true).

Record managed (m : block_manager) : Prop := {
  mg_ok : imap_ok m;
  mg_key k b : (k, b) ∈ m → k = m_data b + m_bytes b ∧ valid b;
  mg_disjoint k1 b1 k2 b2 : (k1, b1) ∈ m → (k2, b2) ∈ m → k1 ≠ k2 → disjoint_blocks b1 b2;
}.

(** The reference: the owner of an address, found by looking at every block. *)
Definition owner (ptr : Z) (m : block_manager) : option memory_block :=
  snd <$> (snd <$> list_find (λ kb, contains kb.2 ptr = true) m).

Lemma contains_iff b p : valid b → contains b p = true ↔ m_data b ≤ p < m_data b + m_bytes b.
Proof. intros (H1 & H2 & H3). unfold contains. rewrite !andb_true_iff, negb_true_iff, Z.eqb_neq, Z.leb_le, Z.ltb_lt. lia. Qed.

Lemma upper_bound_Some p m k b :
  imap_ok m → upper_bound p m = Some (k, b) → (k, b) ∈ m ∧ p < k ∧ ∀ k' b', (k', b') ∈ m → p < k' → k ≤ k'.
Proof.
  induction m as [|[k0 b0] m IH]; intros Hok H; simpl in *; [done|].
  apply imap_ok_cons in Hok as [Hok Hlt]. destruct (Z.ltb_spec p k0) as [Hp|Hp]; simplify_eq.
  - split; [set_solver|]. split; [done|]. intros k' b' Hin Hk'. apply elem_of_cons in Hin as [?|Hin]; [naive_solver lia|].
    assert (k < k'); [|lia]. apply Hlt. apply list_elem_of_fmap. by exists (k', b').
  - destruct (IH Hok H) as (Hin & Hpk & Hmin). split; [set_solver|]. split; [done|].
    intros k' b' Hin' Hk'. apply elem_of_cons in Hin' as [?|Hin']; [simplify_eq; lia|]. eauto.
Qed.
Lemma upper_bound_None p m k b : upper_bound p m = None → (k, b) ∈ m → k ≤ p.
Proof.
  induction m as [|[k0 b0] m IH]; intros H Hin; simpl in *; [set_solver|].
  destruct (Z.ltb_spec p k0); [done|]. apply elem_of_cons in Hin as [?|Hin]; [simplify_eq; lia|auto].
Qed.

(** The block of an address, and no other, is the first one that ends after it. *)
Lemma find_block_iff m p b : managed m → find_block p m = Some b ↔ (∃ k, (k, b) ∈ m) ∧ contains b p = true.
Proof.
  intros Hm. unfold find_block, find_entry. split.
  - destruct (upper_bound p m) as [[k b']|] eqn:E; [|done]. destruct (contains b' p) eqn:Ec; [|done].
    intros [= ->]. apply upper_bound_Some in E as (Hin & _); [|apply Hm]. eauto.
  - intros [[k Hin] Hc]. destruct (mg_key _ Hm _ _ Hin) as [-> Hv]. apply contains_iff in Hc as Hr; [|done].
    destruct (upper_bound p m) as [[k' b']|] eqn:E.
    2: { pose proof (upper_bound_None _ _ _ _ E Hin). lia. }
    apply upper_bound_Some in E as (Hin' & Hp & Hmin); [|apply Hm]. specialize (Hmin _ _ Hin ltac:(lia)).
    destruct (mg_key _ Hm _ _ Hin') as [Hk' Hv'].
    destruct (decide (k' = m_data b + m_bytes b)) as [Heq|Hne].
    + assert (b' = b) as ->; [|by rewrite Hc].
      pose proof (imap_ok_NoDup _ (mg_ok _ Hm)) as Hnd. rewrite Heq in Hin'.
      eapply (NoDup_fst_inj m (_, b') (_, b)) in Hnd; [by simplify_eq|done|done|done].
    + exfalso. apply (mg_disjoint _ Hm _ _ _ _ Hin' Hin Hne (k' - 1)).
      rewrite !contains_iff by done. destruct Hv', Hv. lia.
Qed.

(** The search by end address finds the same block as looking at every
    block: [find_block] is equivalent to its reference. *)
Theorem find_block_is_owner m p : managed m → find_block p m = owner p m.
Proof.
  intros Hm. unfold owner. destruct (list_find _ m) as [[i [k b]]|] eqn:E; simpl.
  - apply list_find_Some in E as (Hi & Hc & _). apply find_block_iff; [done|]. simpl in Hc. split; [|done].
    exists k. by eapply list_elem_of_lookup_2.
  - apply list_find_None in E. destruct (find_block p m) as [b|] eqn:Ef; [|done].
    apply find_block_iff in Ef as [[k Hin] Hc]; [|done]. rewrite Forall_forall in E. by destruct (E (k, b) Hin).
Qed.

Lemma owns_iff m p : managed m → owns p m = true ↔ ∃ k b, (k, b) ∈ m ∧ contains b p = true.
Proof.
  intros Hm. unfold owns. split.
  - destruct (find_block p m) as [b|] eqn:E; [|done]. apply find_block_iff in E as [[k ?] ?]; [|done]. eauto.
  - intros (k & b & Hin & Hc). assert (find_block p m = Some b) as ->; [|done]. apply find_block_iff; eauto.
Qed.

Lemma managed_fresh_key m b :
  managed m → valid b → (∀ k b', (k, b') ∈ m → disjoint_blocks b' b) → imap_find (m_data b + m_bytes b) m = None.
Proof.
  intros Hm Hv Hd. destruct (imap_find _ m) as [b'|] eqn:E; [|done]. apply imap_find_Some in E; [|apply Hm].
  destruct (mg_key _ Hm _ _ E) as [Hk Hv']. exfalso. apply (Hd _ _ E (m_data b + m_bytes b - 1)).
  rewrite !contains_iff by done. destruct Hv, Hv'. lia.
Qed.

Lemma imap_set_elem (m : block_manager) k b k' b' :
  imap_ok m → imap_find k m = None → (k', b') ∈ imap_set k b m ↔ (k', b') = (k, b) ∨ (k', b') ∈ m.
Proof.
  intros Hm Hk. rewrite <-!imap_find_Some by (auto; by apply imap_set_ok). rewrite imap_find_set by done.
  case_decide as E; [subst; rewrite Hk|]; split; naive_solver.
Qed.

Lemma imap_set_length (m : block_manager) k b : imap_find k m = None → length (imap_set k b m) = S (length m).
Proof.
  induction m as [|[k0 b0] m IH]; intros Hk; [done|]. rewrite imap_find_cons in Hk. case_decide; [done|]. cbn [imap_set].
  destruct (Z.compare_spec k k0); [congruence|done|]. simpl. by rewrite IH.
Qed.
Lemma imap_erase_elem (m : block_manager) k k' b' : (k', b') ∈ imap_erase k m ↔ k' ≠ k ∧ (k', b') ∈ m.
Proof. unfold imap_erase. by rewrite list_elem_of_filter. Qed.
Lemma imap_erase_ok (m : block_manager) k : imap_ok m → imap_ok (imap_erase k m).
Proof.
  induction m as [|[k0 b0] m IH]; intros Hm; [done|]. apply imap_ok_cons in Hm as [Hm Hlt]. unfold imap_erase in *.
  rewrite filter_cons. case_decide; [|auto]. apply imap_ok_cons. split; [auto|]. intros x Hx. apply Hlt.
  apply list_elem_of_fmap in Hx as ([k' b'] & -> & Hx). apply list_elem_of_filter in Hx as [_ Hx]. apply list_elem_of_fmap. eauto.
Qed.

Lemma managed_add m b :
  managed m → valid b → (∀ k b', (k, b') ∈ m → disjoint_blocks b' b) → managed (imap_set (m_data b + m_bytes b) b m).
Proof.
  intros Hm Hv Hd. pose proof (managed_fresh_key _ _ Hm Hv Hd) as Hk. split.
  - apply imap_set_ok, Hm.
  - intros k' b' [?|Hin]%imap_set_elem; [by simplify_eq|by apply Hm|apply Hm|done].
  - intros k1 b1 k2 b2 Hin1 Hin2 Hne. apply imap_set_elem in Hin1; [|apply Hm|done]. apply imap_set_elem in Hin2; [|apply Hm|done].
    destruct Hin1 as [?|Hin1], Hin2 as [?|Hin2]; simplify_eq.
    + intros p [? ?]. by apply (Hd _ _ Hin2 p).
    + by apply (Hd _ _ Hin1).
    + by eapply Hm.
Qed.
Lemma managed_drop m q : managed m → managed (drop_block q m).
Proof.
  intros Hm. unfold drop_block. destruct (find_entry q m) as [[k b]|]; [|done]. destruct (contains b q); [|done]. split.
  - apply imap_erase_ok, Hm.
  - intros k' b' [_ Hin]%imap_erase_elem. by apply Hm.
  - intros k1 b1 k2 b2 [_ H1]%imap_erase_elem [_ H2]%imap_erase_elem. by apply Hm.
Qed.

(** Two blocks that own the same address are one. *)
Lemma managed_unique m k1 b1 k2 b2 p :
  managed m → (k1, b1) ∈ m → (k2, b2) ∈ m → contains b1 p = true → contains b2 p = true → k1 = k2 ∧ b1 = b2.
Proof.
  intros Hm H1 H2 C1 C2. assert (k1 = k2) as ->.
  { destruct (decide (k1 = k2)); [done|]. by destruct (mg_disjoint _ Hm _ _ _ _ H1 H2 n p). }
  split; [done|]. pose proof (imap_ok_NoDup _ (mg_ok _ Hm)) as Hnd. by eapply (NoDup_fst_inj m (_, b1) (_, b2)) in Hnd; [simplify_eq|..].
Qed.

(** The operations on what the manager stands for: a function from addresses to
    the block that owns them. *)
(** C20: refinement of a function from addresses to blocks.  Adding a block that
    overlaps no other always succeeds, makes the block the owner of its
    addresses and changes the owner of no other address; dropping an address
    takes its block, and only that one, away; both keep the manager well-formed. *)
Theorem block_manager_refines m :
  managed m →
  (∀ b, valid b → (∀ k b', (k, b') ∈ m → disjoint_blocks b' b) →
     ∃ m', add_block b m = Ret m' ∧ managed m' ∧ size m' = S (size m) ∧
       ∀ p, find_block p m' = if contains b p then Some b else find_block p m) ∧
  (∀ q, managed (drop_block q m) ∧
     ∀ p, find_block p (drop_block q m) =
       match find_block q m with Some b => if contains b p then None else find_block p m | None => find_block p m end).
Proof.
  intros Hm. split.
  - intros b Hv Hd. pose proof Hv as (Hv1 & Hv2 & Hv3). unfold add_block. rewrite u64_small by lia. rewrite (u64_small (_ - 1)) by lia.
    assert (∀ p, m_data b ≤ p < m_data b + m_bytes b → owns p m = false) as Ho.
    { intros p Hp. apply not_true_is_false. intros (k & b' & Hin & Hc)%owns_iff; [|done].
      apply (Hd _ _ Hin p). split; [done|]. by apply contains_iff. }
    rewrite !Ho by lia. simpl. exists (imap_set (m_data b + m_bytes b) b m).
    pose proof (managed_fresh_key _ _ Hm Hv Hd) as Hk. pose proof (managed_add _ _ Hm Hv Hd) as Hm'.
    split_and!; [done|done|by apply imap_set_length|]. intros p. apply option_eq. intros b0. rewrite find_block_iff by done.
    split.
    + intros [[k Hin] Hc]. apply imap_set_elem in Hin as [?|Hin]; [simplify_eq; by rewrite Hc| |apply Hm|done].
      destruct (contains b p) eqn:Ec; [by destruct (Hd _ _ Hin p)|]. apply find_block_iff; eauto.
    + destruct (contains b p) eqn:Ec.
      * intros [= <-]. split; [|done]. exists (m_data b + m_bytes b). apply imap_set_elem; [apply Hm|done|by left].
      * intros [[k Hin] Hc]%find_block_iff; [|done]. split; [|done]. exists k. apply imap_set_elem; [apply Hm|done|by right].
  - intros q. split; [by apply managed_drop|]. intros p. pose proof (managed_drop _ q Hm) as Hm'.
    unfold drop_block in *. unfold find_block at 2. destruct (find_entry q m) as [[k b]|] eqn:E; [|done].
    destruct (contains b q) eqn:Eq; [|done]. apply upper_bound_Some in E as (Hin & _); [|apply Hm].
    apply option_eq. intros b0. rewrite find_block_iff by done. split.
    + intros [[k' [Hne Hin']%imap_erase_elem] Hc]. destruct (contains b p) eqn:Ec.
      * destruct (managed_unique _ _ _ _ _ p Hm Hin Hin' Ec Hc). congruence.
      * apply find_block_iff; eauto.
    + destruct (contains b p) eqn:Ec; [done|]. intros [[k' Hin'] Hc]%find_block_iff; [|done]. split; [|done].
      exists k'. apply imap_erase_elem. split; [|done]. intros ->.
      pose proof (imap_ok_NoDup _ (mg_ok _ Hm)) as Hnd. eapply (NoDup_fst_inj m (_, b) (_, b0)) in Hnd; [simplify_eq; congruence|done..].
Qed.

(** [distance] and [offset] are inverse on the addresses of a block. *)
Lemma distance_offset b p : valid b → contains b p = true → ∃ d, distance b p = Ret d ∧ offset b d = p.
Proof.
  intros Hv Hc. unfold distance. rewrite Hc. apply contains_iff in Hc; [|done]. destruct Hv. eexists. split; [done|].
  unfold offset. rewrite u64_small by lia. destruct (Z.ltb_spec (m_bytes b) (p - m_data b)); lia.
Qed.

(** The overlap check of [add_block] looks only at the first and the last
    byte.  A block that encloses a managed one is accepted, and the manager then
    denies owning addresses of it. *)
Theorem add_enclosing_block_accepted :
  let inner := mkBlock 10 2 in let outer := mkBlock 5 15 in
  managed [(12, inner)] ∧ valid outer ∧
  add_block outer [(12, inner)] = Ret [(12, inner); (20, outer)] ∧
  contains outer 7 = true ∧ find_block 7 [(12, inner); (20, outer)] = None.
Proof.
  split; [|by split_and!; vm_compute]. split.
  - apply imap_ok_cons. split; [constructor|set_solver].
  - intros k b [= -> ->]%list_elem_of_singleton. done.
  - intros k1 b1 k2 b2 [= -> ->]%list_elem_of_singleton [= -> ->]%list_elem_of_singleton. done.
Qed.

Definition two_blocks : block_manager := [(12, mkBlock 10 2); (40, mkBlock 20 20)].
Lemma two_blocks_managed : managed two_blocks.
Proof.
  split.
  - apply imap_ok_cons. split; [|set_solver by lia]. apply imap_ok_cons. split; [constructor|set_solver].
  - intros k b [[= -> ->]|[= -> ->]%list_elem_of_singleton]%elem_of_cons; by vm_compute.
  - intros k1 b1 k2 b2 [[= -> ->]|[= -> ->]%list_elem_of_singleton]%elem_of_cons [[= -> ->]|[= -> ->]%list_elem_of_singleton]%elem_of_cons Hne p;
      try done; rewrite !contains_iff by (by vm_compute); simpl; lia.
Qed.
Lemma find_block_is_owner_witness : find_block 25 two_blocks = Some (mkBlock 20 20) ∧ find_block 25 two_blocks = owner 25 two_blocks.
Proof. split; [reflexivity|]. apply (find_block_is_owner two_blocks 25). exact two_blocks_managed. Defined.
Lemma block_manager_refines_witness :
  (∃ m', add_block (mkBlock 14 3) two_blocks = Ret m' ∧ managed m' ∧ size m' = 3%nat ∧
     ∀ p, find_block p m' = if contains (mkBlock 14 3) p then Some (mkBlock 14 3) else find_block p two_blocks) ∧
  find_block 11 (drop_block 10 two_blocks) = None.
Proof.
  destruct (block_manager_refines two_blocks two_blocks_managed) as [Ha Hd]. split.
  - apply (Ha (mkBlock 14 3)); [by vm_compute|].
    intros k b [[= -> ->]|[= -> ->]%list_elem_of_singleton]%elem_of_cons p; rewrite !contains_iff by (by vm_compute); simpl; lia.
  - destruct (Hd 10) as [_ H]. rewrite H. reflexivity.
Defined.
