(* ===== verification/Grpc.v ===== *)
(** * The gRPC asynchronous server call

    The server life cycles of [tools/nvrpc] drive a
    [grpc::ServerAsyncReaderWriter] (or [ServerAsyncResponseWriter]) by posting
    operations, each with a tag, to a completion queue.  gRPC is not part of the
    repository; what its documentation asks of a caller is the automaton of this
    file: a call is requested once, accepts at most one outstanding [Read] and
    one outstanding [Write], and is closed by one [Finish], posted when no other
    operation of the call is outstanding.  An operation that breaks a rule is
    [None].  The queue may complete the outstanding operations in any order,
    successfully or not: the models of the life cycles leave that to an
    arbitrary sequence of events. *)
From S2P Require Import Prelude.

Inductive grpc_status := StatusOK | StatusCANCELLED.
#[export] Instance grpc_status_eq_dec : EqDecision grpc_status.
Proof. solve_decision. Defined.
Definition status_ok (s : grpc_status) : bool := bool_decide (s = StatusOK).

Inductive call_phase := CallIdle | CallRequested | CallOpen | CallFinishing | CallFinished.
#[export] Instance call_phase_eq_dec : EqDecision call_phase.
Proof. solve_decision. Defined.

(** The outstanding operations of a call. *)
Record call := Call { phase : call_phase; rd : bool; wr : bool }.
#[export] Instance call_eq_dec : EqDecision call.
Proof. solve_decision. Defined.

Definition new_call : call := Call CallIdle false false.

Definition post_request (c : call) : option call :=
  match phase c with CallIdle => Some (Call CallRequested false false) | _ => None end.
Definition post_read (c : call) : option call :=
  match phase c, rd c with CallOpen, false => Some (Call CallOpen true (wr c)) | _, _ => None end.
Definition post_write (c : call) : option call :=
  match phase c, wr c with CallOpen, false => Some (Call CallOpen (rd c) true) | _, _ => None end.
Definition post_finish (c : call) : option call :=
  match phase c, rd c, wr c with
  | CallOpen, false, false => Some (Call CallFinishing false false)
  | _, _, _ => None
  end.

(** Completions: [None] when the operation is not outstanding. *)
Definition complete_read (c : call) : option call :=
  if rd c then Some (Call (phase c) false (wr c)) else None.
Definition complete_write (c : call) : option call :=
  if wr c then Some (Call (phase c) (rd c) false) else None.
(** The tag of the context itself: the request or the finish. *)
Definition complete_main (ok : bool) (c : call) : option call :=
  match phase c with
  | CallRequested => Some (Call (if ok then CallOpen else CallIdle) false false)
  | CallFinishing => Some (Call CallFinished (rd c) (wr c))
  | _ => None
  end.

(** Why a step of a life cycle has no successor: the [invalid state] exception,
    the front or back of an empty queue, a broken rule of the call, a null
    pointer, a promise that is already set or whose future is already taken, an
    object that has been deleted. *)
Inductive fault := InvalidState | EmptyQueue | GrpcMisuse | NullPointer | FutureError | UseAfterFree.
#[export] Instance fault_eq_dec : EqDecision fault.
Proof. solve_decision. Defined.

Inductive outcome (A : Type) := Disabled | Fault (f : fault) | Next (a : A).
Arguments Disabled {A}.
Arguments Fault {A} f.
Arguments Next {A} a.

Definition outcome_bind {A B} (m : outcome A) (k : A → outcome B) : outcome B :=
  match m with Disabled => Disabled | Fault f => Fault f | Next a => k a end.
Definition or_fault {A} (f : fault) (m : option A) : outcome A :=
  match m with Some a => Next a | None => Fault f end.
Definition or_disabled {A} (m : option A) : outcome A :=
  match m with Some a => Next a | None => Disabled end.

(** Running a sequence of events with a step function. *)
Section run.
Context {C E : Type} (step : C → E → outcome C).

Fixpoint run (c : C) (es : list E) : outcome C :=
  match es with [] => Next c | e :: es => outcome_bind (step c e) (λ c', run c' es) end.

(** The events of a run that satisfy a condition on the states they meet. *)
Fixpoint along (P : C → E → bool) (c : C) (es : list E) : bool :=
  match es with
  | [] => true
  | e :: es => P c e && match step c e with Next c' => along P c' es | _ => true end
  end.

Lemma run_app c es1 es2 : run c (es1 ++ es2) = outcome_bind (run c es1) (λ c', run c' es2).
Proof. revert c. induction es1 as [|e es1 IH]; intros c; simpl; [done|]. destruct (step c e); simpl; auto. Qed.

Lemma along_app P c es1 es2 :
  along P c (es1 ++ es2) = along P c es1 && match run c es1 with Next c' => along P c' es2 | _ => true end.
Proof. revert c. induction es1 as [|e es1 IH]; intros c; simpl; [done|]. destruct (step c e); simpl; rewrite ?IH, ?andb_true_r, ?andb_assoc; done. Qed.

(** An invariant kept by the permitted steps holds after every run of them, and
    what it excludes at a step is excluded in the whole run. *)
Lemma run_invariant (P : C → E → bool) (Inv : C → Prop) (bad : fault → Prop) :
  (∀ c e c', Inv c → P c e = true → step c e = Next c' → Inv c') →
  (∀ c e f, Inv c → P c e = true → step c e = Fault f → ¬ bad f) →
  ∀ es c, Inv c → along P c es = true →
    match run c es with Next c' => Inv c' | Fault f => ¬ bad f | Disabled => True end.
Proof.
  intros Hnext Hfault. induction es as [|e es IH]; intros c Hc Ha; simpl in *; [done|].
  apply andb_prop in Ha as [HP Ha]. destruct (step c e) as [|f|c'] eqn:Es; simpl; [done| |].
  - by eapply Hfault.
  - apply IH; [by eapply Hnext|done].
Qed.
End run.
