(* ===== verification/Streaming.v ===== *)
(** * The streaming life cycle of the RPC server

    Models [tools/nvrpc/include/nvrpc/life_cycle_streaming.h]: the server side of
    a bidirectional RPC, on which the control plane is built.  A context posts
    reads, writes and one finish to its call ([Grpc]) and hands each request to
    the user, who answers through a reference-counted [ServerStream].

    The fields of the context are those of the source; a [shared_ptr] or
    [weak_ptr] to a [ServerStream] is the index of the object in [m_streams].
    Every critical section of [m_QueueMutex] is one step.  What a section leaves
    to do after the lock is released ([ForwardProgress]: the write, the callback,
    the read, the finish, the destruction of the callback) is a list of
    [microop]s of its thread, and [EStep] runs the next one of any thread, so
    that all interleavings of completion queue, users and callbacks are
    sequences of events.  A user may call a [ServerStream] whenever someone owns
    it.  The ghost fields of [config] record what was received, delivered,
    pushed and written. *)
From S2P Require Import Prelude Grpc.

Section streaming.
Context {Request Response : Type} (default : Request).

(** ** Data *)
Inductive StateFn :=
| StateInitializedDone | StateReadDone | StateWriteDone | StateFinishedDone | StateInvalid.

(** A [ServerStream] object: its owners ([shared_ptr] count), how many of them
    are held by users, and whether [m_Stream] is still set. *)
Record ServerStream := SStream { ss_refs : nat; ss_user : nat; ss_connected : bool }.

Record LifeCycleStreaming := LC {
  m_NextState : StateFn;
  m_ReadNextState : StateFn;
  m_WriteNextState : StateFn;
  m_RequestQueue : list Request;
  m_ResponseQueue : list Response;
  m_ServerStream : option nat;
  m_ExternalStream : option nat;
  m_Reading : bool;
  m_Writing : bool;
  m_Finishing : bool;
  m_ReadsDone : bool;
  m_WritesDone : bool;
  m_ReadsFinished : bool;
  m_BlockFinish : bool;
  m_Status : option grpc_status;
  m_streams : list ServerStream;
}.

Definition set_m_NextState (v : StateFn) (s : LifeCycleStreaming) : LifeCycleStreaming :=
  LC v (m_ReadNextState s) (m_WriteNextState s) (m_RequestQueue s) (m_ResponseQueue s) (m_ServerStream s) (m_ExternalStream s) (m_Reading s) (m_Writing s) (m_Finishing s) (m_ReadsDone s) (m_WritesDone s) (m_ReadsFinished s) (m_BlockFinish s) (m_Status s) (m_streams s).
Definition set_m_ReadNextState (v : StateFn) (s : LifeCycleStreaming) : LifeCycleStreaming :=
  LC (m_NextState s) v (m_WriteNextState s) (m_RequestQueue s) (m_ResponseQueue s) (m_ServerStream s) (m_ExternalStream s) (m_Reading s) (m_Writing s) (m_Finishing s) (m_ReadsDone s) (m_WritesDone s) (m_ReadsFinished s) (m_BlockFinish s) (m_Status s) (m_streams s).
Definition set_m_WriteNextState (v : StateFn) (s : LifeCycleStreaming) : LifeCycleStreaming :=
  LC (m_NextState s) (m_ReadNextState s) v (m_RequestQueue s) (m_ResponseQueue s) (m_ServerStream s) (m_ExternalStream s) (m_Reading s) (m_Writing s) (m_Finishing s) (m_ReadsDone s) (m_WritesDone s) (m_ReadsFinished s) (m_BlockFinish s) (m_Status s) (m_streams s).
Definition set_m_RequestQueue (v : list Request) (s : LifeCycleStreaming) : LifeCycleStreaming :=
  LC (m_NextState s) (m_ReadNextState s) (m_WriteNextState s) v (m_ResponseQueue s) (m_ServerStream s) (m_ExternalStream s) (m_Reading s) (m_Writing s) (m_Finishing s) (m_ReadsDone s) (m_WritesDone s) (m_ReadsFinished s) (m_BlockFinish s) (m_Status s) (m_streams s).
Definition set_m_ResponseQueue (v : list Response) (s : LifeCycleStreaming) : LifeCycleStreaming :=
  LC (m_NextState s) (m_ReadNextState s) (m_WriteNextState s) (m_RequestQueue s) v (m_ServerStream s) (m_ExternalStream s) (m_Reading s) (m_Writing s) (m_Finishing s) (m_ReadsDone s) (m_WritesDone s) (m_ReadsFinished s) (m_BlockFinish s) (m_Status s) (m_streams s).
Definition set_m_ServerStream (v : option nat) (s : LifeCycleStreaming) : LifeCycleStreaming :=
  LC (m_NextState s) (m_ReadNextState s) (m_WriteNextState s) (m_RequestQueue s) (m_ResponseQueue s) v (m_ExternalStream s) (m_Reading s) (m_Writing s) (m_Finishing s) (m_ReadsDone s) (m_WritesDone s) (m_ReadsFinished s) (m_BlockFinish s) (m_Status s) (m_streams s).
Definition set_m_ExternalStream (v : option nat) (s : LifeCycleStreaming) : LifeCycleStreaming :=
  LC (m_NextState s) (m_ReadNextState s) (m_WriteNextState s) (m_RequestQueue s) (m_ResponseQueue s) (m_ServerStream s) v (m_Reading s) (m_Writing s) (m_Finishing s) (m_ReadsDone s) (m_WritesDone s) (m_ReadsFinished s) (m_BlockFinish s) (m_Status s) (m_streams s).
Definition set_m_Reading (v : bool) (s : LifeCycleStreaming) : LifeCycleStreaming :=
  LC (m_NextState s) (m_ReadNextState s) (m_WriteNextState s) (m_RequestQueue s) (m_ResponseQueue s) (m_ServerStream s) (m_ExternalStream s) v (m_Writing s) (m_Finishing s) (m_ReadsDone s) (m_WritesDone s) (m_ReadsFinished s) (m_BlockFinish s) (m_Status s) (m_streams s).
Definition set_m_Writing (v : bool) (s : LifeCycleStreaming) : LifeCycleStreaming :=
  LC (m_NextState s) (m_ReadNextState s) (m_WriteNextState s) (m_RequestQueue s) (m_ResponseQueue s) (m_ServerStream s) (m_ExternalStream s) (m_Reading s) v (m_Finishing s) (m_ReadsDone s) (m_WritesDone s) (m_ReadsFinished s) (m_BlockFinish s) (m_Status s) (m_streams s).
Definition set_m_Finishing (v : bool) (s : LifeCycleStreaming) : LifeCycleStreaming :=
  LC (m_NextState s) (m_ReadNextState s) (m_WriteNextState s) (m_RequestQueue s) (m_ResponseQueue s) (m_ServerStream s) (m_ExternalStream s) (m_Reading s) (m_Writing s) v (m_ReadsDone s) (m_WritesDone s) (m_ReadsFinished s) (m_BlockFinish s) (m_Status s) (m_streams s).
Definition set_m_ReadsDone (v : bool) (s : LifeCycleStreaming) : LifeCycleStreaming :=
  LC (m_NextState s) (m_ReadNextState s) (m_WriteNextState s) (m_RequestQueue s) (m_ResponseQueue s) (m_ServerStream s) (m_ExternalStream s) (m_Reading s) (m_Writing s) (m_Finishing s) v (m_WritesDone s) (m_ReadsFinished s) (m_BlockFinish s) (m_Status s) (m_streams s).
Definition set_m_WritesDone (v : bool) (s : LifeCycleStreaming) : LifeCycleStreaming :=
  LC (m_NextState s) (m_ReadNextState s) (m_WriteNextState s) (m_RequestQueue s) (m_ResponseQueue s) (m_ServerStream s) (m_ExternalStream s) (m_Reading s) (m_Writing s) (m_Finishing s) (m_ReadsDone s) v (m_ReadsFinished s) (m_BlockFinish s) (m_Status s) (m_streams s).
Definition set_m_ReadsFinished (v : bool) (s : LifeCycleStreaming) : LifeCycleStreaming :=
  LC (m_NextState s) (m_ReadNextState s) (m_WriteNextState s) (m_RequestQueue s) (m_ResponseQueue s) (m_ServerStream s) (m_ExternalStream s) (m_Reading s) (m_Writing s) (m_Finishing s) (m_ReadsDone s) (m_WritesDone s) v (m_BlockFinish s) (m_Status s) (m_streams s).
Definition set_m_BlockFinish (v : bool) (s : LifeCycleStreaming) : LifeCycleStreaming :=
  LC (m_NextState s) (m_ReadNextState s) (m_WriteNextState s) (m_RequestQueue s) (m_ResponseQueue s) (m_ServerStream s) (m_ExternalStream s) (m_Reading s) (m_Writing s) (m_Finishing s) (m_ReadsDone s) (m_WritesDone s) (m_ReadsFinished s) v (m_Status s) (m_streams s).
Definition set_m_Status (v : option grpc_status) (s : LifeCycleStreaming) : LifeCycleStreaming :=
  LC (m_NextState s) (m_ReadNextState s) (m_WriteNextState s) (m_RequestQueue s) (m_ResponseQueue s) (m_ServerStream s) (m_ExternalStream s) (m_Reading s) (m_Writing s) (m_Finishing s) (m_ReadsDone s) (m_WritesDone s) (m_ReadsFinished s) (m_BlockFinish s) v (m_streams s).
Definition set_m_streams (v : list ServerStream) (s : LifeCycleStreaming) : LifeCycleStreaming :=
  LC (m_NextState s) (m_ReadNextState s) (m_WriteNextState s) (m_RequestQueue s) (m_ResponseQueue s) (m_ServerStream s) (m_ExternalStream s) (m_Reading s) (m_Writing s) (m_Finishing s) (m_ReadsDone s) (m_WritesDone s) (m_ReadsFinished s) (m_BlockFinish s) (m_Status s) v.


(** A lambda that [EvaluateState] builds, with the stream that it captures. *)
Inductive callback :=
| CbRequest (r : Request) (stream : option nat)
| CbFinished (stream : option nat).
Definition cb_stream (cb : callback) : option nat :=
  match cb with CbRequest _ s => s | CbFinished s => s end.

(** The tuple of [EvaluateState], and a callback that it dropped. *)
Record Actions := mkActions {
  should_read : bool;
  should_write : bool;
  should_execute : option callback;
  should_finish : bool;
  dropped : option nat;
}.

Inductive microop :=
| OWrite | OExec (cb : callback) | OReturn | ORead | OFinish
| ORelease (g : nat)                                  (* a stream owner is destroyed *)
| ODeleter (connected : bool) | ODestroy (connected : bool)
| OUnblock | OCancel | OEval
| OFinDrop | OInvalidate                              (* the rest of StateFinishedDone *)
| OReset | OQueue.

Record config := Config {
  lc : LifeCycleStreaming;
  m_Running : bool;
  the_call : call;
  threads : list (list microop);
  received : list Request;
  delivered : list Request;
  finished_hook : nat;
  executing : nat;
  pushed : list Response;
  written : list Response;
}.

Definition set_lc (v : LifeCycleStreaming) (s : config) : config :=
  Config v (m_Running s) (the_call s) (threads s) (received s) (delivered s) (finished_hook s) (executing s) (pushed s) (written s).
Definition set_m_Running (v : bool) (s : config) : config :=
  Config (lc s) v (the_call s) (threads s) (received s) (delivered s) (finished_hook s) (executing s) (pushed s) (written s).
Definition set_the_call (v : call) (s : config) : config :=
  Config (lc s) (m_Running s) v (threads s) (received s) (delivered s) (finished_hook s) (executing s) (pushed s) (written s).
Definition set_threads (v : list (list microop)) (s : config) : config :=
  Config (lc s) (m_Running s) (the_call s) v (received s) (delivered s) (finished_hook s) (executing s) (pushed s) (written s).
Definition set_received (v : list Request) (s : config) : config :=
  Config (lc s) (m_Running s) (the_call s) (threads s) v (delivered s) (finished_hook s) (executing s) (pushed s) (written s).
Definition set_delivered (v : list Request) (s : config) : config :=
  Config (lc s) (m_Running s) (the_call s) (threads s) (received s) v (finished_hook s) (executing s) (pushed s) (written s).
Definition set_finished_hook (v : nat) (s : config) : config :=
  Config (lc s) (m_Running s) (the_call s) (threads s) (received s) (delivered s) v (executing s) (pushed s) (written s).
Definition set_executing (v : nat) (s : config) : config :=
  Config (lc s) (m_Running s) (the_call s) (threads s) (received s) (delivered s) (finished_hook s) v (pushed s) (written s).
Definition set_pushed (v : list Response) (s : config) : config :=
  Config (lc s) (m_Running s) (the_call s) (threads s) (received s) (delivered s) (finished_hook s) (executing s) v (written s).
Definition set_written (v : list Response) (s : config) : config :=
  Config (lc s) (m_Running s) (the_call s) (threads s) (received s) (delivered s) (finished_hook s) (executing s) (pushed s) v.


(** ** Pointers *)
Definition stream_at (g : nat) (s : LifeCycleStreaming) : option ServerStream := m_streams s !! g.
Definition expired (s : LifeCycleStreaming) : bool :=
  match m_ExternalStream s ≫= λ g, stream_at g s with
  | Some st => ss_refs st =? 0
  | None => true
  end.
Definition on_stream (g : nat) (f : ServerStream → ServerStream) (s : LifeCycleStreaming) : LifeCycleStreaming :=
  set_m_streams (alter f g (m_streams s)) s.
Definition own (st : ServerStream) : ServerStream := SStream (S (ss_refs st)) (ss_user st) (ss_connected st).
Definition disown (st : ServerStream) : ServerStream := SStream (pred (ss_refs st)) (ss_user st) (ss_connected st).
Definition disconnect (st : ServerStream) : ServerStream := SStream (ss_refs st) (ss_user st) false.
(** Capturing a (possibly null) pointer in a lambda. *)
Definition capture (p : option nat) (s : LifeCycleStreaming) : LifeCycleStreaming :=
  match p with Some g => on_stream g own s | None => s end.
(** Destroying an owner; the last one runs the custom deleter. *)
Definition release (g : nat) (s : LifeCycleStreaming) : LifeCycleStreaming * list microop :=
  let s' := on_stream g disown s in
  match stream_at g s' with
  | Some st => (s', if ss_refs st =? 0 then [ODeleter (ss_connected st)] else [])
  | None => (s', [])
  end.

(** ** Progress engine *)
Definition no_actions : Actions := mkActions false false None false None.

Definition ev_read (s : LifeCycleStreaming) : LifeCycleStreaming * Actions :=
  if negb (m_Reading s) && negb (m_ReadsDone s) then
    match m_RequestQueue s ++ [default] with
    | request :: q =>
        (capture (m_ServerStream s) (set_m_ReadNextState StateReadDone (set_m_RequestQueue q (set_m_Reading true s))),
         mkActions true false (Some (CbRequest request (m_ServerStream s))) false None)
    | [] => (s, no_actions)
    end
  else (s, no_actions).

(** [None]: the DCHECK on [m_ServerStream] fails. *)
Definition ev_finished (sa : LifeCycleStreaming * Actions) : option (LifeCycleStreaming * Actions) :=
  let '(s, a) := sa in
  if negb (m_Reading s) && m_ReadsDone s && negb (m_ReadsFinished s)
     && negb (bool_decide (is_Some (m_Status s)) || expired s)
  then
    match m_ServerStream s with
    | None => None
    | Some g =>
        (* the lambda owns the stream in place of the context *)
        Some (set_m_ServerStream None (set_m_ReadsFinished true s),
              mkActions (should_read a) (should_write a) (Some (CbFinished (Some g))) (should_finish a) (dropped a))
    end
  else Some (s, a).

Definition ev_cancel (sa : LifeCycleStreaming * Actions) : LifeCycleStreaming * Actions :=
  let '(s, a) := sa in
  match m_Status s with
  | Some st =>
      if status_ok st then (s, a)
      else (s, mkActions (should_read a) (should_write a) None (should_finish a) (should_execute a ≫= cb_stream))
  | None => (s, a)
  end.

Definition ev_write (sa : LifeCycleStreaming * Actions) : LifeCycleStreaming * Actions :=
  let '(s, a) := sa in
  if negb (m_Writing s) && negb (bool_decide (m_ResponseQueue s = [])) then
    (set_m_WriteNextState StateWriteDone (set_m_Writing true s),
     mkActions (should_read a) true (should_execute a) (should_finish a) (dropped a))
  else (s, a).

Definition ev_finish (sa : LifeCycleStreaming * Actions) : LifeCycleStreaming * Actions :=
  let '(s, a) := sa in
  if negb (m_Reading s) && negb (m_Writing s) && negb (m_Finishing s)
     && bool_decide (is_Some (m_Status s)) && negb (m_BlockFinish s)
  then
    (set_m_NextState StateFinishedDone (set_m_Finishing true s),
     mkActions (should_read a) (should_write a) (should_execute a) true (dropped a))
  else (s, a).

Definition EvaluateState (s : LifeCycleStreaming) : option (LifeCycleStreaming * Actions) :=
  sa ← ev_finished (ev_read s); Some (ev_finish (ev_write (ev_cancel sa))).

Definition ForwardProgress (a : Actions) : list microop :=
  match dropped a with Some g => [ORelease g] | None => [] end
  ++ (if should_write a then [OWrite] else [])
  ++ match should_execute a with Some cb => [OExec cb] | None => [] end
  ++ (if should_read a then [ORead] else [])
  ++ (if should_finish a then [OFinish] else [])
  ++ match should_execute a ≫= cb_stream with Some g => [ORelease g] | None => [] end.

(** The end of a critical section: evaluate, then the actions outside the lock. *)
Definition progress (c : config) : outcome (config * list microop) :=
  match EvaluateState (lc c) with
  | None => Fault NullPointer
  | Some (s, a) => Next (set_lc s c, ForwardProgress a)
  end.

(** ** User actions *)
Definition WriteResponse (r : Response) (c : config) : outcome (config * list microop) :=
  progress (set_pushed (pushed c ++ [r]) (set_lc (set_m_ResponseQueue (m_ResponseQueue (lc c) ++ [r]) (lc c)) c)).

Definition close_fields (status : grpc_status) (s : LifeCycleStreaming) : LifeCycleStreaming :=
  let s := set_m_Status (Some status) (set_m_WritesDone true s) in
  if m_ReadsDone s then s else set_m_ResponseQueue [] s.
Definition CloseStream (status : grpc_status) (c : config) : outcome (config * list microop) :=
  progress (set_lc (close_fields status (lc c)) c).
Definition FinishResponse : config → outcome (config * list microop) := CloseStream StatusOK.
Definition CancelResponse : config → outcome (config * list microop) := CloseStream StatusCANCELLED.

Definition BlockFinish (c : config) : config := set_lc (set_m_BlockFinish true (lc c)) c.
(** The [actions] forwarded here were never computed: they are all false. *)
Definition UnblockFinish (c : config) : config * list microop :=
  (set_lc (set_m_BlockFinish false (lc c)) c, ForwardProgress no_actions).

(** The methods of [ServerStream]. *)
Inductive user_op := UWrite (r : Response) | UCancel | UFinish | UBlock | UUnblock.

Definition user_call (g : nat) (op : user_op) (c : config) : outcome (config * list microop) :=
  match stream_at g (lc c) with
  | None => Disabled
  | Some st =>
      if negb (ss_connected st) then Next (c, [])
      else
        match op with
        | UWrite r => WriteResponse r c
        | UCancel => outcome_bind (CancelResponse c) (λ '(c', ops), Next (set_lc (on_stream g disconnect (lc c')) c', ops))
        | UFinish => outcome_bind (FinishResponse c) (λ '(c', ops), Next (set_lc (on_stream g disconnect (lc c')) c', ops))
        | UBlock => Next (BlockFinish c, [])
        | UUnblock => Next (UnblockFinish c)
        end
  end.

(** ** Reset *)
(** The ghost fields are those of the current call. *)
Definition clear_logs (c : config) : config :=
  Config (lc c) (m_Running c) (the_call c) (threads c) [] [] 0 (executing c) [] [].
Definition Reset (c : config) : config * list microop :=
  let s := lc c in
  let '(s, ops) := match m_ServerStream s with Some g => release g s | None => (s, []) end in
  (set_the_call new_call (clear_logs
     (set_lc (LC StateInitializedDone StateInvalid StateInvalid [] [] None None
                 false false false false false false (m_BlockFinish s) None (m_streams s)) c)),
   ops ++ [OQueue]).

(** ** One operation outside the lock *)
Definition with_call (f : call → option call) (c : config) : outcome config :=
  outcome_bind (or_fault GrpcMisuse (f (the_call c))) (λ k, Next (set_the_call k c)).

Definition exec_op (op : microop) (c : config) : outcome (config * list microop) :=
  match op with
  | OWrite =>
      match m_ResponseQueue (lc c) with
      | [] => Fault EmptyQueue
      | r :: _ => outcome_bind (with_call post_write c) (λ c, Next (set_written (written c ++ [r]) c, []))
      end
  | OExec (CbRequest r _) => Next (set_executing (S (executing c)) (set_delivered (delivered c ++ [r]) c), [OReturn])
  | OExec (CbFinished _) => Next (set_executing (S (executing c)) (set_finished_hook (S (finished_hook c)) c), [OReturn])
  | OReturn => Next (set_executing (pred (executing c)) c, [])
  | ORead =>
      match last (m_RequestQueue (lc c)) with
      | None => Fault EmptyQueue
      | Some _ => outcome_bind (with_call post_read c) (λ c, Next (c, []))
      end
  | OFinish =>
      match m_Status (lc c) with
      | None => Fault NullPointer
      | Some _ => outcome_bind (with_call post_finish c) (λ c, Next (c, []))
      end
  | ORelease g => let '(s, ops) := release g (lc c) in Next (set_lc s c, ops)
  | ODeleter connected => outcome_bind (progress c) (λ '(c, ops), Next (c, ops ++ [ODestroy connected]))
  | ODestroy connected => Next (c, if connected then [OUnblock; OCancel] else [])
  | OUnblock => Next (UnblockFinish c)
  | OCancel => CancelResponse c
  | OEval => progress c
  | OFinDrop =>
      match m_ServerStream (lc c) with
      | None => Next (c, [])
      | Some g => let '(s, ops) := release g (set_m_ServerStream None (lc c)) in Next (set_lc s c, ops)
      end
  | OInvalidate =>
      if expired (lc c) then Next (c, [])
      else match m_ExternalStream (lc c) with
           | Some g => Next (set_lc (on_stream g disconnect (lc c)) c, [])
           | None => Next (c, [])
           end
  | OReset => Next (if m_Running c then Reset c else (c, []))
  | OQueue => outcome_bind (with_call post_request c) (λ c, Next (c, []))
  end.

(** A list of operations of one thread, run to its end while the lock is held. *)
Fixpoint run_inline (fuel : nat) (ops : list microop) (c : config) : outcome config :=
  match fuel, ops with
  | _, [] => Next c
  | O, _ => Disabled
  | S fuel, op :: ops => outcome_bind (exec_op op c) (λ '(c, new), run_inline fuel (new ++ ops) c)
  end.
Fixpoint run_hook (g : nat) (hook : list user_op) (c : config) : outcome config :=
  match hook with
  | [] => Next c
  | op :: hook => outcome_bind (user_call g op c) (λ '(c, ops), outcome_bind (run_inline 20 ops c) (run_hook g hook))
  end.

(** ** States *)
(** [hook] is what [StreamInitialized] does with the stream, under the lock. *)
Definition StateInitializedDone_fn (ok : bool) (hook : list user_op) (c : config) : outcome (config * list microop) :=
  if negb ok then Next (c, [OReset])
  else
    let g := length (m_streams (lc c)) in
    let s := set_m_streams (m_streams (lc c) ++ [SStream 1 0 true]) (set_m_NextState StateInvalid (lc c)) in
    let s := set_m_ExternalStream (Some g) (set_m_ServerStream (Some g) s) in
    outcome_bind (run_hook g hook (set_lc s c)) (λ c,
      let s := set_m_RequestQueue (m_RequestQueue (lc c) ++ [default]) (set_m_Reading true (lc c)) in
      Next (set_lc (set_m_ReadNextState StateReadDone s) c, [ORead])).

Definition StateReadDone_fn (ok : bool) (c : config) : outcome (config * list microop) :=
  let s := set_m_Reading false (lc c) in
  if negb ok then
    match m_RequestQueue s with
    | [] => Fault EmptyQueue
    | _ :: q => progress (set_lc (set_m_ReadNextState StateInvalid (set_m_RequestQueue q (set_m_ReadsDone true s))) c)
    end
  else progress (set_lc s c).

Definition StateWriteDone_fn (ok : bool) (c : config) : outcome (config * list microop) :=
  let c := set_lc (set_m_Writing false (lc c)) c in
  if negb ok then outcome_bind (CancelResponse c) (λ '(c, ops), Next (c, ops ++ [OEval]))
  else
    match m_ResponseQueue (lc c) with
    | [] => Fault EmptyQueue
    | _ :: q => progress (set_lc (set_m_WriteNextState StateInvalid (set_m_ResponseQueue q (lc c))) c)
    end.

(** Returns false: the worker resets the context. *)
Definition StateFinishedDone_fn (c : config) : outcome (config * list microop) :=
  Next (c, [OFinDrop; OInvalidate; OReset]).

Definition RunNextState (fn : StateFn) (ok : bool) (hook : list user_op) (c : config) : outcome (config * list microop) :=
  match fn with
  | StateInitializedDone => StateInitializedDone_fn ok hook c
  | StateReadDone => StateReadDone_fn ok c
  | StateWriteDone => StateWriteDone_fn ok c
  | StateFinishedDone => StateFinishedDone_fn c
  | StateInvalid => Fault InvalidState
  end.

(** ** Events *)
Inductive event :=
| EMain (ok : bool) (hook : list user_op)       (* the context's own tag completes *)
| ERead (r : option Request)                    (* a read completes, with a request or not ok *)
| EWrite (ok : bool)
| EUser (g : nat) (op : user_op)
| ECopy (g : nat)                               (* a user keeps a copy of the pointer *)
| EDrop (g : nat)                               (* a user releases a copy *)
| EStep (i : nat)                               (* thread [i] goes on *)
| EShutdown.

Definition spawn (ops : list microop) (c : config) : config :=
  set_threads (threads c ++ [ops]) c.
Definition spawned (m : outcome (config * list microop)) : outcome config :=
  outcome_bind m (λ '(c, ops), Next (spawn ops c)).

(** gRPC stores the request in the slot that the read was posted with. *)
Definition fill_back (r : Request) (q : list Request) : list Request :=
  match reverse q with [] => [] | _ :: q' => reverse (r :: q') end.

Definition step (c : config) (e : event) : outcome config :=
  match e with
  | EMain ok hook =>
      outcome_bind (or_disabled (complete_main ok (the_call c))) (λ k,
        spawned (RunNextState (m_NextState (lc c)) ok hook (set_the_call k c)))
  | ERead r =>
      outcome_bind (or_disabled (complete_read (the_call c))) (λ k,
        let c := set_the_call k c in
        match r with
        | None => spawned (RunNextState (m_ReadNextState (lc c)) false [] c)
        | Some r =>
            let c := set_received (received c ++ [r]) c in
            let c := set_lc (set_m_RequestQueue (fill_back r (m_RequestQueue (lc c))) (lc c)) c in
            spawned (RunNextState (m_ReadNextState (lc c)) true [] c)
        end)
  | EWrite ok =>
      outcome_bind (or_disabled (complete_write (the_call c))) (λ k,
        spawned (RunNextState (m_WriteNextState (lc c)) ok [] (set_the_call k c)))
  | EUser g op =>
      match stream_at g (lc c) with
      | Some st => if ss_refs st =? 0 then Disabled else spawned (user_call g op c)
      | None => Disabled
      end
  | ECopy g =>
      match stream_at g (lc c) with
      | Some st =>
          if ss_refs st =? 0 then Disabled
          else Next (set_lc (on_stream g (λ st, SStream (S (ss_refs st)) (S (ss_user st)) (ss_connected st)) (lc c)) c)
      | None => Disabled
      end
  | EDrop g =>
      match stream_at g (lc c) with
      | Some st =>
          if ss_user st =? 0 then Disabled
          else
            let s := on_stream g (λ st, SStream (ss_refs st) (pred (ss_user st)) (ss_connected st)) (lc c) in
            let '(s, ops) := release g s in Next (spawn ops (set_lc s c))
      | None => Disabled
      end
  | EStep i =>
      match threads c !! i with
      | Some (op :: ops) =>
          outcome_bind (exec_op op c) (λ '(c, new), Next (set_threads (<[i := new ++ ops]> (threads c)) c))
      | _ => Disabled
      end
  | EShutdown => Next (set_m_Running false c)
  end.

(** The constructor; the executor then resets the context. *)
Definition LifeCycleStreaming_new : LifeCycleStreaming :=
  LC StateInvalid StateInvalid StateInvalid [] [] None None false false false false false false false None [].
Definition start : config :=
  Config LifeCycleStreaming_new true new_call [[OReset]] [] [] 0 0 [] [].
End streaming.
