(* ===== verification/StreamingInv.v ===== *)
(** * The streaming life cycle: invariants

    Proofs about the model of [Streaming]: the operations that a context posts
    obey the rules of the call ([Grpc]), requests and responses keep their order,
    and a stream that nobody can use any more is finished. *)
From S2P Require Import Prelude Grpc Streaming.

Section invariant.
Context {Request Response : Type} (default : Request) (strict : bool).
Notation LifeCycleStreaming := (@LifeCycleStreaming Request Response).
Notation config := (@config Request Response).
Notation microop := (@microop Request).
Notation Actions := (@Actions Request).
Notation event := (@event Request Response).
Implicit Types c : config.

(** ** Pending operations *)
Definition is_read (op : microop) : bool := match op with ORead => true | _ => false end.
Definition is_write (op : microop) : bool := match op with OWrite => true | _ => false end.
Definition is_finish (op : microop) : bool := match op with OFinish => true | _ => false end.
Definition is_queue (op : microop) : bool := match op with OQueue => true | _ => false end.
Definition is_reset (op : microop) : bool := match op with OReset => true | _ => false end.
Definition is_rel (g : nat) (op : microop) : bool := match op with ORelease g' => g' =? g | _ => false end.
(** After the last owner of the stream is gone. *)
Definition is_late (op : microop) : bool :=
  match op with ODeleter _ | ODestroy _ | OUnblock | OCancel => true | _ => false end.
(** On the way to cancel the call. *)
Definition is_doom (op : microop) : bool :=
  match op with ODeleter true | ODestroy true | OCancel => true | _ => false end.
(** The end of [StateFinishedDone]. *)
Definition is_tail (op : microop) : bool :=
  match op with OFinDrop | OInvalidate | OReset => true | _ => false end.
Definition is_life (op : microop) : bool :=
  match op with OReset | OQueue => false | _ => true end.

Definition pend (f : microop → bool) (ths : list (list microop)) : nat := sum_list_with (countb f) ths.

Lemma pend_spawn f ths ops : pend f (ths ++ [ops]) = pend f ths + countb f ops.
Proof. unfold pend. rewrite sum_list_with_app. simpl. lia. Qed.
Lemma pend_insert f ths i ops ops' :
  ths !! i = Some ops → pend f (<[i := ops']> ths) + countb f ops = pend f ths + countb f ops'.
Proof.
  unfold pend. revert i. induction ths as [|t ths IH]; intros [|i] Hi; simplify_eq/=; [lia|].
  specialize (IH i Hi). lia.
Qed.
Lemma pend_le2 f h h' ths :
  (∀ op, f op = true → h op = true ∨ h' op = true) → pend f ths ≤ pend h ths + pend h' ths.
Proof.
  intros Hfh. induction ths as [|t ths IH]; simpl; [done|].
  assert (countb f t ≤ countb h t + countb h' t); [|lia].
  clear IH. induction t as [|op t IH]; simpl; [done|].
  destruct (f op) eqn:E; [|destruct (h op), (h' op); lia].
  destruct (Hfh _ E) as [-> | ->]; [destruct (h' op)|destruct (h op)]; lia.
Qed.
Lemma pend_none f ths : (∀ op, f op = false) → pend f ths = 0.
Proof.
  intros Hf. induction ths as [|t ths IH]; simpl; [done|]. rewrite IH. rewrite (proj2 (countb_zero f t)); [done|].
  by apply Forall_forall.
Qed.
Lemma pend_le f h ths : (∀ op, f op = true → h op = true) → pend f ths ≤ pend h ths.
Proof. intros Hfh. pose proof (pend_le2 f h (λ _, false) ths) as H. rewrite (pend_none (λ _, false)) in H by done. rewrite Nat.add_0_r in H. auto. Qed.

(** The shape of what [ForwardProgress] does: the counts of its operations. *)
Definition b2n (b : bool) : nat := if b then 1 else 0.
Definition opt_is (g : nat) (p : option nat) : bool := bool_decide (p = Some g).

(** ** The invariant *)
Definition down (s : LifeCycleStreaming) : Prop :=
  m_Reading s = false ∧ m_Writing s = false ∧ m_Finishing s = false ∧ m_ReadsDone s = false ∧
  m_ResponseQueue s = [] ∧ m_RequestQueue s = [] ∧ m_ServerStream s = None ∧ m_Status s = None ∧
  (∀ g st, stream_at g s = Some st → ss_refs st = 0 ∧ ss_user st = 0) ∧
  m_ReadsFinished s = false ∧ (strict = true → m_BlockFinish s = false).

(** What a life cycle with an accepted call satisfies; [nrel g] pending
    operations release the stream [g].  With [arrived] the read slot may hold a
    request that has just arrived; with [closing] the stream is about to be
    disconnected. *)
Record up_ (arrived closing : bool) (g : nat) (nrel : nat → nat) (s : LifeCycleStreaming) : Prop := {
  up_read : m_Reading s = true ∨ m_ReadsDone s = true ∨ (arrived = true ∧ length (m_RequestQueue s) = 1);
  up_slot : m_Reading s = true → m_ReadNextState s = StateReadDone ∧ length (m_RequestQueue s) = 1 ∧ m_ReadsDone s = false;
  up_writing : m_Writing s = true → m_WriteNextState s = StateWriteDone;
  up_next : m_NextState s = if m_Finishing s then StateFinishedDone else StateInvalid;
  up_fin : m_Finishing s = true →
    m_Reading s = false ∧ m_Writing s = false ∧ m_ReadsDone s = true ∧ m_ResponseQueue s = [] ∧ is_Some (m_Status s);
  up_server : m_ServerStream s = None → m_ReadsDone s = true ∧ (m_ReadsFinished s = true ∨ is_Some (m_Status s));
  up_rfin : m_ReadsFinished s = true → m_ServerStream s = None;
  up_queue : strict = true → m_Writing s = true → m_ResponseQueue s ≠ [];
  up_block : strict = true → m_BlockFinish s = false;
  up_ext : m_ExternalStream s = Some g;
  up_ss : m_ServerStream s = None ∨ m_ServerStream s = Some g;
  up_refs : ∃ st, stream_at g s = Some st ∧
    ss_refs st = b2n (opt_is g (m_ServerStream s)) + nrel g + ss_user st ∧
    (closing = false → is_Some (m_Status s) → ss_connected st = false ∨ ss_refs st = 0) ∧
    (ss_connected st = false → is_Some (m_Status s));
  up_old : ∀ g', g' ≠ g →
    nrel g' = 0 ∧ (∀ st, stream_at g' s = Some st → ss_refs st = 0 ∧ ss_user st = 0);
}.
Definition up := up_ false false.

(** What [EvaluateState] establishes: a closed stream with nothing in flight is
    finishing, and a half-closed stream was handed over to its users. *)
Definition live (s : LifeCycleStreaming) : Prop :=
  is_Some (m_Status s) → m_Reading s = false → m_Writing s = false → m_BlockFinish s = false → m_Finishing s = true.
Definition drained (s : LifeCycleStreaming) : Prop := m_Writing s = false → m_ResponseQueue s = [].
Definition handed_over (g : nat) (s : LifeCycleStreaming) : Prop :=
  m_Reading s = false → m_ReadsDone s = true → m_Status s = None →
  (∀ st, stream_at g s = Some st → ss_refs st ≠ 0) → m_ServerStream s = None.

(** The owners of a stream among the callbacks of [a]. *)
Definition owns (a : Actions) (g : nat) : nat :=
  b2n (opt_is g (dropped a)) + b2n (opt_is g (should_execute a ≫= cb_stream)).

Lemma ForwardProgress_counts a :
  countb is_read (ForwardProgress a) = b2n (should_read a) ∧
  countb is_write (ForwardProgress a) = b2n (should_write a) ∧
  countb is_finish (ForwardProgress a) = b2n (should_finish a) ∧
  (∀ g, countb (is_rel g) (ForwardProgress a) = owns a g) ∧
  countb is_queue (ForwardProgress a) = 0 ∧ countb is_tail (ForwardProgress a) = 0 ∧
  countb is_late (ForwardProgress a) = 0.
Proof.
  unfold ForwardProgress, owns, opt_is.
  destruct a as [[] [] e [] [d|]], e as [[? [x|]|[x|]]|]; simpl;
    (split_and!; [done|done|done| |done|done|done]); intros g; repeat case_bool_decide; simplify_eq;
    repeat match goal with
           | |- context [?a =? g] => destruct (Nat.eqb_spec a g); subst
           end; simpl; try lia; congruence.
Qed.

(** One stage of [EvaluateState], started in the state [s0]. *)
Record stage (closing : bool) (g : nat) (nrel : nat → nat) (s0 s : LifeCycleStreaming) (a : Actions) : Prop := {
  st_up : up_ false closing g (λ g', nrel g' + owns a g') s;
  st_read : b2n (m_Reading s0) + b2n (should_read a) = b2n (m_Reading s);
  st_write : b2n (m_Writing s0) + b2n (should_write a) = b2n (m_Writing s);
  st_finish : b2n (m_Finishing s0) + b2n (should_finish a) = b2n (m_Finishing s);
  st_status : m_Status s = m_Status s0;
  st_dead : (∀ st, stream_at g s0 = Some st → ss_refs st = 0) → ∀ st, stream_at g s = Some st → ss_refs st = 0;
  st_alive : ∀ st, stream_at g s = Some st → ss_refs st = 0 → ∃ st0, stream_at g s0 = Some st0 ∧ ss_refs st0 = 0;
}.

Lemma stream_at_alter f g (s : LifeCycleStreaming) : stream_at g (on_stream g f s) = f <$> stream_at g s.
Proof. apply list_lookup_alter_eq. Qed.
Lemma stream_at_alter_ne f g g' (s : LifeCycleStreaming) : g ≠ g' → stream_at g' (on_stream g f s) = stream_at g' s.
Proof. apply list_lookup_alter_ne. Qed.

Lemma up_ext_nrel b b' cl g nrel nrel' (s : LifeCycleStreaming) :
  up_ b cl g nrel s → (∀ g', nrel' g' = nrel g') → (b = true → b' = true ∨ m_Reading s = true ∨ m_ReadsDone s = true) →
  up_ b' cl g nrel' s.
Proof.
  intros [Hr Hsl Hw Hn Hf Hse Hrf Hqu Hbl He Hss (st & Hst & Hrefs & Hc & Hk) Ho] Hnrel Hb.
  split; auto; [naive_solver| |].
  - exists st. by rewrite Hnrel.
  - intros g' Hg'. rewrite Hnrel. auto.
Qed.
Lemma no_owns g : owns no_actions g = 0.
Proof. done. Qed.

Lemma ev_read_stage cl g nrel s :
  up_ true cl g nrel s →
  stage cl g nrel s (ev_read default s).1 (ev_read default s).2 ∧ dropped (ev_read default s).2 = None ∧
  (m_Reading (ev_read default s).1 = false → should_execute (ev_read default s).2 = None).
Proof.
  intros Hup. unfold ev_read.
  destruct (m_Reading s) eqn:E1; simpl; [|destruct (m_ReadsDone s) eqn:E2; simpl].
  1,2: split; [|by split]; split; [|simpl; lia..|done|done|by eauto]; eapply up_ext_nrel; [done|intros; rewrite no_owns; lia|auto].
  destruct Hup as [Hr Hsl Hw Hn Hf Hse Hrf Hqu Hbl He Hss (st & Hst & Hrefs & Hc & Hk) Ho].
  assert (∃ r, m_RequestQueue s = [r]) as [r ->].
  { destruct Hr as [?|[?|[_ Hq]]]; [congruence|congruence|]. destruct (m_RequestQueue s) as [|r [|??]]; simplify_eq/=. eauto. }
  simpl. split; [|split; [done|by destruct (m_ServerStream s)]].
  destruct (m_ServerStream s) as [g1|] eqn:E3.
  - assert (g1 = g) as -> by naive_solver.
    split; simpl; rewrite ?E1, ?E2; [|simpl; lia..|done| |].
    3: { intros st'. rewrite stream_at_alter. unfold stream_at in *; simpl; rewrite Hst. by intros [= <-]. }
    2: { intros Hz. specialize (Hz st Hst). unfold opt_is in Hrefs. rewrite bool_decide_true in Hrefs by done. simpl in *. lia. }
    constructor; simpl; rewrite ?E3; auto; try done.
    + intros Hfi. destruct (Hf Hfi) as (? & ? & ? & ?). congruence.
    + exists (own st). rewrite stream_at_alter. split; [unfold stream_at in *; simpl; by rewrite Hst|].
      destruct st; simpl in *. unfold owns, opt_is in *; simpl. rewrite !bool_decide_true in * by done. simpl in *. split_and!; [lia| |done].
      intros Hcl HS. destruct (Hc Hcl HS); [auto|lia].
    + intros g' Hg'. destruct (Ho g' Hg') as [Hn0 Hg0]. split.
      { unfold owns, opt_is. simpl. rewrite !bool_decide_false by naive_solver. simpl. lia. }
      intros st' Hst'. apply Hg0. revert Hst'. by rewrite stream_at_alter_ne.
  - split; simpl; rewrite ?E1, ?E2; [|simpl; lia..|done|done|by eauto]. constructor; simpl; rewrite ?E3; auto; try done.
    + intros Hfi. destruct (Hf Hfi) as (? & ? & ? & ?). congruence.
    + exists st. split; [done|]. unfold owns, opt_is in *. simpl in *. rewrite !Nat.add_0_r. auto.
    + intros g' Hg'. destruct (Ho g' Hg') as [Hn0 Hg0]. split; [unfold owns, opt_is; simpl; lia|done].
Qed.

Lemma ev_finished_stage cl g nrel s0 s a :
  stage cl g nrel s0 s a → dropped a = None → (m_Reading s = false → should_execute a = None) →
  ∃ s' a', ev_finished (s, a) = Some (s', a') ∧ stage cl g nrel s0 s' a' ∧ dropped a' = None ∧ handed_over g s'.
Proof.
  intros [Hup H1 H2 H3 H4 H5 H6] Hd Hx. unfold ev_finished.
  pose proof Hup as [Hr Hsl Hw Hn Hf Hse Hrf Hqu Hbl He Hss (st & Hst & Hrefs & Hc & Hk) Ho].
  destruct (_ && _) eqn:E.
  - apply andb_prop in E as [[[E1 E2]%andb_prop E3]%andb_prop E4].
    apply negb_true_iff in E1, E3, E4. apply orb_false_iff in E4 as [E4 _]. apply bool_decide_eq_false in E4.
    destruct (m_ServerStream s) as [g1|] eqn:E5.
    2: { destruct Hse as [_ [|]]; [done|congruence|done]. }
    assert (g1 = g) as -> by naive_solver.
    eexists _, _. split; [done|]. split; [|split; [done|by intros ????]]. split; simpl; [|auto..]. constructor; simpl; auto.
    + exists st. split; [done|]. split; [|done]. rewrite Hrefs. unfold owns, opt_is. simpl. rewrite Hd, Hx by done. simpl.
      repeat case_bool_decide; simplify_eq; simpl; lia.
    + intros g' Hg'. destruct (Ho g' Hg') as [Hn0 Hg0]. split; [|done]. unfold owns, opt_is in *. simpl.
      rewrite Hd. repeat case_bool_decide; simplify_eq; simpl; lia.
  - exists s, a. split_and!; try done. intros Hr1 Hr2 Hs Hz. rewrite Hr1, Hr2, Hs in E. apply Hrf.
    destruct (m_ReadsFinished s); [done|]. unfold expired in E. rewrite He in E. simpl in E. rewrite Hst in E.
    specialize (Hz st Hst). destruct (Nat.eqb_spec (ss_refs st) 0); done.
Qed.

Lemma ev_cancel_stage cl g nrel s0 s a :
  stage cl g nrel s0 s a → dropped a = None → stage cl g nrel s0 (ev_cancel (s, a)).1 (ev_cancel (s, a)).2.
Proof.
  intros [Hup H1 H2 H3 H4 H5 H6] Hd. unfold ev_cancel. destruct (m_Status s) as [[]|] eqn:E; simpl; split; simpl; auto; try congruence.
  eapply up_ext_nrel; [done| |done]. intros g'. unfold owns, opt_is. simpl. rewrite Hd. simpl. lia.
Qed.

Lemma ev_write_stage cl g nrel s0 s a :
  stage cl g nrel s0 s a →
  stage cl g nrel s0 (ev_write (s, a)).1 (ev_write (s, a)).2 ∧
  (m_Writing (ev_write (s, a)).1 = false → m_ResponseQueue (ev_write (s, a)).1 = []).
Proof.
  intros [Hup H1 H2 H3 H4 H5 H6]. unfold ev_write. destruct (m_Writing s) eqn:E1; simpl; [split; [by split; rewrite ?E1|congruence]|].
  case_bool_decide as E2; simpl; [split; [by split; rewrite ?E1|done]|]. split; [|done].
  split; simpl; auto.
  - destruct Hup as [Hr Hsl Hw Hn Hf Hse Hrf Hqu Hbl He Hss (st & Hst & Hrefs & Hc & Hk) Ho].
    split; simpl; auto; [|by exists st]. intros Hfi. destruct (Hf Hfi) as (? & ? & ? & ? & ?). congruence.
  - revert H2. destruct (m_Writing s0), (should_write a); simpl; lia.
Qed.

Lemma ev_finish_stage cl g nrel s0 s a :
  stage cl g nrel s0 s a → (m_Writing s = false → m_ResponseQueue s = []) →
  stage cl g nrel s0 (ev_finish (s, a)).1 (ev_finish (s, a)).2 ∧ live (ev_finish (s, a)).1.
Proof.
  intros [Hup H1 H2 H3 H4 H5 H6] Hq. unfold ev_finish.
  destruct (_ && _) eqn:E.
  - apply andb_prop in E as [[[[E1 E2]%andb_prop E3]%andb_prop E4]%andb_prop E5].
    apply negb_true_iff in E1, E2, E3. apply bool_decide_eq_true in E4. split; [|done]. split; simpl; auto.
    + destruct Hup as [Hr Hsl Hw Hn Hf Hse Hrf Hqu Hbl He Hss (st & Hst & Hrefs & Hc & Hk) Ho].
      split; simpl; auto; [|by exists st]. intros _. split_and!; auto. destruct Hr as [Hr|[?|[? _]]]; [congruence|done|done].
    + revert H3. rewrite E3. destruct (m_Finishing s0), (should_finish a); simpl; lia.
  - split; [done|]. simpl. intros L1 L2 L3 L4. rewrite L2, L3, L4, (bool_decide_true _ L1) in E. by destruct (m_Finishing s).
Qed.

(** [EvaluateState] turns flags into operations, one for one. *)
Lemma EvaluateState_up cl g nrel s :
  up_ true cl g nrel s →
  ∃ s' a, EvaluateState default s = Some (s', a) ∧ stage cl g nrel s s' a ∧ live s' ∧ handed_over g s' ∧ drained s'.
Proof.
  intros Hup. unfold EvaluateState. destruct (ev_read_stage _ _ _ _ Hup) as (H1 & Hd & Hx).
  destruct (ev_read default s) as [s1 a1]. cbn [fst snd] in *.
  destruct (ev_finished_stage _ _ _ _ _ _ H1 Hd Hx) as (s2 & a2 & -> & H2 & Hd2 & Ho). cbn [mbind option_bind].
  pose proof (ev_cancel_stage _ _ _ _ _ _ H2 Hd2) as H3.
  assert (handed_over g (ev_cancel (s2, a2)).1) as Ho3 by (unfold ev_cancel; by destruct (m_Status s2) as [[]|]).
  destruct (ev_cancel (s2, a2)) as [s3 a3]. cbn [fst snd] in *.
  destruct (ev_write_stage _ _ _ _ _ _ H3) as [H4 Hq].
  assert (handed_over g (ev_write (s3, a3)).1) as Ho4 by (unfold ev_write; by destruct (_ && _)).
  destruct (ev_write (s3, a3)) as [s4 a4]. cbn [fst snd] in *.
  destruct (ev_finish_stage _ _ _ _ _ _ H4 Hq) as [H5 Hl].
  assert (handed_over g (ev_finish (s4, a4)).1) as Ho5 by (unfold ev_finish; by destruct (_ && _)).
  assert (drained (ev_finish (s4, a4)).1) as Hq5 by (unfold ev_finish, drained in *; by destruct (_ && _)).
  destruct (ev_finish (s4, a4)) as [s5 a5]. eauto 8.
Qed.

(** ** The invariant of a configuration *)
(** What holds of a context [s] with an accepted call [k] when [n f] operations
    that satisfy [f] are pending. *)
Record handled_ (arrived closing : bool) (g : nat) (n : (microop → bool) → nat) (s : LifeCycleStreaming) (k : call) : Prop := {
  h_up : up_ arrived closing g (λ g, n (is_rel g)) s;
  h_read : n is_read + b2n (rd k) = b2n (m_Reading s);
  h_write : n is_write + b2n (wr k) = b2n (m_Writing s);
  h_finish : n is_finish + b2n (bool_decide (phase k = CallFinishing ∨ phase k = CallFinished)) = b2n (m_Finishing s);
  h_phase : phase k ≠ CallIdle ∧ phase k ≠ CallRequested;
  h_queue : n is_queue = 0;
  h_tail : phase k ≠ CallFinished → n is_tail = 0;
  h_late : 0 < n is_late → ∀ st, stream_at g s = Some st → ss_refs st = 0;
  h_live : arrived = false → strict = true → live s;
  h_over : arrived = false → handed_over g s;
  h_drained : arrived = false → drained s;
  h_dead : ∀ st, stream_at g s = Some st → ss_refs st = 0 → is_Some (m_Status s) ∨ 0 < n is_doom;
}.
Notation handled := (handled_ false false).

Definition waiting (n : (microop → bool) → nat) (s : LifeCycleStreaming) (k : call) : Prop :=
  down s ∧ rd k = false ∧ wr k = false ∧ n is_read = 0 ∧ n is_write = 0 ∧ n is_finish = 0 ∧ n is_life = 0 ∧
  (n is_queue = 1 ∨ phase k = CallRequested → m_NextState s = StateInitializedDone) ∧
  (phase k = CallIdle ∧ n is_reset + n is_queue ≤ 1 ∨
   phase k = CallRequested ∧ n is_reset = 0 ∧ n is_queue = 0).

Definition Inv_ (n : (microop → bool) → nat) (s : LifeCycleStreaming) (k : call) : Prop :=
  waiting n s k ∨ ∃ g, handled g n s k.
Definition Inv (c : config) : Prop := Inv_ (λ f, pend f (threads c)) (lc c) (the_call c).

(** Only the counts of these operations matter. *)
Lemma handled_counts a cl g n n' s k :
  handled_ a cl g n s k →
  n' is_read = n is_read → n' is_write = n is_write → n' is_finish = n is_finish → n' is_queue = n is_queue →
  n' is_tail ≤ n is_tail → (0 < n' is_late → 0 < n is_late) → (∀ g, n' (is_rel g) = n (is_rel g)) →
  (m_Status s = None → 0 < n is_doom → 0 < n' is_doom) → handled_ a cl g n' s k.
Proof.
  intros [H1 H2 H3 H4 [H5 H6] H7 H8 H9 H10 H11 H11d H12] E1 E2 E3 E4 E5 E6 E7 E8.
  split; rewrite ?E1, ?E2, ?E3, ?E4; auto; [|intros; specialize (H8 H); lia|intros st Hs Hz; destruct (H12 st Hs Hz); [auto|destruct (m_Status s); eauto]].
  eapply up_ext_nrel; [done| |auto]. done.
Qed.

Lemma progress_ok cl g n c :
  handled_ true cl g n (lc c) (the_call c) →
  ∃ s a, progress default c = Next (set_lc s c, ForwardProgress a) ∧
    handled_ false cl g (λ f, n f + countb f (ForwardProgress a)) s (the_call c).
Proof.
  intros [H1 H2 H3 H4 H5 H6 H7 H8 _ _ _ H11]. unfold progress.
  destruct (EvaluateState_up _ _ _ _ H1) as (s' & a & -> & [Hs Hr Hw Hf Hst Hdead Hdead'] & Hl & Ho & Hdr).
  exists s', a. split; [done|].
  destruct (ForwardProgress_counts a) as (C1 & C2 & C3 & C4 & C5 & C6 & C7).
  split; rewrite ?C1, ?C2, ?C3, ?C5, ?C6, ?C7, ?Nat.add_0_r; auto; try lia.
  - eapply up_ext_nrel; [done| |done]. intros g'. simpl. by rewrite C4.
  - intros st Hg Hz. destruct (Hdead' _ Hg Hz) as (st0 & Hg0 & Hz0). rewrite Hst.
    destruct (H11 _ Hg0 Hz0); [auto|right; lia].
Qed.
Lemma handled_arrived a cl g n s k : handled_ a cl g n s k → handled_ true cl g n s k.
Proof. intros [H1 H2 H3 H4 H5 H6 H7 H8 H9 H10 H10d H11]. split; auto; [|done..]. eapply up_ext_nrel; [done|done|auto]. Qed.

Definition plus_op (n : (microop → bool) → nat) (op : microop) : (microop → bool) → nat := λ f, n f + b2n (f op).
Definition plus_ops (n : (microop → bool) → nat) (ops : list microop) : (microop → bool) → nat := λ f, n f + countb f ops.

(** With [strict] no step faults; without it, a response queue that was cleared
    while a write was in flight may be found empty. *)
Definition excused (f : fault) : Prop := f = EmptyQueue ∧ strict = false.

(** The outcome of an operation of a context whose call was accepted. *)
Definition fine (g : nat) (n : (microop → bool) → nat) (m : outcome (config * list microop)) : Prop :=
  match m with
  | Next (c, ops) => handled g (plus_ops n ops) (lc c) (the_call c)
  | Fault f => excused f
  | Disabled => False
  end.

Lemma fine_progress cl g n c : cl = false → handled_ true cl g n (lc c) (the_call c) → fine g n (progress default c).
Proof. intros -> Hh. by destruct (progress_ok _ _ _ _ Hh) as (s & a & -> & H). Qed.

(** A context that is up and not finishing has its call open. *)
Lemma handled_open a cl g n s k : handled_ a cl g n s k → m_Finishing s = false → phase k = CallOpen.
Proof.
  intros Hh Hf. pose proof (h_finish _ _ _ _ _ _ Hh) as H4. destruct (h_phase _ _ _ _ _ _ Hh). rewrite Hf in H4.
  destruct (phase k) eqn:E; try done; rewrite bool_decide_true in H4 by auto; simpl in *; lia.
Qed.
Lemma handled_finishing a cl g n s k : handled_ a cl g n s k → phase k = CallOpen → m_Finishing s = true → 0 < n is_finish.
Proof.
  intros Hh Hp Hf. pose proof (h_finish _ _ _ _ _ _ Hh) as H4. rewrite Hf, Hp in H4.
  rewrite bool_decide_false in H4 by naive_solver. simpl in *. lia.
Qed.

Ltac counts := simpl; intros; unfold plus_op, plus_ops in *; simpl in *; lia.

Lemma empty_excused a cl g n s k :
  handled_ a cl g n s k → m_Writing s = true → m_ResponseQueue s = [] → excused EmptyQueue.
Proof.
  intros Hh Hw Hq. split; [done|]. destruct strict eqn:E; [|done].
  by destruct (up_queue _ _ _ _ _ (h_up _ _ _ _ _ _ Hh) E Hw).
Qed.

Lemma fine_OWrite g n c :
  handled g (plus_op n OWrite) (lc c) (the_call c) → fine g n (exec_op default OWrite c).
Proof.
  intros Hh. simpl.
  pose proof (h_write _ _ _ _ _ _ Hh) as Hw. unfold plus_op in Hw. simpl in Hw.
  destruct (m_Writing (lc c)) eqn:E; simpl in Hw; [|lia]. destruct (wr (the_call c)) eqn:Ewr; simpl in Hw; [lia|].
  destruct (m_ResponseQueue (lc c)) as [|r q] eqn:Eq; [by eapply empty_excused|].
  assert (m_Finishing (lc c) = false) as Hf.
  { destruct (m_Finishing (lc c)) eqn:Ef; [|done]. destruct (up_fin _ _ _ _ _ (h_up _ _ _ _ _ _ Hh) Ef) as (_ & ? & _). congruence. }
  pose proof (handled_open _ _ _ _ _ _ Hh Hf) as Hp. unfold with_call, post_write. rewrite Hp, Ewr. simpl.
  destruct Hh as [H1 H2 H3 H4 H5 H6 H7 H8 H9 H10 H10d H11]. unfold plus_op, plus_ops in *. simpl in *. rewrite !Hp in *.
  split; simpl; rewrite ?E, ?Nat.add_0_r in *; auto; try lia;
    (eapply up_ext_nrel; [done| |auto]; counts).
Qed.

Lemma fine_ORead g n c :
  handled g (plus_op n ORead) (lc c) (the_call c) → fine g n (exec_op default ORead c).
Proof.
  intros Hh. simpl.
  pose proof (h_read _ _ _ _ _ _ Hh) as Hr. unfold plus_op in Hr. simpl in Hr.
  destruct (m_Reading (lc c)) eqn:E; simpl in Hr; [|lia]. destruct (rd (the_call c)) eqn:Erd; simpl in Hr; [lia|].
  destruct (up_slot _ _ _ _ _ (h_up _ _ _ _ _ _ Hh) E) as (_ & Hlen & _).
  destruct (m_RequestQueue (lc c)) as [|x [|??]] eqn:Eq; try done. cbn [last].
  assert (m_Finishing (lc c) = false) as Hf.
  { destruct (m_Finishing (lc c)) eqn:Ef; [|done]. destruct (up_fin _ _ _ _ _ (h_up _ _ _ _ _ _ Hh) Ef) as (? & _). congruence. }
  pose proof (handled_open _ _ _ _ _ _ Hh Hf) as Hp. unfold with_call, post_read. rewrite Hp, Erd. simpl.
  destruct Hh as [H1 H2 H3 H4 H5 H6 H7 H8 H9 H10 H10d H11]. unfold plus_op, plus_ops in *. simpl in *. rewrite !Hp in *.
  split; simpl; rewrite ?E, ?Nat.add_0_r in *; auto; try lia;
    (eapply up_ext_nrel; [done| |auto]; counts).
Qed.

Lemma fine_OFinish g n c :
  handled g (plus_op n OFinish) (lc c) (the_call c) → fine g n (exec_op default OFinish c).
Proof.
  intros Hh. simpl.
  pose proof (h_finish _ _ _ _ _ _ Hh) as Hr. unfold plus_op in Hr. simpl in Hr.
  destruct (m_Finishing (lc c)) eqn:E; simpl in Hr; [|lia]. 
  destruct (up_fin _ _ _ _ _ (h_up _ _ _ _ _ _ Hh) E) as (Er & Ew & Erd & Eq & [st Est]). rewrite Est.
  pose proof (h_read _ _ _ _ _ _ Hh) as H2. pose proof (h_write _ _ _ _ _ _ Hh) as H3. rewrite Er in H2. rewrite Ew in H3.
  destruct (rd (the_call c)) eqn:Ek1; simpl in H2; [lia|]. destruct (wr (the_call c)) eqn:Ek2; simpl in H3; [lia|].
  destruct (h_phase _ _ _ _ _ _ Hh).
  assert (phase (the_call c) = CallOpen) as Hp.
  { destruct (phase (the_call c)) eqn:Ep; try done; rewrite bool_decide_true in Hr by auto; simpl in Hr; lia. }
  unfold with_call, post_finish. rewrite Hp, Ek1, Ek2. simpl.
  destruct Hh as [H1' H2' H3' H4' H5' H6' H7' H8' H9' H10' H10d' H11']. unfold plus_op, plus_ops in *. simpl in *. rewrite !Hp in *.
  rewrite bool_decide_false in Hr by naive_solver.
  split; simpl; rewrite ?E, ?Er, ?Ew, ?Nat.add_0_r in *; auto; simpl in *; try lia;
    (eapply up_ext_nrel; [done| |auto]; counts).
Qed.

(** Changing the object behind the current stream. *)
Lemma handled_stream a cl g n n' s k f st :
  handled_ a cl g n s k → stream_at g s = Some st →
  ss_refs (f st) = b2n (opt_is g (m_ServerStream s)) + n' (is_rel g) + ss_user (f st) →
  (cl = false → is_Some (m_Status s) → ss_connected (f st) = false ∨ ss_refs (f st) = 0) →
  (0 < n' is_late → ss_refs (f st) = 0) →
  (ss_connected (f st) = false → is_Some (m_Status s)) → (ss_refs (f st) ≠ 0 → ss_refs st ≠ 0) →
  (ss_refs (f st) = 0 → is_Some (m_Status s) ∨ 0 < n' is_doom) →
  n' is_read = n is_read → n' is_write = n is_write → n' is_finish = n is_finish → n' is_queue = n is_queue →
  n' is_tail ≤ n is_tail → (∀ g', g' ≠ g → n' (is_rel g') ≤ n (is_rel g')) →
  handled_ a cl g n' (on_stream g f s) k.
Proof.
  intros [H1 H2 H3 H4 [H5 H6] H7 H8 H9 H10 H11 H11d H12] Hst Hr Hc Hl Hk Hz Hd E1 E2 E3 E4 E5 E6.
  destruct H1 as [Ur Usl Uw Un Uf Use Urf Uqu Ubl Ue Uss _ Uo].
  split; rewrite ?E1, ?E2, ?E3, ?E4; auto.
  - split; simpl; auto.
    + exists (f st). by rewrite stream_at_alter, Hst.
    + intros g' Hg'. destruct (Uo g' Hg') as [Hn0 Hg0]. split; [specialize (E6 g' Hg'); lia|].
      intros st'. rewrite stream_at_alter_ne by done. auto.
  - intros. specialize (H8 H). lia.
  - intros Hn st'. rewrite stream_at_alter, Hst. intros [= <-]. auto.
  - intros Ha Hx1 Hx2 Hx3 Hx4. apply (H11 Ha Hx1 Hx2 Hx3). intros st' Hst'. assert (st' = st) as -> by congruence.
    apply Hz, Hx4. by rewrite stream_at_alter, Hst.
  - intros st'. rewrite stream_at_alter, Hst. intros [= <-]. auto.
Qed.

Lemma handled_refs a cl g n s k :
  handled_ a cl g n s k → ∃ st, stream_at g s = Some st ∧
    ss_refs st = b2n (opt_is g (m_ServerStream s)) + n (is_rel g) + ss_user st ∧
    (cl = false → is_Some (m_Status s) → ss_connected st = false ∨ ss_refs st = 0) ∧
    (ss_connected st = false → is_Some (m_Status s)).
Proof. intros Hh. apply (up_refs _ _ _ _ _ (h_up _ _ _ _ _ _ Hh)). Qed.

Lemma release_eq g s st :
  stream_at g s = Some st →
  release g s = (on_stream g disown s : LifeCycleStreaming, if pred (ss_refs st) =? 0 then [ODeleter (ss_connected st)] else []).
Proof. intros Hst. unfold release. rewrite stream_at_alter, Hst. done. Qed.

Lemma is_rel_self g : (g =? g) = true.
Proof. apply Nat.eqb_refl. Qed.

Lemma fine_ORelease g n g' c :
  handled g (plus_op n (ORelease g')) (lc c) (the_call c) → fine g n (exec_op default (ORelease g') c).
Proof.
  intros Hh. simpl.
  assert (g' = g) as ->.
  { destruct (decide (g' = g)) as [|Hne]; [done|].
    destruct (up_old _ _ _ _ _ (h_up _ _ _ _ _ _ Hh) g' Hne) as [Hn _]. unfold plus_op in Hn. simpl in Hn.
    rewrite is_rel_self in Hn. simpl in Hn. lia. }
  destruct (handled_refs _ _ _ _ _ _ Hh) as (st & Hst & Hr & Hc & Hk).
  rewrite (release_eq _ _ _ Hst). unfold fine. cbn [lc the_call set_lc].
  pose proof (h_late _ _ _ _ _ _ Hh) as Hl. unfold plus_op in Hr, Hl. simpl in Hr, Hl. rewrite is_rel_self in Hr. simpl in Hr.
  eapply handled_stream; [exact Hh|exact Hst|..]; unfold plus_op, plus_ops; simpl;
    try (destruct (pred (ss_refs st) =? 0); simpl; intros; lia).
  - intros _ HS. destruct (Hc eq_refl HS); [auto|lia].
  - destruct (Nat.eqb_spec (pred (ss_refs st)) 0); simpl; [lia|]. rewrite !Nat.add_0_r in *. intros Hn. specialize (Hl Hn st Hst). lia.
  - done.
  - intros ->. simpl. destruct (ss_connected st); [right; simpl; lia|auto].
Qed.

Lemma fine_OFinDrop g n c :
  handled g (plus_op n OFinDrop) (lc c) (the_call c) → fine g n (exec_op default OFinDrop c).
Proof.
  intros Hh. simpl.
  assert (m_Finishing (lc c) = true) as Hf.
  { destruct (m_Finishing (lc c)) eqn:E; [done|]. pose proof (handled_open _ _ _ _ _ _ Hh E) as Hp.
    pose proof (h_tail _ _ _ _ _ _ Hh) as Ht. rewrite Hp in Ht. unfold plus_op in Ht. simpl in Ht. specialize (Ht ltac:(done)). lia. }
  destruct (up_fin _ _ _ _ _ (h_up _ _ _ _ _ _ Hh) Hf) as (_ & _ & _ & _ & Hs).
  destruct (m_ServerStream (lc c)) as [g'|] eqn:E.
  2: { simpl. eapply handled_counts; [exact Hh|..]; counts. }
  assert (g' = g) as -> by (destruct (up_ss _ _ _ _ _ (h_up _ _ _ _ _ _ Hh)); congruence).
  destruct (handled_refs _ _ _ _ _ _ Hh) as (st & Hst & Hr & Hc & Hk).
  assert (stream_at g (set_m_ServerStream None (lc c)) = Some st) as Hst' by done.
  rewrite (release_eq _ _ _ Hst'). unfold fine. cbn [lc the_call set_lc].
  unfold opt_is in Hr. rewrite E, bool_decide_true in Hr by done. unfold plus_op in Hr. simpl in Hr.
  pose proof (h_late _ _ _ _ _ _ Hh) as Hl. unfold plus_op in Hl. simpl in Hl.
  destruct Hh as [H1 H2 H3 H4 H5 H6 H7 H8 H9 H10 H10d H11]. destruct H1 as [Ur Usl Uw Un Uf Use Urf Uqu Ubl Ue Uss _ Uo].
  destruct (Uf Hf) as (_ & _ & Hrd & _). unfold plus_op in *. simpl in *.
  split; simpl; unfold plus_ops; try (destruct (pred (ss_refs st) =? 0); simpl; rewrite ?Nat.add_0_r in *; done).
  - split; simpl; auto.
    + exists (disown st). rewrite stream_at_alter, Hst'. split; [done|]. simpl. split.
      * destruct (pred (ss_refs st) =? 0); unfold opt_is; simpl; lia.
      * split; [|done]. intros _ HS. destruct (Hc eq_refl HS); [auto|lia].
    + intros g' Hg'. destruct (Uo g' Hg') as [Hn0 Hg0].
      split; [destruct (pred (ss_refs st) =? 0); simpl; lia|]. intros st'. rewrite stream_at_alter_ne by done. auto.
  - intros Hp. specialize (H7 Hp). lia.
  - intros Hn st'. rewrite stream_at_alter, Hst'. intros [= <-]. simpl.
    destruct (Nat.eqb_spec (pred (ss_refs st)) 0); simpl in *; [lia|]. rewrite !Nat.add_0_r in *. specialize (Hl Hn st Hst). lia.
  - auto.
Qed.

Lemma fine_OInvalidate g n c :
  handled g (plus_op n OInvalidate) (lc c) (the_call c) → fine g n (exec_op default OInvalidate c).
Proof.
  intros Hh. simpl. destruct (expired (lc c)).
  { simpl. eapply handled_counts; [exact Hh|..]; counts. }
  rewrite (up_ext _ _ _ _ _ (h_up _ _ _ _ _ _ Hh)). unfold fine. cbn [lc the_call set_lc].
  destruct (handled_refs _ _ _ _ _ _ Hh) as (st & Hst & Hr & Hc & Hk).
  assert (is_Some (m_Status (lc c))) as HS.
  { destruct (m_Finishing (lc c)) eqn:E; [by apply (up_fin _ _ _ _ _ (h_up _ _ _ _ _ _ Hh) E)|].
    pose proof (h_tail _ _ _ _ _ _ Hh) as Ht. rewrite (handled_open _ _ _ _ _ _ Hh E) in Ht. specialize (Ht ltac:(done)). counts. }
  eapply handled_stream; [exact Hh|exact Hst|..]; try counts; simpl; auto.
  intros Hn. apply (h_late _ _ _ _ _ _ Hh); [|done]. counts.
Qed.

(** Closing, when the stream cannot be used any more or is about to be closed. *)
Lemma handled_close cl cl' g n s k st :
  handled_ false cl g n s k →
  (cl' = true ∨ ∀ st, stream_at g s = Some st → ss_connected st = false ∨ ss_refs st = 0) →
  (strict = true → m_ReadsDone s = true ∨ m_Writing s = false) →
  handled_ true cl' g n (close_fields st s) k.
Proof.
  intros [H1 H2 H3 H4 H5 H6 H7 H8 _ _ _ _] Hcl Hsw.
  destruct H1 as [Ur Usl Uw Un Uf Use Urf Uqu Ubl Ue Uss (sst & Hst & Hr & _) Uo].
  unfold close_fields. simpl. destruct (m_ReadsDone s) eqn:E; (split; simpl; try done; auto; []); split; simpl; auto; rewrite ?E; auto;
    try (exists sst; split_and!; eauto; intros -> _; destruct Hcl; [done|auto]);
    try (intros Hf; destruct (Uf Hf) as (? & ? & ? & ? & ?); split_and!; auto; try congruence; eauto).
  - left. destruct Ur as [?|[?|[? _]]]; [done|congruence|done].
  - intros HS. destruct (Use HS). congruence.
  - intros Hs Hw. destruct (Hsw Hs); congruence.
Qed.

Lemma dead_reads_done a cl g n s k st :
  handled_ a cl g n s k → stream_at g s = Some st → ss_refs st = 0 → m_ReadsDone s = true.
Proof.
  intros Hh Hst Hz. destruct (handled_refs _ _ _ _ _ _ Hh) as (st' & Hst' & Hr & _). assert (st' = st) as -> by congruence.
  destruct (up_ss _ _ _ _ _ (h_up _ _ _ _ _ _ Hh)) as [E|E]; [by apply (up_server _ _ _ _ _ (h_up _ _ _ _ _ _ Hh))|].
  unfold opt_is in Hr. rewrite bool_decide_true in Hr by done. simpl in Hr. lia.
Qed.
Lemma fine_OCancel g n c :
  handled g (plus_op n OCancel) (lc c) (the_call c) →
  (∀ st, stream_at g (lc c) = Some st → ss_refs st = 0) →
  fine g n (CancelResponse default c).
Proof.
  intros Hh Hz. apply (fine_progress false); [done|].
  eapply handled_counts; [eapply (handled_close _ false); [exact Hh|auto|]|..]; try counts.
  - intros _. left. destruct (handled_refs _ _ _ _ _ _ Hh) as (st' & Hst' & _). eapply dead_reads_done; eauto.
  - simpl. unfold close_fields. by destruct (m_ReadsDone _).
Qed.

(** Replacing an operation by others with the same counts, or fewer. *)
Lemma fine_swap g n op op' m :
  handled g (plus_op n op) (lc m) (the_call m) →
  (∀ f, f ∈ [is_read; is_write; is_finish; is_queue] → f op' = f op) →
  (is_tail op' = true → is_tail op = true) → (is_late op' = true → is_late op = true) →
  (∀ g, is_rel g op' = is_rel g op) → (is_doom op = true → is_doom op' = true) →
  handled g (plus_op n op') (lc m) (the_call m).
Proof.
  intros Hh Hf H1 H2 H3 H4. eapply handled_counts; [exact Hh|..]; unfold plus_op.
  1-4: rewrite Hf; [done|set_solver].
  1,2: destruct (is_tail op'), (is_tail op), (is_late op'), (is_late op); simpl; try lia; naive_solver.
  { intros. by rewrite H3. }
  intros _. destruct (is_doom op), (is_doom op'); simpl; solve [lia|naive_solver].
Qed.

Lemma late_dead g n op s k :
  handled g (plus_op n op) s k → is_late op = true → ∀ st, stream_at g s = Some st → ss_refs st = 0.
Proof. intros Hh Hl. apply (h_late _ _ _ _ _ _ Hh). unfold plus_op. rewrite Hl. simpl. lia. Qed.

Lemma handled_block a cl g n s k b :
  handled_ a cl g n s k → (b = true → strict = false) → handled_ a cl g n (set_m_BlockFinish b s) k.
Proof.
  intros [[Ur Usl Uw Un Uf Use Urf Uqu Ubl Ue Uss Ust Uo] H2 H3 H4 H5 H6 H7 H8 H9 H10 H10d H11] Hb. split; auto.
  - split; auto. intros Hs. simpl. destruct b; [|done]. rewrite Hs in Hb. by specialize (Hb eq_refl).
  - intros Ha Hs. specialize (H9 Ha Hs). specialize (Ubl Hs). unfold live in *. simpl. auto.
Qed.

Lemma fine_late g n op c :
  handled g (plus_op n op) (lc c) (the_call c) → is_late op = true → fine g n (exec_op default op c).
Proof.
  intros Hh Hl. pose proof (late_dead _ _ _ _ _ Hh Hl) as Hd. destruct op as [| | | | | |conn|conn| | | | | | |]; try done; simpl.
  - (* the deleter evaluates the state, then destroys the object *)
    assert (handled g (plus_op n (ODestroy conn)) (lc c) (the_call c)) as Hh'.
    { eapply fine_swap; [exact Hh|..]; try done. set_solver. }
    destruct (progress_ok _ _ _ _ (handled_arrived _ _ _ _ _ _ Hh')) as (s & a & -> & H).
    simpl. eapply handled_counts; [exact H|..]; unfold plus_op, plus_ops in *; intros; rewrite ?countb_app in *; destruct conn; simpl in *; lia.
  - destruct conn; simpl; (eapply handled_counts; [exact Hh|..]; counts).
  - apply handled_block; [|done]. eapply handled_counts; [exact Hh|..]; counts.
  - by apply fine_OCancel.
Qed.

Lemma fine_op g n op c :
  handled g (plus_op n op) (lc c) (the_call c) → is_reset op = false → fine g n (exec_op default op c).
Proof.
  intros Hh Hr. destruct op as [|cb| | | |g'|conn|conn| | | | | | |]; try done.
  - by apply fine_OWrite.
  - destruct cb; simpl; (eapply handled_counts; [exact Hh|..]; counts).
  - simpl. eapply handled_counts; [exact Hh|..]; counts.
  - by apply fine_ORead.
  - by apply fine_OFinish.
  - by apply fine_ORelease.
  - by apply fine_late.
  - by apply fine_late.
  - by apply fine_late.
  - by apply fine_late.
  - eapply (fine_progress false); [done|]. apply handled_arrived with false. eapply handled_counts; [exact Hh|..]; counts.
  - by apply fine_OFinDrop.
  - by apply fine_OInvalidate.
  - pose proof (h_queue _ _ _ _ _ _ Hh) as Hq. unfold plus_op in Hq. simpl in Hq. lia.
Qed.

(** ** Orderly use *)
(** The context is reset when its operations are done and its streams released. *)
Definition quiet (i : nat) (c : config) : bool :=
  match threads c !! i with
  | Some (OReset :: rest) =>
      forallb (λ t, match t with [] => true | _ :: _ => false end) (<[i := rest]> (threads c)) &&
      forallb (λ st, (ss_refs st =? 0) && (ss_user st =? 0)) (m_streams (lc c))
  | _ => true
  end.
Definition closable (c : config) : bool := negb strict || m_ReadsDone (lc c) || negb (m_Writing (lc c)).
(** The hook that opens a stream does not use it, no write fails, and resets are
    quiet.  With [strict] a user also closes a stream only when the client has
    closed its half or no write is in flight, and does not block its end. *)
Definition orderly (c : config) (e : event) : bool :=
  match e with
  | EMain _ hook => match hook with [] => true | _ :: _ => false end
  | EWrite ok => ok
  | EStep i => quiet i c
  | EUser _ (UCancel | UFinish) => closable c
  | EUser _ UBlock => negb strict
  | _ => true
  end.

Lemma Inv_ext n n' s k : (∀ f, n' f = n f) → Inv_ n s k → Inv_ n' s k.
Proof.
  intros Hn [Hw|[g Hh]]; [left; unfold waiting in *; rewrite !Hn; done|right; exists g].
  eapply handled_counts; [exact Hh|..]; intros; rewrite ?Hn in *; done.
Qed.

Lemma fine_spawned g (c0 : config) m :
  fine g (λ f, pend f (threads c0)) m →
  (∀ c ops, m = Next (c, ops) → threads c = threads c0) →
  match spawned m with Next c => Inv c | Fault f => excused f | Disabled => True end.
Proof.
  intros Hf Ht. destruct m as [|f|[c ops]]; simpl in *; [done|done|].
  specialize (Ht c ops eq_refl). right. exists g. simpl. rewrite Ht.
  eapply handled_counts; [exact Hf|..]; intros; unfold plus_ops in *; rewrite ?pend_spawn in *; lia.
Qed.

(** No operation touches the list of threads. *)
Lemma progress_threads c c' ops : progress default c = Next (c', ops) → threads c' = threads c.
Proof. unfold progress. destruct (EvaluateState default (lc c)) as [[]|]; intros; simplify_eq; done. Qed.
Lemma with_call_threads f (c c' : config) : with_call f c = Next c' → threads c' = threads c.
Proof. unfold with_call. destruct (f _); intros; simplify_eq/=; done. Qed.
Lemma CloseStream_threads st c c' ops : CloseStream default st c = Next (c', ops) → threads c' = threads c.
Proof. intros H. by apply progress_threads in H. Qed.

Lemma exec_op_threads op c c' ops : exec_op default op c = Next (c', ops) → threads c' = threads c.
Proof.
  intros H. destruct op as [|[]| | | |g'|conn|conn| | | | | | |]; simpl in H; simplify_eq/=; auto;
    repeat match goal with
           | H : context [with_call ?f c] |- _ => let E := fresh in destruct (with_call f c) eqn:E; simplify_eq/=; apply with_call_threads in E
           | H : context [match ?x with _ => _ end] |- _ => destruct x eqn:?; simplify_eq/=
           end; auto.
  - destruct (progress default c) as [| |[]] eqn:E; simplify_eq/=. by eapply progress_threads.
  - by apply CloseStream_threads in H.
  - by apply progress_threads in H.
  - unfold Reset in *.
    destruct (m_ServerStream (lc c)); [|by simplify_eq/=]. destruct (release _ _). by simplify_eq/=.
Qed.

Definition kept (m : outcome config) : Prop :=
  match m with Next c => Inv c | Fault f => excused f | Disabled => True end.

Lemma pend_zero ths : forallb (λ t : list microop, match t with [] => true | _ :: _ => false end) ths = true → ∀ f, pend f ths = 0.
Proof. induction ths as [|[|] ths IH]; simpl; [done| |done]. intros H f. by rewrite IH. Qed.

(** ** Threads go on *)
Lemma waiting_no_life n s k op : waiting (plus_op n op) s k → is_life op = false.
Proof. intros (_ & _ & _ & _ & _ & _ & Hl & _). unfold plus_op in Hl. destruct (is_life op); simpl in Hl; [lia|done]. Qed.

Lemma reset_down n s k :
  Inv_ n s k → (∀ st, st ∈ m_streams s → ss_refs st = 0 ∧ ss_user st = 0) → m_ServerStream s = None.
Proof.
  intros [(Hd & _)|[g Hh]] Hz; [by destruct Hd as (_ & _ & _ & _ & _ & _ & ? & _)|].
  destruct (handled_refs _ _ _ _ _ _ Hh) as (st & Hst & Hr & _).
  destruct (Hz st) as [Hz1 _]; [by eapply list_elem_of_lookup_2|].
  destruct (up_ss _ _ _ _ _ (h_up _ _ _ _ _ _ Hh)) as [|E]; [done|].
  unfold opt_is in Hr. rewrite bool_decide_true in Hr by done. simpl in Hr. lia.
Qed.

Lemma streams_zero (l : list ServerStream) :
  forallb (λ st, (ss_refs st =? 0) && (ss_user st =? 0)) l = true → ∀ st, st ∈ l → ss_refs st = 0 ∧ ss_user st = 0.
Proof.
  intros H st Hst. apply Is_true_true, forallb_True in H. rewrite Forall_forall in H. specialize (H st Hst).
  apply Is_true_true, andb_prop in H as [?%Nat.eqb_eq ?%Nat.eqb_eq]. done.
Qed.

Lemma Inv_block n s k : Inv_ n s k → strict = true → m_BlockFinish s = false.
Proof.
  intros [(Hd & _)|[g Hh]]; [by destruct Hd as (_ & _ & _ & _ & _ & _ & _ & _ & _ & _ & ?)|].
  apply (up_block _ _ _ _ _ (h_up _ _ _ _ _ _ Hh)).
Qed.

Lemma kept_reset c n :
  Inv_ (plus_op n OReset) (lc c) (the_call c) → (∀ f, n f = 0) →
  (∀ st, st ∈ m_streams (lc c) → ss_refs st = 0 ∧ ss_user st = 0) →
  ∃ c' ops, exec_op default OReset c = Next (c', ops) ∧ Inv_ (plus_ops n ops) (lc c') (the_call c').
Proof.
  intros HI Hn Hz. simpl. destruct (m_Running c) eqn:E.
  - unfold Reset. rewrite (reset_down _ _ _ HI Hz). eexists _, _. split; [done|]. simpl. left.
    unfold waiting, plus_ops, down. simpl. rewrite !Hn. split_and!; try done; [|by eapply Inv_block|by left; split; [|lia]].
    intros g st Hst. apply Hz. by eapply list_elem_of_lookup_2.
  - eexists _, _. split; [done|]. destruct HI as [Hw|[g Hh]].
    + left. unfold waiting, plus_op, plus_ops in *. simpl in *. rewrite !Hn in *.
      destruct Hw as (? & ? & ? & ? & ? & ? & ? & H1 & H2). split_and!; auto.
      destruct H2 as [[? ?]|(? & ? & ?)]; [left; split; [done|lia]|lia].
    + right. exists g. eapply handled_counts; [exact Hh|..]; unfold plus_op, plus_ops; simpl; rewrite ?Hn; intros; rewrite ?Hn; lia.
Qed.

Lemma kept_queue c n :
  waiting (plus_op n OQueue) (lc c) (the_call c) →
  ∃ c', exec_op default OQueue c = Next (c', []) ∧ Inv_ n (lc c') (the_call c').
Proof.
  intros (Hd & H1 & H2 & H3 & H4 & H5 & H6 & H7 & H8). unfold plus_op in *. simpl in *.
  destruct H8 as [[Hp Hc]|(_ & _ & ?)]; [|lia]. unfold with_call, post_request. rewrite Hp. simpl.
  eexists. split; [done|]. left. unfold waiting. simpl. rewrite !Nat.add_0_r in *.
  assert (n is_queue = 0) as Hq by lia. rewrite Hq in H7. simpl in H7. split_and!; auto.
  right. split_and!; [done|lia|lia].
Qed.

Lemma kept_EStep c i : Inv c → quiet i c = true → kept (step default c (EStep i)).
Proof.
  intros HI Hquiet. simpl. destruct (threads c !! i) as [[|op rest]|] eqn:Hi; [done| |done].
  set (n := λ f, pend f (<[i := rest]> (threads c))).
  assert (∀ f, pend f (threads c) = plus_op n op f) as Hn.
  { intros f. pose proof (pend_insert f _ _ _ rest Hi) as H. subst n. unfold plus_op. simpl in H. simpl. unfold b2n. lia. }
  assert (∀ new f, pend f (<[i := new ++ rest]> (threads c)) = plus_ops n new f) as Hn'.
  { intros new f. pose proof (pend_insert f _ _ _ rest Hi) as H. pose proof (pend_insert f _ _ _ (new ++ rest) Hi) as H'.
    subst n. unfold plus_ops. rewrite countb_app in H'. lia. }
  apply (Inv_ext _ (plus_op n op)) in HI; [|by intros; rewrite Hn].
  assert (∀ c' new, exec_op default op c = Next (c', new) → Inv_ (plus_ops n new) (lc c') (the_call c') →
            kept (outcome_bind (exec_op default op c) (λ '(c, new), Next (set_threads (<[i:=new ++ rest]> (threads c)) c)))) as Hstep.
  { intros c' new Hx Hc'. rewrite Hx. simpl. rewrite (exec_op_threads _ _ _ _ Hx). eapply Inv_ext; [|exact Hc']. apply Hn'. }
  destruct (is_reset op) eqn:Er.
  { destruct op; try done. unfold quiet in Hquiet. rewrite Hi in Hquiet. apply andb_prop in Hquiet as [Q1 Q2].
    destruct (kept_reset c n HI) as (c' & ops & Hx & Hc'); [by apply pend_zero|by apply streams_zero|]. by eapply Hstep. }
  destruct HI as [Hw|[g Hh]].
  - pose proof (waiting_no_life _ _ _ _ Hw) as Hl. destruct op; try done.
    destruct (kept_queue _ _ Hw) as (c' & Hx & Hc'). eapply Hstep; [done|]. eapply Inv_ext; [|exact Hc'].
    intros f. unfold plus_ops. simpl. lia.
  - pose proof (fine_op _ _ _ _ Hh Er) as Hf. unfold fine in Hf.
    destruct (exec_op default op c) as [|f|[c' new]] eqn:Hx; [done|done|].
    eapply Hstep; [done|]. by right; exists g.
Qed.

(** ** Completions *)
Lemma kept_EMain c ok : Inv c → kept (step default c (EMain ok [])).
Proof.
  intros HI. simpl. unfold complete_main. destruct HI as [Hw|[g Hh]].
  - destruct Hw as (Hd & H1 & H2 & H3 & H4 & H5 & H6 & H7 & [[-> _]|(Hp & H8 & H9)]); [done|].
    rewrite Hp. simpl. rewrite H7 by auto. simpl.
    assert (∀ f, (∀ op, f op = true → is_life op = true) → pend f (threads c) = 0) as Hz.
    { intros f Hf. pose proof (pend_le f _ (threads c) Hf). lia. }
    pose proof Hd as (D1 & D2 & D3 & D4 & D5 & D6 & D7 & D8 & D9 & D10 & D11).
    destruct ok; simpl.
    2: { left. unfold waiting. simpl. rewrite !pend_spawn. simpl. rewrite H3, H4, H5, H6, H8, H9. simpl.
         split_and!; auto. }
    right. exists (length (m_streams (lc c))).
    split; simpl; rewrite ?pend_spawn; simpl; rewrite ?H3, ?H4, ?H5, ?H9, ?D2, ?D3, ?D6; try done.
    + split; simpl; rewrite ?D2, ?D3, ?D4, ?D6, ?D10; auto; try done.
      * exists (SStream 1 0 true). unfold stream_at, opt_is. simpl. rewrite bool_decide_true by done.
        rewrite pend_spawn, Hz by (by intros []). split_and!; [by apply list_lookup_middle|done| |done].
        rewrite D8. by intros _ [].
      * intros g' Hg'. rewrite pend_spawn, Hz by (by intros []). split; [done|]. intros st.
        unfold stream_at. simpl. intros [Hst|[Hle Hst]]%lookup_app_Some; [by apply (D9 g')|].
        apply list_lookup_singleton_Some in Hst as [Hi _]. lia.
    + intros _. pose proof (pend_le2 is_tail is_life is_reset (threads c)) as Ht. rewrite H6, H8 in Ht.
      rewrite Nat.add_0_r. apply Nat.le_0_r, Ht. intros []; auto.
    + rewrite Hz by (by intros []). simpl. lia.
    + intros _ _. done.
    + intros st. unfold stream_at. simpl. rewrite list_lookup_middle by done. by intros [= <-].
  - destruct (phase (the_call c)) eqn:Hp; try done; [by destruct (h_phase _ _ _ _ _ _ Hh)|]. simpl.
    pose proof (h_finish _ _ _ _ _ _ Hh) as H4. rewrite Hp, bool_decide_true in H4 by auto.
    destruct (m_Finishing (lc c)) eqn:Ef; simpl in H4; [|lia].
    rewrite (up_next _ _ _ _ _ (h_up _ _ _ _ _ _ Hh)), Ef. simpl. right. exists g.
    destruct Hh as [U1 U2 U3 U4 [U5 U6] U7 U8 U9 U10 U11 U11d U12].
    split; simpl; rewrite ?pend_spawn; simpl; rewrite ?Nat.add_0_r, ?Ef; auto; try done.
    eapply up_ext_nrel; [done| |auto]. intros g'. by rewrite pend_spawn, Nat.add_0_r.
Qed.

(** The state while a completion is handled. *)
Lemma kept_progress c0 c g :
  threads c = threads c0 → handled_ true false g (λ f, pend f (threads c0)) (lc c) (the_call c) →
  kept (spawned (progress default c)).
Proof.
  intros Ht Hh. apply (fine_spawned g c0); [by apply (fine_progress false)|].
  intros c' ops H%progress_threads. congruence.
Qed.

Lemma waiting_quiet n s k : waiting n s k → complete_read k = None ∧ complete_write k = None.
Proof. intros (_ & H1 & H2 & _). unfold complete_read, complete_write. by rewrite H1, H2. Qed.

Lemma kept_ERead c r : Inv c → kept (step default c (ERead r)).
Proof.
  intros [Hw|[g Hh]]; simpl; [by destruct (waiting_quiet _ _ _ Hw) as [-> _]|].
  unfold complete_read. destruct (rd (the_call c)) eqn:Erd; simpl; [|done].
  pose proof (h_read _ _ _ _ _ _ Hh) as H2. rewrite Erd in H2. destruct (m_Reading (lc c)) eqn:Er; simpl in H2; [|lia].
  destruct Hh as [[Ur Usl Uw Un Uf Use Urf Uqu Ubl Ue Uss (st & Ust) Uo] _ H3 H4 [H5 H6] H7 H8 H9 H10 H11 H11d H12].
  assert (m_Finishing (lc c) = false) as Ef.
  { destruct (m_Finishing (lc c)); [|done]. destruct Uf as (? & _); congruence. }
  destruct (Usl Er) as (Hn & Hlen & _). destruct (m_RequestQueue (lc c)) as [|r0 [|??]] eqn:Eq; simplify_eq/=.
  destruct r as [r|]; simpl; rewrite ?Hn; simpl; unfold StateReadDone_fn; simpl; rewrite ?Eq; simpl;
    apply (kept_progress c _ g); try done; (split; simpl; auto; try lia; try done);
    (split; simpl; rewrite ?Ef; auto; try done; try (by exists st)).
  1,2: by rewrite Ef in Un.
  intros HS. destruct (Use HS). auto.
Qed.

Lemma kept_EWrite c : Inv c → kept (step default c (EWrite true)).
Proof.
  intros [Hw|[g Hh]]; simpl; [by destruct (waiting_quiet _ _ _ Hw) as [_ ->]|].
  unfold complete_write. destruct (wr (the_call c)) eqn:Ewr; simpl; [|done].
  pose proof (h_write _ _ _ _ _ _ Hh) as H2. rewrite Ewr in H2. destruct (m_Writing (lc c)) eqn:Er; simpl in H2; [|lia].
  destruct Hh as [[Ur Usl Uw Un Uf Use Urf Uqu Ubl Ue Uss (st & Ust) Uo] H3 _ H4 [H5 H6] H7 H8 H9 H10 H11 H11d H12].
  assert (m_Finishing (lc c) = false) as Ef.
  { destruct (m_Finishing (lc c)); [|done]. destruct Uf as (_ & ? & _); congruence. }
  rewrite (Uw Er). simpl. unfold StateWriteDone_fn. simpl. destruct (m_ResponseQueue (lc c)) as [|x q] eqn:Eq.
  { split; [done|]. destruct strict; [|done]. by destruct (Uqu eq_refl Er). }
  apply (kept_progress c _ g); [done|]. (split; simpl; auto; try lia; try done).
  split; simpl; rewrite ?Ef; auto; try done; [naive_solver|by rewrite Ef in Un|by exists st].
Qed.

(** ** Users *)
Lemma live_stream n s k g' st :
  Inv_ n s k → stream_at g' s = Some st → ss_refs st ≠ 0 ∨ ss_user st ≠ 0 → handled g' n s k.
Proof.
  intros [(Hd & _)|[g Hh]] Hst Hr.
  - destruct Hd as (_ & _ & _ & _ & _ & _ & _ & _ & Hz & _). destruct (Hz _ _ Hst). naive_solver.
  - destruct (decide (g' = g)) as [->|Hne]; [done|].
    destruct (up_old _ _ _ _ _ (h_up _ _ _ _ _ _ Hh) g' Hne) as [_ Hz]. destruct (Hz _ Hst). naive_solver.
Qed.

Lemma kept_close c g st op status :
  handled g (λ f, pend f (threads c)) (lc c) (the_call c) → stream_at g (lc c) = Some st → op = CloseStream default status c →
  (strict = true → m_ReadsDone (lc c) = true ∨ m_Writing (lc c) = false) →
  kept (spawned (outcome_bind op (λ '(c', ops), Next (set_lc (on_stream g disconnect (lc c')) c', ops)))).
Proof.
  intros Hh Hst -> Hsw. unfold CloseStream.
  assert (handled_ true true g (λ f, pend f (threads c)) (close_fields status (lc c)) (the_call c)) as Hh'.
  { eapply handled_close; [exact Hh|auto|done]. }
  destruct (progress_ok true g _ (set_lc (close_fields status (lc c)) c) Hh') as (s & a & Hx & H). rewrite Hx. simpl.
  assert (is_Some (m_Status s)) as HS.
  { revert Hx. unfold progress. simpl. destruct (EvaluateState_up _ _ _ _ (h_up _ _ _ _ _ _ Hh')) as (s2 & a2 & Hs2 & Hst2 & _).
    rewrite Hs2. intros [= -> _]. rewrite (st_status _ _ _ _ _ _ Hst2). unfold close_fields. destruct (m_ReadsDone _); simpl; eauto. }
  right. exists g. simpl. destruct (handled_refs _ _ _ _ _ _ H) as (st' & Hst' & Hr & _ & Hk).
  assert (handled_ false true g (plus_ops (λ f, pend f (threads c)) (ForwardProgress a)) (on_stream g disconnect s) (the_call c)) as H'.
  { eapply handled_stream; [exact H|exact Hst'|..]; try done; simpl; try (unfold plus_ops; lia); auto.
    intros Hl. by apply (h_late _ _ _ _ _ _ H). }
  destruct H' as [[Ur Usl Uw Un Uf Use Urf Uqu Ubl Ue Uss (st2 & Hst2 & Hr2 & _ & Hk2) Uo] H2 H3 H4 [H5 H6] H7 H8 H9 H10 H11 H11d H12].
  unfold plus_ops in *. split; simpl; rewrite ?pend_spawn; auto.
  split; auto.
  - exists st2. rewrite pend_spawn. split_and!; auto. intros _ _. left.
    rewrite stream_at_alter, Hst' in Hst2. by injection Hst2 as <-.
  - intros g' Hg'. rewrite pend_spawn. auto.
Qed.

Lemma may_close c : closable c = true → strict = true → m_ReadsDone (lc c) = true ∨ m_Writing (lc c) = false.
Proof. unfold closable. intros Hc ->. destruct (m_ReadsDone (lc c)), (m_Writing (lc c)); auto. Qed.

Lemma kept_EUser c g op : Inv c → orderly c (EUser g op) = true → kept (step default c (EUser g op)).
Proof.
  intros HI Ho. simpl in *. destruct (stream_at g (lc c)) as [st|] eqn:Hst; [|done].
  destruct (Nat.eqb_spec (ss_refs st) 0) as [|Hr]; [done|].
  pose proof (live_stream _ _ _ _ _ HI Hst (or_introl Hr)) as Hh.
  unfold user_call. rewrite Hst. destruct (ss_connected st) eqn:Ec; simpl.
  2: { eapply Inv_ext, HI. intros f. simpl. rewrite pend_spawn. simpl. lia. }
  destruct (handled_refs _ _ _ _ _ _ Hh) as (st' & Hst' & _ & Hc & _). assert (st' = st) as -> by congruence.
  assert (m_Status (lc c) = None) as Hs.
  { destruct (m_Status (lc c)); [|done]. destruct Hc; [done|done|congruence|done]. }
  destruct op as [r| | | |].
  - apply (kept_progress c _ g); [done|]. simpl.
    destruct Hh as [[Ur Usl Uw Un Uf Use Urf Uqu Ubl Ue Uss Ust Uo] H2 H3 H4 H5 H6 H7 H8 H9 H10 H10d H11]. split; simpl; auto; try done. split; simpl; auto.
    + destruct Ur as [?|[?|[? _]]]; auto; done.
    + intros Hf. destruct (Uf Hf) as (_ & _ & _ & _ & ?). rewrite Hs in *. by destruct (is_Some_None (A:=grpc_status)).
    + intros _ _. by destruct (m_ResponseQueue (lc c)).
  - eapply kept_close; [done|done|done|]. by apply may_close.
  - eapply kept_close; [done|done|done|]. by apply may_close.
  - right. exists g. simpl. apply handled_block; [|by destruct strict]. eapply handled_counts; [exact Hh|..]; intros; rewrite ?pend_spawn in *; simpl in *; lia.
  - right. exists g. simpl. apply handled_block; [|done]. eapply handled_counts; [exact Hh|..]; intros; rewrite ?pend_spawn in *; simpl in *; lia.
Qed.

Lemma kept_ECopy c g : Inv c → kept (step default c (ECopy g)).
Proof.
  intros HI. simpl. destruct (stream_at g (lc c)) as [st|] eqn:Hst; [|done].
  destruct (Nat.eqb_spec (ss_refs st) 0) as [|Hr]; [done|].
  pose proof (live_stream _ _ _ _ _ HI Hst (or_introl Hr)) as Hh. right. exists g. simpl.
  destruct (handled_refs _ _ _ _ _ _ Hh) as (st' & Hst' & Hrefs & Hc & Hk). assert (st' = st) as -> by congruence.
  eapply handled_stream; [exact Hh|exact Hst|..]; simpl; auto; [lia| | |done].
  - intros _ HS. destruct (Hc eq_refl HS); auto; done.
  - intros Hl. pose proof (h_late _ _ _ _ _ _ Hh Hl st Hst). lia.
Qed.

Lemma kept_EDrop c g : Inv c → kept (step default c (EDrop g)).
Proof.
  intros HI. simpl. destruct (stream_at g (lc c)) as [st|] eqn:Hst; [|done].
  destruct (Nat.eqb_spec (ss_user st) 0) as [|Hu]; [done|].
  pose proof (live_stream _ _ _ _ _ HI Hst (or_intror Hu)) as Hh.
  destruct (handled_refs _ _ _ _ _ _ Hh) as (st' & Hst' & Hrefs & Hc & Hk). assert (st' = st) as -> by congruence.
  set (s1 := on_stream g _ (lc c)).
  assert (stream_at g s1 = Some (SStream (ss_refs st) (pred (ss_user st)) (ss_connected st))) as Hs1.
  { subst s1. by rewrite stream_at_alter, Hst. }
  rewrite (release_eq _ _ _ Hs1). simpl. right. exists g. simpl.
  assert (on_stream g disown s1 = on_stream g (λ st, SStream (pred (ss_refs st)) (pred (ss_user st)) (ss_connected st)) (lc c)) as ->.
  { subst s1. unfold on_stream. simpl. unfold set_m_streams. simpl. f_equal.
    apply list_eq; intros i; rewrite !list_lookup_alter; case_decide; [|done]; subst; unfold stream_at in Hst; by rewrite decide_True, Hst. }
  eapply handled_stream; [exact Hh|exact Hst|..]; simpl; intros; rewrite ?pend_spawn in *; simpl;
    try (destruct (pred (ss_refs st) =? 0); simpl in *; lia).
  - destruct (Hc eq_refl); auto; lia.
  - destruct (Nat.eqb_spec (pred (ss_refs st)) 0); simpl in *; [lia|]. rewrite Nat.add_0_r in *.
    pose proof (h_late _ _ _ _ _ _ Hh ltac:(done) st Hst). lia.
  - auto.
  - destruct (ss_connected st); [|auto]. right.
    destruct (Nat.eqb_spec (pred (ss_refs st)) 0); simpl in *; [lia|congruence].
Qed.

Lemma Inv_start : Inv start.
Proof.
  left. unfold waiting, down. simpl. split_and!; try done; [by intros [|]|].
  left. split; [done|lia].
Qed.

Lemma kept_step c e : Inv c → orderly c e = true → kept (step default c e).
Proof.
  intros HI Ho. destruct e as [ok [|]|r|[]|g op|g|g|i|]; try done.
  - by apply kept_EMain.
  - by apply kept_ERead.
  - by apply kept_EWrite.
  - by apply kept_EUser.
  - by apply kept_ECopy.
  - by apply kept_EDrop.
  - by apply kept_EStep.
Qed.
End invariant.
