(* ===== verification/StreamingSpec.v ===== *)
(** * The streaming life cycle: what it promises

    Theorems about the model of [Streaming], from the invariant of
    [StreamingInv]: the rules of the call are kept, responses and requests keep
    their order, threads end, and an open call waits only for its users; then
    the uses that break the context. *)
From S2P Require Import Prelude Grpc Streaming StreamingInv.

Section spec.
Context {Request Response : Type} (default : Request) (strict : bool).
Notation LifeCycleStreaming := (@LifeCycleStreaming Request Response).
Notation config := (@config Request Response).
Notation microop := (@microop Request).
Notation Actions := (@Actions Request).
Notation event := (@event Request Response).
Notation Inv := (@Inv Request Response strict).
Notation handled := (@handled_ Request Response strict false false).
Implicit Types (c : config) (s : LifeCycleStreaming).

(** ** Order of requests and responses *)
Definition exec_req (op : microop) : option Request :=
  match op with OExec (CbRequest r _) => Some r | _ => None end.
Definition reqs (t : list microop) : list Request := omap exec_req t.
Definition pending_reqs (ths : list (list microop)) : list Request := concat (reqs <$> ths).

(** A thread posts the next read only after it delivered its request. *)
Fixpoint read_after (t : list microop) : Prop :=
  match t with
  | [] => True
  | op :: t' => (is_Some (exec_req op) → length (reqs t') < countb is_read t') ∧ read_after t'
  end.

Lemma reqs_app t1 t2 : reqs (t1 ++ t2) = reqs t1 ++ reqs t2.
Proof. apply omap_app. Qed.
Lemma reqs_cons op t : reqs (op :: t) = match exec_req op with Some r => r :: reqs t | None => reqs t end.
Proof. done. Qed.
Lemma reqs_le_reads t : read_after t → length (reqs t) ≤ countb is_read t.
Proof.
  induction t as [|op t IH]; [done|]. intros [H1 H2]. rewrite reqs_cons. cbn [countb]. specialize (IH H2).
  destruct (exec_req op) as [r|] eqn:E; simpl; [|lia]. specialize (H1 ltac:(eauto)). lia.
Qed.
Lemma read_after_app t1 t2 : read_after t1 → read_after t2 → read_after (t1 ++ t2).
Proof.
  induction t1 as [|op t1 IH]; [done|]. intros [H1 H1'] H2. simpl. split; [|auto].
  intros Hop. specialize (H1 Hop). rewrite reqs_app, length_app, countb_app. pose proof (reqs_le_reads t2 H2). lia.
Qed.
Lemma pending_le ths : Forall read_after ths → length (pending_reqs ths) ≤ pend is_read ths.
Proof.
  unfold pending_reqs, pend. induction 1 as [|t ths Ht _ IH]; [done|]. cbn [sum_list_with fmap list_fmap concat].
  rewrite length_app. pose proof (reqs_le_reads t Ht). lia.
Qed.
Lemma pending_app ths t : pending_reqs (ths ++ [t]) = pending_reqs ths ++ reqs t.
Proof. unfold pending_reqs. rewrite fmap_app, concat_app. cbn [fmap list_fmap concat]. by rewrite app_nil_r. Qed.
Lemma pending_insert ths i t :
  ths !! i = Some t → ∃ A B, pending_reqs ths = A ++ reqs t ++ B ∧ ∀ t', pending_reqs (<[i := t']> ths) = A ++ reqs t' ++ B.
Proof.
  intros Hi. exists (pending_reqs (take i ths)), (pending_reqs (drop (S i) ths)).
  assert (∀ t', pending_reqs (take i ths ++ t' :: drop (S i) ths) = pending_reqs (take i ths) ++ reqs t' ++ pending_reqs (drop (S i) ths)) as Ha.
  { intros t'. unfold pending_reqs. by rewrite fmap_app, concat_app. }
  split; [rewrite <-Ha; by rewrite take_drop_middle|].
  intros t'. rewrite <-Ha, insert_take_drop; [done|]. by eapply lookup_lt_Some.
Qed.

(** *** What the operations do to the logs *)
Definition cb_req (x : option callback) : list Request :=
  match x with Some (CbRequest r _) => [r] | _ => [] end.

Lemma ForwardProgress_reqs (a : Actions) :
  (cb_req (should_execute a) ≠ [] → should_read a = true) →
  read_after (ForwardProgress a) ∧ reqs (ForwardProgress a) = cb_req (should_execute a).
Proof.
  intros H. unfold ForwardProgress. destruct a as [r w x f d]. simpl in *.
  assert (∀ l, read_after (match d with Some g => [ORelease g] | None => [] end ++ l) ↔ read_after l) as Hd.
  { intros l. destruct d; simpl; [|done]. split; [by intros [_ ?]|]. intros Hl. split; [by intros []|done]. }
  assert (∀ l, reqs (match d with Some g => [ORelease g] | None => [] end ++ l) = reqs l) as Hd'.
  { intros l. by destruct d. }
  rewrite Hd, Hd'.
  destruct x as [[q p|p]|]; simpl in *; [rewrite H by done| |]; destruct w, f; try destruct p; try destruct r; simpl;
    (split; [|done]); split_and?; try (by intros []); try done; try (intros _; simpl; unfold reqs; simpl; lia).
Qed.

(** [EvaluateState] keeps the response queue and the status, and delivers the
    request that it takes from its slot, unless the call was cancelled. *)
Lemma EvaluateState_frame s s' a :
  EvaluateState default s = Some (s', a) →
  m_ResponseQueue s' = m_ResponseQueue s ∧ m_Status s' = m_Status s ∧
  read_after (ForwardProgress a) ∧
  reqs (ForwardProgress a) =
    if negb (m_Reading s) && negb (m_ReadsDone s) && negb (bool_decide (m_Status s = Some StatusCANCELLED))
    then take 1 (m_RequestQueue s ++ [default]) else [].
Proof.
  unfold EvaluateState. intros H.
  destruct (ev_finished (ev_read default s)) as [[s2 a2]|] eqn:E2; simplify_eq/=.
  set (fire := negb (m_Reading s) && negb (m_ReadsDone s)).
  assert (m_ResponseQueue s2 = m_ResponseQueue s ∧ m_Status s2 = m_Status s ∧ should_read a2 = fire ∧
          cb_req (should_execute a2) = if fire then take 1 (m_RequestQueue s ++ [default]) else []) as (Q2 & S2 & R2 & X2).
  { unfold fire, ev_read in *. destruct (m_Reading s) eqn:E3; simpl in *.
    { rewrite E3 in E2. by simplify_eq/=. }
    destruct (m_ReadsDone s) eqn:E4; simpl in *.
    - destruct (_ && _); [|by simplify_eq/=]. destruct (m_ServerStream s); by simplify_eq/=.
    - destruct (m_RequestQueue s ++ [default]) as [|x q] eqn:Eq; [by destruct (m_RequestQueue s)|].
      destruct (m_ServerStream s); by simplify_eq/=. }
  assert (m_ResponseQueue s' = m_ResponseQueue s ∧ m_Status s' = m_Status s ∧ should_read a = fire ∧
          should_execute a = if bool_decide (m_Status s = Some StatusCANCELLED) then None else should_execute a2) as (Q3 & S3 & R3 & X3).
  { rewrite <-Q2, <-S2. unfold ev_cancel, ev_write, ev_finish in H. clear -H R2.
    destruct (m_Status s2) as [[]|] eqn:ES; simpl in *;
    repeat match goal with
           | H : context [if ?b then _ else _] |- _ => destruct b eqn:?; simplify_eq/=
           end; rewrite ?ES; try done. }
  destruct (ForwardProgress_reqs a) as [F1 F2].
  { rewrite X3, R3. case_bool_decide; [done|]. rewrite X2. by destruct fire. }
  split_and!; [done|done|done|]. rewrite F2, X3. case_bool_decide; [by destruct fire|]. by rewrite X2; destruct fire.
Qed.

(** *** Responses *)
(** [done] are written and popped, [inflight] is the response being written. *)
Definition responses_ok (q : list Response) (st : option grpc_status) (w : bool) (pu wn : list Response) : Prop :=
  ∃ done inflight, wn = done ++ inflight ∧ length inflight = b2n w ∧
    (pu = done ++ q ∧ inflight `prefix_of` q ∨
     strict = false ∧ q = [] ∧ is_Some st ∧ wn `prefix_of` pu).
Definition requests_ok (st : option grpc_status) (ths : list (list microop)) (de re : list Request) : Prop :=
  Forall read_after ths ∧ (de ++ pending_reqs ths) `prefix_of` re ∧
  (st ≠ Some StatusCANCELLED → de ++ pending_reqs ths = re).
Definition ordered c : Prop :=
  responses_ok (m_ResponseQueue (lc c)) (m_Status (lc c)) (wr (the_call c)) (pushed c) (written c) ∧
  requests_ok (m_Status (lc c)) (threads c) (delivered c) (received c).

Definition still_cancelled (st st' : option grpc_status) : Prop := st' ≠ Some StatusCANCELLED → st ≠ Some StatusCANCELLED.

Lemma requests_spawn st st' ths ops de re :
  requests_ok st ths de re → still_cancelled st st' → read_after ops → reqs ops = [] → requests_ok st' (ths ++ [ops]) de re.
Proof.
  intros (H1 & H2 & H3) Hst Hra Hrq. unfold requests_ok. rewrite pending_app, Hrq, app_nil_r.
  split_and!; [by apply Forall_app; split; [|constructor]|done|auto].
Qed.
Lemma requests_step st st' ths i op rest new de re :
  requests_ok st ths de re → ths !! i = Some (op :: rest) → exec_req op = None →
  still_cancelled st st' → read_after new → reqs new = [] → requests_ok st' (<[i := new ++ rest]> ths) de re.
Proof.
  intros (H1 & H2 & H3) Hi Hop Hst Hra Hrq. destruct (pending_insert _ _ _ Hi) as (A & B & Hp & Hp').
  unfold requests_ok. rewrite Hp', reqs_app, Hrq. rewrite Hp, reqs_cons, Hop in *. split_and!; [|done|auto].
  apply Forall_insert; [done|]. apply read_after_app; [done|]. rewrite Forall_lookup in H1. by destruct (H1 i _ Hi).
Qed.
Lemma requests_deliver st ths i r p rest de re :
  requests_ok st ths de re → pend is_read ths ≤ 1 → ths !! i = Some (OExec (CbRequest r p) :: rest) →
  requests_ok st (<[i := OReturn :: rest]> ths) (de ++ [r]) re.
Proof.
  intros (H1 & H2 & H3) Hle Hi. destruct (pending_insert _ _ _ Hi) as (A & B & Hp & Hp').
  pose proof (pending_le _ H1) as Hlen. rewrite Hp, reqs_cons in Hlen. simpl in Hlen. rewrite !length_app in Hlen. simpl in Hlen. rewrite length_app in Hlen.
  assert (A = [] ∧ reqs rest = [] ∧ B = []) as (-> & Hr & ->).
  { destruct A, (reqs rest), B; simpl in Hlen; try lia. done. }
  rewrite Hp, reqs_cons in H2, H3. simpl in H2, H3. rewrite Hr in H2, H3. simpl in H2, H3.
  unfold requests_ok. rewrite Hp', reqs_cons. simpl. rewrite Hr, app_nil_r. split_and!; [|done|done].
  apply Forall_insert; [done|]. rewrite Forall_lookup in H1. destruct (H1 i _ Hi). split; [by intros []|done].
Qed.
Lemma requests_arrive st ths r ops de re :
  requests_ok st ths de re → pend is_read ths = 0 → read_after ops →
  reqs ops = (if bool_decide (st = Some StatusCANCELLED) then [] else [r]) →
  requests_ok st (ths ++ [ops]) de (re ++ [r]).
Proof.
  intros (H1 & H2 & H3) Hz Hra Hrq. pose proof (pending_le _ H1) as Hlen. rewrite Hz in Hlen.
  destruct (pending_reqs ths) as [|??] eqn:Ep; [|simpl in Hlen; lia]. rewrite app_nil_r in *.
  unfold requests_ok. rewrite pending_app, Ep, Hrq. simpl. split_and!.
  - by apply Forall_app; split; [|constructor].
  - case_bool_decide; [|rewrite H3 by done; done]. rewrite app_nil_r. by apply prefix_app_r.
  - intros Hst. rewrite bool_decide_false by done. by rewrite H3.
Qed.

(** A call that is open has its read posted, or was half-closed. *)
Lemma progress_clean c c' ops :
  m_Reading (lc c) = true ∨ m_ReadsDone (lc c) = true → progress default c = Next (c', ops) →
  m_ResponseQueue (lc c') = m_ResponseQueue (lc c) ∧ m_Status (lc c') = m_Status (lc c) ∧
  read_after ops ∧ reqs ops = [] ∧ (∃ s, c' = set_lc s c).
Proof.
  unfold progress. intros Hr H. destruct (EvaluateState default (lc c)) as [[s a]|] eqn:E; simplify_eq/=.
  destruct (EvaluateState_frame _ _ _ E) as (Q & S & R & X). split_and!; try done; [|by eexists].
  rewrite X. destruct (m_Reading (lc c)), (m_ReadsDone (lc c)); simpl; try done. naive_solver.
Qed.
Lemma handled_clean g n s k : handled g n s k → m_Reading s = true ∨ m_ReadsDone s = true.
Proof. intros Hh. destruct (up_read _ _ _ _ _ _ (h_up _ _ _ _ _ _ _ Hh)) as [?|[?|[? _]]]; auto; done. Qed.

Notation responses_of c := (responses_ok (m_ResponseQueue (lc c)) (m_Status (lc c)) (wr (the_call c)) (pushed c) (written c)).

(** The logs after an operation that delivers no request. *)
Record framed (c c' : config) (new : list microop) : Prop := {
  f_received : received c' = received c;
  f_delivered : delivered c' = delivered c;
  f_reqs : reqs new = [];
  f_after : read_after new;
  f_status : still_cancelled (m_Status (lc c)) (m_Status (lc c'));
  f_responses : responses_of c → responses_of c';
}.

Lemma framed_id c c' new :
  received c' = received c → delivered c' = delivered c → pushed c' = pushed c → written c' = written c →
  m_ResponseQueue (lc c') = m_ResponseQueue (lc c) → m_Status (lc c') = m_Status (lc c) → wr (the_call c') = wr (the_call c) →
  reqs new = [] → read_after new → framed c c' new.
Proof.
  intros H1 H2 H3 H4 H5 H6 H7 H8 H9. split; auto.
  - rewrite H6. unfold still_cancelled. auto.
  - rewrite H3, H4, H5, H6, H7. auto.
Qed.
Lemma framed_trans c1 c2 c3 new : framed c1 c2 [] → framed c2 c3 new → framed c1 c3 new.
Proof. intros [A1 A2 A3 A4 A5 A6] [B1 B2 B3 B4 B5 B6]. split; unfold still_cancelled in *; auto; congruence. Qed.
Lemma framed_more c c' new new' : framed c c' new → reqs new' = [] → read_after new' → framed c c' (new ++ new').
Proof. intros [A1 A2 A3 A4 A5 A6] H1 H2. split; auto; [by rewrite reqs_app, A3, H1|by apply read_after_app]. Qed.
Lemma framed_progress c c' ops :
  m_Reading (lc c) = true ∨ m_ReadsDone (lc c) = true → progress default c = Next (c', ops) → framed c c' ops.
Proof.
  intros Hr H. destruct (progress_clean _ _ _ Hr H) as (Q & S & R & X & s & ->). by apply framed_id.
Qed.

Lemma release_frame g s s' ops :
  release g s = (s', ops) → m_ResponseQueue s' = m_ResponseQueue s ∧ m_Status s' = m_Status s ∧ reqs ops = [] ∧ read_after ops.
Proof.
  unfold release. destruct (stream_at g (on_stream g disown s)); [destruct (_ =? 0)|]; intros; simplify_eq/=; split_and!; try done; by intros [].
Qed.

(** Closing keeps the responses that were accepted, if the client closed first or
    nothing is being written. *)
Lemma framed_close c c' ops g n st :
  handled g n (lc c) (the_call c) → CloseStream default st c = Next (c', ops) →
  (m_Status (lc c) = Some StatusCANCELLED → st = StatusCANCELLED) →
  (strict = true → m_ReadsDone (lc c) = true ∨ m_Writing (lc c) = false) → framed c c' ops.
Proof.
  intros Hh H Hst Hsw. pose proof (handled_clean _ _ _ _ Hh) as Hr. unfold CloseStream in H.
  apply framed_progress in H.
  2: { unfold close_fields. simpl. destruct (m_ReadsDone (lc c)) eqn:E; simpl; rewrite ?E; auto. }
  eapply framed_trans, H. split; try done; unfold close_fields; simpl; destruct (m_ReadsDone (lc c)) eqn:E; simpl.
  1,2: intros Hne Hc; apply Hne; f_equal; auto.
  - intros (dn & fl & H1 & H2 & [H3|(H3 & H4 & H5 & H6)]); exists dn, fl; split_and!; auto; right; eauto.
  - intros (dn & fl & H1 & H2 & [[H3 H3']|(H3 & H4 & H5 & H6)]); exists dn, fl; split_and!; auto; try (by right; eauto).
    destruct strict eqn:Es.
    + destruct (Hsw eq_refl) as [|Hw]; [done|]. pose proof (h_drained _ _ _ _ _ _ _ Hh eq_refl Hw) as Hq. rewrite Hq in *. auto.
    + right. split_and!; eauto. rewrite H1, H3. by apply prefix_app.
Qed.

Lemma framed_exec g n op c c' new :
  handled g (plus_op n op) (lc c) (the_call c) → is_reset op = false → exec_req op = None →
  exec_op default op c = Next (c', new) → framed c c' new.
Proof.
  intros Hh Hr Hx H. pose proof (handled_clean _ _ _ _ Hh) as Hcl.
  destruct op as [|[]| | | |g'|conn|conn| | | | | | |]; try done; simpl in H.
  - pose proof (h_write _ _ _ _ _ _ _ Hh) as Hw. unfold plus_op in Hw. simpl in Hw.
    destruct (m_ResponseQueue (lc c)) as [|r q] eqn:Eq; [done|]. unfold with_call, post_write in H.
    destruct (phase (the_call c)) eqn:Ep; simpl in H; try done. destruct (wr (the_call c)) eqn:Ew; simplify_eq/=.
    split; try done; simpl; try (by intros ?). rewrite Eq, Ew.
    intros (dn & fl & H1 & H2 & [[H3 H3']|(H3 & H4 & H5 & H6)]); [|done]. destruct fl; simplify_eq/=. rewrite app_nil_r in *.
    exists dn, [r]. rewrite H1. split_and!; [done|done|]. left. split; [done|]. by apply prefix_cons, prefix_nil.
  - simplify_eq/=. apply framed_id; try done. split; [by intros []|done].
  - simplify_eq/=. apply framed_id; done.
  - destruct (last _); [|done]. unfold with_call, post_read in H.
    destruct (phase (the_call c)) eqn:Ep; simpl in H; try done. destruct (rd (the_call c)) eqn:Ew; simplify_eq/=. by apply framed_id.
  - destruct (m_Status (lc c)) eqn:ES; [|done]. unfold with_call, post_finish in H.
    destruct (phase (the_call c)) eqn:Ep; simpl in H; try done. destruct (rd (the_call c)), (wr (the_call c)) eqn:Ew; simplify_eq/=. by apply framed_id.
  - destruct (release g' (lc c)) as [s ops] eqn:E. apply release_frame in E as (? & ? & ? & ?). simplify_eq/=. by apply framed_id.
  - destruct (progress default c) as [| |[c1 ops]] eqn:E; simplify_eq/=. apply framed_more; [by apply framed_progress|done|].
    split; [by intros []|done].
  - simplify_eq/=. apply framed_id; try done; destruct conn; try done. simpl. split_and!; try done; by intros [].
  - unfold UnblockFinish in H. simplify_eq/=. by apply framed_id.
  - eapply framed_close; [exact Hh|done|done|]. intros _. left.
    destruct (handled_refs _ _ _ _ _ _ _ Hh) as (st & Hst & _). eapply dead_reads_done; [exact Hh|done|].
    by eapply (late_dead _ _ _ _ _ _ Hh).
  - by apply framed_progress.
  - destruct (m_ServerStream (lc c)); [|simplify_eq/=; by apply framed_id].
    destruct (release n0 _) as [s ops] eqn:E. apply release_frame in E as (? & ? & ? & ?). simplify_eq/=. by apply framed_id.
  - destruct (expired (lc c)); [simplify_eq/=; by apply framed_id|]. destruct (m_ExternalStream (lc c)); simplify_eq/=; by apply framed_id.
  - pose proof (h_queue _ _ _ _ _ _ _ Hh) as Hq. unfold plus_op in Hq. simpl in Hq. lia.
Qed.

(** *** Events *)
Lemma ordered_spawned c m :
  ordered c → (∀ c' ops, m = Next (c', ops) → threads c' = threads c ∧ framed c c' ops) →
  match spawned m with Next c' => ordered c' | _ => True end.
Proof.
  intros [HR HQ] Hm. destruct m as [| |[c' ops]]; simpl; try done. destruct (Hm c' ops eq_refl) as [Ht [F1 F2 F3 F4 F5 F6]].
  split; simpl; [auto|]. rewrite Ht, F1, F2. by eapply requests_spawn.
Qed.

Lemma ordered_EStep c i c' :
  Inv c → ordered c → quiet i c = true → step default c (EStep i) = Next c' → ordered c'.
Proof.
  intros HI [HR HQ] Hq H. simpl in H. destruct (threads c !! i) as [[|op rest]|] eqn:Hi; try done.
  destruct (exec_op default op c) as [| |[c1 new]] eqn:Hx; simplify_eq/=.
  pose proof (exec_op_threads _ _ _ _ _ Hx) as Ht.
  destruct (decide (is_reset op = true)) as [Er|Er].
  { destruct op; try done. unfold quiet in Hq. rewrite Hi in Hq. apply andb_prop in Hq as [Q1 Q2].
    assert (∀ t, t ∈ <[i := rest]> (threads c) → t = []) as Hz.
    { intros t Ht'. apply Is_true_true, forallb_True in Q1. rewrite Forall_forall in Q1. specialize (Q1 t Ht'). by destruct t. }
    simpl in Hx. destruct (m_Running c); simplify_eq/=.
    - unfold Reset in *. rewrite (reset_down _ _ _ _ HI (streams_zero _ Q2)) in *. simplify_eq/=. split; simpl.
      + exists [], []. split_and!; try done. left. split; [done|apply prefix_nil].
      + assert (pending_reqs (<[i:=OQueue :: rest]> (threads c)) = []) as Hp.
        { destruct (pending_insert _ _ _ Hi) as (A & B & _ & Hp'). rewrite Hp'.
          assert (pending_reqs (<[i:=rest]> (threads c)) = []) as H0.
          { unfold pending_reqs. clear -Hz. induction (<[i:=rest]> (threads c)) as [|t l IH]; [done|].
            rewrite fmap_cons. cbn [concat]. rewrite (Hz t) by set_solver. apply IH. set_solver. }
          rewrite Hp' in H0. by rewrite reqs_cons. }
        unfold requests_ok. rewrite Hp. split_and!; try done.
        destruct HQ as [HQ _]. apply Forall_insert; [done|]. rewrite Forall_lookup in HQ. destruct (HQ i _ Hi).
        split; [by intros []|done].
    - split; simpl; [done|]. eapply (requests_step _ _ _ _ _ _ []); [exact HQ|exact Hi|done|by intros ?|done|done]. }
  apply not_true_is_false in Er.
  set (n := λ f, pend f (<[i := rest]> (threads c))).
  assert (∀ f, plus_op n op f = pend f (threads c)) as Hn.
  { intros f. pose proof (pend_insert f _ _ _ rest Hi) as H. subst n. unfold plus_op, b2n. simpl in *. lia. }
  destruct (exec_req op) as [r|] eqn:Eq.
  - destruct op as [|[r' p|]| | | | | | | | | | | | |]; simplify_eq/=. split; [done|]. eapply requests_deliver; [exact HQ| |exact Hi].
    destruct HI as [Hw|[g Hh]]; [destruct Hw as (_ & _ & _ & Hw & _); lia|].
    pose proof (h_read _ _ _ _ _ _ _ Hh) as Hrd. destruct (m_Reading (lc c)), (rd (the_call c)); simpl in Hrd; lia.
  - apply (Inv_ext _ _ (plus_op n op)) in HI; [|done].
    assert (framed c c1 new) as [F1 F2 F3 F4 F5 F6].
    { destruct HI as [Hw|[g Hh]].
      - pose proof (waiting_no_life _ _ _ _ _ Hw) as Hl. destruct op; try done.
        destruct (kept_queue default _ _ _ Hw) as (c2 & Hx2 & _). destruct Hw as (_ & _ & Hwr & _).
        simpl in Hx. unfold with_call, post_request in Hx. destruct (phase (the_call c)); simplify_eq/=. by apply framed_id.
      - by eapply framed_exec. }
    split; simpl; [auto|]. rewrite Ht, F1, F2. by eapply requests_step.
Qed.

Lemma ordered_EMain c ok c' : Inv c → ordered c → step default c (EMain ok []) = Next c' → ordered c'.
Proof.
  intros HI HO H. cbn [step] in H. unfold complete_main in H.
  assert (∀ k, complete_main ok (the_call c) = Some k → wr k = wr (the_call c)) as Hwr.
  { intros k. unfold complete_main. destruct HI as [(_ & _ & Hw & _)|[g Hh]].
    - rewrite Hw. by destruct (phase (the_call c)); intros; simplify_eq/=.
    - destruct (h_phase _ _ _ _ _ _ _ Hh). by destruct (phase (the_call c)); intros; simplify_eq/=. }
  destruct (complete_main ok (the_call c)) as [k|] eqn:Ek; unfold complete_main in Ek; rewrite Ek in H; [|done]. cbn [or_disabled outcome_bind] in H.
  specialize (Hwr k eq_refl).
  pose proof (ordered_spawned c (RunNextState default (m_NextState (lc c)) ok [] (set_the_call k c)) HO) as Hs. rewrite H in Hs. apply Hs.
  intros c1 ops. destruct HI as [Hw|[g Hh]].
  - destruct Hw as (Hd & H1 & H2 & H3 & H4 & H5 & H6 & H7 & [[Hp _]|(Hp & _)]); rewrite Hp in Ek; [done|]. rewrite H7 by auto. simpl.
    unfold StateInitializedDone_fn. destruct ok; simpl; intros; simplify_eq/=; (split; [done|]); apply framed_id; simpl; rewrite ?H2; try done; (split; [by intros []|done]).
  - pose proof (h_finish _ _ _ _ _ _ _ Hh) as H4. destruct (h_phase _ _ _ _ _ _ _ Hh). destruct (phase (the_call c)) eqn:Hp; try done.
    rewrite bool_decide_true in H4 by auto. destruct (m_Finishing (lc c)) eqn:Ef; simpl in H4; [|lia].
    rewrite (up_next _ _ _ _ _ _ (h_up _ _ _ _ _ _ _ Hh)), Ef. unfold RunNextState, StateFinishedDone_fn. intros; simplify_eq/=. split; [done|]. apply framed_id; try done.
    simpl. split_and!; try done; by intros [].
Qed.

Lemma ordered_ERead c r c' : Inv c → ordered c → step default c (ERead r) = Next c' → ordered c'.
Proof.
  intros [Hw|[g Hh]] HO H; cbn [step] in H; [by destruct (waiting_quiet _ _ _ _ Hw) as [E _]; rewrite E in H|].
  unfold complete_read in H. destruct (rd (the_call c)) eqn:Erd; [|done]. cbn [or_disabled outcome_bind] in H.
  pose proof (h_read _ _ _ _ _ _ _ Hh) as H2. rewrite Erd in H2. destruct (m_Reading (lc c)) eqn:Er; simpl in H2; [|lia].
  destruct (up_slot _ _ _ _ _ _ (h_up _ _ _ _ _ _ _ Hh) Er) as (Hn & Hlen & Hrd).
  destruct (m_RequestQueue (lc c)) as [|r0 [|??]] eqn:Eq; simplify_eq/=. destruct r as [r|]; simpl in H.
  - rewrite Hn in H. simpl in H. unfold StateReadDone_fn in H. simpl in H. unfold spawned, progress in H.
    destruct (EvaluateState _ _) as [[s a]|] eqn:Ev; simplify_eq/=. destruct (EvaluateState_frame _ _ _ Ev) as (Q & S & R & X). simpl in *.
    destruct HO as [HR HQ]. split; simpl; [rewrite Q, S; exact HR|]. rewrite S.
    apply requests_arrive; [done|lia|done|]. rewrite X, Hrd, Eq. simpl. by case_bool_decide.
  - pose proof (ordered_spawned c (RunNextState default (m_ReadNextState (lc c)) false [] (set_the_call (Call (phase (the_call c)) false (wr (the_call c))) c)) HO) as Hs.
    simpl in Hs. rewrite H in Hs. apply Hs. rewrite Hn. simpl. unfold StateReadDone_fn. simpl. rewrite Eq.
    intros c1 ops Hx. split; [by apply progress_threads in Hx|]. apply framed_progress in Hx; [|simpl; auto].
    eapply framed_trans, Hx. by apply framed_id.
Qed.

Lemma ordered_EWrite c c' : Inv c → ordered c → step default c (EWrite true) = Next c' → ordered c'.
Proof.
  intros [Hw|[g Hh]] HO H; cbn [step] in H; [by destruct (waiting_quiet _ _ _ _ Hw) as [_ E]; rewrite E in H|].
  unfold complete_write in H. destruct (wr (the_call c)) eqn:Ewr; [|done]. cbn [or_disabled outcome_bind] in H.
  pose proof (h_write _ _ _ _ _ _ _ Hh) as H2. rewrite Ewr in H2. destruct (m_Writing (lc c)) eqn:Er; simpl in H2; [|lia].
  pose proof (ordered_spawned c (RunNextState default (m_WriteNextState (lc c)) true [] (set_the_call (Call (phase (the_call c)) (rd (the_call c)) false) c)) HO) as Hs.
  rewrite H in Hs. apply Hs. rewrite (up_writing _ _ _ _ _ _ (h_up _ _ _ _ _ _ _ Hh) Er). simpl.
  unfold StateWriteDone_fn. simpl. destruct (m_ResponseQueue (lc c)) as [|x q] eqn:Eq; [done|].
  intros c1 ops Hx. split; [by apply progress_threads in Hx|]. apply framed_progress in Hx; [|simpl; by eapply handled_clean].
  eapply framed_trans, Hx. split; try done; simpl; [by intros ?|]. rewrite Ewr, Eq.
  intros (dn & fl & H1 & Hl & [[H3 H4]|(_ & ? & _)]); [|done].
  destruct fl as [|y [|??]]; simplify_eq/=. apply prefix_cons_inv_1 in H4 as ->.
  exists (dn ++ [x]), []. rewrite H1, H3, app_nil_r. split_and!; [done|done|]. left. rewrite <-app_assoc. split; [done|apply prefix_nil].
Qed.

Lemma ordered_EUser c g op c' :
  Inv c → ordered c → orderly strict c (EUser g op) = true → step default c (EUser g op) = Next c' → ordered c'.
Proof.
  intros HI HO Ho H. cbn [step] in H. destruct (stream_at g (lc c)) as [st|] eqn:Hst; [|done].
  destruct (Nat.eqb_spec (ss_refs st) 0) as [|Hr]; [done|].
  pose proof (live_stream _ _ _ _ _ _ HI Hst (or_introl Hr)) as Hh. pose proof (handled_clean _ _ _ _ Hh) as Hcl.
  pose proof (ordered_spawned c (user_call default g op c) HO) as Hs. rewrite H in Hs. apply Hs.
  intros c1 ops. unfold user_call. rewrite Hst. destruct (ss_connected st) eqn:Ec; simpl; [|intros; simplify_eq/=; split; [done|by apply framed_id]].
  destruct (handled_refs _ _ _ _ _ _ _ Hh) as (st' & Hst' & _ & Hc & _). assert (st' = st) as -> by congruence.
  assert (m_Status (lc c) = None) as HS.
  { destruct (m_Status (lc c)); [|done]. destruct Hc; [done|done|congruence|done]. }
  assert (∀ status, closable strict c = true →
    outcome_bind (CloseStream default status c) (λ '(c', ops0), Next (set_lc (on_stream g disconnect (lc c')) c', ops0)) = Next (c1, ops) →
    threads c1 = threads c ∧ framed c c1 ops) as Hclose.
  { intros status Hcb. destruct (CloseStream default status c) as [| |[c2 ops2]] eqn:E; simpl; intros; simplify_eq/=.
    split; [by apply CloseStream_threads in E|]. eapply framed_close in E; [|exact Hh|by rewrite HS|by apply may_close].
    destruct E as [F1 F2 F3 F4 F5 F6]. by split. }
  destruct op as [r| | | |]; simpl in Ho; try (by apply Hclose); try (intros; simplify_eq/=; split; [done|by apply framed_id]).
  intros Hx. split; [by apply progress_threads in Hx|]. apply framed_progress in Hx; [|done].
  eapply framed_trans, Hx. split; try done; simpl; [by intros ?|].
  intros (dn & fl & H1 & H2 & [[H3 H4]|(_ & _ & [? ?] & _)]); [|congruence]. exists dn, fl. split_and!; [done|done|]. left.
  rewrite H3, app_assoc. split; [done|]. by apply prefix_app_r.
Qed.

Lemma ordered_step c e c' : Inv c → ordered c → orderly strict c e = true → step default c e = Next c' → ordered c'.
Proof.
  intros HI HO Ho H. destruct e as [ok [|]|r|[]|g op|g|g|i|]; try done.
  - by eapply ordered_EMain.
  - by eapply ordered_ERead.
  - by eapply ordered_EWrite.
  - by eapply ordered_EUser.
  - simpl in H. destruct (stream_at g (lc c)); [|done]. destruct (_ =? 0); simplify_eq/=. done.
  - pose proof HO as [HR HQ]. simpl in H. destruct (stream_at g (lc c)) as [st|]; [|done]. destruct (_ =? 0); [done|].
    destruct (release g _) as [s ops] eqn:E. apply release_frame in E as (E1 & E2 & E3 & E4). simplify_eq/=.
    split; simpl; rewrite E2, ?E1; [done|]. by eapply requests_spawn; [exact HQ|intros ?|..].
  - by eapply ordered_EStep.
  - by simplify_eq/=.
Qed.

Lemma ordered_start : ordered start.
Proof.
  split; simpl.
  - exists [], []. split_and!; try done. left. by split.
  - unfold requests_ok. split_and!; try done. repeat constructor. by intros [].
Qed.

(** Runs from the start, under the conditions of [orderly]. *)
Definition reachable c : Prop :=
  ∃ es, along (step default) (orderly strict) start es = true ∧ run (step default) start es = Next c.

Lemma reachable_inv c : reachable c → Inv c ∧ ordered c.
Proof.
  intros (es & Ha & Hr).
  pose proof (run_invariant (step default) (orderly strict) (λ c, Inv c ∧ ordered c) (λ f, ¬ excused strict f)) as H.
  specialize (H ltac:(intros c1 e c2 [HI HO] Ho Hs; split; [pose proof (kept_step default strict c1 e HI Ho) as Hk; by rewrite Hs in Hk|by eapply ordered_step])).
  specialize (H ltac:(intros c1 e f [HI HO] Ho Hs Hn; apply Hn; pose proof (kept_step default strict c1 e HI Ho) as Hk; by rewrite Hs in Hk)).
  specialize (H es start (conj (Inv_start strict) ordered_start) Ha). by rewrite Hr in H.
Qed.

(** ** Theorems *)
(** C3: the streaming context obeys gRPC.  In every interleaving of completions,
    user calls, callbacks and resets that is [orderly], the context never posts a
    second read or write while one is outstanding, never posts an operation
    before the call is accepted or after its finish, never posts the finish
    while an operation is outstanding, and never runs [StateInvalid] or a null
    pointer; with [strict] it never faults at all. *)
Theorem streaming_protocol (es : list event) f :
  along (step default) (orderly strict) start es = true → run (step default) start es = Fault f →
  f = EmptyQueue ∧ strict = false.
Proof.
  intros Ha Hr.
  pose proof (run_invariant (step default) (orderly strict) Inv (λ f, ¬ excused strict f)) as H.
  specialize (H ltac:(intros c1 e c2 HI Ho Hs; pose proof (kept_step default strict c1 e HI Ho) as Hk; by rewrite Hs in Hk)).
  specialize (H ltac:(intros c1 e f' HI Ho Hs Hn; apply Hn; pose proof (kept_step default strict c1 e HI Ho) as Hk; by rewrite Hs in Hk)).
  specialize (H es start (Inv_start strict) Ha). rewrite Hr in H. simpl in H.
  destruct (decide (f = EmptyQueue)) as [->|Hf]; [|exfalso; apply H; intros [? _]; done].
  split; [done|]. destruct strict; [|done]. exfalso. apply H. by intros [_ ?].
Qed.

(** C22: in every [orderly] interleaving (no write fails, resets are quiet, and the
    hook that opens a stream does not use it) the responses of a stream are written
    in the order in which the user handed them over, each at most once; and when the
    user closes the stream as [strict] asks, the finish is posted only after every one
    of them was written.  Writes that fail are excluded because the context may then
    post the same response again ([failed_write_retries]). *)
Theorem streaming_responses_in_order c :
  reachable c →
  written c `prefix_of` pushed c ∧
  (strict = true → m_Finishing (lc c) = true → written c = pushed c).
Proof.
  intros [HI [(dn & fl & H1 & H2 & H3) _]]%reachable_inv. split.
  - destruct H3 as [[H3 H4]|(_ & _ & _ & H3)]; [|done]. rewrite H1, H3. by apply prefix_app.
  - intros Hs Hf. destruct H3 as [[H3 H4]|(? & _)]; [|congruence].
    destruct HI as [(Hd & _)|[g Hh]]; [destruct Hd as (_ & _ & ? & _); congruence|].
    destruct (up_fin _ _ _ _ _ _ (h_up _ _ _ _ _ _ _ Hh) Hf) as (_ & Hw & _ & Hq & _).
    rewrite Hq in *. apply prefix_nil_inv in H4 as ->. by rewrite H1, H3.
Qed.

(** The requests of a stream are handed to the user in the order in which
    the client sent them, none twice; unless the call was cancelled, none is
    lost: each one received was delivered or is about to be. *)
Theorem streaming_requests_in_order c :
  reachable c →
  delivered c `prefix_of` received c ∧
  (m_Status (lc c) ≠ Some StatusCANCELLED → received c = delivered c ++ pending_reqs (threads c)) ∧
  length (pending_reqs (threads c)) ≤ 1.
Proof.
  intros [HI [_ (H1 & H2 & H3)]]%reachable_inv. split_and!; [|by intros; rewrite H3|].
  - etrans; [|exact H2]. by apply prefix_app_r.
  - pose proof (pending_le _ H1) as Hl. destruct HI as [(_ & _ & _ & Hz & _)|[g Hh]]; [lia|].
    pose proof (h_read _ _ _ _ _ _ _ Hh) as Hr. destruct (m_Reading (lc c)); simpl in Hr; lia.
Qed.

(** No thread has anything to do and the queue nothing to deliver. *)
Definition at_rest c : Prop :=
  Forall (λ t, t = []) (threads c) ∧ rd (the_call c) = false ∧ wr (the_call c) = false.

Lemma at_rest_pend c f : at_rest c → pend f (threads c) = 0.
Proof. intros [H _]. induction H as [|t ths -> _ IH]; simpl; [done|]. exact IH. Qed.

(** C23: no call is forgotten.  With users that keep to [strict], an open call
    that is at rest waits for a user: someone still owns its stream and may
    write to it or close it.  Once the stream is closed or its last owner is
    gone, the finish has been posted. *)
Theorem streaming_waits_for_user c :
  strict = true → reachable c → at_rest c → phase (the_call c) = CallOpen →
  ∃ g st, stream_at g (lc c) = Some st ∧ 0 < ss_user st ∧ ss_connected st = true.
Proof.
  intros Hs [HI _]%reachable_inv Hrest Hp. pose proof Hrest as (_ & Hrd & Hwr).
  destruct HI as [(_ & _ & _ & _ & _ & _ & _ & _ & [[? _]|(? & _)])|[g Hh]]; [congruence|congruence|].
  pose proof (h_read _ _ _ _ _ _ _ Hh) as H2. pose proof (h_write _ _ _ _ _ _ _ Hh) as H3. pose proof (h_finish _ _ _ _ _ _ _ Hh) as H4.
  cbv beta in H2, H3, H4. rewrite at_rest_pend in H2, H3, H4 by done. rewrite Hrd in H2. rewrite Hwr in H3. rewrite Hp, bool_decide_false in H4 by naive_solver.
  destruct (m_Reading (lc c)) eqn:Er, (m_Writing (lc c)) eqn:Ew, (m_Finishing (lc c)) eqn:Ef; simpl in H2, H3, H4; try lia.
  destruct (handled_clean _ _ _ _ Hh) as [?|Hrdn]; [congruence|].
  pose proof (up_block _ _ _ _ _ _ (h_up _ _ _ _ _ _ _ Hh) Hs) as Hb.
  assert (m_Status (lc c) = None) as HS.
  { destruct (m_Status (lc c)) eqn:E; [|done]. pose proof (h_live _ _ _ _ _ _ _ Hh eq_refl Hs) as Hl.
    unfold live in Hl. rewrite E, Er, Ew, Hb, Ef in Hl. specialize (Hl ltac:(eauto) eq_refl eq_refl eq_refl). done. }
  destruct (handled_refs _ _ _ _ _ _ _ Hh) as (st & Hst & Hr & _ & Hk). cbv beta in Hr. rewrite at_rest_pend in Hr by done.
  assert (ss_refs st ≠ 0) as Hz.
  { intros Hz. destruct (h_dead _ _ _ _ _ _ _ Hh st Hst Hz) as [[? ?]|Hd]; [congruence|]. cbv beta in Hd. rewrite at_rest_pend in Hd by done. lia. }
  assert (m_ServerStream (lc c) = None) as HSS.
  { apply (h_over _ _ _ _ _ _ _ Hh eq_refl); auto. intros st' Hst'. congruence. }
  rewrite HSS in Hr. unfold opt_is in Hr. simpl in Hr. exists g, st. split_and!; [done|lia|].
  destruct (ss_connected st); [done|]. destruct Hk; [done|congruence].
Qed.

(** Threads end: every operation is replaced by lighter ones. *)
Definition weight (op : microop) : nat :=
  match op with
  | OExec _ => 2
  | OCancel | OEval => 3
  | ODestroy _ => 5
  | ODeleter _ => 8
  | ORelease _ => 9
  | OFinDrop => 9
  | OReset => 2
  | _ => 1
  end.
Definition work (t : list microop) : nat := sum_list_with weight t.
Definition total_work (ths : list (list microop)) : nat := sum_list_with work ths.

Lemma total_work_insert ths i t t' : ths !! i = Some t → total_work (<[i := t']> ths) + work t = total_work ths + work t'.
Proof.
  unfold total_work. revert i. induction ths as [|t0 ths IH]; intros [|i] Hi; simplify_eq/=; [lia|].
  specialize (IH i Hi). lia.
Qed.
Lemma work_app t1 t2 : work (t1 ++ t2) = work t1 + work t2.
Proof. apply sum_list_with_app. Qed.

(** An evaluation that is not triggered by a read starts no callback. *)
Lemma EvaluateState_no_callback s s' a :
  EvaluateState default s = Some (s', a) → m_Reading s = true ∨ m_ReadsDone s = true →
  (is_Some (m_Status s) ∨ (m_Reading s = false → m_ReadsDone s = true → m_Status s = None → expired s = false → m_ServerStream s = None)) →
  (m_ServerStream s = None → expired s = false → m_Status s = None → m_ReadsFinished s = true) →
  work (ForwardProgress a) ≤ 2.
Proof.
  unfold EvaluateState. intros H Hr Hf Hn.
  assert (ev_read default s = (s, no_actions)) as Hre.
  { unfold ev_read. destruct (m_Reading s), (m_ReadsDone s); simpl; try done. naive_solver. }
  assert (ev_finished (s, no_actions) = Some (s, no_actions)) as Hfi.
  { unfold ev_finished. destruct (_ && _) eqn:E; [|done]. exfalso.
    apply andb_prop in E as [[[E1 E2]%andb_prop E3]%andb_prop E4]. apply negb_true_iff in E1, E3, E4.
    apply orb_false_iff in E4 as [E4 E5]. apply bool_decide_eq_false, eq_None_not_Some in E4.
    destruct Hf as [[? ?]|Hf]; [congruence|]. rewrite Hn in E3; auto. done. }
  rewrite Hre, Hfi in H. cbn [mbind option_bind] in H. unfold ev_cancel, ev_write, ev_finish in H.
  repeat match goal with
         | H : context [match ?b with _ => _ end] |- _ => destruct b eqn:?; simplify_eq/=
         end; unfold work; simpl; lia.
Qed.

Lemma work_progress g n c c' ops :
  handled g n (lc c) (the_call c) → progress default c = Next (c', ops) → work ops ≤ 2.
Proof.
  intros Hh H. unfold progress in H. destruct (EvaluateState default (lc c)) as [[s a]|] eqn:E; simplify_eq/=.
  apply (EvaluateState_no_callback _ _ _ E); [by eapply handled_clean| |].
  - right. intros H1 H2 H3 H4. apply (h_over _ _ _ _ _ _ _ Hh eq_refl H1 H2 H3). intros st Hst Hz.
    unfold expired in H4. rewrite (up_ext _ _ _ _ _ _ (h_up _ _ _ _ _ _ _ Hh)) in H4. simpl in H4. rewrite Hst, Hz in H4. done.
  - intros H1 _ H3. destruct (up_server _ _ _ _ _ _ (h_up _ _ _ _ _ _ _ Hh) H1) as [_ [?|[? ?]]]; [done|congruence].
Qed.
Lemma work_close g n c c' ops st :
  handled g n (lc c) (the_call c) → CloseStream default st c = Next (c', ops) → work ops ≤ 2.
Proof.
  intros Hh H. unfold CloseStream, progress in H. pose proof (handled_clean _ _ _ _ Hh) as Hr. cbn [lc set_lc] in H.
  destruct (EvaluateState default (close_fields st (lc c))) as [[s a]|] eqn:E; simplify_eq/=.
  apply (EvaluateState_no_callback _ _ _ E); unfold close_fields; simpl; destruct (m_ReadsDone (lc c)) eqn:Ed; simpl; rewrite ?Ed; eauto; done.
Qed.
Lemma work_release g s s' ops : release g s = (s', ops) → work ops ≤ 8.
Proof.
  unfold release. destruct (stream_at g _); [destruct (_ =? 0)|]; intros; simplify_eq/=; unfold work; simpl; lia.
Qed.

Lemma work_exec g n op c c' new :
  handled g (plus_op n op) (lc c) (the_call c) → is_reset op = false → exec_op default op c = Next (c', new) → work new < weight op.
Proof.
  intros Hh Hr H. destruct op as [|[]| | | |g'|conn|conn| | | | | | |]; try done; simpl in H.
  - destruct (m_ResponseQueue (lc c)); [done|]. destruct (with_call post_write c); simplify_eq/=. auto with arith.
  - simplify_eq/=. unfold work; simpl; lia.
  - simplify_eq/=. unfold work; simpl; lia.
  - simplify_eq/=. auto with arith.
  - destruct (last _); [|done]. destruct (with_call post_read c); simplify_eq/=. auto with arith.
  - destruct (m_Status _); [|done]. destruct (with_call post_finish c); simplify_eq/=. auto with arith.
  - destruct (release g' (lc c)) as [s ops] eqn:E. apply work_release in E. simplify_eq/=. lia.
  - destruct (progress default c) as [| |[c1 ops]] eqn:E; simplify_eq/=. apply (work_progress _ _ _ _ _ Hh) in E.
    rewrite work_app. unfold work at 2. simpl. lia.
  - destruct conn; simplify_eq/=; unfold work; simpl; lia.
  - unfold UnblockFinish in H. simplify_eq/=. unfold work; simpl; lia.
  - apply (work_close _ _ _ _ _ _ Hh) in H. simpl. lia.
  - apply (work_progress _ _ _ _ _ Hh) in H. simpl. lia.
  - destruct (m_ServerStream (lc c)) as [g'|]; [|simplify_eq/=; unfold work; simpl; lia].
    destruct (release g' _) as [s ops] eqn:E. apply work_release in E. simplify_eq/=. lia.
  - destruct (expired (lc c)); [simplify_eq/=; auto with arith|]. destruct (m_ExternalStream (lc c)); simplify_eq/=; auto with arith.
  - pose proof (h_queue _ _ _ _ _ _ _ Hh) as Hq. unfold plus_op in Hq. simpl in Hq. lia.
Qed.

Lemma work_step c i c' :
  Inv c → quiet i c = true → step default c (EStep i) = Next c' → total_work (threads c') < total_work (threads c).
Proof.
  intros HI Hq H. simpl in H. destruct (threads c !! i) as [[|op rest]|] eqn:Hi; try done.
  destruct (exec_op default op c) as [| |[c1 new]] eqn:Hx; simplify_eq/=. rewrite (exec_op_threads _ _ _ _ _ Hx).
  pose proof (total_work_insert _ _ _ (new ++ rest) Hi) as Hw. rewrite work_app in Hw. change (work (op :: rest)) with (weight op + work rest) in Hw.
  cut (work new < weight op); [lia|].
  destruct (decide (is_reset op = true)) as [Er|Er%not_true_is_false].
  { destruct op; try done. unfold quiet in Hq. rewrite Hi in Hq. apply andb_prop in Hq as [Q1 Q2]. simpl in Hx.
    destruct (m_Running c); simplify_eq/=; [|unfold work; simpl; lia].
    unfold Reset in *. rewrite (reset_down _ _ _ _ HI (streams_zero _ Q2)) in *. simplify_eq/=. unfold work; simpl; lia. }
  set (n := λ f, pend f (<[i := rest]> (threads c))).
  apply (Inv_ext _ _ (plus_op n op)) in HI.
  2: { intros f. pose proof (pend_insert f _ _ _ rest Hi) as H. subst n. unfold plus_op, b2n. simpl in *. lia. }
  destruct HI as [Hwt|[g Hh]]; [|by eapply work_exec].
  pose proof (waiting_no_life _ _ _ _ _ Hwt) as Hl. destruct op; try done.
  simpl in Hx. destruct (with_call post_request c); simplify_eq/=. unfold work; simpl; lia.
Qed.

Definition only_steps (es : list event) : Prop := Forall (λ e, ∃ i, e = EStep i) es.

(** The threads of a context end.  From every reachable state, the number of
    operations that its threads can perform without a new completion or user
    call is bounded by the work pending in them: callbacks, deleters and
    destructors never chase each other. *)
Theorem streaming_threads_end c es c' :
  reachable c → only_steps es → along (step default) (orderly strict) c es = true → run (step default) c es = Next c' →
  length es + total_work (threads c') ≤ total_work (threads c).
Proof.
  intros [HI _]%reachable_inv. revert c HI. induction es as [|e es IH]; intros c HI Hs Ha Hr; [by simplify_eq/=|].
  apply Forall_cons in Hs as [[i ->] Hs']. cbn [along run] in Ha, Hr. apply andb_prop in Ha as [Ho Ha].
  destruct (step default c (EStep i)) as [| |c1] eqn:E; try done.
  pose proof (work_step _ _ _ HI Ho E) as Hw. pose proof (kept_EStep default strict c i HI Ho) as Hk. rewrite E in Hk.
  specialize (IH c1 Hk Hs' Ha Hr). simpl. lia.
Qed.
End spec.

(** ** Concrete runs *)
Section runs.
Notation config := (@config nat nat).
Notation event := (@event nat nat).

Definition first_busy (ths : list (list (@microop nat))) : option nat :=
  fst <$> list_find (λ t, t ≠ []) ths.
(** The events that run all threads to their end, first thread first. *)
Fixpoint settle (fuel : nat) (c : config) : list event :=
  match fuel, first_busy (threads c) with
  | S fuel, Some i => match step 0 c (EStep i) with Next c' => EStep i :: settle fuel c' | _ => [EStep i] end
  | _, _ => []
  end.
(** Each event followed by whatever the threads do. *)
Fixpoint script (c : config) (es : list event) : list event :=
  let pre := settle 40 c in
  pre ++ match run (step 0) c pre, es with
         | Next c', e :: es => e :: match step 0 c' e with Next c'' => script c'' es | _ => [] end
         | _, _ => []
         end.
Definition after (es : list event) : config :=
  match run (step 0) start es with Next c => c | _ => start end.

Definition start0 : config := start.
Definition good_run : list event :=
  script start0 [EMain true []; ERead (Some 5); EUser 0 (UWrite 7); EWrite true; ERead (Some 6); ECopy 0; ERead None;
                 EUser 0 (UWrite 8); EWrite true; EUser 0 UFinish; EDrop 0].
Definition half_closed : list event :=
  script start0 [EMain true []; ERead (Some 5); EUser 0 (UWrite 7); EWrite true; ECopy 0; ERead None].

Lemma reachable_after es :
  along (step 0) (orderly true) start0 es = true → (∃ c, run (step 0) start0 es = Next c) → reachable 0 true (after es).
Proof. intros Ha [c Hc]. exists es. split; [done|]. unfold after. fold start0. by rewrite Hc. Qed.

(** One of the runs in question ends in a fault that [streaming_protocol] excuses:
    the user closes the stream while a write is in flight. *)
Definition early_close : list event :=
  script start0 [EMain true []; ERead (Some 5); EUser 0 (UWrite 7); EUser 0 UCancel; EWrite true].
Lemma streaming_protocol_witness :
  along (step 0) (orderly false) start0 early_close = true ∧ run (step 0) start0 early_close = Fault EmptyQueue ∧
  EmptyQueue = EmptyQueue ∧ false = false.
Proof.
  split; [vm_compute; reflexivity|]. split; [vm_compute; reflexivity|].
  apply (streaming_protocol 0 false early_close EmptyQueue); vm_compute; reflexivity.
Defined.

Lemma streaming_responses_in_order_witness :
  reachable 0 true (after good_run) ∧ m_Finishing (lc (after good_run)) = true ∧
  written (after good_run) = [7; 8] ∧ pushed (after good_run) = [7; 8] ∧ written (after good_run) = pushed (after good_run).
Proof.
  assert (reachable 0 true (after good_run)) as Hr.
  { apply reachable_after; [vm_compute; reflexivity|]. eexists. vm_compute. reflexivity. }
  split; [exact Hr|]. split; [vm_compute; reflexivity|]. split; [vm_compute; reflexivity|]. split; [vm_compute; reflexivity|].
  apply (streaming_responses_in_order 0 true (after good_run) Hr); [reflexivity|vm_compute; reflexivity].
Defined.

Lemma streaming_requests_in_order_witness :
  reachable 0 true (after good_run) ∧ received (after good_run) = [5; 6] ∧
  delivered (after good_run) `prefix_of` received (after good_run).
Proof.
  assert (reachable 0 true (after good_run)) as Hr.
  { apply reachable_after; [vm_compute; reflexivity|]. eexists. vm_compute. reflexivity. }
  split; [exact Hr|]. split; [vm_compute; reflexivity|]. apply (streaming_requests_in_order 0 true (after good_run) Hr).
Defined.

Lemma streaming_waits_for_user_witness :
  at_rest (after half_closed) ∧
  ∃ g st, stream_at g (lc (after half_closed)) = Some st ∧ 0 < ss_user st ∧ ss_connected st = true.
Proof.
  assert (at_rest (after half_closed)) as Hr.
  { vm_compute. repeat constructor. }
  split; [exact Hr|]. apply (streaming_waits_for_user 0 true); [reflexivity| |exact Hr|vm_compute; reflexivity].
  apply reachable_after; [vm_compute; reflexivity|]. eexists. vm_compute. reflexivity.
Defined.

Definition request_came : list event := script start0 [EMain true []] ++ [ERead (Some 5)].
Definition request_steps : list event := settle 40 (after request_came).
Lemma streaming_threads_end_witness :
  length request_steps = 4 ∧ length request_steps + total_work (threads (after (request_came ++ request_steps))) ≤ total_work (threads (after request_came)).
Proof.
  split; [vm_compute; reflexivity|].
  apply (streaming_threads_end 0 true); [|vm_compute; repeat (constructor; [eexists; reflexivity|]); constructor|vm_compute; reflexivity|vm_compute; reflexivity].
  apply reachable_after; [vm_compute; reflexivity|]. eexists. vm_compute. reflexivity.
Defined.

(** Each condition of [orderly] is needed.  A hook [StreamInitialized] that
    writes makes the context take a request from an empty queue; a user who
    writes after a failed write has the write posted after the finish; a user
    who releases its stream after the context was reset makes the context run on
    the state of the next call; a user who closes the stream while a write is in
    flight has the empty response queue popped. *)
Theorem orderly_is_needed :
  run (step 0) start0 (script start0 [EMain true [UWrite 1]]) = Fault EmptyQueue ∧
  run (step 0) start0 (script start0 [EMain true []; ERead (Some 5); ECopy 0; EUser 0 (UWrite 7); EWrite false; ERead None; EUser 0 (UWrite 8)])
    = Fault GrpcMisuse ∧
  run (step 0) start0 (script start0 [EMain true []; ECopy 0; ERead None; EUser 0 UFinish; EMain true []; EDrop 0]) = Fault EmptyQueue ∧
  run (step 0) start0 early_close = Fault EmptyQueue.
Proof. vm_compute. done. Qed.

(** Blocking the finish can strand a call.  A user who blocks the finish,
    closes the stream and releases it leaves an open call at rest that nobody
    owns; and unblocking, which by its log message triggers a step of the
    progress engine, does not: a closed call stays open with nothing pending. *)
Theorem block_finish_strands :
  (let c := after (script start0 [EMain true []; ECopy 0; EUser 0 UBlock; ERead None; EUser 0 UFinish; EDrop 0]) in
   at_rest c ∧ phase (the_call c) = CallOpen ∧ m_Status (lc c) = Some StatusOK ∧ ss_refs <$> m_streams (lc c) = [0]) ∧
  (let c := after (script start0 [EMain true []; ECopy 0; EUser 0 UBlock; EUser 0 (UWrite 7); EWrite false; ERead None; EUser 0 UUnblock]) in
   at_rest c ∧ phase (the_call c) = CallOpen ∧ m_Status (lc c) = Some StatusCANCELLED ∧ m_BlockFinish (lc c) = false).
Proof. vm_compute. repeat constructor. Qed.
End runs.

(** ** A failed write is retried for ever *)
Lemma insert_last {A} (l : list A) x y : <[length l := y]> (l ++ [x]) = l ++ [y].
Proof. induction l as [|z l IH]; simpl; [done|]. by rewrite IH. Qed.

Section retry.
Context {Request Response : Type} (default : Request).
Implicit Types c : (@config Request Response).

Lemma step_last c c' ths op ops new :
  threads c = ths ++ [op :: ops] → exec_op default op c = Next (set_threads (ths ++ [op :: ops]) c', new) →
  step default c (EStep (length ths)) = Next (set_threads (ths ++ [new ++ ops]) c').
Proof.
  intros Ht Hx. unfold step. rewrite Ht, list_lookup_middle, Hx by done. cbn [outcome_bind threads set_threads]. by rewrite insert_last.
Qed.

(** Once the client has closed its half, a write that fails is posted again
    with the same response, and the context is in the same state as before: the
    call is never finished as long as the writes fail. *)
Theorem failed_write_retries c r q :
  m_ResponseQueue (lc c) = r :: q → m_ReadsDone (lc c) = true → m_ReadsFinished (lc c) = true → m_Reading (lc c) = false →
  m_Writing (lc c) = true → m_WriteNextState (lc c) = StateWriteDone → m_Finishing (lc c) = false →
  phase (the_call c) = CallOpen → wr (the_call c) = true →
  ∃ c', run (step default) c [EWrite false; EStep (length (threads c)); EStep (length (threads c))] = Next c' ∧
    lc c' = set_m_Status (Some StatusCANCELLED) (set_m_WritesDone true (lc c)) ∧ the_call c' = the_call c ∧
    written c' = written c ++ [r] ∧ threads c' = threads c ++ [[]].
Proof.
  destruct c as [[n1 n2 n3 rq rs ss es rd1 wr1 fi rdn wdn rfi bl st str] rn [ph krd kwr] ths re de fh ex pu wn].
  cbn [m_ResponseQueue m_ReadsDone m_ReadsFinished m_Reading m_Writing m_WriteNextState m_Finishing lc the_call phase wr threads].
  intros -> -> -> -> -> -> -> -> ->.
  set (s1 := LC n1 n2 StateWriteDone rq (r :: q) ss es false true false true true true bl (Some StatusCANCELLED) str).
  set (c1 := λ kw t w, Config s1 rn (Call CallOpen krd kw) (ths ++ [t]) re de fh ex pu w).
  assert (step default (Config (LC n1 n2 StateWriteDone rq (r :: q) ss es false true false true wdn true bl st str) rn
            (Call CallOpen krd true) ths re de fh ex pu wn) (EWrite false) = Next (c1 false [OWrite; OEval] wn)) as H1.
  { vm_compute. reflexivity. }
  assert (step default (c1 false [OWrite; OEval] wn) (EStep (length ths)) = Next (c1 true [OEval] (wn ++ [r]))) as H2.
  { apply step_last with (c' := c1 true [] (wn ++ [r])) (new := []) (ops := [OEval]) (op := OWrite); [done|]. vm_compute. reflexivity. }
  assert (step default (c1 true [OEval] (wn ++ [r])) (EStep (length ths)) = Next (c1 true [] (wn ++ [r]))) as H3.
  { apply step_last with (c' := c1 true [] (wn ++ [r])) (new := []) (ops := []) (op := OEval); [done|]. vm_compute. reflexivity. }
  exists (c1 true [] (wn ++ [r])). cbn [run]. rewrite H1. cbn [outcome_bind]. rewrite H2. cbn [outcome_bind]. rewrite H3. done.
Qed.
End retry.

Definition writing_half_closed : @config nat nat :=
  after (script start0 [EMain true []; ECopy 0; EUser 0 (UWrite 7); ERead None]).
Lemma failed_write_retries_witness :
  m_ResponseQueue (lc writing_half_closed) = [7] ∧
  ∃ c', run (step 0) writing_half_closed [EWrite false; EStep (length (threads writing_half_closed)); EStep (length (threads writing_half_closed))] = Next c' ∧
    lc c' = set_m_Status (Some StatusCANCELLED) (set_m_WritesDone true (lc writing_half_closed)) ∧ the_call c' = the_call writing_half_closed ∧
    written c' = written writing_half_closed ++ [7] ∧ threads c' = threads writing_half_closed ++ [[]].
Proof.
  split; [vm_compute; reflexivity|]. apply (failed_write_retries 0 writing_half_closed 7 []); vm_compute; reflexivity.
Defined.
