(* ===== verification/RpcWorker.v ===== *)
(** * The worker of the RPC server

    Models [tools/nvrpc/include/nvrpc/executor.h] and [src/executor.cc]: the loop
    that takes completions from a queue, runs the context that each belongs to
    and resets the context when it returns false.  A context is anything with
    the operations of [IContext] ([interfaces.h]); [Unary] and [Batching] are
    instances. *)
From S2P Require Import Prelude Grpc.

(** What a worker needs of a context. *)
Class IContext (C Ev : Type) : Type := {
  run_next_state : Ev → C → outcome (C * bool);
  reset : C → outcome C;
}.

(** ** Worker *)
Section worker.
Context {C Ev : Type} `{!IContext C Ev}.

Inductive next_status := GOT_EVENT (i : nat) (e : Ev) | TIMEOUT | SHUTDOWN.
Record Worker := mkWorker {
  m_Running : bool;
  m_Contexts : list C;
  backoff : Z;
  backoffs : list Z;        (* the arguments of TimeoutBackoff *)
}.

Definition Worker_new (cs : list C) : Worker := mkWorker false cs 1 [].
(** The start of [ProgressEngine]. *)
Definition start_engine (w : Worker) : Worker := mkWorker true (m_Contexts w) 1 (backoffs w).
Definition Worker_Shutdown (w : Worker) : Worker :=
  if m_Running w then mkWorker false (m_Contexts w) (backoff w) (backoffs w) else w.

Definition got_event (i : nat) (e : Ev) (w : Worker) : outcome Worker :=
  match m_Contexts w !! i with
  | None => Disabled
  | Some ctx =>
      outcome_bind (run_next_state e ctx) (λ '(ctx, again),
        outcome_bind (if again || negb (m_Running w) then Next ctx else reset ctx) (λ ctx,
          Next (mkWorker (m_Running w) (<[i := ctx]> (m_Contexts w)) 1 (backoffs w))))
  end.
Definition timeout (w : Worker) : Worker :=
  let b := if (backoff w <? 1048576)%Z then u64 (Z.shiftl (backoff w) 1) else backoff w in
  mkWorker (m_Running w) (m_Contexts w) b (backoffs w ++ [b]).

(** The loop over the statuses that the completion queue returns; [true]: the
    queue was shut down and the loop ended. *)
Fixpoint ProgressEngine (evs : list next_status) (w : Worker) : outcome (Worker * bool) :=
  match evs with
  | [] => Next (w, false)
  | GOT_EVENT i e :: evs => outcome_bind (got_event i e w) (ProgressEngine evs)
  | TIMEOUT :: evs => ProgressEngine evs (timeout w)
  | SHUTDOWN :: _ => Next (w, true)
  end.

(** [Executor::Run]: every context is queued. *)
Fixpoint reset_all (cs : list C) : outcome (list C) :=
  match cs with
  | [] => Next []
  | c :: cs => outcome_bind (reset c) (λ c, outcome_bind (reset_all cs) (λ cs, Next (c :: cs)))
  end.
Definition Run (w : Worker) : outcome Worker :=
  outcome_bind (reset_all (m_Contexts w)) (λ cs, Next (mkWorker (m_Running w) cs (backoff w) (backoffs w))).

Definition backoff_ok (b : Z) : Prop := ∃ k, (0 ≤ k ≤ 20)%Z ∧ b = (2 ^ k)%Z.

Lemma timeout_backoff w : backoff_ok (backoff w) → backoff_ok (backoff (timeout w)).
Proof.
  intros (k & Hk & Hb). unfold timeout. destruct (Z.ltb_spec (backoff w) 1048576) as [Hlt|Hge]; simpl; [|by exists k].
  exists (k + 1)%Z. assert (k < 20)%Z.
  { rewrite Hb in Hlt. change 1048576%Z with (2 ^ 20)%Z in Hlt. apply Z.pow_lt_mono_r_iff in Hlt; lia. }
  split; [lia|]. rewrite Z.shiftl_mul_pow2 by lia. rewrite Hb, <-Z.pow_add_r by lia. apply u64_small.
  split; [lia|]. apply Z.pow_lt_mono_r; lia.
Qed.

(** The argument of [TimeoutBackoff] is a power of two from 2 to 2^20, in
    whatever order events and timeouts come: the 64-bit shift never overflows,
    and an event starts the backoff again. *)
Theorem backoff_bounded evs w w' b :
  backoff_ok (backoff w) → Forall backoff_ok (backoffs w) → ProgressEngine evs w = Next (w', b) →
  Forall backoff_ok (backoffs w').
Proof.
  revert w. induction evs as [|[i e| |] evs IH]; intros w Hb Hbs H; simpl in H; simplify_eq; [done| | |done].
  - unfold got_event in H. destruct (m_Contexts w !! i) as [ctx|]; [|done].
    destruct (run_next_state e ctx) as [| |[c1 again]]; simplify_eq/=.
    destruct (if _ || _ then _ else _) as [| |c2]; simplify_eq/=. apply IH in H; [done| |done]. exists 0%Z. split; [lia|done].
  - apply IH in H; [done|by apply timeout_backoff|]. simpl. apply Forall_app. split; [done|]. constructor; [|constructor].
    by apply (timeout_backoff w).
Qed.
End worker.

(** What the user does in [ExecuteRPC]: answer at once, or keep the context and
    answer later. *)
Inductive answer (R : Type) := AFinish (r : R) | ACancel | ALater.
Arguments AFinish {R} r.
Arguments ACancel {R}.
Arguments ALater {R}.

(** The operations posted on the call, in order. *)
Inductive post (Response : Type) :=
| PRequest | PRead | PWrite (r : Response) | PWriteAndFinish (r : Response) | PFinish (r : option Response) (s : grpc_status).
Arguments PRequest {Response}.
Arguments PRead {Response}.
Arguments PWrite {Response} r.
Arguments PWriteAndFinish {Response} r.
Arguments PFinish {Response} r s.

(** A life cycle with one tag: whatever is outstanding completes. *)
Definition complete_tag (ok : bool) (k : call) : option call :=
  if rd k then complete_read k else if wr k then complete_write k else complete_main ok k.

