(* ===== verification/Unary.v ===== *)
(** * The unary life cycle of the RPC server

    Models [tools/nvrpc/include/nvrpc/life_cycle_unary.h].  The life cycle is a
    state machine whose next state is a member-function pointer; its operations
    obey the automaton of [Grpc].  [ExecuteRPC] is the user's. *)
From S2P Require Import Prelude Grpc RpcWorker.

Section unary.
Context {Request Response : Type} (default_request : Request) (default_response : Response).
(** [ExecuteRPC] fills the response; it may answer before it returns. *)
Context (ExecuteRPC : Request → Response * answer ()).

Inductive State := StateRequestDone | StateFinishedDone.
Record LifeCycle := mkLifeCycle {
  m_NextState : option State;           (* indeterminate before the first Reset *)
  m_Request : Request;
  m_Response : Response;
  m_call : call;
  posts : list (post Response);
}.
Definition LifeCycle_new : LifeCycle := mkLifeCycle None default_request default_response new_call [].

Definition FinishWith (s : grpc_status) (c : LifeCycle) : outcome LifeCycle :=
  outcome_bind (or_fault GrpcMisuse (post_finish (m_call c))) (λ k,
    Next (mkLifeCycle (Some StateFinishedDone) (m_Request c) (m_Response c) k (posts c ++ [PFinish (Some (m_Response c)) s]))).
Definition FinishResponse : LifeCycle → outcome LifeCycle := FinishWith StatusOK.
Definition CancelResponse : LifeCycle → outcome LifeCycle := FinishWith StatusCANCELLED.

Definition Reset (c : LifeCycle) : outcome LifeCycle :=
  outcome_bind (or_fault GrpcMisuse (post_request new_call)) (λ k,
    Next (mkLifeCycle (Some StateRequestDone) default_request default_response k (posts c ++ [PRequest]))).

Definition CheckDeadlineAndShouldContinue : bool := true.

Definition StateRequestDone_fn (ok : bool) (c : LifeCycle) : outcome (LifeCycle * bool) :=
  if negb ok then Next (c, false)
  else
    if CheckDeadlineAndShouldContinue then
      let '(resp, a) := ExecuteRPC (m_Request c) in
      let c := mkLifeCycle (m_NextState c) (m_Request c) resp (m_call c) (posts c) in
      match a with
      | AFinish _ => outcome_bind (FinishResponse c) (λ c, Next (c, true))
      | ACancel => outcome_bind (CancelResponse c) (λ c, Next (c, true))
      | ALater => Next (c, true)
      end
    else Next (c, true).

Definition RunNextState (ok : bool) (c : LifeCycle) : outcome (LifeCycle * bool) :=
  match m_NextState c with
  | None => Fault NullPointer
  | Some StateRequestDone => StateRequestDone_fn ok c
  | Some StateFinishedDone => Next (c, false)
  end.

(** A completion of the context's tag; [r] is the request that gRPC stored. *)
#[export] Instance unary_context : IContext LifeCycle (bool * Request) := {
  run_next_state '(ok, r) c :=
    outcome_bind (or_disabled (complete_tag ok (m_call c))) (λ k,
      RunNextState ok (mkLifeCycle (m_NextState c) (if ok && bool_decide (phase (m_call c) = CallRequested) then r else m_Request c) (m_Response c) k (posts c)));
  reset := Reset;
}.

(** A context that waits for a request. *)
Definition queued (ps : list (post Response)) : LifeCycle :=
  mkLifeCycle (Some StateRequestDone) default_request default_response (Call CallRequested false false) ps.
Definition reply (r : Request) : list (post Response) :=
  let '(resp, a) := ExecuteRPC r in
  [PFinish (Some resp) (match a with ACancel => StatusCANCELLED | _ => StatusOK end); PRequest].

Definition serve (r : Request) : list (@next_status (bool * Request)) :=
  [GOT_EVENT 0 (true, r); GOT_EVENT 0 (true, r)].

Lemma serve_one r evs ps b bs :
  (ExecuteRPC r).2 ≠ ALater →
  ProgressEngine (serve r ++ evs) (mkWorker true [queued ps] b bs) =
  ProgressEngine evs (mkWorker true [queued (ps ++ reply r)] 1 bs).
Proof.
  intros Hr. unfold serve, reply, got_event, queued. simpl. unfold got_event. simpl. unfold RunNextState, StateRequestDone_fn. simpl.
  destruct (ExecuteRPC r) as [resp a]. simpl in Hr. destruct a as [[]| |]; [| |done]; simpl; unfold RunNextState; simpl; by rewrite <-app_assoc.
Qed.

(** A worker answers every unary request once, in order, with the response
    and the status that [ExecuteRPC] gave it, and queues the context again after
    each one. *)
Theorem unary_serves_all rs ps b bs :
  (∀ r, (ExecuteRPC r).2 ≠ ALater) →
  ProgressEngine (concat (serve <$> rs)) (mkWorker true [queued ps] b bs) =
    Next (mkWorker true [queued (ps ++ concat (reply <$> rs))] (match rs with [] => b | _ => 1%Z end) bs, false).
Proof.
  intros Hnow. revert ps b. induction rs as [|r rs IH]; intros ps b; [by rewrite app_nil_r|].
  rewrite !fmap_cons. cbn [concat]. rewrite serve_one by done. rewrite IH, <-app_assoc. by destruct rs.
Qed.
End unary.

Definition echo (n : nat) : nat * answer () := (n + 1, if n =? 0 then ACancel else AFinish ()).
Lemma unary_serves_all_witness :
  concat (reply echo <$> [0; 3]) = [PFinish (Some 1) StatusCANCELLED; PRequest; PFinish (Some 4) StatusOK; PRequest] ∧
  ProgressEngine (IContext0 := unary_context 0 0 echo) (concat (serve <$> [0; 3])) (mkWorker true [queued 0 0 []] 8 []) =
    Next (mkWorker true [queued 0 0 ([] ++ concat (reply echo <$> [0; 3]))] 1%Z [], false).
Proof.
  split; [reflexivity|]. apply (unary_serves_all 0 0 echo [0; 3] [] 8 []). intros [|r]; done.
Defined.

Lemma backoff_bounded_witness :
  ProgressEngine (IContext0 := unary_context 0 0 echo) [TIMEOUT; TIMEOUT; GOT_EVENT 0 (true, 3); TIMEOUT] (mkWorker true [queued 0 0 []] 1 []) =
    Next (mkWorker true [mkLifeCycle (Some StateFinishedDone) 3 4 (Call CallFinishing false false) [PFinish (Some 4) StatusOK]] 2 [2; 4; 2]%Z, false) ∧
  Forall backoff_ok [2; 4; 2]%Z.
Proof.
  split; [vm_compute; reflexivity|].
  apply (backoff_bounded (IContext0 := unary_context 0 0 echo) [TIMEOUT; TIMEOUT; GOT_EVENT 0 (true, 3); TIMEOUT] (mkWorker true [queued 0 0 []] 1 [])
    (mkWorker true [mkLifeCycle (Some StateFinishedDone) 3 4 (Call CallFinishing false false) [PFinish (Some 4) StatusOK]] 2 [2; 4; 2]%Z) false).
  - exists 0%Z. split; [lia|reflexivity].
  - constructor.
  - vm_compute. reflexivity.
Defined.

