(* ===== verification/Batching.v ===== *)
(** * The batching life cycle of the RPC server

    Models the class [LifeCycleBatching] of
    [tools/nvrpc/include/nvrpc/life_cycle_batching.h]: all requests in, then all
    responses out.  All operations share the tag of the context, of which only
    one is outstanding at a time. *)
From S2P Require Import Prelude Grpc RpcWorker.

Section batching.
Context {Request Response : Type} (default : Request).
(** What the user does with the batch. *)
Context (ExecuteRPC : list Request → answer (list Response)).

Inductive State := StateRequestDone | StateReadDone | StateWriteDone | StateFinishedDone.
Record LifeCycle := mkLifeCycle {
  m_NextState : option State;
  m_Requests : list Request;
  m_Responses : list Response;
  m_ResponseIterator : nat;
  m_call : call;
  posts : list (post Response);
  executed : list (list Request);       (* the batches given to ExecuteRPC *)
}.
Definition LifeCycle_new : LifeCycle := mkLifeCycle None [] [] 0 new_call [] [].

(** Posting an operation and choosing the next state. *)
Definition submit (f : call → option call) (p : post Response) (next : State) (c : LifeCycle) : outcome LifeCycle :=
  outcome_bind (or_fault GrpcMisuse (f (m_call c))) (λ k,
    Next (mkLifeCycle (Some next) (m_Requests c) (m_Responses c) (m_ResponseIterator c) k (posts c ++ [p]) (executed c))).

Definition Reset (c : LifeCycle) : outcome LifeCycle :=
  submit post_request PRequest StateRequestDone
    (mkLifeCycle (m_NextState c) [] [] (m_ResponseIterator c) new_call (posts c) (executed c)).

Definition StateWriteDone_fn (ok : bool) (c : LifeCycle) : outcome (LifeCycle * bool) :=
  if negb ok then Next (c, false)
  else
    outcome_bind
      (match m_Responses c !! m_ResponseIterator c with
       | Some r =>
           if bool_decide (S (m_ResponseIterator c) ≠ length (m_Responses c)) then
             outcome_bind (submit post_write (PWrite r) StateWriteDone c) (λ c,
               Next (mkLifeCycle (m_NextState c) (m_Requests c) (m_Responses c) (S (m_ResponseIterator c)) (m_call c) (posts c) (executed c)))
           else submit post_finish (PWriteAndFinish r) StateFinishedDone c
       | None => submit post_finish (PFinish None StatusOK) StateFinishedDone c
       end)
      (λ c, Next (c, true)).

(** The user's [ExecuteRPC] filled [m_Responses] with [rs]. *)
Definition FinishResponse (rs : list Response) (c : LifeCycle) : outcome LifeCycle :=
  outcome_bind (StateWriteDone_fn true (mkLifeCycle (m_NextState c) (m_Requests c) rs 0 (m_call c) (posts c) (executed c)))
    (λ '(c, _), Next c).
Definition CancelResponse (c : LifeCycle) : outcome LifeCycle :=
  submit post_finish (PFinish None StatusCANCELLED) StateFinishedDone c.

Definition StateRequestDone_fn (ok : bool) (c : LifeCycle) : outcome (LifeCycle * bool) :=
  if negb ok then Next (c, false)
  else
    outcome_bind (submit post_read PRead StateReadDone
      (mkLifeCycle (m_NextState c) (m_Requests c ++ [default]) (m_Responses c) (m_ResponseIterator c) (m_call c) (posts c) (executed c)))
      (λ c, Next (c, true)).

(** [OnRequestReceived] is a hook without effect on the context. *)
Definition StateReadDone_fn (ok : bool) (c : LifeCycle) : outcome (LifeCycle * bool) :=
  if ok then
    outcome_bind (submit post_read PRead StateReadDone
      (mkLifeCycle (m_NextState c) (m_Requests c ++ [default]) (m_Responses c) (m_ResponseIterator c) (m_call c) (posts c) (executed c)))
      (λ c, Next (c, true))
  else
    match m_Requests c with
    | [] => Fault EmptyQueue
    | _ :: _ =>
        let rqs := removelast (m_Requests c) in
        let c := mkLifeCycle (m_NextState c) rqs (m_Responses c) (m_ResponseIterator c) (m_call c) (posts c) (executed c ++ [rqs]) in
        match ExecuteRPC rqs with
        | AFinish rs => outcome_bind (FinishResponse rs c) (λ c, Next (c, true))
        | ACancel => outcome_bind (CancelResponse c) (λ c, Next (c, true))
        | ALater => Next (c, true)
        end
    end.

Definition RunNextState (ok : bool) (c : LifeCycle) : outcome (LifeCycle * bool) :=
  match m_NextState c with
  | None => Fault NullPointer
  | Some StateRequestDone => StateRequestDone_fn ok c
  | Some StateReadDone => StateReadDone_fn ok c
  | Some StateWriteDone => StateWriteDone_fn ok c
  | Some StateFinishedDone => Next (c, false)
  end.

(** A completion: [Some r] is a read that stored [r] in the last slot. *)
Definition store (r : option Request) (c : LifeCycle) : list Request :=
  match r with Some r => removelast (m_Requests c) ++ [r] | None => m_Requests c end.
#[export] Instance batching_context : IContext LifeCycle (bool * option Request) := {
  run_next_state '(ok, r) c :=
    outcome_bind (or_disabled (complete_tag ok (m_call c))) (λ k,
      RunNextState ok (mkLifeCycle (m_NextState c) (store r c) (m_Responses c) (m_ResponseIterator c) k (posts c) (executed c)));
  reset := Reset;
}.

(** ** The whole exchange *)
Notation ev := (@next_status (bool * option Request)).
Definition queued (it : nat) (ps : list (post Response)) (ex : list (list Request)) : LifeCycle :=
  mkLifeCycle (Some StateRequestDone) [] [] it (Call CallRequested false false) ps ex.

(** How the responses go out: each one written, the last one with the finish. *)
Fixpoint answers (rs : list Response) : list (post Response) :=
  match rs with
  | [] => [PFinish None StatusOK]
  | [r] => [PWriteAndFinish r]
  | r :: rs => PWrite r :: answers rs
  end.
Definition accepted : ev := GOT_EVENT 0 (true, None).
Definition arrives (r : Request) : ev := GOT_EVENT 0 (true, Some r).
Definition half_close : ev := GOT_EVENT 0 (false, None).
Definition done_ok : ev := GOT_EVENT 0 (true, None).

Definition reading (rqs : list Request) (it : nat) (ps : list (post Response)) (ex : list (list Request)) : LifeCycle :=
  mkLifeCycle (Some StateReadDone) (rqs ++ [default]) [] it (Call CallOpen true false) ps ex.
Lemma read_all rqs0 rqs it ps ex evs b bs :
  ProgressEngine ((arrives <$> rqs) ++ evs) (mkWorker true [reading rqs0 it ps ex] b bs) =
  ProgressEngine evs (mkWorker true [reading (rqs0 ++ rqs) it (ps ++ replicate (length rqs) PRead) ex]
                        (match rqs with [] => b | _ => 1%Z end) bs).
Proof.
  revert rqs0 ps b. induction rqs as [|r rqs IH]; intros rqs0 ps b; [by rewrite !app_nil_r|].
  rewrite fmap_cons. cbn [app ProgressEngine arrives length replicate].
  assert (got_event 0 (true, Some r) (mkWorker true [reading rqs0 it ps ex] b bs) =
          Next (mkWorker true [reading (rqs0 ++ [r]) it (ps ++ [PRead]) ex] 1 bs)) as ->.
  { unfold got_event, reading. simpl. unfold RunNextState. simpl. unfold store. simpl. by rewrite removelast_last. }
  cbn [outcome_bind]. rewrite IH, <-!app_assoc. simpl. by destruct rqs.
Qed.

Definition writing (rqs : list Request) (rs : list Response) (it : nat) (ps : list (post Response)) (ex : list (list Request)) : LifeCycle :=
  mkLifeCycle (Some StateWriteDone) rqs rs it (Call CallOpen false true) ps ex.
Definition finishing (rqs : list Request) (rs : list Response) (it : nat) (ps : list (post Response)) (ex : list (list Request)) : LifeCycle :=
  mkLifeCycle (Some StateFinishedDone) rqs rs it (Call CallFinishing false false) ps ex.

(** From [StateWriteDone] on, with [pre] already written. *)
Lemma StateWriteDone_next rqs pre rs ps ex next :
  StateWriteDone_fn true (mkLifeCycle next rqs (pre ++ rs) (length pre) (Call CallOpen false false) ps ex) =
  Next (match rs with
        | [] => finishing rqs (pre ++ rs) (length pre) (ps ++ [PFinish None StatusOK]) ex
        | [r] => finishing rqs (pre ++ rs) (length pre) (ps ++ [PWriteAndFinish r]) ex
        | r :: _ => writing rqs (pre ++ rs) (S (length pre)) (ps ++ [PWrite r]) ex
        end, true).
Proof.
  unfold StateWriteDone_fn. simpl. destruct rs as [|r [|r' rs]].
  - rewrite lookup_ge_None_2 by (rewrite length_app; simpl; lia). done.
  - rewrite list_lookup_middle by done. rewrite bool_decide_false by (rewrite length_app; simpl; lia). done.
  - rewrite list_lookup_middle by done. rewrite bool_decide_true by (rewrite length_app; simpl; lia). done.
Qed.

Definition sent (rqs : list Request) (pre rs : list Response) (ps : list (post Response)) (ex : list (list Request)) : LifeCycle :=
  match rs with
  | [] => finishing rqs (pre ++ rs) (length pre) (ps ++ [PFinish None StatusOK]) ex
  | [r] => finishing rqs (pre ++ rs) (length pre) (ps ++ [PWriteAndFinish r]) ex
  | r :: _ => writing rqs (pre ++ rs) (S (length pre)) (ps ++ [PWrite r]) ex
  end.
Lemma finished rqs rs it ps ex b bs :
  got_event 0 (true, None) (mkWorker true [finishing rqs rs it ps ex] b bs) = Next (mkWorker true [queued it (ps ++ [PRequest]) ex] 1 bs).
Proof. done. Qed.
Lemma write_all rqs pre rs ps ex evs b bs :
  ProgressEngine (replicate (max 1 (length rs)) done_ok ++ evs) (mkWorker true [sent rqs pre rs ps ex] b bs) =
  ProgressEngine evs (mkWorker true [queued (length pre + pred (length rs)) (ps ++ answers rs ++ [PRequest]) ex] 1 bs).
Proof.
  revert pre ps b. induction rs as [|r rs IH]; intros pre ps b.
  { cbn [max length replicate app ProgressEngine done_ok sent]. rewrite finished. cbn [outcome_bind pred answers]. by rewrite <-app_assoc, Nat.add_0_r. }
  destruct rs as [|r' rs].
  { cbn [max length replicate app ProgressEngine done_ok sent]. rewrite finished. cbn [outcome_bind pred answers]. by rewrite <-app_assoc, Nat.add_0_r. }
  change (replicate (max 1 (length (r :: r' :: rs))) done_ok) with (done_ok :: replicate (max 1 (length (r' :: rs))) done_ok).
  cbn [app ProgressEngine done_ok].
  assert (got_event 0 (true, None) (mkWorker true [sent rqs pre (r :: r' :: rs) ps ex] b bs) =
          Next (mkWorker true [sent rqs (pre ++ [r]) (r' :: rs) (ps ++ [PWrite r]) ex] 1 bs)) as ->.
  { unfold got_event. cbn [m_Contexts lookup list_lookup run_next_state batching_context sent writing m_call complete_tag rd wr complete_write phase or_disabled outcome_bind store m_NextState m_Requests m_Responses m_ResponseIterator posts executed RunNextState].
    pose proof (StateWriteDone_next rqs (pre ++ [r]) (r' :: rs) (ps ++ [PWrite r]) ex (Some StateWriteDone)) as Hn.
    rewrite <-app_assoc, length_app in Hn. cbn [app length] in Hn. rewrite Nat.add_1_r in Hn. rewrite Hn. cbn [outcome_bind orb reset m_Running].
    unfold sent. rewrite <-(app_assoc pre [r]), length_app, Nat.add_1_r. by destruct rs. }
  cbn [outcome_bind]. rewrite IH. cbn [answers]. rewrite length_app, <-!app_assoc. simpl.
  by replace (length pre + 1 + length rs) with (length pre + S (length rs)) by lia.
Qed.

(** A batching RPC executes once, with exactly the requests that the client
    sent, in order, and answers with exactly the responses that the user gave,
    in order, the last one together with the finish (or the finish alone when
    there is none); then the context is queued again, with nothing left of the
    batch. *)
Theorem batching_exchange rqs rs it ps ex b bs :
  ExecuteRPC rqs = AFinish rs →
  ProgressEngine ([accepted] ++ (arrives <$> rqs) ++ [half_close] ++ replicate (max 1 (length rs)) done_ok)
    (mkWorker true [queued it ps ex] b bs) =
  Next (mkWorker true [queued (pred (length rs)) (ps ++ replicate (S (length rqs)) PRead ++ answers rs ++ [PRequest]) (ex ++ [rqs])] 1 bs, false).
Proof.
  intros Hex. cbn [app ProgressEngine accepted].
  assert (got_event 0 (true, None) (mkWorker true [queued it ps ex] b bs) = Next (mkWorker true [reading [] it (ps ++ [PRead]) ex] 1 bs)) as -> by done.
  cbn [outcome_bind]. rewrite read_all. cbn [app ProgressEngine half_close].
  assert (∀ b, got_event 0 (false, None) (mkWorker true [reading rqs it ((ps ++ [PRead]) ++ replicate (length rqs) PRead) ex] b bs) =
          Next (mkWorker true [sent rqs [] rs ((ps ++ [PRead]) ++ replicate (length rqs) PRead) (ex ++ [rqs])] 1 bs)) as Hhc.
  { intros b'. unfold got_event, reading.
    cbn [m_Contexts lookup list_lookup run_next_state batching_context m_call complete_tag rd wr complete_read phase or_disabled outcome_bind store m_NextState m_Requests m_Responses m_ResponseIterator posts executed RunNextState].
    unfold StateReadDone_fn. cbn [m_Requests m_Responses m_ResponseIterator posts executed m_NextState m_call]. rewrite removelast_last, Hex.
    destruct (rqs ++ [default]) eqn:E; [by destruct rqs|]. unfold FinishResponse.
    cbn [m_Requests m_Responses m_ResponseIterator posts executed m_NextState m_call].
    pose proof (StateWriteDone_next rqs [] rs ((ps ++ [PRead]) ++ replicate (length rqs) PRead) (ex ++ [rqs]) (Some StateReadDone)) as Hn.
    cbn [app length] in Hn. rewrite Hn. unfold sent. by destruct rs as [|x [|y rs]]. }
  rewrite Hhc. cbn [outcome_bind]. rewrite <-(app_nil_r (replicate _ done_ok)), write_all. cbn [ProgressEngine length Nat.add replicate].
  by rewrite <-!app_assoc.
Qed.
End batching.

Definition double (l : list nat) : answer (list nat) := AFinish ((λ n, n + n) <$> l).
Lemma batching_exchange_witness :
  double [1; 2] = AFinish [2; 4] ∧
  ProgressEngine (IContext0 := batching_context 0 double) ([accepted] ++ (arrives <$> [1; 2]) ++ [half_close] ++ replicate 2 done_ok)
    (mkWorker true [queued 0 [] []] 4 []) =
  Next (mkWorker true [queued 1 [PRead; PRead; PRead; PWrite 2; PWriteAndFinish 4; PRequest] [[1; 2]]] 1 [], false).
Proof.
  split; [reflexivity|]. apply (batching_exchange 0 double [1; 2] [2; 4] 0 [] [] 4 []). reflexivity.
Defined.
