(* ===== verification/Bidirectional.v ===== *)
(** * The bidirectional life cycle of the RPC server

    Models [tools/nvrpc/include/nvrpc/life_cycle_bidirectional.h]: requests are
    read ahead, executed one at a time and answered in order.  A handler, with
    what it posts after it released the mutex, is one step; the user's answer
    ([FinishResponse], also when [ExecuteRPC] calls it before it returns) is an
    event of its own.  The ghost fields record what was received, executed,
    answered and written. *)
From S2P Require Import Prelude Grpc.

Section bidirectional.
Context {Request Response : Type} (default_request : Request) (default_response : Response).

(** Reads and writes have tags of their own, whose states never change. *)
Inductive State := StateInitializedDone | StateFinishDone | StateInvalid.
Record LifeCycle := mkLifeCycle {
  m_NextState : option State;
  m_RequestQueue : list Request;
  m_ResponseQueue : list Response;
  m_ResponseWriteBackQueue : list Response;
  m_Writing : bool;
  m_Executing : bool;
  m_WritesDone : bool;
  m_Finishing : bool;
  m_call : call;
  received : list Request;
  executed : list Request;
  answered : list Response;
  written : list Response;
}.
Definition set_m_NextState (v : option State) (s : LifeCycle) : LifeCycle :=
  mkLifeCycle v (m_RequestQueue s) (m_ResponseQueue s) (m_ResponseWriteBackQueue s) (m_Writing s) (m_Executing s) (m_WritesDone s) (m_Finishing s) (m_call s) (received s) (executed s) (answered s) (written s).
Definition set_m_RequestQueue (v : list Request) (s : LifeCycle) : LifeCycle :=
  mkLifeCycle (m_NextState s) v (m_ResponseQueue s) (m_ResponseWriteBackQueue s) (m_Writing s) (m_Executing s) (m_WritesDone s) (m_Finishing s) (m_call s) (received s) (executed s) (answered s) (written s).
Definition set_m_ResponseQueue (v : list Response) (s : LifeCycle) : LifeCycle :=
  mkLifeCycle (m_NextState s) (m_RequestQueue s) v (m_ResponseWriteBackQueue s) (m_Writing s) (m_Executing s) (m_WritesDone s) (m_Finishing s) (m_call s) (received s) (executed s) (answered s) (written s).
Definition set_m_ResponseWriteBackQueue (v : list Response) (s : LifeCycle) : LifeCycle :=
  mkLifeCycle (m_NextState s) (m_RequestQueue s) (m_ResponseQueue s) v (m_Writing s) (m_Executing s) (m_WritesDone s) (m_Finishing s) (m_call s) (received s) (executed s) (answered s) (written s).
Definition set_m_Writing (v : bool) (s : LifeCycle) : LifeCycle :=
  mkLifeCycle (m_NextState s) (m_RequestQueue s) (m_ResponseQueue s) (m_ResponseWriteBackQueue s) v (m_Executing s) (m_WritesDone s) (m_Finishing s) (m_call s) (received s) (executed s) (answered s) (written s).
Definition set_m_Executing (v : bool) (s : LifeCycle) : LifeCycle :=
  mkLifeCycle (m_NextState s) (m_RequestQueue s) (m_ResponseQueue s) (m_ResponseWriteBackQueue s) (m_Writing s) v (m_WritesDone s) (m_Finishing s) (m_call s) (received s) (executed s) (answered s) (written s).
Definition set_m_WritesDone (v : bool) (s : LifeCycle) : LifeCycle :=
  mkLifeCycle (m_NextState s) (m_RequestQueue s) (m_ResponseQueue s) (m_ResponseWriteBackQueue s) (m_Writing s) (m_Executing s) v (m_Finishing s) (m_call s) (received s) (executed s) (answered s) (written s).
Definition set_m_Finishing (v : bool) (s : LifeCycle) : LifeCycle :=
  mkLifeCycle (m_NextState s) (m_RequestQueue s) (m_ResponseQueue s) (m_ResponseWriteBackQueue s) (m_Writing s) (m_Executing s) (m_WritesDone s) v (m_call s) (received s) (executed s) (answered s) (written s).
Definition set_m_call (v : call) (s : LifeCycle) : LifeCycle :=
  mkLifeCycle (m_NextState s) (m_RequestQueue s) (m_ResponseQueue s) (m_ResponseWriteBackQueue s) (m_Writing s) (m_Executing s) (m_WritesDone s) (m_Finishing s) v (received s) (executed s) (answered s) (written s).
Definition set_received (v : list Request) (s : LifeCycle) : LifeCycle :=
  mkLifeCycle (m_NextState s) (m_RequestQueue s) (m_ResponseQueue s) (m_ResponseWriteBackQueue s) (m_Writing s) (m_Executing s) (m_WritesDone s) (m_Finishing s) (m_call s) v (executed s) (answered s) (written s).
Definition set_executed (v : list Request) (s : LifeCycle) : LifeCycle :=
  mkLifeCycle (m_NextState s) (m_RequestQueue s) (m_ResponseQueue s) (m_ResponseWriteBackQueue s) (m_Writing s) (m_Executing s) (m_WritesDone s) (m_Finishing s) (m_call s) (received s) v (answered s) (written s).
Definition set_answered (v : list Response) (s : LifeCycle) : LifeCycle :=
  mkLifeCycle (m_NextState s) (m_RequestQueue s) (m_ResponseQueue s) (m_ResponseWriteBackQueue s) (m_Writing s) (m_Executing s) (m_WritesDone s) (m_Finishing s) (m_call s) (received s) (executed s) v (written s).
Definition set_written (v : list Response) (s : LifeCycle) : LifeCycle :=
  mkLifeCycle (m_NextState s) (m_RequestQueue s) (m_ResponseQueue s) (m_ResponseWriteBackQueue s) (m_Writing s) (m_Executing s) (m_WritesDone s) (m_Finishing s) (m_call s) (received s) (executed s) (answered s) v.

Definition LifeCycle_new : LifeCycle := mkLifeCycle None [] [] [] false false false false new_call [] [] [] [].

Definition Reset (c : LifeCycle) : outcome LifeCycle :=
  outcome_bind (or_fault GrpcMisuse (post_request new_call)) (λ k,
    Next (mkLifeCycle (Some StateInitializedDone) [] [] [] false false false false k [] [] [] [])).

Definition ev_execute (c : LifeCycle) : LifeCycle * bool :=
  if negb (m_Executing c) && negb (bool_decide (m_ResponseQueue c = [])) then (set_m_Executing true c, true) else (c, false).
Definition ev_write (c : LifeCycle) : LifeCycle * bool :=
  if negb (m_Writing c) && negb (bool_decide (m_ResponseWriteBackQueue c = [])) then (set_m_Writing true c, true) else (c, false).
Definition ev_finish (should_write should_execute : bool) (c : LifeCycle) : LifeCycle * bool :=
  if negb should_write && negb should_execute && negb (m_Writing c) && negb (m_Executing c) && negb (m_Finishing c) && m_WritesDone c
  then (set_m_NextState (Some StateFinishDone) (set_m_Finishing true c), true) else (c, false).
Definition EvaluateState (c : LifeCycle) : LifeCycle * (bool * bool * bool) :=
  let '(c, e) := ev_execute c in
  let '(c, w) := ev_write c in
  let '(c, f) := ev_finish w e c in
  (c, (w, e, f)).

(** [ExecuteRPC] is called with the front of the request queue. *)
Definition ProgressState (should_write should_execute should_finish : bool) (c : LifeCycle) : outcome LifeCycle :=
  outcome_bind
    (if should_write then
       match m_ResponseWriteBackQueue c with
       | [] => Fault EmptyQueue
       | r :: _ => outcome_bind (or_fault GrpcMisuse (post_write (m_call c))) (λ k, Next (set_written (written c ++ [r]) (set_m_call k c)))
       end
     else Next c) (λ c,
  outcome_bind
    (if should_execute then
       match m_RequestQueue c with
       | [] => Fault EmptyQueue
       | rq :: _ => Next (set_executed (executed c ++ [rq]) c)
       end
     else Next c) (λ c,
  if should_finish then outcome_bind (or_fault GrpcMisuse (post_finish (m_call c))) (λ k, Next (set_m_call k c)) else Next c)).
Definition progress (c : LifeCycle) : outcome LifeCycle :=
  let '(c, (w, e, f)) := EvaluateState c in ProgressState w e f c.

Definition post_next_read (c : LifeCycle) : outcome LifeCycle :=
  outcome_bind (or_fault GrpcMisuse (post_read (m_call c))) (λ k, Next (set_m_call k c)).

Definition StateInitializedDone_fn (ok : bool) (c : LifeCycle) : outcome (LifeCycle * bool) :=
  if negb ok then Next (c, false)
  else
    outcome_bind (post_next_read (set_m_NextState (Some StateInvalid) (set_m_RequestQueue (m_RequestQueue c ++ [default_request]) c)))
      (λ c, Next (c, true)).

Definition StateRequestDone_fn (ok : bool) (c : LifeCycle) : outcome LifeCycle :=
  let c := if ok then c else set_m_WritesDone true c in
  let should_read := negb (m_WritesDone c) in
  let c := if should_read
           then set_m_RequestQueue (m_RequestQueue c ++ [default_request]) (set_m_ResponseQueue (m_ResponseQueue c ++ [default_response]) c)
           else c in
  let '(c, (w, e, f)) := EvaluateState c in
  outcome_bind (if should_read then post_next_read c else Next c) (ProgressState w e f).

Definition CancelResponse (c : LifeCycle) : outcome LifeCycle :=
  let c := set_m_NextState (Some StateFinishDone) c in
  if negb (m_Executing c) then outcome_bind (or_fault GrpcMisuse (post_finish (m_call c))) (λ k, Next (set_m_call k c)) else Next c.

Definition StateResponseDone_fn (ok : bool) (c : LifeCycle) : outcome LifeCycle :=
  if negb ok then CancelResponse c
  else
    match m_ResponseWriteBackQueue c with
    | [] => Fault EmptyQueue
    | _ :: q => progress (set_m_ResponseWriteBackQueue q (set_m_Writing false c))
    end.

(** The user answers the request in execution with [r]. *)
Definition FinishResponse (r : Response) (c : LifeCycle) : outcome LifeCycle :=
  match m_ResponseQueue c, m_RequestQueue c with
  | _ :: rs, _ :: rqs =>
      progress (set_answered (answered c ++ [r])
        (set_m_ResponseQueue rs (set_m_RequestQueue rqs
          (set_m_ResponseWriteBackQueue (m_ResponseWriteBackQueue c ++ [r]) (set_m_Executing false c)))))
  | _, _ => Fault EmptyQueue
  end.

Inductive event := BMain (ok : bool) | BRead (r : option Request) | BWrite (ok : bool) | BFinish (r : Response) | BCancel.

Definition step (c : LifeCycle) (e : event) : outcome LifeCycle :=
  match e with
  | BMain ok =>
      outcome_bind (or_disabled (complete_main ok (m_call c))) (λ k,
        let c := set_m_call k c in
        outcome_bind
          (match m_NextState c with
           | None => Fault NullPointer
           | Some StateInitializedDone => StateInitializedDone_fn ok c
           | Some StateFinishDone => Next (c, false)
           | Some StateInvalid => Fault InvalidState
           end) (λ '(c, again), if again then Next c else Reset c))
  | BRead r =>
      outcome_bind (or_disabled (complete_read (m_call c))) (λ k,
        let c := set_m_call k c in
        match r with
        | None => StateRequestDone_fn false c
        | Some r => StateRequestDone_fn true (set_received (received c ++ [r]) (set_m_RequestQueue (removelast (m_RequestQueue c) ++ [r]) c))
        end)
  | BWrite ok =>
      outcome_bind (or_disabled (complete_write (m_call c))) (λ k, StateResponseDone_fn ok (set_m_call k c))
  | BFinish r => FinishResponse r c
  | BCancel => CancelResponse c
  end.

(** The user answers each request that is executed once and does not cancel, and
    no write fails. *)
Definition orderly (c : LifeCycle) (e : event) : bool :=
  match e with BMain _ | BRead _ => true | BWrite ok => ok | BFinish _ => m_Executing c | BCancel => false end.

Definition started : outcome LifeCycle := Reset LifeCycle_new.

(** ** Invariant *)
Notation pending c := (removelast (m_RequestQueue c)).

Record opened (c : LifeCycle) : Prop := {
  o_rd : rd (m_call c) = negb (m_WritesDone c);
  o_wr : wr (m_call c) = m_Writing c;
  o_writing : m_Writing c = negb (bool_decide (m_ResponseWriteBackQueue c = []));
  o_executing : m_Executing c = negb (bool_decide (m_ResponseQueue c = []));
  o_len : length (m_RequestQueue c) = S (length (m_ResponseQueue c));
  o_fin : m_Finishing c = m_WritesDone c && negb (m_Writing c) && negb (m_Executing c);
  o_phase : phase (m_call c) = if m_Finishing c then CallFinishing else CallOpen;
  o_next : m_NextState c = Some (if m_Finishing c then StateFinishDone else StateInvalid);
  o_req : ∃ dn, length dn = length (answered c) ∧ received c = dn ++ pending c ∧ executed c = dn ++ take 1 (pending c);
  o_resp : ∃ w0, answered c = w0 ++ m_ResponseWriteBackQueue c ∧ written c = w0 ++ take 1 (m_ResponseWriteBackQueue c);
}.

(** Between a change of the queues and the evaluation of the state; the call is
    given apart, since a read may be posted in between. *)
Record changed (c : LifeCycle) (k : call) : Prop := {
  c_rd : rd k = negb (m_WritesDone c);
  c_wr : wr k = m_Writing c;
  c_writing : m_Writing c = true → m_ResponseWriteBackQueue c ≠ [];
  c_executing : m_Executing c = true → m_ResponseQueue c ≠ [];
  c_len : length (m_RequestQueue c) = S (length (m_ResponseQueue c));
  c_fin : m_Finishing c = false;
  c_phase : phase k = CallOpen;
  c_next : m_NextState c = Some StateInvalid;
  c_req : ∃ dn, length dn = length (answered c) ∧ received c = dn ++ pending c ∧
    executed c = dn ++ if m_Executing c then take 1 (pending c) else [];
  c_resp : ∃ w0, answered c = w0 ++ m_ResponseWriteBackQueue c ∧
    written c = w0 ++ if m_Writing c then take 1 (m_ResponseWriteBackQueue c) else [];
}.

Lemma evaluate_ok c k :
  changed c k →
  let '(c1, (w, e, f)) := EvaluateState c in ∃ c', ProgressState w e f (set_m_call k c1) = Next c' ∧ opened c'.
Proof.
  destruct c as [nx rq rs wb wg eg wd fi k0 re ex an wn], k as [ph krd kwr].
  intros [H1 H2 H3 H4 H5 H6 H7 H8 (dn & R1 & R2 & R3) (w0 & W1 & W2)]; simpl in *. subst.
  destruct rq as [|q0 rq]; [simpl in H5; lia|].
  unfold EvaluateState, ev_execute, ev_write, ev_finish; simpl.
  destruct eg eqn:Eeg, wg eqn:Ewg, rs as [|r0 rs], wb as [|b0 wb]; try (by destruct (H3 eq_refl)); try (by destruct (H4 eq_refl));
    (destruct rq as [|q1 rq]; simpl in H5; try lia); destruct wd; simpl; (eexists; split; [reflexivity|]); split; simpl; auto;
    rewrite ?app_nil_r in *; try (by exists dn; rewrite ?app_nil_r; split_and!); try (by exists w0; rewrite ?app_nil_r; split_and!).
Qed.

Lemma bidi_progress_ok c : changed c (m_call c) → ∃ c', progress c = Next c' ∧ opened c'.
Proof.
  intros Hc. pose proof (evaluate_ok c (m_call c) Hc) as H. unfold progress.
  destruct (EvaluateState c) as [c1 [[w e] f]] eqn:E. destruct H as (c' & Hp & Ho). exists c'. split; [|done].
  rewrite <-Hp. f_equal. unfold EvaluateState, ev_execute, ev_write, ev_finish in E. destruct c.
  repeat match type of E with context [if ?b then _ else _] => destruct b; simpl in E end; by simplify_eq/=.
Qed.

Definition waiting (c : LifeCycle) : Prop :=
  c = mkLifeCycle (Some StateInitializedDone) [] [] [] false false false false (Call CallRequested false false) [] [] [] [].
Definition Inv (c : LifeCycle) : Prop := waiting c ∨ opened c.

Definition kept (m : outcome LifeCycle) : Prop :=
  match m with Next c => Inv c | Fault _ => False | Disabled => True end.

Lemma kept_main c ok : Inv c → kept (step c (BMain ok)).
Proof.
  intros [->|Ho]; simpl.
  - destruct ok; simpl; [|by left]. right. split; simpl; auto; by exists [].
  - unfold complete_main. rewrite (o_phase _ Ho). destruct (m_Finishing c) eqn:Ef; simpl; [|done].
    rewrite (o_next _ Ho), Ef. simpl. by left.
Qed.

Lemma opened_busy c : opened c → rd (m_call c) = true ∨ wr (m_call c) = true ∨ m_Executing c = true → m_Finishing c = false ∧ phase (m_call c) = CallOpen ∧ m_NextState c = Some StateInvalid.
Proof.
  intros Ho Hb. assert (m_Finishing c = false) as Hf.
  { rewrite (o_fin _ Ho). rewrite (o_rd _ Ho), (o_wr _ Ho) in Hb. destruct (m_WritesDone c), (m_Writing c), (m_Executing c); simpl in *; naive_solver. }
  by rewrite (o_phase _ Ho), (o_next _ Ho), Hf.
Qed.

Lemma kept_read c r : Inv c → kept (step c (BRead r)).
Proof.
  intros [->|Ho]; [done|]. simpl. unfold complete_read. destruct (rd (m_call c)) eqn:Er; [|done]. simpl.
  destruct (opened_busy _ Ho) as (Hf & Hp & Hn); [auto|].
  destruct Ho as [H1 H2 H3 H4 H5 H6 H7 H8 (dn & R1 & R2 & R3) (w0 & W1 & W2)].
  rewrite Er in H1. destruct (m_WritesDone c) eqn:Ewd; simpl in H1; [done|].
  assert (∃ q slot, m_RequestQueue c = q ++ [slot] ∧ length q = length (m_ResponseQueue c)) as (q & slot & Hq & Hlq).
  { destruct (m_RequestQueue c) as [|x l _] using rev_ind; [done|]. exists l, x. rewrite length_app in H5. simpl in H5. split; [done|lia]. }
  rewrite Hq, removelast_last in *.
  destruct r as [r|]; unfold StateRequestDone_fn.
  - cbn [set_received set_m_RequestQueue set_m_call m_WritesDone m_RequestQueue m_ResponseQueue]. rewrite Ewd. cbn [negb].
    set (c2 := set_m_RequestQueue _ _).
    assert (changed c2 (Call CallOpen true (wr (m_call c)))) as Hc2.
    { subst c2. split; simpl; rewrite ?Ewd; auto.
      - rewrite H3. intros Hb Hz. by rewrite Hz, bool_decide_true in Hb.
      - intros _. by destruct (m_ResponseQueue c).
      - rewrite !length_app. simpl. lia.
      - exists dn. rewrite removelast_last. split_and!; [done|by rewrite R2, app_assoc|]. rewrite R3, H4. f_equal.
        destruct (m_ResponseQueue c); simpl in *; [by destruct q|]. destruct q; done.
      - exists w0. split; [done|]. rewrite W2. f_equal. rewrite H3. destruct (m_ResponseWriteBackQueue c); done. }
    pose proof (evaluate_ok _ _ Hc2) as He. assert (∀ k, m_call (EvaluateState c2).1 = k → k = Call CallOpen false (wr (m_call c))) as Hk.
    { intros k <-. subst c2. unfold EvaluateState, ev_execute, ev_write, ev_finish. rewrite Hp.
      repeat match goal with |- context [if ?b then _ else _] => destruct b; simpl end; by rewrite ?Hp. }
    destruct (EvaluateState c2) as [c3 [[w e] f]]. specialize (Hk _ eq_refl). simpl in Hk.
    unfold post_next_read. rewrite Hk. simpl. destruct He as (c' & He & Ho'). rewrite He. by right.
  - simpl.
    assert (changed (set_m_WritesDone true (set_m_call (Call (phase (m_call c)) false (wr (m_call c))) c)) (Call (phase (m_call c)) false (wr (m_call c)))) as Hc2.
    { split; simpl; auto.
      - rewrite H3. intros Hb Hz. by rewrite Hz, bool_decide_true in Hb.
      - rewrite H4. intros Hb Hz. by rewrite Hz, bool_decide_true in Hb.
      - by rewrite Hq.
      - exists dn. rewrite Hq, removelast_last. split_and!; [done|done|]. rewrite R3, H4. f_equal.
        destruct (m_ResponseQueue c), q; done.
      - exists w0. split; [done|]. rewrite W2. f_equal. rewrite H3. destruct (m_ResponseWriteBackQueue c); done. }
    destruct (bidi_progress_ok _ Hc2) as (c' & He & Ho'). unfold progress in He.
    destruct (EvaluateState _) as [c3 [[w e] f]]. simpl. rewrite He. by right.
Qed.

Lemma kept_write c : Inv c → kept (step c (BWrite true)).
Proof.
  intros [->|Ho]; [done|]. simpl. unfold complete_write. destruct (wr (m_call c)) eqn:Ew; [|done]. simpl.
  destruct (opened_busy _ Ho) as (Hf & Hp & Hn); [auto|].
  destruct Ho as [H1 H2 H3 H4 H5 H6 H7 H8 (dn & R1 & R2 & R3) (w0 & W1 & W2)].
  rewrite H2, H3 in Ew. unfold StateResponseDone_fn. simpl. destruct (m_ResponseWriteBackQueue c) as [|b wb] eqn:Eb; [done|].
  edestruct bidi_progress_ok as (c' & -> & Ho'); [|by right]. split; simpl; rewrite ?Hn; auto.
  - rewrite H4. intros Hb Hz. by rewrite Hz, bool_decide_true in Hb.
  - exists dn. split_and!; [done|done|]. rewrite R3, H4. f_equal. destruct (m_RequestQueue c) as [|x [|y l]], (m_ResponseQueue c); simpl in *; done.
  - exists (w0 ++ [b]). rewrite W1, W2, <-app_assoc, app_nil_r. done.
Qed.

Lemma kept_finish c r : Inv c → m_Executing c = true → kept (step c (BFinish r)).
Proof.
  intros [->|Ho] Hx; [done|]. simpl. unfold FinishResponse.
  destruct (opened_busy _ Ho) as (Hf & Hp & Hn); [auto|].
  destruct Ho as [H1 H2 H3 H4 H5 H6 H7 H8 (dn & R1 & R2 & R3) (w0 & W1 & W2)].
  rewrite Hx in H4. destruct (m_ResponseQueue c) as [|x rs] eqn:Ers; [done|].
  destruct (m_RequestQueue c) as [|rq [|rq' rqs]] eqn:Erq; simpl in H5; try lia.
  edestruct bidi_progress_ok as (c' & -> & Ho'); [|by right]. split; simpl; rewrite ?Hn; auto; try done.
  - intros Hb Hz. apply (app_nil _ _) in Hz as [_ ?]. done.
  - exists (dn ++ [rq]). rewrite length_app, length_app, R1. split; [done|]. rewrite app_nil_r, <-app_assoc. split; [exact R2|].
    rewrite R3. done.
  - exists w0. rewrite W1, app_assoc. split; [done|]. rewrite W2. f_equal. rewrite H3. by destruct (m_ResponseWriteBackQueue c).
Qed.

Lemma bidi_kept_step c e : Inv c → orderly c e = true → kept (step c e).
Proof.
  intros HI Ho. destruct e as [ok|r|[]|r|]; try done.
  - by apply kept_main.
  - by apply kept_read.
  - by apply kept_write.
  - by apply kept_finish.
Qed.

Definition init : LifeCycle := mkLifeCycle (Some StateInitializedDone) [] [] [] false false false false (Call CallRequested false false) [] [] [] [].
Definition reachable (c : LifeCycle) : Prop := ∃ es, along step orderly init es = true ∧ run step init es = Next c.

Lemma bidi_reachable_inv c : reachable c → Inv c.
Proof.
  intros (es & Ha & Hr). pose proof (run_invariant step orderly Inv (λ _, True)) as H.
  specialize (H ltac:(intros c1 e c2 HI Ho Hs; pose proof (bidi_kept_step c1 e HI Ho) as Hk; by rewrite Hs in Hk)).
  specialize (H ltac:(intros c1 e f HI Ho Hs; pose proof (bidi_kept_step c1 e HI Ho) as Hk; by rewrite Hs in Hk)).
  specialize (H es init ltac:(by left) Ha). by rewrite Hr in H.
Qed.
Lemma started_init : started = Next init.
Proof. done. Qed.

(** When the user answers each request once and no write fails, a
    bidirectional call never breaks a rule of gRPC or takes from an empty queue;
    responses are written in the order of the answers, requests are executed one
    at a time in the order in which they came, and the call is finished only
    when every request was answered and every answer written. *)
Theorem bidirectional_in_order c :
  (∀ es f, along step orderly init es = true → run step init es ≠ Fault f) ∧
  (reachable c →
   written c `prefix_of` answered c ∧ executed c `prefix_of` received c ∧
   length (answered c) ≤ length (executed c) ≤ S (length (answered c)) ∧
   (m_Finishing c = true → written c = answered c ∧ executed c = received c ∧ length (answered c) = length (received c))).
Proof.
  split.
  { intros es f Ha Hr. pose proof (run_invariant step orderly Inv (λ _, True)) as H.
    specialize (H ltac:(intros c1 e c2 HI Ho Hs; pose proof (bidi_kept_step c1 e HI Ho) as Hk; by rewrite Hs in Hk)).
    specialize (H ltac:(intros c1 e f' HI Ho Hs; pose proof (bidi_kept_step c1 e HI Ho) as Hk; by rewrite Hs in Hk)).
    specialize (H es init ltac:(by left) Ha). rewrite Hr in H. by apply H. }
  intros [->|Ho]%bidi_reachable_inv; [by simpl; auto with lia|].
  pose proof Ho as [H1 H2 H3 H4 H5 H6 H7 H8 (dn & R1 & R2 & R3) (w0 & W1 & W2)]. split_and!.
  - rewrite W1, W2. apply prefix_app. exists (drop 1 (m_ResponseWriteBackQueue c)). by rewrite take_drop.
  - rewrite R2, R3. apply prefix_app. exists (drop 1 (pending c)). by rewrite take_drop.
  - rewrite R3, length_app. lia.
  - rewrite R3, length_app, length_take. lia.
  - intros Hf. rewrite H6 in Hf. destruct (m_WritesDone c), (m_Writing c), (m_Executing c); simpl in Hf; try done.
    destruct (m_ResponseWriteBackQueue c) as [|]; [|done]. destruct (m_ResponseQueue c) as [|]; [|done].
    destruct (m_RequestQueue c) as [|x [|]]; simpl in *; try lia. rewrite !app_nil_r in *. split_and!; congruence.
Qed.

(** While a request is in execution, evaluation starts nothing but a write. *)
Lemma evaluate_executing d d1 w e f :
  EvaluateState d = (d1, (w, e, f)) → m_Executing d = true →
  e = false ∧ f = false ∧ m_Executing d1 = true ∧ m_call d1 = m_call d.
Proof.
  unfold EvaluateState, ev_execute, ev_write, ev_finish. intros H Hx. rewrite Hx in H. simpl in H.
  destruct (_ && _) in H; simpl in H; rewrite ?Hx in H; simpl in H; rewrite ?andb_false_r in H; simpl in H; simplify_eq/=; done.
Qed.
Lemma ProgressState_write w d d' :
  ProgressState w false false d = Next d' → m_Executing d' = m_Executing d ∧ phase (m_call d') = phase (m_call d).
Proof.
  unfold ProgressState. destruct w; simpl; [|by intros [= <-]]. destruct (m_ResponseWriteBackQueue d); [done|]. unfold post_write.
  destruct (phase (m_call d)) eqn:E, (wr (m_call d)); simpl; try done. by intros [= <-].
Qed.
Lemma executing_stays c e c' :
  m_Executing c = true → phase (m_call c) = CallOpen →
  match e with BRead _ | BWrite true | BMain _ | BCancel => True | _ => False end →
  step c e = Next c' → m_Executing c' = true ∧ phase (m_call c') = CallOpen.
Proof.
  intros Hx Hp He E. destruct e as [ok|r|[]|r|]; try done; simpl in E.
  - unfold complete_main in E. by rewrite Hp in E.
  - unfold complete_read in E. destruct (rd (m_call c)); [|done]. simpl in E.
    assert (∀ d ok, m_Executing d = true → phase (m_call d) = CallOpen → StateRequestDone_fn ok d = Next c' →
              m_Executing c' = true ∧ phase (m_call c') = CallOpen) as Hrd.
    { clear. intros d ok Hx Hp. unfold StateRequestDone_fn.
      set (d1 := if ok then d else set_m_WritesDone true d). set (d2 := if negb (m_WritesDone d1) then _ else d1).
      assert (m_Executing d2 = true ∧ phase (m_call d2) = CallOpen) as [Hx2 Hp2].
      { subst d2 d1. destruct ok; simpl; [|done]. by destruct (m_WritesDone d). }
      destruct (EvaluateState d2) as [d3 [[w e] f]] eqn:E. apply evaluate_executing in E as (-> & -> & Hx3 & Hk); [|done].
      destruct (negb (m_WritesDone d1)); simpl.
      - unfold post_next_read, post_read. rewrite Hk, Hp2. destruct (rd (m_call d2)); simpl; [done|].
        intros [Ha Hb]%ProgressState_write. simpl in *. by rewrite Ha, Hb.
      - intros [Ha Hb]%ProgressState_write. rewrite Ha, Hb, Hk. done. }
    destruct r; by eapply Hrd in E.
  - unfold complete_write in E. destruct (wr (m_call c)); [|done]. simpl in E. unfold StateResponseDone_fn in E. simpl in E.
    destruct (m_ResponseWriteBackQueue c); [done|]. unfold progress in E.
    destruct (EvaluateState _) as [d3 [[w e] f]] eqn:Ev. apply evaluate_executing in Ev as (-> & -> & Hx3 & Hk); [|done].
    apply ProgressState_write in E as [Ha Hb]. rewrite Ha, Hb, Hk. done.
  - unfold CancelResponse in E. simpl in E. rewrite Hx in E. by simplify_eq/=.
Qed.

(** Cancelling the RPC from within its execution strands the call: nothing is
    posted, and whatever completes afterwards, the call is not finished until
    the user answers the request that was cancelled. *)
Theorem cancel_while_executing_strands c es c' :
  m_Executing c = true → phase (m_call c) = CallOpen →
  Forall (λ e, match e with BRead _ | BWrite true | BMain _ | BCancel => True | _ => False end) es →
  run step c (BCancel :: es) = Next c' → phase (m_call c') = CallOpen ∧ m_Executing c' = true.
Proof.
  intros Hx Hp Hes Hr. apply (Forall_cons_2 _ BCancel) in Hes; [|done]. revert c Hx Hp Hr.
  induction Hes as [|e l He _ IH]; intros c Hx Hp Hr; [by simplify_eq/=|].
  cbn [run] in Hr. destruct (step c e) as [| |c2] eqn:E; simpl in Hr; try done.
  destruct (executing_stays _ _ _ Hx Hp He E). eauto.
Qed.
End bidirectional.

Definition serve_two : list (@event nat nat) :=
  [BMain true; BRead (Some 3); BRead (Some 4); BFinish 30; BWrite true; BRead None; BFinish 40; BWrite true].
Definition after (es : list (@event nat nat)) : LifeCycle :=
  match run (step 0 0) init es with Next c => c | _ => LifeCycle_new end.
Lemma bidirectional_in_order_witness :
  reachable 0 0 (after serve_two) ∧ m_Finishing (after serve_two) = true ∧ written (after serve_two) = [30; 40] ∧
  executed (after serve_two) = received (after serve_two).
Proof.
  assert (reachable 0 0 (after serve_two)) as Hr.
  { exists serve_two. split; vm_compute; reflexivity. }
  split; [exact Hr|]. split; [vm_compute; reflexivity|]. split; [vm_compute; reflexivity|].
  apply (bidirectional_in_order 0 0 (after serve_two)); [exact Hr|vm_compute; reflexivity].
Defined.

Definition in_execution : LifeCycle := after [BMain true; BRead (Some 3)].
Lemma cancel_while_executing_strands_witness :
  m_Executing in_execution = true ∧
  phase (m_call (match run (step 0 0) in_execution [BCancel; BRead None] with Next c => c | _ => in_execution end)) = CallOpen.
Proof.
  split; [vm_compute; reflexivity|].
  apply (cancel_while_executing_strands 0 0 in_execution [BRead None]); [vm_compute; reflexivity|vm_compute; reflexivity| |vm_compute; reflexivity].
  repeat constructor.
Defined.
