(* ===== verification/FiberClient.v ===== *)
(** * The streaming client of the rpc tools

    Models [ClientStreaming] of
    [tools/nvrpc/include/nvrpc/client/client_fiber_streaming.h]: the client's half
    of a bidirectional stream.  A method changes the state under the mutex and
    decides what to post ([EvaluateState]); the operations are posted after the
    mutex is released ([ForwardProgress]) and so interleave with those of other
    threads.  The completions of the queue arrive in any order and may fail.  The queue
    [m_ReadQueue], which holds the message of the one outstanding read, is left out: what
    is proved of the protocol does not depend on the messages, and that its front exists
    when a read completes is not proved here ([ClientV1] has the queue of the older
    client).

    The first definitions are the rules of a gRPC client call: one outstanding read,
    one outstanding write or half-close, no write after the half-close, and a finish
    only when nothing is outstanding. *)
From S2P Require Import Prelude Grpc.

(** ** The call *)
Inductive client_phase := Starting | Open | Finishing | Finished | Failed.
#[export] Instance client_phase_eq_dec : EqDecision client_phase.
Proof. solve_decision. Defined.
Record client_call := mkCall { c_phase : client_phase; c_read : bool; c_write : bool; c_half_closed : bool }.
Inductive op := PRead | PWrite | PWritesDone | PFinish.
#[export] Instance op_eq_dec : EqDecision op.
Proof. solve_decision. Defined.
Definition post (o : op) (k : client_call) : option client_call :=
  match c_phase k with
  | Open =>
      match o with
      | PRead => if c_read k then None else Some (mkCall Open true (c_write k) (c_half_closed k))
      | PWrite => if c_write k || c_half_closed k then None else Some (mkCall Open (c_read k) true false)
      | PWritesDone => if c_write k || c_half_closed k then None else Some (mkCall Open (c_read k) true true)
      | PFinish => if c_read k || c_write k then None else Some (mkCall Finishing false false (c_half_closed k))
      end
  | _ => None
  end.

Section client.
Context {Request Response : Type}.

(** ** The client *)
Inductive StateFn := StateInvalid | StateStreamInitialized | StateReadDone | StateWriteDone | StateWritesDoneDone | StateFinishDone.
Record ClientStreaming := mkClient {
  m_NextState : StateFn; m_ReadNextState : StateFn; m_WriteNextState : StateFn;
  m_WriteQueue : list Request;
  m_Reading : bool; m_Writing : bool; m_Finishing : bool; m_Closing : bool;
  m_ReadsDone : bool; m_WritesDone : bool; m_ClosedDone : bool; m_FinishDone : bool; m_Complete : bool;
}.
(** After [Initialize]: the call is being started. *)
Definition Initialize : ClientStreaming :=
  mkClient StateStreamInitialized StateInvalid StateInvalid [] false false false false false false false false false.
Definition is_state (f g : StateFn) : bool :=
  match f, g with
  | StateInvalid, StateInvalid | StateStreamInitialized, StateStreamInitialized | StateReadDone, StateReadDone
  | StateWriteDone, StateWriteDone | StateWritesDoneDone, StateWritesDoneDone | StateFinishDone, StateFinishDone => true
  | _, _ => false
  end.

(** The five decisions of [EvaluateState], in their order. *)
Definition ev_read (sa : ClientStreaming * list op) : ClientStreaming * list op :=
  let '(s, a) := sa in
  if negb (m_Reading s) && negb (m_ReadsDone s)
  then (mkClient (m_NextState s) StateReadDone (m_WriteNextState s) (m_WriteQueue s) true (m_Writing s) (m_Finishing s) (m_Closing s)
          (m_ReadsDone s) (m_WritesDone s) (m_ClosedDone s) (m_FinishDone s) (m_Complete s), a ++ [PRead])
  else (s, a).
Definition ev_write (sa : ClientStreaming * list op) : ClientStreaming * list op :=
  let '(s, a) := sa in
  match m_Writing s, m_WriteQueue s with
  | false, _ :: _ =>
      (mkClient (m_NextState s) (m_ReadNextState s) StateWriteDone (m_WriteQueue s) (m_Reading s) true (m_Finishing s) (m_Closing s)
         (m_ReadsDone s) (m_WritesDone s) (m_ClosedDone s) (m_FinishDone s) (m_Complete s), a ++ [PWrite])
  | _, _ => (s, a)
  end.
Definition ev_close (sa : ClientStreaming * list op) : ClientStreaming * list op :=
  let '(s, a) := sa in
  if negb (m_Closing s) && negb (m_Writing s) && m_WritesDone s
  then (mkClient (m_NextState s) (m_ReadNextState s) StateWritesDoneDone (m_WriteQueue s) (m_Reading s) (m_Writing s) (m_Finishing s) true
          (m_ReadsDone s) (m_WritesDone s) (m_ClosedDone s) (m_FinishDone s) (m_Complete s), a ++ [PWritesDone])
  else (s, a).
Definition ev_finish (sa : ClientStreaming * list op) : ClientStreaming * list op :=
  let '(s, a) := sa in
  if negb (m_Reading s) && negb (m_Writing s) && negb (m_Finishing s) && m_ReadsDone s && m_WritesDone s && m_ClosedDone s && negb (m_FinishDone s)
  then (mkClient StateFinishDone (m_ReadNextState s) (m_WriteNextState s) (m_WriteQueue s) (m_Reading s) (m_Writing s) true (m_Closing s)
          (m_ReadsDone s) (m_WritesDone s) (m_ClosedDone s) (m_FinishDone s) (m_Complete s), a ++ [PFinish])
  else (s, a).
Definition ev_complete (sa : ClientStreaming * list op) : ClientStreaming * list op :=
  let '(s, a) := sa in
  if m_ReadsDone s && m_WritesDone s && m_ClosedDone s && m_FinishDone s && negb (m_Complete s)
  then (mkClient (m_NextState s) (m_ReadNextState s) (m_WriteNextState s) (m_WriteQueue s) (m_Reading s) (m_Writing s) (m_Finishing s) (m_Closing s)
          (m_ReadsDone s) (m_WritesDone s) (m_ClosedDone s) (m_FinishDone s) true, a)
  else (s, a).
Definition EvaluateState (s : ClientStreaming) : ClientStreaming * list op :=
  if is_state (m_NextState s) StateStreamInitialized then (s, [])
  else ev_complete (ev_finish (ev_close (ev_write (ev_read (s, []))))).

(** ** Its methods, up to the release of the mutex *)
(** [None]: the stream is already closed, and the method returns false. *)
Definition Write (r : Request) (s : ClientStreaming) : option (ClientStreaming * list op) :=
  if m_WritesDone s then None
  else Some (EvaluateState (mkClient (m_NextState s) (m_ReadNextState s) (m_WriteNextState s) (m_WriteQueue s ++ [r]) (m_Reading s) (m_Writing s)
    (m_Finishing s) (m_Closing s) (m_ReadsDone s) (m_WritesDone s) (m_ClosedDone s) (m_FinishDone s) (m_Complete s))).
Definition set_writes_done (s : ClientStreaming) : ClientStreaming :=
  mkClient (m_NextState s) (m_ReadNextState s) (m_WriteNextState s) (m_WriteQueue s) (m_Reading s) (m_Writing s)
    (m_Finishing s) (m_Closing s) (m_ReadsDone s) true (m_ClosedDone s) (m_FinishDone s) (m_Complete s).
Definition CloseWrites (s : ClientStreaming) : option (ClientStreaming * list op) :=
  if m_WritesDone s then None else Some (EvaluateState (set_writes_done s)).
(** [Cancel] also calls [TryCancel] on the context; it evaluates nothing. *)
Definition Cancel (s : ClientStreaming) : ClientStreaming := set_writes_done s.
Definition StateStreamInitialized_fn (ok : bool) (s : ClientStreaming) : ClientStreaming * list op :=
  if ok
  then EvaluateState (mkClient StateInvalid (m_ReadNextState s) (m_WriteNextState s) (m_WriteQueue s) (m_Reading s) (m_Writing s)
         (m_Finishing s) (m_Closing s) (m_ReadsDone s) (m_WritesDone s) (m_ClosedDone s) (m_FinishDone s) (m_Complete s))
  else (mkClient (m_NextState s) (m_ReadNextState s) (m_WriteNextState s) (m_WriteQueue s) (m_Reading s) (m_Writing s)
          (m_Finishing s) (m_Closing s) true true true true true, []).
Definition StateReadDone_fn (ok : bool) (s : ClientStreaming) : ClientStreaming * list op :=
  EvaluateState (mkClient (m_NextState s) StateInvalid (m_WriteNextState s) (m_WriteQueue s) false (m_Writing s)
    (m_Finishing s) (m_Closing s) (m_ReadsDone s || negb ok) (m_WritesDone s || negb ok) (m_ClosedDone s) (m_FinishDone s) (m_Complete s)).
(** With the request it has sent; [None]: the front of an empty queue. *)
Definition StateWriteDone_fn (ok : bool) (s : ClientStreaming) : option (ClientStreaming * list op * list Request) :=
  let s' q wd := mkClient (m_NextState s) (m_ReadNextState s) StateInvalid q (m_Reading s) false
    (m_Finishing s) (m_Closing s) (m_ReadsDone s) wd (m_ClosedDone s) (m_FinishDone s) (m_Complete s) in
  if ok then match m_WriteQueue s with r :: q => Some (EvaluateState (s' q (m_WritesDone s)), [r]) | [] => None end
  else Some (EvaluateState (s' [] true), []).
Definition StateWritesDoneDone_fn (s : ClientStreaming) : ClientStreaming * list op :=
  EvaluateState (mkClient (m_NextState s) (m_ReadNextState s) StateInvalid (m_WriteQueue s) (m_Reading s) (m_Writing s)
    (m_Finishing s) (m_Closing s) (m_ReadsDone s) (m_WritesDone s) true (m_FinishDone s) (m_Complete s)).
Definition StateFinishDone_fn (s : ClientStreaming) : ClientStreaming * list op :=
  EvaluateState (mkClient (m_NextState s) (m_ReadNextState s) (m_WriteNextState s) (m_WriteQueue s) (m_Reading s) (m_Writing s)
    false (m_Closing s) (m_ReadsDone s) (m_WritesDone s) (m_ClosedDone s) true (m_Complete s)).

(** ** Runs *)
Record config := mkConfig {
  cl : ClientStreaming; the_call : client_call;
  threads : list (list op);                  (* what each thread has still to post *)
  accepted : list Request; posted : list Request; sent : list Request;
  received : list Response;
}.
Definition start : config := mkConfig Initialize (mkCall Starting false false false) [] [] [] [] [].
Definition progress (sa : ClientStreaming * list op) (k : client_call) (c : config) : config :=
  mkConfig sa.1 k (threads c ++ [sa.2]) (accepted c) (posted c) (sent c) (received c).

Inductive event :=
| UWrite (r : Request) | UClose | UCancel            (* the user *)
| EPost (i : nat)                                   (* [ForwardProgress] of thread [i] *)
| EMain (ok : bool) | ERead (r : option Response) | EWriteDone (ok : bool).
Definition run_main (ok : bool) (c : config) : outcome config :=
  match c_phase (the_call c), m_NextState (cl c) with
  | Starting, StateStreamInitialized =>
      Next (progress (StateStreamInitialized_fn ok (cl c)) (mkCall (if ok then Open else Failed) false false false) c)
  | Finishing, StateFinishDone => Next (progress (StateFinishDone_fn (cl c)) (mkCall Finished false false (c_half_closed (the_call c))) c)
  | Starting, _ | Finishing, _ => Fault InvalidState
  | _, _ => Disabled
  end.
Definition run_read (r : option Response) (c : config) : outcome config :=
  if c_read (the_call c) then
    if is_state (m_ReadNextState (cl c)) StateReadDone then
      let c' := progress (StateReadDone_fn (bool_decide (is_Some r)) (cl c))
                  (mkCall (c_phase (the_call c)) false (c_write (the_call c)) (c_half_closed (the_call c))) c in
      Next (mkConfig (cl c') (the_call c') (threads c') (accepted c') (posted c') (sent c') (received c' ++ option_list r))
    else Fault InvalidState
  else Disabled.
Definition run_write (ok : bool) (c : config) : outcome config :=
  if c_write (the_call c) then
    let k := mkCall (c_phase (the_call c)) (c_read (the_call c)) false (c_half_closed (the_call c)) in
    match m_WriteNextState (cl c) with
    | StateWriteDone =>
        outcome_bind (or_fault EmptyQueue (StateWriteDone_fn ok (cl c))) (λ '(sa, rs),
          let c' := progress sa k c in Next (mkConfig (cl c') (the_call c') (threads c') (accepted c') (posted c') (sent c' ++ rs) (received c')))
    | StateWritesDoneDone => Next (progress (StateWritesDoneDone_fn (cl c)) k c)
    | _ => Fault InvalidState
    end
  else Disabled.
Definition ForwardProgress (i : nat) (c : config) : outcome config :=
  match threads c !! i with
  | Some (o :: os) =>
      outcome_bind (or_fault GrpcMisuse (post o (the_call c))) (λ k,
        let c' p := Next (mkConfig (cl c) k (<[i := os]> (threads c)) (accepted c) p (sent c) (received c)) in
        match o with
        | PWrite => match m_WriteQueue (cl c) with r :: _ => c' (posted c ++ [r]) | [] => Fault EmptyQueue end
        | _ => c' (posted c)
        end)
  | _ => Disabled
  end.
Definition step (c : config) (e : event) : outcome config :=
  match e with
  | UWrite r =>
      match Write r (cl c) with
      | Some sa => let c' := progress sa (the_call c) c in Next (mkConfig (cl c') (the_call c') (threads c') (accepted c' ++ [r]) (posted c') (sent c') (received c'))
      | None => Next c
      end
  | UClose => match CloseWrites (cl c) with Some sa => Next (progress sa (the_call c) c) | None => Next c end
  | UCancel => Next (mkConfig (Cancel (cl c)) (the_call c) (threads c) (accepted c) (posted c) (sent c) (received c))
  | EPost i => ForwardProgress i c
  | EMain ok => run_main ok c
  | ERead r => run_read r c
  | EWriteDone ok => run_write ok c
  end.

(** ** Invariant *)
Definition b2n (b : bool) : nat := if b then 1 else 0.
Definition pend (o : op) (ths : list (list op)) : nat := sum_list_with (countb (λ x, bool_decide (x = o))) ths.
Implicit Types (s : ClientStreaming) (k : client_call) (c : config).

(** [pn o]: how many posts of [o] are still to be made. *)
Record core s k (pn : op → nat) : Prop := {
  k_read : b2n (m_Reading s) = b2n (c_read k) + pn PRead;
  k_read_next : m_Reading s = true → m_ReadNextState s = StateReadDone;
  k_write : m_Writing s = true →
    m_WriteNextState s = StateWriteDone ∧ m_WriteQueue s ≠ [] ∧ m_Closing s = false ∧ b2n (c_write k) + pn PWrite = 1 ∧ pn PWritesDone = 0;
  k_idle : m_Writing s = false → pn PWrite = 0 ∧
    (if m_Closing s && negb (m_ClosedDone s)
     then m_WriteNextState s = StateWritesDoneDone ∧ b2n (c_write k) + pn PWritesDone = 1 ∧ c_half_closed k = c_write k
     else c_write k = false ∧ pn PWritesDone = 0);
  k_open : m_Closing s = false → c_half_closed k = false ∧ m_ClosedDone s = false;
  k_closing : m_Closing s = true → m_WritesDone s = true ∧ m_WriteQueue s = [] ∧ m_Writing s = false;
  k_done : m_ReadsDone s = true → m_WritesDone s = true;
  k_finish : b2n (m_Finishing s) = b2n (bool_decide (c_phase k = Finishing)) + pn PFinish;
  k_finishing : m_Finishing s || m_FinishDone s = true →
    m_ReadsDone s = true ∧ m_ClosedDone s = true ∧ m_Reading s = false;
  k_next : m_Finishing s = true → m_NextState s = StateFinishDone ∧ m_FinishDone s = false;
  k_phase : if m_FinishDone s then c_phase k = Finished else c_phase k = Open ∨ c_phase k = Finishing;
  k_init : is_state (m_NextState s) StateStreamInitialized = false;
}.
Definition add_ops (pn : op → nat) (a : list op) (o : op) : nat := pn o + countb (λ x, bool_decide (x = o)) a.
Definition coreA (sa : ClientStreaming * list op) k pn : Prop := core sa.1 k (add_ops pn sa.2).
Lemma add_snoc pn a o o' : add_ops pn (a ++ [o]) o' = add_ops pn a o' + (if bool_decide (o = o') then 1 else 0).
Proof. unfold add_ops. rewrite countb_app. simpl. destruct (bool_decide (o = o')); lia. Qed.

Lemma ev_read_core sa k pn : coreA sa k pn → coreA (ev_read sa) k pn ∧
  (m_Reading (ev_read sa).1 = false → m_ReadsDone (ev_read sa).1 = true).
Proof.
  destruct sa as [s a]. intros Hc. pose proof Hc as [K1 K2 K3 K4 K5 K6 K7 K8 K9 K10 K11 K12]. unfold ev_read. simpl in *.
  destruct (m_Reading s) eqn:E1; simpl; [split; [done|congruence]|]. destruct (m_ReadsDone s) eqn:E2; simpl; [done|].
  split; [|done]. split; simpl; rewrite ?add_snoc; simpl; rewrite ?E2, ?Nat.add_0_r; auto.
  - simpl in *. lia.
  - intros Hf. destruct (K9 Hf) as (? & _). congruence.
Qed.
Lemma ev_write_core sa k pn : coreA sa k pn → coreA (ev_write sa) k pn ∧
  (m_Writing (ev_write sa).1 = false → m_WriteQueue (ev_write sa).1 = []) ∧
  m_Reading (ev_write sa).1 = m_Reading sa.1 ∧ m_ReadsDone (ev_write sa).1 = m_ReadsDone sa.1.
Proof.
  destruct sa as [s a]. intros Hc. pose proof Hc as [K1 K2 K3 K4 K5 K6 K7 K8 K9 K10 K11 K12]. unfold ev_write. simpl in *.
  destruct (m_Writing s) eqn:E1; [split; [done|split; [simpl; congruence|done]]|].
  destruct (m_WriteQueue s) as [|r q] eqn:Eq; [done|]. destruct (m_Closing s) eqn:Ec; [destruct (K6 eq_refl) as (_ & ? & _); congruence|].
  destruct (K5 eq_refl) as [Hh Hcd]. destruct (K4 eq_refl) as [Hpw Hw]. simpl in Hw. destruct Hw as [Hwr Hpc].
  split; [|done]. split; simpl; rewrite ?add_snoc; simpl; rewrite ?Nat.add_0_r, ?Eq; auto.
  - intros _. rewrite Hwr, Hpw, Hpc. done.
  - done.
  - congruence.
Qed.
Lemma ev_close_core sa k pn : coreA sa k pn → (m_Writing sa.1 = false → m_WriteQueue sa.1 = []) → coreA (ev_close sa) k pn ∧
  (m_WritesDone (ev_close sa).1 = true → m_Writing (ev_close sa).1 = false → m_Closing (ev_close sa).1 = true) ∧
  (m_Writing (ev_close sa).1 = false → m_WriteQueue (ev_close sa).1 = []) ∧
  m_Reading (ev_close sa).1 = m_Reading sa.1 ∧ m_ReadsDone (ev_close sa).1 = m_ReadsDone sa.1.
Proof.
  destruct sa as [s a]. intros Hc Hq. pose proof Hc as [K1 K2 K3 K4 K5 K6 K7 K8 K9 K10 K11 K12]. unfold ev_close. simpl in *.
  destruct (m_Closing s) eqn:Ec; simpl; [done|]. destruct (m_Writing s) eqn:E1; simpl; [split; [done|split; [congruence|split; [congruence|done]]]|].
  destruct (m_WritesDone s) eqn:Ew; simpl; [|split; [done|split; [congruence|split; [auto|done]]]]. destruct (K5 eq_refl) as [Hh Hcd]. destruct (K4 eq_refl) as [Hpw [Hwr Hpc]].
  split; [|done]. split; simpl; rewrite ?add_snoc; simpl; rewrite ?Nat.add_0_r, ?Ew, ?E1; auto.
  - congruence.
  - intros _. rewrite Hcd. simpl. rewrite Hwr, Hpc, Hpw, Hh. done.
Qed.
Lemma ev_finish_core sa k pn : coreA sa k pn → coreA (ev_finish sa) k pn ∧
  (let s := (ev_finish sa).1 in m_Reading s = false → m_Writing s = false → m_ReadsDone s = true → m_ClosedDone s = true → m_Finishing s || m_FinishDone s = true) ∧
  m_Reading (ev_finish sa).1 = m_Reading sa.1 ∧ m_ReadsDone (ev_finish sa).1 = m_ReadsDone sa.1 ∧
  m_Writing (ev_finish sa).1 = m_Writing sa.1 ∧ m_WriteQueue (ev_finish sa).1 = m_WriteQueue sa.1 ∧
  m_WritesDone (ev_finish sa).1 = m_WritesDone sa.1 ∧ m_Closing (ev_finish sa).1 = m_Closing sa.1.
Proof.
  destruct sa as [s a]. intros Hc. pose proof Hc as [K1 K2 K3 K4 K5 K6 K7 K8 K9 K10 K11 K12]. unfold ev_finish. simpl in *.
  destruct (m_Reading s) eqn:E1, (m_Writing s) eqn:E2, (m_Finishing s) eqn:E3, (m_ReadsDone s) eqn:E4, (m_WritesDone s) eqn:E5,
    (m_ClosedDone s) eqn:E6, (m_FinishDone s) eqn:E7; simpl;
    try (split; [exact Hc|]; split; [rewrite ?E1, ?E2, ?E3, ?E4, ?E6, ?E7; done|done]); [].
  split; [|done]. destruct (K4 eq_refl) as [Hpw Hw]. split; simpl; rewrite ?add_snoc; simpl; rewrite ?Nat.add_0_r, ?E1, ?E2, ?E4, ?E5, ?E6, ?E7; auto.
  - simpl in *. lia.
Qed.
(** After [EvaluateState]: nothing that can be posted is left undecided. *)
Record settled s : Prop := {
  t_read : m_Reading s = false → m_ReadsDone s = true;
  t_queue : m_Writing s = false → m_WriteQueue s = [];
  t_close : m_WritesDone s = true → m_Writing s = false → m_Closing s = true ∨ m_Reading s = true;
  t_finish : m_Reading s = false → m_Writing s = false → m_ReadsDone s = true → m_ClosedDone s = true → m_Finishing s || m_FinishDone s = true;
  t_complete : m_FinishDone s = true → m_Complete s = true;
}.
Lemma evaluate_up s k pn : core s k pn → coreA (EvaluateState s) k pn ∧ settled (EvaluateState s).1 ∧ m_WriteQueue (EvaluateState s).1 = m_WriteQueue s.
Proof.
  intros Hc. unfold EvaluateState. rewrite (k_init _ _ _ Hc).
  assert (coreA (s, []) k pn) as H0 by (destruct Hc; split; unfold add_ops; simpl; rewrite ?Nat.add_0_r; done).
  destruct (ev_read_core _ _ _ H0) as [H1 R1].
  destruct (ev_write_core _ _ _ H1) as (H2 & Q2 & R2 & D2).
  destruct (ev_close_core _ _ _ H2 Q2) as (H3 & C3 & Q3 & R3 & D3).
  destruct (ev_finish_core _ _ _ H3) as (H4 & F4 & R4 & D4 & W4 & Q4 & WD4 & C4).
  assert (m_WriteQueue (ev_close (ev_write (ev_read (s, [])))).1 = m_WriteQueue s) as Hqq.
  { unfold ev_close, ev_write, ev_read. by repeat case_match; simplify_eq/=. }
  set (sa := ev_finish _) in *. unfold ev_complete. destruct sa as [s' a]. simpl in *.
  assert (core s' k (add_ops pn a)) as H5 by exact H4. pose proof H5 as [K1 K2 K3 K4 K5 K6 K7 K8 K9 K10 K11 K12].
  assert (settled s' ∨ (m_FinishDone s' = true ∧ m_Complete s' = false)) as Hs.
  { destruct (m_FinishDone s' && negb (m_Complete s')) eqn:E; [right; by destruct (m_FinishDone s'), (m_Complete s')|left].
    split; auto; [rewrite R4, D4, R3, D3, R2, D2; exact R1|rewrite W4, Q4; exact Q3|rewrite WD4, W4, C4; auto|].
    intros HF. rewrite HF in E. by destruct (m_Complete s'). }
  destruct (m_ReadsDone s' && m_WritesDone s' && m_ClosedDone s' && m_FinishDone s' && negb (m_Complete s')) eqn:E; simpl.
  - split; [by split|]. split; [|congruence]. split; simpl; auto;
      [rewrite R4, D4, R3, D3, R2, D2; exact R1|rewrite W4, Q4; exact Q3|rewrite WD4, W4, C4; auto].
  - split; [done|]. split; [|congruence]. destruct Hs as [|[HF HC]]; [done|]. rewrite HF in K9. destruct (K9 ltac:(by rewrite orb_true_r)) as (HR & HCD & _).
    rewrite HR, HCD, (K7 HR), HF, HC in E. done.
Qed.

(** ** Configurations *)
Definition pn c : op → nat := λ o, pend o (threads c).
Definition quiet c : Prop := (∀ o, pn c o = 0) ∧ c_read (the_call c) = false ∧ c_write (the_call c) = false ∧ c_half_closed (the_call c) = false.
Record is_starting c : Prop := {
  a_phase : c_phase (the_call c) = Starting;
  a_quiet : quiet c;
  a_next : m_NextState (cl c) = StateStreamInitialized;
  a_flags : m_Reading (cl c) = false ∧ m_Writing (cl c) = false ∧ m_Finishing (cl c) = false ∧ m_Closing (cl c) = false ∧
    m_ReadsDone (cl c) = false ∧ m_ClosedDone (cl c) = false ∧ m_FinishDone (cl c) = false;
}.
Record is_failed c : Prop := {
  f_phase : c_phase (the_call c) = Failed;
  f_quiet : quiet c;
  f_next : m_NextState (cl c) = StateStreamInitialized;
  f_flags : m_WritesDone (cl c) = true ∧ m_Complete (cl c) = true;
}.
Record is_up c : Prop := { u_core : core (cl c) (the_call c) (pn c); u_settled : settled (cl c) }.
Definition Inv c : Prop := is_starting c ∨ is_failed c ∨ is_up c.

Lemma client_pend_snoc o ths a : pend o (ths ++ [a]) = pend o ths + countb (λ x, bool_decide (x = o)) a.
Proof. unfold pend. induction ths as [|b ths IH]; simpl; lia. Qed.
Lemma core_ext s k pn1 pn2 : (∀ o, pn1 o = pn2 o) → core s k pn1 → core s k pn2.
Proof. intros He [K1 K2 K3 K4 K5 K6 K7 K8 K9 K10 K11 K12]. split; rewrite <-?He; auto. Qed.
Lemma up_progress c c' s0 : threads c' = threads c ++ [(EvaluateState s0).2] → cl c' = (EvaluateState s0).1 →
  core s0 (the_call c') (pn c) → is_up c'.
Proof.
  intros Ht Hc H. destruct (evaluate_up _ _ _ H) as (H1 & H2 & _). split; [|by rewrite Hc]. rewrite Hc.
  eapply core_ext; [|exact H1]. intros o. unfold pn, add_ops. by rewrite Ht, client_pend_snoc.
Qed.
Lemma evaluate_starting s : m_NextState s = StateStreamInitialized → EvaluateState s = (s, []).
Proof. unfold EvaluateState. by intros ->. Qed.
Lemma quiet_progress c c' : quiet c → threads c' = threads c ++ [[]] → the_call c' = the_call c → quiet c'.
Proof. intros (H1 & H2) Ht Hk. split; [|by rewrite Hk]. intros o. unfold pn in *. rewrite Ht, client_pend_snoc, H1. done. Qed.

(** A step keeps the invariant or is not possible; it never faults. *)
Definition keeps_inv (r : outcome config) : Prop := match r with Disabled => True | Fault _ => False | Next c' => Inv c' end.

Lemma client_kept_user c (f : ClientStreaming → ClientStreaming) c' :
  Inv c → m_WritesDone (cl c) = false →
  (∀ s, m_NextState (f s) = m_NextState s) → (∀ s, m_Reading (f s) = m_Reading s) → (∀ s, m_Writing (f s) = m_Writing s) →
  (∀ s, m_Finishing (f s) = m_Finishing s) → (∀ s, m_Closing (f s) = m_Closing s) → (∀ s, m_ReadsDone (f s) = m_ReadsDone s) →
  (∀ s, m_ClosedDone (f s) = m_ClosedDone s) → (∀ s, m_FinishDone (f s) = m_FinishDone s) →
  (∀ s k p, m_WritesDone s = false → core s k p → core (f s) k p) →
  threads c' = threads c ++ [(EvaluateState (f (cl c))).2] → cl c' = (EvaluateState (f (cl c))).1 → the_call c' = the_call c → Inv c'.
Proof.
  intros HI Hwd F1 F2 F3 F4 F5 F6 F7 F8 Hcore Ht Hc Hk. destruct HI as [[A1 A2 A3 A4]|[[B1 B2 B3 [B4 _]]|[U1 U2]]].
  - left. rewrite evaluate_starting in Ht, Hc by (by rewrite F1). simpl in Ht, Hc. split; rewrite ?Hk, ?Hc; auto.
    + by eapply quiet_progress.
    + by rewrite F1.
    + by rewrite F2, F3, F4, F5, F6, F7, F8.
  - congruence.
  - right. right. eapply up_progress; [done|done|]. rewrite Hk. by apply Hcore.
Qed.
Lemma client_kept_write r c : Inv c → keeps_inv (step c (UWrite r)).
Proof.
  intros HI. simpl. unfold Write. destruct (m_WritesDone (cl c)) eqn:Ew; [done|]. simpl.
  eapply (client_kept_user c (λ s, mkClient (m_NextState s) (m_ReadNextState s) (m_WriteNextState s) (m_WriteQueue s ++ [r]) (m_Reading s) (m_Writing s)
    (m_Finishing s) (m_Closing s) (m_ReadsDone s) (m_WritesDone s) (m_ClosedDone s) (m_FinishDone s) (m_Complete s))); try done; try (simpl; by rewrite Ew).
  intros s k p Hs [K1 K2 K3 K4 K5 K6 K7 K8 K9 K10 K11 K12]. split; auto; simpl.
  - intros Hw. destruct (K3 Hw) as (? & ? & ?). split; [done|]. split; [|done]. by destruct (m_WriteQueue s).
  - intros Hcl. destruct (K6 Hcl) as [? _]. congruence.
Qed.
Lemma client_kept_close c : Inv c → keeps_inv (step c UClose).
Proof.
  intros HI. simpl. unfold CloseWrites. destruct (m_WritesDone (cl c)) eqn:Ew; [done|]. simpl.
  eapply (client_kept_user c set_writes_done); try done.
  intros s k p Hs [K1 K2 K3 K4 K5 K6 K7 K8 K9 K10 K11 K12]. split; auto; simpl. intros Hcl. destruct (K6 Hcl) as [? ?]. done.
Qed.
Lemma client_kept_cancel c : Inv c → keeps_inv (step c UCancel).
Proof.
  intros HI. simpl. destruct HI as [[A1 A2 A3 A4]|[[B1 B2 B3 [B4 B5]]|[[K1 K2 K3 K4 K5 K6 K7 K8 K9 K10 K11 K12] [T1 T2 T3 T4 T5]]]].
  - left. by split.
  - right. left. by split.
  - right. right. split; [split; auto; simpl; intros Hcl; by destruct (K6 Hcl)|]. split; auto. simpl.
    intros _ Hw. destruct (m_Reading (cl c)) eqn:Er; [by right|]. destruct (T3 (K7 (T1 eq_refl)) Hw); auto.
Qed.
Lemma client_pend_insert (ths : list (list op)) (i : nat) o os o' : ths !! i = Some (o :: os) →
  pend o' (<[i := os]> ths) + (if bool_decide (o = o') then 1 else 0) = pend o' ths.
Proof.
  intros Hi. unfold pend. pose proof (sum_insert (countb (λ x, bool_decide (x = o'))) _ _ _ os Hi) as H. simpl in H. lia.
Qed.
Lemma no_pend o ths : (∀ a, a ∈ ths → a = []) → pend o ths = 0.
Proof.
  intros H. unfold pend. induction ths as [|a ths IH]; simpl; [done|]. rewrite IH; [|intros b Hb; apply H; by right].
  by rewrite (H a) by left.
Qed.
(** As long as a read, write or half-close is to come, the call is open. *)
Lemma open_when s k p : core s k p →
  (m_Closing s = true ∧ m_ClosedDone s = false) ∨ m_Writing s = true → c_phase k = Open ∧ m_FinishDone s = false.
Proof.
  intros [K1 K2 K3 K4 K5 K6 K7 K8 K9 K10 K11 K12] Hw. assert (m_ClosedDone s = false) as Hcd.
  { destruct Hw as [[_ ?]|Hw]; [done|]. destruct (K3 Hw) as (_ & _ & Hcl & _). by destruct (K5 Hcl). }
  assert (m_Finishing s = false ∧ m_FinishDone s = false) as [Hf Hfd].
  { destruct (m_Finishing s), (m_FinishDone s); try done; destruct (K9 eq_refl) as (_ & ? & _); congruence. }
  rewrite Hfd in K11. split; [|done]. destruct K11 as [|Hph]; [done|]. rewrite Hf, Hph in K8. simpl in K8. lia.
Qed.
Lemma client_kept_post i c : Inv c → keeps_inv (step c (EPost i)).
Proof.
  intros HI. simpl. unfold ForwardProgress. destruct (threads c !! i) as [[|o os]|] eqn:Hi; try done.
  assert (∀ o', pend o' (<[i := os]> (threads c)) + (if bool_decide (o = o') then 1 else 0) = pn c o') as Hp by (intros o'; by apply client_pend_insert).
  assert (1 ≤ pn c o) as Hpos by (specialize (Hp o); rewrite bool_decide_true in Hp by done; lia).
  destruct HI as [[_ [Hq _] _ _]|[[_ [Hq _] _ _]|[Hcore Hset]]]; [specialize (Hq o); lia|specialize (Hq o); lia|].
  pose proof Hcore as [K1 K2 K3 K4 K5 K6 K7 K8 K9 K10 K11 K12].
  assert (∀ p k', core (cl c) k' (λ o', pend o' (<[i := os]> (threads c))) → keeps_inv (Next (mkConfig (cl c) k' (<[i := os]> (threads c)) (accepted c) p (sent c) (received c)))) as Hdone
    by (intros p k' Hk; right; right; by split).
  assert (∀ o', o' ≠ o → pend o' (<[i := os]> (threads c)) = pn c o') as Hne by (intros o' Hn; specialize (Hp o'); rewrite bool_decide_false in Hp by congruence; lia).
  assert (pend o (<[i := os]> (threads c)) + 1 = pn c o) as Heq by (specialize (Hp o); by rewrite bool_decide_true in Hp).
  clear Hp. unfold post. destruct o.
  - (* read *)
    assert (c_read (the_call c) = false ∧ m_Reading (cl c) = true ∧ pn c PRead = 1) as (Hr & Hm & Hn) by (destruct (m_Reading (cl c)), (c_read (the_call c)); simpl in K1; repeat split; lia).
    assert (m_Finishing (cl c) = false ∧ m_FinishDone (cl c) = false) as [Hf Hfd].
    { destruct (m_Finishing (cl c)), (m_FinishDone (cl c)); try done; destruct (K9 eq_refl) as (_ & _ & ?); congruence. }
    rewrite Hfd in K11. assert (c_phase (the_call c) = Open) as Ho.
    { destruct K11 as [|Hph]; [done|]. rewrite Hf, Hph in K8. simpl in K8. lia. }
    rewrite Ho, Hr in *. simpl. apply Hdone. split; simpl; rewrite ?(Hne PRead), ?(Hne PWrite), ?(Hne PWritesDone), ?(Hne PFinish) by done; auto; [rewrite Hm; simpl; lia|rewrite Hfd; auto].
  - (* write *)
    assert (m_Writing (cl c) = true) as Hm by (destruct (m_Writing (cl c)) eqn:E; [done|destruct (K4 eq_refl); lia]).
    destruct (K3 Hm) as (Hn & Hq & Hcl & Hw & Hc). destruct (K5 Hcl) as [Hh Hcd].
    assert (c_write (the_call c) = false) as Hr by (destruct (c_write (the_call c)); simpl in Hw; [lia|done]).
    destruct (open_when _ _ _ Hcore) as [Ho Hfd]; [by right|]. rewrite Ho, Hr, Hh in *. simpl.
    destruct (m_WriteQueue (cl c)) as [|r q] eqn:Eq; [done|]. apply Hdone. split; simpl; rewrite ?(Hne PRead), ?(Hne PWrite), ?(Hne PWritesDone), ?(Hne PFinish) by done; auto.
    + intros _. rewrite Eq. split; [done|]. split; [done|]. split; [done|]. unfold b2n in *. lia.
    + congruence.
    + rewrite Eq. done.
  - (* half-close *)
    assert (m_Writing (cl c) = false) as Hm by (destruct (m_Writing (cl c)) eqn:E; [destruct (K3 eq_refl) as (_ & _ & _ & _ & ?); lia|done]).
    destruct (K4 Hm) as [Hpw Hx]. destruct (m_Closing (cl c) && negb (m_ClosedDone (cl c))) eqn:Ecl; [|lia]. apply andb_prop in Ecl as [Hcl Hcd%negb_true_iff].
    destruct Hx as (Hn & Hw & Hh). assert (c_write (the_call c) = false) as Hr by (destruct (c_write (the_call c)); simpl in Hw; [lia|done]).
    destruct (open_when _ _ _ Hcore) as [Ho Hfd]; [by left|]. rewrite Ho, Hr in *. rewrite Hh. simpl. apply Hdone.
    split; simpl; rewrite ?(Hne PRead), ?(Hne PWrite), ?(Hne PWritesDone), ?(Hne PFinish) by done; rewrite ?Hfd, ?Hcl, ?Hcd; auto; try congruence.
    intros _. simpl. split; [done|]. split; [done|]. unfold b2n in *. split; [lia|done].
    all: rewrite Hfd, ?Hcd in *; auto.
  - (* finish *)
    assert (m_Finishing (cl c) = true ∧ c_phase (the_call c) ≠ Finishing ∧ pn c PFinish = 1) as (Hf & Hnf & Hn).
    { destruct (m_Finishing (cl c)); simpl in K8; [|lia]. destruct (decide (c_phase (the_call c) = Finishing)) as [E|E]; [rewrite bool_decide_true in K8 by done; simpl in K8; lia|].
      rewrite bool_decide_false in K8 by done. simpl in K8. repeat split; [done|lia]. }
    destruct (K10 Hf) as [Hns Hfd]. rewrite Hfd in K11. destruct K11 as [Ho|]; [|done].
    destruct (K9 ltac:(by rewrite Hf)) as (HR & HC & HRd). rewrite HRd in K1. assert (c_read (the_call c) = false) as Hr by (destruct (c_read (the_call c)); [simpl in K1; lia|done]).
    destruct (m_Closing (cl c)) eqn:Ecl; [|destruct (K5 eq_refl); congruence]. destruct (K6 eq_refl) as (HW & HQ & Hm).
    destruct (K4 Hm) as [Hpw Hx]. rewrite HC in Hx. simpl in Hx. destruct Hx as [Hr2 Hpc]. rewrite Ho, Hr, Hr2. simpl. apply Hdone.
    split; simpl; rewrite ?(Hne PRead), ?(Hne PWrite), ?(Hne PWritesDone), ?(Hne PFinish) by done; rewrite ?Hfd, ?Ecl, ?HC; auto; try congruence.
    + rewrite HRd. rewrite Hr in K1. done.
    + intros _. split; [done|]. simpl. done.
    + rewrite Hf. simpl. lia.
Qed.
(** Outside the started call nothing is outstanding. *)
Lemma outstanding_up c : Inv c → c_read (the_call c) = true ∨ c_write (the_call c) = true → is_up c.
Proof. intros [[_ (_ & H1 & H2 & _) _ _]|[[_ (_ & H1 & H2 & _) _ _]|H]] [|]; congruence || done. Qed.
(** Once the half-close is done, no write is outstanding. *)
Lemma closed_quiet s k p : core s k p → m_ClosedDone s = true → m_Writing s = false ∧ c_write k = false ∧ p PWrite = 0 ∧ p PWritesDone = 0.
Proof.
  intros [K1 K2 K3 K4 K5 K6 K7 K8 K9 K10 K11 K12] HC. destruct (m_Closing s) eqn:Ecl; [|destruct (K5 eq_refl); congruence].
  destruct (K6 eq_refl) as (_ & _ & Hm). destruct (K4 Hm) as [Hpw Hx]. rewrite HC in Hx. simpl in Hx. by destruct Hx.
Qed.
Lemma client_kept_main ok c : Inv c → keeps_inv (step c (EMain ok)).
Proof.
  intros HI. simpl. unfold run_main. destruct HI as [[A1 A2 A3 A4]|[[B1 B2 B3 B4]|[Hcore Hset]]].
  - rewrite A1, A3. destruct A4 as (F1 & F2 & F3 & F4 & F5 & F6 & F7), A2 as (Hq & _). destruct ok.
    + right. right. eapply up_progress; [done|done|]. split; simpl; rewrite ?F1, ?F2, ?F3, ?F4, ?F5, ?F6, ?F7, ?Hq; simpl; auto; done.
    + right. left. split; simpl; auto. split; [|done]. intros o. unfold pn in *. simpl. rewrite client_pend_snoc, Hq. done.
  - by rewrite B1.
  - pose proof Hcore as [K1 K2 K3 K4 K5 K6 K7 K8 K9 K10 K11 K12].
    destruct (c_phase (the_call c)) eqn:Hp; try done; [destruct (m_FinishDone (cl c)); [done|by destruct K11]|].
    rewrite bool_decide_true in K8 by done. destruct (m_Finishing (cl c)) eqn:Ef; unfold b2n in K8; [|lia].
    destruct (K10 eq_refl) as [Hn Hfd]. destruct (K9 eq_refl) as (HR & HC & HRd). rewrite Hn. destruct (closed_quiet _ _ _ Hcore HC) as (Hm & Hw & Hpw & Hpc).
    assert (m_Closing (cl c) = true) as Hcl by (destruct (m_Closing (cl c)); [done|destruct (K5 eq_refl); congruence]).
    rewrite HRd in K1. unfold b2n in K1. assert (pn c PRead = 0 ∧ pn c PFinish = 0) as [Hpr Hpf] by (destruct (c_read (the_call c)); lia).
    right. right. eapply up_progress; [done|done|]. split; simpl; rewrite ?HR, ?HC, ?HRd, ?Hm, ?Hn, ?Hcl, ?Hpr, ?Hpf, ?Hpw, ?Hpc; simpl; auto; try done.
    intros _. by destruct (K6 Hcl) as (? & ? & _).
Qed.
Lemma client_kept_read r c : Inv c → keeps_inv (step c (ERead r)).
Proof.
  intros HI. simpl. unfold run_read. destruct (c_read (the_call c)) eqn:Er; [|done].
  destruct (outstanding_up c HI) as [Hcore Hset]; [auto|]. pose proof Hcore as [K1 K2 K3 K4 K5 K6 K7 K8 K9 K10 K11 K12].
  rewrite Er in K1. unfold b2n in K1. destruct (m_Reading (cl c)) eqn:Em; [|lia]. rewrite (K2 eq_refl). simpl.
  right. right. eapply up_progress; [done|done|]. split; simpl; auto; try done.
  - intros Hcl. destruct (K6 Hcl) as (-> & ? & ?). done.
  - intros Hd. destruct (m_ReadsDone (cl c)) eqn:E; [by rewrite K7|]. simpl in Hd. rewrite Hd. by rewrite orb_true_r.
  - intros Hf. destruct (K9 Hf) as (_ & _ & ?). congruence.
Qed.
Lemma client_kept_write_done ok c : Inv c → keeps_inv (step c (EWriteDone ok)).
Proof.
  intros HI. simpl. unfold run_write. destruct (c_write (the_call c)) eqn:Er; [|done].
  destruct (outstanding_up c HI) as [Hcore Hset]; [auto|]. pose proof Hcore as [K1 K2 K3 K4 K5 K6 K7 K8 K9 K10 K11 K12].
  destruct (m_Writing (cl c)) eqn:Em.
  - destruct (K3 eq_refl) as (Hn & Hq & Hcl & Hw & Hpc). destruct (K5 Hcl) as [Hh Hcd]. rewrite Hn. unfold b2n in Hw. rewrite Er in Hw.
    assert (m_Finishing (cl c) || m_FinishDone (cl c) = false) as Hf.
    { destruct (m_Finishing (cl c) || m_FinishDone (cl c)) eqn:E; [|done]. destruct (K9 eq_refl) as (_ & ? & _). congruence. }
    destruct (m_WriteQueue (cl c)) as [|x q] eqn:Eq; [done|]. unfold StateWriteDone_fn. rewrite Eq.
    destruct ok; simpl; right; right; (eapply up_progress; [done|done|]; split; simpl; rewrite ?Hf, ?Hcl, ?Hpc, ?Hcd; auto; try done;
      intros _; split; [lia|done]).
  - destruct (K4 eq_refl) as [Hpw Hx]. destruct (m_Closing (cl c) && negb (m_ClosedDone (cl c))) eqn:Ecl; [|by destruct Hx; congruence].
    apply andb_prop in Ecl as [Hcl Hcd%negb_true_iff]. destruct Hx as (Hn & Hw & Hh). rewrite Hn. unfold b2n in Hw. rewrite Er in Hw.
    right. right. eapply up_progress; [done|done|]. split; simpl; rewrite ?Em, ?Hcl; auto; try done.
    + intros _. split; [done|]. simpl. split; [done|lia].
    + intros Hf. destruct (K9 Hf) as (_ & ? & _). congruence.
Qed.
Lemma client_kept c e : Inv c → keeps_inv (step c e).
Proof.
  destruct e; [apply client_kept_write|apply client_kept_close|apply client_kept_cancel|apply client_kept_post|apply client_kept_main|apply client_kept_read|apply client_kept_write_done].
Qed.
Lemma start_inv : Inv start.
Proof. left. by repeat split. Qed.

(** ** The order of the requests *)
Lemma evaluate_keeps s : m_WriteQueue (EvaluateState s).1 = m_WriteQueue s ∧ m_WritesDone (EvaluateState s).1 = m_WritesDone s.
Proof.
  unfold EvaluateState. destruct (is_state _ _); [done|].
  unfold ev_complete, ev_finish, ev_close, ev_write, ev_read. by repeat case_match; simplify_eq/=.
Qed.
Lemma evaluate_queue s : m_WriteQueue (EvaluateState s).1 = m_WriteQueue s.
Proof. apply evaluate_keeps. Qed.
Lemma evaluate_done s : m_WritesDone (EvaluateState s).1 = m_WritesDone s.
Proof. apply evaluate_keeps. Qed.
(** The request being written is still at the front of the queue. *)
Definition in_order c : Prop := sent c ++ m_WriteQueue (cl c) = accepted c ∧
  posted c = sent c ++ (if c_write (the_call c) then take 1 (m_WriteQueue (cl c)) else []).
(** After a failed write the queue is dropped, and nothing is accepted any more. *)
Definition broken c : Prop := m_WritesDone (cl c) = true ∧ m_WriteQueue (cl c) = [] ∧ posted c `prefix_of` accepted c ∧ sent c `prefix_of` posted c.
(** What a half-close leaves to be written. *)
Lemma half_closed_empty c : Inv c → c_half_closed (the_call c) = true → m_WriteQueue (cl c) = [] ∧ m_WritesDone (cl c) = true.
Proof.
  intros [[_ (_ & _ & _ & H) _ _]|[[_ (_ & _ & _ & H) _ _]|[[K1 K2 K3 K4 K5 K6 _ _ _ _ _ _] _]]] Hh; [congruence|congruence|].
  destruct (m_Closing (cl c)) eqn:E; [by destruct (K6 eq_refl) as (? & ? & _)|]. destruct (K5 eq_refl). congruence.
Qed.
Lemma writing_not_empty c : Inv c → c_write (the_call c) = true → m_WritesDone (cl c) = false → m_WriteQueue (cl c) ≠ [].
Proof.
  intros HI Hw Hd. destruct (outstanding_up c HI) as [[K1 K2 K3 K4 K5 K6 _ _ _ _ _ _] _]; [auto|].
  destruct (m_Writing (cl c)); [by destruct (K3 eq_refl) as (_ & ? & _)|]. destruct (K4 eq_refl) as [_ Hx].
  destruct (m_Closing (cl c)) eqn:E; [destruct (K6 eq_refl); congruence|]. simpl in Hx. destruct Hx. congruence.
Qed.
Lemma order_post i c c' : Inv c → in_order c → step c (EPost i) = Next c' → in_order c'.
Proof.
  intros HI [O1 O2] Hs. pose proof (client_kept c (EPost i) HI) as HI'. rewrite Hs in HI'. simpl in HI', Hs.
  unfold ForwardProgress in Hs. destruct (threads c !! i) as [[|o os]|]; try done. unfold post in Hs.
  destruct (c_phase (the_call c)); try done. destruct o; simpl in Hs.
  - destruct (c_read (the_call c)); simplify_eq/=. done.
  - destruct (c_write (the_call c)) eqn:E1, (c_half_closed (the_call c)) eqn:E2; try done. simpl in Hs.
    destruct (m_WriteQueue (cl c)) as [|r q] eqn:Eq; simplify_eq/=. split; simpl; rewrite Eq; [done|]. simpl. by rewrite O2, app_nil_r.
  - destruct (c_write (the_call c)) eqn:E1, (c_half_closed (the_call c)) eqn:E2; simplify_eq/=.
    destruct (half_closed_empty _ HI') as [Hq _]; [done|]. simpl in Hq. split; simpl; rewrite Hq in *; done.
  - destruct (c_read (the_call c)), (c_write (the_call c)) eqn:E1; simplify_eq/=. split; simpl; done.
Qed.
Lemma order_main ok c c' : Inv c → in_order c → step c (EMain ok) = Next c' → in_order c'.
Proof.
  intros HI [O1 O2] Hs. simpl in Hs. unfold run_main in Hs.
  assert (c_write (the_call c) = true → c_phase (the_call c) = Open) as Hw.
  { intros Hw. destruct (outstanding_up c HI) as [Hcore _]; [auto|]. apply (open_when _ _ _ Hcore). pose proof Hcore as [K1 K2 K3 K4 K5 K6 _ _ _ _ _ _].
    destruct (m_Writing (cl c)); [by right|left]. destruct (K4 eq_refl) as [_ Hx].
    destruct (m_Closing (cl c)), (m_ClosedDone (cl c)); try done; simpl in Hx; destruct Hx; congruence. }
  destruct (c_write (the_call c)); [by rewrite Hw in Hs|]. clear Hw.
  destruct (c_phase (the_call c)), (m_NextState (cl c)); simplify_eq/=; split; simpl; try done.
  all: unfold StateStreamInitialized_fn, StateFinishDone_fn; destruct ok; simpl; rewrite ?evaluate_queue; done.
Qed.
Lemma order_write_done ok c c' : Inv c → in_order c → step c (EWriteDone ok) = Next c' → in_order c' ∨ (ok = false ∧ broken c').
Proof.
  intros HI [O1 O2] Hs. simpl in Hs. unfold run_write in Hs. destruct (c_write (the_call c)) eqn:Ew; [|done].
  destruct (outstanding_up c HI) as [[K1 K2 K3 K4 K5 K6 _ _ _ _ _ _] _]; [auto|].
  destruct (m_WriteNextState (cl c)) eqn:En; try done.
  - unfold StateWriteDone_fn in Hs. destruct ok.
    + destruct (m_WriteQueue (cl c)) as [|r q] eqn:Eq; simplify_eq/=. left. split; simpl; rewrite ?evaluate_queue; simpl; [by rewrite <-app_assoc|].
      by rewrite O2, app_nil_r.
    + simplify_eq/=. right. split; [done|]. split; simpl; [by rewrite evaluate_done|]. split; [by rewrite ?evaluate_queue|]. rewrite app_nil_r.
      split; rewrite O2; [rewrite <-O1; apply prefix_app, prefix_take|by apply prefix_app_r].
  - simplify_eq/=. left. assert (m_WriteQueue (cl c) = []) as Hq.
    { destruct (m_Writing (cl c)); [destruct (K3 eq_refl); congruence|]. destruct (K4 eq_refl) as [_ Hx].
      destruct (m_Closing (cl c)); [by destruct (K6 eq_refl) as (_ & ? & _)|]. simpl in Hx. destruct Hx; congruence. }
    unfold StateWritesDoneDone_fn. split; simpl; rewrite ?evaluate_queue; simpl; rewrite Hq in *; done.
Qed.
Definition is_failed_write (e : event) : bool := match e with EWriteDone false => true | _ => false end.
Lemma order_step c e c' : Inv c → in_order c → step c e = Next c' → in_order c' ∨ (is_failed_write e = true ∧ broken c').
Proof.
  intros HI HO Hs. destruct e as [r| | |i|ok|r|ok]; [| | |left; by eapply order_post|left; by eapply order_main| |].
  - left. simpl in Hs. unfold Write in Hs. destruct (m_WritesDone (cl c)) eqn:Ed; simplify_eq/=; [done|]. destruct HO as [O1 O2].
    split; simpl; rewrite ?evaluate_queue; simpl; [by rewrite app_assoc, O1|]. rewrite O2. f_equal.
    destruct (c_write (the_call c)) eqn:Ew; [|done]. pose proof (writing_not_empty c HI Ew Ed). by destruct (m_WriteQueue (cl c)).
  - left. simpl in Hs. unfold CloseWrites in Hs. destruct (m_WritesDone (cl c)); simplify_eq/=; [done|]. destruct HO. split; simpl; by rewrite ?evaluate_queue.
  - left. simplify_eq/=. done.
  - left. simpl in Hs. unfold run_read in Hs. destruct (c_read (the_call c)); [destruct (is_state _ _)|]; simplify_eq/=. destruct HO.
    split; simpl; unfold StateReadDone_fn; by rewrite ?evaluate_queue.
  - destruct (order_write_done ok c c' HI HO Hs) as [|[-> ?]]; auto.
Qed.
Lemma broken_step c e c' : broken c → step c e = Next c' → broken c'.
Proof.
  intros (B1 & B2 & B3) Hs. destruct e as [r| | |i|ok|r|ok]; simpl in Hs.
  - unfold Write in Hs. rewrite B1 in Hs. by simplify_eq/=.
  - unfold CloseWrites in Hs. rewrite B1 in Hs. by simplify_eq/=.
  - by simplify_eq/=.
  - unfold ForwardProgress in Hs. destruct (threads c !! i) as [[|o os]|]; try done. destruct (post o (the_call c)); [|done]. simpl in Hs.
    destruct o; [by simplify_eq/=|by rewrite B2 in Hs|by simplify_eq/=|by simplify_eq/=].
  - unfold run_main in Hs. destruct (c_phase (the_call c)), (m_NextState (cl c)); simplify_eq/=; (split; [|split; [|done]]); simpl;
      unfold StateStreamInitialized_fn, StateFinishDone_fn; destruct ok; simpl; rewrite ?evaluate_queue, ?evaluate_done; done.
  - unfold run_read in Hs. destruct (c_read (the_call c)); [destruct (is_state _ _)|]; simplify_eq/=. unfold broken, StateReadDone_fn. simpl.
    rewrite evaluate_queue, evaluate_done. simpl. by rewrite B1, B2.
  - unfold run_write in Hs. destruct (c_write (the_call c)); [|done]. destruct (m_WriteNextState (cl c)); simplify_eq/=.
    + unfold StateWriteDone_fn in Hs. rewrite B2 in Hs. destruct ok; simplify_eq/=. unfold broken. simpl. rewrite evaluate_queue, evaluate_done, app_nil_r. done.
    + unfold broken, StateWritesDoneDone_fn. simpl. by rewrite ?evaluate_queue, evaluate_done.
Qed.
Lemma client_reachable es c : run step start es = Next c → Inv c ∧ ((in_order c) ∨ (existsb is_failed_write es = true ∧ broken c)).
Proof.
  revert c. induction es as [|e es IH] using rev_ind; intros c Hr; [simplify_eq/=; split; [apply start_inv|by left]|].
  rewrite run_app in Hr. destruct (run step start es) as [| |c0]; try done. destruct (IH c0 eq_refl) as [HI HO].
  simpl in Hr. destruct (step c0 e) as [| |c1] eqn:Es; simplify_eq/=. pose proof (client_kept c0 e HI) as Hk. rewrite Es in Hk. split; [done|].
  rewrite existsb_app. simpl. destruct HO as [HO|[Hf HB]].
  - destruct (order_step c0 e c HI HO Es) as [|[-> ?]]; [by left|right]. by rewrite orb_true_r.
  - right. rewrite Hf. split; [done|]. by eapply broken_step.
Qed.
End client.
Arguments event : clear implicits.
Arguments config : clear implicits.

(** The events of the completion queue and of the threads, not of the user. *)
Definition internal {Request Response} (e : event Request Response) : bool :=
  match e with UWrite _ | UClose | UCancel => false | _ => true end.

(** ** The progress engine *)
(** What the completion queue returns, and what other threads do meanwhile: the user's
    calls and the posts that follow an evaluation. *)
Inductive engine_event (Request Response : Type) :=
| GOT_EVENT (e : event Request Response) | TIMEOUT | SHUTDOWN | OTHER (e : event Request Response).
Arguments GOT_EVENT {_ _} e.
Arguments TIMEOUT {_ _}.
Arguments SHUTDOWN {_ _}.
Arguments OTHER {_ _} e.
(** The value [RunNextState] returns: false for a call that could not be started and
    after the finish. *)
Definition RunNextState {Request Response} (c : config Request Response) (e : event Request Response) : bool :=
  match e with
  | EMain ok => match m_NextState (cl c) with StateStreamInitialized => ok | StateFinishDone => false | _ => true end
  | _ => true
  end.
(** With the arguments of [TimeoutBackoff]; [true]: the engine has returned. *)
Fixpoint ProgressEngine {Request Response} (evs : list (engine_event Request Response)) (backoff : Z) (c : config Request Response) (bs : list Z)
  : outcome (config Request Response * list Z * bool) :=
  match evs with
  | [] => Next (c, bs, false)
  | GOT_EVENT e :: evs =>
      outcome_bind (step c e) (λ c', if RunNextState c e then ProgressEngine evs 1 c' bs else Next (c', bs, true))
  | TIMEOUT :: evs =>
      let b := if (backoff <? 1048576)%Z then u64 (Z.shiftl backoff 1) else backoff in ProgressEngine evs b c (bs ++ [b])
  | SHUTDOWN :: _ => Next (c, bs, true)
  | OTHER e :: evs => outcome_bind (step c e) (λ c', ProgressEngine evs backoff c' bs)
  end.
Definition is_shutdown {Request Response} (e : engine_event Request Response) : bool := match e with SHUTDOWN => true | _ => false end.

(** A call that is over: the user knows, and nothing is outstanding or to be posted. *)
Definition over {Request Response} (c : config Request Response) : Prop :=
  m_Complete (cl c) = true ∧ c_read (the_call c) = false ∧ c_write (the_call c) = false ∧ ∀ o, pn c o = 0.
Lemma finished_over {Request Response} (c : config Request Response) : Inv c →
  c_phase (the_call c) = Finished ∨ c_phase (the_call c) = Failed → over c.
Proof.
  intros HI Hp. destruct HI as [[A1 _ _ _]|[[_ (Hq & ? & ? & _) _ [_ ?]]|[Hcore [T1 T2 T3 T4 T5]]]]; [destruct Hp; congruence|by split|].
  pose proof Hcore as [K1 K2 K3 K4 K5 K6 K7 K8 K9 K10 K11 K12].
  assert (c_phase (the_call c) = Finished ∧ m_FinishDone (cl c) = true) as [Hf Hfd].
  { destruct (m_FinishDone (cl c)) eqn:E; [done|]. destruct K11, Hp; congruence. }
  destruct (K9 ltac:(by rewrite Hfd, orb_true_r)) as (HR & HC & HRd). destruct (closed_quiet _ _ _ Hcore HC) as (HW & Hw & Hpw & Hpc).
  rewrite HRd in K1. rewrite bool_decide_false in K8 by congruence. destruct (m_Finishing (cl c)) eqn:HF; [destruct (K10 eq_refl); congruence|].
  unfold b2n in K1, K8. split; [auto|]. split; [by destruct (c_read (the_call c))|]. split; [done|].
  intros [| | |]; [destruct (c_read (the_call c)); lia|done|done|lia].
Qed.
Lemma engine_stops {Request Response} (c c' : config Request Response) e : Inv c → RunNextState c e = false → step c e = Next c' → over c'.
Proof.
  intros HI Hr Hs. pose proof (client_kept c e HI) as Hk. rewrite Hs in Hk. apply finished_over; [done|].
  destruct e as [| | | |ok| |]; try done. simpl in Hr, Hs. unfold run_main in Hs.
  destruct (c_phase (the_call c)), (m_NextState (cl c)); simplify_eq/=; auto.
Qed.

(** A call with nothing to post and nothing outstanding is complete. *)
Lemma client_quiet_complete {Request Response} (c : config Request Response) : Inv c →
  (∀ e, internal e = true → step c e = Disabled) → m_Complete (cl c) = true.
Proof.
  intros HI Hd.
  destruct HI as [[A1 _ A3 _]|[[_ _ _ [_ ?]]|[Hcore [T1 T2 T3 T4 T5]]]]; [specialize (Hd (EMain true) eq_refl); simpl in Hd; unfold run_main in Hd; by rewrite A1, A3 in Hd|done|].
  pose proof Hcore as [K1 K2 K3 K4 K5 K6 K7 K8 K9 K10 K11 K12].
  assert (∀ o, pn c o = 0) as Hp.
  { intros o. apply no_pend. intros a Ha. apply list_elem_of_lookup in Ha as [i Hi]. specialize (Hd (EPost i) eq_refl). simpl in Hd.
    unfold ForwardProgress in Hd. rewrite Hi in Hd. destruct a as [|o' os]; [done|]. destruct (post o' (the_call c)); [|done]. simpl in Hd.
    destruct o'; try done. by destruct (m_WriteQueue (cl c)). }
  rewrite !Hp in *. assert (c_read (the_call c) = false) as Hr.
  { specialize (Hd (ERead None) eq_refl). simpl in Hd. unfold run_read in Hd. destruct (c_read (the_call c)); [|done]. by destruct (is_state _ _). }
  assert (c_write (the_call c) = false) as Hw.
  { specialize (Hd (EWriteDone false) eq_refl). simpl in Hd. unfold run_write in Hd. destruct (c_write (the_call c)); [|done]. by destruct (m_WriteNextState (cl c)). }
  rewrite Hr, Hw in *. assert (m_Reading (cl c) = false) as HR by (destruct (m_Reading (cl c)); done).
  assert (m_Writing (cl c) = false) as HW by (destruct (m_Writing (cl c)); [destruct (K3 eq_refl) as (_ & _ & _ & ? & _); done|done]).
  pose proof (T1 HR) as HRd. destruct (T3 (K7 HRd) HW) as [HC|?]; [|congruence].
  destruct (K4 HW) as [_ Hx]. rewrite HC in Hx. destruct (m_ClosedDone (cl c)) eqn:HCd; [|simpl in Hx; destruct Hx as (_ & ? & _); done].
  specialize (T4 HR HW HRd eq_refl). apply T5. destruct (m_Finishing (cl c)) eqn:HF; [|done].
  destruct (K10 eq_refl) as [Hn _]. destruct (decide (c_phase (the_call c) = Finishing)) as [E|E]; [|by rewrite bool_decide_false in K8].
  specialize (Hd (EMain true) eq_refl). simpl in Hd. unfold run_main in Hd. by rewrite E, Hn in Hd.
Qed.


(** ** What the client guarantees *)
(** The progress engine of the client returns by itself only when the call is over,
    for a call that failed to start as for one that was finished: the user has been told
    of the end, no operation is outstanding whose completion would be left in the queue,
    and no thread still has one to post. *)
Theorem engine_returns_when_over {Request Response} (evs : list (engine_event Request Response)) c bs :
  existsb is_shutdown evs = false → ProgressEngine evs 1 start [] = Next (c, bs, true) → over c.
Proof.
  intros Hns. generalize (start_inv (Request := Request) (Response := Response)). generalize (@start Request Response), 1%Z, (@nil Z).
  induction evs as [|ev evs IH]; intros c0 b bs0 HI Hr; [done|]. simpl in Hns. apply orb_false_elim in Hns as [He Hns].
  destruct ev as [e| | |e]; simpl in Hr, He; [|by apply (IH Hns c0 _ _ HI Hr)|done|].
  all: pose proof (client_kept c0 e HI) as Hk; destruct (step c0 e) as [| |c1] eqn:Es; simplify_eq/=; [].
  - destruct (RunNextState c0 e) eqn:Er; [by apply (IH Hns c1 _ _ Hk Hr)|]. simplify_eq/=. exact (engine_stops _ _ _ HI Er Es).
  - by apply (IH Hns c1 _ _ Hk Hr).
Qed.
(** C26: whatever the user writes, closes or cancels, in whatever order the completions
    arrive and fail, and however the posts of different threads interleave, the client
    keeps the rules of the call: one read and one write at a time, no write after the
    half-close, a single finish with nothing outstanding; and no handler runs in a state
    it is not for or takes the front of an empty queue. *)
Theorem client_protocol {Request Response} (es : list (event Request Response)) f : run step start es ≠ Fault f.
Proof.
  intros Hf. pose proof (run_invariant (step (Request := Request) (Response := Response)) (λ _ _, true) Inv (λ _, True)) as H.
  assert (∀ (es : list (event Request Response)) c, along step (λ _ _, true) c es = true) as Ha.
  { clear. induction es as [|e es IH]; intros c; simpl; [done|]. destruct (step c e); auto. }
  specialize (H ltac:(intros c e c' HI _ Hs; pose proof (client_kept c e HI) as Hk; by rewrite Hs in Hk)
    ltac:(intros c e g HI _ Hs; pose proof (client_kept c e HI) as Hk; by rewrite Hs in Hk) es start start_inv (Ha _ _)).
  rewrite Hf in H. by apply H.
Qed.

(** The requests reach the stream in the order in which [Write] accepted them, each
    at most once; and when the half-close has been posted and no write has failed, all
    of them have been sent. *)
Theorem client_requests_in_order {Request Response} (es : list (event Request Response)) c : run step start es = Next c →
  posted c `prefix_of` accepted c ∧ sent c `prefix_of` posted c ∧
  (c_half_closed (the_call c) = true → existsb is_failed_write es = false → sent c = accepted c).
Proof.
  intros Hr. destruct (client_reachable es c Hr) as [HI [[O1 O2]|[Hf (_ & _ & B3 & B4)]]].
  - rewrite O2, <-O1. split; [destruct (c_write (the_call c)); apply prefix_app; [apply prefix_take|apply prefix_nil]|].
    split; [by apply prefix_app_r|]. intros Hh _. destruct (half_closed_empty c HI Hh) as [-> _]. by rewrite app_nil_r.
  - split; [done|]. split; [done|]. congruence.
Qed.

(** C27: a call with nothing left to do is complete: when no thread has an operation to
    post and no completion is outstanding, the user has been told of the end.  The
    client never forgets to post the half-close or the finish. *)
Theorem client_completes {Request Response} (es : list (event Request Response)) c : run step start es = Next c →
  (∀ e, internal e = true → step c e = Disabled) → m_Complete (cl c) = true.
Proof. intros Hr. apply client_quiet_complete. apply (client_reachable es c Hr). Qed.

(** A call with two requests, one response and an orderly end. *)
Definition session : list (event nat nat) :=
  [UWrite 1; UWrite 2; EMain true; EPost 2; EPost 2; EWriteDone true; EPost 3; ERead (Some 7); EPost 4; UClose; EWriteDone true; EPost 6;
   EWriteDone true; ERead None; EPost 8; EMain true].
(** The final state of [session]. *)
Definition session_end : config nat nat :=
  Eval vm_compute in match run step start session with Next c => c | _ => start end.
Lemma client_requests_in_order_witness :
  run step start session = Next session_end ∧ posted session_end `prefix_of` [1; 2] ∧ sent session_end = [1; 2].
Proof.
  assert (run step start session = Next session_end) as Hr by (vm_compute; reflexivity).
  split; [exact Hr|]. pose proof (client_requests_in_order session session_end Hr) as (H1 & _ & H3).
  split; [exact H1|]. apply H3; reflexivity.
Defined.
Lemma client_completes_witness : m_Complete (cl session_end) = true ∧ received session_end = [7].
Proof.
  split; [|reflexivity]. apply (client_completes session session_end); [vm_compute; reflexivity|]. intros e He. destruct e as [r| | |i|ok|r|ok]; try done.
  simpl. do 10 (destruct i as [|i]; [reflexivity|]). reflexivity.
Defined.

(** [session] as the engine sees it. *)
Definition engine_session : list (engine_event nat nat) :=
  TIMEOUT :: ((λ e, match e with EMain _ | ERead _ | EWriteDone _ => GOT_EVENT e | _ => OTHER e end) <$> session).
Lemma engine_returns_when_over_witness : ProgressEngine engine_session 1 start [] = Next (session_end, [2%Z], true) ∧ over session_end.
Proof.
  assert (ProgressEngine engine_session 1 start [] = Next (session_end, [2%Z], true)) as Hr by (vm_compute; reflexivity).
  split; [exact Hr|]. apply (engine_returns_when_over engine_session session_end [2%Z]); [vm_compute; reflexivity|exact Hr].
Defined.
