(* ===== verification/ClientV1.v ===== *)
(** * The first streaming client

    Models [ClientStreaming] of [tools/nvrpc/include/nvrpc/client/client_streaming.h], the
    predecessor of the clients of [FiberClient], [ClientV2] and [ClientV3].  Responses go
    to a callback that [EvaluateState] prepares under the mutex and [ForwardProgress] runs
    after it; the end of the call sets a promise.

    The completions of a client come through one queue, and so are handled by one thread,
    the engine, which finishes a handler and its [ForwardProgress] before it takes the next
    completion; users call from threads of their own.

    What holds: responses and requests keep their order and no handler runs in a state it
    is not for.  What does not, although the later clients have it: the promise may be set
    twice or never, and the call may be finished while its half-close is outstanding. *)
From S2P Require Import Prelude Grpc FiberClient.

Section client_v1.
Context {Request Response status : Type} (OK : status).

(** ** The client *)
Record ClientV1 := mkV1 {
  next_state : StateFn; read_next : StateFn; write_next : StateFn;
  read_queue : list (option Response);       (* [None]: not filled yet *)
  write_queue : list Request;
  reading : bool; writing : bool; finishing : bool; closing : bool;
  reads_done : bool; writes_done : bool; finish_done : bool;
}.
Inductive action := Post (o : op) | Execute (r : option Response) | Complete | GetFuture.

(** The decisions of [EvaluateState], in their order. *)
Definition ev_read (s : ClientV1) : ClientV1 * list action * list action :=
  if negb (reading s) && negb (reads_done s)
  then let q := read_queue s ++ [None] in
    (mkV1 (next_state s) StateReadDone (write_next s) (tail q) (write_queue s) true (writing s) (finishing s) (closing s)
       (reads_done s) (writes_done s) (finish_done s), [Post PRead], [Execute (mjoin (head q))])
  else (s, [], []).
Definition ev_write (s : ClientV1) : ClientV1 * list action :=
  if negb (writing s) && negb (bool_decide (length (write_queue s) = 0))
  then (mkV1 (next_state s) (read_next s) StateWriteDone (read_queue s) (write_queue s) (reading s) true (finishing s) (closing s)
          (reads_done s) (writes_done s) (finish_done s), [Post PWrite])
  else (s, []).
Definition ev_close (s : ClientV1) : ClientV1 * list action :=
  if negb (closing s) && negb (writing s) && writes_done s
  then (mkV1 (next_state s) (read_next s) StateWritesDoneDone (read_queue s) (write_queue s) (reading s) (writing s) (finishing s) true
          (reads_done s) (writes_done s) (finish_done s), [Post PWritesDone])
  else (s, []).
Definition ev_finish (s : ClientV1) : ClientV1 * list action :=
  if negb (reading s) && negb (writing s) && negb (finishing s) && reads_done s && writes_done s && negb (finish_done s)
  then (mkV1 StateFinishDone (read_next s) (write_next s) (read_queue s) (write_queue s) (reading s) (writing s) true (closing s)
          (reads_done s) (writes_done s) (finish_done s), [Post PFinish])
  else (s, []).
Definition ev_complete (s : ClientV1) : list action := if reads_done s && writes_done s && finish_done s then [Complete] else [].
Definition EvaluateState (s : ClientV1) : ClientV1 * list action :=
  if is_state (next_state s) StateStreamInitialized then (s, [])
  else
    let '(s1, rd, ex) := ev_read s in
    let '(s2, wr) := ev_write s1 in
    let '(s3, cl) := ev_close s2 in
    let '(s4, fi) := ev_finish s3 in
    (s4, rd ++ wr ++ cl ++ ex ++ fi ++ ev_complete s4).

(** ** Its methods and handlers, up to the release of the mutex *)
Definition Write (r : Request) (s : ClientV1) : option (ClientV1 * list action) :=
  if writes_done s then None
  else Some (EvaluateState (mkV1 (next_state s) (read_next s) StateWriteDone (read_queue s) (write_queue s ++ [r]) (reading s) (writing s)
    (finishing s) (closing s) (reads_done s) (writes_done s) (finish_done s))).
Definition Done (s : ClientV1) : ClientV1 * list action :=
  let '(s', a) := EvaluateState (mkV1 (next_state s) (read_next s) (write_next s) (read_queue s) (write_queue s) (reading s) (writing s)
    (finishing s) (closing s) (reads_done s) true (finish_done s)) in
  (s', a ++ [GetFuture]).
(** The initial read is posted before the actions. *)
Definition StateStreamInitialized_fn (ok : bool) (s : ClientV1) : ClientV1 * list action :=
  if ok
  then let '(s', a) := EvaluateState (mkV1 StateInvalid StateReadDone (write_next s) (read_queue s ++ [None]) (write_queue s) true (writing s)
         (finishing s) (closing s) (reads_done s) (writes_done s) (finish_done s)) in
       (s', Post PRead :: a)
  else (s, []).
(** gRPC has stored the response at the back of the queue. *)
Definition fill_back (r : option Response) (q : list (option Response)) : list (option Response) :=
  match r with Some r => take (Nat.pred (length q)) q ++ [Some r] | None => q end.
Definition StateReadDone_fn (r : option Response) (s : ClientV1) : ClientV1 * list action :=
  let ok := bool_decide (is_Some r) in
  EvaluateState (mkV1 (next_state s) StateInvalid (write_next s) (fill_back r (read_queue s)) (write_queue s) false (writing s)
    (finishing s) (closing s || negb ok) (reads_done s || negb ok) (writes_done s || negb ok) (finish_done s)).
(** [None]: the front of an empty queue. *)
Definition StateWriteDone_fn (ok : bool) (s : ClientV1) : option (ClientV1 * list action) :=
  match write_queue s with
  | [] => None
  | _ :: q =>
      let s' := mkV1 (next_state s) (read_next s) StateInvalid (read_queue s) q (reading s) false
        (finishing s) (closing s) (reads_done s) (writes_done s || negb ok) (finish_done s) in
      Some (if ok then EvaluateState s' else (s', []))
  end.
Definition StateWritesDoneDone_fn (ok : bool) (s : ClientV1) : ClientV1 * list action :=
  let s' := mkV1 (next_state s) (read_next s) StateInvalid (read_queue s) (write_queue s) (reading s) (writing s)
    (finishing s) (closing s) (reads_done s) (writes_done s) (finish_done s) in
  if ok then EvaluateState s' else (s', []).
Definition StateFinishDone_fn (ok : bool) (s : ClientV1) : ClientV1 * list action :=
  let s' := mkV1 (next_state s) (read_next s) (write_next s) (read_queue s) (write_queue s) (reading s) (writing s)
    false (closing s) (reads_done s) (writes_done s) true in
  if ok then EvaluateState s' else (s', []).

(** ** Runs *)
Record config := mkConf {
  cl : ClientV1; the_call : client_call;
  engine : list action;                  (* what the engine has still to do *)
  users : list (list action);            (* and the users' threads *)
  accepted : list Request; posted : list Request; popped : list Request;
  received : list Response; executed : list (option Response);
  m_Status : status; m_Promise : option status; future_taken : bool;
}.
Definition start : config :=
  mkConf (mkV1 StateStreamInitialized StateInvalid StateInvalid [] [] false false false false false false false)
    (mkCall Starting false false false) [] [] [] [] [] [] [] OK None false.
Definition with_client (s : ClientV1) (k : client_call) (e : list action) (us : list (list action)) (c : config) : config :=
  mkConf s k e us (accepted c) (posted c) (popped c) (received c) (executed c) (m_Status c) (m_Promise c) (future_taken c).

Inductive event :=
| UWrite (r : Request) | UDone | UStatus      (* the users *)
| UAct (i : nat)                              (* the next action of user [i] *)
| EAct                                        (* of the engine *)
| EMain (ok : bool) (st : status) | ERead (r : option Response) | EWriteDone (ok : bool).

(** One action of [ForwardProgress]. *)
Definition act (a : action) (c : config) : outcome config :=
  match a with
  | Post o =>
      outcome_bind (or_fault GrpcMisuse (post o (the_call c))) (λ k,
        let c' p := Next (mkConf (cl c) k (engine c) (users c) (accepted c) p (popped c) (received c) (executed c) (m_Status c) (m_Promise c) (future_taken c)) in
        match o with
        | PWrite => match write_queue (cl c) with r :: _ => c' (posted c ++ [r]) | [] => Fault EmptyQueue end
        | _ => c' (posted c)
        end)
  | Execute r => Next (mkConf (cl c) (the_call c) (engine c) (users c) (accepted c) (posted c) (popped c) (received c) (executed c ++ [r]) (m_Status c) (m_Promise c) (future_taken c))
  | Complete =>
      match m_Promise c with
      | None => Next (mkConf (cl c) (the_call c) (engine c) (users c) (accepted c) (posted c) (popped c) (received c) (executed c) (m_Status c) (Some (m_Status c)) (future_taken c))
      | Some _ => Fault FutureError
      end
  | GetFuture =>
      if future_taken c then Fault FutureError
      else Next (mkConf (cl c) (the_call c) (engine c) (users c) (accepted c) (posted c) (popped c) (received c) (executed c) (m_Status c) (m_Promise c) true)
  end.
Definition main_event (ok : bool) (st : status) (c : config) : outcome config :=
  match c_phase (the_call c), next_state (cl c) with
  | Starting, StateStreamInitialized =>
      let '(s, a) := StateStreamInitialized_fn ok (cl c) in
      Next (with_client s (mkCall (if ok then Open else Failed) false false false) a (users c) c)
  | Finishing, StateFinishDone =>
      let '(s, a) := StateFinishDone_fn ok (cl c) in
      let c' := with_client s (mkCall Finished (c_read (the_call c)) (c_write (the_call c)) (c_half_closed (the_call c))) a (users c) c in
      Next (mkConf (cl c') (the_call c') (engine c') (users c') (accepted c') (posted c') (popped c') (received c') (executed c') st (m_Promise c') (future_taken c'))
  | Starting, _ | Finishing, _ => Fault InvalidState
  | _, _ => Disabled
  end.
Definition read_event (r : option Response) (c : config) : outcome config :=
  if c_read (the_call c) then
    if is_state (read_next (cl c)) StateReadDone then
      let '(s, a) := StateReadDone_fn r (cl c) in
      let c' := with_client s (mkCall (c_phase (the_call c)) false (c_write (the_call c)) (c_half_closed (the_call c))) a (users c) c in
      Next (mkConf (cl c') (the_call c') (engine c') (users c') (accepted c') (posted c') (popped c') (received c' ++ option_list r) (executed c') (m_Status c') (m_Promise c') (future_taken c'))
    else Fault InvalidState
  else Disabled.
Definition write_event (ok : bool) (c : config) : outcome config :=
  if c_write (the_call c) then
    let k := mkCall (c_phase (the_call c)) (c_read (the_call c)) false (c_half_closed (the_call c)) in
    match write_next (cl c) with
    | StateWriteDone =>
        outcome_bind (or_fault EmptyQueue (StateWriteDone_fn ok (cl c))) (λ '(s, a),
          let c' := with_client s k a (users c) c in
          Next (mkConf (cl c') (the_call c') (engine c') (users c') (accepted c') (posted c') (popped c' ++ take 1 (write_queue (cl c))) (received c') (executed c') (m_Status c') (m_Promise c') (future_taken c')))
    | StateWritesDoneDone => let '(s, a) := StateWritesDoneDone_fn ok (cl c) in Next (with_client s k a (users c) c)
    | _ => Fault InvalidState
    end
  else Disabled.
Definition step (c : config) (e : event) : outcome config :=
  match e with
  | UWrite r =>
      match Write r (cl c) with
      | Some (s, a) =>
          let c' := with_client s (the_call c) (engine c) (users c ++ [a]) c in
          Next (mkConf (cl c') (the_call c') (engine c') (users c') (accepted c' ++ [r]) (posted c') (popped c') (received c') (executed c') (m_Status c') (m_Promise c') (future_taken c'))
      | None => Next c
      end
  | UDone => let '(s, a) := Done (cl c) in Next (with_client s (the_call c) (engine c) (users c ++ [a]) c)
  | UStatus => Next (with_client (cl c) (the_call c) (engine c) (users c ++ [[GetFuture]]) c)
  | UAct i =>
      match users c !! i with
      | Some (a :: l) => act a (with_client (cl c) (the_call c) (engine c) (<[i := l]> (users c)) c)
      | _ => Disabled
      end
  | EAct => match engine c with a :: l => act a (with_client (cl c) (the_call c) l (users c) c) | [] => Disabled end
  | EMain ok st => match engine c with [] => main_event ok st c | _ => Disabled end
  | ERead r => match engine c with [] => read_event r c | _ => Disabled end
  | EWriteDone ok => match engine c with [] => write_event ok c | _ => Disabled end
  end.
(** Nothing happens any more unless a user calls. *)
Definition internal (e : event) : bool := match e with UWrite _ | UDone | UStatus => false | _ => true end.

(** ** Invariant *)
Definition is_post (o : op) (a : action) : bool :=
  match a, o with Post PRead, PRead | Post PWrite, PWrite | Post PWritesDone, PWritesDone | Post PFinish, PFinish => true | _, _ => false end.
Definition posts (o : op) (l : list action) : nat := countb (is_post o) l.
Definition execs (l : list action) : list (option Response) := omap (λ a, match a with Execute r => Some r | _ => None end) l.
Definition add_posts (pn : op → nat) (a : list action) (o : op) : nat := pn o + posts o a.
Definition write_out (k : client_call) : bool := c_write k && negb (c_half_closed k).
Definition close_out (k : client_call) : bool := c_write k && c_half_closed k.
(** [pn]: the operations that threads have still to post. *)
Record core (s : ClientV1) (k : client_call) (pn : op → nat) : Prop := {
  k_read : pn PRead + b2n (c_read k) = b2n (reading s);
  k_read_next : reading s = true → read_next s = StateReadDone;
  k_write : pn PWrite + b2n (write_out k) = b2n (writing s);
  k_queue : writing s = true → write_queue s ≠ [] ∧ write_next s = StateWriteDone;
  k_close : pn PWritesDone + b2n (close_out k) ≤ b2n (closing s);
  k_closing : 0 < pn PWritesDone + b2n (close_out k) → write_next s = StateWritesDoneDone ∧ writes_done s = true ∧ write_queue s = [];
  k_finish : 0 < pn PFinish ∨ c_phase k = Finishing → next_state s = StateFinishDone;
}.
Lemma core_ext_v1 s k pn pn' : (∀ o, pn o = pn' o) → core s k pn → core s k pn'.
Proof. intros E [K1 K2 K3 K4 K5 K6 K7]. split; rewrite <-?E; done. Qed.
Lemma posts_app o l l' : posts o (l ++ l') = posts o l + posts o l'.
Proof. apply countb_app. Qed.
Lemma execs_app l l' : execs (l ++ l') = execs l ++ execs l'.
Proof. apply omap_app. Qed.
Lemma core_app s k pn a b : core s k (add_posts (add_posts pn a) b) → core s k (add_posts pn (a ++ b)).
Proof. apply core_ext_v1. intros o. unfold add_posts. rewrite posts_app. lia. Qed.
(** The steps of [EvaluateState]. *)
Lemma ev_read_v1 s k pn : core s k pn →
  match ev_read s with
  | (s', rd, ex) => core s' k (add_posts pn rd) ∧ execs rd = [] ∧ (∀ o, posts o ex = 0) ∧ write_queue s' = write_queue s ∧ next_state s' = next_state s ∧
      reads_done s' = reads_done s ∧
      if reading s || reads_done s then s' = s ∧ ex = [] else reading s' = true ∧ read_queue s' = tail (read_queue s ++ [None]) ∧ ex = [Execute (mjoin (head (read_queue s ++ [None])))]
  end.
Proof.
  intros HC. pose proof HC as [K1 K2 K3 K4 K5 K6 K7]. unfold ev_read. destruct (reading s) eqn:Er, (reads_done s) eqn:Ed; cbn.
  1-3: (rewrite ?Er, ?Ed; split_and!; try done; apply (core_ext_v1 _ _ pn); [intros o; unfold add_posts; cbn; lia|done]).
  split_and!; try done. split; unfold add_posts, posts; cbn; rewrite ?Nat.add_0_r; try done. cbn in K1. lia.
Qed.
Lemma ev_write_v1 s k pn : core s k pn →
  match ev_write s with
  | (s', wr) => core s' k (add_posts pn wr) ∧ execs wr = [] ∧ write_queue s' = write_queue s ∧ next_state s' = next_state s ∧ read_queue s' = read_queue s ∧
      reading s' = reading s ∧ reads_done s' = reads_done s ∧ (writing s' = false → write_queue s' = [])
  end.
Proof.
  intros HC. pose proof HC as [K1 K2 K3 K4 K5 K6 K7]. unfold ev_write. destruct (writing s) eqn:Ew; cbn.
  { rewrite Ew. split_and!; try done. apply (core_ext_v1 _ _ pn); [intros o; unfold add_posts; cbn; lia|done]. }
  destruct (write_queue s) as [|r q] eqn:Eq; cbn.
  { split_and!; try done. apply (core_ext_v1 _ _ pn); [intros o; unfold add_posts; cbn; lia|done]. }
  split_and!; try done. split; unfold add_posts, posts; cbn; rewrite ?Nat.add_0_r; try done.
  - cbn in K3. lia.
  - intros Hp. by destruct (K6 Hp) as (_ & _ & ?).
Qed.
Lemma ev_close_v1 s k pn : core s k pn → (writing s = false → write_queue s = []) →
  match ev_close s with
  | (s', c) => core s' k (add_posts pn c) ∧ execs c = [] ∧ write_queue s' = write_queue s ∧ next_state s' = next_state s ∧ read_queue s' = read_queue s ∧
      reading s' = reading s ∧ reads_done s' = reads_done s
  end.
Proof.
  intros HC Hw. pose proof HC as [K1 K2 K3 K4 K5 K6 K7]. unfold ev_close. destruct (_ && _) eqn:E; cbn.
  - apply andb_prop in E as [[Ec%negb_true_iff Ew%negb_true_iff]%andb_prop Ed]. rewrite Ec in K5. cbn in K5. split_and!; try done.
    split; unfold add_posts, posts; cbn; rewrite ?Nat.add_0_r; try done.
    + intros Hx. congruence.
    + lia.
    + intros _. split_and!; [done|done|auto].
  - split_and!; try done. apply (core_ext_v1 _ _ pn); [intros o; unfold add_posts; cbn; lia|done].
Qed.
Lemma ev_finish_v1 s k pn : core s k pn →
  match ev_finish s with
  | (s', f) => core s' k (add_posts pn f) ∧ execs f = [] ∧ write_queue s' = write_queue s ∧ (next_state s' = next_state s ∨ next_state s' = StateFinishDone) ∧
      read_queue s' = read_queue s ∧ reading s' = reading s ∧ reads_done s' = reads_done s
  end.
Proof.
  intros HC. pose proof HC as [K1 K2 K3 K4 K5 K6 K7]. unfold ev_finish. destruct (_ && _); cbn; split_and!; auto; cycle 1.
  - apply (core_ext_v1 _ _ pn); [intros o; unfold add_posts; cbn; lia|done].
  - split; unfold add_posts, posts; cbn; rewrite ?Nat.add_0_r; try done.
Qed.
Lemma evaluate_v1 s k pn : core s k pn → is_state (next_state s) StateStreamInitialized = false →
  match EvaluateState s with
  | (s', a) => core s' k (add_posts pn a) ∧ is_state (next_state s') StateStreamInitialized = false ∧ write_queue s' = write_queue s ∧ reads_done s' = reads_done s ∧
      if reading s || reads_done s then reading s' = reading s ∧ read_queue s' = read_queue s ∧ execs a = []
      else reading s' = true ∧ read_queue s' = tail (read_queue s ++ [None]) ∧ execs a = [mjoin (head (read_queue s ++ [None]))]
  end.
Proof.
  intros HC Hn. unfold EvaluateState. rewrite Hn. pose proof (ev_read_v1 s k pn HC) as HR. destruct (ev_read s) as [[s1 rd] ex]. destruct HR as (C1 & X1 & P1 & Q1 & N1 & D1 & R1).
  pose proof (ev_write_v1 s1 k _ C1) as HW. destruct (ev_write s1) as [s2 wr]. destruct HW as (C2 & X2 & Q2 & N2 & R2 & G2 & D2 & W2).
  pose proof (ev_close_v1 s2 k _ C2 W2) as HL. destruct (ev_close s2) as [s3 lo]. destruct HL as (C3 & X3 & Q3 & N3 & R3 & G3 & D3).
  pose proof (ev_finish_v1 s3 k _ C3) as HF. destruct (ev_finish s3) as [s4 fi]. destruct HF as (C4 & X4 & Q4 & N4 & R4 & G4 & D4).
  assert (execs (ev_complete s4) = [] ∧ ∀ o, posts o (ev_complete s4) = 0) as [X5 P5].
  { unfold ev_complete. destruct (_ && _); [|done]. split; [done|]. by intros []. }
  split_and!; [|destruct N4 as [->| ->]; [congruence|done]|congruence|congruence|].
  - eapply core_ext_v1; [|exact C4]. intros o. unfold add_posts. rewrite !posts_app, P1, P5. lia.
  - rewrite !execs_app, X1, X2, X3, X4, X5, app_nil_r. destruct (reading s || reads_done s).
    + destruct R1 as [-> ->]. split_and!; [congruence|congruence|done].
    + destruct R1 as (G1 & R1 & ->). split_and!; [congruence|congruence|done].
Qed.

Definition is_started (k : client_call) : bool := match c_phase k with Starting | Failed => false | _ => true end.
Record shape (s : ClientV1) (k : client_call) : Prop := {
  h_phase : if is_started k then is_state (next_state s) StateStreamInitialized = false ∧ reads_done s = negb (reading s)
            else next_state s = StateStreamInitialized ∧ reading s = false ∧ reads_done s = false;
  h_slots : read_queue s = if is_started k then [None] else [];
  h_idle : is_started k = false → c_read k = false ∧ c_write k = false;
}.
Lemma evaluate_shape s k pn : core s k pn → shape s k →
  match EvaluateState s with
  | (s', a) => core s' k (add_posts pn a) ∧ shape s' k ∧ execs a = [] ∧ write_queue s' = write_queue s
  end.
Proof.
  intros HC [H1 H2 H3]. destruct (is_started k) eqn:Ek.
  - destruct H1 as [Hn Hd]. pose proof (evaluate_v1 s k pn HC Hn) as HE. destruct (EvaluateState s) as [s' a]. destruct HE as (C & N & Q & D & R).
    assert (reading s || reads_done s = true) as E by (rewrite Hd; by destruct (reading s)). rewrite E in R. destruct R as (G & R & X).
    split_and!; [done| |done|done]. split; rewrite Ek; [split; congruence|congruence|done].
  - destruct H1 as (Hn & Hr). unfold EvaluateState. rewrite Hn. cbn. split_and!; [|split; rewrite Ek; done|done|done].
    apply (core_ext_v1 _ _ pn); [intros o; unfold add_posts; cbn; lia|done].
Qed.

(** *** Configurations *)
Definition pn (c : config) (o : op) : nat := posts o (engine c) + sum_list_with (posts o) (users c).
Record InvV1 (c : config) : Prop := {
  v_core : core (cl c) (the_call c) (pn c);
  v_shape : shape (cl c) (the_call c);
  v_exec : executed c ++ execs (engine c) = Some <$> received c;
  v_users : ∀ u, u ∈ users c → execs u = [];
  v_queue : popped c ++ write_queue (cl c) = accepted c;
  v_posted : posted c = popped c ++ (if write_out (the_call c) then take 1 (write_queue (cl c)) else []);
}.
Lemma pn_user c o a : sum_list_with (posts o) (users c ++ [a]) = sum_list_with (posts o) (users c) + posts o a.
Proof. rewrite sum_list_with_app. cbn. lia. Qed.
(** A call of a user. *)
Lemma user_inv c s0 rs tl : InvV1 c → core s0 (the_call c) (pn c) → shape s0 (the_call c) → write_queue s0 = write_queue (cl c) ++ rs →
  (writing (cl c) = true ∨ write_out (the_call c) = false) → execs tl = [] → (∀ o, posts o tl = 0) →
  let '(s, a) := EvaluateState s0 in
  InvV1 (mkConf s (the_call c) (engine c) (users c ++ [a ++ tl]) (accepted c ++ rs) (posted c) (popped c) (received c) (executed c) (m_Status c) (m_Promise c) (future_taken c)).
Proof.
  intros [V1 V2 V3 V4 V5 V6] HC HS Hq Hw Ht Hp. pose proof (evaluate_shape s0 _ _ HC HS) as HE. destruct (EvaluateState s0) as [s a]. destruct HE as (C & S' & X & Q).
  split; cbn; [|done|done| | |].
  - eapply core_ext_v1; [|exact C]. intros o. unfold pn, add_posts. cbn [engine users]. rewrite pn_user, posts_app, (Hp o). lia.
  - intros u [Hu|Hu]%elem_of_app; [by apply V4|]. apply list_elem_of_singleton in Hu as ->. by rewrite execs_app, X, Ht.
  - by rewrite Q, Hq, app_assoc, V5.
  - rewrite V6, Q, Hq. f_equal. destruct (write_out (the_call c)) eqn:Ew; [|done]. destruct Hw as [Hw|Hw]; [|done].
    destruct (k_queue _ _ _ V1 Hw) as [Hne _]. by destruct (write_queue (cl c)).
Qed.
(** An operation is posted. *)
Lemma post_core s k k' p o : post o k = Some k' → core s k (add_posts p [Post o]) → core s k' p ∧ is_started k' = true ∧ is_started k = true ∧
  (o = PWrite → write_out k = false ∧ write_out k' = true) ∧ (o ≠ PWrite → write_out k' = write_out k).
Proof.
  unfold post. destruct k as [[] r w h]; cbn; try done. intros Hp [K1 K2 K3 K4 K5 K6 K7].
  unfold add_posts, posts, write_out, close_out in *. cbn in *. destruct o, r, w, h; cbn in *; simplify_eq; cbn in *;
    (split; [split; unfold write_out, close_out; cbn; try lia; try done; try (intros ?; apply K6; lia); try (intros _; apply K7; lia);
             try (intros [?|?]; [apply K7; lia|done])|done]).
Qed.
Definition only_known (f : fault) : Prop := f = GrpcMisuse ∨ f = FutureError.
Definition kept (r : outcome config) : Prop := match r with Next c => InvV1 c | Fault f => only_known f | Disabled => True end.
Lemma act_inv a c : core (cl c) (the_call c) (add_posts (pn c) [a]) → shape (cl c) (the_call c) →
  executed c ++ execs [a] ++ execs (engine c) = Some <$> received c → (∀ u, u ∈ users c → execs u = []) → popped c ++ write_queue (cl c) = accepted c →
  posted c = popped c ++ (if write_out (the_call c) then take 1 (write_queue (cl c)) else []) → kept (act a c).
Proof.
  intros HC HS HX HU HQ HP.
  assert (∀ b, (match b with Post _ => False | _ => True end) → core (cl c) (the_call c) (add_posts (pn c) [b]) → core (cl c) (the_call c) (pn c)) as Hb.
  { intros b Hb. apply core_ext_v1. intros o. unfold add_posts. destruct b; [done|..]; destruct o; cbn; lia. }
  destruct a as [o|r| |]; cbn [act].
  - destruct (post o (the_call c)) as [k|] eqn:Ep; cbn; [|by left]. destruct (post_core _ _ _ _ _ Ep HC) as (C & S1 & S2 & W1 & W2).
    assert (shape (cl c) k) as HS' by (destruct HS as [h1 h2 _]; split; rewrite S1; by rewrite S2 in * ).
    destruct o; cbn; try (split; cbn; [exact C|done|done|done|done|by rewrite W2]).
    destruct (W1 eq_refl) as [E1 E2]. destruct (write_queue (cl c)) as [|r q] eqn:Eq.
    + exfalso. destruct HC as [_ _ K3 K4 _ _ _]. unfold add_posts in K3. cbn in K3. destruct (writing (cl c)); cbn in K3; [|lia]. by destruct (K4 eq_refl).
    + split; cbn; [exact C|done|done|done|by rewrite Eq|]. rewrite E1, app_nil_r in HP. rewrite E2, Eq, HP. done.
  - split; cbn; [by apply (Hb (Execute r))|done| |done|done|done]. rewrite <-app_assoc. exact HX.
  - destruct (m_Promise c); [by right|]. split; cbn; try done. by apply (Hb Complete).
  - destruct (future_taken c); [by right|]. split; cbn; try done. by apply (Hb GetFuture).
Qed.
Lemma act_engine c : InvV1 c → kept (step c EAct).
Proof.
  intros [V1 V2 V3 V4 V5 V6]. cbn. destruct (engine c) as [|a l] eqn:Ee; [done|]. apply act_inv; cbn; try done.
  - eapply core_ext_v1; [|exact V1]. intros o. unfold pn, add_posts. rewrite Ee. cbn. unfold posts. cbn. lia.
  - rewrite <-V3. f_equal. symmetry. apply (execs_app [a] l).
Qed.
Lemma act_user i c : InvV1 c → kept (step c (UAct i)).
Proof.
  intros [V1 V2 V3 V4 V5 V6]. cbn. destruct (users c !! i) as [[|a l]|] eqn:Eu; try done.
  assert (execs (a :: l) = []) as Hx by (apply V4; by eapply list_elem_of_lookup_2). pose proof (execs_app [a] l) as Ha. change ([a] ++ l) with (a :: l) in Ha.
  rewrite Hx in Ha. symmetry in Ha. apply app_eq_nil in Ha as [Ha Hl]. apply act_inv; cbn [cl the_call engine users executed received popped accepted posted with_client]; try done.
  - eapply core_ext_v1; [|exact V1]. intros o. unfold pn, add_posts. cbn [engine users with_client].
    pose proof (sum_insert (posts o) _ _ _ l Eu) as Hs. unfold posts in *. cbn in *. lia.
  - by rewrite Ha.
  - intros u Hu. apply list_elem_of_lookup in Hu as [j Hj]. apply list_lookup_insert_Some in Hj as [(_ & <- & _)|[_ Hj]]; [done|].
    apply V4. by eapply list_elem_of_lookup_2.
Qed.
(** A handler of the engine, with or without an evaluation at its end. *)
Lemma handler_inv c s0 k ev dropped hd st : InvV1 c → engine c = [] → core s0 k (add_posts (pn c) hd) → shape s0 k → execs hd = [] →
  (popped c ++ dropped) ++ write_queue s0 = accepted c → posted c = (popped c ++ dropped) ++ (if write_out k then take 1 (write_queue s0) else []) →
  let '(s, a) := if ev : bool then EvaluateState s0 else (s0, []) in
  InvV1 (mkConf s k (hd ++ a) (users c) (accepted c) (posted c) (popped c ++ dropped) (received c) (executed c) st (m_Promise c) (future_taken c)).
Proof.
  intros [V1 V2 V3 V4 V5 V6] He HC HS Hx Hq Hp.
  assert (let '(s, a) := if ev then EvaluateState s0 else (s0, []) in core s k (add_posts (add_posts (pn c) hd) a) ∧ shape s k ∧ execs a = [] ∧ write_queue s = write_queue s0) as HE.
  { destruct ev; [by apply evaluate_shape|]. split_and!; try done. eapply core_ext_v1; [|exact HC]. intros o. unfold add_posts. cbn. lia. }
  destruct (if ev then _ else _) as [s a]. destruct HE as (C & S' & X & Q). rewrite He in V3. cbn in V3.
  split; cbn; [|done| |done|by rewrite Q|by rewrite Q].
  - eapply core_ext_v1; [|exact C]. intros o. unfold pn, add_posts. rewrite He. cbn [engine users]. rewrite posts_app. cbn. lia.
  - by rewrite execs_app, Hx, X.
Qed.
Lemma no_head p s k : core s k p → core s k (add_posts p []).
Proof. apply core_ext_v1. intros o. unfold add_posts. cbn. lia. Qed.
Lemma main_inv ok st c : InvV1 c → kept (step c (EMain ok st)).
Proof.
  intros HI. pose proof HI as [V1 V2 V3 V4 V5 V6]. cbn. destruct (engine c) as [|a0 l0] eqn:Ee; [|done]. unfold main_event.
  pose proof V1 as [K1 K2 K3 K4 K5 K6 K7]. pose proof V2 as [H1 H2 H3].
  destruct (c_phase (the_call c)) eqn:Ep; try done.
  - assert (is_started (the_call c) = false) as Es by (unfold is_started; by rewrite Ep). rewrite Es in *. destruct H1 as (Hn & Hr & Hd). destruct (H3 eq_refl) as [Ir Iw].
    assert (write_out (the_call c) = false) as Ew by (unfold write_out; by rewrite Iw). assert (close_out (the_call c) = false) as Ec by (unfold close_out; by rewrite Iw).
    rewrite Hn. unfold StateStreamInitialized_fn. destruct ok.
    + set (s0 := mkV1 _ _ _ _ _ _ _ _ _ _ _ _).
      pose proof (handler_inv c s0 (mkCall Open false false false) true [] [Post PRead] (m_Status c) HI Ee) as H. cbn [negb] in H. destruct (EvaluateState s0) as [s' a].
      rewrite app_nil_r in H. apply H; [| |done|done|by rewrite Ew in V6].
      * rewrite Hr, Ir in K1. rewrite Ew in K3. rewrite Ec in K5, K6. split; cbn; unfold add_posts; cbn; rewrite ?Nat.add_0_r in *; try done; [cbn in K1; lia|].
        intros [Hf|?]; [|done]. assert (next_state (cl c) = StateFinishDone) by (apply K7; by left). congruence.
      * split; cbn; [done|by rewrite H2|done].
    + pose proof (handler_inv c (cl c) (mkCall Failed false false false) false [] [] (m_Status c) HI Ee) as H. cbn in H. rewrite app_nil_r in H.
      apply H; [|split; [done|done|done]|done|done|by rewrite Ew in V6]. apply no_head. rewrite Ir in K1. rewrite Ew in K3. rewrite Ec in K5, K6.
      split; cbn; try done. intros [Hf|?]; [|done]. apply K7. by left.
  - assert (is_started (the_call c) = true) as Es by (unfold is_started; by rewrite Ep). rewrite Es in *.
    rewrite (K7 ltac:(by right)). unfold StateFinishDone_fn. set (s0 := mkV1 _ _ _ _ _ _ _ _ _ _ _ _). set (k := mkCall _ _ _ _).
    pose proof (handler_inv c s0 k ok [] [] st HI Ee) as H. cbn [negb] in H. destruct (if ok then EvaluateState s0 else (s0, [])) as [s' a].
    rewrite app_nil_r in H. apply H; [|split; done|done|done|done]. apply no_head. split; cbn; try done. intros [Hf|?]; [|done]. apply K7. by left.
Qed.
Lemma write_inv ok c : InvV1 c → kept (step c (EWriteDone ok)).
Proof.
  intros HI. pose proof HI as [V1 V2 V3 V4 V5 V6]. cbn. destruct (engine c) as [|a0 l0] eqn:Ee; [|done]. unfold write_event.
  destruct (c_write (the_call c)) eqn:Ew; [|done]. pose proof V1 as [K1 K2 K3 K4 K5 K6 K7]. pose proof V2 as [H1 H2 H3].
  assert (is_started (the_call c) = true) as Es by (destruct (is_started (the_call c)); [done|]; by destruct (H3 eq_refl); congruence).
  unfold write_out, close_out in *. rewrite Ew in *. cbn in *. destruct (c_half_closed (the_call c)) eqn:Eh; cbn in *.
  - destruct (K6 ltac:(lia)) as (Hn & Hd & Hq). rewrite Hn. unfold StateWritesDoneDone_fn. set (s0 := mkV1 _ _ _ _ _ _ _ _ _ _ _ _). set (k := mkCall _ _ _ _).
    pose proof (handler_inv c s0 k ok [] [] (m_Status c) HI Ee) as H. destruct (if ok then EvaluateState s0 else (s0, [])) as [s' a].
    rewrite app_nil_r in H. apply H; [|split; unfold is_started in *; cbn; try done; by rewrite Es|done|done|unfold write_out; cbn; done]. apply no_head.
    destruct (closing (cl c)) eqn:Ecl; cbn in K5; [|lia]. split; unfold write_out, close_out; cbn; rewrite ?Ecl; cbn; try done; try lia. intros Hw. by destruct (K4 Hw).
  - destruct (writing (cl c)) eqn:Ewr; cbn in K3; [|lia]. destruct (K4 eq_refl) as [Hq Hn]. rewrite Hn. unfold StateWriteDone_fn.
    destruct (write_queue (cl c)) as [|r q] eqn:Eq; [done|]. cbn. set (s0 := mkV1 _ _ _ _ _ _ _ _ _ _ _ _). set (k := mkCall _ _ _ _).
    pose proof (handler_inv c s0 k ok [r] [] (m_Status c) HI Ee) as H. destruct (if ok then EvaluateState s0 else (s0, [])) as [s' a]. cbn in *.
    apply H; [|split; unfold is_started in *; cbn; try done; by rewrite Es|done|by rewrite <-app_assoc|unfold write_out; cbn; by rewrite app_nil_r]. apply no_head.
    split; unfold write_out, close_out; cbn; try done; [lia|]. intros Hc. destruct (K6 Hc) as (_ & _ & ?). done.
Qed.
Lemma read_inv r c : InvV1 c → kept (step c (ERead r)).
Proof.
  intros HI. pose proof HI as [V1 V2 V3 V4 V5 V6]. cbn. destruct (engine c) as [|a0 l0] eqn:Ee; [|done]. unfold read_event.
  destruct (c_read (the_call c)) eqn:Er; [|done]. pose proof V1 as [K1 K2 K3 K4 K5 K6 K7]. pose proof V2 as [H1 H2 H3].
  assert (is_started (the_call c) = true) as Es by (destruct (is_started (the_call c)); [done|]; by destruct (H3 eq_refl); congruence).
  rewrite Es in *. destruct H1 as [Hn Hd]. rewrite Er in K1. destruct (reading (cl c)) eqn:Erd; cbn in K1; [|lia]. rewrite (K2 eq_refl). cbn [is_state].
  unfold StateReadDone_fn. rewrite H2. cbn in Hd. rewrite Hd. set (k := mkCall _ _ _ _). destruct r as [x|]; cbn [fill_back option_list].
  - rewrite bool_decide_eq_true_2 by done. cbn. rewrite !orb_false_r. set (s0 := mkV1 _ _ _ _ _ _ _ _ _ _ _ _).
    assert (core s0 k (pn c)) as HC by (split; cbn; try done; lia).
    pose proof (evaluate_v1 s0 k (pn c) HC Hn) as HE. destruct (EvaluateState s0) as [s' a]. cbn in HE. destruct HE as (C & N & Q & D & G & R & X).
    cbn in V3. rewrite app_nil_r in V3. split; cbn; [| | |done|by rewrite Q|by rewrite Q].
    + eapply core_ext_v1; [|exact C]. intros o. unfold pn, add_posts. rewrite Ee. cbn [engine users with_client]. cbn. lia.
    + split; unfold is_started in *; cbn; rewrite ?Es; [|done|done]. split; [done|]. by rewrite D, G.
    + change (executed c ++ execs a = Some <$> (received c ++ [x])). rewrite X, fmap_app, V3. done.
  - rewrite bool_decide_eq_false_2 by (by intros [? ?]). cbn. set (s0 := mkV1 _ _ _ _ _ _ _ _ _ _ _ _).
    pose proof (handler_inv c s0 k true [] [] (m_Status c) HI Ee) as H. destruct (EvaluateState s0) as [s' a]. rewrite app_nil_r in *. cbn in H.
    apply H; [|split; unfold is_started in *; cbn; rewrite ?Es; try done; by rewrite orb_true_r|done|done|done]. apply no_head.
    split; cbn; rewrite ?orb_true_r; try done; [lia| |].
    + change (close_out k) with (close_out (the_call c)). destruct (closing (cl c)); cbn in K5; cbn [b2n]; lia.
    + change (close_out k) with (close_out (the_call c)). intros Hc. by destruct (K6 Hc) as (? & ? & ?).
Qed.
Lemma call_inv e c : InvV1 c → internal e = false → kept (step c e).
Proof.
  intros HI He. pose proof HI as [V1 V2 V3 V4 V5 V6]. pose proof V1 as [K1 K2 K3 K4 K5 K6 K7]. pose proof V2 as [H1 H2 H3].
  assert (writing (cl c) = true ∨ write_out (the_call c) = false) as Hw.
  { destruct (writing (cl c)) eqn:Ewr; [by left|right]. cbn in K3. destruct (write_out (the_call c)); [cbn in K3; lia|done]. }
  destruct e as [r| | |i| |ok st|r|ok]; try done; cbn.
  - unfold Write. destruct (writes_done (cl c)) eqn:Ed; [done|]. set (s0 := mkV1 _ _ _ _ _ _ _ _ _ _ _ _).
    pose proof (user_inv c s0 [r] [] HI) as H. destruct (EvaluateState s0) as [s' a]. rewrite app_nil_r in H. apply H; try done; [].
    split; cbn; try done.
    + intros Hwr. split; [by destruct (write_queue (cl c))|done].
    + intros Hc. destruct (K6 Hc) as (_ & Hwd & _). congruence.
  - unfold Done. set (s0 := mkV1 _ _ _ _ _ _ _ _ _ _ _ _). pose proof (user_inv c s0 [] [GetFuture] HI) as H. destruct (EvaluateState s0) as [s' a].
    rewrite !app_nil_r in H. apply H; try done; []. split; cbn; try done. intros Hc. by destruct (K6 Hc) as (? & _ & ?).
  - split; cbn; try done.
    + eapply core_ext_v1; [|exact V1]. intros o. unfold pn. cbn [engine users with_client]. rewrite pn_user. destruct o; cbn; lia.
    + intros u [Hu|Hu]%elem_of_app; [by apply V4|]. apply list_elem_of_singleton in Hu as ->. done.
Qed.
Lemma step_kept c e : InvV1 c → kept (step c e).
Proof.
  intros HI. destruct e as [r| | |i| |ok st|r|ok]; [by apply call_inv..|by apply act_user|by apply act_engine|by apply main_inv|by apply read_inv|by apply write_inv].
Qed.
Lemma start_kept : InvV1 start.
Proof.
  split; try done; cbn; [split; cbn; try done; unfold pn; cbn; [intros ?; lia|intros [?|?]; [lia|done]]|by intros u ?%elem_of_nil].
Qed.
Lemma run_kept es c : InvV1 c → kept (run step c es).
Proof.
  revert c. induction es as [|e es IH]; intros c HI; [exact HI|]. cbn. pose proof (step_kept c e HI) as Hk.
  destruct (step c e) as [|f|c']; cbn in *; [done|done|by apply IH].
Qed.
End client_v1.
Arguments config : clear implicits.
Arguments event : clear implicits.

(** C31: the order that the first streaming client keeps.  Whatever its users and the server
    do, and whichever operations fail: requests are posted in the order in which [Write]
    accepted them, each once; responses are passed to the callback in the order in which
    they arrived, all of them by the time the engine takes the next completion, and never
    an empty one.  No handler runs in a state it is not for and no front of an empty queue
    is taken: the ways to fail are the second completion of the promise, the second
    future, and an operation that gRPC does not allow. *)
Theorem v1_in_order {Request Response status} (OK : status) (es : list (event Request Response status)) :
  (∀ f, run step (start OK) es = Fault f → f = GrpcMisuse ∨ f = FutureError) ∧
  ∀ c, run step (start OK) es = Next c → posted c `prefix_of` accepted c ∧ executed c `prefix_of` (Some <$> received c) ∧
    (engine c = [] → executed c = Some <$> received c).
Proof.
  pose proof (run_kept es (start OK) (start_kept OK)) as Hk. split; [intros f Hf; by rewrite Hf in Hk|].
  intros c Hc. rewrite Hc in Hk. destruct Hk as [_ _ V3 _ V5 V6]. split_and!.
  - rewrite <-V5, V6. apply prefix_app. destruct (write_out _); [|apply prefix_nil]. exists (drop 1 (write_queue (cl c))). by rewrite take_drop.
  - rewrite <-V3. by apply prefix_app_r.
  - intros E. by rewrite E, app_nil_r in V3.
Qed.

(** ** What the later clients put right *)
Definition run_v1 (es : list (event nat nat nat)) : outcome (config nat nat nat) := run step (start 0) es.
Definition stuck (c : config nat nat nat) : Prop := ∀ e, internal e = true → step c e = Disabled.
(** A call of a client that is over: its promise is set again. *)
Lemma v1_done_after_end : run_v1 [EMain true 0; EAct; ERead None; EAct; EMain true 5; EAct; UDone; UAct 0] = Fault FutureError.
Proof. reflexivity. Qed.
Lemma v1_second_future : run_v1 [UStatus; UAct 0; UDone; UAct 1] = Fault FutureError.
Proof. reflexivity. Qed.
(** The server ends the stream while the half-close is outstanding. *)
Lemma v1_finish_while_closing : run_v1 [EMain true 0; EAct; UDone; UAct 0; ERead None; EAct] = Fault GrpcMisuse.
Proof. reflexivity. Qed.
(** A failed start, and a failed write after the last read, leave a promise that nobody
    will ever set. *)
Lemma v1_never_completes : ∃ c1 c2, run_v1 [EMain false 0] = Next c1 ∧ run_v1 [UWrite 1; EMain true 0; EAct; EAct; ERead None; EWriteDone false] = Next c2 ∧
  stuck c1 ∧ stuck c2 ∧ m_Promise c1 = None ∧ m_Promise c2 = None.
Proof.
  do 2 eexists. split; [vm_compute; reflexivity|]. split; [vm_compute; reflexivity|].
  split; [intros [ | | |[|i]| | | |] He; try discriminate He; reflexivity|]. split; [|done].
  intros [ | | |[|[|i]]| | | |] He; try discriminate He; reflexivity.
Qed.

(** A call with one request, one response and an orderly end. *)
Definition v1_session : list (event nat nat nat) :=
  [UWrite 1; EMain true 0; EAct; EAct; ERead (Some 7); EAct; EAct; EWriteDone true; UDone; UAct 1; UAct 1; EWriteDone true; ERead None; EAct; EMain true 5; EAct].
Definition v1_end : config nat nat nat := match run_v1 v1_session with Next c => c | _ => start 0 end.
Lemma v1_in_order_witness : run step (start 0) v1_session = Next v1_end ∧ m_Promise v1_end = Some 5 ∧ executed v1_end = Some <$> received v1_end.
Proof.
  assert (run step (start 0) v1_session = Next v1_end) as Hr by (vm_compute; reflexivity).
  split; [exact Hr|]. split; [reflexivity|]. apply (proj2 (v1_in_order 0 v1_session) v1_end Hr). reflexivity.
Defined.
