(* ===== verification/ClientV2.v ===== *)
(** * The streaming client with a promise

    Models [v2::ClientStreaming] of
    [tools/nvrpc/include/nvrpc/client/client_streaming_v2.h].  The v2 client is the fiber client with a promise of the final status:
    [EvaluateState] also decides that the call is complete, and [ForwardProgress] then
    calls [CallbackOnComplete] and sets the promise, after the mutex is released.

    The read, write, close and finish decisions of the two classes are the same code;
    the definitions of [FiberClient] are used for them.  The file shows that v2 refines
    the fiber client, and so keeps its protocol, and that the promise is set exactly
    once, with the status of the call. *)
From S2P Require Import Prelude Grpc FiberClient.

Section client_v2.
Context {Request Response status : Type} (OK CANCELLED : status).   (* [::grpc::Status::OK] is the default status *)

(** ** The client *)
(** What [EvaluateState] leaves to [ForwardProgress]: operations of the stream, and the
    completion of the promise. *)
Inductive action := Post (o : op) | Complete.
#[export] Instance action_eq_dec : EqDecision action.
Proof. solve_decision. Defined.
Notation ClientStreaming := (@ClientStreaming Request).

Definition ev_complete (sa : ClientStreaming * list action) : ClientStreaming * list action :=
  let '(s, a) := sa in
  if m_ReadsDone s && m_WritesDone s && m_ClosedDone s && m_FinishDone s && negb (m_Complete s)
  then (mkClient (m_NextState s) (m_ReadNextState s) (m_WriteNextState s) (m_WriteQueue s) (m_Reading s) (m_Writing s) (m_Finishing s) (m_Closing s)
          (m_ReadsDone s) (m_WritesDone s) (m_ClosedDone s) (m_FinishDone s) true, a ++ [Complete])
  else (s, a).
Definition EvaluateState (s : ClientStreaming) : ClientStreaming * list action :=
  if is_state (m_NextState s) StateStreamInitialized then (s, [])
  else let sa := ev_finish (ev_close (ev_write (ev_read (s, [])))) in ev_complete (sa.1, Post <$> sa.2).

(** ** Its methods, up to the release of the mutex *)
Definition Write (r : Request) (s : ClientStreaming) : option (ClientStreaming * list action) :=
  if m_WritesDone s then None
  else Some (EvaluateState (mkClient (m_NextState s) (m_ReadNextState s) (m_WriteNextState s) (m_WriteQueue s ++ [r]) (m_Reading s) (m_Writing s)
    (m_Finishing s) (m_Closing s) (m_ReadsDone s) (m_WritesDone s) (m_ClosedDone s) (m_FinishDone s) (m_Complete s))).
(** [None]: already closed; the shared future is returned in either case. *)
Definition Done (s : ClientStreaming) : option (ClientStreaming * list action) :=
  if m_WritesDone s then None else Some (EvaluateState (set_writes_done s)).
(** [Cancel] also calls [TryCancel] on the context; it evaluates nothing. *)
Definition Cancel (s : ClientStreaming) : ClientStreaming := set_writes_done s.
(** On a failed start, [StateStreamInitialized] also sets the promise: [run_main]. *)
Definition StateStreamInitialized_fn (ok : bool) (s : ClientStreaming) : ClientStreaming * list action :=
  if ok
  then EvaluateState (mkClient StateInvalid (m_ReadNextState s) (m_WriteNextState s) (m_WriteQueue s) (m_Reading s) (m_Writing s)
         (m_Finishing s) (m_Closing s) (m_ReadsDone s) (m_WritesDone s) (m_ClosedDone s) (m_FinishDone s) (m_Complete s))
  else (mkClient (m_NextState s) (m_ReadNextState s) (m_WriteNextState s) (m_WriteQueue s) (m_Reading s) (m_Writing s)
          (m_Finishing s) (m_Closing s) true true true true true, []).
Definition StateReadDone_fn (ok : bool) (s : ClientStreaming) : ClientStreaming * list action :=
  EvaluateState (mkClient (m_NextState s) StateInvalid (m_WriteNextState s) (m_WriteQueue s) false (m_Writing s)
    (m_Finishing s) (m_Closing s) (m_ReadsDone s || negb ok) (m_WritesDone s || negb ok) (m_ClosedDone s) (m_FinishDone s) (m_Complete s)).
(** With the request it has sent; [None]: the front of an empty queue. *)
Definition StateWriteDone_fn (ok : bool) (s : ClientStreaming) : option (ClientStreaming * list action * list Request) :=
  let s' q wd := mkClient (m_NextState s) (m_ReadNextState s) StateInvalid q (m_Reading s) false
    (m_Finishing s) (m_Closing s) (m_ReadsDone s) wd (m_ClosedDone s) (m_FinishDone s) (m_Complete s) in
  if ok then match m_WriteQueue s with r :: q => Some (EvaluateState (s' q (m_WritesDone s)), [r]) | [] => None end
  else Some (EvaluateState (s' [] true), []).
Definition StateWritesDoneDone_fn (s : ClientStreaming) : ClientStreaming * list action :=
  EvaluateState (mkClient (m_NextState s) (m_ReadNextState s) StateInvalid (m_WriteQueue s) (m_Reading s) (m_Writing s)
    (m_Finishing s) (m_Closing s) (m_ReadsDone s) (m_WritesDone s) true (m_FinishDone s) (m_Complete s)).
Definition StateFinishDone_fn (s : ClientStreaming) : ClientStreaming * list action :=
  EvaluateState (mkClient (m_NextState s) (m_ReadNextState s) (m_WriteNextState s) (m_WriteQueue s) (m_Reading s) (m_Writing s)
    false (m_Closing s) (m_ReadsDone s) (m_WritesDone s) (m_ClosedDone s) true (m_Complete s)).

(** ** Runs *)
Record config := mkConfig {
  cl : ClientStreaming; the_call : client_call;
  threads : list (list action);
  accepted : list Request; posted : list Request; sent : list Request; received : list Response;
  m_Status : status;
  m_Promise : option status;           (* the value it was set to *)
  completed : list status;             (* the calls of [CallbackOnComplete] *)
}.
Definition start : config := mkConfig FiberClient.Initialize (mkCall Starting false false false) [] [] [] [] [] OK None [].
Definition progress (sa : ClientStreaming * list action) (k : client_call) (c : config) : config :=
  mkConfig sa.1 k (threads c ++ [sa.2]) (accepted c) (posted c) (sent c) (received c) (m_Status c) (m_Promise c) (completed c).

Inductive event :=
| UWrite (r : Request) | UDone | UCancel
| EPost (i : nat)                      (* [ForwardProgress] of thread [i] *)
| EMain (ok : bool) (st : status)      (* with the status that [Finish] stores *)
| ERead (r : option Response) | EWriteDone (ok : bool).

(** [m_Promise.set_value] throws when the promise has been set. *)
Definition set_value (c : config) (v : status) : outcome config :=
  match m_Promise c with
  | None => Next (mkConfig (cl c) (the_call c) (threads c) (accepted c) (posted c) (sent c) (received c) (m_Status c) (Some v) (completed c))
  | Some _ => Fault FutureError
  end.
Definition CallbackOnComplete (c : config) : config :=
  mkConfig (cl c) (the_call c) (threads c) (accepted c) (posted c) (sent c) (received c) (m_Status c) (m_Promise c) (completed c ++ [m_Status c]).
Definition set_status (v : status) (c : config) : config :=
  mkConfig (cl c) (the_call c) (threads c) (accepted c) (posted c) (sent c) (received c) v (m_Promise c) (completed c).

Definition run_main (ok : bool) (st : status) (c : config) : outcome config :=
  match c_phase (the_call c), m_NextState (cl c) with
  | Starting, StateStreamInitialized =>
      let c' := progress (StateStreamInitialized_fn ok (cl c)) (mkCall (if ok then Open else Failed) false false false) c in
      if ok then Next c'
      else outcome_bind (set_value (set_status CANCELLED c') CANCELLED) (λ c'', Next (CallbackOnComplete c''))
  | Finishing, StateFinishDone =>
      Next (progress (StateFinishDone_fn (cl c)) (mkCall Finished false false (c_half_closed (the_call c))) (set_status st c))
  | Starting, _ | Finishing, _ => Fault InvalidState
  | _, _ => Disabled
  end.
Definition run_read (r : option Response) (c : config) : outcome config :=
  if c_read (the_call c) then
    if is_state (m_ReadNextState (cl c)) StateReadDone then
      let c' := progress (StateReadDone_fn (bool_decide (is_Some r)) (cl c))
                  (mkCall (c_phase (the_call c)) false (c_write (the_call c)) (c_half_closed (the_call c))) c in
      Next (mkConfig (cl c') (the_call c') (threads c') (accepted c') (posted c') (sent c') (received c' ++ option_list r)
              (m_Status c') (m_Promise c') (completed c'))
    else Fault InvalidState
  else Disabled.
Definition run_write (ok : bool) (c : config) : outcome config :=
  if c_write (the_call c) then
    let k := mkCall (c_phase (the_call c)) (c_read (the_call c)) false (c_half_closed (the_call c)) in
    match m_WriteNextState (cl c) with
    | StateWriteDone =>
        outcome_bind (or_fault EmptyQueue (StateWriteDone_fn ok (cl c))) (λ '(sa, rs),
          let c' := progress sa k c in
          Next (mkConfig (cl c') (the_call c') (threads c') (accepted c') (posted c') (sent c' ++ rs) (received c')
                  (m_Status c') (m_Promise c') (completed c')))
    | StateWritesDoneDone => Next (progress (StateWritesDoneDone_fn (cl c)) k c)
    | _ => Fault InvalidState
    end
  else Disabled.
Definition ForwardProgress (i : nat) (c : config) : outcome config :=
  match threads c !! i with
  | Some (a :: os) =>
      let c' k p := mkConfig (cl c) k (<[i := os]> (threads c)) (accepted c) p (sent c) (received c) (m_Status c) (m_Promise c) (completed c) in
      match a with
      | Post o =>
          outcome_bind (or_fault GrpcMisuse (post o (the_call c))) (λ k,
            match o with
            | PWrite => match m_WriteQueue (cl c) with r :: _ => Next (c' k (posted c ++ [r])) | [] => Fault EmptyQueue end
            | _ => Next (c' k (posted c))
            end)
      | Complete => set_value (CallbackOnComplete (c' (the_call c) (posted c))) (m_Status c)
      end
  | _ => Disabled
  end.
Definition step (c : config) (e : event) : outcome config :=
  match e with
  | UWrite r =>
      match Write r (cl c) with
      | Some sa => let c' := progress sa (the_call c) c in
          Next (mkConfig (cl c') (the_call c') (threads c') (accepted c' ++ [r]) (posted c') (sent c') (received c') (m_Status c') (m_Promise c') (completed c'))
      | None => Next c
      end
  | UDone => match Done (cl c) with Some sa => Next (progress sa (the_call c) c) | None => Next c end
  | UCancel => Next (mkConfig (Cancel (cl c)) (the_call c) (threads c) (accepted c) (posted c) (sent c) (received c) (m_Status c) (m_Promise c) (completed c))
  | EPost i => ForwardProgress i c
  | EMain ok st => run_main ok st c
  | ERead r => run_read r c
  | EWriteDone ok => run_write ok c
  end.

(** ** Refinement of the fiber client *)
Definition stream_op (a : action) : option op := match a with Post o => Some o | Complete => None end.
Definition stream_ops (l : list action) : list op := omap stream_op l.
Definition erase (c : config) : FiberClient.config Request Response :=
  FiberClient.mkConfig (cl c) (the_call c) (map stream_ops (threads c)) (accepted c) (posted c) (sent c) (received c).
Definition erase_event (e : event) : FiberClient.event Request Response :=
  match e with
  | UWrite r => FiberClient.UWrite r | UDone => FiberClient.UClose | UCancel => FiberClient.UCancel
  | EPost i => FiberClient.EPost i | EMain ok _ => FiberClient.EMain ok | ERead r => FiberClient.ERead r
  | EWriteDone ok => FiberClient.EWriteDone ok
  end.
(** A step of the v2 client that is no step of the fiber client: the completion. *)
Definition completes (c : config) (e : event) : bool :=
  match e with EPost i => match threads c !! i with Some (Complete :: _) => true | _ => false end | _ => false end.

Lemma stream_ops_posts l : stream_ops (Post <$> l) = l.
Proof. unfold stream_ops. induction l as [|o l IH]; [done|]. cbn. f_equal. exact IH. Qed.
Lemma evaluate_erase s : FiberClient.EvaluateState s = ((EvaluateState s).1, stream_ops (EvaluateState s).2).
Proof.
  unfold FiberClient.EvaluateState, EvaluateState. destruct (is_state _ _); [done|].
  destruct (ev_finish _) as [s' a]. unfold FiberClient.ev_complete, ev_complete. cbn.
  destruct (_ && _); cbn; [unfold stream_ops; rewrite omap_app; fold (stream_ops (Post <$> a))|]; rewrite stream_ops_posts; [|done].
  cbn. by rewrite app_nil_r.
Qed.
Lemma erase_progress sa k c :
  erase (progress sa k c) = FiberClient.progress (sa.1, stream_ops sa.2) k (erase c).
Proof. unfold erase, FiberClient.progress. cbn. by rewrite map_app. Qed.
(** Every other step of the v2 client is the step of the fiber client. *)
Lemma v2_step_erase c e : completes c e = false → (c_phase (the_call c) = Starting → m_Promise c = None) →
  FiberClient.step (erase c) (erase_event e) = outcome_bind (step c e) (λ c', Next (erase c')).
Proof.
  intros Hn Hp. destruct e as [r| | |i|ok st|r|ok]; cbn.
  - unfold FiberClient.Write, Write. destruct (m_WritesDone (cl c)); [done|]. rewrite evaluate_erase. cbn. f_equal. unfold erase. cbn. by rewrite map_app.
  - unfold FiberClient.CloseWrites, Done. destruct (m_WritesDone (cl c)); [done|]. rewrite evaluate_erase. cbn. by rewrite erase_progress.
  - done.
  - cbn in Hn. unfold FiberClient.ForwardProgress, ForwardProgress. cbn. rewrite list_lookup_fmap.
    destruct (threads c !! i) as [[|[o|] os]|]; try done. cbn. destruct (post o (the_call c)) as [k|]; [|done]. cbn.
    destruct o; [..|destruct (m_WriteQueue (cl c)); [done|]|idtac|idtac]; cbn; unfold erase; cbn; by rewrite list_fmap_insert.
  - unfold FiberClient.run_main, run_main. cbn. destruct (c_phase (the_call c)), (m_NextState (cl c)); try done.
    + unfold FiberClient.StateStreamInitialized_fn, StateStreamInitialized_fn. destruct ok; [rewrite evaluate_erase; cbn [outcome_bind]; by rewrite erase_progress|].
      unfold set_value. cbn. rewrite Hp by done. cbn. unfold erase. cbn. by rewrite map_app.
    + unfold FiberClient.StateFinishDone_fn, StateFinishDone_fn. rewrite evaluate_erase. cbn. by rewrite erase_progress.
  - unfold FiberClient.run_read, run_read. cbn. destruct (c_read (the_call c)); [|done]. destruct (is_state _ _); [|done].
    unfold FiberClient.StateReadDone_fn, StateReadDone_fn. rewrite evaluate_erase. cbn. unfold erase. cbn. by rewrite map_app.
  - unfold FiberClient.run_write, run_write. cbn. destruct (c_write (the_call c)); [|done]. destruct (m_WriteNextState (cl c)); try done.
    + unfold FiberClient.StateWriteDone_fn, StateWriteDone_fn. destruct ok; [destruct (m_WriteQueue (cl c)) as [|x q]; [done|]|];
        rewrite evaluate_erase; cbn; unfold erase; cbn; by rewrite map_app.
    + unfold FiberClient.StateWritesDoneDone_fn, StateWritesDoneDone_fn. rewrite evaluate_erase. cbn. by rewrite erase_progress.
Qed.
Lemma v2_step_complete c e : completes c e = true → m_Promise c = None → ∃ c', step c e = Next c' ∧ erase c' = erase c.
Proof.
  intros Hc Hp. destruct e as [| | |i| | |]; try done. cbn in *. unfold ForwardProgress, set_value.
  destruct (threads c !! i) as [[|[o|] os]|] eqn:Hi; try done. cbn. rewrite Hp. eexists. split; [done|]. unfold erase. cbn.
  f_equal. change (map stream_ops) with (fmap (M := list) stream_ops). rewrite list_fmap_insert. apply list_insert_id.
  by rewrite list_lookup_fmap, Hi.
Qed.

(** ** The promise *)
Definition is_complete (a : action) : bool := match a with Complete => true | _ => false end.
Definition completions (ths : list (list action)) : nat := sum_list_with (countb is_complete) ths.
(** The completions still to be made and the promise, if set, are one exactly when the
    call is complete. *)
Record promise_ok (s : ClientStreaming) (ths : list (list action)) (st : status) (p : option status) (cb : list status) : Prop := {
  p_once : completions ths + b2n (bool_decide (is_Some p)) = b2n (m_Complete s);
  p_value : p = Some st ∨ p = None;
  p_callback : cb = option_list p;
  p_done : m_Complete s = true → m_FinishDone s = true;
}.
Definition PromiseOk (c : config) : Prop := promise_ok (cl c) (threads c) (m_Status c) (m_Promise c) (completed c).
Definition Inv (c : config) : Prop := FiberClient.Inv (erase c) ∧ PromiseOk c.

Lemma completions_snoc ths a : completions (ths ++ [a]) = completions ths + countb is_complete a.
Proof. unfold completions. induction ths as [|b ths IH]; simpl; lia. Qed.
Lemma completions_insert ths (i : nat) a os : ths !! i = Some (a :: os) →
  completions (<[i := os]> ths) + b2n (is_complete a) = completions ths.
Proof. intros Hi. pose proof (sum_insert (countb is_complete) _ _ _ os Hi) as H. unfold completions. cbn in H. unfold b2n. lia. Qed.
Lemma no_completions (l : list op) : countb is_complete (Post <$> l) = 0.
Proof. by induction l. Qed.
(** [EvaluateState] decides the completion once. *)
Lemma evaluate_complete s : m_FinishDone (EvaluateState s).1 = m_FinishDone s ∧
  countb is_complete (EvaluateState s).2 + b2n (m_Complete s) = b2n (m_Complete (EvaluateState s).1) ∧
  (m_Complete (EvaluateState s).1 = true → m_Complete s = true ∨ m_FinishDone s = true).
Proof.
  unfold EvaluateState. destruct (is_state _ _); [by auto|].
  assert (m_FinishDone (ev_finish (ev_close (ev_write (ev_read (s, []))))).1 = m_FinishDone s ∧
    m_Complete (ev_finish (ev_close (ev_write (ev_read (s, []))))).1 = m_Complete s) as [<- <-].
  { unfold ev_finish, ev_close, ev_write, ev_read. by repeat case_match; simplify_eq/=. }
  destruct (ev_finish _) as [[n rn wn q b1 b2 b3 b4 b5 b6 b7 b8 b9] a]. unfold ev_complete. cbn.
  destruct b5, b6, b7, b8, b9; cbn; rewrite ?countb_app, ?no_completions; (split; [done|split; [done|auto]]).
Qed.
Lemma promise_evaluate s s0 ths st p cb : promise_ok s ths st p cb → m_Complete s0 = m_Complete s →
  (m_FinishDone s = true → m_FinishDone s0 = true) →
  promise_ok (EvaluateState s0).1 (ths ++ [(EvaluateState s0).2]) st p cb.
Proof.
  intros [P1 P2 P3 P4] Hc Hf. destruct (evaluate_complete s0) as (F & N & D). rewrite Hc in *.
  split; [rewrite completions_snoc; lia|done|done|]. rewrite F. intros [|]%D; auto.
Qed.
(** The status may still change while the call is not complete. *)
Lemma promise_status s ths st st' p cb : m_Complete s = false → promise_ok s ths st p cb → promise_ok s ths st' p cb.
Proof.
  intros Hc [P1 P2 P3 P4]. rewrite Hc in P1. split; auto; [by rewrite Hc|]. destruct p; [|by right]. cbn in P1. lia.
Qed.
Lemma not_complete c : Inv c → c_phase (the_call c) ∈ [Starting; Open; Finishing] → m_Complete (cl c) = false.
Proof.
  intros [HI HP] Hph. destruct (m_Complete (cl c)) eqn:E; [|done]. pose proof (p_done _ _ _ _ _ HP E) as HF.
  destruct HI as [[A1 _ _ (_ & _ & _ & _ & _ & _ & H)]|[[B1 _ _ _]|[[_ _ _ _ _ _ _ _ _ _ K11 _] _]]]; cbn in *; [congruence| |].
  - rewrite B1 in Hph. set_solver.
  - rewrite HF in K11. rewrite K11 in Hph. set_solver.
Qed.
Lemma promise_unset c : Inv c → m_Complete (cl c) = false → m_Promise c = None.
Proof. intros [_ [P1 _ _ _]] E. rewrite E in P1. destruct (m_Promise c); [cbn in P1; lia|done]. Qed.
Lemma start_Inv : Inv start.
Proof. split; [apply start_inv|]. by split; auto. Qed.

Lemma promise_main ok st c c' : Inv c → step c (EMain ok st) = Next c' → PromiseOk c'.
Proof.
  intros HI Hs. cbn in Hs. unfold run_main in Hs. destruct (c_phase (the_call c)) eqn:Ep; try done.
  - assert (m_Complete (cl c) = false) as Hc by (apply (not_complete _ HI); rewrite Ep; set_solver).
    pose proof (promise_unset _ HI Hc) as Hp. destruct HI as [_ HP]. destruct (m_NextState (cl c)); try done. destruct ok.
    + simplify_eq. unfold PromiseOk, StateStreamInitialized_fn. cbn [cl threads progress m_Status m_Promise completed]. by eapply promise_evaluate.
    + unfold set_value in Hs. cbn in Hs. rewrite Hp in Hs. simplify_eq/=. destruct HP as [P1 P2 P3 P4]. rewrite Hc, Hp in P1. rewrite Hp in P3.
      split; cbn; [rewrite completions_snoc; cbn in *; lia|by left|by rewrite P3|done].
  - assert (m_Complete (cl c) = false) as Hc by (apply (not_complete _ HI); rewrite Ep; set_solver).
    destruct HI as [_ HP]. destruct (m_NextState (cl c)); try done. simplify_eq. unfold PromiseOk, StateFinishDone_fn.
    cbn [cl threads progress m_Status m_Promise completed set_status]. eapply promise_evaluate; [by eapply promise_status|done|done].
Qed.
Lemma promise_post i c c' : Inv c → step c (EPost i) = Next c' → PromiseOk c'.
Proof.
  intros [_ [P1 P2 P3 P4]] Hs. cbn in Hs. unfold ForwardProgress in Hs. destruct (threads c !! i) as [[|a os]|] eqn:Hi; try done.
  pose proof (completions_insert _ _ _ _ Hi) as Hsum. destruct a as [o|]; cbn [is_complete b2n] in Hsum.
  - destruct (post o (the_call c)) as [k|]; [|done]. cbn in Hs.
    destruct o; [|destruct (m_WriteQueue (cl c)); [done|]|..]; simplify_eq; (split; [cbn [threads cl m_Promise]; lia|done|done|done]).
  - unfold set_value in Hs. cbn in Hs. destruct (m_Promise c); [done|]. simplify_eq.
    split; [cbn [threads cl m_Promise CallbackOnComplete]; cbn in P1 |- *; lia|by left|cbn; by rewrite P3|done].
Qed.
Lemma promise_kept c e c' : Inv c → step c e = Next c' → PromiseOk c'.
Proof.
  intros HI Hs. pose proof HI as [_ HP]. destruct e as [r| | |i|ok st|r|ok]; [..|by eapply promise_post|by eapply promise_main| |].
  - cbn in Hs. unfold Write in Hs. destruct (m_WritesDone (cl c)); simplify_eq; [done|]. by eapply promise_evaluate.
  - cbn in Hs. unfold Done in Hs. destruct (m_WritesDone (cl c)); simplify_eq; [done|]. by eapply promise_evaluate.
  - cbn in Hs. simplify_eq. destruct HP. by split.
  - cbn in Hs. unfold run_read in Hs. destruct (c_read (the_call c)); [destruct (is_state _ _)|]; simplify_eq. by eapply promise_evaluate.
  - cbn in Hs. unfold run_write in Hs. destruct (c_write (the_call c)); [|done]. destruct (m_WriteNextState (cl c)); simplify_eq.
    + unfold StateWriteDone_fn in Hs. destruct ok; [destruct (m_WriteQueue (cl c)); [done|]|]; cbn in Hs; simplify_eq; by eapply promise_evaluate.
    + by eapply promise_evaluate.
Qed.
(** A completion to be made means that the promise is still to be set. *)
Lemma completes_unset c e : Inv c → completes c e = true → m_Promise c = None.
Proof.
  intros [_ [P1 _ _ _]] Hc. destruct e as [| | |i| | |]; try done. cbn in Hc. destruct (threads c !! i) as [[|[o|] os]|] eqn:Hi; try done.
  pose proof (completions_insert _ _ _ _ Hi) as Hsum. cbn [is_complete b2n] in Hsum.
  destruct (m_Promise c); [|done]. cbn in P1. destruct (m_Complete (cl c)); cbn in P1; lia.
Qed.
(** One step: it never faults, keeps the invariant, and is a step of the fiber client
    or leaves its state alone. *)
Lemma v2_step c e : Inv c →
  match step c e with
  | Next c' => Inv c' ∧ (erase c' = erase c ∨ FiberClient.step (erase c) (erase_event e) = Next (erase c'))
  | Fault _ => False
  | Disabled => FiberClient.step (erase c) (erase_event e) = Disabled
  end.
Proof.
  intros HI. destruct (completes c e) eqn:Ec.
  - destruct (v2_step_complete c e Ec (completes_unset c e HI Ec)) as (c' & Hs & He). rewrite Hs. split; [|by left].
    split; [rewrite He; apply HI|by eapply promise_kept].
  - assert (c_phase (the_call c) = Starting → m_Promise c = None) as Hp.
    { intros Hph. apply (promise_unset _ HI), (not_complete _ HI). rewrite Hph. set_solver. }
    pose proof (v2_step_erase c e Ec Hp) as He. destruct HI as [HF HP]. pose proof (client_kept _ (erase_event e) HF) as Hk. rewrite He in Hk.
    destruct (step c e) as [| |c'] eqn:Hs; cbn [outcome_bind] in He, Hk; [done|done|]. split; [|by right].
    split; [done|]. by apply (promise_kept c e).
Qed.
Lemma v2_run es c : Inv c →
  match run step c es with
  | Next c' => Inv c' ∧ ∃ es', es' `sublist_of` (erase_event <$> es) ∧ run FiberClient.step (erase c) es' = Next (erase c')
  | Fault _ => False
  | Disabled => True
  end.
Proof.
  revert c. induction es as [|e es IH]; intros c HI; [split; [done|]; by exists []|]. cbn. pose proof (v2_step c e HI) as H.
  destruct (step c e) as [| |c1]; cbn; [done|done|]. destruct H as [HI1 H1]. specialize (IH c1 HI1).
  destruct (run step c1 es) as [| |c']; [done|done|]. destruct IH as (HI' & es' & Hsub & Hr). split; [done|].
  destruct H1 as [He|He]; [rewrite He in Hr; exists es'; split; [by apply sublist_cons|done]|].
  exists (erase_event e :: es'). split; [by apply sublist_skip|]. cbn. by rewrite He.
Qed.
End client_v2.
Arguments event : clear implicits.
Arguments config : clear implicits.

(** ** What the client guarantees *)
(** The events of the completion queue and of the threads, not of the user. *)
Definition internal {Request Response status} (e : event Request Response status) : bool :=
  match e with UWrite _ | UDone | UCancel => false | _ => true end.

Section guarantees.
Context {Request Response status : Type} (OK CANCELLED : status).
Notation step := (step (Request := Request) (Response := Response) CANCELLED).
Notation start := (start (Request := Request) (Response := Response) OK).

(** C28: the client with a promise refines the fiber client.  Whatever the user does and
    however completions and threads interleave, a run never faults: it keeps the rules of
    the call, no handler runs in a state it is not for, and the promise is never set
    twice.  Without the promise, its state is one that the fiber client reaches by the
    same events, the completions left out. *)
Theorem v2_refines (es : list (event Request Response status)) :
  match run step start es with
  | Next c => ∃ es', es' `sublist_of` (erase_event <$> es) ∧ run FiberClient.step FiberClient.start es' = Next (erase c)
  | Fault _ => False
  | Disabled => True
  end.
Proof.
  pose proof (v2_run CANCELLED es start (start_Inv OK)) as H. destruct (run step start es); [done|done|]. by destruct H.
Qed.

(** C29: the future that [Status], [Done] and [Cancel] return is always completed: when no
    thread has anything to post and no completion is outstanding, the promise has been
    set, [CallbackOnComplete] has been called exactly once, and both were given the final
    status of the call. *)
Theorem v2_promise_kept (es : list (event Request Response status)) c : run step start es = Next c →
  (∀ e, internal e = true → step c e = Disabled) → m_Promise c = Some (m_Status c) ∧ completed c = [m_Status c].
Proof.
  intros Hr Hd. pose proof (v2_run CANCELLED es start (start_Inv OK)) as H. rewrite Hr in H. destruct H as [HI _].
  assert (m_Complete (cl c) = true) as Hc.
  { apply (client_quiet_complete (erase c)); [apply HI|]. intros e He. pose proof (v2_step CANCELLED c) as Hv.
    assert (∃ e' : event Request Response status, internal e' = true ∧ erase_event e' = e) as (e' & Hi & <-).
    { destruct e as [| | |i|ok|r|ok]; try done; [by exists (EPost i)|by exists (EMain ok OK)|by exists (ERead r)|by exists (EWriteDone ok)]. }
    specialize (Hv e' HI). by rewrite (Hd e' Hi) in Hv. }
  destruct HI as [_ [P1 P2 P3 P4]]. rewrite Hc in P1. assert (completions (threads c) = 0) as H0.
  { unfold completions. apply sum_zero. intros a Ha. apply list_elem_of_lookup in Ha as [i Hi]. specialize (Hd (EPost i) eq_refl). cbn in Hd.
    unfold ForwardProgress in Hd. rewrite Hi in Hd. destruct a as [|[o|] os]; [done| |].
    - destruct (post o (the_call c)); [|done]. destruct o; try done. cbn in Hd. by destruct (m_WriteQueue (cl c)).
    - unfold set_value in Hd. cbn in Hd. by destruct (m_Promise c). }
  rewrite H0 in P1. destruct P2 as [P2|P2]; rewrite P2 in *; [by rewrite P3|done].
Qed.
End guarantees.

(** A call with two requests, one response and an orderly end. *)
Definition v2_session : list (event nat nat nat) :=
  [UWrite 1; UWrite 2; EMain true 9; EPost 2; EPost 2; EWriteDone true; EPost 3; ERead (Some 7); EPost 4; UDone; EWriteDone true; EPost 6;
   EWriteDone true; ERead None; EPost 8; EMain true 5; EPost 9].
Definition v2_session_end : config nat nat nat :=
  Eval vm_compute in match run (step 1) (start 0) v2_session with Next c => c | _ => start 0 end.
Lemma v2_promise_kept_witness : run (step 1) (start 0) v2_session = Next v2_session_end ∧
  m_Promise v2_session_end = Some 5 ∧ completed v2_session_end = [5] ∧ sent v2_session_end = [1; 2].
Proof.
  assert (run (step 1) (start 0) v2_session = Next v2_session_end) as Hr by (vm_compute; reflexivity).
  split; [exact Hr|]. destruct (v2_promise_kept 0 1 v2_session v2_session_end Hr) as [H1 H2]; [|split; [exact H1|split; [exact H2|reflexivity]]].
  intros e He. clear Hr. destruct e as [r| | |i|ok st|r|ok]; try done. simpl. do 11 (destruct i as [|i]; [reflexivity|]). reflexivity.
Defined.
