(* ===== verification/ClientExecutor.v ===== *)
(** * The executor of the rpc clients

    Models [Executor] of [tools/nvrpc/include/nvrpc/client/executor.h] and
    [src/client/client_executor.cc]: a pool of threads, each with a completion queue and a
    progress engine that runs the context of every completion and deletes a context that
    is done; and the contexts that run on it, [ClientUnary] of [client/client_unary.h] and
    [v2::ClientUnary] of [client/client_unary_v2.h].

    A context is anything with the operations of [BaseContext] ([client/base_context.h]).
    The queues are those of gRPC: an operation posted with a tag comes back once, a queue
    that is shut down accepts no more operations, and [Next] returns false when such a
    queue is drained. *)
From S2P Require Import Prelude Grpc.

(** What a handler does: it returns, with its context and the shared state, having
    posted an operation under its tag or not; its user's callback throws; or it
    crashes. *)
Inductive ran (C S : Type) := Ran (c : C) (s : S) (posts : bool) (again : bool) | Threw (s : S) | Crashed (f : fault).
Arguments Ran {C S} c s posts again.
Arguments Threw {C S} s.
Arguments Crashed {C S} f.
(** [Rq]: what a call is made of; [Ev]: what gRPC stores before it completes an
    operation, with the [ok] of the completion; [S]: the promises of the callers. *)
Class BaseContext (Rq Ev C S : Type) : Type := {
  prepare : nat → Rq → S → C * S;                  (* the call that posts the first operation *)
  run_next_state : Ev → C → S → ran C S;
  ExecutorShouldDeleteContext : C → bool;
}.

(** ** The executor *)
Section executor.
Context {Rq Ev C S : Type} `{!BaseContext Rq Ev C S}.

Inductive engine := Running | Returned | Unwound.
#[export] Instance engine_eq_dec : EqDecision engine.
Proof. solve_decision. Defined.
Record Executor := mkExecutor {
  m_Counter : nat;
  m_CQs : list (list (nat * Ev));        (* the completions in each queue, by tag *)
  m_Shutdown : bool;
  pending : list (nat * nat);            (* the outstanding operations: queue and tag *)
  contexts : gmap nat C;                 (* the contexts that are not deleted, by tag *)
  engines : list engine;                 (* the progress engine of each queue *)
  submitted : list Rq;                   (* the calls; a call's tag is its position *)
  env : S;
  handled : list (nat * Ev);             (* the completions the engines have run *)
}.
(** One queue and one engine per thread of the pool. *)
Definition Executor_new (numThreads : nat) (s : S) : Executor :=
  mkExecutor 0 (replicate numThreads []) false [] ∅ (replicate numThreads Running) [] s [].
Definition next_index (counter size : nat) : nat := if Nat.eqb (1 + counter) size then 0 else 1 + counter.
Definition GetNextCQ (x : Executor) : Executor * nat :=
  let c := next_index (m_Counter x) (length (m_CQs x)) in
  (mkExecutor c (m_CQs x) (m_Shutdown x) (pending x) (contexts x) (engines x) (submitted x) (env x) (handled x), c).
(** The shutdown of every queue; the join waits for the engines. *)
Definition ShutdownAndJoin (x : Executor) : Executor :=
  mkExecutor (m_Counter x) (m_CQs x) true (pending x) (contexts x) (engines x) (submitted x) (env x) (handled x).
Definition joined (x : Executor) : bool := forallb (λ e, negb (bool_decide (e = Running))) (engines x).

(** A call: a new context, a queue, and the operation it posts. *)
Definition submit (r : Rq) (x : Executor) : outcome Executor :=
  if m_Shutdown x then Fault GrpcMisuse
  else
    let '(x, q) := GetNextCQ x in
    let t := length (submitted x) in
    let '(c, s) := prepare t r (env x) in
    Next (mkExecutor (m_Counter x) (m_CQs x) (m_Shutdown x) (pending x ++ [(q, t)]) (<[t := c]> (contexts x)) (engines x) (submitted x ++ [r]) s (handled x)).
(** gRPC completes an outstanding operation. *)
Definition complete (i : nat) (ev : Ev) (x : Executor) : outcome Executor :=
  match pending x !! i with
  | Some (q, t) =>
      match m_CQs x !! q with
      | Some l => Next (mkExecutor (m_Counter x) (<[q := l ++ [(t, ev)]]> (m_CQs x)) (m_Shutdown x) (delete i (pending x)) (contexts x) (engines x) (submitted x) (env x) (handled x))
      | None => Disabled
      end
  | None => Disabled
  end.
(** One turn of the loop of engine [i]. *)
Definition ProgressEngine (i : nat) (x : Executor) : outcome Executor :=
  match engines x !! i, m_CQs x !! i with
  | Some Running, Some ((t, ev) :: l) =>
      match contexts x !! t with
      | None => Fault UseAfterFree
      | Some ctx =>
          let should_delete := ExecutorShouldDeleteContext ctx in
          let cqs := <[i := l]> (m_CQs x) in
          match run_next_state ev ctx (env x) with
          | Ran ctx' s posts again =>
              if posts && m_Shutdown x then Fault GrpcMisuse
              else Next (mkExecutor (m_Counter x) cqs (m_Shutdown x) (if posts then pending x ++ [(i, t)] else pending x)
                     (if negb again && should_delete then delete t (contexts x) else <[t := ctx']> (contexts x))
                     (engines x) (submitted x) s (handled x ++ [(t, ev)]))
          | Threw s => Next (mkExecutor (m_Counter x) cqs (m_Shutdown x) (pending x) (contexts x) (<[i := Unwound]> (engines x)) (submitted x) s (handled x ++ [(t, ev)]))
          | Crashed f => Fault f
          end
      end
  | Some Running, Some [] =>
      if m_Shutdown x && forallb (λ p, negb (Nat.eqb p.1 i)) (pending x)
      then Next (mkExecutor (m_Counter x) (m_CQs x) (m_Shutdown x) (pending x) (contexts x) (<[i := Returned]> (engines x)) (submitted x) (env x) (handled x))
      else Disabled
  | _, _ => Disabled
  end.
Inductive event := XSubmit (r : Rq) | XComplete (i : nat) (ev : Ev) | XEngine (i : nat) | XShutdown.
Definition step (x : Executor) (e : event) : outcome Executor :=
  match e with
  | XSubmit r => submit r x
  | XComplete i ev => complete i ev x
  | XEngine i => ProgressEngine i x
  | XShutdown => Next (ShutdownAndJoin x)
  end.
(** The user calls nothing on an executor that is shut down. *)
Definition before_shutdown (x : Executor) (e : event) : bool := match e with XSubmit _ => negb (m_Shutdown x) | _ => true end.
Definition internal (e : event) : bool := match e with XComplete _ _ | XEngine _ => true | _ => false end.

(** *** Round robin *)
(** The queues of the next [k] calls. *)
Fixpoint next_cqs (k : nat) (x : Executor) : list nat :=
  match k with 0 => [] | Datatypes.S k => let '(x, q) := GetNextCQ x in q :: next_cqs k x end.
Lemma next_index_mod c n : c < n → next_index c n = (1 + c) mod n.
Proof.
  intros H. unfold next_index. destruct (Nat.eqb_spec (1 + c) n) as [E|E]; [rewrite E; symmetry; apply Nat.Div0.mod_same|].
  symmetry. apply Nat.mod_small. lia.
Qed.
Lemma next_cqs_lookup k x (j : nat) : m_Counter x < length (m_CQs x) → j < k → next_cqs k x !! j = Some ((1 + j + m_Counter x) mod length (m_CQs x)).
Proof.
  revert x j. induction k as [|k IH]; intros x j Hc Hj; [lia|]. cbn -[next_index Nat.modulo]. pose proof (next_index_mod _ _ Hc) as Hm. destruct j as [|j].
  - cbn -[next_index Nat.modulo]. by rewrite Hm.
  - cbn -[next_index Nat.modulo]. rewrite IH; [|cbn -[next_index]; rewrite Hm; apply Nat.mod_upper_bound; lia|lia]. cbn -[next_index Nat.modulo].
    rewrite Hm, <-Nat.add_succ_l, Nat.Div0.add_mod_idemp_r. do 2 f_equal. lia.
Qed.
Lemma next_cqs_length k x : length (next_cqs k x) = k.
Proof. revert x. induction k as [|k IH]; intros x; cbn -[next_index]; [done|]. by rewrite IH. Qed.
(** The calls are spread evenly: [n] consecutive calls use each of the [n] queues
    exactly once, wherever the counter is. *)
Lemma round_robin x : m_Counter x < length (m_CQs x) → next_cqs (length (m_CQs x)) x ≡ₚ seq 0 (length (m_CQs x)).
Proof.
  intros Hc. set (n := length (m_CQs x)) in *. assert (NoDup (next_cqs n x)) as Hn.
  { apply NoDup_alt. intros i j q Hi Hj. pose proof (lookup_lt_Some _ _ _ Hi) as Hil. pose proof (lookup_lt_Some _ _ _ Hj) as Hjl. rewrite next_cqs_length in Hil, Hjl.
    rewrite next_cqs_lookup in Hi by done. rewrite next_cqs_lookup in Hj by done. fold n in Hi, Hj. apply (f_equal (default 0)) in Hi, Hj. cbn -[Nat.modulo] in Hi, Hj.
    pose proof (Nat.div_mod_eq (1 + i + m_Counter x) n) as Ha. pose proof (Nat.div_mod_eq (1 + j + m_Counter x) n) as Hb. cbn -[Nat.modulo Nat.div] in Ha, Hb. rewrite Hi in Ha. rewrite Hj in Hb.
    clear -Ha Hb Hil Hjl. generalize dependent (Datatypes.S (i + m_Counter x) `div` n). generalize dependent (Datatypes.S (j + m_Counter x) `div` n). intros a Ha b Hb.
    destruct (Nat.lt_trichotomy a b) as [?|[->|?]]; nia. }
  apply submseteq_length_Permutation; [|by rewrite next_cqs_length, length_seq]. apply NoDup_submseteq; [done|].
  intros q Hq. apply list_elem_of_lookup in Hq as [i Hi]. pose proof (lookup_lt_Some _ _ _ Hi) as Hil. rewrite next_cqs_length in Hil.
  rewrite next_cqs_lookup in Hi by done. simplify_eq. apply elem_of_seq. fold n. pose proof (Nat.mod_upper_bound (1 + i + m_Counter x) n). lia.
Qed.

(** *** An engine that was unwound *)
(** The task of the pool keeps the exception to itself; nothing takes from the queue of
    that engine any more. *)
Lemma unwound_step x e x' (i : nat) l : step x e = Next x' → engines x !! i = Some Unwound → m_CQs x !! i = Some l →
  engines x' !! i = Some Unwound ∧ ∃ l', m_CQs x' !! i = Some l' ∧ l `prefix_of` l'.
Proof.
  intros Hs He Hl. assert (∀ x0 : Executor, m_CQs x0 = m_CQs x → engines x0 = engines x → engines x0 !! i = Some Unwound ∧ ∃ l', m_CQs x0 !! i = Some l' ∧ l `prefix_of` l') as Hsame.
  { intros x0 -> ->. split; [done|]. by exists l. }
  destruct e as [r|j ev|j|]; cbn -[next_index] in Hs.
  - unfold submit in Hs. destruct (m_Shutdown x); [done|]. cbn -[next_index] in Hs. destruct (prepare _ _ _). simplify_eq. by apply Hsame.
  - unfold complete in Hs. destruct (pending x !! j) as [[q t]|]; [|done]. destruct (m_CQs x !! q) as [lq|] eqn:Eq; [|done]. simplify_eq. cbn. split; [done|].
    destruct (decide (q = i)) as [->|Hn]; [|rewrite list_lookup_insert_ne by done; by exists l]. simplify_eq.
    rewrite list_lookup_insert_eq by (by eapply lookup_lt_Some). eexists. split; [done|]. by apply prefix_app_r.
  - assert (j = i → False) as Hn by (intros ->; unfold ProgressEngine in Hs; by rewrite He in Hs).
    assert (∀ x0 : Executor, m_CQs x0 !! i = m_CQs x !! i → engines x0 !! i = engines x !! i → engines x0 !! i = Some Unwound ∧ ∃ l', m_CQs x0 !! i = Some l' ∧ l `prefix_of` l') as Hs2.
    { intros x0 -> ->. split; [done|]. by exists l. }
    unfold ProgressEngine in Hs. destruct (engines x !! j) as [[]|]; try done. destruct (m_CQs x !! j) as [[|[t ev] lj]|]; [destruct (_ && _); [|done]| |done].
    + simplify_eq. apply Hs2; cbn; [done|]. by rewrite list_lookup_insert_ne.
    + destruct (contexts x !! t); [|done]. destruct (run_next_state _ _ _) as [? ? [] ?|s|]; [destruct (m_Shutdown x); [done|]| | |done]; cbn in Hs; simplify_eq;
        apply Hs2; cbn; by rewrite ?list_lookup_insert_ne.
  - simplify_eq. by apply Hsame.
Qed.
(** The calls that wait in its queue are never answered, whatever happens later. *)
Lemma unwound_strands es x x' (i : nat) l : run step x es = Next x' → engines x !! i = Some Unwound → m_CQs x !! i = Some l →
  engines x' !! i = Some Unwound ∧ ∃ l', m_CQs x' !! i = Some l' ∧ l `prefix_of` l'.
Proof.
  revert x l. induction es as [|e es IH]; intros x l Hr He Hl; cbn in Hr; [simplify_eq; split; [done|]; by exists l|].
  destruct (step x e) as [| |x1] eqn:Es; try done. cbn in Hr. destruct (unwound_step x e x1 i l Es He Hl) as (He1 & l1 & Hl1 & Hp1).
  destruct (IH x1 l1 Hr He1 Hl1) as (He2 & l2 & Hl2 & Hp2). split; [done|]. exists l2. split; [done|]. by etrans.
Qed.

(** *** No context is used after it is deleted *)
Definition queued (cqs : list (list (nat * Ev))) : list nat := concat ((λ l, l.*1) <$> cqs).
(** The tags of the operations that gRPC has not handed back yet. *)
Definition tags (x : Executor) : list nat := (pending x).*2 ++ queued (m_CQs x).
Record exec_ok (x : Executor) : Prop := {
  e_once : NoDup (tags x);
  e_live : ∀ t, t ∈ tags x → is_Some (contexts x !! t);
  e_dom : ∀ t, is_Some (contexts x !! t) → t < length (submitted x);
  e_pending : ∀ q t, (q, t) ∈ pending x → q < length (m_CQs x);
  e_engines : length (engines x) = length (m_CQs x);
  e_counter : m_Counter x < length (m_CQs x);
}.
Lemma queued_insert cqs (q : nat) l l' : cqs !! q = Some l → queued (<[q := l']> cqs) ++ l.*1 ≡ₚ queued cqs ++ l'.*1.
Proof.
  unfold queued. revert q. induction cqs as [|m cqs IH]; intros [|q] H; cbn in *; simplify_eq.
  - solve_Permutation.
  - rewrite <-!app_assoc. by rewrite IH.
Qed.
Lemma tags_pop x (i : nat) t ev l : m_CQs x !! i = Some ((t, ev) :: l) →
  tags x ≡ₚ t :: (pending x).*2 ++ queued (<[i := l]> (m_CQs x)).
Proof.
  intros H. pose proof (queued_insert _ _ _ l H) as Hp. cbn in Hp. unfold tags.
  assert (queued (m_CQs x) ≡ₚ t :: queued (<[i:=l]> (m_CQs x))) as ->; [|solve_Permutation].
  apply (inj (.++ l.*1)). rewrite <-Hp. solve_Permutation.
Qed.
Lemma tags_complete x (i q t : nat) ev l : pending x !! i = Some (q, t) → m_CQs x !! q = Some l →
  tags x ≡ₚ (delete i (pending x)).*2 ++ queued (<[q := l ++ [(t, ev)]]> (m_CQs x)).
Proof.
  intros Hi Hq. pose proof (queued_insert _ _ _ (l ++ [(t, ev)]) Hq) as Hp. rewrite fmap_app in Hp. cbn in Hp. unfold tags.
  rewrite (delete_Permutation (pending x) i (q, t)) at 1 by done. cbn.
  assert (queued (<[q:=l ++ [(t, ev)]]> (m_CQs x)) ≡ₚ t :: queued (m_CQs x)) as ->; [|solve_Permutation].
  apply (inj (.++ l.*1)). rewrite Hp. solve_Permutation.
Qed.
Lemma queue_live x (i : nat) t ev l : exec_ok x → m_CQs x !! i = Some ((t, ev) :: l) → is_Some (contexts x !! t).
Proof. intros [_ H _ _ _ _] Hi. apply H. rewrite (tags_pop x i t ev l Hi). by left. Qed.
Lemma new_ok n s : 0 < n → exec_ok (Executor_new n s).
Proof.
  intros Hn. assert (tags (Executor_new n s) = []) as Ht.
  { unfold tags, queued. cbn. induction n; [done|]. cbn. destruct n; [done|]. apply IHn. lia. }
  split; [rewrite Ht; constructor|rewrite Ht; set_solver|cbn; by intros t [c ?]|cbn; set_solver|cbn; by rewrite !length_replicate|cbn; by rewrite length_replicate].
Qed.
Lemma next_index_lt c n : c < n → next_index c n < n.
Proof. intros H. unfold next_index. destruct (Nat.eqb_spec (1 + c) n); lia. Qed.
Lemma submit_ok r x x' : exec_ok x → submit r x = Next x' → exec_ok x'.
Proof.
  intros [E1 E2 E3 E4 E5 E6] Hs. unfold submit in Hs. destruct (m_Shutdown x); [done|].
  cbn -[next_index] in Hs. destruct (prepare _ r (env x)) as [c s]. simplify_eq. set (t := length (submitted x)) in *.
  assert (t ∉ tags x) as Hf by (intros Ht%E2%E3; lia).
  pose proof (next_index_lt _ _ E6) as Hk. set (k := next_index _ _) in *. clearbody k. split; [|unfold tags in *; cbn..]; auto.
  - change (NoDup ((pending x ++ [(k, t)]).*2 ++ queued (m_CQs x))). assert ((pending x ++ [(k, t)]).*2 ++ queued (m_CQs x) ≡ₚ t :: tags x) as -> by (unfold tags; rewrite fmap_app; cbn; solve_Permutation). by constructor.
  - intros t' Ht'. destruct (decide (t' = t)) as [->|Hn]; [by rewrite lookup_insert_eq|]. rewrite lookup_insert_ne by done. apply E2. unfold tags in *. cbn in Ht'. set_solver.
  - intros t' Ht'. rewrite length_app. cbn. destruct (decide (t' = t)) as [->|Hn]; [unfold t; lia|]. rewrite lookup_insert_ne in Ht' by done. apply E3 in Ht'. lia.
  - intros q t' [H|H]%elem_of_app; [by eapply E4|]. apply list_elem_of_singleton in H. by simplify_eq.
Qed.
Lemma complete_ok i ev x x' : exec_ok x → complete i ev x = Next x' → exec_ok x'.
Proof.
  intros [E1 E2 E3 E4 E5 E6] Hs. unfold complete in Hs. destruct (pending x !! i) as [[q t]|] eqn:Hi; [|done].
  destruct (m_CQs x !! q) as [l|] eqn:Hq; [|done]. simplify_eq. pose proof (tags_complete x i q t ev l Hi Hq) as Hp.
  split; cbn; rewrite ?length_insert; auto.
  - unfold tags. cbn. by rewrite <-Hp.
  - intros t'. unfold tags. cbn. rewrite <-Hp. apply E2.
  - intros q' t' H. apply (E4 q' t'). rewrite (delete_Permutation (pending x) i (q, t)) by done. by right.
Qed.
(** A context that is deleted has posted nothing. *)
Section deleting.
Context (deleted_quiet : ∀ ev c s c' s', run_next_state ev c s = Ran c' s' true false → ExecutorShouldDeleteContext c = false).
Lemma engine_ok i x x' : exec_ok x → ProgressEngine i x = Next x' → exec_ok x'.
Proof.
  intros HE Hs. pose proof HE as [E1 E2 E3 E4 E5 E6]. unfold ProgressEngine in Hs. destruct (engines x !! i) as [[]|]; try done.
  destruct (m_CQs x !! i) as [[|[t ev] l]|] eqn:Hi; [..|done].
  { destruct (_ && _); [|done]. simplify_eq. split; cbn; rewrite ?length_insert; auto. }
  pose proof (tags_pop x i t ev l Hi) as Hp. assert (i < length (m_CQs x)) as Hil by (by eapply lookup_lt_Some).
  destruct (queue_live x i t ev l HE Hi) as [ctx Hc]. rewrite Hc in Hs.
  assert (t ∉ (pending x).*2 ++ queued (<[i:=l]> (m_CQs x))) as Hnt by (rewrite Hp in E1; by inversion E1).
  destruct (run_next_state ev ctx (env x)) as [ctx' s posts again|s|] eqn:Hr; [|simplify_eq|done].
  - destruct (posts && m_Shutdown x); [done|]. simplify_eq. split; cbn; rewrite ?length_insert; auto.
    + unfold tags. cbn. rewrite Hp in E1. destruct posts; [|by inversion E1].
      rewrite fmap_app, <-app_assoc. cbn. by rewrite <-Permutation_middle.
    + intros t' Ht'. unfold tags in Ht'. cbn in Ht'. destruct (decide (t' = t)) as [->|Hn].
      * destruct posts; [|set_solver]. destruct (negb again && _) eqn:Ea; [|by rewrite lookup_insert_eq].
        apply andb_prop in Ea as [->%negb_true_iff Hd]. rewrite (deleted_quiet _ _ _ _ _ Hr) in Hd. done.
      * assert (is_Some (contexts x !! t')) as H by (apply E2; rewrite Hp; right; destruct posts; set_solver).
        destruct (_ && _); [by rewrite lookup_delete_ne by done|by rewrite lookup_insert_ne by done].
    + intros t' Ht'. apply E3. destruct (decide (t' = t)) as [->|Hn]; [done|].
      destruct (_ && _); [by rewrite lookup_delete_ne in Ht' by done|by rewrite lookup_insert_ne in Ht' by done].
    + intros q' t' H. destruct posts; [|by eapply E4]. apply elem_of_app in H as [H|H]; [by eapply E4|]. apply list_elem_of_singleton in H. by simplify_eq.
  - split; cbn; rewrite ?length_insert; auto; unfold tags; cbn.
    + rewrite Hp in E1. by inversion E1.
    + intros t' Ht'. apply E2. rewrite Hp. by right.
Qed.
Lemma exec_step_ok x e x' : exec_ok x → step x e = Next x' → exec_ok x'.
Proof.
  destruct e as [r|i ev|i|]; cbn; [apply submit_ok|apply complete_ok|apply engine_ok|]. intros [E1 E2 E3 E4 E5 E6] Hs. simplify_eq. by split.
Qed.
End deleting.

(** *** Contexts that post a single operation *)
Section one_shot.
Context (one_shot : ∀ ev c s c' s' posts again, run_next_state ev c s = Ran c' s' posts again →
  posts = false ∧ again = false ∧ ExecutorShouldDeleteContext c' = ExecutorShouldDeleteContext c).
(** Every call is outstanding, in a queue, or handled; an engine that has returned has
    left nothing in its queue; a context is deleted when its handler has returned. *)
Record shot_ok (x : Executor) : Prop := {
  s_all : tags x ++ (handled x).*1 ≡ₚ seq 0 (length (submitted x));
  s_returned : ∀ i : nat, engines x !! i = Some Returned → m_Shutdown x = true ∧ m_CQs x !! i = Some [] ∧ ∀ t, (i, t) ∉ pending x;
  s_deleted : ∀ t c, contexts x !! t = Some c → ExecutorShouldDeleteContext c = true → t ∈ tags x ∨ Unwound ∈ engines x;
}.
Lemma shot_new n s : shot_ok (Executor_new n s).
Proof.
  split; cbn.
  - unfold tags, queued. cbn. rewrite app_nil_r. by induction n.
  - intros i H. by apply lookup_replicate in H as [? _].
  - intros t c H. by rewrite lookup_empty in H.
Qed.
Lemma shot_submit r x x' : exec_ok x → shot_ok x → submit r x = Next x' → shot_ok x'.
Proof.
  intros _ [S1 S2 S3] Hs. unfold submit in Hs. destruct (m_Shutdown x) eqn:Esh; [done|].
  cbn -[next_index] in Hs. destruct (prepare _ r (env x)) as [c s]. simplify_eq. split; cbn.
  - rewrite length_app, seq_app. cbn [length seq]. etrans; [|apply Permutation_app_tail, S1]. unfold tags. cbn [pending m_CQs]. rewrite fmap_app. cbn [fmap list_fmap snd].
    solve_Permutation.
  - intros i Hi. destruct (S2 i Hi). congruence.
  - clear S1 S2. intros t c' Ht Hd. unfold tags in *. cbn [pending m_CQs]. rewrite fmap_app, !elem_of_app. cbn [fmap list_fmap snd]. rewrite list_elem_of_singleton.
    destruct (decide (t = length (submitted x))) as [->|Hn]; [by left; left; right|].
    rewrite lookup_insert_ne in Ht by done. destruct (S3 t c' Ht Hd) as [[H|H]%elem_of_app|]; [by left; left; left|by left; right|by right].
Qed.
Lemma shot_complete i ev x x' : exec_ok x → shot_ok x → complete i ev x = Next x' → shot_ok x'.
Proof.
  intros _ [S1 S2 S3] Hs. unfold complete in Hs. destruct (pending x !! i) as [[q t]|] eqn:Hi; [|done].
  destruct (m_CQs x !! q) as [l|] eqn:Hq; [|done]. simplify_eq. pose proof (tags_complete x i q t ev l Hi Hq) as Hp.
  split; cbn.
  - etrans; [|exact S1]. apply Permutation_app_tail. symmetry. exact Hp.
  - intros j Hj. destruct (S2 j Hj) as (H1 & H2 & H3). split; [done|]. assert (j ≠ q) as Hn by (intros ->; apply (H3 t); apply list_elem_of_lookup; by exists i).
    rewrite list_lookup_insert_ne by done. split; [done|]. intros t' H. apply (H3 t'). rewrite (delete_Permutation (pending x) i (q, t)) by done. by right.
  - intros t' c' Ht' Hd. destruct (S3 t' c' Ht' Hd) as [H|]; [left|by right]. rewrite Hp in H. exact H.
Qed.
Lemma shot_engine i x x' : exec_ok x → shot_ok x → ProgressEngine i x = Next x' → shot_ok x'.
Proof.
  intros HE [S1 S2 S3] Hs. unfold ProgressEngine in Hs. destruct (engines x !! i) as [[]|] eqn:Hei; try done.
  destruct (m_CQs x !! i) as [[|[t ev] l]|] eqn:Hi; [..|done].
  { destruct (m_Shutdown x) eqn:Esh; [|done]. destruct (forallb _ _) eqn:Ef; [|done]. cbn in Hs. simplify_eq. split; cbn; [exact S1| |].
    - intros j. destruct (decide (j = i)) as [->|Hn]; [|rewrite list_lookup_insert_ne by done; apply S2]. intros _. split; [done|]. split; [done|].
      intros t Ht. rewrite forallb_forall in Ef. apply list_elem_of_In, Ef in Ht. cbn in Ht. by rewrite Nat.eqb_refl in Ht.
    - intros t c Ht Hd. destruct (S3 t c Ht Hd) as [H|H]; [left; exact H|right]. apply list_elem_of_lookup in H as [j Hj]. apply list_elem_of_lookup. exists j.
      rewrite list_lookup_insert_ne; [done|]. intros ->. congruence. }
  pose proof (tags_pop x i t ev l Hi) as Hp. destruct (queue_live x i t ev l HE Hi) as [ctx Hc]. rewrite Hc in Hs.
  assert (∀ j : nat, j ≠ i → engines x !! j = Some Returned → m_Shutdown x = true ∧ <[i := l]> (m_CQs x) !! j = Some [] ∧ ∀ t, (j, t) ∉ pending x) as Hret
    by (intros j Hn Hj; rewrite list_lookup_insert_ne by done; by apply S2).
  destruct (run_next_state ev ctx (env x)) as [ctx' s posts again|s|] eqn:Hr; [|simplify_eq|done].
  - destruct (one_shot _ _ _ _ _ _ _ Hr) as (-> & -> & Hsd). cbn in Hs. simplify_eq. split; cbn.
    + etrans; [|exact S1]. etrans; [|apply Permutation_app_tail; symmetry; exact Hp]. unfold tags. cbn [pending m_CQs]. rewrite fmap_app. cbn [fmap list_fmap fst].
      solve_Permutation.
    + intros j Hj. apply Hret; [|done]. intros ->. congruence.
    + intros t' c' Ht' Hd. destruct (decide (t' = t)) as [->|Hn].
      { destruct (ExecutorShouldDeleteContext ctx) eqn:Ed; [by rewrite lookup_delete_eq in Ht'|]. rewrite lookup_insert_eq in Ht'. simplify_eq. congruence. }
      assert (contexts x !! t' = Some c') as Hc' by (destruct (ExecutorShouldDeleteContext ctx); [by rewrite lookup_delete_ne in Ht'|by rewrite lookup_insert_ne in Ht']).
      destruct (S3 t' c' Hc' Hd) as [H|]; [left|by right]. rewrite Hp in H. apply elem_of_cons in H as [->|H]; done.
  - assert (i < length (engines x)) as Hlt by (by eapply lookup_lt_Some). split; cbn.
    + etrans; [|exact S1]. etrans; [|apply Permutation_app_tail; symmetry; exact Hp]. unfold tags. cbn [pending m_CQs]. rewrite fmap_app. cbn [fmap list_fmap fst].
      solve_Permutation.
    + intros j Hj. destruct (decide (j = i)) as [->|Hn]; [by rewrite list_lookup_insert_eq in Hj|]. rewrite list_lookup_insert_ne in Hj by done. by apply Hret.
    + intros t' c' _ _. right. apply list_elem_of_lookup. exists i. by rewrite list_lookup_insert_eq.
Qed.
Lemma one_shot_quiet ev c s c' s' : run_next_state ev c s = Ran c' s' true false → ExecutorShouldDeleteContext c = false.
Proof. by intros [? _]%one_shot. Qed.
Lemma shot_step x e x' : exec_ok x → shot_ok x → step x e = Next x' → exec_ok x' ∧ shot_ok x'.
Proof.
  intros HE HS Hs. split; [by apply (exec_step_ok one_shot_quiet x e)|].
  destruct e as [r|i ev|i|]; cbn in Hs; [by eapply shot_submit|by eapply shot_complete|by eapply shot_engine|].
  simplify_eq. destruct HS as [S1 S2 S3]. split; cbn; [exact S1| |exact S3]. intros i Hi. by destruct (S2 i Hi) as [_ ?].
Qed.
(** With nothing outstanding and nothing to run, every call has been handled once. *)
Definition idle (x : Executor) : Prop := ∀ e, internal e = true → step x e = Disabled.
Lemma idle_tags x : (∃ ev : Ev, True) → exec_ok x → shot_ok x → Unwound ∉ engines x → idle x → tags x = [].
Proof.
  clear one_shot. intros [ev _] [E1 E2 E3 E4 E5 E6] [S1 S2 S3] Hu Hq. assert (pending x = []) as Hp.
  { destruct (pending x) as [|[q t] l] eqn:Ep; [done|]. specialize (Hq (XComplete 0 ev) eq_refl). cbn in Hq. unfold complete in Hq. rewrite Ep in Hq. cbn in Hq.
    destruct (m_CQs x !! q) eqn:Eq; [done|]. apply lookup_ge_None in Eq. specialize (E4 q t ltac:(by left)). lia. }
  assert (∀ l, l ∈ m_CQs x → l = []) as Hl.
  { intros l Hl. apply list_elem_of_lookup in Hl as [i Hi]. specialize (Hq (XEngine i) eq_refl). cbn in Hq. unfold ProgressEngine in Hq. rewrite Hi in Hq.
    destruct (engines x !! i) as [[]|] eqn:Ei.
    - destruct l as [|[t ev'] l]; [done|]. destruct (contexts x !! t); [|done]. destruct (run_next_state _ _ _) as [? ? p ?| |]; [|done|done]. by destruct (p && _).
    - destruct (S2 i Ei) as (_ & ? & _). congruence.
    - exfalso. apply Hu. apply list_elem_of_lookup. by exists i.
    - apply lookup_ge_None in Ei. apply lookup_lt_Some in Hi. lia. }
  unfold tags, queued. rewrite Hp. cbn. clear -Hl. induction (m_CQs x) as [|l cqs IH]; [done|]. cbn. rewrite (Hl l) by left. cbn. apply IH. intros l' H. apply Hl. by right.
Qed.
Lemma idle_joined x : shot_ok x → exec_ok x → m_Shutdown x = true → idle x → tags x = [] → joined x = true.
Proof.
  clear one_shot. intros [S1 S2 S3] [E1 E2 E3 E4 E5 E6] Hsh Hq Ht. apply forallb_forall. intros en Hin. apply list_elem_of_In, list_elem_of_lookup in Hin as [i Hi].
  destruct en; [|done|done]. specialize (Hq (XEngine i) eq_refl). cbn in Hq. unfold ProgressEngine in Hq. rewrite Hi in Hq. apply app_eq_nil in Ht as [Hp%fmap_nil_inv Hqd].
  destruct (m_CQs x !! i) as [l|] eqn:Ei; [|apply lookup_ge_None in Ei; apply lookup_lt_Some in Hi; lia].
  destruct l as [|[t ev] l]; [rewrite Hsh, Hp in Hq; done|]. exfalso.
  assert (t ∈ queued (m_CQs x)) as H; [|rewrite Hqd in H; set_solver]. pose proof (tags_pop x i t ev l Ei) as Hpp. unfold tags in Hpp. rewrite Hp in Hpp. cbn in Hpp. rewrite Hpp. by left.
Qed.
End one_shot.
End executor.
Arguments Executor : clear implicits.
Arguments event : clear implicits.

(** ** Calls with a slot each *)
(** A context that answers one call touches only that call's slot of the shared state:
    [init] when the call is made, [answer r ev] when its completion [ev] was handled. *)
Section slots.
Context {Rq Ev C V : Type} `{!BaseContext Rq Ev C (gmap nat V)}.
Context (init : V) (answer : Rq → Ev → V) (throws : Rq → Ev → bool) (context : nat → Rq → C).
Class SlotContext : Prop := {
  slot_prepare : ∀ t r s, prepare t r s = (context t r, <[t := init]> s);
  slot_run : ∀ t r ev s, s !! t = Some init →
    if throws r ev then run_next_state ev (context t r) s = Threw s
    else ∃ c', run_next_state ev (context t r) s = Ran c' (<[t := answer r ev]> s) false false ∧
      ExecutorShouldDeleteContext c' = ExecutorShouldDeleteContext (context t r);
  slot_one_shot : ∀ ev c (s : gmap nat V) c' s' posts again, run_next_state ev c s = Ran c' s' posts again →
    posts = false ∧ again = false ∧ ExecutorShouldDeleteContext c' = ExecutorShouldDeleteContext c;
}.
Context {HSlot : SlotContext}.
Notation executor := (Executor Rq Ev C (gmap nat V)).
Implicit Types (x : executor).

Definition slots_ok x : Prop := ∀ (t : nat) r, submitted x !! t = Some r →
  (t ∈ tags x → contexts x !! t = Some (context t r) ∧ env x !! t = Some init) ∧
  (∀ ev, (t, ev) ∈ handled x → if throws r ev then env x !! t = Some init ∧ Unwound ∈ engines x else env x !! t = Some (answer r ev)).
Record slot_inv x : Prop := { i_exec : exec_ok x; i_shot : shot_ok x; i_slots : slots_ok x }.

Lemma handled_lt x t ev : shot_ok x → (t, ev) ∈ handled x → t < length (submitted x) ∧ t ∉ tags x.
Proof.
  intros [S1 _ _] H. apply (list_elem_of_fmap_2 fst) in H. cbn in H.
  assert (NoDup (tags x ++ (handled x).*1)) as Hn by (rewrite S1; apply NoDup_seq). split.
  - assert (t ∈ seq 0 (length (submitted x))) as Ht by (rewrite <-S1; apply elem_of_app; by right). apply elem_of_seq in Ht. lia.
  - apply NoDup_app in Hn as (_ & Hd & _). intros Ht. by eapply Hd.
Qed.
Lemma submitted_tag x t : shot_ok x → t ∈ tags x → ∃ r, submitted x !! t = Some r.
Proof.
  intros [S1 _ _] H. apply lookup_lt_is_Some_2. assert (t ∈ seq 0 (length (submitted x))) as Ht by (rewrite <-S1; apply elem_of_app; by left).
  apply elem_of_seq in Ht. lia.
Qed.
Lemma slots_submit r x x' : slot_inv x → submit r x = Next x' → slots_ok x'.
Proof.
  intros [HE HS HU] Hs. unfold submit in Hs. destruct (m_Shutdown x); [done|]. cbn -[next_index] in Hs. rewrite slot_prepare in Hs. simplify_eq.
  intros t r' Ht. cbn in Ht |- *. apply lookup_app_Some in Ht as [Ht|[Hge Ht]].
  - assert (t ≠ length (submitted x)) as Hn by (apply lookup_lt_Some in Ht; lia). rewrite !lookup_insert_ne by done. destruct (HU t r' Ht) as [H1 H2].
    split; [|done]. intros Hin. apply H1. unfold tags in *. cbn in Hin. rewrite fmap_app, !elem_of_app in Hin. cbn in Hin.
    rewrite list_elem_of_singleton in Hin. apply elem_of_app. naive_solver.
  - apply list_lookup_singleton_Some in Ht as [? <-]. replace t with (length (submitted x)) by lia. rewrite !lookup_insert_eq. split; [done|].
    intros ev Hin. apply (handled_lt x _ _ HS) in Hin. lia.
Qed.
Lemma slots_complete i ev x x' : slot_inv x → complete i ev x = Next x' → slots_ok x'.
Proof.
  intros [HE HS HU] Hs. unfold complete in Hs. destruct (pending x !! i) as [[q t]|] eqn:Hi; [|done].
  destruct (m_CQs x !! q) as [l|] eqn:Hq; [|done]. simplify_eq. intros t' r Ht. cbn in Ht |- *. destruct (HU t' r Ht) as [H1 H2]. split; [|done].
  intros Hin. apply H1. rewrite (tags_complete x i q t ev l Hi Hq). exact Hin.
Qed.
(** The engine finds the context and the fresh slot of the completion it takes. *)
Lemma slot_engine_call i x t ev l : slot_inv x → m_CQs x !! i = Some ((t, ev) :: l) →
  ∃ r, submitted x !! t = Some r ∧ contexts x !! t = Some (context t r) ∧ env x !! t = Some init.
Proof.
  intros [HE HS HU] Hi. assert (t ∈ tags x) as Ht by (rewrite (tags_pop x i t ev l Hi); by left).
  destruct (submitted_tag x t HS Ht) as [r Hr]. exists r. split; [done|]. by apply HU.
Qed.
Lemma slots_returned i en x : slots_ok x → engines x !! i = Some Running →
  slots_ok (mkExecutor (m_Counter x) (m_CQs x) (m_Shutdown x) (pending x) (contexts x) (<[i := en]> (engines x)) (submitted x) (env x) (handled x)).
Proof.
  intros HU Hi t r Ht. destruct (HU t r Ht) as [H1 H2]. split; [exact H1|]. intros ev Hev. specialize (H2 ev Hev). cbn.
  destruct (throws r ev); [|done]. destruct H2 as [? H]. split; [done|]. apply list_elem_of_lookup in H as [j Hj]. apply list_elem_of_lookup. exists j.
  rewrite list_lookup_insert_ne; [done|]. intros ->. congruence.
Qed.
Lemma slots_engine i x x' : slot_inv x → ProgressEngine i x = Next x' → slots_ok x'.
Proof.
  intros HI Hs. unfold ProgressEngine in Hs. destruct (engines x !! i) as [[]|] eqn:Hei; try done.
  destruct (m_CQs x !! i) as [[|[t ev] l]|] eqn:Hi; [..|done].
  { destruct (_ && _); [|done]. simplify_eq. by apply slots_returned; [apply HI|]. }
  destruct (slot_engine_call i x t ev l HI Hi) as (r & Hr & Hc & Hp). rewrite Hc in Hs. pose proof (slot_run t r ev _ Hp) as Hrun.
  destruct HI as [HE HS HU]. pose proof (tags_pop x i t ev l Hi) as Ht. assert (i < length (engines x)) as Hlt by (by eapply lookup_lt_Some).
  assert (t ∉ (pending x).*2 ++ queued (<[i:=l]> (m_CQs x))) as Hnt by (pose proof (e_once _ HE) as E1; rewrite Ht in E1; by inversion E1).
  assert (submitted x' = submitted x ∧ handled x' = handled x ++ [(t, ev)] ∧
    (if throws r ev then env x' !! t = Some init ∧ Unwound ∈ engines x' else env x' !! t = Some (answer r ev)) ∧
    (∀ t', t' ≠ t → env x' !! t' = env x !! t' ∧ contexts x' !! t' = contexts x !! t') ∧ (Unwound ∈ engines x → Unwound ∈ engines x') ∧
    tags x' = (pending x).*2 ++ queued (<[i:=l]> (m_CQs x))) as (H1 & H2 & H3 & H4 & H5 & H6).
  { destruct (throws r ev).
    - rewrite Hrun in Hs. simplify_eq. assert (Unwound ∈ <[i:=Unwound]> (engines x)) by (apply list_elem_of_lookup; exists i; by rewrite list_lookup_insert_eq). done.
    - destruct Hrun as (c' & Hrun & _). rewrite Hrun in Hs. cbn in Hs. simplify_eq. split; [done|]. split; [done|]. split; [cbn; by rewrite lookup_insert_eq|].
      split; [|done]. intros t' Hn. cbn. rewrite lookup_insert_ne by done. destruct (ExecutorShouldDeleteContext _); by rewrite ?lookup_delete_ne, ?lookup_insert_ne by done. }
  intros t' r' Ht'. rewrite H1 in Ht'. rewrite H2, H6. destruct (decide (t' = t)) as [->|Hn].
  - simplify_eq. split; [done|]. intros ev' [Hin|Hin]%elem_of_app; [|apply list_elem_of_singleton in Hin; by simplify_eq].
    exfalso. apply (handled_lt x _ _ HS) in Hin as [_ Hin]. apply Hin. rewrite Ht. by left.
  - destruct (H4 t' Hn) as [-> ->]. destruct (HU t' r' Ht') as [U1 U2]. split; [intros Hin; apply U1; rewrite Ht; by right|].
    intros ev' [Hin|Hin]%elem_of_app; [|apply list_elem_of_singleton in Hin; by simplify_eq]. specialize (U2 ev' Hin). destruct (throws r' ev'); [naive_solver|done].
Qed.
Lemma slot_new n : 0 < n → slot_inv (Executor_new n ∅).
Proof. intros Hn. split; [by apply new_ok|apply shot_new|]. intros t r Ht. cbn in Ht. by rewrite lookup_nil in Ht. Qed.
Lemma slot_step x e : slot_inv x → before_shutdown x e = true →
  match step x e with Next x' => slot_inv x' | Fault _ => False | Disabled => True end.
Proof.
  intros HI Hb. pose proof HI as [HE HS HU]. destruct (step x e) as [|f|x'] eqn:Hs; [done| |].
  - destruct e as [r|i ev|i|]; cbn in Hs, Hb; [|unfold complete in Hs; by repeat case_match| |done].
    + unfold submit in Hs. destruct (m_Shutdown x); [done|]. cbn -[next_index] in Hs. by destruct (prepare _ _ _).
    + unfold ProgressEngine in Hs. destruct (engines x !! i) as [[]|]; try done. destruct (m_CQs x !! i) as [[|[t ev] l]|] eqn:Hi; [by destruct (_ && _)| |done].
      destruct (slot_engine_call i x t ev l HI Hi) as (r & Hr & Hc & Hp). rewrite Hc in Hs. pose proof (slot_run t r ev _ Hp) as Hrun.
      destruct (throws r ev); [by rewrite Hrun in Hs|]. destruct Hrun as (c' & Hrun & _). by rewrite Hrun in Hs.
  - destruct (shot_step slot_one_shot x e x' HE HS Hs) as [HE' HS']. split; [done|done|].
    destruct e as [r|i ev|i|]; cbn in Hs; [by eapply slots_submit|by eapply slots_complete|by eapply slots_engine|]. by simplify_eq.
Qed.
Lemma slot_run_inv n es : 0 < n → along step before_shutdown (Executor_new n ∅) es = true →
  match run step (Executor_new n ∅) es with Next x => slot_inv x | Fault _ => False | Disabled => True end.
Proof.
  intros Hn Ha. pose proof (run_invariant step before_shutdown slot_inv (λ _, True)) as H.
  specialize (H ltac:(intros x e x' HI Hb Hs; pose proof (slot_step x e HI Hb) as Hk; by rewrite Hs in Hk)
    ltac:(intros x e g HI Hb Hs; pose proof (slot_step x e HI Hb) as Hk; by rewrite Hs in Hk) es _ (slot_new n Hn) Ha).
  destruct (run step _ es); [done|by apply H|done].
Qed.
(** When nothing is left to do, every call has been handled exactly once. *)
Lemma slots_answered x : (∃ ev : Ev, True) → slot_inv x → idle x → Unwound ∉ engines x →
  (handled x).*1 ≡ₚ seq 0 (length (submitted x)) ∧
  (∀ (t : nat) c, contexts x !! t = Some c → ExecutorShouldDeleteContext c = false) ∧
  (∀ (t : nat) r, submitted x !! t = Some r → ∃ ev, (t, ev) ∈ handled x ∧ throws r ev = false ∧ env x !! t = Some (answer r ev)).
Proof.
  intros Hev [HE HS HU] Hq Hu. pose proof (idle_tags x Hev HE HS Hu Hq) as Ht. pose proof HS as [S1 S2 S3]. rewrite Ht in S1. split; [done|]. split.
  - intros t c Hc. destruct (ExecutorShouldDeleteContext c) eqn:Hd; [|done]. destruct (S3 t c Hc Hd) as [H|]; [|done]. rewrite Ht in H. set_solver.
  - intros t r Hr. assert (t ∈ (handled x).*1) as Hin by (cbn in S1; rewrite S1; apply elem_of_seq; apply lookup_lt_Some in Hr; lia).
    apply list_elem_of_fmap in Hin as ([t' ev] & -> & Hin). exists ev. split; [done|]. destruct (HU t' r Hr) as [_ H]. specialize (H ev Hin).
    cbn. destruct (throws r ev); [by destruct H|done].
Qed.
End slots.
