(* ===== verification/ClientV3.v ===== *)
(** * The streaming clients of an executor

    Models [v3::ClientStreaming] of
    [tools/nvrpc/include/nvrpc/client/client_streaming_v3.h].  Its methods and handlers
    are, statement for statement, those of the fiber client ([FiberClient]); what differs
    is where its completion queue comes from.  A client is made from an executor, whose
    next queue it takes, or from a queue of the user; either constructor starts the call.

    The state is an executor and the clients made so far.  The file shows that clients
    of an executor are spread over its queues and that each of them is a fiber client,
    and that the other constructor never returns. *)
From S2P Require Import Prelude Grpc FiberClient ClientExecutor.

Section client_v3.
Context {Request Response Rq Ev C S : Type}.
Notation Executor := (@Executor Rq Ev C S).
Notation ClientStreaming := (@ClientStreaming Request).

(** ** Its methods and handlers, up to the release of the mutex *)
Definition EvaluateState : ClientStreaming → ClientStreaming * list op := FiberClient.EvaluateState.
Definition Write (r : Request) (s : ClientStreaming) : option (ClientStreaming * list op) := FiberClient.Write r s.
Definition CloseWrites (s : ClientStreaming) : option (ClientStreaming * list op) := FiberClient.CloseWrites s.
Definition Cancel (s : ClientStreaming) : ClientStreaming := FiberClient.Cancel s.
Definition ForwardProgress (i : nat) (c : config Request Response) : outcome (config Request Response) := FiberClient.ForwardProgress i c.
(** [StateStreamInitialized] or [StateFinishDone]. *)
Definition run_main (ok : bool) (c : config Request Response) : outcome (config Request Response) := FiberClient.run_main ok c.
(** [StateReadDone]. *)
Definition run_read (r : option Response) (c : config Request Response) : outcome (config Request Response) := FiberClient.run_read r c.
(** [StateWriteDone] or [StateWritesDoneDone]. *)
Definition run_write (ok : bool) (c : config Request Response) : outcome (config Request Response) := FiberClient.run_write ok c.
Definition client_step (c : config Request Response) (e : FiberClient.event Request Response) : outcome (config Request Response) :=
  match e with
  | UWrite r =>
      match Write r (cl c) with
      | Some sa => let c' := FiberClient.progress sa (the_call c) c in
          Next (mkConfig (cl c') (the_call c') (threads c') (accepted c' ++ [r]) (posted c') (sent c') (received c'))
      | None => Next c
      end
  | UClose => match CloseWrites (cl c) with Some sa => Next (FiberClient.progress sa (the_call c) c) | None => Next c end
  | UCancel => Next (mkConfig (Cancel (cl c)) (the_call c) (threads c) (accepted c) (posted c) (sent c) (received c))
  | EPost i => ForwardProgress i c
  | EMain ok => run_main ok c
  | ERead r => run_read r c
  | EWriteDone ok => run_write ok c
  end.

(** ** The constructors *)
(** A client with the queue of its stream. *)
Record client := mkV3 { conf : config Request Response; stream_cq : nat }.
(** [m_Executor] is the executor, or null.  [m_CQ] is not looked at. *)
Definition Initialize (m_Executor : option Executor) (m_CQ : option nat) : outcome (Executor * client) :=
  match m_Executor with
  | Some x => let '(x', q) := GetNextCQ x in Next (x', mkV3 FiberClient.start q)
  | None => Fault NullPointer
  end.
Definition ClientStreaming_executor (executor : Executor) : outcome (Executor * client) := Initialize (Some executor) None.
Definition ClientStreaming_queue (cq : nat) : outcome (Executor * client) := Initialize None (Some cq).

(** ** Runs *)
Record session := mkSession { exec : Executor; clients : list client }.
Inductive event := VNew | VNewQueue (cq : nat) | VClient (i : nat) (e : FiberClient.event Request Response).
Definition step (v : session) (e : event) : outcome session :=
  match e with
  | VNew => outcome_bind (ClientStreaming_executor (exec v)) (λ '(x, c), Next (mkSession x (clients v ++ [c])))
  | VNewQueue q => outcome_bind (ClientStreaming_queue q) (λ '(_, c), Next (mkSession (exec v) (clients v ++ [c])))
  | VClient i e =>
      match clients v !! i with
      | Some c => outcome_bind (client_step (conf c) e) (λ k, Next (mkSession (exec v) (<[i := mkV3 k (stream_cq c)]> (clients v))))
      | None => Disabled
      end
  end.
Definition from_executor (_ : session) (e : event) : bool := match e with VNewQueue _ => false | _ => true end.

(** ** Invariant *)
Lemma client_step_fiber c e : client_step c e = FiberClient.step c e.
Proof. by destruct e. Qed.
(** The executor's counter stands at the queue of the newest client, and a client is in
    a state that a fiber client can be in. *)
Record v3_ok (n : nat) (v : session) : Prop := {
  v_queues : length (m_CQs (exec v)) = n;
  v_counter : m_Counter (exec v) = length (clients v) mod n;
  v_spread : ∀ (j : nat) c, clients v !! j = Some c → stream_cq c = (1 + j) mod n;
  v_fiber : ∀ (j : nat) c, clients v !! j = Some c → Inv (conf c);
}.
Lemma v3_new_client n v : 0 < n → v3_ok n v → ∃ v', step v VNew = Next v' ∧ v3_ok n v'.
Proof.
  intros Hn [V1 V2 V3 V4]. eexists. split; [reflexivity|]. pose proof (Nat.mod_upper_bound (length (clients v)) n ltac:(lia)).
  assert (next_index (m_Counter (exec v)) (length (m_CQs (exec v))) = (1 + length (clients v)) mod n) as En.
  { rewrite V1, V2, next_index_mod by lia. rewrite Nat.Div0.add_mod_idemp_r. done. }
  split; cbn -[Nat.modulo]; [done|rewrite En, length_app; cbn -[Nat.modulo]; f_equal; lia| |].
  - intros j c [[_ Hj]|[-> E]]%lookup_snoc_Some; [by apply V3|]. rewrite <-E. cbn -[Nat.modulo]. exact En.
  - intros j c [[_ Hj]|[_ E]]%lookup_snoc_Some; [by apply (V4 j)|]. rewrite <-E. apply start_inv.
Qed.
Lemma v3_client_step n v i e : v3_ok n v →
  match step v (VClient i e) with Next v' => v3_ok n v' | Fault _ => False | Disabled => True end.
Proof.
  intros [V1 V2 V3 V4]. cbn. destruct (clients v !! i) as [c|] eqn:Hi; [|done]. rewrite client_step_fiber.
  pose proof (client_kept _ e (V4 i c Hi)) as Hk. destruct (FiberClient.step (conf c) e) as [|f|k]; cbn in *; [done..|].
  assert (∀ (j : nat) d, <[i := mkV3 k (stream_cq c)]> (clients v) !! j = Some d →
    (j = i ∧ d = mkV3 k (stream_cq c)) ∨ clients v !! j = Some d) as Hl.
  { intros j d [(-> & -> & _)|[_ ?]]%list_lookup_insert_Some; auto. }
  split; cbn; [done|by rewrite length_insert| |].
  - intros j d [[-> ->]|Hj]%Hl; [exact (V3 i c Hi)|exact (V3 j d Hj)].
  - intros j d [[-> ->]|Hj]%Hl; [done|by apply (V4 j)].
Qed.
Lemma v3_reachable n x es v : 0 < n → length (m_CQs x) = n → m_Counter x = 0 → along step from_executor (mkSession x []) es = true →
  (∀ f, run step (mkSession x []) es ≠ Fault f) ∧ (run step (mkSession x []) es = Next v → v3_ok n v).
Proof.
  intros Hn Hx Hc Ha.
  assert (v3_ok n (mkSession x [])) as H0 by (split; [done|cbn -[Nat.modulo]; by rewrite Nat.Div0.mod_0_l|done|done]).
  pose proof (run_invariant step from_executor (v3_ok n) (λ _, True)) as Hr.
  assert (∀ w e, v3_ok n w → from_executor w e = true → match step w e with Next w' => v3_ok n w' | Fault _ => False | Disabled => True end) as Hs.
  { intros w [|q|i e] Hw He; [|done|by apply v3_client_step]. destruct (v3_new_client n w Hn Hw) as (w' & -> & Hw'). done. }
  specialize (Hr ltac:(intros w e w' Hw He E; specialize (Hs w e Hw He); by rewrite E in Hs)
    ltac:(intros w e g Hw He E; specialize (Hs w e Hw He); by rewrite E in Hs) es _ H0 Ha).
  destruct (run step (mkSession x []) es) as [|f|w]; [split; [done|discriminate]|by destruct (Hr I)|]. split; [done|]. by intros [= <-].
Qed.
End client_v3.
Arguments event Request Response : clear implicits.

(** Streaming clients made from an executor with [n] queues never fault, whatever
    their users write and however the operations complete; client [j] is on queue
    [(1 + j) mod n], and a client that has nothing left to do is complete.  A client made
    from a queue of the user is never made: its constructor takes the queue from the
    executor it does not have. *)
Theorem v3_clients {Request Response Rq Ev C S} (x : @Executor Rq Ev C S) (es : list (event Request Response)) n :
  0 < n → length (m_CQs x) = n → m_Counter x = 0 → along step from_executor (mkSession x []) es = true →
  (∀ f, run step (mkSession x []) es ≠ Fault f) ∧
  ∀ v, run step (mkSession x []) es = Next v →
    (∀ (j : nat) c, clients v !! j = Some c → stream_cq c = (1 + j) mod n ∧
      ((∀ e, FiberClient.internal e = true → client_step (conf c) e = Disabled) → m_Complete (cl (conf c)) = true)) ∧
    (∀ q, step v (VNewQueue q) = Fault NullPointer).
Proof.
  intros Hn Hx Hc Ha. split; [apply (v3_reachable n x es (mkSession x []) Hn Hx Hc Ha)|].
  intros v Hr. destruct (v3_reachable n x es v Hn Hx Hc Ha) as [_ Hv]. destruct (Hv Hr) as [_ _ V3 V4].
  split; [|done]. intros j c Hj. split; [by apply V3|]. intros Hq. apply client_quiet_complete; [by apply (V4 j)|].
  intros e He. rewrite <-client_step_fiber. by apply Hq.
Qed.
(** Two clients of an executor with three queues; the first completes a call. *)
Definition two_clients : list (event nat nat) := [VNew; VNew] ++ (VClient 0 <$> FiberClient.session).
Definition small_executor : @Executor unit unit unit unit := Executor_new 3 ().
Lemma v3_clients_witness : ∃ v : session, run step (mkSession small_executor []) two_clients = Next v ∧ stream_cq <$> clients v = [1; 2] ∧
  ∀ q, step v (VNewQueue q) = Fault NullPointer.
Proof.
  destruct (v3_clients small_executor two_clients 3 ltac:(lia) eq_refl eq_refl ltac:(vm_compute; reflexivity)) as [_ Hv].
  assert (∃ v, run step (mkSession small_executor []) two_clients = Next v) as [v Hr] by (vm_compute; eexists; reflexivity).
  destruct (Hv v Hr) as [_ Hq]. exists v. split; [exact Hr|]. split; [|exact Hq].
  vm_compute in Hr. injection Hr as <-. reflexivity.
Defined.
