(* ===== verification/UnaryClient.v ===== *)
(** * Unary clients

    Models [ClientUnary] of [tools/nvrpc/include/nvrpc/client/client_unary.h] and
    [v2::ClientUnary] of [client_unary_v2.h] on the executor of [ClientExecutor].
    [Enqueue] makes a context that owns the promise of its caller and is deleted by the
    progress engine; a v2 client is an object of the user, for one call, that reports
    through its callbacks. *)
From S2P Require Import Prelude Grpc ClientExecutor.

(** ** ClientUnary *)
Section unary.
Context {Request Response status Result : Type}.

(** The arguments of [Enqueue]; [on_return] gives [None] when it throws. *)
Record unary_rq := mkRq {
  rq_request : Request;
  on_return : Request → Response → status → option Result;
  headers : list (string * string);
}.
(** The promise of each [shared_packaged_task], by the call it is for; [None]: not set. *)
Notation promises := (gmap nat (option Result)).
Record Context := mkContext {
  wrapped : nat;                                           (* its task *)
  m_Request : Request;
  m_Callback : Request → Response → status → option Result;
  m_Metadata : list (string * string);
}.
Definition Enqueue (t : nat) (r : unary_rq) (s : promises) : Context * promises :=
  (mkContext t (rq_request r) (on_return r) (headers r), <[t := None]> s).
(** [operator()] of the task: the promise gets what the user's function returns. *)
Definition invoke (t : nat) (v : Result) (s : promises) : option promises :=
  match s !! t with Some None => Some (<[t := Some v]> s) | _ => None end.
Notation unary_event := (bool * Response * status)%type.
Definition StateFinishedDone (ev : unary_event) (ctx : Context) (s : promises) : ran Context promises :=
  let '(ok, resp, st) := ev in
  match m_Callback ctx (m_Request ctx) resp st with
  | None => Threw s
  | Some v => match invoke (wrapped ctx) v s with Some s' => Ran ctx s' false false | None => Crashed FutureError end
  end.
#[export] Instance unary_context : BaseContext unary_rq unary_event Context promises :=
  { prepare := Enqueue; run_next_state := StateFinishedDone; ExecutorShouldDeleteContext := λ _, true }.

(** What [on_return] makes of a completion. *)
Definition result (r : unary_rq) (ev : unary_event) : option Result :=
  let '(_, resp, st) := ev in on_return r (rq_request r) resp st.
Definition returns (r : unary_rq) (ev : unary_event) : bool := if result r ev then true else false.
#[export] Instance unary_slots : SlotContext None result (λ r ev, negb (returns r ev)) (λ t r, (Enqueue t r ∅).1).
Proof.
  split; [done| |].
  - intros t r [[ok resp] st] s Hs. unfold returns, result. cbn. destruct (on_return r _ resp st) as [v|] eqn:E; [|done]. cbn. unfold invoke. rewrite Hs. by eexists.
  - intros [[ok resp] st] c s c' s' posts again. cbn. destruct (m_Callback c _ resp st); [|done]. destruct (invoke _ _ _); [|done]. intros H. by simplify_eq.
Qed.
End unary.
Arguments unary_rq : clear implicits.
Arguments Context : clear implicits.

(** ** v2::ClientUnary *)
Section unary_v2.
Context {Request Response status : Type} (ok : status → bool).       (* [Status::ok()] *)

Inductive NextState := StateInvalid | StateFinishDone.
Inductive callback := CallbackOnResponseReceived (r : Response) | CallbackOnComplete (s : status).
Record ClientUnary := mkUnary { u_id : nat; m_NextState : NextState; m_Stream : option Request }.
Definition ClientUnary_new (t : nat) : ClientUnary := mkUnary t StateInvalid None.
(** [None]: the check that the object has made no call fails. *)
Definition Write (r : Request) (c : ClientUnary) : option ClientUnary :=
  match m_Stream c with None => Some (mkUnary (u_id c) StateFinishDone (Some r)) | Some _ => None end.
Definition StateFinishDone_fn (ev : bool * Response * status) (c : ClientUnary) (s : gmap nat (list callback)) : ran ClientUnary (gmap nat (list callback)) :=
  let '(_, resp, st) := ev in
  let cbs := (if ok st then [CallbackOnResponseReceived resp] else []) ++ [CallbackOnComplete st] in
  Ran (mkUnary (u_id c) StateInvalid (m_Stream c)) (alter (.++ cbs) (u_id c) s) false false.
Definition RunNextState (ev : bool * Response * status) (c : ClientUnary) (s : gmap nat (list callback)) : ran ClientUnary (gmap nat (list callback)) :=
  match m_NextState c with StateFinishDone => StateFinishDone_fn ev c s | StateInvalid => Crashed InvalidState end.
(** A new client and its call. *)
Definition new_and_Write (t : nat) (r : Request) (s : gmap nat (list callback)) : ClientUnary * gmap nat (list callback) :=
  (default (ClientUnary_new t) (Write r (ClientUnary_new t)), <[t := []]> s).
#[export] Instance unary_v2_context : BaseContext Request (bool * Response * status) ClientUnary (gmap nat (list callback)) :=
  { prepare := new_and_Write; run_next_state := RunNextState; ExecutorShouldDeleteContext := λ _, false }.

(** The callbacks for a completion. *)
Definition callbacks (ev : bool * Response * status) : list callback :=
  (if ok ev.2 then [CallbackOnResponseReceived ev.1.2] else []) ++ [CallbackOnComplete ev.2].
#[export] Instance unary_v2_slots : SlotContext [] (λ _, callbacks) (λ _ _, false) (λ t r, mkUnary t StateFinishDone (Some r)).
Proof.
  split; [done| |].
  - intros t r [[b resp] st] s Hs. cbn. eexists. split; [|done]. f_equal. apply map_eq. intros t'. destruct (decide (t' = t)) as [->|Hn].
    + by rewrite lookup_alter_eq, lookup_insert_eq, Hs.
    + by rewrite lookup_alter_ne, lookup_insert_ne by done.
  - intros [[b resp] st] c s c' s' posts again. cbn. unfold RunNextState. destruct (m_NextState c); [done|]. cbn. intros H. by simplify_eq.
Qed.
End unary_v2.
Arguments ClientUnary : clear implicits.

(** ** What the clients guarantee *)
(** C30: every unary call is answered exactly once.  On an executor of any number of
    threads, for any interleaving of calls, completions and engines and a shutdown at any
    time after the last call, no step faults: no context is used after it is deleted and
    no promise is set twice.  When nothing is left to do, and no user's function has
    thrown, each call has been handled once, its future holds what [on_return] made of its
    request, response and status, and every context has been deleted; after a shutdown all
    engines have returned, so the join ends. *)
Theorem unary_calls_answered {Request Response status Result} n (es : list (event (unary_rq Request Response status Result) (bool * Response * status))) :
  0 < n → along step before_shutdown (Executor_new n ∅) es = true →
  match run step (Executor_new n (C := Context Request Response status Result) ∅) es with
  | Disabled => True
  | Fault _ => False
  | Next x => idle x → (∃ ev : bool * Response * status, True) → Unwound ∉ engines x →
      (handled x).*1 ≡ₚ seq 0 (length (submitted x)) ∧ contexts x = ∅ ∧ (m_Shutdown x = true → joined x = true) ∧
      ∀ (t : nat) r, submitted x !! t = Some r → ∃ ev v, (t, ev) ∈ handled x ∧ result r ev = Some v ∧ env x !! t = Some (Some v)
  end.
Proof.
  intros Hn Ha. pose proof (slot_run_inv None result (λ r ev, negb (returns r ev)) (λ t r, (Enqueue t r ∅).1) n es Hn Ha) as H.
  destruct (run step _ es) as [| |x]; [done|done|]. intros Hq Hev Hu. destruct (slots_answered _ _ _ _ x Hev H Hq Hu) as (H1 & H2 & H3).
  split; [done|]. split; [apply map_eq; intros t; rewrite lookup_empty; destruct (contexts x !! t) as [c|] eqn:Ec; [by specialize (H2 t c Ec)|done]|].
  destruct H as [HE HS HU]. split; [intros Hsh; exact (idle_joined x HS HE Hsh Hq (idle_tags x Hev HE HS Hu Hq))|].
  intros t r Hr. destruct (H3 t r Hr) as (ev & Hin & Hret & He). unfold returns in Hret. destruct (result r ev) as [v|] eqn:Ev; [|done].
  exists ev, v. done.
Qed.

(** A v2 unary client reports its call exactly once, the response before the completion
    and only when the status is good. *)
Theorem unary_v2_reports {Request Response status} (ok : status → bool) n (es : list (event Request (bool * Response * status))) :
  let I := unary_v2_context (Request := Request) (Response := Response) ok in
  0 < n → along (step (C := ClientUnary Request) (S := gmap nat (list callback))) before_shutdown (Executor_new n ∅) es = true →
  match run (step (C := ClientUnary Request) (S := gmap nat (list callback))) (Executor_new n ∅) es with
  | Disabled => True
  | Fault _ => False
  | Next x => idle x → (∃ ev : bool * Response * status, True) → Unwound ∉ engines x →
      (handled x).*1 ≡ₚ seq 0 (length (submitted x)) ∧
      ∀ (t : nat) r, submitted x !! t = Some r → ∃ ev, (t, ev) ∈ handled x ∧ env x !! t = Some (callbacks ok ev)
  end.
Proof.
  intros I Hn Ha. pose proof (unary_v2_slots (Request := Request) (Response := Response) ok) as HS.
  pose proof (slot_run_inv (HSlot := HS) _ _ _ _ n es Hn Ha) as H.
  destruct (run step _ es) as [| |x]; [done|done|]. intros Hq Hev Hu. destruct (slots_answered (HSlot := HS) _ _ _ _ x Hev H Hq Hu) as (H1 & _ & H3).
  split; [done|]. intros t r Hr. destruct (H3 t r Hr) as (ev & Hin & _ & He). by exists ev.
Qed.

(** Two calls on two threads: the second is answered first. *)
Definition unary_session : list (event (unary_rq nat nat nat nat) (bool * nat * nat)) :=
  [XSubmit (mkRq 10 (λ q r _, Some (q + r)) []); XSubmit (mkRq 20 (λ q r _, Some (q * r)) []); XComplete 1 (true, 3, 0); XEngine 0;
   XComplete 0 (true, 5, 0); XEngine 1; XShutdown; XEngine 0; XEngine 1].
Definition unary_end : Executor (unary_rq nat nat nat nat) (bool * nat * nat) (Context nat nat nat nat) (gmap nat (option nat)) :=
  match run step (Executor_new 2 ∅) unary_session with Next x => x | _ => Executor_new 2 ∅ end.
Lemma unary_calls_answered_witness : env unary_end !! 0 = Some (Some 15) ∧ env unary_end !! 1 = Some (Some 60) ∧ contexts unary_end = ∅ ∧ joined unary_end = true.
Proof.
  assert (run step (Executor_new 2 ∅) unary_session = Next unary_end) as Hr by (vm_compute; reflexivity).
  pose proof (unary_calls_answered 2 unary_session ltac:(lia) ltac:(vm_compute; reflexivity)) as H. rewrite Hr in H.
  clear Hr. destruct H as (_ & Hc & Hj & _); [|exists (true, 0, 0); exact I|apply (bool_decide_eq_true_1 (Unwound ∉ engines unary_end)); vm_compute; reflexivity|split; [vm_compute; reflexivity|split; [vm_compute; reflexivity|split; [exact Hc|apply Hj; vm_compute; reflexivity]]]].
  clear. intros e He. destruct e as [r|i ev|i|]; try discriminate He; [destruct i; vm_compute; reflexivity|].
  do 3 (destruct i as [|i]; [vm_compute; reflexivity|]). vm_compute. reflexivity.
Defined.

(** A user's function that throws ends the progress engine of its queue without a trace:
    the other calls of that queue are never answered, although gRPC has completed them,
    and a shutdown joins regardless. *)
Definition strand_session : list (event (unary_rq nat nat nat nat) (bool * nat * nat)) :=
  [XSubmit (mkRq 10 (λ _ _ _, None) []); XSubmit (mkRq 20 (λ q r _, Some (q * r)) []); XComplete 0 (true, 3, 0); XComplete 0 (true, 5, 0); XEngine 0; XShutdown].
Definition strand_start : Executor (unary_rq nat nat nat nat) (bool * nat * nat) (Context nat nat nat nat) (gmap nat (option nat)) := Executor_new 1 ∅.
Definition strand_end := match run step strand_start strand_session with Next x => x | _ => strand_start end.
Theorem throwing_callback_strands : run step strand_start strand_session = Next strand_end ∧ joined strand_end = true ∧
  ∀ es x, along step before_shutdown strand_end es = true → run step strand_end es = Next x → env x !! 1 = Some None.
Proof.
  assert (run step strand_start strand_session = Next strand_end) as E by (vm_compute; reflexivity). split; [exact E|].
  assert (engines strand_end !! 0 = Some Unwound) as He by (vm_compute; reflexivity).
  assert (m_CQs strand_end !! 0 = Some [(1, (true, 5, 0))]) as Hl by (vm_compute; reflexivity).
  split; [vm_compute; reflexivity|]. intros es x Ha Hr.
  assert (run step strand_start (strand_session ++ es) = Next x) as Hr' by (rewrite run_app, E; exact Hr).
  assert (along step before_shutdown strand_start (strand_session ++ es) = true) as Ha'.
  { rewrite along_app, E, Ha. vm_compute. reflexivity. }
  pose proof (slot_run_inv None result (λ r ev, negb (returns r ev)) (λ t r, (Enqueue t r ∅).1) 1 (strand_session ++ es) ltac:(lia) Ha') as HI.
  fold strand_start in HI. rewrite Hr' in HI. destruct (unwound_strands es strand_end x 0 _ Hr He Hl) as (_ & l' & Hl' & [k ->]).
  by destruct (slot_engine_call _ _ _ _ 0 x 1 (true, 5, 0) k HI Hl') as (_ & _ & _ & ?).
Qed.
