(* ===== verification/Scheduler.v ===== *)
(** * Fiber scheduling

    Models [src/internal/system/fiber_priority_scheduler.hpp], the scheduler of
    every fiber task queue.  A fiber is a number; its priority is a property
    kept apart from the ready queue, as in the source, so that changing it and
    moving the fiber are two steps.  The wake-up flag of [suspend_until] and
    [notify] is modelled by the critical sections of its mutex. *)
From S2P Require Import Prelude.
Local Open Scope Z_scope.

(** ** Ready queue *)
Record Scheduler := mkScheduler { m_priority : gmap nat Z; m_rqueue : list nat }.

Definition get_priority (s : Scheduler) (ctx : nat) : Z := default 0 (m_priority s !! ctx).

(** [find_if] for the first fiber of lower priority, and [insert] before it. *)
Fixpoint insert_before (prio : nat → Z) (p : Z) (ctx : nat) (q : list nat) : list nat :=
  match q with
  | [] => [ctx]
  | c :: q' => if prio c <? p then ctx :: q else c :: insert_before prio p ctx q'
  end.
Definition awakened (ctx : nat) (s : Scheduler) : Scheduler :=
  mkScheduler (m_priority s) (insert_before (get_priority s) (get_priority s ctx) ctx (m_rqueue s)).
Definition pick_next (s : Scheduler) : option nat * Scheduler :=
  match m_rqueue s with
  | [] => (None, s)
  | ctx :: q => (Some ctx, mkScheduler (m_priority s) q)
  end.
Definition has_ready_fibers (s : Scheduler) : bool := match m_rqueue s with [] => false | _ => true end.
(** [ready_unlink] removes the fiber from wherever it is in the queue. *)
Definition property_change (ctx : nat) (s : Scheduler) : Scheduler :=
  if decide (ctx ∈ m_rqueue s)
  then awakened ctx (mkScheduler (m_priority s) (filter (λ c, c ≠ ctx) (m_rqueue s)))
  else s.
(** [FiberPriorityProps::set_priority]. *)
Definition set_priority (ctx : nat) (p : Z) (s : Scheduler) : Scheduler :=
  if p =? get_priority s ctx then s
  else property_change ctx (mkScheduler (<[ctx := p]> (m_priority s)) (m_rqueue s)).

Definition Scheduler_new : Scheduler := mkScheduler ∅ [].

(** ** Specification: one first-in first-out queue per priority *)
Definition spec : Type := Z → list nat.
Definition level (s : Scheduler) : spec := λ p, filter (λ c, get_priority s c = p) (m_rqueue s).

Definition spec_push (p : Z) (ctx : nat) (a : spec) : spec := λ p', if decide (p' = p) then a p' ++ [ctx] else a p'.
Definition spec_remove (ctx : nat) (a : spec) : spec := λ p, filter (λ c, c ≠ ctx) (a p).
(** The queue of the highest priority that is not empty. *)
Definition spec_top (a : spec) (p : Z) : Prop := a p ≠ [] ∧ ∀ p', a p' ≠ [] → p' ≤ p.

(** The queue is ordered by priority and holds no fiber twice. *)
Definition ordered (s : Scheduler) : Prop :=
  StronglySorted (λ c1 c2, get_priority s c2 ≤ get_priority s c1) (m_rqueue s) ∧ NoDup (m_rqueue s).

Lemma insert_before_perm prio p ctx q : insert_before prio p ctx q ≡ₚ ctx :: q.
Proof. induction q as [|c q IH]; simpl; [done|]. case_match; [done|]. rewrite IH. apply Permutation_swap. Qed.

Lemma insert_before_sorted prio ctx q :
  StronglySorted (λ c1 c2, prio c2 ≤ prio c1) q → StronglySorted (λ c1 c2, prio c2 ≤ prio c1) (insert_before prio (prio ctx) ctx q).
Proof.
  induction 1 as [|c q Hs IH Hf]; simpl; [repeat constructor|]. destruct (Z.ltb_spec (prio c) (prio ctx)).
  - constructor; [by constructor|]. constructor; [lia|]. eapply Forall_impl; [exact Hf|]. simpl. intros. lia.
  - constructor; [done|]. rewrite insert_before_perm. constructor; [lia|done].
Qed.
Lemma insert_before_level prio ctx q p :
  StronglySorted (λ c1 c2, prio c2 ≤ prio c1) q →
  filter (λ c, prio c = p) (insert_before prio (prio ctx) ctx q) =
  if decide (p = prio ctx) then filter (λ c, prio c = p) q ++ [ctx] else filter (λ c, prio c = p) q.
Proof.
  induction 1 as [|c q Hs IH Hf]; simpl.
  - rewrite filter_cons, filter_nil. repeat case_decide; done.
  - destruct (Z.ltb_spec (prio c) (prio ctx)).
    + rewrite (filter_cons _ ctx). case_decide; case_decide; try done; try congruence. subst p.
      assert (filter (λ c0, prio c0 = prio ctx) (c :: q) = []) as ->; [|done].
      rewrite filter_cons_False by lia. clear -Hf H. induction Hf as [|x l Hx _ IHf]; [done|]. rewrite filter_cons_False; [done|]. simpl in Hx. lia.
    + rewrite !filter_cons, IH. repeat case_decide; done.
Qed.

(** ** Refinement *)
Lemma awakened_ordered ctx s : ordered s → ctx ∉ m_rqueue s → ordered (awakened ctx s).
Proof.
  intros [Hs Hn] Hni. split; simpl.
  - by apply (insert_before_sorted (get_priority s)).
  - rewrite insert_before_perm. by constructor.
Qed.
Lemma awakened_level ctx s p :
  ordered s → level (awakened ctx s) p = spec_push (get_priority s ctx) ctx (level s) p.
Proof. intros [Hs _]. unfold level, spec_push. simpl. apply (insert_before_level (get_priority s)). done. Qed.

Lemma unlink_ordered ctx p s :
  ordered s → ordered (mkScheduler (<[ctx := p]> (m_priority s)) (filter (λ c, c ≠ ctx) (m_rqueue s))).
Proof.
  intros [Hs Hn]. split; simpl; [|by apply NoDup_filter]. clear Hn. induction Hs as [|c q Hs IH Hf]; simpl; [constructor|].
  rewrite filter_cons. case_decide as Hc; [|done]. constructor; [done|]. apply Forall_forall. intros c' [Hc' Hin]%list_elem_of_filter.
  rewrite Forall_forall in Hf. specialize (Hf c' Hin). unfold get_priority in *. simpl. by rewrite !lookup_insert_ne.
Qed.
Lemma unlink_level ctx p s p' :
  level (mkScheduler (<[ctx := p]> (m_priority s)) (filter (λ c, c ≠ ctx) (m_rqueue s))) p' = spec_remove ctx (level s) p'.
Proof.
  unfold level, spec_remove, get_priority. simpl. induction (m_rqueue s) as [|c q IH]; [done|].
  rewrite !filter_cons. destruct (decide (c ≠ ctx)) as [Hc|Hc]; simpl.
  - rewrite filter_cons. rewrite lookup_insert_ne by done. repeat case_decide; rewrite ?filter_cons; rewrite ?decide_True by done; by rewrite IH.
  - case_decide; [rewrite filter_cons, decide_False by done|]; done.
Qed.

(** C21: the ready queue of the scheduler implements one first-in first-out queue
    per priority.  Waking a fiber puts it at the end of the queue of its
    priority; the next fiber is the first one of the highest priority that has
    any; a change of priority moves a ready fiber to the end of the queue of its
    new priority.  All three keep the queue ordered, without duplicates. *)
Theorem scheduler_refines s :
  ordered s →
  (∀ ctx, ctx ∉ m_rqueue s →
     ordered (awakened ctx s) ∧ ∀ p, level (awakened ctx s) p = spec_push (get_priority s ctx) ctx (level s) p) ∧
  (match pick_next s with
   | (None, s') => s' = s ∧ ∀ p, level s p = []
   | (Some ctx, s') => ordered s' ∧ spec_top (level s) (get_priority s ctx) ∧
       ∀ p, level s p = (if decide (p = get_priority s ctx) then ctx :: level s' p else level s' p)
   end) ∧
  (∀ ctx p, ctx ∈ m_rqueue s → p ≠ get_priority s ctx →
     ordered (set_priority ctx p s) ∧
     ∀ p', level (set_priority ctx p s) p' = spec_push p ctx (spec_remove ctx (level s)) p').
Proof.
  intros Ho. split_and!.
  - intros ctx Hni. split; [by apply awakened_ordered|]. intros p. by apply awakened_level.
  - unfold pick_next. destruct Ho as [Hs Hn]. destruct (m_rqueue s) as [|ctx q] eqn:E.
    { split; [done|]. intros p. unfold level. by rewrite E. }
    apply StronglySorted_inv in Hs as [Hs Hf]. apply NoDup_cons in Hn as [Hni Hn]. split; [by split|].
    assert (∀ p, level s p = if decide (p = get_priority s ctx) then ctx :: filter (λ c, get_priority s c = p) q else filter (λ c, get_priority s c = p) q) as Hl.
    { intros p. unfold level. rewrite E, filter_cons. repeat case_decide; congruence. }
    split; [|done]. split; [rewrite Hl, decide_True by done; done|].
    intros p'. unfold level. rewrite E. intros Hne. destruct (filter _ _) as [|c l] eqn:Ef; [done|].
    assert (c ∈ filter (λ c, get_priority s c = p') (ctx :: q)) as Hin by (rewrite Ef; set_solver).
    apply list_elem_of_filter in Hin as [<- [->|Hin]%elem_of_cons]; [lia|]. rewrite Forall_forall in Hf. by apply Hf.
  - intros ctx p Hin Hne. unfold set_priority, property_change. destruct (Z.eqb_spec p (get_priority s ctx)); [done|].
    rewrite decide_True by done. simpl.
    pose proof (unlink_ordered ctx p s Ho) as Hu. split.
    + apply awakened_ordered; [done|]. simpl. rewrite list_elem_of_filter. naive_solver.
    + intros p'. rewrite awakened_level by done. unfold spec_push. rewrite unlink_level.
      assert (∀ q, get_priority (mkScheduler (<[ctx := p]> (m_priority s)) q) ctx = p) as Hp; [|by rewrite Hp].
      intros q. unfold get_priority. simpl. by rewrite (lookup_insert_eq (m_priority s)).
Qed.

(** ** Progress of a ready fiber *)
Inductive op := Awaken (ctx : nat) | Pick.
Definition exec (o : op) (s : Scheduler) : option nat * Scheduler :=
  match o with Awaken ctx => (None, awakened ctx s) | Pick => pick_next s end.
(** The fibers that a sequence of operations picks. *)
Fixpoint picks (os : list op) (s : Scheduler) : list nat :=
  match os with
  | [] => []
  | o :: os => let '(r, s') := exec o s in option_list r ++ picks os s'
  end.
Definition is_pick (o : op) : bool := match o with Pick => true | _ => false end.
Definition overtakes (s : Scheduler) (p : Z) (o : op) : bool :=
  match o with Awaken ctx => p <? get_priority s ctx | Pick => false end.

Lemma insert_before_pos prio ctx q i c :
  StronglySorted (λ c1 c2, prio c2 ≤ prio c1) q → q !! i = Some c →
  insert_before prio (prio ctx) ctx q !! (if Z.ltb (prio c) (prio ctx) then S i else i) = Some c.
Proof.
  intros Hs. revert i. induction Hs as [|c0 q Hs IH Hf]; intros i Hi; [done|]. simpl.
  destruct (Z.ltb_spec (prio c0) (prio ctx)) as [Hlt|Hge].
  - assert (prio c <= prio c0) as Hle.
    { destruct i as [|i]; simplify_eq/=; [lia|]. rewrite Forall_forall in Hf. apply Hf. by eapply list_elem_of_lookup_2. }
    destruct (Z.ltb_spec (prio c) (prio ctx)); [done|lia].
  - destruct i as [|i]; simplify_eq/=; [destruct (Z.ltb_spec (prio c) (prio ctx)); [lia|done]|].
    specialize (IH i Hi). by destruct (prio c <? prio ctx).
Qed.

Lemma insert_before_pos_le prio ctx q i c :
  StronglySorted (λ c1 c2, prio c2 ≤ prio c1) q → q !! i = Some c →
  ∃ j, insert_before prio (prio ctx) ctx q !! j = Some c ∧ (j ≤ i + (if Z.ltb (prio c) (prio ctx) then 1 else 0))%nat.
Proof. intros Hs Hi. eexists. split; [by apply insert_before_pos|]. destruct (prio c <? prio ctx); lia. Qed.

(** No fiber starves among its equals.  A ready fiber with [i] fibers before
    it is picked as soon as there were more picks than [i] plus the number of
    fibers of strictly higher priority awakened in the meantime; fibers of its
    own or a lower priority never delay it. *)
Theorem ready_fiber_is_picked os s i c :
  ordered s → m_rqueue s !! i = Some c →
  (∀ os1 ctx os2, os = os1 ++ Awaken ctx :: os2 → ctx ∉ m_rqueue (foldl (λ s o, (exec o s).2) s os1)) →
  (i + countb (overtakes s (get_priority s c)) os < countb is_pick os)%nat → c ∈ picks os s.
Proof.
  revert s i. induction os as [|o os IH]; intros s i Ho Hi Hfresh Hc; simpl in Hc; [lia|].
  assert (∀ os1 ctx os2, os = os1 ++ Awaken ctx :: os2 → ctx ∉ m_rqueue (foldl (λ s o, (exec o s).2) (exec o s).2 os1)) as Hfresh'.
  { intros os1 ctx os2 ->. apply (Hfresh (o :: os1) ctx os2). done. }
  destruct o as [ctx|]; simpl in *.
  - specialize (Hfresh [] ctx os eq_refl) as Hni. simpl in Hni. pose proof Ho as [Hs _].
    destruct (insert_before_pos_le (get_priority s) ctx _ _ _ Hs Hi) as (j & Hj & Hle).
    apply (IH (awakened ctx s) j); [by apply awakened_ordered|done|done|]. change (get_priority (awakened ctx s)) with (get_priority s).
    change (overtakes (awakened ctx s)) with (overtakes s). destruct (get_priority s c <? get_priority s ctx); lia.
  - unfold pick_next in *. destruct (m_rqueue s) as [|c0 q] eqn:Eq; [done|]. simpl. destruct i as [|i]; simplify_eq/=; [set_solver|].
    apply elem_of_cons. right. apply (IH _ i); [|done|done|].
    + destruct Ho as [Hs Hn]. rewrite Eq in *. apply StronglySorted_inv in Hs as [Hs _]. apply NoDup_cons in Hn as [_ Hn]. by split.
    + change (overtakes (mkScheduler (m_priority s) q)) with (overtakes s). change (get_priority (mkScheduler (m_priority s) q)) with (get_priority s). lia.
Qed.


Definition three_ready : Scheduler := mkScheduler {[ 1%nat := 5; 2%nat := 0; 3%nat := 0 ]} [1; 2; 3]%nat.
Lemma three_ready_ordered : ordered three_ready.
Proof.
  split; [|by apply (bool_decide_unpack _); vm_compute].
  repeat constructor; vm_compute; done.
Qed.
Lemma scheduler_refines_witness :
  (ordered (awakened 7 three_ready) ∧ ∀ p, level (awakened 7 three_ready) p = spec_push 0 7 (level three_ready) p) ∧
  m_rqueue (set_priority 3 9 three_ready) = [3; 1; 2]%nat ∧ ordered (set_priority 3 9 three_ready).
Proof.
  destruct (scheduler_refines three_ready three_ready_ordered) as (H1 & _ & H3). split.
  - apply (H1 7%nat). apply (bool_decide_unpack _). vm_compute. exact I.
  - split; [vm_compute; reflexivity|]. apply H3; [|vm_compute; discriminate]. apply (bool_decide_unpack _). vm_compute. exact I.
Defined.
(** Fiber 3 is picked third although fibers of equal priority keep coming. *)
Lemma ready_fiber_is_picked_witness :
  picks [Awaken 4; Pick; Awaken 5; Pick; Pick] three_ready = [1; 2; 3]%nat ∧
  3%nat ∈ picks [Awaken 4; Pick; Awaken 5; Pick; Pick] three_ready.
Proof.
  split; [vm_compute; reflexivity|].
  apply (ready_fiber_is_picked [Awaken 4; Pick; Awaken 5; Pick; Pick] three_ready 2 3 three_ready_ordered); [reflexivity| |vm_compute; lia].
  intros [|o1 [|o2 [|o3 [|o4 [|o5 os1]]]]] ctx os2 Heq; simplify_eq/=; try (by destruct os1); apply (bool_decide_unpack _); vm_compute; exact I.
Defined.

(** ** Sleeping and waking *)
(** The thread of the scheduler runs, sleeps in [m_cnd] or was woken and has not
    taken the mutex yet; [notifying] counts calls of [notify] between releasing
    the mutex and [notify_all]. *)
Inductive sleeper := Awake | Sleeping | Woken.
Record wakeup := mkWakeup { m_flag : bool; thread : sleeper; notifying : nat }.

Inductive wstep : wakeup → wakeup → Prop :=
| suspend_returns n : wstep (mkWakeup true Awake n) (mkWakeup false Awake n)
| suspend_sleeps n : wstep (mkWakeup false Awake n) (mkWakeup false Sleeping n)
| wake_returns n : wstep (mkWakeup true Woken n) (mkWakeup false Awake n)
| wake_sleeps n : wstep (mkWakeup false Woken n) (mkWakeup false Sleeping n)
| spurious f n : wstep (mkWakeup f Sleeping n) (mkWakeup f Woken n)
| deadline f n : wstep (mkWakeup f Woken n) (mkWakeup false Awake n)
| notify_flag f t n : wstep (mkWakeup f t n) (mkWakeup true t (S n))
| notify_all f t n : wstep (mkWakeup f t (S n)) (mkWakeup f (match t with Sleeping => Woken | _ => t end) n).

Definition wakeup_new : wakeup := mkWakeup false Awake 0.

(** No wake-up is lost: a thread that sleeps although the flag is set is about to
    be woken. *)
Lemma wakeup_not_lost w : rtc wstep wakeup_new w → m_flag w = true → thread w = Sleeping → (0 < notifying w)%nat.
Proof.
  intros Hr. cut (m_flag w = true → thread w = Sleeping → (0 < notifying w)%nat); [done|]. revert w Hr.
  apply (rtc_ind_r (λ w, m_flag w = true → thread w = Sleeping → (0 < notifying w)%nat)); [done|].
  intros w1 w2 _ Hs IH. destruct Hs; simpl in *; try done; [lia|]. intros Hf Ht. by destruct t.
Qed.
