(* ===== verification/TaskQueue.v ===== *)
(** * Fiber task queues

    Models [include/srf/core/task_queue.hpp] and
    [src/internal/system/fiber_task_queue.cpp]: clients push tasks through a
    bounded channel of boost.fiber; the thread of the queue ([main]) pops each
    one and launches it as a detached fiber, and ends when the channel is closed
    and the counter [m_detached] is back at zero.  [enqueue] reads the state of
    the channel, increments the counter and pushes in three separate steps, which
    may interleave with everything else.  A task is a number; [capacity] is the
    number of tasks the channel holds.  The channel's own behaviour (a closed
    channel refuses pushes and still hands out what it holds) is documented by
    boost.fiber. *)
From S2P Require Import Prelude.

(** Where a call of [enqueue] is. *)
Inductive client :=
| Checked (t : nat)                 (* found the queue open *)
| Counted (t : nat)                 (* incremented m_detached *)
| Pushed (t : nat) | Dropped (t : nat)   (* push succeeded, or found the channel closed *)
| Thrown (t : nat).                 (* "enqueue on stopped ws fiber pool" *)
Inductive main_pc := Popping | Draining | Finished.
#[export] Instance main_pc_eq_dec : EqDecision main_pc.
Proof. solve_decision. Defined.

Record FiberTaskQueue := mkQueue {
  capacity : nat;
  m_closed : bool;
  m_queue : list nat;
  m_detached : nat;
  m_thread : main_pc;
  fibers : list nat;                (* launched and not finished *)
  finished : list nat;
  clients : list client;
}.
Definition FiberTaskQueue_new (n : nat) : FiberTaskQueue := mkQueue n false [] 0 Popping [] [] [].

Inductive event :=
| Enqueue (t : nat)                 (* a client calls enqueue *)
| Continue (i : nat)                (* client [i] goes on *)
| MainStep                          (* the thread of the queue goes on *)
| FiberEnds (i : nat)
| Shutdown.

Definition enqueue (t : nat) (q : FiberTaskQueue) : FiberTaskQueue :=
  mkQueue (capacity q) (m_closed q) (m_queue q) (m_detached q) (m_thread q) (fibers q) (finished q)
    (clients q ++ [if m_closed q then Thrown t else Checked t]).

(** [None]: the client is done, or the channel is full. *)
Definition enqueue_continue (i : nat) (q : FiberTaskQueue) : option FiberTaskQueue :=
  match clients q !! i with
  | Some (Checked t) =>
      Some (mkQueue (capacity q) (m_closed q) (m_queue q) (S (m_detached q)) (m_thread q) (fibers q) (finished q)
              (<[i := Counted t]> (clients q)))
  | Some (Counted t) =>
      if m_closed q then
        (* the status that push returns is ignored *)
        Some (mkQueue (capacity q) (m_closed q) (m_queue q) (m_detached q) (m_thread q) (fibers q) (finished q)
                (<[i := Dropped t]> (clients q)))
      else if length (m_queue q) <? capacity q then
        Some (mkQueue (capacity q) (m_closed q) (m_queue q ++ [t]) (m_detached q) (m_thread q) (fibers q) (finished q)
                (<[i := Pushed t]> (clients q)))
      else None
  | _ => None
  end.

(** [None]: the thread blocks, yields in vain, or is done. *)
Definition main (q : FiberTaskQueue) : option FiberTaskQueue :=
  match m_thread q with
  | Popping =>
      match m_queue q with
      | t :: ts => Some (mkQueue (capacity q) (m_closed q) ts (m_detached q) Popping (fibers q ++ [t]) (finished q) (clients q))
      | [] => if m_closed q then Some (mkQueue (capacity q) true [] (m_detached q) Draining (fibers q) (finished q) (clients q)) else None
      end
  | Draining =>
      if m_detached q =? 0
      then Some (mkQueue (capacity q) (m_closed q) (m_queue q) 0 Finished (fibers q) (finished q) (clients q))
      else None
  | Finished => None
  end.
(** The wrapped task runs, then decrements the counter. *)
Definition fiber_ends (i : nat) (q : FiberTaskQueue) : option FiberTaskQueue :=
  match fibers q !! i with
  | Some t => Some (mkQueue (capacity q) (m_closed q) (m_queue q) (pred (m_detached q)) (m_thread q) (delete i (fibers q)) (finished q ++ [t]) (clients q))
  | None => None
  end.
Definition shutdown (q : FiberTaskQueue) : FiberTaskQueue :=
  mkQueue (capacity q) true (m_queue q) (m_detached q) (m_thread q) (fibers q) (finished q) (clients q).

Definition step (q : FiberTaskQueue) (e : event) : option FiberTaskQueue :=
  match e with
  | Enqueue t => Some (enqueue t q)
  | Continue i => enqueue_continue i q
  | MainStep => main q
  | FiberEnds i => fiber_ends i q
  | Shutdown => Some (shutdown q)
  end.
Fixpoint run (q : FiberTaskQueue) (es : list event) : option FiberTaskQueue :=
  match es with [] => Some q | e :: es => step q e ≫= λ q', run q' es end.
Definition reachable (q : FiberTaskQueue) : Prop := ∃ n es, run (FiberTaskQueue_new n) es = Some q.

(** ** Invariant *)
Definition is_counted (c : client) : bool := match c with Counted _ => true | _ => false end.
Definition is_dropped (c : client) : bool := match c with Dropped _ => true | _ => false end.
Definition pushed_task (c : client) : option nat := match c with Pushed t => Some t | _ => None end.
Definition pushed (q : FiberTaskQueue) : list nat := omap pushed_task (clients q).

Record Inv (q : FiberTaskQueue) : Prop := {
  i_count : m_detached q = countb is_counted (clients q) + countb is_dropped (clients q) + length (m_queue q) + length (fibers q);
  i_tasks : pushed q ≡ₚ m_queue q ++ fibers q ++ finished q;
  i_main : m_thread q ≠ Popping → m_closed q = true ∧ m_queue q = [];
  i_open : m_closed q = false → countb is_dropped (clients q) = 0;
  i_done : m_thread q = Finished → fibers q = [];
}.

Lemma pushed_insert i (c c' : client) l :
  l !! i = Some c → pushed_task c = None →
  omap pushed_task (<[i := c']> l) ≡ₚ option_list (pushed_task c') ++ omap pushed_task l.
Proof.
  intros Hi Hc. pose proof (omap_insert_perm pushed_task l i c c' Hi) as H.
  rewrite Hc in H. simpl in H. by rewrite app_nil_r, Permutation_app_comm in H.
Qed.

Lemma queue_Inv_step q e q' : Inv q → step q e = Some q' → Inv q'.
Proof.
  intros [H1 H2 H3 H4 H5] Hs. destruct e as [t|i| |i|]; simpl in Hs.
  - simplify_eq. split; simpl; auto.
    + rewrite !countb_app. simpl. destruct (m_closed q); simpl; lia.
    + unfold pushed in *. simpl. rewrite omap_app. destruct (m_closed q); simpl; by rewrite app_nil_r.
    + rewrite countb_app. intros Hc. rewrite H4 by done. by rewrite Hc.
  - unfold enqueue_continue in Hs. destruct (clients q !! i) as [[t|t|t|t|t]|] eqn:Hi; try done.
    + simplify_eq. pose proof (countb_insert is_counted _ _ _ (Counted t) Hi). pose proof (countb_insert is_dropped _ _ _ (Counted t) Hi).
      split; simpl in *; auto; [lia| |intros; specialize (H4 ltac:(done)); lia].
      unfold pushed in *. simpl. by rewrite (pushed_insert _ _ _ _ Hi).
    + destruct (m_closed q) eqn:Ec; [|destruct (_ <? _); [|done]]; simplify_eq.
      * pose proof (countb_insert is_counted _ _ _ (Dropped t) Hi). pose proof (countb_insert is_dropped _ _ _ (Dropped t) Hi).
        split; simpl in *; auto; [lia| |done]. unfold pushed in *. simpl. by rewrite (pushed_insert _ _ _ _ Hi).
      * pose proof (countb_insert is_counted _ _ _ (Pushed t) Hi). pose proof (countb_insert is_dropped _ _ _ (Pushed t) Hi).
        split; simpl in *; auto.
        -- rewrite length_app. simpl. lia.
        -- unfold pushed in *. simpl. rewrite (pushed_insert _ _ _ _ Hi) by done. simpl. rewrite H2, <-app_assoc. simpl. by rewrite Permutation_middle.
        -- intros Hp. by destruct (H3 Hp).
        -- intros _. specialize (H4 eq_refl). lia.
  - unfold main in Hs. destruct (m_thread q) eqn:Et; [| |done].
    + destruct (m_queue q) as [|t ts] eqn:Eq.
      * destruct (m_closed q) eqn:Ec; [|done]. simplify_eq. split; simpl in *; auto; done.
      * simplify_eq. split; simpl in *; auto; try done.
        -- rewrite length_app. simpl. lia.
        -- rewrite H2, <-(app_assoc (fibers q)). simpl. by rewrite !(app_assoc ts), Permutation_middle.
    + destruct (Nat.eqb_spec (m_detached q) 0) as [Hz|]; [|done]. simplify_eq. split; simpl in *; auto; try lia.
      intros _. apply nil_length_inv. lia.
  - unfold fiber_ends in Hs. destruct (fibers q !! i) as [t|] eqn:Hi; [|done]. simplify_eq.
    pose proof (lookup_lt_Some _ _ _ Hi). split; simpl in *; auto.
    + rewrite length_delete by eauto. lia.
    + rewrite H2. f_equiv. rewrite (delete_Permutation (fibers q) i t Hi) at 1. rewrite app_assoc, <-Permutation_cons_append. done.
    + intros Hf. specialize (H5 Hf). by rewrite H5 in Hi.
  - simplify_eq. split; simpl; auto; [|done]. intros Hp. by destruct (H3 Hp).
Qed.

Lemma Inv_new n : Inv (FiberTaskQueue_new n).
Proof. by split. Qed.
Lemma queue_run_Inv q es q' : Inv q → run q es = Some q' → Inv q'.
Proof.
  revert q. induction es as [|e es IH]; intros q Hq Hr; simplify_eq/=; [done|].
  destruct (step q e) as [q1|] eqn:E; simplify_eq/=. eauto using queue_Inv_step.
Qed.
Lemma queue_run_app q es1 es2 : run q (es1 ++ es2) = (run q es1 ≫= λ q', run q' es2).
Proof. revert q. induction es1 as [|e es1 IH]; intros q; simpl; [done|]. by destruct (step q e); simpl. Qed.
Lemma queue_reachable_Inv q : reachable q → Inv q.
Proof. intros (n & es & Hr). eauto using queue_run_Inv, Inv_new. Qed.

(** ** What the invariant gives *)
Definition done_with (c : client) : bool := match c with Pushed _ | Thrown _ => true | _ => false end.
Definition internal (e : event) : bool := match e with MainStep | FiberEnds _ => true | _ => false end.
Definition pc_rank (p : main_pc) : nat := match p with Popping => 2 | Draining => 1 | Finished => 0 end.
Definition work (q : FiberTaskQueue) : nat := 2 * length (m_queue q) + length (fibers q) + pc_rank (m_thread q).

Lemma countb_done f l : (∀ c, done_with c = true → f c = false) → forallb done_with l = true → countb f l = 0.
Proof.
  intros Hf Hl. apply countb_zero, Forall_forall. intros c Hc.
  apply Hf. rewrite forallb_forall in Hl. apply Hl. by apply list_elem_of_In.
Qed.
Lemma internal_keeps q e q' :
  internal e = true → step q e = Some q' →
  work q' < work q ∧ clients q' = clients q ∧ m_closed q' = m_closed q ∧ pushed q' = pushed q.
Proof.
  intros He Hs. destruct e as [| | |i|]; try done; simpl in Hs.
  - unfold main in Hs. destruct (m_thread q) eqn:Et; [| |done].
    + destruct (m_queue q) eqn:Eq; [destruct (m_closed q) eqn:Ec; [|done]|];
        simplify_eq; unfold work; simpl; rewrite Eq, Et; simpl; repeat split; try done; rewrite ?length_app; simpl; lia.
    + destruct (m_detached q =? 0); [|done]. simplify_eq. unfold work. simpl. rewrite Et. simpl. repeat split; lia.
  - unfold fiber_ends in Hs. destruct (fibers q !! i) as [t|] eqn:Hi; [|done]. simplify_eq.
    pose proof (lookup_lt_Some _ _ _ Hi). unfold work. simpl. rewrite length_delete by eauto. repeat split; lia.
Qed.
Lemma internal_enabled q :
  Inv q → m_closed q = true → forallb done_with (clients q) = true → m_thread q ≠ Finished →
  ∃ e, internal e = true ∧ is_Some (step q e).
Proof.
  intros [H1 H2 H3 H4 H5] Hc Hd Hf. destruct (fibers q) as [|t fs] eqn:Ef.
  - exists MainStep. split; [done|]. simpl. unfold main. destruct (m_thread q) eqn:Et; [| |done].
    + destruct (m_queue q); rewrite ?Hc; eauto.
    + destruct (H3 ltac:(done)) as [_ Hq]. rewrite H1, Hq, !countb_done; eauto; by intros [].
  - exists (FiberEnds 0). split; [done|]. simpl. unfold fiber_ends. rewrite Ef. simpl. eauto.
Qed.

(** When the thread of a fiber task queue ends, every task that was ever
    pushed has run to its end, exactly once: nothing is left in the channel or
    running as a fiber, whatever the interleaving. *)
Theorem finished_queue_ran_all q :
  reachable q → m_thread q = Finished → m_queue q = [] ∧ fibers q = [] ∧ finished q ≡ₚ pushed q.
Proof.
  intros [H1 H2 H3 H4 H5]%queue_reachable_Inv Hf. destruct (H3 ltac:(by rewrite Hf)) as [_ Hq].
  split; [done|]. split; [auto|]. by rewrite H2, Hq, H5.
Qed.

Lemma done_reached q :
  Inv q → m_closed q = true → forallb done_with (clients q) = true →
  ∃ es q', forallb internal es = true ∧ length es ≤ work q ∧ run q es = Some q' ∧
    m_thread q' = Finished ∧ finished q' ≡ₚ pushed q.
Proof.
  remember (work q) as n eqn:En. revert q En. induction (lt_wf n) as [n _ IH]. intros q -> HI Hc Hd.
  destruct (decide (m_thread q = Finished)) as [Hf|Hf].
  - exists [], q. repeat split; [simpl; lia|done|]. destruct HI as [H1 H2 H3 H4 H5].
    destruct (H3 ltac:(by rewrite Hf)) as [_ Hq]. by rewrite H2, Hq, H5.
  - destruct (internal_enabled q) as (e & He & q1 & Hs); auto.
    destruct (internal_keeps q e q1) as (Hw & Hcl & Hc1 & Hp); auto.
    destruct (IH (work q1) Hw q1) as (es & q' & Hi & Hl & Hr & Hf' & Hfin);
      [done|by eapply queue_Inv_step|congruence|congruence|].
    exists (e :: es), q'. rewrite <-Hp. simpl. rewrite He, Hs. repeat split; auto; lia.
Qed.
Lemma internal_runs_short q es q' :
  forallb internal es = true → run q es = Some q' → length es + work q' ≤ work q.
Proof.
  revert q. induction es as [|e es IH]; intros q Hi Hr; simplify_eq/=; [lia|].
  apply andb_prop in Hi as [He Hi]. destruct (step q e) as [q1|] eqn:E; simplify_eq/=.
  apply internal_keeps in E as [Hw _]; [|done]. specialize (IH q1 Hi Hr). lia.
Qed.

Lemma internal_run_keeps q es q' :
  forallb internal es = true → run q es = Some q' →
  clients q' = clients q ∧ m_closed q' = m_closed q ∧ pushed q' = pushed q.
Proof.
  revert q. induction es as [|e es IH]; intros q Hi Hr; simplify_eq/=; [done|].
  apply andb_prop in Hi as [He Hi]. destruct (step q e) as [q1|] eqn:E; simplify_eq/=.
  apply internal_keeps in E as (_ & <- & <- & <-); [|done]. by apply IH.
Qed.

(** C24: the destructor of a fiber task queue joins its thread exactly when all
    the work is done.  Whatever the interleaving, when the thread of the queue
    has ended the channel is empty, no fiber is left running, and every task
    that was ever pushed has run to its end exactly once.  And after
    [shutdown], once every call of [enqueue] has thrown or pushed its task (none
    was dropped by a closed channel), the join returns: the thread and the
    fibers have at most [work q] steps left together, in every order of these
    steps the thread or a fiber can go on until the thread has ended, and it has
    ended only when every pushed task has run. *)
Theorem shutdown_joins q :
  reachable q →
  (m_thread q = Finished → m_queue q = [] ∧ fibers q = [] ∧ m_detached q = countb is_counted (clients q) + countb is_dropped (clients q) ∧
     finished q ≡ₚ pushed q) ∧
  (m_closed q = true → forallb done_with (clients q) = true →
   (∀ es q', forallb internal es = true → run q es = Some q' →
      length es ≤ work q ∧
      if decide (m_thread q' = Finished) then fibers q' = [] ∧ m_queue q' = [] ∧ finished q' ≡ₚ pushed q
      else ∃ e, internal e = true ∧ is_Some (step q' e)) ∧
   ∃ es q', forallb internal es = true ∧ run q es = Some q' ∧ m_thread q' = Finished).
Proof.
  intros Hre. pose proof (queue_reachable_Inv q Hre) as HI. split.
  { intros Hf. destruct (finished_queue_ran_all q Hre Hf) as (Hq & Hfi & Hp). split_and!; try done.
    rewrite (i_count q HI), Hq, Hfi. simpl. lia. }
  intros Hc Hd. split.
  - intros es q' Hi Hr. split; [pose proof (internal_runs_short _ _ _ Hi Hr); lia|].
    destruct (internal_run_keeps q es q' Hi Hr) as (Hcl & Hc' & Hp). case_decide as Hf.
    + rewrite <-Hp. destruct Hre as (n & es0 & Hr0). destruct (finished_queue_ran_all q') as (? & ? & ?); [|done..].
      exists n, (es0 ++ es). rewrite queue_run_app, Hr0. exact Hr.
    + apply internal_enabled; [by eapply queue_run_Inv|congruence|congruence|done].
  - destruct (done_reached q) as (es & q' & Hi & _ & Hr & Hf & Hp); eauto 10.
Qed.

(** A dropped task keeps its place in [m_detached] for ever. *)
Lemma dropped_kept q e q' i t :
  step q e = Some q' → clients q !! i = Some (Dropped t) → clients q' !! i = Some (Dropped t).
Proof.
  intros Hs Hi. destruct e as [u|j| |j|]; simpl in Hs.
  - simplify_eq. simpl. by apply lookup_app_l_Some.
  - unfold enqueue_continue in Hs. destruct (decide (i = j)) as [<-|Hn]; [by rewrite Hi in Hs|].
    destruct (clients q !! j) as [[u|u|u|u|u]|]; try done; [|destruct (m_closed q); [|destruct (_ <? _); [|done]]];
      simplify_eq; simpl; by rewrite list_lookup_insert_ne.
  - unfold main in Hs. repeat case_match; simplify_eq; done.
  - unfold fiber_ends in Hs. repeat case_match; simplify_eq; done.
  - by simplify_eq.
Qed.

(** [enqueue] ignores what [push] returns: a task pushed after the channel
    was closed, by a call that had found it open, is dropped and still counted in
    [m_detached], so the thread of the queue spins in its last loop for ever and
    the destructor's [join] does not return. *)
Theorem dropped_task_blocks_join q i t es q' :
  reachable q → clients q !! i = Some (Dropped t) → m_thread q ≠ Finished →
  run q es = Some q' → m_thread q' ≠ Finished.
Proof.
  intros HI%queue_reachable_Inv. revert q HI. induction es as [|e es IH]; intros q HI Hi Hf Hr; simplify_eq/=; [done|].
  destruct (step q e) as [q1|] eqn:E; simplify_eq/=. apply (IH q1); [by eapply queue_Inv_step|by eapply dropped_kept| |done].
  intros Hf1. destruct (queue_Inv_step _ _ _ HI E) as [H1 _ _ _ _].
  pose proof (dropped_kept _ _ _ _ _ E Hi) as Hi1. pose proof (countb_elem is_dropped _ _ _ Hi1 eq_refl).
  destruct e as [u|j| |j|]; simpl in E.
  - by simplify_eq.
  - unfold enqueue_continue in E. repeat case_match; simplify_eq; done.
  - unfold main in E. repeat case_match; simplify_eq/=; try done. lia.
  - unfold fiber_ends in E. repeat case_match; simplify_eq; done.
  - by simplify_eq.
Qed.

(** ** Concrete runs *)
Definition served : list event := [Enqueue 7; Continue 0; Continue 0; MainStep; FiberEnds 0; Shutdown; MainStep; MainStep].
Definition racing : list event := [Enqueue 7; Shutdown; Continue 0; Continue 0; MainStep].

Lemma finished_queue_ran_all_witness :
  ∃ q, run (FiberTaskQueue_new 2) served = Some q ∧ m_thread q = Finished ∧
    (m_queue q = [] ∧ fibers q = [] ∧ finished q ≡ₚ pushed q).
Proof.
  eexists. split; [reflexivity|]. split; [reflexivity|].
  apply (finished_queue_ran_all (mkQueue 2 true [] 0 Finished [] [7] [Pushed 7])); [exists 2, served|]; reflexivity.
Defined.
Lemma shutdown_joins_witness :
  ∃ q, run (FiberTaskQueue_new 2) [Enqueue 7; Continue 0; Continue 0; Shutdown; Enqueue 8] = Some q ∧
  (∀ es q', forallb internal es = true → run q es = Some q' → length es ≤ 4) ∧
  ∃ es q', forallb internal es = true ∧ run q es = Some q' ∧ m_thread q' = Finished.
Proof.
  eexists. split; [reflexivity|].
  destruct (shutdown_joins (mkQueue 2 true [7] 1 Popping [] [] [Pushed 7; Thrown 8])) as [_ Hj].
  - exists 2, [Enqueue 7; Continue 0; Continue 0; Shutdown; Enqueue 8]. reflexivity.
  - destruct (Hj eq_refl eq_refl) as [Hall Hex]. split; [|exact Hex].
    intros es q' Hi Hr. exact (proj1 (Hall es q' Hi Hr)).
Defined.
Lemma dropped_task_blocks_join_witness :
  ∃ q, run (FiberTaskQueue_new 2) racing = Some q ∧ m_thread q = Draining ∧ m_detached q = 1 ∧
    ∀ es q', run q es = Some q' → m_thread q' ≠ Finished.
Proof.
  eexists. split; [reflexivity|]. split; [reflexivity|]. split; [reflexivity|]. intros es q'.
  apply (dropped_task_blocks_join (mkQueue 2 true [] 1 Draining [] [] [Dropped 7]) 0 7); [exists 2, racing; reflexivity|reflexivity|discriminate].
Defined.
