(* ===== verification/Barrier.v ===== *)
(** * The thread barrier

    Models [include/srf/core/thread_barrier.hpp], the barrier of the contexts of a
    thread engine ([ThreadContextResources] of
    [include/srf/runnable/thread_context.hpp]): a counter, a boolean that names the
    current cycle and a condition variable.  The threads enter [wait] again and
    again; what a thread does under the mutex is one step, waiters sleep until a
    notification or wake up spuriously, and the last thread to arrive notifies the
    others after it has released the mutex. *)
From S2P Require Import Prelude.

Inductive thread :=
| Outside (r : nat)                             (* has been through [wait] [r] times *)
| Waiting (r : nat) (cycle : bool) (awake : bool)   (* in [cond_.wait] *)
| Notifying (r : nat).                          (* before [cond_.notify_all] *)
#[export] Instance thread_eq_dec : EqDecision thread.
Proof. solve_decision. Defined.

Record thread_barrier := mkBarrier { initial_ : nat; current_ : nat; cycle_ : bool; threads : list thread }.
(** A barrier for [n] threads. *)
Definition thread_barrier_new (n : nat) : thread_barrier := mkBarrier n n true (replicate n (Outside 0)).

Definition wake (t : thread) : thread := match t with Waiting r c _ => Waiting r c true | _ => t end.
Inductive event := Enter (i : nat) | Notify (i : nat) | Recheck (i : nat) | Spurious (i : nat).
(** [wait], from its entry to the predicate of [cond_.wait] or to [lk.unlock()]. *)
Definition enter (i r : nat) (b : thread_barrier) : thread_barrier :=
  if pred (current_ b) =? 0
  then mkBarrier (initial_ b) (initial_ b) (negb (cycle_ b)) (<[i := Notifying r]> (threads b))
  else mkBarrier (initial_ b) (pred (current_ b)) (cycle_ b) (<[i := Waiting r (cycle_ b) false]> (threads b)).
Definition notify_all (i r : nat) (b : thread_barrier) : thread_barrier :=
  mkBarrier (initial_ b) (current_ b) (cycle_ b) (<[i := Outside (S r)]> (wake <$> threads b)).
(** The predicate of [cond_.wait], after a wake-up. *)
Definition recheck (i r : nat) (c : bool) (b : thread_barrier) : thread_barrier :=
  mkBarrier (initial_ b) (current_ b) (cycle_ b)
    (<[i := if bool_decide (c = cycle_ b) then Waiting r c false else Outside (S r)]> (threads b)).
Definition step (b : thread_barrier) (e : event) : option thread_barrier :=
  match e with
  | Enter i => match threads b !! i with Some (Outside r) => Some (enter i r b) | _ => None end
  | Notify i => match threads b !! i with Some (Notifying r) => Some (notify_all i r b) | _ => None end
  | Recheck i => match threads b !! i with Some (Waiting r c true) => Some (recheck i r c b) | _ => None end
  | Spurious i => Some (mkBarrier (initial_ b) (current_ b) (cycle_ b) (alter wake i (threads b)))
  end.
Fixpoint run (b : thread_barrier) (es : list event) : option thread_barrier :=
  match es with [] => Some b | e :: es => step b e ≫= λ b', run b' es end.
Definition reachable (b : thread_barrier) : Prop := ∃ n es, 1 ≤ n ∧ run (thread_barrier_new n) es = Some b.

(** ** Invariant *)
Definition parity (r : nat) : bool := Nat.even r.
#[local] Arguments parity : simpl never.
(** Arrived in round [R] and not released. *)
Definition waits_in (R : nat) (t : thread) : bool := match t with Waiting r _ _ => r =? R | _ => false end.
Definition notifying (t : thread) : bool := match t with Notifying _ => true | _ => false end.
(** What a thread may be doing in round [R]. *)
Definition thread_ok (R : nat) (t : thread) : Prop :=
  match t with
  | Outside r => r = R
  | Waiting r c _ => (r = R ∨ S r = R) ∧ c = parity r
  | Notifying r => S r = R
  end.
Record Inv (R : nat) (b : thread_barrier) : Prop := {
  b_size : initial_ b = length (threads b);
  b_cycle : cycle_ b = parity R;
  b_count : current_ b + countb (waits_in R) (threads b) = length (threads b);
  b_pos : 1 ≤ current_ b;
  b_thread i t : threads b !! i = Some t → thread_ok R t;
  b_asleep i r c : threads b !! i = Some (Waiting r c false) → r ≠ R → ∃ j t, threads b !! j = Some t ∧ notifying t = true;
}.

Lemma countb_two {A} (f : A → bool) l i j (x y : A) :
  i ≠ j → l !! i = Some x → l !! j = Some y → f x = false → f y = false → countb f l + 2 ≤ length l.
Proof.
  assert (∀ l, countb f l ≤ length l) as Hle by (induction l0 as [|z l0 IH]; simpl; [lia|destruct (f z); lia]).
  assert (∀ l i x, l !! i = Some x → f x = false → countb f l + 1 ≤ length l) as Hone.
  { induction l0 as [|z l0 IH]; intros [|k] w Hk Hw; simplify_eq/=; [rewrite Hw; pose proof (Hle l0); lia|].
    specialize (IH k w Hk Hw). destruct (f z); lia. }
  revert i j. induction l as [|z l IH]; intros [|i] [|j] Hij Hi Hj Hx Hy; simplify_eq/=.
  - rewrite Hx. pose proof (Hone _ _ _ Hj Hy). lia.
  - rewrite Hy. pose proof (Hone _ _ _ Hi Hx). lia.
  - assert (i ≠ j) by lia. specialize (IH i j ltac:(done) Hi Hj Hx Hy). destruct (f z); lia.
Qed.
Lemma countb_fmap {A} (f : A → bool) (g : A → A) l : (∀ x, f (g x) = f x) → countb f (g <$> l) = countb f l.
Proof. intros Hfg. induction l as [|x l IH]; [done|]. rewrite fmap_cons. cbn [countb]. by rewrite Hfg, IH. Qed.
Lemma parity_S r : parity (S r) = negb (parity r).
Proof. unfold parity. rewrite Nat.even_succ. by rewrite <-Nat.negb_even. Qed.
Lemma countb_none_later R l : (∀ i t, l !! i = Some t → thread_ok R t) → countb (waits_in (S R)) l = 0.
Proof.
  intros Hl. apply countb_zero, Forall_forall. intros t [i Hi]%list_elem_of_lookup. specialize (Hl _ _ Hi).
  destruct t as [r|r c a|r]; simpl in *; try done. apply Nat.eqb_neq. lia.
Qed.

Lemma Inv_enter R b i r : Inv R b → threads b !! i = Some (Outside r) → Inv R (enter i r b) ∨ Inv (S R) (enter i r b).
Proof.
  intros [H1 H2 H3 H4 H5 H6] Hi. pose proof (H5 _ _ Hi) as Hr. simpl in Hr. subst r. pose proof (lookup_lt_Some _ _ _ Hi) as Hlt.
  unfold enter. destruct (Nat.eqb_spec (pred (current_ b)) 0) as [Hz|Hz].
  - right. assert (current_ b = 1) as Hc by lia. rewrite Hc in H3.
    (* everybody else waits in round R *)
    assert (∀ j t, j ≠ i → threads b !! j = Some t → waits_in R t = true) as Hall.
    { intros j t Hj Ht. destruct (waits_in R t) eqn:E; [done|]. pose proof (countb_two (waits_in R) _ i j _ _ ltac:(done) Hi Ht eq_refl E). lia. }
    assert (∀ j t, <[i := Notifying R]> (threads b) !! j = Some t → thread_ok (S R) t) as Hok.
    { intros j t. destruct (decide (j = i)) as [->|Hn].
      - rewrite list_lookup_insert_eq by done. intros [= <-]. done.
      - rewrite list_lookup_insert_ne by done. intros Ht. specialize (Hall _ _ Hn Ht). specialize (H5 _ _ Ht).
        destruct t as [r|r c a|r]; try done. simpl in *. apply Nat.eqb_eq in Hall. subst r. destruct H5 as [_ ->]. auto. }
    split; simpl; [by rewrite length_insert|by rewrite H2, parity_S| |by rewrite H1; destruct (threads b); simpl in *; lia|done|].
    + assert (countb (waits_in (S R)) (<[i := Notifying R]> (threads b)) = 0) as ->; [|rewrite length_insert; lia].
      pose proof (countb_insert (waits_in (S R)) _ _ _ (Notifying R) Hi) as Hci. simpl in Hci.
      rewrite (countb_none_later R _ H5) in Hci. lia.
    + intros j r c Hj _. exists i, (Notifying R). by rewrite list_lookup_insert_eq.
  - left. pose proof (countb_insert (waits_in R) _ _ _ (Waiting R (cycle_ b) false) Hi) as Hci. simpl in Hci. rewrite Nat.eqb_refl in Hci.
    split; simpl; [by rewrite length_insert|done|rewrite length_insert; lia|lia| |].
    + intros j t. destruct (decide (j = i)) as [->|Hn]; [rewrite list_lookup_insert_eq by done; intros [= <-]; simpl; auto|].
      rewrite list_lookup_insert_ne by done. apply H5.
    + intros j r c. destruct (decide (j = i)) as [->|Hn]; [rewrite list_lookup_insert_eq by done; by intros [= <- _]|].
      rewrite list_lookup_insert_ne by done. intros Hj Hr. destruct (H6 _ _ _ Hj Hr) as (k & t & Hk & Ht). exists k, t.
      split; [|done]. rewrite list_lookup_insert_ne; [done|]. intros ->. simplify_eq.
Qed.

Lemma Inv_notify R b i r : Inv R b → threads b !! i = Some (Notifying r) → Inv R (notify_all i r b).
Proof.
  intros [H1 H2 H3 H4 H5 H6] Hi. pose proof (H5 _ _ Hi) as Hr. simpl in Hr. pose proof (lookup_lt_Some _ _ _ Hi) as Hlt.
  assert ((wake <$> threads b) !! i = Some (Notifying r)) as Hi' by (by rewrite list_lookup_fmap, Hi).
  unfold notify_all. split; simpl; [by rewrite length_insert, length_fmap|done| |done| |].
  - rewrite length_insert, length_fmap. pose proof (countb_insert (waits_in R) _ _ _ (Outside (S r)) Hi') as Hc. simpl in Hc.
    rewrite countb_fmap in Hc by (by intros []). lia.
  - intros j t. destruct (decide (j = i)) as [->|Hn].
    + rewrite list_lookup_insert_eq by (by rewrite length_fmap). by intros [= <-].
    + rewrite list_lookup_insert_ne by done. rewrite list_lookup_fmap. destruct (threads b !! j) as [t0|] eqn:Ej; [|done].
      intros [= <-]. specialize (H5 _ _ Ej). by destruct t0.
  - intros j r' c. destruct (decide (j = i)) as [->|Hn].
    + by rewrite list_lookup_insert_eq by (by rewrite length_fmap).
    + rewrite list_lookup_insert_ne by done. rewrite list_lookup_fmap. destruct (threads b !! j) as [[]|]; done.
Qed.
Lemma Inv_recheck R b i r c : Inv R b → threads b !! i = Some (Waiting r c true) → Inv R (recheck i r c b).
Proof.
  intros [H1 H2 H3 H4 H5 H6] Hi. pose proof (H5 _ _ Hi) as [Hr ->]. pose proof (lookup_lt_Some _ _ _ Hi) as Hlt.
  unfold recheck. set (t' := if bool_decide _ then _ else _).
  assert (thread_ok R t' ∧ (if waits_in R t' then 1 else 0) = (if waits_in R (Waiting r (parity r) true) then 1 else 0) ∧
    (∀ r' c', t' = Waiting r' c' false → r' = R)) as (Hok & Hw & Hs).
  { subst t'. rewrite H2. destruct Hr as [->|<-].
    - rewrite bool_decide_true by done. simpl. rewrite Nat.eqb_refl. split_and!; auto. by intros r' c' [= <-].
    - rewrite bool_decide_false by (rewrite parity_S; by destruct (parity r)). simpl.
      destruct (Nat.eqb_spec r (S r)); [lia|]. split_and!; [done|done|]. intros r' c' ?. done. }
  split; simpl; [by rewrite length_insert|done| |done| |].
  - rewrite length_insert. pose proof (countb_insert (waits_in R) _ _ _ t' Hi) as Hc. lia.
  - intros j t. destruct (decide (j = i)) as [->|Hn]; [rewrite list_lookup_insert_eq by done; by intros [= <-]|].
    rewrite list_lookup_insert_ne by done. apply H5.
  - intros j r' c'. destruct (decide (j = i)) as [->|Hn].
    + rewrite list_lookup_insert_eq by done. intros [= ->] Hr'. by destruct (Hr' (Hs _ _ eq_refl)).
    + rewrite list_lookup_insert_ne by done. intros Hj Hr'. destruct (H6 _ _ _ Hj Hr') as (k & t & Hk & Ht). exists k, t.
      split; [|done]. rewrite list_lookup_insert_ne; [done|]. intros ->. by simplify_eq.
Qed.
Lemma Inv_spurious R b i : Inv R b → Inv R (mkBarrier (initial_ b) (current_ b) (cycle_ b) (alter wake i (threads b))).
Proof.
  intros [H1 H2 H3 H4 H5 H6].
  assert (∀ j t, alter wake i (threads b) !! j = Some t → ∃ t0, threads b !! j = Some t0 ∧ (t = t0 ∨ t = wake t0)) as Hback.
  { intros j t. destruct (decide (i = j)) as [<-|Hn].
    - rewrite list_lookup_alter_eq. destruct (threads b !! i); [|done]. intros [= <-]. eauto.
    - rewrite list_lookup_alter_ne by done. eauto. }
  split; simpl; [by rewrite length_alter|done| |done| |].
  - rewrite length_alter. assert (countb (waits_in R) (alter wake i (threads b)) = countb (waits_in R) (threads b)) as ->; [|done].
    clear. revert i. induction (threads b) as [|t l IH]; intros [|i]; try done; unfold alter in *; simpl; [by destruct t|by rewrite IH].
  - intros j t Hj. destruct (Hback _ _ Hj) as (t0 & Ht0 & [->| ->]); [eauto|]. specialize (H5 _ _ Ht0). by destruct t0.
  - intros j r c Hj Hr. destruct (Hback _ _ Hj) as (t0 & Ht0 & [<-|He]); [|by destruct t0].
    destruct (H6 _ _ _ Ht0 Hr) as (k & t & Hk & Ht). exists k, (wake t). destruct t; try done. split; [|done].
    destruct (decide (i = k)) as [<-|Hn]; [by rewrite list_lookup_alter_eq, Hk|by rewrite list_lookup_alter_ne].
Qed.
Lemma barrier_step R b e b' : Inv R b → step b e = Some b' → ∃ R', Inv R' b'.
Proof.
  intros HI. destruct e as [i|i|i|i]; simpl.
  - destruct (threads b !! i) as [[]|] eqn:Hi; try done. intros [= <-]. destruct (Inv_enter _ _ _ _ HI Hi); eauto.
  - destruct (threads b !! i) as [[]|] eqn:Hi; try done. intros [= <-]. eauto using Inv_notify.
  - destruct (threads b !! i) as [[|? ? []|]|] eqn:Hi; try done. intros [= <-]. eauto using Inv_recheck.
  - intros [= <-]. eauto using Inv_spurious.
Qed.
Lemma barrier_reachable b : reachable b → ∃ R, Inv R b.
Proof.
  intros (n & es & Hn & Hr). assert (Inv 0 (thread_barrier_new n)) as HI.
  { split; simpl; [by rewrite length_replicate|done|rewrite countb_replicate, length_replicate; simpl; lia|done|..].
    - by intros i t [-> _]%lookup_replicate.
    - by intros i r c [? _]%lookup_replicate. }
  assert (∃ R, Inv R (thread_barrier_new n)) as HR by eauto. clear HI. revert HR Hr. generalize (thread_barrier_new n).
  induction es as [|e es IH]; intros b0 [R HI] Hr; simplify_eq/=; [eauto|].
  destruct (step b0 e) as [b1|] eqn:E; simplify_eq/=. eapply IH; [|done]. by eapply barrier_step.
Qed.

(** How often a thread has entered, and how often it has been through. *)
Definition entered (t : thread) : nat := match t with Outside r => r | Waiting r _ _ | Notifying r => S r end.
Definition passed (t : thread) : nat := match t with Outside r | Waiting r _ _ | Notifying r => r end.

(** C32: The barrier synchronises: no thread gets through it for the [k]-th time
    before every thread has entered it [k] times, whatever the scheduling, the
    notifications and spurious wake-ups, although one boolean stands for the round. *)
Theorem barrier_synchronizes b i j t u :
  reachable b → threads b !! i = Some t → threads b !! j = Some u → passed t ≤ entered u.
Proof.
  intros [R HI]%barrier_reachable Ht Hu. pose proof (b_thread _ _ HI _ _ Ht) as H1. pose proof (b_thread _ _ HI _ _ Hu) as H2.
  destruct t, u; simpl in *; lia.
Qed.

(** Nobody has to notify and nobody is about to look at the predicate. *)
Definition asleep (t : thread) : bool := match t with Notifying _ | Waiting _ _ true => false | _ => true end.
(** The barrier loses no wake-up: when every thread is outside or asleep in
    [wait], all of them are in the same round and some thread has not entered it
    yet; so once all threads have entered, some of them is on its way out. *)
Theorem barrier_no_deadlock b :
  reachable b → forallb asleep (threads b) = true →
  ∃ R i, threads b !! i = Some (Outside R) ∧ ∀ j t, threads b !! j = Some t → passed t = R.
Proof.
  intros [R [H1 H2 H3 H4 H5 H6]]%barrier_reachable Hs. rewrite forallb_forall in Hs.
  assert (∀ j t, threads b !! j = Some t → asleep t = true) as Ha
    by (intros j t Hj; apply Hs, list_elem_of_In; by eapply list_elem_of_lookup_2).
  assert (∀ j t, threads b !! j = Some t → passed t = R) as Hp.
  { intros j t Hj. pose proof (H5 _ _ Hj) as Ht. pose proof (Ha _ _ Hj) as Hat. destruct t as [r|r c []|r]; try done. simpl in *.
    destruct (decide (r = R)); [done|]. destruct (H6 _ _ _ Hj) as (k & u & Hk & Hu); [done|]. specialize (Ha _ _ Hk). by destruct u. }
  assert (¬ ∀ j t, threads b !! j = Some t → waits_in R t = true) as Hn.
  { intros Hall. assert (countb (waits_in R) (threads b) = length (threads b)) as He; [|lia].
    clear -Hall. induction (threads b) as [|t l IH]; simpl; [done|]. rewrite (Hall 0 t) by done.
    rewrite IH; [done|]. intros j u Hj. by apply (Hall (S j)). }
  exists R. assert (Exists (λ t, waits_in R t = false) (threads b)) as He.
  { destruct (decide (Exists (λ t, waits_in R t = false) (threads b))) as [|Hx]; [done|]. destruct Hn. intros j t Hj.
    apply not_Exists_Forall in Hx; [|apply _]. rewrite Forall_lookup in Hx. specialize (Hx _ _ Hj). simpl in Hx. by destruct (waits_in R t). }
  apply Exists_exists in He as (t & [i Hi]%list_elem_of_lookup & Ht). exists i. split; [|done].
  pose proof (Hp _ _ Hi) as Hpi. specialize (Ha _ _ Hi). destruct t as [r|r c []|r]; try done; simpl in *; subst r; [done|].
  by rewrite Nat.eqb_refl in Ht.
Qed.

(** ** Two threads, two rounds *)
Definition two_rounds : list event := [Enter 0; Enter 1; Spurious 0; Notify 1; Enter 1; Recheck 0].
Lemma barrier_synchronizes_witness :
  ∃ b, run (thread_barrier_new 2) two_rounds = Some b ∧ threads b = [Outside 1; Waiting 1 false false] ∧ passed (Outside 1) ≤ entered (Waiting 1 false false).
Proof.
  eexists. split; [reflexivity|]. split; [reflexivity|].
  apply (barrier_synchronizes (mkBarrier 2 1 false [Outside 1; Waiting 1 false false]) 0 1); [|reflexivity..].
  exists 2, two_rounds. split; [lia|reflexivity].
Defined.
Lemma barrier_no_deadlock_witness :
  ∃ R i, threads (mkBarrier 2 1 false [Outside 1; Waiting 1 false false]) !! i = Some (Outside R) ∧
    ∀ j t, [Outside 1; Waiting 1 false false] !! j = Some t → passed t = R.
Proof.
  apply (barrier_no_deadlock (mkBarrier 2 1 false [Outside 1; Waiting 1 false false])); [|reflexivity].
  exists 2, two_rounds. split; [lia|reflexivity].
Defined.
