(* ===== verification/ThreadPool.v ===== *)
(** * The thread pool of the rpc tools

    Models [tools/nvrpc/include/nvrpc/thread_pool.h]: workers that take tasks from
    a shared queue under a mutex and sleep on a condition variable while there is
    none.  What a thread does under the mutex is one step; [notify_one] and
    [notify_all] come after the mutex is released, and may be delayed.  A task is a
    number. *)
From S2P Require Import Prelude.

Inductive worker := Ready | Executing (t : nat) | Sleeping | Exited.
#[export] Instance worker_eq_dec : EqDecision worker.
Proof. solve_decision. Defined.
Record BaseThreadPool := mkPool {
  m_workers : list worker;
  m_tasks : list nat;
  stop : bool;
  to_notify : nat;                  (* calls of notify_one to come *)
  to_notify_all : bool;             (* the destructor's notify_all is to come *)
  accepted : list nat;              (* enqueued without an exception *)
  started : list nat;
  completed : list nat;
}.
Definition BaseThreadPool_new (thread_count : nat) : BaseThreadPool :=
  mkPool (replicate thread_count Ready) [] false 0 false [] [] [].

Definition enqueue (t : nat) (p : BaseThreadPool) : res () * BaseThreadPool :=
  if stop p then (Throw "enqueue on stopped BaseThreadPool", p)
  else (Ret (), mkPool (m_workers p) (m_tasks p ++ [t]) (stop p) (S (to_notify p)) (to_notify_all p)
                  (accepted p ++ [t]) (started p) (completed p)).
Definition is_asleep (w : worker) : bool := match w with Sleeping => true | _ => false end.
Definition is_ready (w : worker) : bool := match w with Ready => true | _ => false end.
Definition wake (w : worker) : worker := match w with Sleeping => Ready | _ => w end.
Definition with_workers (l : list worker) (p : BaseThreadPool) : BaseThreadPool :=
  mkPool l (m_tasks p) (stop p) (to_notify p) (to_notify_all p) (accepted p) (started p) (completed p).
(** Wakes worker [i], or nobody when nobody sleeps. *)
Definition notify_one (i : nat) (p : BaseThreadPool) : option BaseThreadPool :=
  match to_notify p with
  | 0 => None
  | S n =>
      let p' l := mkPool l (m_tasks p) (stop p) n (to_notify_all p) (accepted p) (started p) (completed p) in
      if existsb is_asleep (m_workers p)
      then match m_workers p !! i with Some Sleeping => Some (p' (<[i := Ready]> (m_workers p))) | _ => None end
      else Some (p' (m_workers p))
  end.
(** The loop of [create_thread]: from the lock to the end of its scope, or the task. *)
Definition work (i : nat) (p : BaseThreadPool) : option BaseThreadPool :=
  match m_workers p !! i with
  | Some Ready =>
      match m_tasks p with
      | t :: ts =>
          Some (mkPool (<[i := Executing t]> (m_workers p)) ts (stop p) (to_notify p) (to_notify_all p)
                  (accepted p) (started p ++ [t]) (completed p))
      | [] => Some (with_workers (<[i := if stop p then Exited else Sleeping]> (m_workers p)) p)
      end
  | Some (Executing t) =>
      Some (mkPool (<[i := Ready]> (m_workers p)) (m_tasks p) (stop p) (to_notify p) (to_notify_all p)
              (accepted p) (started p) (completed p ++ [t]))
  | _ => None
  end.
(** The destructor up to its joins. *)
Definition destroy (p : BaseThreadPool) : BaseThreadPool :=
  mkPool (m_workers p) (m_tasks p) true (to_notify p) true (accepted p) (started p) (completed p).
Definition notify_all (p : BaseThreadPool) : option BaseThreadPool :=
  if to_notify_all p
  then Some (mkPool (wake <$> m_workers p) (m_tasks p) (stop p) (to_notify p) false (accepted p) (started p) (completed p))
  else None.

Inductive event := Enqueue (t : nat) | NotifyOne (i : nat) | Work (i : nat) | Destroy | NotifyAll | Spurious (i : nat).
Definition step (p : BaseThreadPool) (e : event) : option BaseThreadPool :=
  match e with
  | Enqueue t => Some (enqueue t p).2
  | NotifyOne i => notify_one i p
  | Work i => work i p
  | Destroy => Some (destroy p)
  | NotifyAll => notify_all p
  | Spurious i => Some (with_workers (alter wake i (m_workers p)) p)
  end.
Fixpoint run (p : BaseThreadPool) (es : list event) : option BaseThreadPool :=
  match es with [] => Some p | e :: es => step p e ≫= λ p', run p' es end.
Definition reachable (p : BaseThreadPool) : Prop := ∃ n es, run (BaseThreadPool_new n) es = Some p.
(** Steps of the pool's own threads and of notifications under way. *)
Definition internal (e : event) : bool := match e with NotifyOne _ | Work _ | NotifyAll => true | _ => false end.

(** ** Invariant *)
Definition executing (w : worker) : option nat := match w with Executing t => Some t | _ => None end.
Record Inv (p : BaseThreadPool) : Prop := {
  p_fifo : started p ++ m_tasks p = accepted p;
  p_once : started p ≡ₚ omap executing (m_workers p) ++ completed p;
  p_wake : countb is_asleep (m_workers p) ≠ 0 → length (m_tasks p) ≤ countb is_ready (m_workers p) + to_notify p;
  p_stop : stop p = true → to_notify_all p = false → countb is_asleep (m_workers p) = 0;
  p_exit i : m_workers p !! i = Some Exited → stop p = true ∧ m_tasks p = [];
  p_all : to_notify_all p = true → stop p = true;
}.

Lemma omap_insert (i : nat) (w w' : worker) l :
  l !! i = Some w → executing w = None → omap executing (<[i := w']> l) ≡ₚ option_list (executing w') ++ omap executing l.
Proof.
  revert i. induction l as [|z l IH]; intros [|i] Hi Hw; simplify_eq/=.
  - rewrite Hw. by destruct (executing w').
  - specialize (IH i Hi Hw). destruct (executing z); [|done]. rewrite IH. destruct (executing w'); simpl; [apply Permutation_swap|done].
Qed.
Lemma omap_remove (i t : nat) (w' : worker) l :
  l !! i = Some (Executing t) → executing w' = None → omap executing l ≡ₚ t :: omap executing (<[i := w']> l).
Proof.
  revert i. induction l as [|z l IH]; intros [|i] Hi Hw; simplify_eq/=.
  - by rewrite Hw.
  - specialize (IH i Hi Hw). destruct (executing z); [|done]. rewrite IH. apply Permutation_swap.
Qed.
Lemma wake_omap (l : list worker) : omap executing (wake <$> l) = omap executing l.
Proof. induction l as [|w l IH]; [done|]. rewrite fmap_cons. destruct w; simpl; [exact IH|f_equal; exact IH|exact IH|exact IH]. Qed.
Lemma insert_cases {A} (l : list A) i j x y (P : Prop) :
  <[i := x]> l !! j = Some y → (x = y → P) → (l !! j = Some y → P) → P.
Proof.
  intros Hj Hx Hl. destruct (decide (j = i)) as [->|Hn].
  - destruct (decide (i < length l)); [rewrite list_lookup_insert_eq in Hj by done; by simplify_eq; auto|].
    rewrite list_insert_ge in Hj by lia. auto.
  - rewrite list_lookup_insert_ne in Hj by done. auto.
Qed.

Lemma pool_work p i p' : Inv p → work i p = Some p' → Inv p'.
Proof.
  intros [H1 H2 H3 H4 H5 H6]. unfold work. destruct (m_workers p !! i) as [[|t| |]|] eqn:Hi; try done.
  - destruct (m_tasks p) as [|t ts] eqn:Et; intros [= <-].
    + pose proof (countb_insert is_asleep _ _ _ (if stop p then Exited else Sleeping) Hi) as C1.
      split; simpl; rewrite ?Et; auto.
      * rewrite (omap_insert _ _ _ _ Hi) by done. by destruct (stop p).
      * simpl. lia.
      * intros Hs Hn. specialize (H4 Hs Hn). rewrite Hs in C1. simpl in C1. rewrite Hs. lia.
      * intros j Hj. eapply insert_cases; [exact Hj| |intros Hj'; destruct (H5 j Hj'); done]. destruct (stop p); done.
    + pose proof (countb_insert is_asleep _ _ _ (Executing t) Hi) as C1. pose proof (countb_insert is_ready _ _ _ (Executing t) Hi) as C2.
      simpl in C1, C2. split; simpl; auto.
      * by rewrite <-app_assoc.
      * rewrite (omap_insert _ _ _ _ Hi) by done. simpl. rewrite H2. symmetry. apply Permutation_cons_append.
      * intros Hs. simpl in H3. specialize (H3 ltac:(lia)). lia.
      * intros Hs Hn. specialize (H4 Hs Hn). lia.
      * intros j Hj. eapply insert_cases; [exact Hj|done|]. intros Hj'. by destruct (H5 j Hj').
  - intros [= <-]. pose proof (countb_insert is_asleep _ _ _ Ready Hi) as C1. pose proof (countb_insert is_ready _ _ _ Ready Hi) as C2.
    simpl in C1, C2. split; simpl; auto.
    + rewrite H2, (omap_remove _ _ Ready _ Hi) by done. simpl. by rewrite app_assoc, <-Permutation_cons_append.
    + intros Hs. specialize (H3 ltac:(lia)). lia.
    + intros Hs Hn. specialize (H4 Hs Hn). lia.
    + intros j Hj. eapply insert_cases; [exact Hj|done|]. apply H5.
Qed.
Lemma existsb_countb {A} (f : A → bool) l : existsb f l = false → countb f l = 0.
Proof. induction l as [|x l IH]; simpl; [done|]. intros [-> Hl]%orb_false_elim. auto. Qed.
Lemma pool_notify_one p i p' : Inv p → notify_one i p = Some p' → Inv p'.
Proof.
  intros [H1 H2 H3 H4 H5 H6]. unfold notify_one. destruct (to_notify p) as [|n] eqn:En; [done|].
  destruct (existsb is_asleep (m_workers p)) eqn:Ex.
  - destruct (m_workers p !! i) as [[]|] eqn:Hi; try done. intros [= <-].
    pose proof (countb_insert is_asleep _ _ _ Ready Hi) as C1. pose proof (countb_insert is_ready _ _ _ Ready Hi) as C2. simpl in C1, C2.
    split; simpl; auto.
    + by rewrite (omap_insert _ _ _ _ Hi).
    + intros Hs. specialize (H3 ltac:(lia)). lia.
    + intros Hs Hn. specialize (H4 Hs Hn). lia.
    + intros j Hj. eapply insert_cases; [exact Hj|done|apply H5].
  - intros [= <-]. apply existsb_countb in Ex. split; simpl; auto. intros Hs. lia.
Qed.
Lemma countb_wake_ready (l : list worker) : countb is_ready (wake <$> l) = countb is_ready l + countb is_asleep l ∧ countb is_asleep (wake <$> l) = 0.
Proof.
  induction l as [|w l [IH1 IH2]]; [done|]. rewrite fmap_cons. cbn [countb]. rewrite IH1, IH2. destruct w; simpl; lia.
Qed.
Lemma pool_step p e p' : Inv p → step p e = Some p' → Inv p'.
Proof.
  intros HI. pose proof HI as [H1 H2 H3 H4 H5 H6]. destruct e as [t|i|i| | |i]; simpl.
  - intros [= <-]. unfold enqueue. destruct (stop p) eqn:Es; simpl; [done|]. split; simpl; auto.
    + by rewrite app_assoc, H1.
    + intros Hs. rewrite length_app. simpl. specialize (H3 Hs). lia.
    + intros i Hi. destruct (H5 i Hi). congruence.
  - by apply pool_notify_one.
  - by apply pool_work.
  - intros [= <-]. split; simpl; auto; [done|]. intros i Hi. by destruct (H5 i Hi).
  - unfold notify_all. destruct (to_notify_all p) eqn:En; [|done]. intros [= <-].
    destruct (countb_wake_ready (m_workers p)) as [W1 W2]. split; simpl; auto.
    + by rewrite wake_omap.
    + rewrite W2. done.
    + intros i. rewrite list_lookup_fmap. destruct (m_workers p !! i) as [[]|] eqn:Hi; try done. intros _. by apply (H5 i).
  - intros [= <-]. destruct (m_workers p !! i) as [w|] eqn:Hi.
    + assert (alter wake i (m_workers p) = <[i := wake w]> (m_workers p)) as Ha.
      { apply list_eq. intros j. destruct (decide (i = j)) as [<-|Hn].
        - by rewrite list_lookup_alter_eq, Hi, list_lookup_insert_eq by (by eapply lookup_lt_Some).
        - by rewrite list_lookup_alter_ne, list_lookup_insert_ne. }
      destruct (decide (w = Sleeping)) as [->|Hw].
      * pose proof (countb_insert is_asleep _ _ _ Ready Hi) as C1. pose proof (countb_insert is_ready _ _ _ Ready Hi) as C2. simpl in C1, C2.
        split; simpl; rewrite ?Ha; auto; simpl.
        -- by rewrite (omap_insert _ _ _ _ Hi).
        -- intros Hs. specialize (H3 ltac:(lia)). lia.
        -- intros Hs Hn. specialize (H4 Hs Hn). lia.
        -- intros j Hj. eapply insert_cases; [exact Hj|done|apply H5].
      * assert (wake w = w) as Hww by (by destruct w). rewrite Ha, Hww, list_insert_id by done. by destruct p.
    + assert (alter wake i (m_workers p) = m_workers p) as ->; [|by destruct p].
      apply list_eq. intros j. destruct (decide (i = j)) as [<-|Hn]; [by rewrite list_lookup_alter_eq, Hi|by rewrite list_lookup_alter_ne].
Qed.
Lemma pool_reachable p : reachable p → Inv p.
Proof.
  intros (n & es & Hr). assert (Inv (BaseThreadPool_new n)) as HI.
  { split; simpl; auto.
    - rewrite app_nil_r. clear Hr. induction n as [|n IH]; [done|exact IH].
    - lia.
    - done.
    - by intros i [? _]%lookup_replicate. }
  revert HI Hr. generalize (BaseThreadPool_new n). induction es as [|e es IH]; intros p0 HI Hr; simplify_eq/=; [done|].
  destruct (step p0 e) as [p1|] eqn:E; simplify_eq/=. eapply IH; [|done]. by eapply pool_step.
Qed.

(** ** What the pool promises *)
Definition weight (w : worker) : nat := match w with Ready => 1 | Executing _ => 2 | _ => 0 end.
Definition measure (p : BaseThreadPool) : nat :=
  3 * length (m_tasks p) + sum_list_with weight (m_workers p) + 2 * to_notify p +
  (if to_notify_all p then S (length (m_workers p)) else 0).
Lemma wake_weight (l : list worker) : sum_list_with weight (wake <$> l) ≤ sum_list_with weight l + length l.
Proof. induction l as [|w l IH]; [done|]. rewrite fmap_cons. simpl. destruct w; simpl in *; lia. Qed.
Lemma measure_decreases p e p' : internal e = true → step p e = Some p' → measure p' < measure p.
Proof.
  intros He. destruct e as [|i|i| | |]; try done; simpl; unfold measure.
  - unfold notify_one. destruct (to_notify p) as [|n]; [done|]. destruct (existsb is_asleep (m_workers p)).
    + destruct (m_workers p !! i) as [[]|] eqn:Hi; try done. intros [= <-]. simpl.
      pose proof (sum_insert weight _ _ _ Ready Hi) as Hs. simpl in Hs. rewrite length_insert. destruct (to_notify_all p); lia.
    + intros [= <-]. simpl. destruct (to_notify_all p); lia.
  - unfold work. destruct (m_workers p !! i) as [[|t| |]|] eqn:Hi; try done.
    + destruct (m_tasks p) as [|t ts] eqn:Et; intros [= <-]; simpl.
      * pose proof (sum_insert weight _ _ _ (if stop p then Exited else Sleeping) Hi) as Hs. rewrite length_insert.
        rewrite Et. destruct (stop p); simpl in *; destruct (to_notify_all p); lia.
      * pose proof (sum_insert weight _ _ _ (Executing t) Hi) as Hs. simpl in Hs. rewrite length_insert. destruct (to_notify_all p); lia.
    + intros [= <-]. simpl. pose proof (sum_insert weight _ _ _ Ready Hi) as Hs. simpl in Hs. rewrite length_insert. destruct (to_notify_all p); lia.
  - unfold notify_all. destruct (to_notify_all p); [|done]. intros [= <-]. simpl. pose proof (wake_weight (m_workers p)). lia.
Qed.
Lemma ready_or_busy p i w : m_workers p !! i = Some w → w ≠ Sleeping → w ≠ Exited → is_Some (step p (Work i)).
Proof.
  intros Hi H1 H2. simpl. unfold work. rewrite Hi. destruct w; [destruct (m_tasks p)| |done|done]; eauto.
Qed.
Lemma countb_pos {A} (f : A → bool) l : countb f l ≠ 0 → ∃ i x, l !! i = Some x ∧ f x = true.
Proof.
  induction l as [|x l IH]; simpl; [done|]. destruct (f x) eqn:E; [by exists 0, x|]. intros Hc. destruct (IH Hc) as (i & y & Hi & Hy). by exists (S i), y.
Qed.
Lemma notify_enabled p : to_notify p ≠ 0 → ∃ e, internal e = true ∧ is_Some (step p e).
Proof.
  intros Hn. destruct (existsb is_asleep (m_workers p)) eqn:Ex.
  - assert (countb is_asleep (m_workers p) ≠ 0) as Hc.
    { apply existsb_exists in Ex as (w & [i Hi]%list_elem_of_In%list_elem_of_lookup & Hw). pose proof (countb_elem is_asleep _ _ _ Hi Hw). lia. }
    destruct (countb_pos _ _ Hc) as (i & w & Hi & Hw). exists (NotifyOne i). split; [done|]. simpl. unfold notify_one.
    destruct (to_notify p); [done|]. rewrite Ex, Hi. by destruct w.
  - exists (NotifyOne 0). split; [done|]. simpl. unfold notify_one. destruct (to_notify p); [done|]. rewrite Ex. eauto.
Qed.
Definition all_exited (p : BaseThreadPool) : Prop := ∀ i w, m_workers p !! i = Some w → w = Exited.

(** C36: in every interleaving of the threads that enqueue, of the workers, their spurious
    wake-ups and delayed notifications, and of the destructor, tasks are started in the
    order in which they were accepted and each once: those started, followed by the queue,
    are the accepted ones, and those started are being executed or complete.  The pool loses
    no wake-up and drains before it is joined: as long as tasks are queued or the destructor
    has run, and the pool has a worker, some worker can go on or some notification is under
    way, unless all workers have exited; then every accepted task is complete.  The steps
    left are bounded by [measure], so the destructor's joins return (a task is one step: it
    is taken to end). *)
Theorem pool_drains p :
  reachable p →
  (started p ++ m_tasks p = accepted p ∧ started p ≡ₚ omap executing (m_workers p) ++ completed p) ∧
  (m_tasks p ≠ [] ∨ stop p = true → m_workers p ≠ [] →
     (∃ e, internal e = true ∧ is_Some (step p e)) ∨ (all_exited p ∧ completed p ≡ₚ accepted p)) ∧
  (∀ e p', internal e = true → step p e = Some p' → measure p' < measure p).
Proof.
  intros HI%pool_reachable. split; [by destruct HI|]. split; [|intros e p'; apply measure_decreases]. destruct HI as [H1 H2 H3 H4 H5 H6]. intros Hwork Hne.
  destruct (decide (to_notify p = 0)) as [Hn|Hn]; [|left; by apply notify_enabled].
  destruct (to_notify_all p) eqn:Ea.
  { left. exists NotifyAll. split; [done|]. simpl. unfold notify_all. rewrite Ea. eauto. }
  destruct (decide (Exists (λ w, w ≠ Sleeping ∧ w ≠ Exited) (m_workers p))) as [He|He].
  { left. apply Exists_exists in He as (w & [i Hi]%list_elem_of_lookup & Hs & Hx). exists (Work i). split; [done|]. by eapply ready_or_busy. }
  right. apply not_Exists_Forall in He; [|apply _]. rewrite Forall_lookup in He.
  assert (∀ i w, m_workers p !! i = Some w → w = Sleeping ∨ w = Exited) as Hall.
  { intros i w Hi. specialize (He _ _ Hi). simpl in He. destruct w; auto; exfalso; by apply He. }
  assert (countb is_ready (m_workers p) = 0) as Hr.
  { apply countb_zero, Forall_lookup. intros i w Hi. by destruct (Hall _ _ Hi) as [->| ->]. }
  assert (countb is_asleep (m_workers p) = 0) as Hs.
  { destruct (decide (countb is_asleep (m_workers p) = 0)) as [|Hs]; [done|]. specialize (H3 Hs). rewrite Hr, Hn in H3.
    destruct Hwork as [Ht|Ht]; [by destruct (m_tasks p); simpl in *; [|lia]|auto]. }
  assert (all_exited p) as Hex.
  { intros i w Hi. destruct (Hall _ _ Hi) as [->|]; [|done]. pose proof (countb_elem is_asleep _ _ _ Hi eq_refl). lia. }
  split; [done|]. destruct (m_workers p) as [|w l] eqn:Ew; [done|].
  assert (w = Exited) as -> by (apply (Hex 0); by rewrite Ew).
  destruct (H5 0 eq_refl) as [_ Ht]. rewrite Ht, app_nil_r in H1. rewrite <-H1, H2.
  assert (omap executing (Exited :: l) = []) as ->; [|done].
  assert (∀ k : list worker, (∀ i w, k !! i = Some w → w = Exited) → omap executing k = []) as Hk.
  { induction k as [|x k IH]; intros Hkx; [done|]. simpl. rewrite (Hkx 0 x) by done. simpl. apply IH. intros i y Hi. by apply (Hkx (S i)). }
  apply Hk. intros i y Hi. apply (Hex i). by rewrite Ew.
Qed.

(** ** A run with one worker *)
Definition slept : list event := [Work 0; Enqueue 7; Enqueue 8; NotifyOne 0; Destroy].
Definition slept_pool : BaseThreadPool := mkPool [Ready] [7; 8] true 1 true [7; 8] [] [].
Lemma pool_drains_witness :
  run (BaseThreadPool_new 1) slept = Some slept_pool ∧ (started slept_pool ++ m_tasks slept_pool = [7; 8] ∧ started slept_pool ≡ₚ []) ∧
  ((∃ e, internal e = true ∧ is_Some (step slept_pool e)) ∨ (all_exited slept_pool ∧ completed slept_pool ≡ₚ accepted slept_pool)).
Proof.
  split; [reflexivity|]. destruct (pool_drains slept_pool) as (H1 & H2 & _); [exists 1, slept; reflexivity|]. split; [exact H1|].
  apply H2; [right; reflexivity|discriminate].
Defined.
