(* ===== verification/SystemPool.v ===== *)
(** * The thread pool of the system

    Models [src/internal/system/thread_pool.hpp] and [thread_pool.cpp]: one thread per cpu
    of a set, which execute the tasks of a bounded channel until it is closed and empty.
    [enqueue] waits while the channel is full, and throws when it finds it closed, also
    after it has waited; the exception of a task goes to the task's future.

    A task is a number.  What a thread does between two operations of the channel is one
    step; the channel is [boost::fibers::buffered_channel], whose [pop] returns what is left
    before it reports that the channel is closed. *)
From Stdlib Require Import Strings.String.
From S2P Require Import Prelude Hwloc Bitmap Topology System ThreadPool.

(** ** The pool *)
Section pool.
Context (capacity : nat).              (* how many tasks the channel holds *)
Record ThreadPool := mkTP {
  m_threads : list worker;
  m_channel : list nat;
  is_closed : bool;
  pushing : list nat;                  (* the calls of [enqueue] that wait for room *)
  accepted : list nat;
  rejected : list nat;                 (* the calls that threw *)
  started : list nat;
  completed : list nat;
}.
Definition new_pool (threads : nat) : ThreadPool := mkTP (replicate threads Ready) [] false [] [] [] [] [].
(** [m_channel.push] of task [t], which may be one that waits. *)
Definition push (t : nat) (waiting : list nat) (p : ThreadPool) : ThreadPool :=
  if is_closed p then mkTP (m_threads p) (m_channel p) true waiting (accepted p) (rejected p ++ [t]) (started p) (completed p)
  else if decide (length (m_channel p) < capacity)
  then mkTP (m_threads p) (m_channel p ++ [t]) false waiting (accepted p ++ [t]) (rejected p) (started p) (completed p)
  else mkTP (m_threads p) (m_channel p) false (waiting ++ [t]) (accepted p) (rejected p) (started p) (completed p).
Definition enqueue (t : nat) (p : ThreadPool) : ThreadPool := push t (pushing p) p.
(** A call that waits goes on when there is room, or the channel is closed. *)
Definition resume (j : nat) (p : ThreadPool) : option ThreadPool :=
  match pushing p !! j with
  | Some t => if is_closed p || bool_decide (length (m_channel p) < capacity) then Some (push t (delete j (pushing p)) p) else None
  | None => None
  end.
(** The loop of a thread: a [pop], or the end of a task; [None]: it waits. *)
Definition work (i : nat) (p : ThreadPool) : option ThreadPool :=
  match m_threads p !! i with
  | Some Ready =>
      match m_channel p with
      | t :: ts => Some (mkTP (<[i := Executing t]> (m_threads p)) ts (is_closed p) (pushing p) (accepted p) (rejected p) (started p ++ [t]) (completed p))
      | [] => if is_closed p
              then Some (mkTP (<[i := Exited]> (m_threads p)) [] true (pushing p) (accepted p) (rejected p) (started p) (completed p))
              else None
      end
  | Some (Executing t) =>
      Some (mkTP (<[i := Ready]> (m_threads p)) (m_channel p) (is_closed p) (pushing p) (accepted p) (rejected p) (started p) (completed p ++ [t]))
  | _ => None
  end.
Definition shutdown (p : ThreadPool) : ThreadPool :=
  mkTP (m_threads p) (m_channel p) true (pushing p) (accepted p) (rejected p) (started p) (completed p).
(** The destructor, up to its joins. *)
Definition destroy (p : ThreadPool) : ThreadPool := if is_closed p then p else shutdown p.

Inductive event := Enqueue (t : nat) | Resume (j : nat) | Work (i : nat) | Shutdown | Destroy.
Definition step (p : ThreadPool) (e : event) : option ThreadPool :=
  match e with
  | Enqueue t => Some (enqueue t p)
  | Resume j => resume j p
  | Work i => work i p
  | Shutdown => Some (shutdown p)
  | Destroy => Some (destroy p)
  end.
Fixpoint run (p : ThreadPool) (es : list event) : option ThreadPool :=
  match es with [] => Some p | e :: es => step p e ≫= λ p', run p' es end.
Definition internal (e : event) : bool := match e with Resume _ | Work _ => true | _ => false end.
Definition enqueued (es : list event) : list nat := omap (λ e, match e with Enqueue t => Some t | _ => None end) es.

(** ** Invariant *)
Record Inv (n : nat) (tasks : list nat) (p : ThreadPool) : Prop := {
  q_fifo : started p ++ m_channel p = accepted p;
  q_once : started p ≡ₚ omap executing (m_threads p) ++ completed p;
  q_tasks : tasks ≡ₚ accepted p ++ pushing p ++ rejected p;
  q_room : length (m_channel p) ≤ capacity;
  q_exit : ∀ i, m_threads p !! i = Some Exited → is_closed p = true ∧ m_channel p = [];
  q_awake : ∀ i, m_threads p !! i ≠ Some Sleeping;
  q_rejected : rejected p ≠ [] → is_closed p = true;
  q_threads : length (m_threads p) = n;
}.
Lemma push_inv n tasks t waiting p : Inv n tasks p →
  Inv n (accepted p ++ (waiting ++ [t]) ++ rejected p) (push t waiting p).
Proof.
  intros [H1 H2 H3 H4 H5 H6 H7 H8]. unfold push. destruct (is_closed p) eqn:Ec; [|destruct (decide _)]; split; cbn; try done.
  - apply Permutation_app_head. by rewrite (Permutation_app_comm (rejected p)), app_assoc.
  - by rewrite app_assoc, H1.
  - rewrite <-!app_assoc. apply Permutation_app_head. rewrite (app_assoc _ [t]), (Permutation_app_comm waiting [t]). by rewrite <-app_assoc.
  - rewrite length_app. cbn. lia.
  - intros i Hi. destruct (H5 i Hi). done.
Qed.
Lemma inv_tasks n tasks tasks' p : tasks ≡ₚ tasks' → Inv n tasks p → Inv n tasks' p.
Proof. intros E [H1 H2 H3 H4 H5 H6 H7 H8]. split; try done. by rewrite <-E. Qed.
Lemma work_inv n tasks i p p' : Inv n tasks p → work i p = Some p' → Inv n tasks p'.
Proof.
  intros [H1 H2 H3 H4 H5 H6 H7 H8]. unfold work. destruct (m_threads p !! i) as [[|t| |]|] eqn:Hi; try done.
  - destruct (m_channel p) as [|t ts] eqn:Et; [destruct (is_closed p) eqn:Ec; [|done]|]; intros [= <-]; split; cbn in *; rewrite ?length_insert; try done; try lia.
    + by rewrite (omap_insert _ _ _ _ Hi).
    + intros j Hj. eapply insert_cases; [exact Hj|done|apply H6].
    + by rewrite <-app_assoc.
    + rewrite (omap_insert _ _ _ _ Hi) by done. cbn. rewrite H2. symmetry. apply Permutation_cons_append.
    + intros j Hj. eapply insert_cases; [exact Hj|done|]. intros Hj'. by destruct (H5 j Hj').
    + intros j Hj. eapply insert_cases; [exact Hj|done|apply H6].
  - intros [= <-]. split; cbn; rewrite ?length_insert; try done.
    + rewrite H2, (omap_remove _ _ Ready _ Hi) by done. cbn. by rewrite app_assoc, <-Permutation_cons_append.
    + intros j Hj. eapply insert_cases; [exact Hj|done|apply H5].
    + intros j Hj. eapply insert_cases; [exact Hj|done|apply H6].
Qed.
Lemma shutdown_inv n tasks p : Inv n tasks p → Inv n tasks (shutdown p).
Proof. intros [H1 H2 H3 H4 H5 H6 H7 H8]. split; try done. intros i Hi. by destruct (H5 i Hi). Qed.
Lemma step_inv n tasks e p p' : Inv n tasks p → step p e = Some p' → Inv n (tasks ++ enqueued [e]) p'.
Proof.
  intros HI. pose proof HI as [H1 H2 H3 H4 H5 H6 H7 H8]. destruct e as [t|j|i| |]; cbn; rewrite ?app_nil_r.
  - intros [= <-]. eapply inv_tasks; [|by apply (push_inv n tasks t (pushing p))]. rewrite H3, <-!app_assoc. do 2 apply Permutation_app_head. apply Permutation_app_comm.
  - unfold resume. destruct (pushing p !! j) as [t|] eqn:Hj; [|done]. destruct (_ || _); [|done]. intros [= <-].
    eapply inv_tasks; [|by apply (push_inv n tasks t (delete j (pushing p)))]. rewrite H3. apply Permutation_app_head, Permutation_app_tail.
    rewrite <-Permutation_cons_append. symmetry. by apply delete_Permutation.
  - by apply work_inv.
  - intros [= <-]. by apply shutdown_inv.
  - intros [= <-]. unfold destroy. destruct (is_closed p); [done|by apply shutdown_inv].
Qed.
Lemma run_inv n es tasks p p' : Inv n tasks p → run p es = Some p' → Inv n (tasks ++ enqueued es) p'.
Proof.
  revert tasks p. induction es as [|e es IH]; intros tasks p HI Hr; cbn in Hr; [simplify_eq; by rewrite app_nil_r|].
  destruct (step p e) as [p1|] eqn:E; [|done]. cbn in Hr. pose proof (IH _ _ (step_inv n tasks e p p1 HI E) Hr) as H.
  rewrite <-app_assoc in H. unfold enqueued in *. by rewrite <-omap_app in H.
Qed.
Lemma new_inv n : Inv n [] (new_pool n).
Proof.
  split; cbn; rewrite ?length_replicate; try done; try lia.
  - rewrite app_nil_r. induction n as [|n IH]; [done|exact IH].
  - by intros i [? _]%lookup_replicate.
  - by intros i [? _]%lookup_replicate.
Qed.
(** The pool is quiet: no thread and no waiting call can go on. *)
Lemma pool_quiet_done n tasks p : 0 < n → 0 < capacity → Inv n tasks p → (∀ e, internal e = true → step p e = None) →
  completed p ≡ₚ accepted p ∧ pushing p = [] ∧ (is_closed p = true → ∀ i w, m_threads p !! i = Some w → w = Exited).
Proof.
  intros Hn Hc [H1 H2 H3 H4 H5 H6 H7 H8] Hq.
  assert (∀ i w, m_threads p !! i = Some w → w = Exited ∨ (w = Ready ∧ m_channel p = [] ∧ is_closed p = false)) as Hw.
  { intros i w Hi. pose proof (Hq (Work i) eq_refl) as E. cbn in E. unfold work in E. rewrite Hi in E. destruct w as [|t| |]; [|done| |by left].
    - destruct (m_channel p); [|done]. destruct (is_closed p); [done|]. by right.
    - by destruct (H6 i). }
  assert (m_channel p = []) as Hch.
  { destruct (m_threads p) as [|w l] eqn:Et; [cbn in H8; lia|]. destruct (Hw 0 w eq_refl) as [->|(_ & ? & _)]; [|done]. by destruct (H5 0 eq_refl). }
  assert (omap executing (m_threads p) = []) as Hx.
  { clear -Hw. induction (m_threads p) as [|w l IH]; [done|]. cbn. rewrite IH by (intros i w' Hi; exact (Hw (S i) w' Hi)).
    by destruct (Hw 0 w eq_refl) as [->|[-> _]]. }
  split; [|split].
  - rewrite Hx in H2. rewrite Hch, app_nil_r in H1. rewrite <-H1. symmetry. exact H2.
  - destruct (pushing p) as [|t l] eqn:Ep; [done|]. pose proof (Hq (Resume 0) eq_refl) as E. cbn in E. unfold resume in E. rewrite Ep, Hch in E. cbn in E.
    rewrite bool_decide_eq_true_2, orb_true_r in E by lia. done.
  - intros Hcl i w Hi. destruct (Hw i w Hi) as [->|(_ & _ & ?)]; [done|congruence].
Qed.
(** Every step of the pool's own leaves less to do. *)
Definition left (w : worker) : nat := match w with Ready => 1 | Executing _ => 2 | _ => 0 end.
Definition measure (p : ThreadPool) : nat := 3 * length (pushing p) + 2 * length (m_channel p) + sum_list_with left (m_threads p).
Lemma measure_less p e p' : internal e = true → step p e = Some p' → measure p' < measure p.
Proof.
  intros He. destruct e as [|j|i| |]; try done; cbn; unfold measure.
  - unfold resume, push. destruct (pushing p !! j) as [t|] eqn:Hj; [|done]. pose proof (lookup_lt_Some _ _ _ Hj) as Hlt.
    destruct (is_closed p); cbn; [intros [= <-]; cbn; rewrite length_delete by eauto; lia|].
    destruct (decide (length (m_channel p) < capacity)); [rewrite bool_decide_eq_true_2 by done|by rewrite bool_decide_eq_false_2].
    intros [= <-]. cbn. rewrite length_delete, length_app by eauto. cbn. lia.
  - unfold work. destruct (m_threads p !! i) as [[|t| |]|] eqn:Hi; try done.
    + pose proof (λ w, sum_insert left _ _ _ w Hi) as Hs. cbn in Hs. destruct (m_channel p) as [|t ts]; [destruct (is_closed p); [|done]|]; intros [= <-]; cbn.
      * specialize (Hs Exited). cbn in Hs. lia.
      * specialize (Hs (Executing t)). cbn in Hs. lia.
    + pose proof (sum_insert left _ _ _ Ready Hi) as Hs. cbn in Hs. intros [= <-]. cbn. lia.
Qed.
End pool.

(** ** Its construction *)
Section construction.
Context `{HwlocLaws B} `{HwlocTopology T B}.
(** A thread per cpu of the set. *)
Definition ThreadPool_new (cpuset : B) (s : System B T) : res (System B T * ThreadPool) :=
  r ← for_each_bit cpuset (λ _ bit r, '(s, n) ← r; s ← make_thread (Bitmap_of_int bit) None s; Ret (s, S n)) (Ret (s, 0));
  '(s, n) ← r; Ret (s, new_pool n).
Lemma new_threads cpuset l s s' p : is_bits cpuset l → ThreadPool_new cpuset s = Ret (s', p) → p = new_pool (length l).
Proof.
  intros Hb. unfold ThreadPool_new.
  rewrite (for_each_bit_fold _ _ (λ bit r, '(s, n) ← r; s ← make_thread (Bitmap_of_int bit) None s; Ret (s, S n)) _ Hb). simpl. clear Hb.
  cut (∀ m s0, (foldl (λ r bit, '(s, n) ← r; s ← make_thread (Bitmap_of_int bit) None s; Ret (s, S n)) (Ret (s0, m)) l ≫=
    λ '(s, n), Ret (s, new_pool n)) = Ret (s', p) → p = new_pool (m + length l)); [intros Hcut; apply (Hcut 0 s)|].
  induction l as [|c l IH]; intros m s0 Hr; simpl in Hr; [simplify_eq/=; by rewrite Nat.add_0_r|].
  destruct (make_thread (Bitmap_of_int c) None s0) as [s1|e|w|w] eqn:E; simpl in Hr.
  - rewrite (IH (S m) s1 Hr). simpl. f_equal. lia.
  - exfalso. clear -Hr. induction l; [done|]. auto.
  - exfalso. clear -Hr. induction l; [done|]. auto.
  - exfalso. clear -Hr. induction l; [done|]. auto.
Qed.

(** C25: the thread pool of the system executes what it accepts.  It has a thread for each
    cpu of its set; tasks are started in the order in which they were accepted, and the
    channel never holds more than its capacity; every call of [enqueue] is accepted, still
    waits, or has thrown, and it throws only after the shutdown.  The steps of the pool's
    own threads come to an end, and when they do every accepted task is complete, no call
    waits, and after a shutdown all threads have exited, so that the destructor's joins
    return. *)
Theorem system_pool_drains cpuset l (s s' : System B T) capacity p0 es p : is_bits cpuset l → l ≠ [] → 0 < capacity →
  ThreadPool_new cpuset s = Ret (s', p0) → run capacity p0 es = Some p →
  length (m_threads p) = length l ∧ started p `prefix_of` accepted p ∧ length (m_channel p) ≤ capacity ∧
  enqueued es ≡ₚ accepted p ++ pushing p ++ rejected p ∧ (rejected p ≠ [] → is_closed p = true) ∧
  (∀ e p', internal e = true → step capacity p e = Some p' → measure p' < measure p) ∧
  ((∀ e, internal e = true → step capacity p e = None) →
     completed p ≡ₚ accepted p ∧ pushing p = [] ∧ (is_closed p = true → ∀ i w, m_threads p !! i = Some w → w = Exited)).
Proof.
  intros Hb Hl Hc Hn Hr. rewrite (new_threads _ _ _ _ _ Hb Hn) in Hr.
  assert (0 < length l) as Hpos by (destruct l; [done|cbn; lia]).
  pose proof (run_inv capacity (length l) es [] _ p (new_inv capacity (length l)) Hr) as HI. cbn in HI.
  pose proof HI as [Q1 Q2 Q3 Q4 Q5 Q6 Q7 Q8]. split_and!; try done.
  - rewrite <-Q1. by apply prefix_app_r.
  - intros e p'. apply measure_less.
  - intros Hq. exact (pool_quiet_done capacity (length l) _ p Hpos Hc HI Hq).
Qed.
End construction.

(** Two cpus and a channel of one: the third task waits, the fourth comes too late. *)
Definition pool_session : list event :=
  [Enqueue 1; Work 0; Enqueue 2; Enqueue 3; Work 1; Resume 0; Work 0; Shutdown; Enqueue 4; Work 0; Work 0; Work 1; Work 0; Work 1; Destroy].
Definition pool_end : ThreadPool := mkTP [Exited; Exited] [] true [] [1; 2; 3] [4] [1; 2; 3] [1; 3; 2].
Lemma system_pool_drains_witness : ∃ s', ThreadPool_new [1%Z; 3%Z] System.demo_start = Ret (s', new_pool 2) ∧
  run 1 (new_pool 2) pool_session = Some pool_end ∧ completed pool_end ≡ₚ accepted pool_end.
Proof.
  assert (∃ s', ThreadPool_new [1%Z; 3%Z] System.demo_start = Ret (s', new_pool 2)) as [s' Hn] by (vm_compute; eexists; reflexivity).
  assert (run 1 (new_pool 2) pool_session = Some pool_end) as Hr by (vm_compute; reflexivity).
  exists s'. split; [exact Hn|]. split; [exact Hr|].
  assert (is_bits [1%Z; 3%Z] [1%Z; 3%Z]) as Hb by solve_bits.
  apply (system_pool_drains [1%Z; 3%Z] [1%Z; 3%Z] System.demo_start s' 1 (new_pool 2) pool_session pool_end Hb ltac:(discriminate) ltac:(lia) Hn Hr).
  intros [t|j|i| |] He; try discriminate He; [reflexivity|]. destruct i as [|[|i]]; reflexivity.
Defined.
