(* ===== verification/Buffers.v ===== *)
(** * Memory buffers and blobs

    Models [include/srf/memory/buffer.hpp], [blob.hpp], [blob_storage.hpp] and
    [src/public/memory/blob.cpp]: a [buffer] owns a block of a memory resource, a
    [blob] is a counted reference to a storage object that holds a buffer.  The
    memory is a map from the address of an allocated block to its bytes; the
    memory resource is an interface.  A buffer object is a slot: a variable of the
    program, or the member of a [BlobStorage]; the count of a storage is the
    [use_count] of the shared pointers to it. *)
From S2P Require Import Prelude.
#[local] Open Scope Z_scope.

Inductive memory_kind_type := kind_none | kind_host | kind_pinned | kind_device | kind_managed.
#[export] Instance memory_kind_eq_dec : EqDecision memory_kind_type.
Proof. solve_decision. Defined.
Notation heap_t := (gmap Z (list Z)).

(** A memory resource: where it places a new block of [n] bytes, with what is in it;
    address 0: there is no memory. *)
Class MemoryResource := {
  mr_place : heap_t → Z → Z * list Z;
  mr_kind : memory_kind_type;
}.
(** What its documentation promises: a new block does not overlap one in use. *)
Class MemoryResourceLaws `(MemoryResource) : Prop := {
  place_fresh h n : (mr_place h n).1 ≠ 0 → h !! (mr_place h n).1 = None;
  place_size h n : 0 ≤ n → Z.of_nat (length (mr_place h n).2) = n;
}.

Record buffer := mkBuffer { m_view : option memory_kind_type; m_bytes : Z; m_buffer : Z }.
Inductive slot := Var (b : buffer) | Member (b : buffer) | Gone.
Record BlobStorage := mkStorage { st_slot : nat; use_count : nat }.
Definition blob := option nat.                        (* the storage it points to *)
Record state := mkState {
  heap : heap_t;
  slots : list slot;
  storages : list BlobStorage;
  blobs : list (option blob);                         (* [None]: destroyed *)
}.
Definition with_heap (h : heap_t) (s : state) : state := mkState h (slots s) (storages s) (blobs s).
Definition with_slots (l : list slot) (s : state) : state := mkState (heap s) l (storages s) (blobs s).
Definition with_storages (l : list BlobStorage) (s : state) : state := mkState (heap s) (slots s) l (blobs s).
Definition with_blobs (l : list (option blob)) (s : state) : state := mkState (heap s) (slots s) (storages s) l.
Definition null_pointer : string := "null pointer".

Section memory.
Context `{R : MemoryResource}.

(** ** Buffers *)
Definition allocate (n : Z) : M state Z := λ s,
  let '(p, bs) := mr_place (heap s) n in
  if bool_decide (p = 0) then (Ret 0, s) else (Ret p, with_heap (<[p := bs]> (heap s)) s).
(** Freeing what is not an allocated block of this size is undefined. *)
Definition deallocate (p n : Z) : M state () := λ s,
  match heap s !! p with
  | Some bs => if Z.of_nat (length bs) =? n then (Ret (), with_heap (delete p (heap s)) s) else (Undefined "deallocate", s)
  | None => (Undefined "deallocate", s)
  end.
Definition new_slot (x : slot) : M state nat := λ s, (Ret (length (slots s)), with_slots (slots s ++ [x]) s).
Definition set_slot (i : nat) (x : slot) : M state () := modify (λ s, with_slots (<[i := x]> (slots s)) s).
(** [buffer(bytes, view)]; [None]: the view has been moved from. *)
Definition buffer_new (v : option memory_kind_type) (n : Z) : M state buffer :=
  match v with
  | None => lift (Undefined null_pointer)
  | Some k => p ← allocate n; mret (mkBuffer (Some k) n p)
  end.
(** What is left of a buffer that was moved from. *)
Definition moved_from (b : buffer) : buffer := mkBuffer None 0 0.
Definition release (b : buffer) : M state buffer :=
  if bool_decide (m_buffer b ≠ 0)
  then deallocate (m_buffer b) (m_bytes b) ;; mret (mkBuffer (m_view b) 0 0)
  else mret b.
Definition buffer_bool (b : buffer) : bool := bool_decide (m_buffer b ≠ 0) && bool_decide (m_bytes b ≠ 0).

(** ** Blobs *)
Definition set_blob (i : nat) (x : option blob) : M state () := modify (λ s, with_blobs (<[i := x]> (blobs s)) s).
Definition new_blob (x : blob) : M state () := modify (λ s, with_blobs (blobs s ++ [Some x]) s).
(** A new storage that takes the buffer over: [make_shared<BlobStorage>]. *)
Definition make_storage (b : buffer) : M state nat :=
  j ← new_slot (Member b);
  s ← get; put (with_storages (storages s ++ [mkStorage j 0]) s) ;; mret (length (storages s)).
Definition add_ref (k : nat) : M state () :=
  modify (λ s, with_storages (alter (λ st, mkStorage (st_slot st) (S (use_count st))) k (storages s)) s).
(** The last reference destroys the storage and its buffer. *)
Definition drop_ref (k : nat) : M state () := λ s,
  match storages s !! k with
  | None => (Undefined "no storage", s)
  | Some st =>
      let s' := with_storages (<[k := mkStorage (st_slot st) (pred (use_count st))]> (storages s)) s in
      if (pred (use_count st) =? 0)%nat then
        match slots s !! st_slot st with
        | Some (Member b) => (release b ;; set_slot (st_slot st) Gone) s'
        | _ => (Undefined "storage destroyed twice", s')
        end
      else (Ret (), s')
  end.
Definition drop_blob (b : blob) : M state () := match b with Some k => drop_ref k | None => mret () end.
Definition share_blob (b : blob) : M state () := match b with Some k => add_ref k | None => mret () end.

(** ** Programs: what happens to buffer and blob variables *)
Inductive op :=
| BufferNew (n : N) | BufferMove (i : nat) | BufferAssign (i j : nat) | BufferRelease (i : nat) | BufferDestroy (i : nat)
| BlobOfBuffer (i : nat) | BlobCopy (i : nat) | BlobMove (i : nat) | BlobAssign (i j : nat) | BlobDestroy (i : nat)
| BlobAllocate (i : nat) (n : N)
| BufferKind (i : nat).
Definition on_var (i : nat) (f : buffer → M state ()) : M state () := λ s,
  match slots s !! i with Some (Var b) => f b s | _ => (Ret (), s) end.
Definition on_blob (i : nat) (f : blob → M state ()) : M state () := λ s,
  match blobs s !! i with Some (Some b) => f b s | _ => (Ret (), s) end.
(** An operation on a variable that is not in scope does nothing. *)
Definition exec (o : op) : M state () :=
  match o with
  | BufferNew n => b ← buffer_new (Some mr_kind) (Z.of_N n); _ ← new_slot (Var b); mret ()
  | BufferMove i => on_var i (λ b, set_slot i (Var (moved_from b)) ;; (_ ← new_slot (Var b); mret ()))
  | BufferAssign i j => on_var i (λ _, on_var j (λ b, if bool_decide (i = j) then mret () else set_slot j (Var (moved_from b)) ;; set_slot i (Var b)))
  | BufferRelease i => on_var i (λ b, b' ← release b; set_slot i (Var b'))
  | BufferDestroy i => on_var i (λ b, release b ;; set_slot i Gone)
  | BlobOfBuffer i => on_var i (λ b, set_slot i (Var (moved_from b)) ;; (k ← make_storage b; add_ref k ;; new_blob (Some k)))
  | BlobCopy i => on_blob i (λ b, share_blob b ;; new_blob b)
  | BlobMove i => on_blob i (λ b, set_blob i (Some None) ;; new_blob b)
  | BlobAssign i j => on_blob i (λ old, on_blob j (λ b, share_blob b ;; set_blob i (Some b) ;; drop_blob old))
  | BlobDestroy i => on_blob i (λ b, set_blob i None ;; drop_blob b)
  | BlobAllocate i n => on_blob i (λ b,
      match b with
      | None => lift (Undefined null_pointer)
      | Some k => λ s,
          match storages s !! k with
          | None => (Undefined "no storage", s)
          | Some st =>
              match slots s !! st_slot st with
              | Some (Member m) => (b' ← buffer_new (m_view m) (Z.of_N n); k' ← make_storage b'; add_ref k' ;; new_blob (Some k')) s
              | _ => (Undefined "no storage", s)
              end
          end
      end)
  | BufferKind i => on_var i (λ b, match m_view b with Some _ => mret () | None => lift (Undefined null_pointer) end)
  end.
Fixpoint run (ops : list op) : M state () := match ops with [] => mret () | o :: ops => exec o ;; run ops end.
Definition empty_state : state := mkState ∅ [] [] [].
(** The blocks that an operation loses: a move assignment overwrites the buffer of its
    target without releasing it. *)
Definition address (b : buffer) : option Z := if bool_decide (m_buffer b = 0) then None else Some (m_buffer b).
Definition slot_address (x : slot) : option Z := match x with Var b | Member b => address b | Gone => None end.
Definition lost (o : op) (s : state) : list Z :=
  match o with
  | BufferAssign i j =>
      match slots s !! i, slots s !! j with
      | Some (Var b), Some (Var _) => if bool_decide (i = j) then [] else option_list (address b)
      | _, _ => []
      end
  | _ => []
  end.
Fixpoint leaked (ops : list op) (s : state) : list Z :=
  match ops with [] => [] | o :: ops => leaked ops (exec o s).2 ++ lost o s end.

(** ** Invariant *)
(** Blocks owned by a slot or by a temporary in [t]. *)
Definition owned (t : list buffer) (s : state) : list Z := omap slot_address (slots s) ++ omap address t.
Definition block_ok (h : heap_t) (b : buffer) : Prop :=
  m_buffer b ≠ 0 → ∃ bs, h !! m_buffer b = Some bs ∧ Z.of_nat (length bs) = m_bytes b.
Definition slot_ok (h : heap_t) (x : slot) : Prop := match x with Var b | Member b => block_ok h b | Gone => True end.
Definition holds (k : nat) (x : option blob) : bool := bool_decide (x = Some (Some k)).
(** [e]: references held by temporaries; [t]: buffers held by temporaries; [L]: lost. *)
Record Inv (e : list nat) (t : list buffer) (L : list Z) (s : state) : Prop := {
  i_nodup : NoDup (owned t s ++ L);
  i_heap p : is_Some (heap s !! p) ↔ p ∈ owned t s ++ L;
  i_slot i x : slots s !! i = Some x → slot_ok (heap s) x;
  i_temp b : b ∈ t → block_ok (heap s) b;
  i_count k st : storages s !! k = Some st →
    use_count st = (countb (holds k) (blobs s) + countb (Nat.eqb k) e)%nat ∧
    (st_slot st < length (slots s))%nat ∧ (use_count st ≠ 0%nat → ∃ b, slots s !! st_slot st = Some (Member b));
  i_inj k k' st st' : storages s !! k = Some st → storages s !! k' = Some st' → st_slot st = st_slot st' → k = k';
  i_range i k : blobs s !! i = Some (Some (Some k)) → (k < length (storages s))%nat;
  i_temp_range k : k ∈ e → (k < length (storages s))%nat;
}.
(** A computation that keeps to its contract, or dereferences a null pointer. *)
Definition safe {A} (P : state → Prop) (m : M state A) (Q : A → state → Prop) : Prop :=
  ∀ s, P s → match m s with (Ret a, s') => Q a s' | (Undefined w, _) => w = null_pointer | _ => False end.
Lemma safe_bind {A B} P (m : M state A) (f : A → M state B) Q T :
  safe P m Q → (∀ a, safe (Q a) (f a) T) → safe P (m ≫= f) T.
Proof.
  intros Hm Hf s Hs. specialize (Hm s Hs). unfold mbind, M_bind. destruct (m s) as [[a|x|x|x] s'] eqn:E; simpl in *; try done.
  by apply Hf.
Qed.
Lemma safe_ret {A} (a : A) (Q : A → state → Prop) : safe (Q a) (mret a) Q.
Proof. by intros s Hs. Qed.
Lemma safe_pre {A} (P P' : state → Prop) (m : M state A) Q : (∀ s, P s → P' s) → safe P' m Q → safe P m Q.
Proof. intros H Hm s Hs. by apply Hm, H. Qed.
Lemma owned_set t s i x y : slots s !! i = Some x →
  owned t (with_slots (<[i := y]> (slots s)) s) ++ option_list (slot_address x) ≡ₚ owned t s ++ option_list (slot_address y).
Proof.
  intros Hi. unfold owned. simpl. pose proof (omap_insert_perm slot_address (slots s) i x y Hi) as H.
  rewrite <-!app_assoc, !(Permutation_app_comm (omap address t)), !app_assoc, H. done.
Qed.
Lemma owned_temp b t s : owned (b :: t) s ≡ₚ option_list (address b) ++ owned t s.
Proof. unfold owned. simpl. destruct (address b); simpl; [|done]. by rewrite Permutation_middle. Qed.
Lemma owned_new x t s : owned t (with_slots (slots s ++ [x]) s) ≡ₚ option_list (slot_address x) ++ owned t s.
Proof. unfold owned. simpl. rewrite omap_app. simpl. rewrite <-app_assoc, (Permutation_app_comm (omap slot_address (slots s))). destruct (slot_address x); simpl; by rewrite ?(Permutation_app_comm (omap address t)). Qed.
Lemma own_perm (l l' : list Z) (h : heap_t) : l ≡ₚ l' → (NoDup l ∧ (∀ p, is_Some (h !! p) ↔ p ∈ l)) → NoDup l' ∧ (∀ p, is_Some (h !! p) ↔ p ∈ l').
Proof. intros Hp [H1 H2]. split; [by rewrite <-Hp|]. intros p. by rewrite H2, Hp. Qed.

(** ** Slots *)
Lemma inv_set e t t' L L' s i x y : Inv e t L s → slots s !! i = Some x → (∀ b, x ≠ Member b) →
  owned t' (with_slots (<[i := y]> (slots s)) s) ++ L' ≡ₚ owned t s ++ L →
  slot_ok (heap s) y → (∀ b, b ∈ t' → block_ok (heap s) b) → Inv e t' L' (with_slots (<[i := y]> (slots s)) s).
Proof.
  intros [I1 I2 I3 I4 I5 I6 I7 I8] Hi Hx Hp Hy Ht. symmetry in Hp. destruct (own_perm _ _ _ Hp (conj I1 I2)) as [J1 J2].
  split; simpl; auto.
  - intros j z Hj. apply list_lookup_insert_Some in Hj as [(<- & <- & _)|[_ Hj]]; [done|by eapply I3].
  - intros k st Hk. destruct (I5 k st Hk) as (Hc & Hl & Hm). split; [done|]. rewrite length_insert. split; [done|].
    intros Hu. destruct (Hm Hu) as [b Hb]. exists b. rewrite list_lookup_insert_ne; [done|]. intros ->. rewrite Hi in Hb. simplify_eq. by eapply Hx.
Qed.
Lemma inv_push e t b x L s : Inv e (b :: t) L s → x = Var b ∨ x = Member b → Inv e t L (with_slots (slots s ++ [x]) s).
Proof.
  intros [I1 I2 I3 I4 I5 I6 I7 I8] Hx. assert (slot_address x = address b ∧ slot_ok (heap s) x) as [Ha Hok].
  { destruct Hx as [-> | ->]; (split; [done|]); simpl; apply I4; by left. }
  assert (owned t (with_slots (slots s ++ [x]) s) ++ L ≡ₚ owned (b :: t) s ++ L) as Hp by (by rewrite owned_new, owned_temp, Ha).
  symmetry in Hp. destruct (own_perm _ _ _ Hp (conj I1 I2)) as [J1 J2]. split; simpl; auto.
  - intros i z Hi. apply lookup_app_Some in Hi as [Hi|[_ Hi]]; [by eapply I3|]. apply list_lookup_singleton_Some in Hi as [_ <-]. done.
  - intros b' Hb'. apply I4. by right.
  - intros k st Hk. destruct (I5 k st Hk) as (Hc & Hl & Hm). split; [done|]. rewrite length_app. simpl. split; [lia|].
    intros Hu. destruct (Hm Hu) as [m Hb]. exists m. by apply lookup_app_l_Some.
Qed.
Lemma buffer_new_safe e t L v n : 0 ≤ n → MemoryResourceLaws R → safe (Inv e t L) (buffer_new v n) (λ b, Inv e (b :: t) L).
Proof.
  intros Hn HR s [I1 I2 I3 I4 I5 I6 I7 I8]. destruct v as [k|]; [|done]. unfold buffer_new, allocate, mbind, M_bind.
  pose proof (place_fresh (heap s) n) as Hf. pose proof (place_size (heap s) n Hn) as Hz.
  destruct (mr_place (heap s) n) as [p bs]. simpl in *. destruct (bool_decide_reflect (p = 0)) as [->|Hp]; simpl.
  - split; auto; try (unfold owned; simpl; done). intros b [->|Hb]%elem_of_cons; [by intros []|by apply I4].
  - specialize (Hf Hp). assert (p ∉ owned t s ++ L) as Hnew by (intros H%I2; rewrite Hf in H; by destruct H).
    assert (owned (mkBuffer (Some k) n p :: t) (with_heap (<[p:=bs]> (heap s)) s) ≡ₚ p :: owned t s) as Ho.
    { rewrite owned_temp. unfold address. simpl. rewrite bool_decide_false by done. done. }
    assert (∀ b, block_ok (heap s) b → block_ok (<[p:=bs]> (heap s)) b) as Hmono.
    { intros b Hb Hne. destruct (Hb Hne) as (bs' & H1 & H2). exists bs'. split; [|done]. rewrite lookup_insert_ne; [done|congruence]. }
    split; simpl; auto.
    + rewrite Ho. simpl. by apply NoDup_cons.
    + intros q. rewrite Ho. simpl. rewrite elem_of_cons, <-I2. destruct (decide (q = p)) as [->|Hq]; [rewrite lookup_insert_eq; naive_solver|].
      rewrite lookup_insert_ne by done. naive_solver.
    + intros i x Hi. specialize (I3 i x Hi). destruct x; simpl in *; auto.
    + intros b [->|Hb]%elem_of_cons; [|by apply Hmono, I4]. intros _. simpl. exists bs. by rewrite lookup_insert_eq.
Qed.
(** Releasing the buffer of slot [i]. *)
Definition free_block (b : buffer) (h : heap_t) : heap_t := match address b with Some p => delete p h | None => h end.
Lemma release_run b s : block_ok (heap s) b →
  ∃ b', release b s = (Ret b', with_heap (free_block b (heap s)) s) ∧ m_buffer b' = 0.
Proof.
  intros Hb. unfold release, free_block, address. destruct (decide (m_buffer b = 0)) as [E|E].
  - exists b. rewrite bool_decide_false by (by intros ?). rewrite bool_decide_true by done. split; [by destruct s|done].
  - destruct (Hb E) as (bs & H1 & H2). rewrite bool_decide_true by done. rewrite bool_decide_false by done.
    unfold mbind, M_bind, deallocate. rewrite H1. apply Z.eqb_eq in H2. rewrite H2. by eexists.
Qed.
Lemma inv_free e t L s i x b y : Inv e t L s → slots s !! i = Some x → x = Var b ∨ x = Member b → slot_address y = None →
  (∀ h, slot_ok h y) → (∀ k st, storages s !! k = Some st → st_slot st = i → use_count st = 0%nat) →
  Inv e t L (with_slots (<[i := y]> (slots s)) (with_heap (free_block b (heap s)) s)).
Proof.
  intros [I1 I2 I3 I4 I5 I6 I7 I8] Hi Hx Hy Hok Huse.
  assert (slot_address x = address b) as Ha by (destruct Hx as [-> | ->]; done).
  pose proof (owned_set t s i x y Hi) as Hp. rewrite Hy, Ha in Hp. simpl in Hp. rewrite app_nil_r in Hp.
  set (s' := with_slots (<[i := y]> (slots s)) s) in *. assert (∀ h, owned t (with_slots (<[i := y]> (slots s)) (with_heap h s)) = owned t s') as Ho by done.
  rewrite <-Hp in I1. assert (∀ p, is_Some (heap s !! p) ↔ p ∈ (owned t s' ++ option_list (address b)) ++ L) as I2' by (intros p; by rewrite I2, Hp). clear I2.
  unfold free_block. destruct (address b) as [p|] eqn:Ep.
  - assert (NoDup (owned t s' ++ L) ∧ p ∉ owned t s' ++ L) as [Hnd Hnp].
    { rewrite <-app_assoc, (Permutation_app_comm [p]), app_assoc in I1. apply NoDup_app in I1 as (H1 & H2 & _). split; [done|]. intros Hin. apply (H2 p Hin). by left. }
    assert (∀ b', block_ok (heap s) b' → m_buffer b' ≠ p → block_ok (delete p (heap s)) b') as Hkeep.
    { intros b' Hb' Hne Hn0. destruct (Hb' Hn0) as (bs & H1 & H2). exists bs. split; [|done]. by rewrite lookup_delete_ne. }
    assert (∀ b', m_buffer b' = p → address b' = Some p) as Hadr.
    { intros b' Hb'. unfold address. unfold address in Ep. destruct (bool_decide_reflect (m_buffer b = 0)); [done|]. simplify_eq. by rewrite bool_decide_false by congruence. }
    split; simpl; rewrite ?Ho; auto.
    + intros q. destruct (decide (q = p)) as [->|Hq]; [rewrite lookup_delete_eq; split; [by intros []|done]|].
      rewrite lookup_delete_ne by done. rewrite I2'. rewrite !elem_of_app. simpl. rewrite elem_of_cons. set_solver.
    + intros j z Hj. apply list_lookup_insert_Some in Hj as [(<- & <- & _)|[Hne Hj]]; [apply Hok|].
      assert (slot_address z ≠ Some p) as Hz.
      { intros Hz. apply Hnp. apply elem_of_app. left. unfold owned. apply elem_of_app. left. apply list_elem_of_omap. exists z. split; [|done].
        simpl. apply list_elem_of_lookup. exists j. by rewrite list_lookup_insert_ne. }
      specialize (I3 j z Hj). destruct z as [b'|b'|]; simpl in *; auto.
    + intros b' Hb'. apply Hkeep; [by apply I4|]. intros Hm%Hadr. apply Hnp. apply elem_of_app. left. unfold owned. apply elem_of_app. right.
      apply list_elem_of_omap. by exists b'.
    + intros k st Hk. destruct (I5 k st Hk) as (Hc & Hl & Hm). split; [done|]. rewrite length_insert. split; [done|].
      intros Hu. destruct (Hm Hu) as [m Hb]. exists m. rewrite list_lookup_insert_ne; [done|]. intros ->. by apply Hu, (Huse k st).
  - simpl in I1, I2'. rewrite app_nil_r in I1. split; simpl; rewrite ?Ho; auto.
    + intros q. rewrite I2', app_nil_r. done.
    + intros j z Hj. apply list_lookup_insert_Some in Hj as [(<- & <- & _)|[Hne Hj]]; [apply Hok|by eapply I3].
    + intros k st Hk. destruct (I5 k st Hk) as (Hc & Hl & Hm). split; [done|]. rewrite length_insert. split; [done|].
      intros Hu. destruct (Hm Hu) as [m Hb]. exists m. rewrite list_lookup_insert_ne; [done|]. intros ->. by apply Hu, (Huse k st).
Qed.

(** ** References *)
Lemma new_slot_safe e t L b : safe (Inv e (b :: t) L) (new_slot (Var b)) (λ _, Inv e t L).
Proof. intros s HI. simpl. apply (inv_push e t b); auto. Qed.
Definition alive (k : nat) (s : state) : Prop := ∃ st b, storages s !! k = Some st ∧ slots s !! st_slot st = Some (Member b).
Lemma make_storage_safe e t L b : safe (Inv e (b :: t) L) (make_storage b) (λ k s, Inv e t L s ∧ alive k s).
Proof.
  intros s HI. assert (Inv e t L (with_slots (slots s ++ [Member b]) s)) as [I1 I2 I3 I4 I5 I6 I7 I8] by (apply (inv_push e t b); auto).
  unfold make_storage, mbind, M_bind. simpl. split.
  - split; simpl in *; auto.
    + intros k st Hk. apply lookup_app_Some in Hk as [Hk|[Hk Hs]]; [by apply I5|]. apply list_lookup_singleton_Some in Hs as [Hk' <-]. simpl.
      rewrite length_app. simpl. split; [|split; [lia|done]]. symmetry. apply Nat.eq_add_0. split; apply countb_zero, Forall_forall.
      * intros x [j Hj]%list_elem_of_lookup. unfold holds. apply bool_decide_eq_false. intros ->. apply I7 in Hj. lia.
      * intros x Hx%I8. apply Nat.eqb_neq. lia.
    + intros k k' st st' Hk Hk' Hs. apply lookup_app_Some in Hk as [Hk|[Hl Hk]], Hk' as [Hk'|[Hl' Hk']].
      * by eapply I6.
      * apply list_lookup_singleton_Some in Hk' as [_ <-]. destruct (proj2 (I5 _ _ Hk)) as [H _]. destruct (i_count _ _ _ _ HI _ _ Hk) as (_ & H' & _). simpl in Hs. lia.
      * apply list_lookup_singleton_Some in Hk as [_ <-]. destruct (i_count _ _ _ _ HI _ _ Hk') as (_ & H' & _). simpl in Hs. lia.
      * apply list_lookup_singleton_Some in Hk as [? _], Hk' as [? _]. lia.
    + intros i k Hk%I7. rewrite length_app. simpl. lia.
    + intros k Hk%I8. rewrite length_app. simpl. lia.
  - exists (mkStorage (length (slots s)) 0), b. simpl. rewrite !lookup_app_r, !Nat.sub_diag by lia. done.
Qed.
Lemma add_ref_safe e t L k : safe (λ s, Inv e t L s ∧ alive k s) (add_ref k) (λ _, Inv (k :: e) t L).
Proof.
  intros s [[I1 I2 I3 I4 I5 I6 I7 I8] (st0 & b & Hk0 & Hb)]. simpl. split; simpl; auto.
  - intros k' st Hk. destruct (decide (k' = k)) as [->|Hne].
    + rewrite list_lookup_alter_eq, Hk0 in Hk. simplify_eq/=. destruct (I5 _ _ Hk0) as (Hc & Hl & _). rewrite Nat.eqb_refl. split; [lia|]. split; [done|]. intros _. by exists b.
    + rewrite list_lookup_alter_ne in Hk by done. destruct (I5 _ _ Hk) as (Hc & Hl). apply Nat.eqb_neq in Hne. rewrite Hne. by split.
  - intros k1 k2 st st' Hk Hk' Hs. assert (∀ k' st', alter (λ st, mkStorage (st_slot st) (S (use_count st))) k (storages s) !! k' = Some st' →
      ∃ st0, storages s !! k' = Some st0 ∧ st_slot st' = st_slot st0) as Ha.
    { intros k' st'' H. destruct (decide (k' = k)) as [->|Hne]; [|rewrite list_lookup_alter_ne in H by done; by exists st''].
      rewrite list_lookup_alter_eq, Hk0 in H. simplify_eq/=. by exists st0. }
    destruct (Ha _ _ Hk) as (? & ? & ?), (Ha _ _ Hk') as (? & ? & ?). eapply I6; [done|done|congruence].
  - intros i k' Hk. rewrite length_alter. by eapply I7.
  - intros k' [->|Hk]%elem_of_cons; rewrite length_alter; [by eapply lookup_lt_Some|by apply I8].
Qed.
Definition refs (b : blob) : list nat := option_list b.
Lemma countb_refs k b : countb (Nat.eqb k) (refs b) = (if holds k (Some b) then 1 else 0)%nat.
Proof.
  destruct b as [j|]; simpl; [|done]. unfold holds. destruct (decide (k = j)) as [->|Hne].
  - rewrite Nat.eqb_refl, bool_decide_true by done. done.
  - rewrite (proj2 (Nat.eqb_neq k j)), bool_decide_false by (done || congruence). done.
Qed.
Lemma inv_refs e e' t L s bl : Inv e t L s →
  (∀ k, (countb (holds k) bl + countb (Nat.eqb k) e')%nat = (countb (holds k) (blobs s) + countb (Nat.eqb k) e)%nat) →
  (∀ i k, bl !! i = Some (Some (Some k)) → (k < length (storages s))%nat) → (∀ k, k ∈ e' → (k < length (storages s))%nat) →
  Inv e' t L (with_blobs bl s).
Proof.
  intros [I1 I2 I3 I4 I5 I6 I7 I8] Hc Hb He. split; simpl; auto. intros k st Hk. destruct (I5 k st Hk) as (Hu & H). split; [|done]. by rewrite Hc.
Qed.
Lemma new_blob_safe e t L b : safe (Inv (refs b ++ e) t L) (new_blob b) (λ _, Inv e t L).
Proof.
  intros s HI. simpl. eapply inv_refs; [exact HI| | |].
  - intros k. rewrite !countb_app. cbn [countb]. rewrite countb_refs. destruct (holds k (Some b)); lia.
  - intros i k Hi. apply lookup_app_Some in Hi as [Hi|[_ Hi]]; [by eapply i_range|]. apply list_lookup_singleton_Some in Hi as [_ ?]. simplify_eq.
    eapply i_temp_range; [exact HI|]. simpl. by left.
  - intros k Hk. eapply i_temp_range; [exact HI|]. apply elem_of_app. by right.
Qed.
Lemma set_blob_safe e t L i b x : safe (λ s, Inv (match x with Some b' => refs b' | None => [] end ++ e) t L s ∧ blobs s !! i = Some (Some b)) (set_blob i x) (λ _, Inv (refs b ++ e) t L).
Proof.
  intros s [HI Hi]. simpl. eapply inv_refs; [exact HI| | |].
  - intros k. rewrite !countb_app, countb_refs. pose proof (countb_insert (holds k) (blobs s) i (Some b) x Hi) as H. simpl in H.
    destruct x as [b'|]; [rewrite countb_refs|cbn [countb]]; [destruct (holds k (Some b')); lia|]. change (holds k None) with false in H. cbv iota in H. lia.
  - intros j k Hj. apply list_lookup_insert_Some in Hj as [(<- & -> & _)|[_ Hj]]; [|by eapply i_range].
    eapply i_temp_range; [exact HI|]. simpl. by left.
  - intros k Hk. apply elem_of_app in Hk as [Hk|Hk]; [|eapply i_temp_range; [exact HI|]; apply elem_of_app; by right].
    destruct b as [j|]; [|by apply elem_of_nil in Hk]. apply list_elem_of_singleton in Hk as ->. by eapply i_range.
Qed.
Lemma drop_ref_safe e t L k : safe (Inv (k :: e) t L) (drop_ref k) (λ _, Inv e t L).
Proof.
  intros s HI. pose proof HI as [I1 I2 I3 I4 I5 I6 I7 I8]. unfold drop_ref.
  destruct (lookup_lt_is_Some_2 (storages s) k) as [st Hk]; [apply I8; by left|]. rewrite Hk. destruct (I5 k st Hk) as (Hc & Hl & Hm). cbn [countb] in Hc. rewrite Nat.eqb_refl in Hc.
  destruct Hm as [b Hb]; [lia|]. set (s' := with_storages _ s).
  assert (∀ k' st', storages s' !! k' = Some st' → ∃ st0, storages s !! k' = Some st0 ∧ st_slot st' = st_slot st0 ∧ (k' = k → use_count st' = pred (use_count st0)) ∧ (k' ≠ k → st' = st0)) as Hst.
  { intros k' st' Hk'. unfold s' in Hk'. simpl in Hk'. apply list_lookup_insert_Some in Hk' as [(<- & <- & _)|[Hne Hk']]; [by exists st|]. exists st'. split; [done|]. split; [done|]. split; [congruence|done]. }
  assert (Inv e t L s') as HI'.
  { split; auto.
    - intros k' st' Hk'. destruct (Hst _ _ Hk') as (st0 & H0 & Hs & Hpred & Hsame). destruct (I5 _ _ H0) as (Hc' & Hl' & Hm'). simpl. rewrite Hs.
      destruct (decide (k' = k)) as [->|Hne]; [rewrite H0 in Hk; simplify_eq; rewrite (Hpred eq_refl); split; [lia|]; split; [done|]; intros _; by exists b|].
      rewrite (Hsame Hne). cbn [countb] in Hc'. apply Nat.eqb_neq in Hne. rewrite Hne in Hc'. split; [lia|]. by split.
    - intros k1 k2 st1 st2 H1 H2 Hs. destruct (Hst _ _ H1) as (? & ? & ? & _), (Hst _ _ H2) as (? & ? & ? & _). eapply I6; [done|done|congruence].
    - intros i k' Hi. unfold s'. simpl. rewrite length_insert. by eapply I7.
    - intros k' Hi. unfold s'. simpl. rewrite length_insert. apply I8. by right. }
  destruct (Nat.eqb_spec (pred (use_count st)) 0) as [Hz|Hz]; [|done]. rewrite Hb. unfold mbind, M_bind.
  destruct (release_run b s') as (b' & Hr & _); [apply (i_slot _ _ _ _ HI' _ _ Hb)|]. rewrite Hr. cbn.
  refine (inv_free e t L s' (st_slot st) (Member b) b Gone HI' Hb _ _ _ _); [by right|done|done|].
  intros k' st' Hk' Hs. destruct (Hst _ _ Hk') as (st0 & H0 & Hs' & Hpred & _). assert (k' = k) as -> by (eapply I6; [done|exact Hk|congruence]).
  rewrite Hk in H0. simplify_eq. rewrite (Hpred eq_refl). done.
Qed.

(** ** Operations *)
Lemma safe_on_var (P : state → Prop) i f (Q : () → state → Prop) :
  (∀ s, P s → Q () s) → (∀ b, safe (λ s, P s ∧ slots s !! i = Some (Var b)) (f b) Q) → safe P (on_var i f) Q.
Proof. intros HQ Hf s HP. unfold on_var. destruct (slots s !! i) as [[b|b|]|] eqn:E; try (by apply HQ). by apply Hf. Qed.
Lemma safe_on_blob (P : state → Prop) i f (Q : () → state → Prop) :
  (∀ s, P s → Q () s) → (∀ b, safe (λ s, P s ∧ blobs s !! i = Some (Some b)) (f b) Q) → safe P (on_blob i f) Q.
Proof. intros HQ Hf s HP. unfold on_blob. destruct (blobs s !! i) as [[b|]|] eqn:E; try (by apply HQ). by apply Hf. Qed.
Lemma held_alive e t L s i k : Inv e t L s → blobs s !! i = Some (Some (Some k)) → alive k s.
Proof.
  intros HI Hi. destruct (lookup_lt_is_Some_2 (storages s) k) as [st Hk]; [by eapply i_range|].
  destruct (i_count _ _ _ _ HI k st Hk) as (Hc & _ & Hm). pose proof (countb_elem (holds k) _ _ _ Hi) as Hpos. unfold holds in Hpos at 1. rewrite bool_decide_true in Hpos by done.
  destruct Hm as [b Hb]; [specialize (Hpos eq_refl); lia|]. by exists st, b.
Qed.
Lemma take_buffer_safe e t L i b : safe (λ s, Inv e t L s ∧ slots s !! i = Some (Var b)) (set_slot i (Var (moved_from b))) (λ _, Inv e (b :: t) L).
Proof.
  intros s [HI Hi]. simpl. eapply (inv_set e t (b :: t) L L s i (Var b)); [done|done|done| |by intros []|].
  - rewrite owned_temp. pose proof (owned_set t s i (Var b) (Var (moved_from b)) Hi) as H. simpl in H. rewrite app_nil_r in H. by rewrite <-H, (Permutation_app_comm (owned _ _)).
  - intros b' [->|Hb]%elem_of_cons; [apply (i_slot _ _ _ _ HI _ _ Hi)|by eapply i_temp].
Qed.
Lemma share_safe e t L i b : safe (λ s, Inv e t L s ∧ blobs s !! i = Some (Some b)) (share_blob b) (λ _ s, Inv (refs b ++ e) t L s).
Proof.
  destruct b as [k|]; [|by intros s [? _]]. simpl. eapply safe_pre; [|apply add_ref_safe]. intros s [HI Hi]. split; [done|]. by eapply held_alive.
Qed.
Lemma drop_safe e t L b : safe (Inv (refs b ++ e) t L) (drop_blob b) (λ _, Inv e t L).
Proof. destruct b as [k|]; [apply drop_ref_safe|by intros s HI]. Qed.
Lemma store_safe L b : safe (Inv [] [b] L) (k ← make_storage b; add_ref k ;; new_blob (Some k)) (λ _, Inv [] [] L).
Proof.
  eapply safe_bind; [apply make_storage_safe|]. intros k. eapply safe_bind; [apply add_ref_safe|]. intros ?. apply (new_blob_safe [] [] L (Some k)).
Qed.
Lemma share_keeps_blobs b s : blobs (share_blob b s).2 = blobs s.
Proof. by destruct b. Qed.
Lemma assign_safe L i old j b : safe (λ s, (Inv [] [] L s ∧ blobs s !! i = Some (Some old)) ∧ blobs s !! j = Some (Some b))
  (share_blob b ;; set_blob i (Some b) ;; drop_blob old) (λ _, Inv [] [] L).
Proof.
  apply (safe_bind _ _ _ (λ _ s, Inv (refs b ++ []) [] L s ∧ blobs s !! i = Some (Some old))).
  2: { intros ?. eapply safe_bind; [apply (set_blob_safe [] [] L i old (Some b))|]. intros ?. apply drop_safe. }
  intros s [[HI Hi] Hj]. pose proof (share_safe [] [] L j b s (conj HI Hj)) as H. pose proof (share_keeps_blobs b s) as Hb.
  destruct (share_blob b s) as [[|?|?|?] s']; simpl in *; try done. by rewrite Hb.
Qed.
Lemma buffer_assign_safe L i j s : Inv [] [] L s →
  match exec (BufferAssign i j) s with (Ret _, s') => Inv [] [] (lost (BufferAssign i j) s ++ L) s' | _ => False end.
Proof.
  intros HI. simpl. unfold on_var. destruct (slots s !! i) as [[old|?|]|] eqn:Ei; try done.
  destruct (slots s !! j) as [[b|?|]|] eqn:Ej; try done. destruct (bool_decide_reflect (i = j)) as [|Hne]; [done|].
  pose proof (take_buffer_safe [] [] L j b s (conj HI Ej)) as H1. simpl in H1. unfold mbind, M_bind. simpl.
  set (s1 := with_slots _ s) in *. change (<[i := Var b]> (<[j := Var (moved_from b)]> (slots s))) with (<[i := Var b]> (slots s1)).
  change (mkState (heap s) (<[i := Var b]> (slots s1)) (storages s) (blobs s)) with (with_slots (<[i := Var b]> (slots s1)) s1).
  assert (slots s1 !! i = Some (Var old)) as Hi by (unfold s1; simpl; by rewrite list_lookup_insert_ne).
  eapply (inv_set [] [b] [] L _ s1 i (Var old)); [done|done|done| |by apply (i_temp _ _ _ _ H1 b); left|by intros ? ?%elem_of_nil].
  rewrite owned_temp. pose proof (owned_set [] s1 i (Var old) (Var b) Hi) as H. cbn [slot_address] in H. rewrite app_assoc, H, (Permutation_app_comm (owned _ _)). done.
Qed.
Lemma exec_safe `{!MemoryResourceLaws R} L o s : Inv [] [] L s →
  match exec o s with (Ret _, s') => Inv [] [] (lost o s ++ L) s' | (Undefined w, _) => w = null_pointer | _ => False end.
Proof.
  intros HI. assert (∀ (m : M state ()), safe (Inv [] [] L) m (λ _, Inv [] [] L) → lost o s = [] →
    match m s with (Ret _, s') => Inv [] [] (lost o s ++ L) s' | (Undefined w, _) => w = null_pointer | _ => False end) as Hdo by (intros m Hm ->; by apply Hm).
  destruct o as [n|i|i j|i|i|i|i|i|i j|i|i n|i].
  all: try (apply Hdo; [|done]; cbn [exec]).
  - eapply safe_bind; [apply buffer_new_safe; [lia|done]|]. intros b. eapply safe_bind; [apply new_slot_safe|]. intros ?. by intros ??.
  - apply safe_on_var; [done|]. intros b. eapply safe_bind; [apply take_buffer_safe|]. intros ?.
    eapply safe_bind; [apply new_slot_safe|]. intros ?. by intros ??.
  - pose proof (buffer_assign_safe L i j s HI) as H. by destruct (exec (BufferAssign i j) s) as [[] ?].
  - apply safe_on_var; [done|]. intros b s' [HI' Hi]. unfold mbind, M_bind. destruct (release_run b s') as (b' & -> & Hb'); [apply (i_slot _ _ _ _ HI' _ _ Hi)|]. cbn.
    refine (inv_free [] [] L s' i (Var b) b (Var b') HI' Hi _ _ _ _); [by left| | |].
    + simpl. unfold address. by rewrite Hb'.
    + intros h Hn. by rewrite Hb' in Hn.
    + intros k st Hk <-. destruct (i_count _ _ _ _ HI' k st Hk) as (_ & _ & Hm). destruct (use_count st) eqn:E; [done|]. destruct Hm; [done|]. congruence.
  - apply safe_on_var; [done|]. intros b s' [HI' Hi]. unfold mbind, M_bind. destruct (release_run b s') as (b' & -> & Hb'); [apply (i_slot _ _ _ _ HI' _ _ Hi)|]. cbn.
    refine (inv_free [] [] L s' i (Var b) b Gone HI' Hi _ _ _ _); [by left|done|done|].
    intros k st Hk <-. destruct (i_count _ _ _ _ HI' k st Hk) as (_ & _ & Hm). destruct (use_count st) eqn:E; [done|]. destruct Hm; [done|]. congruence.
  - apply safe_on_var; [done|]. intros b. eapply safe_bind; [apply take_buffer_safe|]. intros ?. apply store_safe.
  - apply safe_on_blob; [done|]. intros b. eapply safe_bind; [apply share_safe|]. intros ?. apply new_blob_safe.
  - apply safe_on_blob; [done|]. intros b. eapply safe_bind; [apply (set_blob_safe [] [] L i b (Some None))|]. intros ?. apply new_blob_safe.
  - apply safe_on_blob; [done|]. intros old. apply safe_on_blob; [by intros s' [? _]|]. intros b. apply assign_safe.
  - apply safe_on_blob; [done|]. intros b. eapply safe_bind; [apply (set_blob_safe [] [] L i b None)|]. intros ?. apply drop_safe.
  - apply safe_on_blob; [done|]. intros [k|]; [|by intros s' _]. intros s' [HI' Hi]. destruct (held_alive _ _ _ _ _ _ HI' Hi) as (st & m & Hk & Hm). rewrite Hk, Hm.
    revert s' HI' Hi Hk Hm. assert (safe (Inv [] [] L) (b' ← buffer_new (m_view m) (Z.of_N n); k' ← make_storage b'; add_ref k' ;; new_blob (Some k')) (λ _, Inv [] [] L)) as Hs.
    { eapply safe_bind; [apply buffer_new_safe; [lia|done]|]. intros b'. apply store_safe. }
    intros s' HI' _ _ _. by apply Hs.
  - apply safe_on_var; [done|]. intros b. by destruct (m_view b); intros s' [? _].
Qed.
Lemma run_safe `{!MemoryResourceLaws R} ops L s : Inv [] [] L s →
  match run ops s with (Ret _, s') => Inv [] [] (leaked ops s ++ L) s' | (Undefined w, _) => w = null_pointer | _ => False end.
Proof.
  revert L s. induction ops as [|o ops IH]; intros L s HI; [done|]. cbn [run leaked]. unfold mbind, M_bind.
  pose proof (exec_safe L o s HI) as H. destruct (exec o s) as [[[]|?|?|?] s']; simpl; try done.
  specialize (IH _ _ H). destruct (run ops s') as [[[]|?|?|?] s'']; try done. by rewrite <-app_assoc.
Qed.
Lemma empty_inv : Inv [] [] [] empty_state.
Proof.
  split; simpl; try done; [constructor| |by intros ? ?%elem_of_nil|by intros ? ?%elem_of_nil].
  intros p. rewrite lookup_empty. split; [by intros []|by intros ?%elem_of_nil].
Qed.
End memory.

(** ** A resource that places blocks one after the other *)
Definition top (h : heap_t) : Z := foldr (λ kv m, Z.max kv.1 m) 0 (map_to_list h).
#[export] Instance bump_resource : MemoryResource :=
  {| mr_place h n := (top h + 1, replicate (Z.to_nat n) 0); mr_kind := kind_host |}.
Lemma top_max (h : heap_t) p bs : h !! p = Some bs → p ≤ top h.
Proof.
  intros Hp%elem_of_map_to_list. unfold top. induction (map_to_list h) as [|kv l IH]; [by apply elem_of_nil in Hp|].
  apply elem_of_cons in Hp as [<-|Hp]; simpl; [lia|]. specialize (IH Hp). lia.
Qed.
#[export] Instance bump_laws : MemoryResourceLaws bump_resource.
Proof.
  split; intros h n; simpl; [intros _|intros Hn; rewrite length_replicate; lia].
  destruct (h !! (top h + 1)) as [bs|] eqn:E; [|done]. apply top_max in E. lia.
Qed.

(** ** What the buffers guarantee *)
Section guarantees.
Context `{R : MemoryResource, !MemoryResourceLaws R}.

(** C33: no program of buffers and blobs frees a block twice, frees one with the wrong size
    or reaches the storage of a blob after its last reference is gone, whatever it
    constructs, copies, moves, assigns, releases and destroys; the one undefined behaviour
    left is to dereference a null pointer: to allocate through an empty blob or a buffer
    that was moved from, or to ask such a buffer for its kind. *)
Theorem buffers_memory_safe ops :
  match (run ops empty_state).1 with Ret _ => True | Undefined w => w = null_pointer | Throw _ | Abort _ => False end.
Proof. pose proof (run_safe ops [] empty_state empty_inv) as H. by destruct (run ops empty_state) as [[] ?]. Qed.

(** After any program, the allocated blocks are those of the buffers in scope and of
    the storages that blobs refer to, each owned once, and those that move assignments
    have lost; and the [use_count] of a storage is the number of blobs that share it. *)
Theorem memory_accounted ops s : run ops empty_state = (Ret (), s) →
  (map_to_list (heap s)).*1 ≡ₚ owned [] s ++ leaked ops empty_state ∧
  ∀ k st, storages s !! k = Some st → use_count st = countb (holds k) (blobs s).
Proof.
  intros Hr. pose proof (run_safe ops [] empty_state empty_inv) as HI. rewrite Hr, app_nil_r in HI. split.
  - apply NoDup_Permutation; [apply NoDup_fst_map_to_list|by destruct HI|]. intros p. rewrite <-(i_heap _ _ _ _ HI p), list_elem_of_fmap. split.
    + intros ([q bs] & -> & H%elem_of_map_to_list). by exists bs.
    + intros [bs Hb]. exists (p, bs). split; [done|]. by apply elem_of_map_to_list.
  - intros k st Hk. destruct (i_count _ _ _ _ HI k st Hk) as [-> _]. cbn [countb]. lia.
Qed.

(** A buffer that is the target of a move assignment loses its block for good: no
    later operation of any program frees it. *)
Theorem move_assign_leaks pre s i j b c p post s' : run pre empty_state = (Ret (), s) →
  slots s !! i = Some (Var b) → slots s !! j = Some (Var c) → i ≠ j → address b = Some p →
  run post (exec (BufferAssign i j) s).2 = (Ret (), s') → is_Some (heap s' !! p) ∧ p ∉ owned [] s'.
Proof.
  intros Hr Hi Hj Hij Hp Hpost. pose proof (run_safe pre [] empty_state empty_inv) as HI. rewrite Hr in HI.
  pose proof (exec_safe _ (BufferAssign i j) s HI) as HA. pose proof (buffer_assign_safe _ i j s HI) as HB.
  assert (lost (BufferAssign i j) s = [p]) as Hl by (simpl; by rewrite Hi, Hj, bool_decide_false, Hp).
  destruct (exec (BufferAssign i j) s) as [[]]; try done. rewrite Hl in HA. pose proof (run_safe post _ _ HA) as HC. simpl in Hpost. rewrite Hpost in HC.
  split; [apply (i_heap _ _ _ _ HC); set_solver|]. pose proof (i_nodup _ _ _ _ HC) as Hn. apply NoDup_app in Hn as (_ & Hn & _). intros Hin. apply (Hn p Hin). set_solver.
Qed.
End guarantees.

(** Two buffers, the first of them shared by two blobs. *)
Definition sharing : list op := [BufferNew 4; BlobOfBuffer 0; BlobCopy 0; BlobDestroy 0; BufferNew 8; BufferDestroy 2].
Lemma buffers_memory_safe_witness :
  match (run (sharing ++ [BlobDestroy 1; BlobDestroy 1]) empty_state).1 with Ret _ => True | Undefined w => w = null_pointer | Throw _ | Abort _ => False end ∧
  heap (run (sharing ++ [BlobDestroy 1; BlobDestroy 1]) empty_state).2 = ∅.
Proof. split; [exact (buffers_memory_safe (sharing ++ [BlobDestroy 1; BlobDestroy 1]))|vm_compute; reflexivity]. Defined.
Definition sharing_end : state := Eval vm_compute in (run sharing empty_state).2.
Lemma memory_accounted_witness :
  run sharing empty_state = (Ret (), sharing_end) ∧ (map_to_list (heap sharing_end)).*1 ≡ₚ [1] ∧
  ∀ k st, storages sharing_end !! k = Some st → use_count st = countb (holds k) (blobs sharing_end).
Proof.
  assert (run sharing empty_state = (Ret (), sharing_end)) as Hr by (vm_compute; reflexivity).
  split; [exact Hr|]. exact (memory_accounted sharing sharing_end Hr).
Defined.
Lemma move_assign_leaks_witness :
  let s := (run [BufferNew 4; BufferNew 8] empty_state).2 in
  let s' := (run [BufferDestroy 0; BufferDestroy 1] (exec (BufferAssign 0 1) s).2).2 in
  is_Some (heap s' !! 1) ∧ 1 ∉ owned [] s'.
Proof.
  cbv zeta. apply (move_assign_leaks [BufferNew 4; BufferNew 8] (run [BufferNew 4; BufferNew 8] empty_state).2 0 1
    (mkBuffer (Some kind_host) 4 1) (mkBuffer (Some kind_host) 8 2) 1 [BufferDestroy 0; BufferDestroy 1]); try (vm_compute; reflexivity). done.
Defined.
