(* ===== verification/Codable.v ===== *)
(** * Encoded objects

    Models [src/public/codable/encoded_object.cpp] and
    [include/srf/codable/encoded_object.hpp], with the codable protocols of
    [fundamental_types.hpp] and [protobuf_message.hpp], [encode.hpp], [decode.hpp] and the
    blocks of [include/srf/memory/block.hpp].  An encoded object is a list of
    descriptors (addresses of memory, eager bytes, meta data) and, for each object, the
    index of its first descriptor; it owns the buffers it allocates.  The memory is that
    of [Buffers]; protobuf's serialization is an interface. *)
From S2P Require Import Prelude Buffers.
#[local] Open Scope Z_scope.

(** ** Blocks *)
Record block := mkBlock { bk_data : Z; bk_bytes : Z; bk_kind : memory_kind_type }.
Definition block_bool (b : block) : bool := bool_decide (bk_data b ≠ 0) && bool_decide (bk_bytes b ≠ 0) && bool_decide (bk_kind b ≠ kind_none).

(** ** The messages of [codable.proto] *)
Inductive MemoryKind := Host | Pinned | Device | Managed | NoKind.
Record RemoteDescriptor := mkRemote { remote_address : Z; remote_bytes : Z; memory_kind : MemoryKind }.
Record Any := mkAny { type_url : string; any_value : list Z }.
Inductive Descriptor := Remote (d : RemoteDescriptor) | Eager (data : list Z) | MetaData (a : Any).
Record Object := mkObject { desc_id : Z; type_index_hash : Z }.

Definition decode_memory_type (k : MemoryKind) : res memory_kind_type :=
  match k with
  | Host => Ret kind_host | Pinned => Ret kind_pinned | Device => Ret kind_device | Managed => Ret kind_managed
  | NoKind => Abort "unhandled protos::MemoryKind"
  end.
Definition encode_memory_type (k : memory_kind_type) : res MemoryKind :=
  match k with
  | kind_host => Ret Host | kind_pinned => Ret Pinned | kind_device => Ret Device | kind_managed => Ret Managed
  | kind_none => Abort "unhandled protos::MemoryKind"
  end.
Definition decode_descriptor (d : RemoteDescriptor) : res block :=
  k ← decode_memory_type (memory_kind d); Ret (mkBlock (remote_address d) (remote_bytes d) k).
Definition encode_descriptor (b : block) : res RemoteDescriptor :=
  k ← encode_memory_type (bk_kind b); Ret (mkRemote (bk_data b) (bk_bytes b) k).

(** ** The encoded object *)
Record EncodedObject := mkEncoded {
  descriptors : list Descriptor;
  objects : list Object;
  m_buffers : list (nat * nat);               (* descriptor index, blob *)
  m_context_acquired : bool;
}.
Definition new_encoded : EncodedObject := mkEncoded [] [] [] false.
Record world := mkWorld { mem : state; enc : EncodedObject }.
Definition with_enc (e : EncodedObject) (w : world) : world := mkWorld (mem w) e.
Definition in_memory {A} (m : M state A) : M world A := λ w, let '(r, s) := m (mem w) in (r, mkWorld s (enc w)).

Definition descriptor_count (e : EncodedObject) : nat := length (descriptors e).
Definition object_count (e : EncodedObject) : nat := length (objects e).
(** [at]: a check of the index. *)
Definition at_index {A} (l : list A) (i : nat) : res A := match l !! i with Some x => Ret x | None => Abort "index out of range" end.
Definition memory_block (e : EncodedObject) (i : nat) : res block :=
  d ← at_index (descriptors e) i; match d with Remote r => decode_descriptor r | _ => Abort "has_remote_desc" end.
Definition mutable_memory_block (e : EncodedObject) (i : nat) : res block :=
  check (m_context_acquired e) "m_context_acquired" ;; memory_block e i.
Definition eager_descriptor (e : EncodedObject) (i : nat) : res (list Z) :=
  d ← at_index (descriptors e) i; match d with Eager bs => Ret bs | _ => Abort "has_eager_desc" end.
Definition type_index_hash_for_object (e : EncodedObject) (i : nat) : res Z := o ← at_index (objects e) i; Ret (type_index_hash o).
Definition start_idx_for_object (e : EncodedObject) (i : nat) : res nat := o ← at_index (objects e) i; Ret (Z.to_nat (desc_id o)).

Definition add_descriptor (d : Descriptor) : M world nat := λ w,
  let e := enc w in
  if m_context_acquired e
  then (Ret (descriptor_count e), with_enc (mkEncoded (descriptors e ++ [d]) (objects e) (m_buffers e) true) w)
  else (Abort "m_context_acquired", w).
Definition add_eager_buffer (bs : list Z) : M world nat := add_descriptor (Eager bs).
Definition add_memory_block (b : block) : M world nat := λ w,
  if m_context_acquired (enc w)
  then (d ← lift (encode_descriptor b); add_descriptor (Remote d)) w
  else (Abort "m_context_acquired", w).
(** The block of a blob; the constructor checks that it is not empty. *)
Definition blob_storage_buffer (k : nat) (s : state) : option buffer :=
  match storages s !! k with
  | Some st => match slots s !! st_slot st with Some (Member b) => Some b | _ => None end
  | None => None
  end.
Definition block_of_blob (k : nat) (s : state) : res block :=
  match blob_storage_buffer k s with
  | Some b =>
      match m_view b with
      | Some kd => let blk := mkBlock (m_buffer b) (m_bytes b) kd in check (block_bool blk) "operator bool()" ;; Ret blk
      | None => Undefined null_pointer
      end
  | None => Undefined "no storage"
  end.

Class ProtoMessage := {
  Message : Type;
  message_url : string;
  SerializeToArray : Message → list Z;
  ParseFromArray : list Z → option Message;
}.
(** A message that is parsed from its own serialization is the message. *)
Class ProtoLaws `(ProtoMessage) : Prop := { parse_serialize m : ParseFromArray (SerializeToArray m) = Some m }.

Section codable.
Context `{P : ProtoMessage}.

Definition add_meta_data (m : Message) : M world nat := add_descriptor (MetaData (mkAny message_url (SerializeToArray m))).
Definition meta_data (e : EncodedObject) (i : nat) : res Message :=
  d ← at_index (descriptors e) i;
  match d with
  | MetaData a =>
      if bool_decide (type_url a = message_url)
      then match ParseFromArray (any_value a) with Some m => Ret m | None => Throw "unable to decode meta data to the requestd message type" end
      else Throw "unable to decode meta data to the requestd message type"
  | _ => Abort "has_meta_data_desc"
  end.

Section with_resource.
Context `{R : MemoryResource}.
(** A buffer of [n] bytes that the encoded object owns; used for the host resource and
    for the device resource. *)
Definition add_buffer (n : Z) : M world nat :=
  w ← get; lift (check (m_context_acquired (enc w)) "m_context_acquired") ;;
  b ← in_memory (buffer_new (Some mr_kind) n);
  k ← in_memory (make_storage b);
  in_memory (add_ref k ;; new_blob (Some k)) ;;
  w ← get;
  blk ← lift (block_of_blob k (mem w));
  index ← add_memory_block blk;
  modify (λ w, with_enc (mkEncoded (descriptors (enc w)) (objects (enc w)) (m_buffers (enc w) ++ [(index, pred (length (blobs (mem w))))]) (m_context_acquired (enc w))) w) ;;
  mret index.
End with_resource.

(** [ContextGuard]. *)
Definition acquire_encoding_context (hash : Z) : M world () := λ w,
  let e := enc w in
  if m_context_acquired e then (Abort "m_context_acquired == false", w)
  else (Ret (), with_enc (mkEncoded (descriptors e) (objects e ++ [mkObject (u32 (Z.of_nat (descriptor_count e))) hash]) (m_buffers e) true) w).
Definition release_encoding_context : M world () := λ w,
  let e := enc w in
  if m_context_acquired e then (Ret (), with_enc (mkEncoded (descriptors e) (objects e) (m_buffers e) false) w)
  else (Abort "m_context_acquired", w).

(** [memcpy] to and from a block of the memory. *)
Definition write_block (p : Z) (bs : list Z) : M state () := λ s,
  match heap s !! p with
  | Some old => if (length bs <=? length old)%nat then (Ret (), with_heap (<[p := bs ++ drop (length bs) old]> (heap s)) s) else (Undefined "memcpy", s)
  | None => (Undefined "memcpy", s)
  end.
Definition read_block (p n : Z) (s : state) : res (list Z) :=
  match heap s !! p with
  | Some bs => if n <=? Z.of_nat (length bs) then Ret (take (Z.to_nat n) bs) else Undefined "memcpy"
  | None => Undefined "memcpy"
  end.

(** ** Codable types *)
(** A value to encode: a fundamental type by its bytes, a string by the address and the
    contents of its characters, a protobuf message. *)
Inductive value := VFundamental (hash : Z) (bs : list Z) | VString (p : Z) (bs : list Z) | VMessage (m : Message).
Inductive decoded := DFundamental (bs : list Z) | DString (bs : list Z) | DMessage (m : Message).
Inductive ctype := TFundamental (hash : Z) (size : nat) | TString | TMessage.
Definition type_of (v : value) : ctype :=
  match v with VFundamental h bs => TFundamental h (length bs) | VString _ _ => TString | VMessage _ => TMessage end.
Definition denotes (v : value) : decoded :=
  match v with VFundamental _ bs => DFundamental bs | VString _ bs => DString bs | VMessage m => DMessage m end.

Context (string_hash message_hash : Z).
Definition hash_of (v : value) : Z := match v with VFundamental h _ => h | VString _ _ => string_hash | VMessage _ => message_hash end.

Section encode.
Context `{R : MemoryResource}.
Definition copy_to_buffer (bs : list Z) : M world () :=
  index ← add_buffer (Z.of_nat (length bs));
  w ← get; blk ← lift (mutable_memory_block (enc w) index);
  in_memory (write_block (bk_data blk) bs).
Definition serialize (v : value) (force_copy : bool) : M world () :=
  acquire_encoding_context (hash_of v) ;;
  (match v with
   | VFundamental _ bs => add_eager_buffer bs ;; mret ()
   | VString p bs => if force_copy then copy_to_buffer bs else add_memory_block (mkBlock p (Z.of_nat (length bs)) kind_host) ;; mret ()
   | VMessage m => copy_to_buffer (SerializeToArray m)
   end) ;;
  release_encoding_context.
Fixpoint encode_all (vs : list (value * bool)) : M world () :=
  match vs with [] => mret () | (v, force_copy) :: vs => serialize v force_copy ;; encode_all vs end.
End encode.

Definition deserialize (t : ctype) (w : world) (object_idx : nat) : res decoded :=
  let e := enc w in
  match t with
  | TFundamental h size =>
      h' ← type_index_hash_for_object e object_idx; check (bool_decide (h = h')) "type_index" ;;
      idx ← start_idx_for_object e object_idx;
      bs ← eager_descriptor e idx;
      if (size <=? length bs)%nat then Ret (DFundamental (take size bs)) else Undefined "read past the eager data"
  | TString =>
      h' ← type_index_hash_for_object e object_idx; check (bool_decide (string_hash = h')) "type_index" ;;
      idx ← start_idx_for_object e object_idx;
      b ← memory_block e idx;
      bs ← read_block (bk_data b) (bk_bytes b) (mem w); Ret (DString bs)
  | TMessage =>
      idx ← start_idx_for_object e object_idx;
      b ← memory_block e idx;
      bs ← read_block (bk_data b) (bk_bytes b) (mem w);
      match ParseFromArray bs with Some m => Ret (DMessage m) | None => Abort "ParseFromArray" end
  end.
End codable.

(** ** Round trip *)
Lemma bind_ret {A B} (m : M world A) (f : A → M world B) w a w' : m w = (Ret a, w') → (m ≫= f) w = f a w'.
Proof. unfold mbind, M_bind. by intros ->. Qed.
Lemma kind_roundtrip k k' : encode_memory_type k = Ret k' → decode_memory_type k' = Ret k.
Proof. by destruct k; intros [= <-]. Qed.
Lemma encodable_kind k : k ≠ kind_none → ∃ k', encode_memory_type k = Ret k'.
Proof. destruct k; by eauto. Qed.

Section roundtrip.
Context `{PL : ProtoLaws} `{R : MemoryResource, !MemoryResourceLaws R}.
Context (string_hash message_hash : Z).
(** The resource has memory, and a kind that can be described. *)
Hypothesis place_ok : ∀ h n, 0 < n → (mr_place h n).1 ≠ 0.
Hypothesis kind_ok : mr_kind ≠ kind_none.
Notation serialize := (serialize string_hash message_hash).
Notation encode_all := (encode_all string_hash message_hash).
Notation deserialize := (deserialize string_hash).
Notation hash_of := (hash_of string_hash message_hash).

(** Descriptor [d] describes the bytes [bs]. *)
Definition describes (w : world) (d : Descriptor) (bs : list Z) : Prop :=
  ∃ p k k', d = Remote (mkRemote p (Z.of_nat (length bs)) k') ∧ decode_memory_type k' = Ret k ∧ heap (mem w) !! p = Some bs.
Definition descriptor_for (w : world) (v : value) (d : Descriptor) : Prop :=
  match v with VFundamental _ bs => d = Eager bs | VString _ bs => describes w d bs | VMessage m => describes w d (SerializeToArray m) end.
Definition stored (w : world) (k : nat) (v : value) : Prop :=
  ∃ idx d, objects (enc w) !! k = Some (mkObject (u32 (Z.of_nat idx)) (hash_of v)) ∧ (Z.of_nat idx < 2 ^ 32) ∧
    descriptors (enc w) !! idx = Some d ∧ descriptor_for w v d.
Lemma read_whole p bs (s : state) : heap s !! p = Some bs → read_block p (Z.of_nat (length bs)) s = Ret bs.
Proof. intros Hp. unfold read_block. rewrite Hp, Z.leb_refl, Nat2Z.id, take_ge by lia. done. Qed.
Lemma stored_decode w k v : stored w k v → deserialize (type_of v) w k = Ret (denotes v).
Proof.
  intros (idx & d & Ho & Hi & Hd & Hv). assert (start_idx_for_object (enc w) k = Ret idx) as Hs.
  { unfold start_idx_for_object, at_index. rewrite Ho. simpl. by rewrite u32_small, Nat2Z.id by lia. }
  assert (type_index_hash_for_object (enc w) k = Ret (hash_of v)) as Hh by (unfold type_index_hash_for_object, at_index; by rewrite Ho).
  destruct v as [h bs|p bs|m]; simpl in *.
  - rewrite Hh, Hs. simpl. rewrite bool_decide_true by done. simpl. unfold eager_descriptor, at_index. rewrite Hd. simpl. subst d. simpl. rewrite Nat.leb_refl, take_ge by lia. done.
  - rewrite Hh, Hs. simpl. rewrite bool_decide_true by done. simpl. unfold memory_block, at_index. rewrite Hd. simpl.
    destruct Hv as (q & kd & k' & -> & Hk & Hq). simpl. unfold decode_descriptor. simpl. rewrite Hk. simpl. rewrite (read_whole q bs) by done. done.
  - rewrite Hs. simpl. unfold memory_block, at_index. rewrite Hd. simpl.
    destruct Hv as (q & kd & k' & -> & Hk & Hq). simpl. unfold decode_descriptor. simpl. rewrite Hk. simpl. rewrite (read_whole q _) by done. simpl. by rewrite parse_serialize.
Qed.
(** What encoding more leaves alone. *)
Record extends (w w' : world) : Prop := {
  x_desc : descriptors (enc w) `prefix_of` descriptors (enc w');
  x_obj : objects (enc w) `prefix_of` objects (enc w');
  x_heap : heap (mem w) ⊆ heap (mem w');
}.
Lemma extends_trans w1 w2 w3 : extends w1 w2 → extends w2 w3 → extends w1 w3.
Proof. intros [] []. split; etrans; eauto. Qed.
Lemma extends_refl w : extends w w.
Proof. by split. Qed.
Lemma describes_mono w w' d bs : extends w w' → describes w d bs → describes w' d bs.
Proof. intros [_ _ Hh] (p & k & k' & ? & ? & ?). exists p, k, k'. split; [done|]. split; [done|]. by eapply lookup_weaken. Qed.
Lemma stored_mono w w' k v : extends w w' → stored w k v → stored w' k v.
Proof.
  intros He (idx & d & Ho & Hi & Hd & Hv). pose proof He as [H1 H2 H3]. exists idx, d. split; [by eapply prefix_lookup_Some|]. split; [done|]. split; [by eapply prefix_lookup_Some|].
  destruct v; simpl in *; [done|by eapply describes_mono..].
Qed.

Lemma copy_run bs w : m_context_acquired (enc w) = true → bs ≠ [] →
  ∃ w' d, copy_to_buffer bs w = (Ret (), w') ∧ extends w w' ∧ describes w' d bs ∧ m_context_acquired (enc w') = true ∧
    descriptors (enc w') = descriptors (enc w) ++ [d] ∧ objects (enc w') = objects (enc w).
Proof.
  intros Hc Hbs. assert (0 < Z.of_nat (length bs)) as Hn by (destruct bs; simpl; [done|lia]). unfold copy_to_buffer, add_buffer, mbind, M_bind, get, lift. rewrite Hc. simpl.
  unfold in_memory at 1. unfold buffer_new, allocate, mbind, M_bind.
  pose proof (place_ok (heap (mem w)) _ Hn) as Hp. pose proof (place_fresh (heap (mem w)) (Z.of_nat (length bs)) Hp) as Hf. pose proof (place_size (heap (mem w)) (Z.of_nat (length bs)) ltac:(lia)) as Hz.
  destruct (mr_place (heap (mem w)) (Z.of_nat (length bs))) as [p junk]. simpl in Hp, Hf, Hz. rewrite bool_decide_false by done. simpl.
  unfold in_memory. simpl. unfold block_of_blob, blob_storage_buffer. simpl. rewrite list_lookup_alter_eq, lookup_app_r, Nat.sub_diag by lia. simpl.
  rewrite lookup_app_r, Nat.sub_diag by lia. simpl. unfold block_bool. simpl. rewrite !bool_decide_true by (lia || done). simpl.
  unfold add_memory_block. simpl. rewrite Hc. unfold mbind, M_bind, lift, encode_descriptor. simpl. destruct (encodable_kind _ kind_ok) as [k' Hk']. rewrite Hk'. simpl. unfold add_descriptor. simpl. rewrite Hc. simpl.
  unfold mutable_memory_block, memory_block, at_index, descriptor_count. simpl. rewrite lookup_app_r, Nat.sub_diag by lia. simpl. unfold decode_descriptor. simpl.
  rewrite (kind_roundtrip _ _ Hk'). simpl. unfold write_block. simpl. rewrite lookup_insert_eq. rewrite (proj2 (Nat.leb_le _ _)) by lia.
  eexists _, (Remote (mkRemote p (Z.of_nat (length bs)) k')). split; [done|]. simpl. rewrite insert_insert_eq, drop_ge, app_nil_r by lia. split; [|split; [|done]].
  - split; simpl; [by apply prefix_app_r|done|]. by apply insert_subseteq.
  - exists p, mr_kind, k'. split; [done|]. split; [by apply kind_roundtrip|]. simpl. by rewrite lookup_insert_eq.
Qed.

(** A buffer of no bytes fails the check of the block's constructor, whatever the memory
    resource returns. *)
Lemma copy_empty_aborts w : m_context_acquired (enc w) = true → (copy_to_buffer [] w).1 = Abort "operator bool()".
Proof using.
  intros Hw. assert (∃ q s', buffer_new (Some mr_kind) 0 (mem w) = (Ret (mkBuffer (Some mr_kind) 0 q), s')) as (q & s' & Hq).
  { unfold buffer_new, allocate, mbind, M_bind. destruct (mr_place (heap (mem w)) 0) as [p junk]. destruct (bool_decide (p = 0)); by eexists _, _. }
  unfold copy_to_buffer, add_buffer, mbind, M_bind, get, lift. rewrite Hw. cbn [check length Z.of_nat]. unfold in_memory at 1. change (Z.of_nat 0) with 0. rewrite Hq. simpl. unfold in_memory. simpl.
  unfold block_of_blob, blob_storage_buffer. simpl. rewrite list_lookup_alter_eq, lookup_app_r, Nat.sub_diag by lia. simpl.
  rewrite lookup_app_r, Nat.sub_diag by lia. simpl. unfold block_bool. simpl. by rewrite andb_false_r.
Qed.

(** ** Encoding keeps the memory in order *)
Lemma in_memory_returns {A} (Pm : state → Prop) (F : EncodedObject → Prop) (m : M state A) (Qm : A → state → Prop) :
  returns Pm m Qm → returns (λ w, Pm (mem w) ∧ F (enc w)) (in_memory m) (λ a w, Qm a (mem w) ∧ F (enc w)).
Proof.
  intros Hm w a w' [HP HF]. unfold in_memory. destruct (m (mem w)) as [r s] eqn:E. intros [= -> <-]. split; [|done]. by eapply Hm.
Qed.
Lemma safe_returns {A} (Pm : state → Prop) (m : M state A) Qm : safe Pm m Qm → returns Pm m Qm.
Proof. intros Hs s a s' HP E. specialize (Hs s HP). by rewrite E in Hs. Qed.
Lemma write_block_returns L p bs : returns (Inv [] [] L) (write_block p bs) (λ _, Inv [] [] L).
Proof.
  intros s [] s' HI. unfold write_block. destruct (heap s !! p) as [old|] eqn:Hp; [|done].
  destruct (Nat.leb_spec (length bs) (length old)) as [Hl|]; [|done]. intros [= <-].
  assert (∀ b, block_ok (heap s) b → block_ok (<[p := bs ++ drop (length bs) old]> (heap s)) b) as Hb.
  { intros b Hb Hn. destruct (Hb Hn) as (bs' & Hq & Hz). destruct (decide (p = m_buffer b)) as [->|Hne].
    - exists (bs ++ drop (length bs) old). rewrite lookup_insert_eq. split; [done|]. rewrite Hq in Hp. simplify_eq. rewrite length_app, length_drop. lia.
    - exists bs'. by rewrite lookup_insert_ne. }
  destruct HI as [I1 I2 I3 I4 I5 I6 I7 I8]. split; simpl; auto.
  - intros q. unfold owned in *. simpl. rewrite <-I2. destruct (decide (p = q)) as [->|Hne]; [rewrite lookup_insert_eq, Hp; by split|by rewrite lookup_insert_ne].
  - intros i [b|b|] Hi; simpl; [apply Hb, (I3 i (Var b) Hi)|apply Hb, (I3 i (Member b) Hi)|done].
Qed.
(** A copy leaves the memory in order, and the encoded object owns one more blob. *)
Lemma copy_returns L l k n bs :
  returns (λ w, Inv [] [] L (mem w) ∧ m_buffers (enc w) = l ∧ descriptor_count (enc w) = k ∧ length (blobs (mem w)) = n)
    (copy_to_buffer bs) (λ _ w, Inv [] [] L (mem w) ∧ m_buffers (enc w) = l ++ [(k, n)] ∧ length (blobs (mem w)) = S n).
Proof.
  set (F := λ e, m_buffers e = l ∧ descriptor_count e = k).
  unfold copy_to_buffer. eapply (returns_bind _ _ _ (λ _ w, Inv [] [] L (mem w) ∧ m_buffers (enc w) = l ++ [(k, n)] ∧ length (blobs (mem w)) = S n)).
  - unfold add_buffer. eapply (returns_bind _ _ _ (λ _ w, (Inv [] [] L (mem w) ∧ length (blobs (mem w)) = n) ∧ F (enc w))); [by intros w ? ? (? & ? & ? & ?) [= -> ->]|]. intros w0.
    eapply (returns_bind _ _ _ (λ _ w, (Inv [] [] L (mem w) ∧ length (blobs (mem w)) = n) ∧ F (enc w))); [intros w [] w' Hw E; unfold lift in E; by simplify_eq|]. intros [].
    eapply returns_bind; [apply (in_memory_returns (λ s, Inv [] [] L s ∧ length (blobs s) = n) F _ (λ b s, Inv [] [b] L s ∧ length (blobs s) = n))|].
    { intros s b s' [HI Hb] E. split; [by refine (safe_returns _ _ _ (buffer_new_safe [] [] L _ _ (Nat2Z.is_nonneg (length bs)) _) _ _ _ HI E)|].
      unfold buffer_new, allocate, mbind, M_bind in E. destruct (mr_place _ _) as [p junk]. destruct (bool_decide _); by injection E as <- <-. }
    intros b. eapply returns_bind; [apply (in_memory_returns (λ s, Inv [] [b] L s ∧ length (blobs s) = n) F _ (λ j s, (Inv [] [] L s ∧ alive j s) ∧ length (blobs s) = n))|].
    { intros s j s' [HI Hb] E. split; [by apply (safe_returns _ _ _ (make_storage_safe [] [] L b) _ _ _ HI E)|]. by injection E as <- <-. }
    intros j. eapply returns_bind; [apply (in_memory_returns (λ s, (Inv [] [] L s ∧ alive j s) ∧ length (blobs s) = n) F _ (λ _ s, Inv [] [] L s ∧ length (blobs s) = S n))|].
    { intros s [] s' [HI Hb] E. split; [|injection E as <-; simpl; rewrite length_app; simpl; lia].
      refine (safe_returns (λ s, Inv [] [] L s ∧ alive j s) _ (λ _, Inv [] [] L) _ _ _ _ HI E). eapply safe_bind; [apply add_ref_safe|]. intros ?. apply (new_blob_safe [] [] L (Some j)). }
    intros []. intros w i w' [[HI Hb] [HF1 HF2]]. unfold mbind, M_bind, get, lift, add_memory_block, mbind, M_bind, lift, add_descriptor. destruct (block_of_blob j (mem w)) as [blk| | |]; try done.
    destruct (m_context_acquired (enc w)) eqn:Ec; [|done]. destruct (encode_descriptor blk) as [d| | |]; try done.
    intros [= <- <-]. simpl. by rewrite HF1, HF2, Hb.
  - intros i w [] w' HI. unfold mbind at 1, M_bind at 1, get. unfold mbind at 1, M_bind at 1, lift. destruct (mutable_memory_block _ _) as [blk| | |]; try done. intros E.
    assert (returns (λ s, Inv [] [] L s ∧ length (blobs s) = S n) (write_block (bk_data blk) bs) (λ _ s, Inv [] [] L s ∧ length (blobs s) = S n)) as Hw.
    { intros s [] s' [H1 H2] Ew. split; [by eapply write_block_returns|]. unfold write_block in Ew. destruct (heap s !! _); [destruct (_ <=? _)%nat|]; by simplify_eq. }
    destruct HI as (HI & Hm & Hb). by destruct (in_memory_returns _ (λ e, m_buffers e = l ++ [(k, n)]) _ _ Hw w () w' (conj (conj HI Hb) Hm) E) as [[? ?] ?].
Qed.

(** The characters of a string to encode are in memory. *)
Definition resident (w : world) (vc : value * bool) : Prop :=
  match vc.1 with VString p bs => heap (mem w) !! p = Some bs | _ => True end.
(** The bytes that encoding a value copies to a buffer of its own: a message, and a string
    when a copy is forced. *)
Definition copied (vc : value * bool) : option (list Z) :=
  match vc with (VString _ bs, true) => Some bs | (VMessage m, _) => Some (SerializeToArray m) | _ => None end.
Definition encodable (w : world) (vc : value * bool) : Prop := resident w vc ∧ copied vc ≠ Some [].
Lemma resident_mono w w' vc : extends w w' → resident w vc → resident w' vc.
Proof. intros [_ _ Hh]. destruct vc as [[h bs|p bs|m] c]; unfold resident; simpl; [done| |done]. intros ?. by eapply lookup_weaken. Qed.
Lemma encodable_mono w w' vc : extends w w' → encodable w vc → encodable w' vc.
Proof. intros Hx [? ?]. split; [by eapply resident_mono|done]. Qed.
Lemma serialize_run v c w : m_context_acquired (enc w) = false → encodable w (v, c) → Z.of_nat (descriptor_count (enc w)) < 2 ^ 32 →
  ∃ w', serialize v c w = (Ret (), w') ∧ extends w w' ∧ m_context_acquired (enc w') = false ∧ stored w' (object_count (enc w)) v ∧
    descriptor_count (enc w') = S (descriptor_count (enc w)) ∧ object_count (enc w') = S (object_count (enc w)).
Proof.
  intros Hc He Hsmall. set (w1 := with_enc (mkEncoded (descriptors (enc w)) (objects (enc w) ++ [mkObject (u32 (Z.of_nat (descriptor_count (enc w)))) (hash_of v)]) (m_buffers (enc w)) true) w).
  assert (acquire_encoding_context (hash_of v) w = (Ret (), w1)) as Ha by (unfold acquire_encoding_context; by rewrite Hc).
  assert (extends w w1) as Hx1 by (split; simpl; [done|by apply prefix_app_r|done]).
  assert (∃ w2 d, (match v with
   | VFundamental _ bs => add_eager_buffer bs ;; mret ()
   | VString p bs => if c then copy_to_buffer bs else add_memory_block (mkBlock p (Z.of_nat (length bs)) kind_host) ;; mret ()
   | VMessage m => copy_to_buffer (SerializeToArray m)
   end) w1 = (Ret (), w2) ∧ extends w1 w2 ∧ descriptor_for w2 v d ∧ m_context_acquired (enc w2) = true ∧
    descriptors (enc w2) = descriptors (enc w1) ++ [d] ∧ objects (enc w2) = objects (enc w1)) as (w2 & d & Hb & Hx2 & Hd & Hc2 & Hds & Hos).
  { destruct v as [h bs|p bs|m]; simpl.
    - eexists _, _. split; [done|]. simpl. split; [|done]. split; simpl; [by apply prefix_app_r|done|done].
    - destruct He as [Hp Hne]. destruct c; [apply copy_run; [done|by intros ->]|]. eexists _, _. split; [done|]. simpl.
      split; [split; simpl; [by apply prefix_app_r|done|done]|]. split; [by exists p, kind_host, Host|done].
    - destruct He as [_ Hne]. apply copy_run; [done|]. intros E. apply Hne. simpl. by rewrite E. }
  unfold Codable.serialize. rewrite (bind_ret _ _ _ _ _ Ha), (bind_ret _ _ _ _ _ Hb). unfold release_encoding_context. rewrite Hc2.
  eexists. split; [done|]. split; [|split; [done|split; [|]]].
  - destruct (extends_trans _ _ _ Hx1 Hx2). by split.
  - exists (descriptor_count (enc w)), d. simpl. rewrite Hos, Hds. simpl. rewrite !lookup_app_r, !Nat.sub_diag by done. done.
  - unfold descriptor_count, object_count. simpl. rewrite Hos, Hds. simpl. rewrite !length_app. simpl. lia.
Qed.
Lemma encode_all_run vs w : m_context_acquired (enc w) = false → Forall (encodable w) vs →
  Z.of_nat (descriptor_count (enc w) + length vs) ≤ 2 ^ 32 →
  ∃ w', encode_all vs w = (Ret (), w') ∧ extends w w' ∧ m_context_acquired (enc w') = false ∧
    ∀ i v c, vs !! i = Some (v, c) → stored w' (object_count (enc w) + i) v.
Proof.
  revert w. induction vs as [|[v c] vs IH]; intros w Hc Hvs Hn; [exists w; by split; [|split; [apply extends_refl|]]|].
  inversion_clear Hvs as [|? ? Hv Hvs']. simpl in Hn. destruct (serialize_run v c w Hc Hv ltac:(lia)) as (w1 & Hs & Hx & Hc1 & Hst & Hd & Ho).
  destruct (IH w1 Hc1) as (w2 & Hr & Hx2 & Hc2 & Hall); [eapply Forall_impl; [exact Hvs'|]; intros ?; by apply encodable_mono|lia|].
  exists w2. cbn [Codable.encode_all]. unfold mbind, M_bind. rewrite Hs, Hr. split; [done|]. split; [by eapply extends_trans|]. split; [done|].
  intros [|i] v' c' Hi; simplify_eq/=; [rewrite Nat.add_0_r; by eapply stored_mono|]. rewrite Nat.add_succ_r, <-Nat.add_succ_l, <-Ho. by eapply Hall.
Qed.

(** The first value that would be copied to a buffer of no bytes aborts the process. *)
Lemma serialize_empty_aborts v c w : m_context_acquired (enc w) = false → copied (v, c) = Some [] →
  (serialize v c w).1 = Abort "operator bool()".
Proof using.
  intros Hc Hv. unfold Codable.serialize.
  rewrite (bind_ret _ _ _ () (with_enc (mkEncoded (descriptors (enc w)) (objects (enc w) ++ [mkObject (u32 (Z.of_nat (descriptor_count (enc w)))) (hash_of v)]) (m_buffers (enc w)) true) w))
    by (unfold acquire_encoding_context; by rewrite Hc).
  match goal with |- context [with_enc ?e w] => pose proof (copy_empty_aborts (with_enc e w) eq_refl) as Ha; set (w1 := with_enc e w) in Ha |- * end.
  destruct v as [h bs|p bs|m]; simpl in Hv; [done| |].
  - destruct c; [|done]. injection Hv as ->. unfold mbind, M_bind. destruct (copy_to_buffer [] w1) as [[[]|?|?|?] ?]; simpl in Ha |- *; done.
  - injection Hv as ->. unfold mbind, M_bind. destruct (copy_to_buffer [] w1) as [[[]|?|?|?] ?]; simpl in Ha |- *; done.
Qed.
Lemma encode_all_aborts vs w : m_context_acquired (enc w) = false → Forall (resident w) vs →
  Z.of_nat (descriptor_count (enc w) + length vs) ≤ 2 ^ 32 → ¬ Forall (λ vc, copied vc ≠ Some []) vs →
  (encode_all vs w).1 = Abort "operator bool()".
Proof.
  revert w. induction vs as [|[v c] vs IH]; intros w Hc Hvs Hn Hex; [by destruct Hex|].
  inversion_clear Hvs as [|? ? Hv Hvs']. simpl in Hn. cbn [Codable.encode_all]. unfold mbind, M_bind.
  destruct (decide (copied (v, c) = Some [])) as [He|He].
  - pose proof (serialize_empty_aborts v c w Hc He) as Ha. destruct (serialize v c w) as [[[]|?|?|?] ?]; simpl in *; simplify_eq; done.
  - destruct (serialize_run v c w Hc (conj Hv He) ltac:(lia)) as (w1 & -> & Hx & Hc1 & _ & Hd & _).
    apply IH; [done|eapply Forall_impl; [exact Hvs'|]; intros ?; by apply resident_mono|lia|].
    intros Hall. apply Hex. by constructor.
Qed.

(** C34: values of any codable types, whose strings are in memory, are encoded one after the
    other into one object by a memory resource that has memory.  If nothing that has to be
    copied to a buffer is empty (no message serializes to no bytes, no empty string is
    copied), all are encoded, and each is decoded from its index as it was: fundamental
    types from their eager bytes, strings from their own characters or from a copy, and
    messages from a buffer; encoding changes no memory but that of its own buffers.
    Otherwise the process is aborted, by the check of the block made for the empty buffer. *)
Theorem codable_roundtrip vs s : Forall (resident (mkWorld s new_encoded)) vs → Z.of_nat (length vs) ≤ 2 ^ 32 →
  if bool_decide (Forall (λ vc, copied vc ≠ Some []) vs)
  then ∃ w, encode_all vs (mkWorld s new_encoded) = (Ret (), w) ∧ heap s ⊆ heap (mem w) ∧
    ∀ i v c, vs !! i = Some (v, c) → deserialize (type_of v) w i = Ret (denotes v)
  else (encode_all vs (mkWorld s new_encoded)).1 = Abort "operator bool()".
Proof.
  intros Hvs Hn. case_bool_decide as Hne; [|by apply encode_all_aborts].
  assert (Forall (encodable (mkWorld s new_encoded)) vs) as Hen by (apply Forall_and; by split).
  destruct (encode_all_run vs (mkWorld s new_encoded) eq_refl Hen Hn) as (w & Hr & Hx & _ & Hall).
  exists w. split; [done|]. split; [apply Hx|]. intros i v c Hi. by apply stored_decode, (Hall i v c).
Qed.
End roundtrip.

(** A message whose serialization is empty cannot be encoded. *)
Theorem empty_message_aborts `{P : ProtoMessage} `{R : MemoryResource} string_hash message_hash (m : Message) c s : SerializeToArray m = [] →
  (serialize string_hash message_hash (VMessage m) c (mkWorld s new_encoded)).1 = Abort "operator bool()".
Proof. intros Hm. apply serialize_empty_aborts; [done|]. simpl. by rewrite Hm. Qed.

(** Meta data is read back as the message it was made from; reading any other
    descriptor as meta data aborts. *)
Theorem meta_data_roundtrip `{PL : ProtoLaws} (m : Message) w : m_context_acquired (enc w) = true →
  ∃ i w', add_meta_data m w = (Ret i, w') ∧ meta_data (enc w') i = Ret m.
Proof.
  intros Hc. unfold add_meta_data, add_descriptor. rewrite Hc. eexists _, _. split; [done|]. unfold meta_data, at_index, descriptor_count. simpl.
  rewrite lookup_app_r, Nat.sub_diag by lia. simpl. rewrite bool_decide_true by done. by rewrite parse_serialize.
Qed.
(** The encoding context is not reentrant: encoding an object from within the encoding
    of another one aborts. *)
Theorem nested_encoding_aborts `{P : ProtoMessage} `{R : MemoryResource} string_hash message_hash v c w :
  m_context_acquired (enc w) = true → serialize string_hash message_hash v c w = (Abort "m_context_acquired == false", w).
Proof. intros Hc. unfold serialize, mbind, M_bind, acquire_encoding_context. by rewrite Hc. Qed.

(** ** Concrete runs *)
#[local] Instance bytes_message : ProtoMessage :=
  {| Message := list Z; message_url := "bytes"; SerializeToArray m := m; ParseFromArray bs := Some bs |}.
#[local] Instance bytes_laws : ProtoLaws bytes_message.
Proof. by split. Qed.
Lemma top_nonneg h : 0 ≤ top h.
Proof. unfold top. induction (map_to_list h) as [|kv l IH]; simpl; lia. Qed.
(** A string of two characters at address 7. *)
Definition with_string : state := with_heap {[7 := [104; 105]]} empty_state.
Definition some_values : list (value * bool) :=
  [(VFundamental 1 [42; 0; 0; 0], false); (VString 7 [104; 105], false); (VString 7 [104; 105], true); (VMessage [8; 9], false)].
Definition no_bytes : @Message bytes_message := @nil Z.
Lemma codable_roundtrip_witness :
  (∃ w, encode_all 2 3 some_values (mkWorld with_string new_encoded) = (Ret (), w) ∧ heap with_string ⊆ heap (mem w) ∧
    ∀ i v c, some_values !! i = Some (v, c) → deserialize 2 (type_of v) w i = Ret (denotes v)) ∧
  (encode_all 2 3 (some_values ++ [(VMessage no_bytes, false)]) (mkWorld with_string new_encoded)).1 = Abort "operator bool()".
Proof.
  assert (∀ h n, 0 < n → (mr_place h n).1 ≠ 0) as Hplace by (intros h n _; simpl; pose proof (top_nonneg h); lia).
  split.
  - apply (codable_roundtrip 2 3 Hplace ltac:(done) some_values with_string); [repeat constructor; done|done].
  - apply (codable_roundtrip 2 3 Hplace ltac:(done) (some_values ++ [(VMessage no_bytes, false)]) with_string); [repeat constructor; done|done].
Defined.
