(* ===== verification/Trace.v ===== *)
(** * Trace statistics

    Models [src/public/benchmarking/trace_statistics.cpp] with the clock of
    [src/public/benchmarking/util.cpp]: one object of counters per thread and component
    name, the registry of all of them, the watcher events that update the counters and
    the aggregation over threads.  Time points and durations are nanoseconds; a handler
    gets the value of each reading of the clock that it makes.  Counters are 64-bit;
    doubles are exact rationals, with a value for a division by zero. *)
From Stdlib Require Import QArith.
From S2P Require Import Prelude StdMap.
#[local] Open Scope Z_scope.

(** ** [TimeUtil] *)
Record TimeUtil := mkTimeUtil { s_mean_steady_clock_call_unit_delay : Z; s_minimum_resolution : Z }.
Definition default_time : TimeUtil := mkTimeUtil 100 10.
Definition SteadyClockDelayEstimateIterations : Z := 1000000.
(** From the differences of the readings, one per iteration. *)
Definition estimate_steady_clock_delay (ds : list Z) (t : TimeUtil) : TimeUtil :=
  mkTimeUtil (u64 (foldl (λ a d, u64 (a + d)) 0 ds) / SteadyClockDelayEstimateIterations) (s_minimum_resolution t).
Definition get_delay_compensated_time_point (t : TimeUtil) (now : Z) : Z := now + s_mean_steady_clock_call_unit_delay t.

(** ** One object of counters *)
Inductive WatchableEvent := channel_write | channel_read | sink_on_data.
Record TraceStatistics := mkStats {
  m_start_time : Z; m_internal_chain_start : Z; m_channel_read_start : Z; m_channel_write_start : Z;
  m_emission_count : Z; m_receive_count : Z; m_channel_sink_reads : Z; m_channel_source_writes : Z;
  m_total_internal_elapsed_ns : Z; m_total_ch_read_elapsed_ns : Z; m_total_ch_write_elapsed_ns : Z;
  trace_op : bool; trace_ch : bool;                    (* the handlers in the lookup tables *)
}.
(** The lookup tables hold the handlers of what is traced, and no-ops. *)
Definition initialize_lookup_tables (ops chs : bool) (s : TraceStatistics) : TraceStatistics :=
  mkStats (m_start_time s) (m_internal_chain_start s) (m_channel_read_start s) (m_channel_write_start s)
    (m_emission_count s) (m_receive_count s) (m_channel_sink_reads s) (m_channel_source_writes s)
    (m_total_internal_elapsed_ns s) (m_total_ch_read_elapsed_ns s) (m_total_ch_write_elapsed_ns s) ops chs.
Definition TraceStatistics_new (start : Z) (ops chs : bool) : TraceStatistics :=
  initialize_lookup_tables ops chs (mkStats start start start start 0 0 0 0 0 0 0 false false).

Section handlers.
Context (T : TimeUtil).
(** A duration that is not positive counts as the least resolution. *)
Definition elapsed_since (start now d : Z) : Z := if start <? now then d else s_minimum_resolution T.
Definition receive (now : Z) (s : TraceStatistics) : TraceStatistics :=
  mkStats (m_start_time s) (get_delay_compensated_time_point T now) (m_channel_read_start s) (m_channel_write_start s)
    (m_emission_count s) (u64 (m_receive_count s + 1)) (m_channel_sink_reads s) (m_channel_source_writes s)
    (m_total_internal_elapsed_ns s) (m_total_ch_read_elapsed_ns s) (m_total_ch_write_elapsed_ns s) (trace_op s) (trace_ch s).
Definition emit (now now' : Z) (s : TraceStatistics) : TraceStatistics :=
  mkStats (m_start_time s) (get_delay_compensated_time_point T now') (m_channel_read_start s) (m_channel_write_start s)
    (u64 (m_emission_count s + 1)) (m_receive_count s) (m_channel_sink_reads s) (m_channel_source_writes s)
    (u64 (m_total_internal_elapsed_ns s + elapsed_since (m_internal_chain_start s) now (now - m_internal_chain_start s)))
    (m_total_ch_read_elapsed_ns s) (m_total_ch_write_elapsed_ns s) (trace_op s) (trace_ch s).
Definition channel_read_start (now : Z) (s : TraceStatistics) : TraceStatistics :=
  mkStats (m_start_time s) (m_internal_chain_start s) (get_delay_compensated_time_point T now) (m_channel_write_start s)
    (m_emission_count s) (m_receive_count s) (m_channel_sink_reads s) (m_channel_source_writes s)
    (m_total_internal_elapsed_ns s) (m_total_ch_read_elapsed_ns s) (m_total_ch_write_elapsed_ns s) (trace_op s) (trace_ch s).
(** The test is on the start of the read, the difference on the start of the write. *)
Definition channel_read_end (now : Z) (s : TraceStatistics) : TraceStatistics :=
  mkStats (m_start_time s) (m_internal_chain_start s) (m_channel_read_start s) (m_channel_write_start s)
    (m_emission_count s) (m_receive_count s) (u64 (m_channel_sink_reads s + 1)) (m_channel_source_writes s)
    (m_total_internal_elapsed_ns s)
    (u64 (m_total_ch_read_elapsed_ns s + elapsed_since (m_channel_read_start s) now (now - m_channel_write_start s)))
    (m_total_ch_write_elapsed_ns s) (trace_op s) (trace_ch s).
Definition channel_write_start (now : Z) (s : TraceStatistics) : TraceStatistics :=
  mkStats (m_start_time s) (m_internal_chain_start s) (m_channel_read_start s) (get_delay_compensated_time_point T now)
    (m_emission_count s) (m_receive_count s) (m_channel_sink_reads s) (m_channel_source_writes s)
    (m_total_internal_elapsed_ns s) (m_total_ch_read_elapsed_ns s) (m_total_ch_write_elapsed_ns s) (trace_op s) (trace_ch s).
Definition channel_write_end (now now' : Z) (s : TraceStatistics) : TraceStatistics :=
  mkStats (m_start_time s) (get_delay_compensated_time_point T now') (m_channel_read_start s) (m_channel_write_start s)
    (m_emission_count s) (m_receive_count s) (m_channel_sink_reads s) (u64 (m_channel_source_writes s + 1))
    (m_total_internal_elapsed_ns s) (m_total_ch_read_elapsed_ns s)
    (u64 (m_total_ch_write_elapsed_ns s + elapsed_since (m_channel_write_start s) now (now - m_channel_write_start s)))
    (trace_op s) (trace_ch s).
Definition clear (now : Z) (s : TraceStatistics) : TraceStatistics :=
  mkStats (get_delay_compensated_time_point T now) (m_internal_chain_start s) (m_channel_read_start s) (m_channel_write_start s)
    0 0 0 0 0 0 0 (trace_op s) (trace_ch s).
Definition on_entry (e : WatchableEvent) (now : Z) (s : TraceStatistics) : TraceStatistics :=
  match e with
  | sink_on_data => if trace_op s then receive now s else s
  | channel_read => if trace_ch s then channel_read_start now s else s
  | channel_write => if trace_ch s then channel_write_start now s else s
  end.
Definition on_exit (e : WatchableEvent) (now now' : Z) (s : TraceStatistics) : TraceStatistics :=
  match e with
  | sink_on_data => if trace_op s then emit now now' s else s
  | channel_read => if trace_ch s then channel_read_end now s else s
  | channel_write => if trace_ch s then channel_write_end now now' s else s
  end.
Inductive watched := Entry (e : WatchableEvent) (now : Z) | Exit (e : WatchableEvent) (now now' : Z).
Definition watch (s : TraceStatistics) (w : watched) : TraceStatistics :=
  match w with Entry e now => on_entry e now s | Exit e now now' => on_exit e now now' s end.
End handlers.

(** ** The registry *)
Record registry := mkRegistry {
  stats : list TraceStatistics;
  TraceObjectMap : gmap (nat * string) nat;             (* per thread: name to object *)
  TraceObjectMultimap : list (string * nat);            (* sorted by name *)
  s_trace_operators : bool; s_trace_operators_set_manually : bool;
  s_trace_channels : bool; s_trace_channels_set_manually : bool;
}.
Definition registry_new (env_operators env_channels : bool) : registry := mkRegistry [] ∅ [] env_operators false env_channels false.
(** [std::multimap::insert]: after the entries that are not greater. *)
Fixpoint multimap_insert (k : string) (x : nat) (m : list (string * nat)) : list (string * nat) :=
  match m with
  | [] => [(k, x)]
  | (k', y) :: m' => if String.ltb k k' then (k, x) :: m else (k', y) :: multimap_insert k x m'
  end.
Definition get_or_create (thread : nat) (name : string) (start : Z) (r : registry) : nat * registry :=
  match TraceObjectMap r !! (thread, name) with
  | Some i => (i, r)
  | None =>
      let i := length (stats r) in
      (i, mkRegistry (stats r ++ [TraceStatistics_new start (s_trace_operators r) (s_trace_channels r)])
            (<[(thread, name) := i]> (TraceObjectMap r)) (multimap_insert name i (TraceObjectMultimap r))
            (s_trace_operators r) (s_trace_operators_set_manually r) (s_trace_channels r) (s_trace_channels_set_manually r))
  end.
Definition sync_state (env_operators env_channels : bool) (r : registry) : registry :=
  let ops := if s_trace_operators_set_manually r then s_trace_operators r else env_operators in
  let chs := if s_trace_channels_set_manually r then s_trace_channels r else env_channels in
  mkRegistry (initialize_lookup_tables ops chs <$> stats r) (TraceObjectMap r) (TraceObjectMultimap r)
    ops (s_trace_operators_set_manually r) chs (s_trace_channels_set_manually r).
Definition trace_operators (flag sync_immediate env_operators env_channels : bool) (r : registry) : registry :=
  let r' := mkRegistry (stats r) (TraceObjectMap r) (TraceObjectMultimap r) flag true (s_trace_channels r) (s_trace_channels_set_manually r) in
  if sync_immediate then sync_state env_operators env_channels r' else r'.
Definition trace_channels (flag sync_immediate env_operators env_channels : bool) (r : registry) : registry :=
  let r' := mkRegistry (stats r) (TraceObjectMap r) (TraceObjectMultimap r) (s_trace_operators r) (s_trace_operators_set_manually r) flag true in
  if sync_immediate then sync_state env_operators env_channels r' else r'.
(** [now i]: the clock when object [i] is cleared. *)
Definition reset (T : TimeUtil) (env_operators env_channels : bool) (now : nat → Z) (r : registry) : registry :=
  let r' := sync_state env_operators env_channels (mkRegistry (stats r) (TraceObjectMap r) (TraceObjectMultimap r) false false false false) in
  mkRegistry (list.imap (λ i s, clear T (now i) s) (stats r')) (TraceObjectMap r') (TraceObjectMultimap r')
    (s_trace_operators r') (s_trace_operators_set_manually r') (s_trace_channels r') (s_trace_channels_set_manually r').

(** ** Json values *)
Inductive value := UI (z : Z) | D (q : Q) | NotFinite.
Definition object := list (string * value).
Definition seconds (ns : Z) : Q := inject_Z ns * (1 # 1000000000).
Definition rate (count elapsed_ns : Z) : value := if elapsed_ns =? 0 then NotFinite else D (inject_Z count / seconds elapsed_ns).
Definition average (total count : Z) : Z := if 0 <? count then total / count else 0.
Definition to_json (now : Z) (s : TraceStatistics) : object :=
  let elapsed := u64 (now - m_start_time s) in
  [("component_channel_read_latency_seconds", D (seconds (average (m_total_ch_read_elapsed_ns s) (m_channel_sink_reads s))));
   ("component_channel_read_total", UI (m_channel_sink_reads s));
   ("component_channel_reads_seconds", D (seconds (m_total_ch_read_elapsed_ns s)));
   ("component_channel_write_latency_seconds", D (seconds (average (m_total_ch_write_elapsed_ns s) (m_channel_source_writes s))));
   ("component_channel_write_seconds", D (seconds (m_total_ch_write_elapsed_ns s)));
   ("component_channel_write_total", UI (m_channel_source_writes s));
   ("component_elapsed_total_seconds", D (seconds elapsed));
   ("component_emission_rate_seconds", rate (m_emission_count s) elapsed);
   ("component_emissions_total", UI (m_emission_count s));
   ("component_operator_proc_latency_seconds", D (seconds (average (m_total_internal_elapsed_ns s) (m_emission_count s))));
   ("component_operator_proc_seconds", D (seconds (m_total_internal_elapsed_ns s)));
   ("component_receive_total", UI (m_receive_count s));
   ("component_received_rate_seconds", rate (m_receive_count s) elapsed)]%string.
(** The declared types of the metrics. *)
Definition data_types : list (string * string) :=
  [("component_emissions_total", "ui"); ("component_emission_rate_seconds", "d"); ("component_receive_total", "ui");
   ("component_received_rate_seconds", "d"); ("component_channel_read_total", "ui"); ("component_channel_write_total", "ui");
   ("component_operator_proc_latency_seconds", "d"); ("component_channel_read_latency_seconds", "d");
   ("component_channel_write_latency_seconds", "d"); ("component_channel_reads_seconds", "d"); ("component_channel_write_seconds", "d");
   ("component_operator_proc_seconds", "d"); ("component_elapsed_total_seconds", "ui")]%string.
(** The conversions of [get<std::size_t>] and [get<double>]; there is none from null. *)
Definition get_ui (v : option value) : res Z :=
  match v with
  | Some (UI z) => Ret z | Some (D q) => Ret (u64 (Z.quot (Qnum q) (QDen q))) | Some NotFinite => Undefined "conversion to size_t"
  | None => Throw "type_error"
  end.
Definition get_d (v : option value) : res value :=
  match v with Some (UI z) => Ret (D (inject_Z z)) | Some v => Ret v | None => Throw "type_error" end.
Definition add_d (a b : value) : value := match a, b with D p, D q => D (p + q) | _, _ => NotFinite end.
Definition add_metric (current : object) (kv : string * value) : res (string * value) :=
  let '(k, v) := kv in
  match smap_find k data_types with
  | Some "ui"%string => a ← get_ui (smap_find k current); b ← get_ui (Some v); Ret (k, UI (u64 (a + b)))
  | Some "d"%string => a ← get_d (smap_find k current); b ← get_d (Some v); Ret (k, add_d a b)
  | _ => Throw "Unknown metric data type"
  end.
(** The metrics of a sibling are added to those of the component, key by key: both have
    the keys of [to_json], in the order of the map. *)
Fixpoint add_metrics (current sibling : object) : res object :=
  match sibling with
  | [] => Ret []
  | kv :: sibling => kv' ← add_metric current kv; rest ← add_metrics current sibling; Ret (kv' :: rest)
  end.
(** The loop of [aggregate]; the result: the metrics of the components, in the order in
    which they are appended to the counters. *)
Fixpoint aggregate_loop (snapshot : nat → object) (m : list (string * nat)) (component : string) (current : option object)
    (out : list (string * object)) : res (list (string * object)) :=
  match m with
  | [] => Ret (match current with Some o => out ++ [(component, o)] | None => out end)
  | (name, i) :: m =>
      if String.eqb component name then
        o ← add_metrics (default [] current) (snapshot i); aggregate_loop snapshot m component (Some o) out
      else aggregate_loop snapshot m name (Some (snapshot i)) (match current with Some o => out ++ [(component, o)] | None => out end)
  end.
Definition aggregate (now : nat → Z) (r : registry) : res (list (string * object)) :=
  aggregate_loop (λ i, match stats r !! i with Some s => to_json (now i) s | None => [] end) (TraceObjectMultimap r) "" None [].

(** ** The registry holds one object per thread and name *)
Definition calls (cs : list (nat * string * Z)) (r : registry) : registry :=
  foldl (λ r c, (get_or_create c.1.1 c.1.2 c.2 r).2) r cs.
Lemma multimap_insert_perm k x m : multimap_insert k x m ≡ₚ (k, x) :: m.
Proof. induction m as [|[k' y] m IH]; simpl; [done|]. destruct (String.ltb k k'); [done|]. rewrite IH. apply Permutation_swap. Qed.
(** The registry after the calls of the distinct threads and names in [ks]. *)
Record registered (ks : list (nat * string)) (r : registry) : Prop := {
  g_keys : NoDup ks;
  g_map k : is_Some (TraceObjectMap r !! k) ↔ k ∈ ks;
  g_names : (TraceObjectMultimap r).*1 ≡ₚ ks.*2;
  g_objects : (TraceObjectMultimap r).*2 ≡ₚ seq 0 (length (stats r));
  g_size : length (stats r) = length ks;
}.
Lemma registered_call t name start ks r : registered ks r →
  registered (if bool_decide ((t, name) ∈ ks) then ks else (t, name) :: ks) (get_or_create t name start r).2.
Proof.
  intros [G1 G2 G3 G4 G5]. unfold get_or_create. destruct (TraceObjectMap r !! (t, name)) as [i|] eqn:E.
  - rewrite bool_decide_true; [done|]. apply G2. by rewrite E.
  - assert ((t, name) ∉ ks) as Hn by (intros H%G2; rewrite E in H; by destruct H). rewrite bool_decide_false by done. split; simpl.
    + by apply NoDup_cons.
    + intros k. rewrite elem_of_cons, <-G2. destruct (decide (k = (t, name))) as [->|Hne]; [rewrite lookup_insert_eq; naive_solver|].
      rewrite lookup_insert_ne by done. naive_solver.
    + rewrite multimap_insert_perm, fmap_cons, G3. done.
    + rewrite multimap_insert_perm, fmap_cons, G4, length_app, seq_app. simpl. apply Permutation_cons_append.
    + rewrite length_app. simpl. lia.
Qed.
(** The distinct threads and names among the calls. *)
Definition callers (cs : list (nat * string * Z)) : list (nat * string) :=
  foldl (λ ks c, if bool_decide (c.1 ∈ ks) then ks else c.1 :: ks) [] cs.
(** The registry keeps one object for each thread that asked for a name, however often
    it asked: the multiplicity of a name in the multimap is the number of its threads. *)
Theorem registry_multiplicity cs env_operators env_channels :
  let r := calls cs (registry_new env_operators env_channels) in
  (TraceObjectMultimap r).*1 ≡ₚ (callers cs).*2 ∧ NoDup (callers cs) ∧ (TraceObjectMultimap r).*2 ≡ₚ seq 0 (length (stats r)).
Proof.
  intros r. assert (registered (callers cs) r) as [G1 _ G3 G4 _]; [|done]. subst r. unfold calls, callers.
  assert (registered [] (registry_new env_operators env_channels)) as H0.
  { split; simpl; try done; [constructor|]. intros k. rewrite lookup_empty. split; [by intros []|by intros ?%elem_of_nil]. }
  revert H0. generalize (@nil (nat * string)), (registry_new env_operators env_channels).
  induction cs as [|[[t name] start] cs IH]; intros ks r Hr; simpl; [done|]. by apply IH, registered_call.
Qed.

(** ** Flags *)
(** A flag that was set by hand outlives every later synchronisation with the
    environment, and its value is what every object traces; a reset gives both flags
    back to the environment and clears every counter. *)
Theorem manual_flag_overrides flag env_operators env_channels e1 e2 r :
  let r' := sync_state e1 e2 (trace_operators flag true env_operators env_channels r) in
  s_trace_operators r' = flag ∧ Forall (λ s, trace_op s = flag) (stats r').
Proof.
  intros r'. split; [done|]. unfold r', trace_operators, sync_state. simpl. apply Forall_fmap, Forall_forall. by intros s _.
Qed.
Theorem reset_follows_environment T env_operators env_channels now r :
  let r' := reset T env_operators env_channels now r in
  s_trace_operators r' = env_operators ∧ s_trace_channels r' = env_channels ∧
  Forall (λ s, trace_op s = env_operators ∧ trace_ch s = env_channels ∧ m_emission_count s = 0 ∧ m_total_ch_write_elapsed_ns s = 0) (stats r').
Proof.
  intros r'. split; [done|]. split; [done|]. unfold r', reset, sync_state. simpl. apply Forall_forall. intros s [i Hi]%list_elem_of_lookup.
  rewrite list_lookup_imap in Hi. apply fmap_Some in Hi as (s0 & Hs0 & ->). rewrite list_lookup_fmap in Hs0. by apply fmap_Some in Hs0 as (s1 & _ & ->).
Qed.

(** ** Counters *)
Definition exits (e : WatchableEvent) (ws : list watched) : Z :=
  Z.of_nat (countb (λ w, match w, e with Exit sink_on_data _ _, sink_on_data | Exit channel_read _ _, channel_read | Exit channel_write _ _, channel_write => true | _, _ => false end) ws).
Definition entries_of_data (ws : list watched) : Z := Z.of_nat (countb (λ w, match w with Entry sink_on_data _ => true | _ => false end) ws).
Definition in_u64 (z : Z) : Prop := 0 ≤ z < 2 ^ 64.
Lemma u64_range z : in_u64 (u64 z).
Proof. unfold in_u64, u64. apply Z.mod_pos_bound. lia. Qed.
Lemma u64_step a n : u64 (u64 (a + 1) + n) = u64 (a + (1 + n)).
Proof. unfold u64. rewrite Zplus_mod_idemp_l. f_equal. lia. Qed.
(** With tracing on, each counter of an object is the number of events of its kind,
    modulo 2^64: emissions and receptions of data, reads and writes of the channel. *)
Theorem counters_count T ws s : trace_op s = true → trace_ch s = true → in_u64 (m_emission_count s) → in_u64 (m_receive_count s) →
  in_u64 (m_channel_sink_reads s) → in_u64 (m_channel_source_writes s) →
  let s' := foldl (watch T) s ws in
  m_emission_count s' = u64 (m_emission_count s + exits sink_on_data ws) ∧
  m_receive_count s' = u64 (m_receive_count s + entries_of_data ws) ∧
  m_channel_sink_reads s' = u64 (m_channel_sink_reads s + exits channel_read ws) ∧
  m_channel_source_writes s' = u64 (m_channel_source_writes s + exits channel_write ws).
Proof.
  revert s. induction ws as [|w ws IH]; intros s Ho Hc H1 H2 H3 H4; cbv zeta.
  - unfold exits, entries_of_data. simpl. rewrite !Z.add_0_r. by rewrite !u64_small by done.
  - simpl foldl. assert (∀ e, exits e (w :: ws) = exits e [w] + exits e ws) as He by (intros e; unfold exits; cbn [countb]; lia).
    assert (entries_of_data (w :: ws) = entries_of_data [w] + entries_of_data ws) as Hd by (unfold entries_of_data; cbn [countb]; lia).
    rewrite Hd, !He. destruct w as [[] now|[] now now']; unfold exits, entries_of_data in *; simpl; rewrite ?Ho, ?Hc;
      (edestruct (IH) as (I1 & I2 & I3 & I4); [| | | | | |rewrite I1, I2, I3, I4; simpl; rewrite ?u64_step, ?Z.add_0_l]; simpl; auto using u64_range).
Qed.

(** ** Times *)

(** What the contexts of one node do, in the order in which they call the handlers of the
    object they share: each entry of the list has the number of its context. *)
Notation schedule := (list (nat * watched)).
(** Readings of the clock do not go back, and each context is in at most one channel
    write: [open] tells for every context whether it is in one. *)
Fixpoint timed (t : Z) (open : list bool) (ws : schedule) : Prop :=
  match ws with
  | [] => True
  | (c, Entry channel_write now) :: ws => t ≤ now ∧ open !! c = Some false ∧ timed now (<[c := true]> open) ws
  | (c, Exit channel_write now now') :: ws => t ≤ now ∧ now ≤ now' ∧ open !! c = Some true ∧ timed now' (<[c := false]> open) ws
  | (_, Entry _ now) :: ws => t ≤ now ∧ timed now open ws
  | (_, Exit _ now now') :: ws => t ≤ now ∧ now ≤ now' ∧ timed now' open ws
  end.
Definition last_reading (t : Z) (ws : schedule) : Z :=
  foldl (λ t w, match w.2 with Entry _ now => now | Exit _ _ now' => now' end) t ws.
(** The writes whose end does not lie after the last (compensated) beginning of a write:
    too short to measure. *)
Fixpoint short_writes (T : TimeUtil) (start : Z) (ws : schedule) : Z :=
  match ws with
  | [] => 0
  | (_, Entry channel_write now) :: ws => short_writes T (now + s_mean_steady_clock_call_unit_delay T) ws
  | (_, Exit channel_write now _) :: ws => (if now <=? start then 1 else 0) + short_writes T start ws
  | _ :: ws => short_writes T start ws
  end.
Definition sumZ (l : list Z) : Z := foldr Z.add 0 l.
Lemma sumZ_insert (l : list Z) (c : nat) x y : l !! c = Some x → sumZ (<[c := y]> l) = sumZ l - x + y.
Proof. revert c. unfold sumZ. induction l as [|z l IH]; intros [|c] Hc; simplify_eq/=; [lia|]. rewrite (IH c Hc). lia. Qed.
Lemma sumZ_bound (l : list Z) b : Forall (λ x, x ≤ b) l → sumZ l ≤ Z.of_nat (length l) * b.
Proof. unfold sumZ. induction 1 as [|x l Hx _ IH]; cbn [foldr length]; [lia|]. rewrite Nat2Z.inj_succ. lia. Qed.
Lemma u64_le z : 0 ≤ z → 0 ≤ u64 z ≤ z.
Proof. intros Hz. unfold u64. pose proof (Z.mod_pos_bound z (2 ^ 64)). pose proof (Z.mod_le z (2 ^ 64) Hz). lia. Qed.

Section times.
Context (T : TimeUtil) (t0 : Z).
Hypothesis delay_nonneg : 0 ≤ s_mean_steady_clock_call_unit_delay T.
Hypothesis resolution_nonneg : 0 ≤ s_minimum_resolution T.
(** For every context, up to some reading the time it spent in writes is accounted for; a
    write that is under way began then or later. *)
Record accounted (n t : Z) (open : list bool) (s : TraceStatistics) (acc : list Z) : Prop := {
  a_trace : trace_ch s = true;
  a_length : length acc = length open;
  a_past : Forall (λ a, a - t0 ≤ t - t0) acc;
  a_total : 0 ≤ m_total_ch_write_elapsed_ns s ≤ sumZ ((λ a, a - t0) <$> acc) + s_minimum_resolution T * n;
  a_open c a : open !! c = Some true → acc !! c = Some a → a ≤ m_channel_write_start s;
}.
Lemma accounted_same n t t' open s s' acc : t ≤ t' → trace_ch s' = trace_ch s → m_total_ch_write_elapsed_ns s' = m_total_ch_write_elapsed_ns s →
  m_channel_write_start s' = m_channel_write_start s → accounted n t open s acc → accounted n t' open s' acc.
Proof.
  intros Ht E1 E2 E3 [A1 A2 A3 A4 A5]. split; rewrite ?E1, ?E2, ?E3; auto. eapply Forall_impl; [exact A3|]. simpl. lia.
Qed.
Lemma acc_insert (acc : list Z) (c : nat) a now :
  acc !! c = Some a → sumZ ((λ a, a - t0) <$> <[c := now]> acc) = sumZ ((λ a, a - t0) <$> acc) - a + now.
Proof.
  intros Ha. rewrite list_fmap_insert, (sumZ_insert _ c (a - t0)); [lia|]. by rewrite list_lookup_fmap, Ha.
Qed.
Lemma accounted_move n n' t now t' (c : nat) (b : bool) open s s' acc a :
  accounted n t open s acc → acc !! c = Some a → t ≤ now → now ≤ t' → trace_ch s' = true →
  0 ≤ m_total_ch_write_elapsed_ns s' ≤ sumZ ((λ a, a - t0) <$> acc) - a + now + s_minimum_resolution T * n' →
  (∀ c' a', <[c := b]> open !! c' = Some true → <[c := now]> acc !! c' = Some a' → a' ≤ m_channel_write_start s') →
  accounted n' t' (<[c := b]> open) s' (<[c := now]> acc).
Proof.
  intros [A1 A2 A3 A4 A5] Ha Ht Ht' Htr Htot Hop. split; [done|by rewrite !length_insert| |by rewrite (acc_insert _ _ _ _ Ha)|done].
  apply Forall_insert; [eapply Forall_impl; [exact A3|]; simpl; lia|simpl; lia].
Qed.
Lemma accounted_entry n t now (c : nat) open s acc : t ≤ now → open !! c = Some false → accounted n t open s acc →
  ∃ acc', accounted n now (<[c := true]> open) (channel_write_start T now s) acc'.
Proof.
  intros Ht Hc Ha. pose proof Ha as [A1 A2 A3 A4 A5]. destruct (lookup_lt_is_Some_2 acc c) as [a Hac]; [rewrite A2; by eapply lookup_lt_Some|].
  pose proof (Forall_lookup_1 _ _ _ _ A3 Hac) as Hle. simpl in Hle.
  exists (<[c := now]> acc). eapply accounted_move; [done|done|done|lia|done|simpl; lia|].
  intros c' a' Hc' Ha'. simpl. unfold get_delay_compensated_time_point.
  destruct (decide (c' = c)) as [->|Hne]; [rewrite list_lookup_insert_eq in Ha' by (by eapply lookup_lt_Some); simplify_eq; lia|].
  rewrite list_lookup_insert_ne in Ha' by done. pose proof (Forall_lookup_1 _ _ _ _ A3 Ha') as Hle'. simpl in Hle'. lia.
Qed.
Lemma accounted_exit n t now now' (c : nat) open s acc : t ≤ now → now ≤ now' → open !! c = Some true → accounted n t open s acc →
  ∃ acc', accounted (n + (if now <=? m_channel_write_start s then 1 else 0)) now' (<[c := false]> open) (channel_write_end T now now' s) acc'.
Proof.
  intros Ht Hn Hc Ha. pose proof Ha as [A1 A2 A3 A4 A5]. destruct (lookup_lt_is_Some_2 acc c) as [a Hac]; [rewrite A2; by eapply lookup_lt_Some|].
  pose proof (Forall_lookup_1 _ _ _ _ A3 Hac) as Hle. simpl in Hle. pose proof (A5 c a Hc Hac) as Hst.
  exists (<[c := now]> acc). eapply accounted_move; [done|done|done|lia|done| |].
  - simpl. unfold elapsed_since. destruct (Z.ltb_spec (m_channel_write_start s) now) as [Hl|Hl].
    + rewrite (proj2 (Z.leb_gt _ _)) by lia. pose proof (u64_le (m_total_ch_write_elapsed_ns s + (now - m_channel_write_start s))). lia.
    + rewrite (proj2 (Z.leb_le _ _)) by lia. pose proof (u64_le (m_total_ch_write_elapsed_ns s + s_minimum_resolution T)). lia.
  - intros c' a' Hc' Ha'. destruct (decide (c' = c)) as [->|Hne]; [rewrite list_lookup_insert_eq in Hc' by (by eapply lookup_lt_Some); done|].
    rewrite list_lookup_insert_ne in Hc' by done. rewrite list_lookup_insert_ne in Ha' by done. by apply (A5 c').
Qed.
Lemma accounted_run ws n t open s acc : timed t open ws → accounted n t open s acc →
  ∃ open' acc', length acc' = length acc ∧
    accounted (n + short_writes T (m_channel_write_start s) ws) (last_reading t ws) open' (foldl (watch T) s ws.*2) acc'.
Proof.
  revert n t open s acc. induction ws as [|[c w] ws IH]; intros n t open s acc Ht Ha; [exists open, acc; by rewrite Z.add_0_r|].
  assert (∀ n1 t1 open1 s1 acc1, timed t1 open1 ws → accounted n1 t1 open1 s1 acc1 → length acc1 = length acc →
    s1 = watch T s w → t1 = last_reading t [(c, w)] → n1 + short_writes T (m_channel_write_start s1) ws = n + short_writes T (m_channel_write_start s) ((c, w) :: ws) →
    ∃ open' acc', length acc' = length acc ∧
      accounted (n + short_writes T (m_channel_write_start s) ((c, w) :: ws)) (last_reading t ((c, w) :: ws)) open' (foldl (watch T) s ((c, w) :: ws).*2) acc') as Hgo.
  { intros n1 t1 open1 s1 acc1 Ht1 Ha1 Hl1 -> -> <-. destruct (IH _ _ _ _ _ Ht1 Ha1) as (o & a & Hl & H). exists o, a. split; [lia|exact H]. }
  pose proof Ha as [Htr Hlen _ _ _].
  destruct w as [[] now|[] now now']; simpl in Ht.
  - destruct Ht as (H1 & H2 & H3). destruct (accounted_entry n t now c open s acc H1 H2 Ha) as [acc1 Ha1].
    eapply Hgo; [exact H3|exact Ha1|rewrite (a_length _ _ _ _ _ Ha1), length_insert; done|simpl; by rewrite Htr|done|done].
  - destruct Ht as (H1 & H2). eapply (Hgo n now open _ acc); [exact H2| |done|done|done|simpl; by rewrite Htr].
    simpl. rewrite Htr. by eapply accounted_same; [..|exact Ha].
  - destruct Ht as (H1 & H2). eapply (Hgo n now open _ acc); [exact H2| |done|done|done|simpl; by destruct (trace_op s)].
    simpl. destruct (trace_op s); by eapply accounted_same; [..|exact Ha].
  - destruct Ht as (H1 & H2 & H3 & H4). destruct (accounted_exit n t now now' c open s acc H1 H2 H3 Ha) as [acc1 Ha1].
    eapply Hgo; [exact H4|exact Ha1|rewrite (a_length _ _ _ _ _ Ha1), length_insert; done|simpl; by rewrite Htr|done|simpl; lia].
  - destruct Ht as (H1 & H2 & H3). eapply (Hgo n now' open _ acc); [exact H3| |done|done|done|simpl; by rewrite Htr].
    simpl. rewrite Htr. apply (accounted_same n t now' open s _ acc); [lia|done|done|done|exact Ha].
  - destruct Ht as (H1 & H2 & H3). eapply (Hgo n now' open _ acc); [exact H3| |done|done|done|simpl; by destruct (trace_op s)].
    simpl. destruct (trace_op s); (apply (accounted_same n t now' open s _ acc); [lia|done|done|done|exact Ha]).
Qed.
End times.

(** C38: the time an object reports for channel writes is bounded by the clock.  When [k]
    contexts of a node share the object, in any order of their handler calls in which each
    context ends a write before it begins the next one and the clock does not go back, the
    reported time is at most [k] times the time that has passed since the object was
    created, plus one least resolution for each write that was too short to measure.  With
    one context, writes do not count for more than the time that has passed; contexts
    whose writes overlap each count their share. *)
Theorem write_time_bounded T k t0 ws :
  0 ≤ s_mean_steady_clock_call_unit_delay T → 0 ≤ s_minimum_resolution T → timed t0 (replicate k false) ws →
  let s := foldl (watch T) (TraceStatistics_new t0 true true) ws.*2 in
  0 ≤ m_total_ch_write_elapsed_ns s ≤ Z.of_nat k * (last_reading t0 ws - t0) + s_minimum_resolution T * short_writes T t0 ws.
Proof.
  intros Hd Hm Ht s.
  destruct (accounted_run T t0 Hd Hm ws 0 t0 _ (TraceStatistics_new t0 true true) (replicate k t0) Ht) as (o & acc & Hl & [_ _ A3 A4 _]).
  { split; simpl; [done|by rewrite !length_replicate|apply Forall_replicate; lia| |].
    - rewrite fmap_replicate. assert (sumZ (replicate k (t0 - t0)) = 0) as ->; [|lia]. unfold sumZ. clear. induction k; simpl in *; lia.
    - intros c a Hc _. apply lookup_replicate in Hc as [? _]. done. }
  unfold s. rewrite Z.add_0_l in A4.
  pose proof (sumZ_bound ((λ a, a - t0) <$> acc) (last_reading t0 ws - t0)) as Hb. rewrite length_fmap, Hl, length_replicate in Hb.
  specialize (Hb ltac:(apply Forall_fmap; exact A3)). simpl in A4. lia.
Qed.

(** The time reported for channel reads is not bounded in this way: the end of a read
    subtracts the start of the last write from the clock.  For a component that never
    writes, a sink, every read counts the whole time since the object was created. *)
Theorem sink_read_time_wrong T t0 rs : 0 ≤ s_mean_steady_clock_call_unit_delay T →
  Forall (λ r, r.1 + s_mean_steady_clock_call_unit_delay T < r.2) rs →
  m_total_ch_read_elapsed_ns (foldl (watch T) (TraceStatistics_new t0 true true) (rs ≫= λ r, [Entry channel_read r.1; Exit channel_read r.2 r.2])) =
  u64 (foldr (λ r a, (r.2 - t0) + a) 0 rs).
Proof.
  intros Hd Hrs. assert (∀ s, trace_ch s = true → m_channel_write_start s = t0 → in_u64 (m_total_ch_read_elapsed_ns s) →
    m_total_ch_read_elapsed_ns (foldl (watch T) s (rs ≫= λ r, [Entry channel_read r.1; Exit channel_read r.2 r.2])) =
    u64 (m_total_ch_read_elapsed_ns s + foldr (λ r a, (r.2 - t0) + a) 0 rs)) as H.
  { induction Hrs as [|[e x] rs Hr Hrs IH]; intros s Hc Hw Hu; [simpl; by rewrite Z.add_0_r, u64_small|].
    change ((e, x) :: rs) with ([(e, x)] ++ rs). rewrite bind_app, foldl_app.
    replace (foldl (watch T) s _) with (channel_read_end T x (channel_read_start T e s)) by (simpl; by rewrite Hc; simpl; rewrite Hc).
    rewrite IH; [|done|done|apply u64_range]. cbn [foldr channel_read_end m_total_ch_read_elapsed_ns channel_read_start m_channel_read_start m_channel_write_start app].
    unfold elapsed_since, get_delay_compensated_time_point. rewrite (proj2 (Z.ltb_lt _ _)) by exact Hr. rewrite Hw. unfold u64. rewrite Zplus_mod_idemp_l. f_equal. simpl. lia. }
  rewrite H; [done|done|done|]. simpl. unfold in_u64. lia.
Qed.

(** ** Aggregation *)
Section aggregation.
Context (snapshot : nat → object).
(** The entries of a multimap, grouped by component: its first object and the others. *)
Fixpoint group (m : list (string * nat)) : list (string * (nat * list nat)) :=
  match m with
  | [] => []
  | (c, i) :: m =>
      match group m with
      | (c', (j, js)) :: gs => if String.eqb c c' then (c, (i, j :: js)) :: gs else (c, (i, [])) :: (c', (j, js)) :: gs
      | [] => [(c, (i, []))]
      end
  end.
Definition ungroup (gs : list (string * (nat * list nat))) : list (string * nat) := gs ≫= λ g, (g.1,.) <$> (g.2.1 :: g.2.2).
Lemma ungroup_group m : ungroup (group m) = m.
Proof.
  induction m as [|[c i] m IH]; simpl; [done|]. destruct (group m) as [|[c' [j js]] gs]; simpl in *; [by rewrite <-IH|].
  destruct (String.eqb_spec c c') as [->|_]; unfold ungroup in *; simpl in *; (f_equal; exact IH).
Qed.
(** What a component reports: the sum over its objects. *)
Fixpoint add_siblings (current : object) (js : list nat) : res object :=
  match js with [] => Ret current | j :: js => o ← add_metrics current (snapshot j); add_siblings o js end.
Fixpoint sum_groups (gs : list (string * (nat * list nat))) : res (list (string * object)) :=
  match gs with
  | [] => Ret []
  | (c, (i, js)) :: gs => o ← add_siblings (snapshot i) js; rest ← sum_groups gs; Ret ((c, o) :: rest)
  end.
(** Neighbouring groups have different names, the first one is not [c]. *)
Fixpoint apart (c : string) (gs : list (string * (nat * list nat))) : Prop :=
  match gs with [] => True | (c', _) :: gs => c ≠ c' ∧ apart c' gs end.
Lemma group_tail_apart m c g gs : group m = (c, g) :: gs → apart c gs ∧ ∃ i m', m = (c, i) :: m'.
Proof.
  revert c g gs. induction m as [|[c0 i] m IH]; intros c g gs Hg; simpl in Hg; [done|].
  destruct (group m) as [|[c' [j js]] gs'] eqn:E; [simplify_eq; split; [done|by eexists _, _]|]. destruct (IH _ _ _ eq_refl) as [Ha _].
  destruct (String.eqb_spec c0 c') as [->|Hne]; simplify_eq; (split; [|by eexists _, _]); done.
Qed.
Lemma group_apart c m : match m with [] => True | (c', _) :: _ => c ≠ c' end → apart c (group m).
Proof.
  intros Hc. destruct (group m) as [|[c' g] gs] eqn:E; [done|]. destruct (group_tail_apart _ _ _ _ E) as (Ha & i & m' & ->). by split.
Qed.
Lemma loop_siblings js c o out m : aggregate_loop snapshot (((c,.) <$> js) ++ m) c (Some o) out =
  (o' ← add_siblings o js; aggregate_loop snapshot m c (Some o') out).
Proof.
  revert o. induction js as [|j js IH]; intros o; simpl; [done|]. rewrite String.eqb_refl. destruct (add_metrics o (snapshot j)); simpl; [apply IH|done..].
Qed.
Lemma loop_groups gs c current out : apart c gs →
  aggregate_loop snapshot (ungroup gs) c current out =
  (l ← sum_groups gs; Ret (out ++ (match current with Some o => [(c, o)] | None => [] end) ++ l)).
Proof.
  revert c current out. induction gs as [|[c' [i js]] gs IH]; intros c current out Ha.
  - simpl. by destruct current; rewrite ?app_nil_r.
  - destruct Ha as [Hne Ha]. change (ungroup ((c', (i, js)) :: gs)) with ((c', i) :: (((c',.) <$> js) ++ ungroup gs)). cbn [aggregate_loop].
    rewrite (proj2 (String.eqb_neq _ _)) by done. rewrite loop_siblings. simpl. destruct (add_siblings (snapshot i) js) as [o| | |]; simpl; [|done..].
    rewrite IH by done. destruct (sum_groups gs); simpl; [|done..]. destruct current; simpl; rewrite <-?app_assoc; done.
Qed.
End aggregation.

Definition str_le (a b : string) : Prop := ¬ str_lt b a.
Lemma str_le_lt a b : str_le a b → a ≠ b → str_lt a b.
Proof.
  unfold str_le, str_lt. intros H Hne. destruct (String.compare a b) eqn:E; [by apply String.compare_eq_iff in E|done|].
  destruct H. by apply str_compare_gt.
Qed.
Lemma str_lt_le a b : str_lt a b → str_le a b.
Proof. intros H H'. by apply (str_lt_irrefl a), (str_lt_trans _ b). Qed.
Lemma str_lt_le_trans a b c : str_lt a b → str_le b c → str_le a c.
Proof. intros H1 H2 H3. apply H2. by eapply str_lt_trans. Qed.
Definition ascending (m : list (string * nat)) : Prop := StronglySorted (λ a b, str_le a.1 b.1) m.
Lemma multimap_insert_ascending k x m : ascending m → ascending (multimap_insert k x m).
Proof.
  unfold ascending. induction m as [|[k' y] m IH]; intros Hm; simpl; [repeat constructor|]. apply StronglySorted_inv in Hm as [Hs Hf]. unfold String.ltb.
  destruct (String.compare k k') eqn:E.
  - constructor; [by apply IH|]. apply Forall_forall. intros z Hz. rewrite multimap_insert_perm in Hz. apply elem_of_cons in Hz as [->|Hz]; [|by eapply Forall_forall in Hf].
    apply String.compare_eq_iff in E as ->. apply str_lt_irrefl.
  - constructor; [by constructor|]. constructor; [by apply str_lt_le|]. eapply Forall_impl; [exact Hf|]. intros z. by apply str_lt_le_trans.
  - constructor; [by apply IH|]. apply Forall_forall. intros z Hz. rewrite multimap_insert_perm in Hz. apply elem_of_cons in Hz as [->|Hz]; [|by eapply Forall_forall in Hf].
    simpl. by apply str_lt_le, str_compare_gt.
Qed.
Lemma calls_ascending cs r : ascending (TraceObjectMultimap r) → ascending (TraceObjectMultimap (calls cs r)).
Proof.
  revert r. induction cs as [|[[t n] s] cs IH]; intros r Hr; simpl; [done|]. apply IH. unfold get_or_create.
  destruct (TraceObjectMap r !! (t, n)); simpl; [done|by apply multimap_insert_ascending].
Qed.
Lemma group_ascending m : ascending m → StronglySorted str_lt (group m).*1.
Proof.
  unfold ascending. induction m as [|[c i] m IH]; intros Hm; simpl; [constructor|]. apply StronglySorted_inv in Hm as [Hs Hf]. specialize (IH Hs).
  destruct (group m) as [|[c' [j js]] gs] eqn:E; [repeat constructor|]. simpl in IH. destruct (String.eqb_spec c c') as [->|Hne]; [done|].
  destruct (group_tail_apart _ _ _ _ E) as (_ & i' & m' & ->). simpl. constructor; [done|]. apply Forall_cons in Hf as [Hle _]. assert (str_lt c c') as Hlt by (by apply str_le_lt).
  apply StronglySorted_inv in IH as [_ IH]. constructor; [done|]. eapply Forall_impl; [exact IH|]. intros z. by apply str_lt_trans.
Qed.

(** ** What a component reports, independently of the loop *)

(** The time an object has been there for, when the clock shows [x.1]. *)
Definition elapsed_ns (x : Z * TraceStatistics) : Z := u64 (x.1 - m_start_time x.2).
Definition totals : list (string * (TraceStatistics → Z)) :=
  [("component_emissions_total", m_emission_count); ("component_receive_total", m_receive_count);
   ("component_channel_read_total", m_channel_sink_reads); ("component_channel_write_total", m_channel_source_writes)]%string.
Definition times : list (string * (TraceStatistics → Z)) :=
  [("component_operator_proc_seconds", m_total_internal_elapsed_ns); ("component_channel_reads_seconds", m_total_ch_read_elapsed_ns);
   ("component_channel_write_seconds", m_total_ch_write_elapsed_ns);
   ("component_operator_proc_latency_seconds", λ s, average (m_total_internal_elapsed_ns s) (m_emission_count s));
   ("component_channel_read_latency_seconds", λ s, average (m_total_ch_read_elapsed_ns s) (m_channel_sink_reads s));
   ("component_channel_write_latency_seconds", λ s, average (m_total_ch_write_elapsed_ns s) (m_channel_source_writes s))]%string.
Definition rates : list (string * (TraceStatistics → Z)) :=
  [("component_emission_rate_seconds", m_emission_count); ("component_received_rate_seconds", m_receive_count)]%string.
Definition sumQ (l : list Q) : Q := foldr Qplus 0%Q l.
(** [o] reports the objects [l]: counters are added modulo 2^64, times and latencies are
    added as rationals, rates too unless one of them is a division by zero; the elapsed
    time of a single object is its time in seconds, that of several objects the sum of
    their times, each cut down to whole seconds. *)
Record reports (l : list (Z * TraceStatistics)) (o : object) : Prop := {
  r_totals : Forall (λ kf, smap_find kf.1 o = Some (UI (u64 (sumZ ((λ x, kf.2 x.2) <$> l))))) totals;
  r_times : Forall (λ kf, ∃ q, smap_find kf.1 o = Some (D q) ∧ (q == seconds (sumZ ((λ x, kf.2 x.2) <$> l)))%Q) times;
  r_rates : Forall (λ kf, if forallb (λ x, negb (elapsed_ns x =? 0)) l
    then ∃ q, smap_find kf.1 o = Some (D q) ∧ (q == sumQ ((λ x, inject_Z (kf.2 x.2) / seconds (elapsed_ns x)) <$> l))%Q
    else smap_find kf.1 o = Some NotFinite) rates;
  r_elapsed : smap_find "component_elapsed_total_seconds" o =
    Some (match l with [x] => D (seconds (elapsed_ns x)) | _ => UI (u64 (sumZ ((λ x, elapsed_ns x / 1000000000) <$> l))) end);
}.
Definition counted (s : TraceStatistics) : Prop :=
  in_u64 (m_emission_count s) ∧ in_u64 (m_receive_count s) ∧ in_u64 (m_channel_sink_reads s) ∧ in_u64 (m_channel_source_writes s).

Lemma sumZ_snoc {A} (f : A → Z) l x : sumZ (f <$> l ++ [x]) = sumZ (f <$> l) + f x.
Proof. rewrite fmap_app. unfold sumZ. induction (f <$> l) as [|y l' IH]; simpl in *; lia. Qed.
Lemma sumQ_snoc {A} (f : A → Q) l x : (sumQ (f <$> l ++ [x]) == sumQ (f <$> l) + f x)%Q.
Proof. rewrite fmap_app. unfold sumQ. induction (f <$> l) as [|y l' IH]; simpl in *; [ring|]. rewrite IH. ring. Qed.
Lemma seconds_add a b : (seconds (a + b) == seconds a + seconds b)%Q.
Proof. unfold seconds. rewrite inject_Z_plus. ring. Qed.
Lemma u64_add a b : u64 (u64 a + b) = u64 (a + b).
Proof. unfold u64. by rewrite Zplus_mod_idemp_l. Qed.
Lemma get_ui_seconds x : get_ui (Some (D (seconds (elapsed_ns x)))) = Ret (elapsed_ns x / 1000000000).
Proof.
  pose proof (u64_range (x.1 - m_start_time x.2)) as Hr. fold (elapsed_ns x) in Hr. unfold in_u64 in Hr. simpl. f_equal.
  rewrite Z.mul_1_r, Z.quot_div_nonneg by lia. apply u64_small. split; [apply Z.div_pos; lia|]. apply Z.div_lt_upper_bound; lia.
Qed.
Lemma reports_one x : counted x.2 → reports [x] (to_json x.1 x.2).
Proof.
  intros (C1 & C2 & C3 & C4). split.
  - repeat constructor; simpl; rewrite Z.add_0_r, u64_small by done; reflexivity.
  - repeat constructor; (eexists; split; [reflexivity|]); simpl; rewrite Z.add_0_r; reflexivity.
  - assert (∀ k n, smap_find k (to_json x.1 x.2) = Some (rate n (elapsed_ns x)) →
      if forallb (λ x, negb (elapsed_ns x =? 0)) [x]
      then ∃ q, smap_find k (to_json x.1 x.2) = Some (D q) ∧ (q == inject_Z n / seconds (elapsed_ns x) + 0)%Q
      else smap_find k (to_json x.1 x.2) = Some NotFinite) as Hrate.
    { intros k n ->. unfold rate. simpl. destruct (elapsed_ns x =? 0); simpl; [done|]. eexists. split; [done|]. ring. }
    repeat constructor; apply Hrate; reflexivity.
  - reflexivity.
Qed.
Lemma add_total cur k n v : smap_find k data_types = Some "ui"%string → smap_find k cur = Some (UI n) →
  add_metric cur (k, UI v) = Ret (k, UI (u64 (n + v))).
Proof. intros Hk Hc. unfold add_metric. by rewrite Hk, Hc. Qed.
Lemma add_time cur k q v : smap_find k data_types = Some "d"%string → smap_find k cur = Some (D q) →
  add_metric cur (k, D v) = Ret (k, D (q + v)).
Proof. intros Hk Hc. unfold add_metric. by rewrite Hk, Hc. Qed.
Lemma add_rate cur k v w : smap_find k data_types = Some "d"%string → smap_find k cur = Some v → (∀ z, v ≠ UI z) → (∀ z, w ≠ UI z) →
  add_metric cur (k, w) = Ret (k, add_d v w).
Proof. intros Hk Hc Hv Hw. unfold add_metric. rewrite Hk, Hc. destruct v, w; naive_solver. Qed.
Lemma add_elapsed cur k v n q m : smap_find k data_types = Some "ui"%string → smap_find k cur = Some v → get_ui (Some v) = Ret n →
  get_ui (Some (D q)) = Ret m → add_metric cur (k, D q) = Ret (k, UI (u64 (n + m))).
Proof. intros Hk Hc Hn Hm. unfold add_metric. rewrite Hk, Hc, Hn. cbn [mbind res_bind]. by rewrite Hm. Qed.
Lemma rate_finite n e z : rate n e ≠ UI z.
Proof. unfold rate. by destruct (e =? 0). Qed.

(** Adding the rates of one more object. *)
Lemma add_rates l k f cur x :
  (if forallb (λ x, negb (elapsed_ns x =? 0)) l
   then ∃ q, smap_find k cur = Some (D q) ∧ (q == sumQ ((λ x, inject_Z (f x.2) / seconds (elapsed_ns x)) <$> l))%Q
   else smap_find k cur = Some NotFinite) →
  ∃ v, smap_find k cur = Some v ∧ (∀ z, v ≠ UI z) ∧
   if forallb (λ x, negb (elapsed_ns x =? 0)) (l ++ [x])
   then ∃ q, add_d v (rate (f x.2) (elapsed_ns x)) = D q ∧ (q == sumQ ((λ x, inject_Z (f x.2) / seconds (elapsed_ns x)) <$> l ++ [x]))%Q
   else add_d v (rate (f x.2) (elapsed_ns x)) = NotFinite.
Proof.
  rewrite forallb_app. cbn [forallb]. rewrite andb_true_r. unfold rate. destruct (forallb _ l); cbn [andb].
  - intros (q & Hq & Hs). exists (D q). split; [done|]. split; [done|]. destruct (elapsed_ns x =? 0); cbn [negb]; [done|].
    eexists. split; [done|]. rewrite sumQ_snoc. by rewrite Hs.
  - intros Hq. exists NotFinite. split; [done|]. split; [done|]. by destruct (elapsed_ns x =? 0).
Qed.

Lemma found_rate (l : list (Z * TraceStatistics)) (P : Q → Prop) k o v : smap_find k o = Some v →
  (if forallb (λ x, negb (elapsed_ns x =? 0)) l then ∃ q, v = D q ∧ P q else v = NotFinite) →
  if forallb (λ x, negb (elapsed_ns x =? 0)) l then ∃ q, smap_find k o = Some (D q) ∧ P q else smap_find k o = Some NotFinite.
Proof. intros ->. destruct (forallb _ l); [intros (q & -> & ?); by exists q|by intros ->]. Qed.
(** The object of a further thread is added to what the component reports. *)
Lemma add_reports l cur x : l ≠ [] → reports l cur →
  ∃ o, add_metrics cur (to_json x.1 x.2) = Ret o ∧ reports (l ++ [x]) o.
Proof.
  intros Hl [R1 R2 R3 R4]. unfold totals in R1. unfold times in R2. unfold rates in R3.
  repeat match goal with H : Forall _ (_ :: _) |- _ => apply Forall_cons in H as [? H] | H : Forall _ [] |- _ => clear H end.
  cbn [fst snd] in *. repeat match goal with H : ∃ q, _ ∧ _ |- _ => destruct H as (? & ? & ?) end.
  repeat match goal with H : if forallb _ _ then _ else _ |- _ => apply (add_rates l _ _ cur x) in H as (? & ? & ? & ?) end.
  set (E := match l with [x] => _ | _ => _ end) in R4.
  assert (∃ n, get_ui (Some E) = Ret n ∧ u64 (n + elapsed_ns x / 1000000000) = u64 (sumZ ((λ x, elapsed_ns x / 1000000000) <$> l ++ [x]))) as (n & HE & Hn).
  { rewrite sumZ_snoc. destruct l as [|y [|z l]]; [done| |].
    - exists (elapsed_ns y / 1000000000). split; [apply get_ui_seconds|]. simpl. by rewrite Z.add_0_r.
    - eexists. split; [reflexivity|]. apply u64_add. }
  eexists. split.
  - unfold to_json. cbn [add_metrics].
    repeat (first
      [ erewrite add_elapsed by (first [apply (get_ui_seconds x)|eassumption|reflexivity])
      | erewrite add_total by (first [reflexivity|eassumption])
      | erewrite add_time by (first [reflexivity|eassumption])
      | erewrite add_rate by (first [reflexivity|eassumption|apply rate_finite]) ]; cbn [mbind res_bind]).
    reflexivity.
  - split.
    + repeat constructor; cbn [fst snd]; rewrite sumZ_snoc; cbn; f_equal; f_equal; by rewrite u64_add.
    + repeat constructor; cbn [fst snd]; eexists; (split; [reflexivity|]); rewrite sumZ_snoc, seconds_add; (etrans; [apply Qplus_comp; [eassumption|reflexivity]|reflexivity]).
    + repeat constructor; cbn [fst snd]; (eapply found_rate; [reflexivity|eassumption]).
    + transitivity (Some (UI (u64 (n + elapsed_ns x / 1000000000)))); [reflexivity|]. rewrite Hn. by destruct l as [|y [|z l]].
Qed.

(** ** The objects of a component *)
Definition objects_of (now : nat → Z) (c : string) (r : registry) : list (Z * TraceStatistics) :=
  omap (λ e, if String.eqb c e.1 then (now e.2,.) <$> stats r !! e.2 else None) (TraceObjectMultimap r).

Section components.
Context (now : nat → Z) (r : registry).
Notation snapshot := (λ i, match stats r !! i with Some s => to_json (now i) s | None => [] end).
Definition object_at (i : nat) : option (Z * TraceStatistics) := (now i,.) <$> stats r !! i.
Hypothesis stats_counted : Forall counted (stats r).

Lemma siblings_report js l cur : l ≠ [] → reports l cur → (∀ j, j ∈ js → (j < length (stats r))%nat) →
  ∃ o, add_siblings snapshot cur js = Ret o ∧ reports (l ++ omap object_at js) o.
Proof.
  revert l cur. induction js as [|j js IH]; intros l cur Hl Hr Hj; [exists cur; simpl; by rewrite app_nil_r|].
  destruct (lookup_lt_is_Some_2 (stats r) j) as [s Hs]; [apply Hj; by left|].
  destruct (add_reports l cur (now j, s) Hl Hr) as (o & Ho & Hro). cbn [fst snd] in Ho.
  destruct (IH (l ++ [(now j, s)]) o) as (o' & Ho' & Hro'); [by destruct l|done|intros; apply Hj; by right|].
  exists o'. cbn [add_siblings]. rewrite Hs, Ho. cbn [mbind res_bind]. split; [exact Ho'|].
  cbn [omap list_omap]. unfold object_at at 1. rewrite Hs. cbn [fmap option_fmap option_map]. by rewrite <-app_assoc in Hro'.
Qed.
Lemma groups_report gs : (∀ g, g ∈ gs → ∀ j, j ∈ g.2.1 :: g.2.2 → (j < length (stats r))%nat) →
  ∃ out, sum_groups snapshot gs = Ret out ∧ Forall2 (λ g o, g.1 = o.1 ∧ reports (omap object_at (g.2.1 :: g.2.2)) o.2) gs out.
Proof.
  induction gs as [|[c [i js]] gs IH]; intros Hg; [exists []; by split|].
  assert (∀ j, j ∈ i :: js → (j < length (stats r))%nat) as Hj by (apply (Hg (c, (i, js))); by left).
  destruct (lookup_lt_is_Some_2 (stats r) i) as [s Hs]; [apply Hj; by left|].
  destruct (siblings_report js [(now i, s)] (to_json (now i) s)) as (o & Ho & Hro);
    [done|apply (reports_one (now i, s)); by eapply Forall_lookup_1|intros; apply Hj; by right|].
  destruct IH as (out & Hout & Hall); [intros g Hin; apply Hg; by right|].
  exists ((c, o) :: out). cbn [sum_groups]. rewrite Hs, Ho. cbn [mbind res_bind]. rewrite Hout. split; [done|].
  constructor; [|done]. split; [done|]. cbn [fst snd omap list_omap]. unfold object_at at 1. by rewrite Hs.
Qed.
Lemma ungroup_select gs c i js : NoDup gs.*1 → (c, (i, js)) ∈ gs →
  omap (λ e : string * nat, if String.eqb c e.1 then object_at e.2 else None) (ungroup gs) = omap object_at (i :: js).
Proof.
  set (sel := λ e : string * nat, if String.eqb c e.1 then object_at e.2 else None).
  assert (∀ c' ks, c' ≠ c → omap sel ((c',.) <$> ks) = []) as Hother.
  { intros c' ks Hne. induction ks as [|k ks IH]; [done|]. cbn [fmap list_fmap omap list_omap]. unfold sel at 1. simpl. by rewrite (proj2 (String.eqb_neq c c')) by done. }
  assert (∀ ks : list nat, omap sel ((c,.) <$> ks) = omap object_at ks) as Hsame.
  { intros ks. induction ks as [|k ks IH]; [done|]. cbn [fmap list_fmap omap list_omap]. unfold sel at 1. simpl. rewrite String.eqb_refl. destruct (object_at k); by f_equal. }
  assert (∀ gs', c ∉ gs'.*1 → omap sel (ungroup gs') = []) as Hnone.
  { intros gs'. induction gs' as [|[c' [j ks]] gs' IH]; intros Hc; [done|]. rewrite fmap_cons, not_elem_of_cons in Hc. destruct Hc as [Hne Hc].
    change (ungroup ((c', (j, ks)) :: gs')) with (((c',.) <$> (j :: ks)) ++ ungroup gs'). rewrite omap_app, Hother, IH by (done || congruence). done. }
  induction gs as [|[c' [j ks]] gs IH]; intros Hnd Hin; [by apply elem_of_nil in Hin|]. apply NoDup_cons in Hnd as [Hni Hnd].
  change (ungroup ((c', (j, ks)) :: gs)) with (((c',.) <$> (j :: ks)) ++ ungroup gs). rewrite omap_app. apply elem_of_cons in Hin as [[= <- <- <-]|Hin].
  - rewrite Hsame, Hnone by done. by rewrite app_nil_r.
  - rewrite Hother, IH; [done|done|done|]. intros ->. apply Hni. apply list_elem_of_fmap. by exists (c, (i, js)).
Qed.
End components.

(** ** Histories of the registry *)
Inductive activity :=
| Create (thread : nat) (name : string) (start : Z)      (* get_or_create *)
| Watch (i : nat) (w : watched)                          (* an event of object [i] *)
| TraceOperators (flag sync_immediate env_operators env_channels : bool)
| TraceChannels (flag sync_immediate env_operators env_channels : bool)
| Reset (env_operators env_channels : bool) (now : nat → Z).
Definition act (T : TimeUtil) (r : registry) (a : activity) : registry :=
  match a with
  | Create thread name start => (get_or_create thread name start r).2
  | Watch i w => mkRegistry (alter (λ s, watch T s w) i (stats r)) (TraceObjectMap r) (TraceObjectMultimap r)
                   (s_trace_operators r) (s_trace_operators_set_manually r) (s_trace_channels r) (s_trace_channels_set_manually r)
  | TraceOperators flag sync eo ec => trace_operators flag sync eo ec r
  | TraceChannels flag sync eo ec => trace_channels flag sync eo ec r
  | Reset eo ec now => reset T eo ec now r
  end.
Definition creates (l : list activity) : list (nat * string * Z) :=
  omap (λ a, match a with Create thread name start => Some (thread, name, start) | _ => None end) l.

(** Only [get_or_create] changes which objects there are. *)
Record same_shape (r1 r2 : registry) : Prop := {
  s_size : length (stats r1) = length (stats r2);
  s_map : TraceObjectMap r1 = TraceObjectMap r2;
  s_multimap : TraceObjectMultimap r1 = TraceObjectMultimap r2;
}.
Lemma act_shape T r1 r2 a : same_shape r1 r2 →
  same_shape (act T r1 a) (match a with Create thread name start => (get_or_create thread name start r2).2 | _ => r2 end).
Proof.
  intros [S1 S2 S3]. destruct a as [t n st|i w|[] []|[] []|]; simpl.
  1: { unfold get_or_create. rewrite S2, S1, S3. destruct (TraceObjectMap r2 !! (t, n)); [by split|]. split; simpl; [rewrite !length_app; simpl; lia|done|done]. }
  all: split; simpl; rewrite ?length_alter, ?length_imap, ?length_fmap; done.
Qed.
Lemma acts_shape T l r1 r2 : same_shape r1 r2 → same_shape (foldl (act T) r1 l) (calls (creates l) r2).
Proof.
  revert r1 r2. induction l as [|a l IH]; intros r1 r2 Hs; [done|]. simpl. apply (act_shape T _ _ a) in Hs. destruct a; apply IH, Hs.
Qed.
Lemma counted_ext s s' : m_emission_count s' = m_emission_count s → m_receive_count s' = m_receive_count s →
  m_channel_sink_reads s' = m_channel_sink_reads s → m_channel_source_writes s' = m_channel_source_writes s → counted s → counted s'.
Proof. unfold counted. by intros -> -> -> ->. Qed.
Lemma watch_counted T s w : counted s → counted (watch T s w).
Proof.
  intros Hc. pose proof Hc as (C1 & C2 & C3 & C4). destruct w as [[] now|[] now now']; simpl;
    (destruct (trace_ch s), (trace_op s); try done); unfold counted; simpl; auto using u64_range.
Qed.
Lemma act_counted T r a : Forall counted (stats r) → Forall counted (stats (act T r a)).
Proof.
  intros Hr. assert (∀ o c, Forall counted (initialize_lookup_tables o c <$> stats r)) as Hi by (intros; by apply Forall_fmap).
  destruct a as [t n st|i w|f [] eo ec|f [] eo ec|eo ec now]; simpl; try done.
  - unfold get_or_create. destruct (TraceObjectMap r !! (t, n)); simpl; [done|]. apply Forall_app. split; [done|]. apply Forall_singleton. by repeat split.
  - apply Forall_alter; [done|]. intros s _. apply watch_counted.
  - apply Forall_lookup. intros i s Hs. rewrite list_lookup_imap in Hs. apply fmap_Some in Hs as (s0 & _ & ->). by repeat split.
Qed.
Lemma acts_counted T l r : Forall counted (stats r) → Forall counted (stats (foldl (act T) r l)).
Proof. revert r. induction l as [|a l IH]; intros r Hr; [done|]. simpl. by apply IH, act_counted. Qed.

Lemma callers_in cs k : k ∈ callers cs → ∃ x, x ∈ cs ∧ x.1 = k.
Proof.
  unfold callers. assert (∀ ks, k ∈ foldl (λ ks c, if bool_decide (c.1 ∈ ks) then ks else c.1 :: ks) ks cs → k ∈ ks ∨ ∃ x, x ∈ cs ∧ x.1 = k) as H.
  { induction cs as [|x cs IH]; intros ks Hk; simpl in *; [by left|]. apply IH in Hk as [Hk|(y & Hy & <-)]; [|right; exists y; split; [by right|done]].
    destruct (bool_decide (x.1 ∈ ks)); [by left|]. apply elem_of_cons in Hk as [->|Hk]; [right; exists x; split; [by left|done]|by left]. }
  intros Hk. apply H in Hk as [Hk|Hk]; [by apply elem_of_nil in Hk|done].
Qed.
Lemma group_elem m c i js j : (c, (i, js)) ∈ group m → j ∈ i :: js → (c, j) ∈ m.
Proof.
  intros Hg Hj. rewrite <-(ungroup_group m). unfold ungroup. apply list_elem_of_bind. exists (c, (i, js)). split; [|done].
  simpl. rewrite <-fmap_cons. apply list_elem_of_fmap. by exists j.
Qed.
Lemma group_names m c : c ∈ (group m).*1 ↔ c ∈ m.*1.
Proof.
  split.
  - intros ([c' [i js]] & -> & Hg)%list_elem_of_fmap. apply list_elem_of_fmap. exists (c', i). split; [done|]. eapply group_elem; [done|by left].
  - intros ([c' i] & -> & Hi)%list_elem_of_fmap. rewrite <-(ungroup_group m) in Hi. unfold ungroup in Hi. apply list_elem_of_bind in Hi as ([c0 [k ks]] & Hi & Hg).
    apply list_elem_of_fmap in Hi as (j & [= -> ->] & _). apply list_elem_of_fmap. by exists (c0, (k, ks)).
Qed.
Lemma countb_perm {A} (f : A → bool) l l' : l ≡ₚ l' → countb f l = countb f l'.
Proof. induction 1; simpl; lia. Qed.
Lemma Forall2_names {A B} (R : string * A → string * B → Prop) l l' : Forall2 (λ g o, g.1 = o.1 ∧ R g o) l l' → l'.*1 = l.*1.
Proof. induction 1 as [|g o l l' [Hg _] _ IH]; [done|]. rewrite !fmap_cons. by f_equal. Qed.
(** As many objects as threads asked for the name. *)
Lemma objects_count now c r ks : (TraceObjectMultimap r).*1 ≡ₚ ks → (∀ e, e ∈ TraceObjectMultimap r → (e.2 < length (stats r))%nat) →
  length (objects_of now c r) = countb (String.eqb c) ks.
Proof.
  intros Hp Hlt. rewrite <-(countb_perm (String.eqb c) _ _ Hp). clear Hp. unfold objects_of. induction (TraceObjectMultimap r) as [|[c' i] m IH]; [done|].
  cbn [omap list_omap fmap list_fmap countb fst snd]. assert (∀ e, e ∈ m → (e.2 < length (stats r))%nat) as Hm by (intros; apply Hlt; by right). specialize (IH Hm).
  destruct (String.eqb c c'); simpl; [|exact IH]. destruct (lookup_lt_is_Some_2 (stats r) i) as [s Hs]; [apply (Hlt (c', i)); by left|].
  rewrite Hs. simpl. f_equal. exact IH.
Qed.

(** C37: whatever threads create objects and trace with them, and however tracing is switched
    and reset in between, the aggregate has each component that was asked for exactly once,
    in the order of the names, and reports for it the sum over the objects of all threads
    that have asked for it, one per thread: every counter is the sum of the counters modulo
    2^64, every time and latency the sum of the times (doubles are taken as exact
    rationals), a rate the sum of the rates of the objects, not a number if one of them was
    not there for any time; the elapsed time is the time of the object in seconds if there
    is one, and the sum of the times in whole seconds if there are several.  The name of a
    component is not empty (aggregating an empty name throws). *)
Theorem aggregate_sums T l env_operators env_channels now : (∀ c, c ∈ creates l → c.1.2 ≠ ""%string) →
  let r := foldl (act T) (registry_new env_operators env_channels) l in
  ∃ out, aggregate now r = Ret out ∧ StronglySorted str_lt out.*1 ∧
    (∀ c, c ∈ out.*1 ↔ c ∈ (callers (creates l)).*2) ∧
    ∀ c o, (c, o) ∈ out →
      length (objects_of now c r) = countb (String.eqb c) (callers (creates l)).*2 ∧ reports (objects_of now c r) o.
Proof.
  intros Hne. set (r0 := registry_new env_operators env_channels). intros r.
  destruct (acts_shape T l r0 r0) as [S1 S2 S3]; [by split|]. fold r in S1, S2, S3.
  destruct (registry_multiplicity (creates l) env_operators env_channels) as (Hn & _ & Ho). fold r0 in Hn, Ho. rewrite <-S3 in Hn, Ho. rewrite <-S1 in Ho.
  set (gs := group (TraceObjectMultimap r)) in *.
  assert (StronglySorted str_lt gs.*1) as Hsort by (apply group_ascending; rewrite S3; apply calls_ascending; constructor).
  assert (NoDup gs.*1) as Hnd.
  { clear -Hsort. induction Hsort as [|c cs Hs IH Hf]; constructor; [|done]. intros Hin. rewrite Forall_forall in Hf. by apply (str_lt_irrefl c), Hf. }
  assert (∀ e, e ∈ TraceObjectMultimap r → (e.2 < length (stats r))%nat) as Hlt.
  { intros e He. apply (list_elem_of_fmap_2 snd) in He. rewrite Ho in He. apply elem_of_seq in He. lia. }
  destruct (groups_report now r (acts_counted T l r0 ltac:(constructor)) gs) as (out & Hout & Hall).
  { intros [c [i js]] Hg j Hj. apply (Hlt (c, j)). by eapply group_elem. }
  assert (out.*1 = gs.*1) as Hnames by (exact (Forall2_names (λ g o, reports (omap (object_at now r) (g.2.1 :: g.2.2)) o.2) gs out Hall)).
  exists out. split_and!.
  - unfold aggregate. rewrite <-(ungroup_group (TraceObjectMultimap r)). fold gs. rewrite loop_groups, Hout; [done|].
    apply group_apart. destruct (TraceObjectMultimap r) as [|[c i] m]; [done|]. assert (c ∈ (callers (creates l)).*2) as Hc by (rewrite <-Hn; by left).
    apply list_elem_of_fmap in Hc as ([t n] & -> & Hc). apply callers_in in Hc as (x & Hx & Hx1). specialize (Hne x Hx). rewrite Hx1 in Hne. simpl in *. congruence.
  - by rewrite Hnames.
  - intros c. rewrite Hnames. unfold gs. rewrite group_names. by rewrite Hn.
  - intros c o Hin. split; [by apply objects_count|]. apply list_elem_of_lookup in Hin as [k Hk].
    destruct (Forall2_lookup_r _ _ _ _ _ Hall Hk) as ([c' [i js]] & Hg & Ec & Hr). cbn [fst snd] in Ec, Hr. subst c'.
    unfold objects_of. rewrite <-(ungroup_group (TraceObjectMultimap r)). fold gs.
    rewrite <-(ungroup_select now r gs c i js) in Hr; [exact Hr|done|by eapply list_elem_of_lookup_2].
Qed.

(** A component whose name is empty cannot be aggregated: the loop takes its first
    object for a sibling of a component that does not exist. *)
Theorem empty_name_throws now r i m s : TraceObjectMultimap r = (""%string, i) :: m → stats r !! i = Some s →
  aggregate now r = Throw "type_error".
Proof. intros Hm Hs. unfold aggregate. rewrite Hm. simpl. rewrite Hs. done. Qed.
(** The elapsed time is declared an integer although it is given in seconds as a double:
    over two threads that both ran for 1.5 seconds the aggregate has 2 seconds. *)
Theorem elapsed_truncated :
  let r := calls [(0%nat, "a"%string, 0); (1%nat, "a"%string, 0)] (registry_new true true) in
  match aggregate (λ _, 1500000000) r with Ret [(_, o)] => smap_find "component_elapsed_total_seconds" o = Some (UI 2) | _ => False end.
Proof. vm_compute. reflexivity. Qed.

(** ** Concrete runs *)
Definition two_contexts : schedule :=
  [(0%nat, Entry channel_write 1000); (1%nat, Entry channel_write 1100); (0%nat, Exit channel_write 5000 5000);
   (1%nat, Exit channel_write 6000 6000); (0%nat, Entry channel_read 6100); (0%nat, Exit channel_read 6200 6200);
   (0%nat, Entry channel_write 7000); (0%nat, Exit channel_write 7050 7060)].
Lemma write_time_bounded_witness :
  timed 0 [false; false] two_contexts ∧ short_writes default_time 0 two_contexts = 1 ∧
  m_total_ch_write_elapsed_ns (foldl (watch default_time) (TraceStatistics_new 0 true true) two_contexts.*2) = 8610 ∧
  0 ≤ m_total_ch_write_elapsed_ns (foldl (watch default_time) (TraceStatistics_new 0 true true) two_contexts.*2) ≤ 2 * (7060 - 0) + 10 * 1.
Proof.
  assert (timed 0 [false; false] two_contexts) as Ht by (unfold two_contexts; simpl; repeat split; lia).
  split; [exact Ht|]. split; [vm_compute; reflexivity|]. split; [vm_compute; reflexivity|].
  apply (write_time_bounded default_time 2 0 two_contexts); [done|done|exact Ht].
Defined.
(** Two reads of 400 ns each, an hour after the start. *)
Definition late_reads : list (Z * Z) := [(3600000000000, 3600000000500); (3600000001000, 3600000001500)].
Lemma sink_read_time_wrong_witness :
  m_total_ch_read_elapsed_ns (foldl (watch default_time) (TraceStatistics_new 0 true true) (late_reads ≫= λ r, [Entry channel_read r.1; Exit channel_read r.2 r.2])) = 7200000002000.
Proof.
  rewrite (sink_read_time_wrong default_time 0 late_reads); [vm_compute; reflexivity|done|]. repeat constructor.
Defined.
(** Two threads trace the component "b", one of them also "a". *)
Definition some_tracing : list activity :=
  [Create 0 "b" 0; Create 1 "a" 0; Create 1 "b" 0; Watch 0 (Exit channel_write 500 600); Create 0 "b" 5;
   Watch 2 (Exit channel_write 300 400); Watch 2 (Exit channel_write 900 950); Watch 1 (Entry sink_on_data 7)].
Lemma aggregate_sums_witness :
  let r := foldl (act default_time) (registry_new true true) some_tracing in
  ∃ out o, aggregate (λ _, 2000) r = Ret out ∧ out.*1 = ["a"; "b"]%string ∧ ("b"%string, o) ∈ out ∧
    smap_find "component_channel_write_total" o = Some (UI 3) ∧ length (objects_of (λ _, 2000) "b" r) = 2%nat.
Proof.
  intros r. destruct (aggregate_sums default_time some_tracing true true (λ _, 2000)) as (out & Hout & _ & Hnames & Hall).
  { intros c Hc. repeat (apply elem_of_cons in Hc as [->|Hc]; [done|]). by apply elem_of_nil in Hc. }
  assert ("b"%string ∈ out.*1) as Hb by (apply Hnames; vm_compute; repeat constructor).
  apply list_elem_of_fmap in Hb as ([c o] & Hc & Hb). simpl in Hc. subst c. exists out, o. destruct (Hall _ _ Hb) as [Hlen [Ht _ _ _]].
  split; [exact Hout|]. split; [vm_compute in Hout; injection Hout as <-; reflexivity|]. split; [exact Hb|].
  split; [|exact Hlen]. unfold totals in Ht. apply Forall_cons in Ht as [_ Ht]. apply Forall_cons in Ht as [_ Ht]. apply Forall_cons in Ht as [_ Ht].
  apply Forall_cons in Ht as [Ht _]. exact Ht.
Defined.
