(* ===== verification/Tracer.v ===== *)
(** * Tracers and the segment watcher

    Models [src/public/benchmarking/tracer.cpp] and
    [include/srf/benchmarking/tracer.hpp]: the tracers that travel through a segment
    and collect a matrix of latencies; and, of
    [include/srf/benchmarking/segment_watcher.hpp], the numbering of the nodes and the
    protocol between the thread that runs a trace and the source that emits the
    tracers.  Doubles are exact rationals. *)
From Stdlib Require Import QArith.
From S2P Require Import Prelude Trace.
#[local] Open Scope Z_scope.

(** ** Tracers *)
Record Tracer := mkTracer {
  m_max_nodes : nat;
  m_latencies : list Z;           (* of both tracers of an ensemble: they are updated alike *)
  m_received_by : list Z;
  m_emitted_by : list Z;
}.
Definition Tracer_new (max_nodes : nat) : Tracer :=
  mkTracer max_nodes (replicate (max_nodes * max_nodes) 0) (replicate max_nodes 0) (replicate max_nodes 0).
(** [v[i] += x]: beyond the end it is undefined. *)
Definition add_at (i : nat) (x : Z) (v : list Z) : res (list Z) :=
  match v !! i with Some y => Ret (<[i := u64 (y + x)]> v) | None => Undefined "index" end.
Definition offset (max_nodes emit_id recv_id : nat) : nat := (emit_id * max_nodes + recv_id)%nat.
Definition tracer_emit (emit_id : nat) (elapsed : Z) (t : Tracer) : res Tracer :=
  l ← add_at (offset (m_max_nodes t) emit_id emit_id) elapsed (m_latencies t);
  e ← add_at emit_id 1 (m_emitted_by t);
  Ret (mkTracer (m_max_nodes t) l (m_received_by t) e).
Definition tracer_receive (emit_id recv_id : nat) (elapsed : Z) (t : Tracer) : res Tracer :=
  l ← add_at (offset (m_max_nodes t) emit_id recv_id) elapsed (m_latencies t);
  r ← add_at recv_id 1 (m_received_by t);
  Ret (mkTracer (m_max_nodes t) l r (m_emitted_by t)).

(** ** The ensemble: time stamps and the last hops *)
Record TracerEnsemble := mkEnsemble {
  tracer : Tracer; m_emit_ts : Z; m_recv_ts : Z; m_emit_hop_id : nat; m_recv_hop_id : nat;
}.
Definition TracerEnsemble_new (max_nodes : nat) : TracerEnsemble := mkEnsemble (Tracer_new max_nodes) 0 0 0 0.
Section ensemble.
Context (T : TimeUtil).
Definition emit (nid : nat) (now now' : Z) (e : TracerEnsemble) : res TracerEnsemble :=
  t ← tracer_emit nid (elapsed_since T (m_recv_ts e) now (now - m_recv_ts e)) (tracer e);
  Ret (mkEnsemble t (get_delay_compensated_time_point T now') (m_recv_ts e) nid (m_recv_hop_id e)).
Definition receive (nid : nat) (now now' : Z) (e : TracerEnsemble) : res TracerEnsemble :=
  t ← tracer_receive (m_emit_hop_id e) nid (elapsed_since T (m_emit_ts e) now (now - m_emit_ts e)) (tracer e);
  Ret (mkEnsemble t (m_emit_ts e) (get_delay_compensated_time_point T now') (m_emit_hop_id e) nid).
Definition recv_hop_id (nid : nat) (e : TracerEnsemble) : res TracerEnsemble :=
  check (nid <=? m_max_nodes (tracer e))%nat "nid <= m_max_nodes" ;;
  Ret (mkEnsemble (tracer e) (m_emit_ts e) (m_recv_ts e) (m_emit_hop_id e) nid).
Definition reset_stamps (now : Z) (e : TracerEnsemble) : TracerEnsemble :=
  let t := get_delay_compensated_time_point T now in mkEnsemble (tracer e) t t (m_emit_hop_id e) (m_recv_hop_id e).
Inductive hop := Emit (nid : nat) (now now' : Z) | Receive (nid : nat) (now now' : Z).
Definition do_hop (e : TracerEnsemble) (h : hop) : res TracerEnsemble :=
  match h with Emit n t t' => emit n t t' e | Receive n t t' => receive n t t' e end.
Fixpoint travel (e : TracerEnsemble) (hs : list hop) : res TracerEnsemble :=
  match hs with [] => Ret e | h :: hs => e' ← do_hop e h; travel e' hs end.
End ensemble.

(** ** Aggregation of the latencies *)
Definition add_tracer (node_count : nat) (acc : list Z) (t : Tracer) : res (list Z) :=
  check (m_max_nodes t =? node_count)%nat "tracer->max_nodes() == node_count" ;;
  Ret (zip_with Z.add acc (m_latencies t)).
Fixpoint sum_latencies (node_count : nat) (acc : list Z) (ts : list Tracer) : res (list Z) :=
  match ts with [] => Ret acc | t :: ts => acc' ← add_tracer node_count acc t; sum_latencies node_count acc' ts end.
Inductive component := Operator | ChannelComponent.
(** An entry for each pair of nodes with a positive mean. *)
Definition latency_entry (node_count tracers : nat) (latencies : list Z) (ij : nat * nat) : option (component * nat * nat * Q) :=
  let mean := (seconds (default 0%Z (latencies !! offset node_count ij.1 ij.2)) / inject_Z (Z.of_nat tracers))%Q in
  if (0 <? Qnum mean) then Some (if (ij.1 =? ij.2)%nat then Operator else ChannelComponent, ij.1, ij.2, mean) else None.
Definition pairs (n : nat) : list (nat * nat) := seq 0 n ≫= λ i, (i,.) <$> seq 0 n.
Definition aggregate_latencies (node_count : nat) (ts : list Tracer) : res (list (component * nat * nat * Q)) :=
  l ← sum_latencies node_count (replicate (node_count * node_count) 0) ts;
  Ret (omap (latency_entry node_count (length ts) l) (pairs node_count)).

(** ** The nodes of a segment *)
Record Nodes := mkNodes { m_nodeid : gmap string nat; m_id2name : gmap nat string; m_node_count : nat }.
Definition no_nodes : Nodes := mkNodes ∅ ∅ 0.
Definition get_or_create_node_entry (id : string) (n : Nodes) : nat * Nodes :=
  match m_nodeid n !! id with
  | Some i => (i, n)
  | None => (m_node_count n, mkNodes (<[id := m_node_count n]> (m_nodeid n)) (<[m_node_count n := id]> (m_id2name n)) (S (m_node_count n)))
  end.

(** ** Latency matrices *)
(** The elapsed time that hop [h] adds to the entry from [i] to [j]. *)
Definition hop_entry (e : TracerEnsemble) (h : hop) : nat * nat :=
  match h with Emit n _ _ => (n, n) | Receive n _ _ => (m_emit_hop_id e, n) end.
Definition hop_elapsed (T : TimeUtil) (e : TracerEnsemble) (h : hop) : Z :=
  match h with Emit _ now _ => elapsed_since T (m_recv_ts e) now (now - m_recv_ts e) | Receive _ now _ => elapsed_since T (m_emit_ts e) now (now - m_emit_ts e) end.
Definition hop_node (h : hop) : nat := match h with Emit n _ _ | Receive n _ _ => n end.
(** The hops with what each of them measures. *)
Fixpoint measured (T : TimeUtil) (e : TracerEnsemble) (hs : list hop) : list (nat * nat * Z) :=
  match hs with
  | [] => []
  | h :: hs => (hop_entry e h, hop_elapsed T e h) :: match do_hop T e h with Ret e' => measured T e' hs | _ => [] end
  end.
Definition total_between (ij : nat * nat) (ms : list (nat * nat * Z)) : Z := foldr (λ m a, (if bool_decide (m.1 = ij) then m.2 else 0) + a) 0 ms.
Record tracer_ok (n : nat) (e : TracerEnsemble) : Prop := {
  k_nodes : m_max_nodes (tracer e) = n;
  k_lat : length (m_latencies (tracer e)) = (n * n)%nat;
  k_recv : length (m_received_by (tracer e)) = n;
  k_emit : length (m_emitted_by (tracer e)) = n;
  k_hop : (m_emit_hop_id e < n)%nat;
  k_range x : x ∈ m_latencies (tracer e) → 0 ≤ x < 2 ^ 64;
}.
Lemma offset_lt n i j : (i < n → j < n → offset n i j < n * n)%nat.
Proof. unfold offset. intros Hi Hj. nia. Qed.
Lemma offset_inj n i j i' j' : (j < n → j' < n → offset n i j = offset n i' j' → i = i' ∧ j = j')%nat.
Proof. unfold offset. intros Hj Hj' H. assert (i = i') by nia. nia. Qed.
Lemma add_at_ok i x v : (i < length v)%nat → ∃ y, v !! i = Some y ∧ add_at i x v = Ret (<[i := u64 (y + x)]> v).
Proof. intros Hi. destruct (lookup_lt_is_Some_2 v i Hi) as [y Hy]. exists y. unfold add_at. by rewrite Hy. Qed.
Lemma hop_ok T n e h : tracer_ok n e → (hop_node h < n)%nat →
  ∃ e', do_hop T e h = Ret e' ∧ tracer_ok n e' ∧ ((hop_entry e h).1 < n ∧ (hop_entry e h).2 < n)%nat ∧
    ∃ y, m_latencies (tracer e) !! offset n (hop_entry e h).1 (hop_entry e h).2 = Some y ∧
      m_latencies (tracer e') = <[offset n (hop_entry e h).1 (hop_entry e h).2 := u64 (y + hop_elapsed T e h)]> (m_latencies (tracer e)).
Proof.
  intros [K1 K2 K3 K4 K5 K6] Hn. destruct h as [nid now now'|nid now now']; simpl in Hn.
  - destruct (add_at_ok (offset n nid nid) (elapsed_since T (m_recv_ts e) now (now - m_recv_ts e)) (m_latencies (tracer e))) as (y & Hy & Ha); [rewrite K2; by apply offset_lt|].
    destruct (add_at_ok nid 1 (m_emitted_by (tracer e))) as (z & Hz & Hb); [by rewrite K4|].
    eexists. simpl. unfold emit, tracer_emit. rewrite K1, Ha. simpl. rewrite Hb. simpl. split; [done|]. split; [|split; [done|by exists y]].
    split; simpl; rewrite ?length_insert; auto. intros x Hx. apply list_elem_of_lookup in Hx as [k Hk]. apply list_lookup_insert_Some in Hk as [(_ & <- & _)|[_ Hk]]; [unfold u64; apply Z.mod_pos_bound; lia|].
    apply K6. by eapply list_elem_of_lookup_2.
  - destruct (add_at_ok (offset n (m_emit_hop_id e) nid) (elapsed_since T (m_emit_ts e) now (now - m_emit_ts e)) (m_latencies (tracer e))) as (y & Hy & Ha); [rewrite K2; by apply offset_lt|].
    destruct (add_at_ok nid 1 (m_received_by (tracer e))) as (z & Hz & Hb); [by rewrite K3|].
    eexists. simpl. unfold receive, tracer_receive. rewrite K1, Ha. simpl. rewrite Hb. simpl. split; [done|]. split; [|split; [done|by exists y]].
    split; simpl; rewrite ?length_insert; auto. intros x Hx. apply list_elem_of_lookup in Hx as [k Hk]. apply list_lookup_insert_Some in Hk as [(_ & <- & _)|[_ Hk]]; [unfold u64; apply Z.mod_pos_bound; lia|].
    apply K6. by eapply list_elem_of_lookup_2.
Qed.
Lemma travel_ok T n hs e : tracer_ok n e → Forall (λ h, hop_node h < n)%nat hs →
  ∃ e', travel T e hs = Ret e' ∧ tracer_ok n e' ∧ ∀ i j x, (i < n)%nat → (j < n)%nat → m_latencies (tracer e) !! offset n i j = Some x →
    m_latencies (tracer e') !! offset n i j = Some (u64 (x + total_between (i, j) (measured T e hs))).
Proof.
  revert e. induction hs as [|h hs IH]; intros e He Hhs.
  - exists e. split; [done|]. split; [done|]. intros i j x _ _ Hx. simpl. rewrite Z.add_0_r, u64_small; [done|]. apply (k_range _ _ He). by eapply list_elem_of_lookup_2.
  - inversion_clear Hhs as [|? ? Hh Hhs']. destruct (hop_ok T n e h He Hh) as (e1 & Hd & He1 & [Hi1 Hj1] & y & Hy & Hl). destruct (IH e1 He1 Hhs') as (e2 & Ht & He2 & Hall).
    exists e2. cbn [travel measured]. rewrite Hd. cbn. split; [done|]. split; [done|]. intros i j x Hi Hj Hx. case_bool_decide as Hij.
    + rewrite Hij in Hy, Hl. simpl in Hy, Hl. assert (y = x) as -> by congruence. rewrite (Hall i j (u64 (x + hop_elapsed T e h)) Hi Hj).
      * f_equal. unfold u64. rewrite Zplus_mod_idemp_l. f_equal. unfold total_between. lia.
      * rewrite Hl. apply list_lookup_insert_eq. by eapply lookup_lt_Some.
    + rewrite Z.add_0_l. apply Hall; [done|done|]. rewrite Hl. rewrite list_lookup_insert_ne; [done|].
      intros Ho. apply offset_inj in Ho as [? ?]; [|done|done]. destruct (hop_entry e h); simpl in *. congruence.
Qed.

(** A tracer that visits only nodes of its segment stays within its arrays, and its
    matrix of latencies holds for each pair of nodes the time it measured between them,
    modulo 2^64: the time within a node on the diagonal, the time in the channel from one
    to the other elsewhere. *)
Theorem tracer_latencies T n hs : (0 < n)%nat → Forall (λ h, hop_node h < n)%nat hs →
  ∃ e, travel T (TracerEnsemble_new n) hs = Ret e ∧
    ∀ i j, (i < n)%nat → (j < n)%nat → m_latencies (tracer e) !! offset n i j = Some (u64 (total_between (i, j) (measured T (TracerEnsemble_new n) hs))).
Proof.
  intros Hn Hhs. destruct (travel_ok T n hs (TracerEnsemble_new n)) as (e & Ht & _ & Hall); [|done|].
  { split; simpl; rewrite ?length_replicate; auto. intros x Hx. apply elem_of_replicate in Hx as [-> _]. lia. }
  exists e. split; [done|]. intros i j Hi Hj. rewrite (Hall i j 0 Hi Hj); [by rewrite Z.add_0_l|]. simpl. apply lookup_replicate. split; [done|]. by apply offset_lt.
Qed.

(** ** Aggregates *)
Definition latency_at (k : nat) (t : Tracer) : Z := default 0 (m_latencies t !! k).
Lemma sum_latencies_ok n ts acc : length acc = (n * n)%nat → Forall (λ t, m_max_nodes t = n ∧ length (m_latencies t) = (n * n)%nat) ts →
  ∃ l, sum_latencies n acc ts = Ret l ∧ length l = (n * n)%nat ∧
    ∀ k x, acc !! k = Some x → l !! k = Some (x + foldr (λ t a, latency_at k t + a) 0 ts).
Proof.
  intros Hl Hts. revert acc Hl. induction Hts as [|t ts [Hm Ht] Hts IH]; intros acc Hl; simpl.
  - exists acc. split; [done|]. split; [done|]. intros k x Hk. by rewrite Z.add_0_r.
  - unfold add_tracer. rewrite Hm, Nat.eqb_refl. simpl. destruct (IH (zip_with Z.add acc (m_latencies t))) as (l & Hr & Hn & Hall); [rewrite length_zip_with; lia|].
    exists l. split; [done|]. split; [done|]. intros k x Hk. destruct (lookup_lt_is_Some_2 (m_latencies t) k) as [y Hy]; [apply lookup_lt_Some in Hk; lia|].
    rewrite (Hall k (x + y)); [|rewrite lookup_zip_with, Hk, Hy; done]. unfold latency_at at 2. rewrite Hy. simpl. f_equal. lia.
Qed.
Lemma elem_of_pairs n i j : (i, j) ∈ pairs n ↔ (i < n ∧ j < n)%nat.
Proof.
  unfold pairs. rewrite list_elem_of_bind. split.
  - intros (x & Hx & Hn). apply list_elem_of_fmap in Hx as (y & Hy & Hyn). simplify_eq. rewrite elem_of_seq in Hn, Hyn. lia.
  - intros [Hi Hj]. exists i. rewrite elem_of_seq, list_elem_of_fmap. split; [|lia]. exists j. rewrite elem_of_seq. split; [done|lia].
Qed.
(** The aggregate of the tracers of a segment is defined when all of them were made
    for its number of nodes, and lists exactly the pairs of nodes with a positive total
    latency, each with the mean over the tracers, as an operator on the diagonal and as a
    channel elsewhere. *)
Theorem aggregate_latencies_means n ts : Forall (λ t, m_max_nodes t = n ∧ length (m_latencies t) = (n * n)%nat) ts →
  ∃ l, aggregate_latencies n ts = Ret l ∧ ∀ c i j q, (c, i, j, q) ∈ l ↔
    (i < n ∧ j < n)%nat ∧ q = (seconds (foldr (λ t a, (latency_at (offset n i j) t + a)%Z) 0%Z ts) / inject_Z (Z.of_nat (length ts)))%Q ∧
    0 < Qnum q ∧ c = (if (i =? j)%nat then Operator else ChannelComponent).
Proof.
  intros Hts. destruct (sum_latencies_ok n ts (replicate (n * n) 0) (length_replicate _ _) Hts) as (l & Hr & Hl & Hall).
  unfold aggregate_latencies. rewrite Hr. eexists. split; [done|]. intros c i j q. rewrite list_elem_of_omap. unfold latency_entry.
  assert (∀ i j, (i < n ∧ j < n)%nat → default 0 (l !! offset n i j) = foldr (λ t a, latency_at (offset n i j) t + a) 0 ts) as Hd.
  { intros i' j' [Hi Hj]. rewrite (Hall (offset n i' j') 0); [by rewrite Z.add_0_l|]. apply lookup_replicate. split; [done|]. by apply offset_lt. }
  split.
  - intros ([i' j'] & Hij & He). apply elem_of_pairs in Hij. cbn [fst snd] in He. rewrite (Hd i' j' Hij) in He.
    destruct (Z.ltb_spec 0 (Qnum (seconds (foldr (λ t a, (latency_at (offset n i' j') t + a)%Z) 0%Z ts) / inject_Z (Z.of_nat (length ts)))%Q)) as [Hp|Hp]; simplify_eq. done.
  - intros (Hij & Hq & Hp & Hc). exists (i, j). split; [by apply elem_of_pairs|]. cbn [fst snd]. rewrite (Hd i j Hij), <-Hq. rewrite (proj2 (Z.ltb_lt _ _)) by done. by rewrite Hc.
Qed.

(** ** Node numbers *)
Record nodes_ok (n : Nodes) : Prop := {
  n_inv id i : m_nodeid n !! id = Some i ↔ m_id2name n !! i = Some id;
  n_dense i : is_Some (m_id2name n !! i) ↔ (i < m_node_count n)%nat;
}.
Definition register_all (ids : list string) (n : Nodes) : Nodes := foldl (λ n id, (get_or_create_node_entry id n).2) n ids.
Lemma entry_ok id n : nodes_ok n → nodes_ok (get_or_create_node_entry id n).2 ∧
  m_nodeid (get_or_create_node_entry id n).2 !! id = Some (get_or_create_node_entry id n).1 ∧
  (∀ id' i, m_nodeid n !! id' = Some i → m_nodeid (get_or_create_node_entry id n).2 !! id' = Some i).
Proof.
  intros [N1 N2]. unfold get_or_create_node_entry. destruct (m_nodeid n !! id) as [i|] eqn:E; simpl; [done|].
  assert (m_id2name n !! m_node_count n = None) as Hnew by (destruct (m_id2name n !! m_node_count n) eqn:E'; [|done]; assert (m_node_count n < m_node_count n)%nat by (apply N2; by rewrite E'); lia).
  split; [|split; [by rewrite lookup_insert_eq|intros id' i Hi; rewrite lookup_insert_ne; [done|congruence]]]. split; simpl.
  - intros id' i. destruct (decide (id' = id)) as [->|Hid], (decide (i = m_node_count n)) as [->|Hi].
    + by rewrite !lookup_insert_eq.
    + rewrite lookup_insert_eq, lookup_insert_ne by done. split; [congruence|]. intros H%N1. congruence.
    + rewrite lookup_insert_ne, lookup_insert_eq by done. split; [|congruence]. intros H%N1. congruence.
    + rewrite !lookup_insert_ne by done. apply N1.
  - intros i. destruct (decide (i = m_node_count n)) as [->|Hi]; [rewrite lookup_insert_eq; split; [lia|by eexists]|].
    rewrite lookup_insert_ne by done. rewrite N2. lia.
Qed.
(** The nodes of a segment are numbered without gaps and without repetition: names and
    numbers determine each other, every number is below the node count, and a name that
    was entered keeps its number. *)
Theorem node_numbers_ok ids : let n := register_all ids no_nodes in
  nodes_ok n ∧ (∀ id, id ∈ ids → ∃ i, m_nodeid n !! id = Some i ∧ (i < m_node_count n)%nat).
Proof.
  assert (∀ ids n, nodes_ok n → nodes_ok (register_all ids n) ∧ (∀ id, id ∈ ids → is_Some (m_nodeid (register_all ids n) !! id)) ∧
    (∀ id' i, m_nodeid n !! id' = Some i → m_nodeid (register_all ids n) !! id' = Some i)) as H.
  { clear ids. induction ids as [|id ids IH]; intros n Hn; simpl; [split; [done|]; split; [by intros ? ?%elem_of_nil|done]|].
    destruct (entry_ok id n Hn) as (H1 & H2 & H3). destruct (IH _ H1) as (I1 & I2 & I3). split; [done|]. split; [|auto].
    intros id' [->|Hid]%elem_of_cons; [|by apply I2]. eexists. by apply I3. }
  assert (nodes_ok no_nodes) as H0 by (split; simpl; intros; rewrite ?lookup_empty; [done|]; split; [by intros []|lia]).
  intros n. destruct (H ids no_nodes H0) as (H1 & H2 & _). split; [done|]. intros id Hid. destruct (H2 id Hid) as [i Hi]. exists i. split; [done|].
  apply (n_dense _ H1). exists id. by apply (n_inv _ H1).
Qed.

(** ** The protocol of a trace *)
(** Where the source is: at the head of its loop, waiting for a trace to start, emitting
    with [emitted] tracers sent, before its [notify_all], at the barrier, or gone. *)
Inductive source_pc := SLoop | SWaiting | SEmitting (emitted : nat) | SNotify | SBarrier | SExited.
(** The thread in [trace_until_notified]: before its [notify_all], before the wait, in the
    wait, in [stop_trace] before the barrier and at it, and after. *)
Inductive user_pc := UNotify | UBeforeWait | UWaiting | UStop | UBarrier | UReturned.
#[export] Instance user_pc_eq_dec : EqDecision user_pc.
Proof. solve_decision. Defined.
Record Watcher := mkWatcher {
  running : bool; tracing : bool; m_count : nat; m_count_max : nat; in_flight : nat;
  source : source_pc; user : user_pc;
}.
(** After [start_trace] has set the flags of an idle watcher. *)
Definition trace_started (max : nat) (s : source_pc) : Watcher := mkWatcher true true 0 max 0 s UNotify.
Definition set_source (s : source_pc) (w : Watcher) : Watcher := mkWatcher (running w) (tracing w) (m_count w) (m_count_max w) (in_flight w) s (user w).
Definition set_user (u : user_pc) (w : Watcher) : Watcher := mkWatcher (running w) (tracing w) (m_count w) (m_count_max w) (in_flight w) (source w) u.
(** [m_cond_wake.notify_all()]: whoever waits goes on; nothing is remembered. *)
Definition notify_all (w : Watcher) : Watcher :=
  let w := match source w with SWaiting => set_source (if running w then SEmitting 0 else SExited) w | _ => w end in
  match user w with UWaiting => set_user UStop w | _ => w end.
Inductive watcher_event := Source | Sink | User.
Definition source_step (w : Watcher) : option Watcher :=
  match source w with
  | SLoop => Some (set_source (if running w then (if tracing w then SEmitting 0 else SWaiting) else SExited) w)
  | SEmitting k =>
      if (m_count w <? m_count_max w)%nat then
        if (k <? m_count_max w)%nat
        then Some (mkWatcher (running w) (tracing w) (m_count w) (m_count_max w) (S (in_flight w)) (SEmitting (S k)) (user w))
        else None                                                   (* yields until the sink has counted them *)
      else Some (set_source SNotify w)
  | SNotify => Some (set_source SBarrier (notify_all w))
  | SBarrier => match user w with UBarrier => Some (set_source SLoop (set_user UReturned w)) | _ => None end
  | SWaiting | SExited => None
  end.
(** A tracer arrives at the sink. *)
Definition sink_step (w : Watcher) : option Watcher :=
  match in_flight w with
  | 0%nat => None
  | S n => Some (mkWatcher (running w) (tracing w) (S (m_count w)) (m_count_max w) n (source w) (user w))
  end.
Definition user_step (w : Watcher) : option Watcher :=
  match user w with
  | UNotify => Some (set_user UBeforeWait (notify_all w))
  | UBeforeWait => Some (set_user UWaiting w)
  | UStop => Some (set_user UBarrier (notify_all (mkWatcher (running w) false (m_count w) (m_count_max w) (in_flight w) (source w) (user w))))
  | UWaiting | UBarrier | UReturned => None
  end.
Definition watcher_step (w : Watcher) (e : watcher_event) : option Watcher :=
  match e with Source => source_step w | Sink => sink_step w | User => user_step w end.
Fixpoint watcher_run (w : Watcher) (es : list watcher_event) : option Watcher :=
  match es with [] => Some w | e :: es => watcher_step w e ≫= λ w', watcher_run w' es end.
Definition idle_source (s : source_pc) : Prop := s = SLoop ∨ s = SWaiting.

Record trace_ok (w : Watcher) : Prop := {
  w_running : running w = true ∧ source w ≠ SExited;
  w_notified : source w = SNotify ∨ source w = SBarrier → (m_count_max w ≤ m_count w)%nat;
  w_stop : user w = UStop ∨ user w = UBarrier → source w = SBarrier;
  w_returned : user w = UReturned → (m_count_max w ≤ m_count w)%nat;
  w_tracing : tracing w = false ↔ user w = UBarrier ∨ user w = UReturned;
  w_idle : idle_source (source w) → user w ≠ UReturned → m_count w = 0%nat ∧ in_flight w = 0%nat;
  w_waiting : source w = SWaiting → user w = UNotify ∨ user w = UReturned;
  w_flight k : source w = SEmitting k → (in_flight w + m_count w)%nat = k;
}.
Lemma trace_started_ok max s : idle_source s → trace_ok (trace_started max s).
Proof. intros Hs. split; simpl; try done; destruct Hs as [-> | ->]; try naive_solver. Qed.
Ltac watch_cases := split; simpl in *; unfold idle_source in *; try done; try naive_solver lia.
Lemma source_step_ok w w' : trace_ok w → source_step w = Some w' → trace_ok w'.
Proof.
  intros [W1 W2 W3 W4 W5 W6 W7 W8] Hs. destruct w as [run tr cnt mx fl src usr]. simpl in *. destruct W1 as [-> W0]. unfold source_step in Hs. simpl in Hs.
  destruct src as [| |k| | |]; simplify_eq/=.
  - destruct tr; simplify_eq/=; watch_cases.
  - destruct (Nat.ltb_spec cnt mx); [destruct (Nat.ltb_spec k mx)|]; simplify_eq/=; watch_cases.
  - unfold notify_all. simpl. destruct usr; watch_cases.
  - destruct usr; simplify_eq/=; watch_cases.
Qed.
Lemma sink_step_ok w w' : trace_ok w → sink_step w = Some w' → trace_ok w'.
Proof.
  intros [W1 W2 W3 W4 W5 W6 W7 W8] Hs. destruct w as [run tr cnt mx fl src usr]. unfold sink_step in Hs. simpl in *. destruct W1 as [-> W0].
  destruct fl as [|fl]; simplify_eq/=. split; simpl in *; unfold idle_source in *; try done; try (intros H; specialize (W2 H); lia); try (intros H; specialize (W4 H); lia).
  - intros H1 H2. destruct (W6 H1 H2). lia.
  - intros k H. specialize (W8 k H). lia.
Qed.
Lemma user_step_ok w w' : trace_ok w → user_step w = Some w' → trace_ok w'.
Proof.
  intros [W1 W2 W3 W4 W5 W6 W7 W8] Hs. destruct w as [run tr cnt mx fl src usr]. unfold user_step in Hs. simpl in *. destruct W1 as [-> W0].
  destruct usr; simplify_eq/=; unfold notify_all; simpl; destruct src; watch_cases.
Qed.
Lemma watcher_run_ok es w w' : trace_ok w → watcher_run w es = Some w' → trace_ok w'.
Proof.
  revert w. induction es as [|e es IH]; intros w Hw Hr; simpl in Hr; [by simplify_eq|]. apply bind_Some in Hr as (w1 & H1 & Hr). apply (IH w1); [|done].
  destruct e; [by eapply source_step_ok|by eapply sink_step_ok|by eapply user_step_ok].
Qed.

(** A trace that completes has collected the requested number of tracers; and the only
    way in which a trace can get stuck before that is that the source has finished and
    notified nobody, because the thread that runs the trace was not waiting yet: it then
    waits for a notification that has been given, and the source for it at the barrier. *)
Theorem trace_completes_or_misses max s es w : idle_source s → watcher_run (trace_started max s) es = Some w →
  (user w = UReturned → (max ≤ m_count w)%nat) ∧
  ((∀ e, watcher_step w e = None) → user w = UReturned ∨ (user w = UWaiting ∧ source w = SBarrier)).
Proof.
  intros Hs Hr. assert (trace_ok w) as [W1 W2 W3 W4 W5 W6 W7 W8] by (eapply watcher_run_ok; [by apply (trace_started_ok max s)|done]).
  assert (m_count_max w = max) as Hmax.
  { clear -Hr. remember (trace_started max s) as w0. assert (m_count_max w0 = max) as H0 by (by subst). clear Heqw0. revert w0 Hr H0.
    induction es as [|e es IH]; intros w0 Hr H0; simpl in Hr; [by simplify_eq|]. apply bind_Some in Hr as (w1 & H1 & Hr). apply (IH w1 Hr). rewrite <-H0.
    destruct w0 as [a b c d f src usr]. destruct e; unfold watcher_step, source_step, sink_step, user_step, notify_all in H1; simpl in H1; repeat case_match; by simplify_eq/=. }
  split; [rewrite <-Hmax; exact W4|]. intros Hd. pose proof (Hd Source) as D1. pose proof (Hd Sink) as D2. pose proof (Hd User) as D3. clear Hd Hr Hmax.
  destruct w as [run tr cnt mx fl src usr]. unfold watcher_step, source_step, sink_step, user_step in *. simpl in *. destruct W1 as [-> W0].
  destruct src as [| |k| | |]; [done| | |done| |done].
  - destruct (W7 eq_refl) as [-> | ->]; [done|by left].
  - specialize (W8 k eq_refl). destruct (Nat.ltb_spec cnt mx); [|done]. destruct (Nat.ltb_spec k mx); [done|]. destruct fl; [lia|done].
  - destruct usr; try done; [by right|by left].
Qed.
Lemma emit_all max k c : (c < max)%nat → (c + k ≤ max)%nat → ∀ f, watcher_run (mkWatcher true true 0 max f (SEmitting c) UBeforeWait) (replicate k Source) =
  Some (mkWatcher true true 0 max (f + k) (SEmitting (c + k)) UBeforeWait).
Proof.
  revert c. induction k as [|k IH]; intros c Hc Hk f; simpl; [by rewrite !Nat.add_0_r|]. unfold source_step. simpl.
  rewrite (proj2 (Nat.ltb_lt 0 max)), (proj2 (Nat.ltb_lt c max)) by lia. simpl. destruct k as [|k]; [simpl; by rewrite !Nat.add_1_r|].
  rewrite IH by lia. by rewrite !(Nat.add_succ_r _ (S k)), !Nat.add_succ_l.
Qed.
Lemma sink_all max k c n s u : watcher_run (mkWatcher true true c max k s u) (replicate n Sink) = Some (mkWatcher true true (c + n) max (k - n) s u) ∨ (k < n)%nat.
Proof.
  revert c k. induction n as [|n IH]; intros c k; simpl; [left; by rewrite Nat.add_0_r, Nat.sub_0_r|]. destruct k as [|k]; [right; lia|]. simpl.
  destruct (IH (S c) k) as [-> | H]; [left|right; lia]. by rewrite Nat.add_succ_r.
Qed.
Lemma watcher_run_app w es1 es2 : watcher_run w (es1 ++ es2) = watcher_run w es1 ≫= λ w', watcher_run w' es2.
Proof. revert w. induction es1 as [|e es1 IH]; intros w; simpl; [done|]. destruct (watcher_step w e); simpl; auto. Qed.
(** Every trace can get stuck in this way, whatever the number of tracers: when the
    source collects all of them before the thread that started the trace waits, neither
    goes on. *)
Theorem trace_can_deadlock max : (0 < max)%nat → ∃ es w, watcher_run (trace_started max SLoop) es = Some w ∧
  user w = UWaiting ∧ source w = SBarrier ∧ m_count w = max ∧ ∀ e, watcher_step w e = None.
Proof.
  intros Hm. exists ([User; Source] ++ replicate max Source ++ replicate max Sink ++ [Source; Source; User]), (mkWatcher true true max max 0 SBarrier UWaiting).
  split; [|split; [done|split; [done|split; [done|by intros []]]]]. rewrite watcher_run_app. simpl. rewrite watcher_run_app.
  change (set_source _ _) with (mkWatcher true true 0 max 0 (SEmitting 0) UBeforeWait). rewrite (emit_all max max 0) by lia. simpl.
  rewrite watcher_run_app. destruct (sink_all max max 0 max (SEmitting max) UBeforeWait) as [-> | H]; [|lia]. cbn [mbind option_bind]. rewrite Nat.sub_diag, Nat.add_0_l.
  assert (source_step (mkWatcher true true max max 0 (SEmitting max) UBeforeWait) = Some (mkWatcher true true max max 0 SNotify UBeforeWait)) as Hs
    by (unfold source_step; simpl; by rewrite (proj2 (Nat.ltb_ge _ _)) by lia).
  cbn [watcher_run watcher_step]. rewrite Hs. done.
Qed.

(** ** Concrete runs *)
Definition there_and_back : list hop := [Emit 0 1000 1000; Receive 1 5000 5000; Emit 1 9000 9000; Receive 0 9500 9500].
Lemma tracer_latencies_witness :
  Forall (λ h, hop_node h < 2)%nat there_and_back ∧
  ∃ e, travel default_time (TracerEnsemble_new 2) there_and_back = Ret e ∧
    ∀ i j, (i < 2)%nat → (j < 2)%nat → m_latencies (tracer e) !! offset 2 i j = Some (u64 (total_between (i, j) (measured default_time (TracerEnsemble_new 2) there_and_back))).
Proof.
  assert (Forall (λ h, hop_node h < 2)%nat there_and_back) as Hh by (repeat constructor; simpl; lia).
  split; [exact Hh|]. apply (tracer_latencies default_time 2 there_and_back); [lia|exact Hh].
Defined.
Lemma aggregate_latencies_means_witness :
  let ts := [mkTracer 2 [0; 7; 0; 5] [0; 1] [0; 1]; mkTracer 2 [0; 9; 0; 0] [0; 1] [0; 0]] in
  ∃ l, aggregate_latencies 2 ts = Ret l ∧ ∀ c i j q, (c, i, j, q) ∈ l ↔
    (i < 2 ∧ j < 2)%nat ∧ q = (seconds (foldr (λ t a, (latency_at (offset 2 i j) t + a)%Z) 0%Z ts) / inject_Z (Z.of_nat (length ts)))%Q ∧
    0 < Qnum q ∧ c = (if (i =? j)%nat then Operator else ChannelComponent).
Proof. cbv zeta. apply (aggregate_latencies_means 2 [mkTracer 2 [0; 7; 0; 5] [0; 1] [0; 1]; mkTracer 2 [0; 9; 0; 0] [0; 1] [0; 0]]). repeat constructor. Defined.
Lemma trace_completes_or_misses_witness :
  let es := [Source; User; User; Source; Sink; Source; Source; User; Source] in
  ∃ w, watcher_run (trace_started 1 SLoop) es = Some w ∧ user w = UReturned ∧ (1 ≤ m_count w)%nat.
Proof.
  cbv zeta. eexists. split; [vm_compute; reflexivity|]. split; [reflexivity|].
  apply (trace_completes_or_misses 1 SLoop [Source; User; User; Source; Sink; Source; Source; User; Source]); [left; reflexivity|vm_compute; reflexivity|reflexivity].
Defined.
Lemma trace_can_deadlock_witness : ∃ es w, watcher_run (trace_started 3 SLoop) es = Some w ∧
  user w = UWaiting ∧ source w = SBarrier ∧ m_count w = 3%nat ∧ ∀ e, watcher_step w e = None.
Proof. apply (trace_can_deadlock 3). lia. Defined.
