(* ===== verification/DataPlane.v ===== *)
(** * The data plane

    Models [src/internal/data_plane]: [client.cpp] (registration, endpoints, [await_send],
    network events) and [server.cpp] (tagged messages and their completion handlers), and
    the receive loop of [src/internal/ucx/receive_manager.cpp].  UCX is the environment: it
    decides whether a send is completed at once, in flight or refused, when receives
    complete, and in which order messages are probed.  A client and the workers of all
    servers share one [plane].

    Neither service can be started in this version: [Client::do_service_start] and
    [Server::do_service_start] end in LOG(FATAL) before they launch their progress engine.
    So the client is one that was constructed, whose request channel is null; and what is
    modelled of a server is its [DataPlaneServerWorker], whose [data_source] runs on a
    thread when somebody launches it. *)
From S2P Require Import Prelude Addresses Buffers Codable.
#[local] Open Scope Z_scope.

(** ** The client's tables *)
Record Client := mkClient {
  m_workers : gmap Z Z;                   (* instance id, worker address *)
  m_endpoints : gmap Z Z;                 (* instance id, the address its endpoint was made for *)
  m_ucx_request_channel : bool;
}.
Definition register_instance (instance_id worker_address : Z) : M Client () := λ c,
  match m_workers c !! instance_id with
  | Some _ => (Throw "instance_id already registered", c)
  | None => (Ret (), mkClient (<[instance_id := worker_address]> (m_workers c)) (m_endpoints c) (m_ucx_request_channel c))
  end.
(** The endpoint of an instance is made when it is first used. *)
Definition endpoint (id : Z) : M Client Z := λ c,
  match m_endpoints c !! id with
  | Some a => (Ret a, c)
  | None =>
      match m_workers c !! id with
      | None => (Throw "could not acquire ucx endpoint", c)
      | Some a => (Ret a, mkClient (m_workers c) (<[id := a]> (m_endpoints c)) (m_ucx_request_channel c))
      end
  end.
Definition is_connected_to (instance_id : Z) (c : Client) : bool := bool_decide (is_Some (m_workers c !! instance_id)).
Definition connections (c : Client) : nat := size (m_endpoints c).

(** ** Messages, requests and calls *)
Inductive ucs := UCS_OK | UCS_INPROGRESS | UCS_ERR.      (* what [ucp_tag_send_nbx] returns *)
Record message := mkMessage { to : Z; sender_tag : Z; payload : list Z }.
#[export] Instance message_eq_dec : EqDecision message.
Proof. solve_decision. Defined.
(** A running [data_source]: the address of its worker, its thread, and whether its
    subscriber is subscribed; [Gone] when it has returned or its process has aborted. *)
Inductive source_state := Subscribed | Unsubscribed | Gone.
#[export] Instance source_state_eq_dec : EqDecision source_state.
Proof. solve_decision. Defined.
Record source := mkSource { src_address : Z; src_thread : Z; src_state : source_state }.
(** An event passed to [on_next] of a subscriber: port address and block; with the message
    it was made from (ghost). *)
Record delivery := mkDelivery { d_subscriber : nat; d_event : Z * list Z; d_message : message }.

Section data_plane.
Context `{P : ProtoMessage} `{R : MemoryResource}.
Context (string_hash message_hash : Z).

Inductive content := SendObject (port_address : Z) (m : Message) | SendDescriptor (obj_id : Z).

Record plane := mkPlane {
  client : Client;
  memory : state;
  calls : list (res ());                  (* how the calls of the client returned *)
  wire : list message;                    (* sent and not yet probed *)
  sources : list source;
  static_subscriber : gmap Z nat;         (* thread_local: the source that set it last *)
  receiving : list message;               (* receives that UCX has not completed *)
  delivered : list delivery;              (* in order *)
  dropped : list message;                 (* probed by a source that has been stopped *)
  fatal : list (message * string);        (* messages that aborted the server *)
  sent : list (Z * content);              (* ghost: what was given to UCX *)
}.
Definition with_client c w := mkPlane c (memory w) (calls w) (wire w) (sources w) (static_subscriber w) (receiving w) (delivered w) (dropped w) (fatal w) (sent w).
Definition with_memory s w := mkPlane (client w) s (calls w) (wire w) (sources w) (static_subscriber w) (receiving w) (delivered w) (dropped w) (fatal w) (sent w).
Definition with_calls c w := mkPlane (client w) (memory w) c (wire w) (sources w) (static_subscriber w) (receiving w) (delivered w) (dropped w) (fatal w) (sent w).
Definition with_wire m g w := mkPlane (client w) (memory w) (calls w) m (sources w) (static_subscriber w) (receiving w) (delivered w) (dropped w) (fatal w) g.
Definition with_sources s t w := mkPlane (client w) (memory w) (calls w) (wire w) s t (receiving w) (delivered w) (dropped w) (fatal w) (sent w).
Definition with_server r d x f w := mkPlane (client w) (memory w) (calls w) (wire w) (sources w) (static_subscriber w) r d x f (sent w).

(** ** Sending *)
(** [codable::encode] of the proto into an object of its own, its single block, and the
    bytes that UCX reads from it. *)
Definition encode_message (m : Message) : M state (list Z * nat) := λ s,
  let '(r, w) := serialize string_hash message_hash (VMessage m) false (Codable.mkWorld s new_encoded) in
  (_ ← r;
   check (descriptor_count (enc w) =? 1)%nat "msg.descriptor_count() == 1" ;;
   b ← memory_block (enc w) 0;
   check (bk_bytes b =? Z.of_nat (length (SerializeToArray m))) "block.bytes() == ByteSizeLong()" ;;
   bs ← read_block (bk_data b) (bk_bytes b) (mem w);
   match m_buffers (enc w) with
   | [(_, i)] => Ret (bs, i)
   | _ => Undefined "no buffer"
   end, mem w).
(** The frame of a call ends: the message is destroyed and its blob with it. *)
Definition leave (msg : option nat) (x : res ()) (w : plane) : res () * plane :=
  match msg with
  | None => (x, w)
  | Some i => let '(r, s) := exec (BlobDestroy i) (memory w) in (match r with Ret _ => x | _ => r end, with_memory s w)
  end.
Definition return_new (msg : option nat) (x : res ()) (w : plane) : plane :=
  let '(x, w) := leave msg x w in with_calls (calls w ++ [x]) w.
(** The channel of the progress engine is made by [do_service_start] and null before;
    without it the call ends in the check. *)
Definition push_request (w : plane) : plane :=
  if m_ucx_request_channel (client w) then w else with_calls (calls w ++ [Abort "m_ucx_request_channel"]) w.
(** [ucp_tag_send_nbx] and what follows it in [await_send] and [issue_network_event]. *)
Definition send (id : Z) (c : content) (tag : Z) (bs : list Z) (msg : option nat) (out : ucs) (w : plane) : plane :=
  let '(r, cl) := endpoint id (client w) in
  let w := with_client cl w in
  match r with
  | Ret a =>
      let sent_w := with_wire (wire w ++ [mkMessage a tag bs]) (sent w ++ [(a, c)]) w in
      match out with
      | UCS_OK => return_new msg (Ret ()) sent_w
      | UCS_ERR => return_new msg (Throw "send failed") w
      | UCS_INPROGRESS => push_request sent_w
      end
  | Throw e => return_new msg (Throw e) w
  | _ => w
  end.
Definition await_send (id port_address : Z) (m : Message) (out : ucs) (w : plane) : plane :=
  let tag := Z.lor port_address INGRESS_TAG in
  match encode_message m (memory w) with
  | (Ret (bs, i), s) => send id (SendObject port_address m) tag bs (Some i) out (with_memory s w)
  | (Throw e, s) => with_calls (calls w ++ [Throw e]) (with_memory s w)
  | (Abort e, s) => with_calls (calls w ++ [Abort e]) (with_memory s w)
  | (Undefined e, s) => with_calls (calls w ++ [Undefined e]) (with_memory s w)
  end.
Definition decrement_remote_descriptor (id obj_id : Z) (out : ucs) (w : plane) : plane :=
  send id (SendDescriptor obj_id) (Z.lor obj_id DESCRIPTOR_TAG) [] None out w.

(** [do_service_start] makes the channel, and ends the process. *)
Definition client_service_start (w : plane) : plane :=
  with_calls (calls w ++ [Abort "get launch control from partition resources"])
    (with_client (mkClient (m_workers (client w)) (m_endpoints (client w)) true) w).

(** ** Receiving *)
(** The process of thread [t] ends; none of its sources goes on. *)
Definition gone (t : Z) (w : plane) : plane :=
  with_sources ((λ x, if src_thread x =? t then mkSource (src_address x) t Gone else x) <$> sources w) (static_subscriber w) w.
Definition abort_server (x : source) (m : message) (why : string) (w : plane) : plane :=
  gone (src_thread x) (with_server (receiving w) (delivered w) (dropped w) (fatal w ++ [(m, why)]) w).
Definition on_tagged_msg (x : source) (m : message) (w : plane) : plane :=
  let msg_type := tag_decode_msg_type (sender_tag m) in
  if msg_type =? INGRESS_TAG then with_server (receiving w ++ [m]) (delivered w) (dropped w) (fatal w) w
  else if msg_type =? DESCRIPTOR_TAG then abort_server x m "remote descriptor not implemented" w
  else if msg_type =? FUTURE_TAG then abort_server x m "remote futures/promises not implemented" w
  else abort_server x m "unknown network event received" w.
Definition running (x : source) : bool := bool_decide (src_state x ≠ Gone).
(** A receive of worker [to m] completes inside [progress], which the loop of a source of
    that worker calls, on its thread.  The handler knows the subscriber only by the
    [static_subscriber] of the thread; the pointer dangles when that source has returned. *)
Definition recv_completion_handler (k i : nat) (status : bool) (w : plane) : option plane :=
  x ← sources w !! k; m ← receiving w !! i;
  if running x && (src_address x =? to m) then
    let w' := with_server (delete i (receiving w)) (delivered w) (dropped w) (fatal w) w in
    Some (if negb status then abort_server x m "recv_completion_handler" w'
          else match static_subscriber w !! src_thread x with
               | None => abort_server x m "static_subscriber" w'
               | Some n =>
                   match src_state <$> sources w !! n with
                   | Some Subscribed =>
                       with_server (receiving w') (delivered w' ++ [mkDelivery n (tag_decode_user_tag (sender_tag m), payload m) m]) (dropped w') (fatal w') w'
                   | Some Unsubscribed => abort_server x m "static_subscriber->is_subscribed()" w'
                   | _ => abort_server x m "undefined behaviour: static_subscriber dangles" w'
                   end
               end)
  else None.

(** [data_source] starts: it sets the thread's static variable. *)
Definition data_source_start (a t : Z) (w : plane) : plane :=
  with_sources (sources w ++ [mkSource a t Subscribed]) (<[t := length (sources w)]> (static_subscriber w)) w.
Definition set_state (k : nat) (st : source_state) (w : plane) : plane :=
  with_sources (alter (λ x, mkSource (src_address x) (src_thread x) st) k (sources w)) (static_subscriber w) w.
(** A turn of its loop that probes message [i]: the probe removes the message before the
    subscription is checked. *)
Definition data_source (k i : nat) (w : plane) : option plane :=
  x ← sources w !! k; m ← wire w !! i;
  let w' := with_wire (delete i (wire w)) (sent w) w in
  if src_address x =? to m then
    match src_state x with
    | Subscribed => Some (on_tagged_msg x m w')
    | Unsubscribed => Some (set_state k Gone (with_server (receiving w') (delivered w') (dropped w' ++ [m]) (fatal w') w'))
    | Gone => None
    end
  else None.

(** ** Steps *)
Inductive event :=
| Register (id address : Z)
| AwaitSend (id port_address : Z) (m : Message) (out : ucs)
| Decrement (id obj_id : Z) (out : ucs)
| ServiceStart                            (* [Client::do_service_start] *)
| ServiceStop                             (* [Client::do_service_stop] *)
| Listen (a t : Z)                        (* [data_source] of worker [a] starts on thread [t] *)
| Unsubscribe (k : nat)
| Probe (k i : nat)
| Leave (k : nat)                         (* [data_source] probes none and is not subscribed *)
| Received (k i : nat) (status : bool).
(** The process of the client has ended with an abort. *)
Definition is_abort (x : res ()) : bool := match x with Abort _ | Undefined _ => true | _ => false end.
Definition aborted (w : plane) : bool := existsb is_abort (calls w).
Definition of_client (e : event) : bool :=
  match e with Listen _ _ | Unsubscribe _ | Probe _ _ | Leave _ | Received _ _ _ => false | _ => true end.
Definition step (w : plane) (e : event) : option plane :=
  if of_client e && aborted w then None else
  match e with
  | Register id a => Some (with_client (register_instance id a (client w)).2 w)
  | AwaitSend id port m out => if bool_decide (0 ≤ port < 2 ^ 48) then Some (await_send id port m out w) else None
  | Decrement id obj out => Some (decrement_remote_descriptor id obj out w)
  | ServiceStart => Some (client_service_start w)
  | ServiceStop => Some (with_client (mkClient (m_workers (client w)) (m_endpoints (client w)) false) w)
  | Listen a t => Some (data_source_start a t w)
  | Unsubscribe k => match src_state <$> sources w !! k with Some Subscribed => Some (set_state k Unsubscribed w) | _ => None end
  | Probe k i => data_source k i w
  | Leave k => match src_state <$> sources w !! k with Some Unsubscribed => Some (set_state k Gone w) | _ => None end
  | Received k i b => recv_completion_handler k i b w
  end.
Fixpoint run (w : plane) (es : list event) : option plane :=
  match es with [] => Some w | e :: es => w' ← step w e; run w' es end.
Definition start : plane := mkPlane (mkClient ∅ ∅ false) empty_state [] [] [] ∅ [] [] [] [] [].
End data_plane.

(** Whatever the object id, the tag of a descriptor is never taken for that of an object. *)
Lemma descriptor_tag o : tag_decode_msg_type (Z.lor o DESCRIPTOR_TAG) = DESCRIPTOR_TAG ∨ tag_decode_msg_type (Z.lor o DESCRIPTOR_TAG) = 0.
Proof.
  unfold tag_decode_msg_type. set (x := Z.land (Z.shiftr o 60) (Z.ones 4)).
  assert (Z.land (Z.lor o DESCRIPTOR_TAG) MSG_TYPE_MASK = Z.shiftl (Z.lor x 4) 60) as ->.
  { change DESCRIPTOR_TAG with (Z.shiftl 4 60). change MSG_TYPE_MASK with (Z.shiftl (Z.ones 4) 60). apply Z.bits_inj'. intros n Hn.
    rewrite Z.land_spec, Z.lor_spec. destruct (Z.lt_ge_cases n 60); [by rewrite !Z.shiftl_spec_low, andb_false_r by lia|].
    rewrite !Z.shiftl_spec, Z.lor_spec by lia. unfold x. rewrite Z.land_spec, Z.shiftr_spec by lia. replace (n - 60 + 60) with n by lia.
    destruct (Z.lt_ge_cases (n - 60) 4); [rewrite Z.ones_spec_low by lia; by rewrite !andb_true_r|].
    rewrite Z.ones_spec_high by lia. rewrite !andb_false_r. symmetry. apply (Z.bits_above_log2 4); simpl; lia. }
  assert (0 ≤ x < 16) as Hx by (unfold x; rewrite Z.land_ones by lia; apply Z.mod_pos_bound; lia).
  assert (x = 0 ∨ x = 1 ∨ x = 2 ∨ x = 3 ∨ x = 4 ∨ x = 5 ∨ x = 6 ∨ x = 7 ∨ x = 8 ∨ x = 9 ∨ x = 10 ∨ x = 11 ∨ x = 12 ∨ x = 13 ∨ x = 14 ∨ x = 15) as H by lia.
  clearbody x. destruct_or! H; subst x; vm_compute; auto.
Qed.

Section proofs.
Context `{PL : ProtoLaws} `{R : MemoryResource, !MemoryResourceLaws R}.
Context (string_hash message_hash : Z).
(** The resource has memory, of a kind that can be described. *)
Hypothesis place_ok : ∀ h n, 0 < n → (mr_place h n).1 ≠ 0.
Hypothesis kind_ok : mr_kind ≠ kind_none.
Notation encode_message := (encode_message string_hash message_hash).
Notation step := (step string_hash message_hash).
Notation run := (run string_hash message_hash).
Implicit Types (w : plane) (e : event).

(** ** Memory of a call *)
Lemma encode_run m s : Inv [] [] [] s → SerializeToArray m ≠ [] →
  ∃ s', encode_message m s = (Ret (SerializeToArray m, length (blobs s)), s') ∧ Inv [] [] [] s'.
Proof.
  intros HI Hm. set (w1 := Codable.mkWorld s (mkEncoded [] [mkObject 0 message_hash] [] true)).
  destruct (copy_run place_ok kind_ok (SerializeToArray m) w1 eq_refl Hm) as (w2 & d & Hc & _ & (p & k & k' & -> & Hk & Hp) & Hctx & Hd & Ho).
  destruct (copy_returns kind_ok [] [] 0 (length (blobs s)) (SerializeToArray m) w1 () w2 ltac:(done) Hc) as (HI2 & Hb & _).
  exists (mem w2). split; [|done]. unfold DataPlane.encode_message, serialize.
  rewrite (bind_ret _ _ _ () w1) by done. rewrite (bind_ret _ _ _ () w2) by done. unfold release_encoding_context. rewrite Hctx. simpl.
  unfold descriptor_count, memory_block, at_index. simpl. rewrite Hd. simpl. unfold decode_descriptor. simpl. rewrite Hk. simpl. rewrite Z.eqb_refl. simpl.
  rewrite (read_whole p _ _ Hp), Hb. done.
Qed.
Lemma empty_encode m s : SerializeToArray m = [] → ∃ x s', encode_message m s = (Abort x, s').
Proof.
  intros Hm. unfold DataPlane.encode_message. pose proof (empty_message_aborts string_hash message_hash m false s Hm) as H1.
  destruct (serialize _ _ _ _ _) as [r w]. simpl in H1. subst r. by eexists _, _.
Qed.
Lemma drop_ref_pointer k s : (drop_ref k s).1 ≠ Undefined null_pointer.
Proof.
  unfold drop_ref. destruct (storages s !! k) as [st|]; [|done]. destruct (_ =? 0)%nat; [|done]. destruct (slots s !! st_slot st) as [[b|b|]|]; try done.
  unfold mbind, M_bind, release, deallocate, mbind, M_bind. destruct (bool_decide _); [|done]. simpl. destruct (heap s !! m_buffer b); [|done]. by destruct (_ =? _).
Qed.
Lemma destroy_run i s : Inv [] [] [] s → ∃ s', exec (BlobDestroy i) s = (Ret (), s') ∧ Inv [] [] [] s'.
Proof.
  intros HI. pose proof (exec_safe [] (BlobDestroy i) s HI) as H1. destruct (exec (BlobDestroy i) s) as [[[]|x|x|x] s'] eqn:E; [by exists s'|done..|].
  subst x. exfalso. simpl in E. unfold on_blob in E. destruct (blobs s !! i) as [[b|]|]; [|done..]. unfold mbind, M_bind in E. simpl in E.
  destruct b as [k|]; [|done]. simpl in E. eapply drop_ref_pointer. by rewrite E.
Qed.

(** ** Every message is accounted for *)
Definition message_of (x : Z * content) : message :=
  match x.2 with
  | SendObject p m => mkMessage x.1 (Z.lor p INGRESS_TAG) (SerializeToArray m)
  | SendDescriptor o => mkMessage x.1 (Z.lor o DESCRIPTOR_TAG) []
  end.
Definition is_port (p : Z) : Prop := 0 ≤ p < 2 ^ 48.
(** The subscriber of a delivery runs on the thread of a source of the worker that the
    message was sent to. *)
Definition same_thread (l : list source) (d : delivery) : Prop :=
  ∃ k x y, l !! k = Some x ∧ src_address x = to (d_message d) ∧ l !! d_subscriber d = Some y ∧ src_thread y = src_thread x.
Record delivery_ok (l : list source) (d : delivery) : Prop := {
  d_tag : tag_decode_msg_type (sender_tag (d_message d)) = INGRESS_TAG;
  d_made : d_event d = (tag_decode_user_tag (sender_tag (d_message d)), payload (d_message d));
  d_thread : same_thread l d;
}.
Record Accounted w : Prop := {
  a_perm : message_of <$> sent w ≡ₚ wire w ++ receiving w ++ (d_message <$> delivered w) ++ dropped w ++ (fatal w).*1;
  a_port a p m : (a, SendObject p m) ∈ sent w → is_port p;
  a_recv m : m ∈ receiving w → tag_decode_msg_type (sender_tag m) = INGRESS_TAG;
  a_deliv d : d ∈ delivered w → delivery_ok (sources w) d;
  a_static t n : static_subscriber w !! t = Some n → ∃ y, sources w !! n = Some y ∧ src_thread y = t;
  a_mem : aborted w = false → Inv [] [] [] (memory w);
  a_endpoints : m_endpoints (client w) ⊆ m_workers (client w);
}.

(** Sources keep their worker and thread. *)
Definition kept (l l' : list source) : Prop :=
  ∀ k x, l !! k = Some x → ∃ x', l' !! k = Some x' ∧ src_address x' = src_address x ∧ src_thread x' = src_thread x.
Lemma kept_refl l : kept l l.
Proof. intros k x Hk. by exists x. Qed.
Lemma delivery_kept l l' d : kept l l' → delivery_ok l d → delivery_ok l' d.
Proof.
  intros Hk [H1 H2 (k & x & y & Hx & Ha & Hy & Ht)]. split; [done..|]. destruct (Hk _ _ Hx) as (x' & Hx' & Ea & Et). destruct (Hk _ _ Hy) as (y' & Hy' & _ & Et').
  exists k, x', y'. split_and!; [done|congruence|done|congruence].
Qed.
Lemma static_kept l l' (m : gmap Z nat) : kept l l' → (∀ t n, m !! t = Some n → ∃ y, l !! n = Some y ∧ src_thread y = t) →
  ∀ t n, m !! t = Some n → ∃ y, l' !! n = Some y ∧ src_thread y = t.
Proof. intros Hk Hm t n Hn. destruct (Hm t n Hn) as (y & Hy & Ht). destruct (Hk _ _ Hy) as (y' & ? & _ & ?). exists y'. split; [done|congruence]. Qed.
(** What the client's side of a step changes. *)
Lemma accounted_client w w' x : Accounted w → sent w' = sent w ++ x → wire w' = wire w ++ (message_of <$> x) → (∀ a p m, (a, SendObject p m) ∈ x → is_port p) →
  receiving w' = receiving w → delivered w' = delivered w → dropped w' = dropped w → fatal w' = fatal w → sources w' = sources w → static_subscriber w' = static_subscriber w →
  (aborted w' = false → Inv [] [] [] (memory w')) → m_endpoints (client w') ⊆ m_workers (client w') → Accounted w'.
Proof.
  intros [H1 H2 H3 H4 H5 _ _] Es Ew Hx Er Ed Ex Ef Eso Est Hmem Hep. split; try done.
  - rewrite Es, Ew, Er, Ed, Ex, Ef, fmap_app, H1, <-!app_assoc. by rewrite (Permutation_app_comm (message_of <$> x)), <-!app_assoc.
  - intros a p m. rewrite Es. intros [?|?]%elem_of_app; eauto.
  - by rewrite Er.
  - by rewrite Ed, Eso.
  - by rewrite Est, Eso.
Qed.
Lemma plane_same w w' : Accounted w → sent w' = sent w → wire w' = wire w →
  receiving w' = receiving w → delivered w' = delivered w → dropped w' = dropped w → fatal w' = fatal w → sources w' = sources w → static_subscriber w' = static_subscriber w →
  (aborted w' = false → Inv [] [] [] (memory w')) → m_endpoints (client w') ⊆ m_workers (client w') → Accounted w'.
Proof. intros HA Es Ew. apply (accounted_client w w' []); rewrite ?app_nil_r; auto. by intros ? ? ? ?%elem_of_nil. Qed.
(** The end of a call frees its message. *)
Lemma leave_run msg x w : Inv [] [] [] (memory w) → ∃ s, leave msg x w = (x, with_memory s w) ∧ Inv [] [] [] s.
Proof.
  intros HI. unfold leave. destruct msg as [i|]; [|exists (memory w); by destruct w].
  destruct (destroy_run i (memory w) HI) as (s & -> & Hs). by exists s.
Qed.
Lemma existsb_snoc {A} (f : A → bool) l x : existsb f (l ++ [x]) = existsb f l || f x.
Proof. rewrite existsb_app. simpl. by rewrite orb_false_r. Qed.
Lemma endpoint_ok id c : m_endpoints c ⊆ m_workers c →
  let '(r, c') := endpoint id c in
  m_endpoints c' ⊆ m_workers c' ∧ m_workers c' = m_workers c ∧ m_ucx_request_channel c' = m_ucx_request_channel c ∧
  match r with Ret a => m_workers c !! id = Some a | Throw _ => m_workers c !! id = None | _ => False end.
Proof.
  intros Hs. unfold endpoint. destruct (m_endpoints c !! id) as [a|] eqn:Ee; [split_and!; try done; by eapply lookup_weaken|].
  destruct (m_workers c !! id) as [a|] eqn:Ew; simpl; [|done]. split_and!; try done. by apply insert_subseteq_l.
Qed.
Lemma send_accounted id c bs msg out w : Accounted w → aborted w = false → bs = payload (message_of (0, c)) →
  (∀ p m, c = SendObject p m → is_port p) → Accounted (send id c (sender_tag (message_of (0, c))) bs msg out w).
Proof.
  intros HA Hab Hbs Hport. pose proof (a_mem w HA Hab) as HI. unfold send. pose proof (endpoint_ok id (client w) (a_endpoints w HA)) as He.
  destruct (endpoint id (client w)) as [r cl]. destruct He as (He & _ & _ & Hr).
  assert (∀ a, mkMessage a (sender_tag (message_of (0, c))) bs = message_of (a, c)) as Hmsg by (intros a; subst bs; by destruct c).
  destruct r as [a|x|x|x]; [|unfold return_new; destruct (leave_run msg (Throw x) (with_client cl w) HI) as (s & -> & Hs); by apply (plane_same w)|done..].
  rewrite Hmsg. destruct out.
  - unfold return_new. destruct (leave_run msg (Ret ()) (with_wire (wire (with_client cl w) ++ [message_of (a, c)]) (sent (with_client cl w) ++ [(a, c)]) (with_client cl w)) HI) as (s & -> & Hs).
    apply (accounted_client w _ [(a, c)]); try done. intros a' p m. rewrite list_elem_of_singleton. intros [= -> <-]. by eapply Hport.
  - assert (∀ a' p m, (a', SendObject p m) ∈ [(a, c)] → is_port p) by (intros a' p m; rewrite list_elem_of_singleton; intros [= -> <-]; by eapply Hport).
    unfold push_request. simpl. destruct (m_ucx_request_channel cl); by apply (accounted_client w _ [(a, c)]).
  - unfold return_new. destruct (leave_run msg (Throw "send failed") (with_client cl w) HI) as (s & -> & Hs). by apply (plane_same w).
Qed.
Lemma await_send_accounted id p m out w : Accounted w → aborted w = false → is_port p → Accounted (await_send string_hash message_hash id p m out w).
Proof.
  intros HA Hab Hp. unfold await_send. destruct (decide (SerializeToArray m = [])) as [Hm|Hm].
  - destruct (empty_encode m (memory w) Hm) as (x & s & ->). apply (plane_same w); try done; [|apply HA].
    unfold aborted. simpl. rewrite existsb_snoc, orb_true_r. done.
  - destruct (encode_run m (memory w) (a_mem w HA Hab) Hm) as (s & -> & Hs).
    apply (send_accounted id (SendObject p m)); [|done|done|by intros ? ? [= <- _]]. apply (plane_same w); try done. apply HA.
Qed.

Lemma delete_perm {A} (l : list A) i x : l !! i = Some x → l ≡ₚ x :: delete i l.
Proof. apply delete_Permutation. Qed.
(** What the servers' side of a step moves. *)
Lemma accounted_server w w' : Accounted w → client w' = client w → memory w' = memory w → calls w' = calls w → sent w' = sent w →
  wire w' ++ receiving w' ++ (d_message <$> delivered w') ++ dropped w' ++ (fatal w').*1 ≡ₚ
    wire w ++ receiving w ++ (d_message <$> delivered w) ++ dropped w ++ (fatal w).*1 →
  (∀ m, m ∈ receiving w' → m ∈ receiving w ∨ tag_decode_msg_type (sender_tag m) = INGRESS_TAG) →
  kept (sources w) (sources w') → static_subscriber w' = static_subscriber w →
  (∀ d, d ∈ delivered w' → d ∈ delivered w ∨ delivery_ok (sources w) d) → Accounted w'.
Proof.
  intros [H1 H2 H3 H4 H5 H6 H7] Ec Em Ek Es Hp Hr Hk Est Hd. split; rewrite ?Es, ?Em, ?Ec, ?Est; unfold aborted; rewrite ?Ek; auto.
  - by rewrite Hp.
  - intros m Hm. destruct (Hr m Hm); auto.
  - intros d Hm. apply (delivery_kept _ _ _ Hk). destruct (Hd d Hm); auto.
  - by eapply static_kept.
Qed.
Lemma gone_kept t l : kept l ((λ x, if src_thread x =? t then mkSource (src_address x) t Gone else x) <$> l).
Proof.
  intros k x Hk. eexists. rewrite list_lookup_fmap, Hk. split; [done|]. simpl. destruct (Z.eqb_spec (src_thread x) t) as [->|]; done.
Qed.
Lemma alter_kept k st l : kept l (alter (λ x, mkSource (src_address x) (src_thread x) st) k l).
Proof.
  intros j x Hj. destruct (decide (j = k)) as [->|Hn]; [rewrite list_lookup_alter_eq, Hj; by eexists|]. rewrite list_lookup_alter_ne by done. by exists x.
Qed.
(** A message that is taken out and then aborts the server. *)
Lemma abort_accounted w w1 x m why : Accounted w → client w1 = client w → memory w1 = memory w → calls w1 = calls w → sent w1 = sent w →
  sources w1 = sources w → static_subscriber w1 = static_subscriber w → delivered w1 = delivered w →
  wire w ++ receiving w ++ dropped w ++ (fatal w).*1 ≡ₚ m :: wire w1 ++ receiving w1 ++ dropped w1 ++ (fatal w1).*1 →
  (∀ y, y ∈ receiving w1 → y ∈ receiving w) → Accounted (abort_server x m why w1).
Proof.
  intros HA Ec Em Ek Es Eso Est Ed Hp Hr. apply (accounted_server w); try done; simpl.
  - rewrite Ed, fmap_app. simpl. rewrite (Permutation_app_comm (d_message <$> delivered w) (dropped w1 ++ _)), (Permutation_app_comm (d_message <$> delivered w) (dropped w ++ _)).
    rewrite !app_assoc. apply Permutation_app_tail. rewrite <-!app_assoc, Hp, !app_assoc. by rewrite <-Permutation_cons_append.
  - intros y Hy. left. by apply Hr.
  - rewrite Eso. apply gone_kept.
  - intros d Hd. left. by rewrite Ed in Hd.
Qed.
Lemma probe_accounted w x m i : Accounted w → wire w !! i = Some m → Accounted (on_tagged_msg x m (with_wire (delete i (wire w)) (sent w) w)).
Proof.
  intros HA Hi. pose proof (delete_perm _ _ _ Hi) as Hw. unfold on_tagged_msg.
  destruct (Z.eqb_spec (tag_decode_msg_type (sender_tag m)) INGRESS_TAG) as [Ht|_].
  { apply (accounted_server w); try done; simpl; [|set_solver|apply kept_refl|by left]. rewrite Hw at 2. simpl. rewrite <-!app_assoc. simpl. by rewrite !Permutation_middle. }
  assert (∀ why, Accounted (abort_server x m why (with_wire (delete i (wire w)) (sent w) w))) as Ha.
  { intros why. apply (abort_accounted w); try done; simpl. by rewrite Hw at 1. }
  destruct (_ =? DESCRIPTOR_TAG); [apply Ha|]. destruct (_ =? FUTURE_TAG); apply Ha.
Qed.
Lemma received_accounted w k i b w' : Accounted w → recv_completion_handler k i b w = Some w' → Accounted w'.
Proof.
  intros HA. unfold recv_completion_handler. destruct (sources w !! k) as [x|] eqn:Hx; [|done]. simpl. destruct (receiving w !! i) as [m|] eqn:Hi; [|done]. simpl.
  destruct (running x); simpl; [|done]. destruct (Z.eqb_spec (src_address x) (to m)) as [Ha|]; [|done]. pose proof (delete_perm _ _ _ Hi) as Hr.
  assert (∀ y, y ∈ delete i (receiving w) → y ∈ receiving w) as Hsub by (intros y Hy; rewrite Hr; by right).
  assert (∀ why, Accounted (abort_server x m why (with_server (delete i (receiving w)) (delivered w) (dropped w) (fatal w) w))) as Hab.
  { intros why. apply (abort_accounted w); try done; simpl. rewrite Hr at 1. simpl. symmetry. apply Permutation_middle. }
  intros [= <-]. destruct b; [|apply Hab]. simpl. destruct (static_subscriber w !! src_thread x) as [n|] eqn:Hn; [|apply Hab].
  destruct (a_static w HA _ _ Hn) as (y & Hy & Hth). rewrite Hy. simpl. destruct (src_state y); [|apply Hab..].
  apply (accounted_server w); try done; simpl; [|by eauto|apply kept_refl|].
  - rewrite Hr at 2. rewrite fmap_app, <-!app_assoc. simpl. by rewrite !Permutation_middle.
  - intros d [?|Hd]%elem_of_app; [by left|]. right. apply list_elem_of_singleton in Hd as ->. split; simpl; [apply (a_recv w HA); by eapply list_elem_of_lookup_2|done|].
    exists k, x, y. split_and!; done.
Qed.
Lemma listen_accounted w a t : Accounted w → Accounted (data_source_start a t w).
Proof.
  intros [H1 H2 H3 H4 H5 H6 H7]. assert (kept (sources w) (sources w ++ [mkSource a t Subscribed])) as Hk.
  { intros k x Hx. exists x. split; [|done]. by apply lookup_app_l_Some. }
  split; simpl; try done.
  - intros d Hd. apply (delivery_kept _ _ _ Hk). by apply H4.
  - intros t' n. destruct (decide (t = t')) as [<-|Hne].
    + rewrite lookup_insert_eq. intros [= <-]. exists (mkSource a t Subscribed). rewrite lookup_app_r, Nat.sub_diag by lia. done.
    + rewrite lookup_insert_ne by done. by apply (static_kept _ _ _ Hk H5).
Qed.
Lemma state_accounted w k st : Accounted w → Accounted (set_state k st w).
Proof. intros HA. apply (accounted_server w); try done; simpl; [by left|apply alter_kept|by left]. Qed.
Lemma step_accounted w e w' : Accounted w → step w e = Some w' → Accounted w'.
Proof.
  intros HA. unfold DataPlane.step, data_source. destruct (of_client e && aborted w) eqn:Hab; [done|]. destruct e as [id a|id p m out|id o out| | |a t|k|k i|k|k i b]; simpl in Hab.
  - intros [= <-]. apply (plane_same w); try done; [apply HA|]. unfold register_instance. simpl. destruct (m_workers (client w) !! id) eqn:E; simpl; [apply HA|].
    etrans; [apply HA|by apply insert_subseteq].
  - case_bool_decide; [|done]. intros [= <-]. by apply await_send_accounted.
  - intros [= <-]. by apply (send_accounted id (SendDescriptor o)).
  - intros [= <-]. apply (plane_same w); try done; [|apply HA]. unfold aborted. simpl. by rewrite existsb_snoc, orb_true_r.
  - intros [= <-]. apply (plane_same w); try done; apply HA.
  - intros [= <-]. by apply listen_accounted.
  - destruct (src_state <$> sources w !! k) as [[]|]; try done. intros [= <-]. by apply state_accounted.
  - destruct (sources w !! k) as [x|] eqn:Hx; [|done]. simpl. destruct (wire w !! i) as [m|] eqn:Hi; [|done]. simpl. destruct (_ =? to m); [|done].
    destruct (src_state x); [| |done]; intros [= <-]; [by apply probe_accounted|]. pose proof (delete_perm _ _ _ Hi) as Hw.
    apply (accounted_server w); try done; simpl; [|by left|apply alter_kept|by left]. rewrite Hw at 2. rewrite <-!app_assoc. simpl. by rewrite !Permutation_middle.
  - destruct (src_state <$> sources w !! k) as [[]|]; try done. intros [= <-]. by apply state_accounted.
  - by apply received_accounted.
Qed.
Lemma start_accounted : Accounted start.
Proof.
  split; simpl; try done; [by intros ? ? ? ?%elem_of_nil|by intros ? ?%elem_of_nil|by intros ? ?%elem_of_nil|]. intros _. apply empty_inv.
Qed.
Lemma run_accounted es w w' : Accounted w → run w es = Some w' → Accounted w'.
Proof.
  revert w. induction es as [|e es IH]; intros w HA; simpl; [by intros [= <-]|]. destruct (step w e) as [w1|] eqn:E; [|done]. simpl. intros Hr. by eapply IH; [eapply step_accounted|].
Qed.



(** A client that decrements a remote descriptor ends the process of its peer: the
    message reaches a server that handles only objects, and aborts whatever the object
    id. *)
Theorem decrement_aborts_peer es w id o k x : run start es = Some w → aborted w = false →
  m_workers (client w) !! id = Some (src_address x) → sources w !! k = Some x → src_state x = Subscribed →
  ∃ w1 w2 why, step w (Decrement id o UCS_OK) = Some w1 ∧ step w1 (Probe k (length (wire w))) = Some w2 ∧
    src_state <$> sources w2 !! k = Some Gone ∧ fatal w2 = fatal w ++ [(mkMessage (src_address x) (Z.lor o DESCRIPTOR_TAG) [], why)].
Proof.
  intros Hr Hab Hw Hk Hst. pose proof (run_accounted _ _ _ start_accounted Hr) as HA. pose proof (endpoint_ok id (client w) (a_endpoints w HA)) as He.
  destruct (endpoint id (client w)) as [r cl] eqn:Ee. destruct He as (_ & _ & _ & Hr'). destruct r as [a'|y|y|y]; [|congruence|done..]. rewrite Hw in Hr'. simplify_eq.
  unfold DataPlane.step, data_source. simpl. rewrite Hab. unfold decrement_remote_descriptor, send. rewrite Ee. simpl. eexists.
  assert (∀ (p : plane), sources p = sources w → src_state <$> sources (gone (src_thread x) p) !! k = Some Gone) as Hg.
  { intros p Ep. simpl. rewrite Ep, list_lookup_fmap, Hk. simpl. by rewrite Z.eqb_refl. }
  destruct (descriptor_tag o) as [Et|Et].
  - eexists _, _. split; [done|]. simpl. rewrite Hk. simpl. rewrite lookup_app_r, Nat.sub_diag by lia. simpl. rewrite Z.eqb_refl, Hst. simpl. split; [done|].
    unfold on_tagged_msg. simpl. rewrite Et. simpl. split; [by apply Hg|done].
  - eexists _, _. split; [done|]. simpl. rewrite Hk. simpl. rewrite lookup_app_r, Nat.sub_diag by lia. simpl. rewrite Z.eqb_refl, Hst. simpl. split; [done|].
    unfold on_tagged_msg. simpl. rewrite Et. simpl. split; [by apply Hg|done].
Qed.
End proofs.

(** ** The receive loop of [TaggedReceiveManager] *)
Inductive action := Handle | Yield | SleepFor (ns : Z) | Finish.
(** One turn of the inner loop: whether a message was probed, whether [progress] did
    anything, and [m_running]. *)
Definition receive_turn (probed progressed m_running : bool) (backoff : Z) : action * Z :=
  if probed then (Handle, 0)
  else
    let backoff := if progressed then 1 else backoff in
    if negb m_running then (Finish, backoff)
    else
      let backoff := if backoff <? 1048576 then u32 (Z.shiftl backoff 1) else backoff in
      (if backoff <? 32768 then Yield else SleepFor backoff, backoff).
Fixpoint progress_engine (turns : list (bool * bool * bool)) (backoff : Z) : list action :=
  match turns with
  | [] => []
  | (probed, progressed, m_running) :: turns =>
      let '(a, b) := receive_turn probed progressed m_running backoff in
      a :: match a with Finish => [] | _ => progress_engine turns b end
  end.
Definition is_backoff (b : Z) : Prop := b = 0 ∨ ∃ k, 0 ≤ k ≤ 20 ∧ b = 2 ^ k.
Lemma double_backoff k : 0 ≤ k < 20 → u32 (Z.shiftl (2 ^ k) 1) = 2 ^ (k + 1).
Proof.
  intros Hk. rewrite Z.shiftl_mul_pow2, <-Z.pow_add_r by lia. apply u32_small. pose proof (Z.pow_le_mono_r 2 (k + 1) 20 ltac:(lia) ltac:(lia)).
  split; [apply Z.pow_nonneg; lia|]. simpl in *. lia.
Qed.
Lemma receive_turn_bounds probed progressed m_running b : is_backoff b →
  let '(a, b') := receive_turn probed progressed m_running b in is_backoff b' ∧ ∀ ns, a = SleepFor ns → 32768 ≤ ns ≤ 1048576.
Proof.
  intros Hb. unfold receive_turn. destruct probed; [by split; [left|]|].
  assert (is_backoff (if progressed then 1 else b)) as Hb' by (destruct progressed; [right; by exists 0|done]). revert Hb'. generalize (if progressed then 1 else b). clear Hb b. intros b Hb.
  destruct m_running; simpl; [|done].
  assert (is_backoff (if b <? 1048576 then u32 (Z.shiftl b 1) else b)) as Hb'.
  { destruct (Z.ltb_spec b 1048576) as [Hlt|]; [|done]. destruct Hb as [->|(k & Hk & ->)]; [by left|]. right.
    assert (k ≠ 20) by (intros ->; done). exists (k + 1). split; [lia|]. apply double_backoff. lia. }
  split; [done|]. intros ns. destruct (Z.ltb_spec (if b <? 1048576 then u32 (Z.shiftl b 1) else b) 32768); [done|]. intros [= <-]. split; [done|].
  destruct Hb' as [->|(k & Hk & ->)]; [done|]. apply (Z.pow_le_mono_r 2 k 20); lia.
Qed.
(** The loop never sleeps for less than 32768 or more than 1048576 nanoseconds. *)
Theorem sleeps_bounded turns ns : SleepFor ns ∈ progress_engine turns 1 → 32768 ≤ ns ≤ 1048576.
Proof.
  assert (is_backoff 1) as Hb by (right; by exists 0). revert Hb. generalize 1. induction turns as [|[[p g] m] turns IH]; intros b Hb; simpl; [by intros ?%elem_of_nil|].
  pose proof (receive_turn_bounds p g m b Hb) as H. destruct (receive_turn p g m b) as [a b']. destruct H as [Hb' Hns].
  intros [<-|Hin]%elem_of_cons; [by apply Hns|]. destruct a; [by apply (IH b')..|by apply elem_of_nil in Hin].
Qed.
(** Idle from the start, the loop yields fourteen times and then sleeps. *)
Theorem idle_loop_sleeps n : take 14 (progress_engine (replicate (15 + n) (false, false, true)) 1) = replicate 14 Yield ∧
  progress_engine (replicate (15 + n) (false, false, true)) 1 !! 14%nat = Some (SleepFor 32768).
Proof. by split. Qed.
(** After the first message the loop never sleeps again while it is idle: the back off
    is reset to zero, not to one, and doubling keeps it there. *)
Theorem idle_after_message_spins n : progress_engine ((true, false, true) :: replicate n (false, false, true)) 1 = Handle :: replicate n Yield.
Proof.
  change (Handle :: progress_engine (replicate n (false, false, true)) 0 = Handle :: replicate n Yield). f_equal. induction n as [|n IH]; [done|].
  change (Yield :: progress_engine (replicate n (false, false, true)) 0 = Yield :: replicate n Yield). by rewrite IH.
Qed.

(** ** Concrete runs *)
#[local] Instance bytes_proto : ProtoMessage :=
  {| Message := list Z; message_url := "bytes"; SerializeToArray m := m; ParseFromArray bs := Some bs |}.
#[local] Instance bytes_proto_laws : ProtoLaws bytes_proto.
Proof. by split. Qed.
Definition two_bytes : @Message bytes_proto := [8; 9].
(** Two objects sent from instance 1 to the worker at 500, which runs on thread 1. *)
Definition two_sends : list event :=
  [Register 1 500; Listen 500 1; AwaitSend 1 7 two_bytes UCS_OK; AwaitSend 1 9 two_bytes UCS_OK; Probe 0 1; Received 0 0 true; Probe 0 0].
Lemma place_nonzero (h : heap_t) n : 0 < n → (mr_place h n).1 ≠ 0.
Proof. intros _. simpl. pose proof (top_nonneg h). lia. Qed.
(** Two workers on one thread: the object sent to the worker at 500 is delivered to the
    subscriber of the worker at 600, which started later. *)
Theorem shared_thread_misdelivers :
  ∃ w, run 2 3 start [Register 1 500; Listen 500 1; Listen 600 1; AwaitSend 1 7 two_bytes UCS_OK; Probe 0 0; Received 0 0 true] = Some w ∧
    sent w = [(500, SendObject 7 two_bytes)] ∧ delivered w = [mkDelivery 1 (7, [8; 9]) (mkMessage 500 (Z.lor 7 INGRESS_TAG) [8; 9])] ∧
    src_address <$> sources w !! 1%nat = Some 600.
Proof. eexists. split; [vm_compute; reflexivity|]. done. Qed.
(** A send that UCX leaves in flight ends the process: the channel of the progress engine
    is null, since starting the client ends the process too. *)
Theorem send_in_flight_aborts :
  ∃ w, run 2 3 start [Register 1 500; AwaitSend 1 7 two_bytes UCS_INPROGRESS] = Some w ∧ calls w = [Abort "m_ucx_request_channel"] ∧
  ∃ w', run 2 3 start [ServiceStart] = Some w' ∧ calls w' = [Abort "get launch control from partition resources"].
Proof. eexists. split; [vm_compute; reflexivity|]. split; [done|]. eexists. split; [vm_compute; reflexivity|]. done. Qed.
Definition after_two_sends : plane := default start (run 2 3 start two_sends).
Lemma decrement_aborts_peer_witness :
  ∃ w1 w2 why, step 2 3 after_two_sends (Decrement 1 77 UCS_OK) = Some w1 ∧ step 2 3 w1 (Probe 0 (length (wire after_two_sends))) = Some w2 ∧
    src_state <$> sources w2 !! 0%nat = Some Gone ∧ fatal w2 = fatal after_two_sends ++ [(mkMessage 500 (Z.lor 77 DESCRIPTOR_TAG) [], why)].
Proof.
  apply (decrement_aborts_peer 2 3 place_nonzero ltac:(done) two_sends after_two_sends 1 77 0%nat (mkSource 500 1 Subscribed)); vm_compute; reflexivity.
Defined.
